(* ===== verification/_CoqProject ===== *)
-Q . S2P
Prelude.v
RustStr.v
Bytes.v
Msgpack.v
Economy.v
Reliability.v
Packet.v
Frames.v
Cidr.v
Network.v
Queue.v
Deferrals.v
Handshake.v
Identity.v
Admission.v
Inventory.v
Framework.v
Ecs.v
Planes.v
Resource.v
Lifecycle.v
Download.v
Scheduler.v
StateBag.v
ServerCfg.v
Includes.v
Normalize.v
Vfs.v
Persistence.v
Snapshot.v
Ha.v
Sharding.v
Assets.v
Cache.v
Streaming.v
Float64.v
Fxmanifest.v
Query.v
Negotiation.v
Access.v
Database.v
Spatial.v
Timeline.v
Cfxlua.v
Ecma335.v
Client.v
Aegis.v
AegisOps.v
Release.v
Ip.v
Edge.v
Server.v
Astryn.v
Game.v
Security.v
Upgrade.v
