(* ===== verification/Prelude.v ===== *)
(** * Aldivine: the decision logic of the platform

    This library models the core of the Aldivine multiplayer platform, a Rust
    workspace, and proves what its components promise. A definition has the name
    and the shape of the function it models; PROJECT.json maps each to its lines.

    ** The program and the files

    A client reaches the server over AstraNet datagrams, through an edge gateway
    if there is one, and is admitted step by step; admitted players act on
    entities, accounts and inventories; resources are resolved, loaded, started
    and budgeted; files and assets are downloaded in chunks into a cache;
    operators work through the Aegis backend; releases are signed and checked.

    - AstraNet. Packet.v is the datagram codec (crates/ald-protocol/src:
      packet.rs, channel.rs), Frames.v the event and transfer frames around a
      JSON codec (event.rs, transfer.rs), Reliability.v the duplicate window
      (crates/ald-network/src/reliability.rs), Network.v the session table, the
      event firewall and fragmentation (session.rs, firewall.rs, transport.rs),
      Cidr.v the trusted-proxy ranges (crates/ald-network/src/lib.rs), Msgpack.v
      the CitizenFX serialization (crates/ald-serialization-compat), Query.v the
      server query protocol and its privacy levels (crates/ald-query),
      Negotiation.v the negotiation of capabilities (crates/ald-negotiation).
    - The two ends. Server.v is the transport, the token bucket, the file
      service, the receive loop and the console of the server
      (crates/ald-network/src: transport.rs, ratelimit.rs; server/ald-server/src:
      transfer.rs, state.rs, console.rs). Astryn.v is the client
      (client/astryn/src: lib.rs, join.rs): its connect task, the same against
      the server of Server.v, fetching a file from it, and the join driver.
      Client.v holds the user interface parts: NUI callbacks, runtime textures,
      key bindings, voice channels (crates/ald-nui, ald-dui, ald-input,
      ald-voice). Edge.v with Ip.v is the gateway (crates/ald-edge), its SHA-256
      included.
    - Admission. Handshake.v holds states and messages
      (crates/ald-protocol/src/handshake.rs), Identity.v the identity policy
      (crates/ald-identity), Deferrals.v the pre-join gates
      (crates/ald-deferrals), Queue.v slots and waitlist (crates/ald-queue), and
      Admission.v the handler that drives them
      (server/ald-server/src/admission.rs). Admission.v is proved against the
      class [join_queue] with its laws [join_queue_laws]; Queue.v is the instance.
      Access.v is permissions, events, RPC and entitlements
      (crates/ald-permissions, ald-events, ald-rpc, ald-entitlement).
    - World. Ecs.v is the entity store with generations and the ownership hub
      (crates/ald-ecs/src: lib.rs, ownership.rs); Planes.v the dimensions over
      it, the population budgets and the routing buckets; StateBag.v the
      replicated state bags and their CitizenFX scopes; Spatial.v the grid and
      the interest tiers, Timeline.v time synchronisation, replay, lag
      compensation and replication.
    - Framework (framework/aldivine/src). Economy.v, Inventory.v, and Framework.v
      with the modules [Jobs] and [Players].
    - Resources. Resource.v is dependency resolution
      (crates/ald-resource/src/lib.rs), Lifecycle.v the state table, capability
      tokens and the supervisor, Scheduler.v budgets and runaway checks,
      Download.v chunk plans, reassembly, resume and the lane scheduler,
      Fxmanifest.v the fxmanifest parser, Cfxlua.v the CfxLua front end (hash
      literals, vectors, the msgpack bridge, promises), Ecma335.v the .NET
      assembly reader.
    - Storage. Vfs.v is the virtual file system, Persistence.v the journal,
      Snapshot.v world snapshots, Database.v transactions, migrations and drift,
      Cache.v the content store, Assets.v formats, mounting and residency,
      Streaming.v their composition, Ha.v and Sharding.v high availability and
      leases.
    - Operation. ServerCfg.v, Includes.v and Normalize.v are the server.cfg
      pipeline (crates/ald-servercfg/src); Aegis.v accounts, sessions, one-time
      codes and logins and AegisOps.v player actions, alerts and the profiler
      (aegis/backend/src); Release.v packages, the update catalog, backups and
      the package scanner (crates/ald-package, ald-updater, ald-backup,
      ald-package-scanner), Upgrade.v the upgrade planner and the crash reports
      (crates/ald-upgrade-planner, ald-symbol-service); Security.v log redaction,
      the filter of outbound addresses and the cheat checks
      (crates/ald-security); Game.v editions, builds and game events
      (crates/ald-game-editions, ald-game-builds, ald-game-events).
    - Prelude.v, RustStr.v, Bytes.v and Float64.v carry what the components
      share: results with the [?] bind, machine integers, iterator idioms, sums
      over maps, executions of a step function; strings as UTF-8 bytes; byte
      encodings and the error type of crates/ald-core; reading decimal floats.

    ** How the code is read

    - An unsigned w-bit integer is a [Z] in [0, 2^w); arithmetic that can leave
      the range is written with [wrap], because the release profile has no
      overflow checks. [usize] counters of in-memory collections are [nat].
    - A [HashMap] is a [gmap]; where code iterates one, the order is the map's
      (stated as unspecified) or the theorem holds for every order. A [BTreeMap]
      is a [gmap] iterated in sorted order. A [Vec] is a list.
    - A method is a function from the record of the struct to the new record and
      the result; [Result] is [result]. A component's executions are [run] of
      its step function over a list of operations, and an invariant is proved
      for all of them. A panic is an outcome of its own where the code can reach
      one (Ecma335.v).
    - Clock readings, random ids and results of I/O are arguments. Closures
      (deferral gates, change hooks) are functions over a state of their own, or
      the list of what they are handed; handlers are names that [invoke] runs.
    - An asynchronous task is a state machine: a phase per await, and an event is
      what the await returned. Instants are milliseconds or nanoseconds.
    - The host's file system is the class [filesystem] of Vfs.v with its laws;
      SHA-256, SHA-1, HMAC and Ed25519 are parameters with the laws the code
      relies on, except where the source has its own SHA-256 (Edge.v), which is
      modelled.
    - [f32] caps and the token bucket's [f64] are [SpecFloat] numbers; the
      geometry of Spatial.v and Timeline.v works over the class [Float32];
      floats on the wire are bit patterns.
    - serde_json and toml are parameters: the class [json] with the laws
      [json_codec] of Frames.v, instantiated by a concrete codec in the witness.

    ** What the theorems show

    - Safety of admission: [admission_ready_authenticated] (the queue keeps its
      invariant, a peer told it is ready has answered its nonce),
      [queue_invariant], [ingress_safety] (the receive loop),
      [join_outcome_spec] (a client and the server together); the gaps
      are [admission_skips_policy], [admission_waitlist_stuck] and
      [seats_never_freed].
    - Conservation: [economy_supply_accounting], [inventory_conservation] (over a
      fixed registry; [rollback_lost_after_reregister] and [weight_check_wraps]
      are the gaps), [population_budget].
    - Round trips: [packet_codec], [frames_roundtrip], [msgpack_roundtrip] (on
      values within [wire_safe]; [pack_int_corrupts] shows the integers outside
      it), [msgpack_global], [cfg_roundtrip] (on well-formed documents;
      [cfg_mangles_values] is the gap), [manifest_roundtrip],
      [package_verified] (what is signed verifies; [signature_not_binding] is
      the gap).
    - Refinement and equivalence: [validate_refines_replay_spec] (the bit mask
      against a set of sequence numbers), [observer_mirror] (a bag against what
      its observers were told), [resolve_refines_flat] (include expansion
      against a flattening relation), [access_history], [breaker_spec],
      [replication_delivers] (what [cap] drops is the front of the queue, not
      the oldest value: [cap_drops_newest]), [alerts_history], [catalog_history].
    - Confinement: [include_confined], [write_confined], [resolve_confined],
      [serve_chunk_spec] (below the resource named, which is not checked);
      [read_escapes] and [traversal_served] are the gaps.
    - Crash safety and integrity: [crash_recovery] (through any number of
      crashes, up to the first torn tail; [torn_tail_poisons] and
      [oversized_checkpoint] are the gaps), [snapshot_exact],
      [cache_integrity], [cache_repair], [migrations_resume], [drift_detected],
      [streaming_verified], [fetch_verified], [fetch_served] (which also shows
      what never arrives), [backup_restores], [scan_verdicts].
    - Privacy and limits: [query_response], [query_rate_bound], [lockout] (a budget
      for every full login to the account), [session_trusted], [edge_limits], [net_match], [forwarded_identity_spec],
      [datagram_arrives].
    - Operation: [build_admission], [router_delivers] (in order and at most
      once), [make_plan_spec], [safe_mode_spec], [validate_url_spec],
      [keys_independent]; [ssrf_gaps], [redact_gaps] and [pinned_to_blocked] are
      the gaps.
    - Isolation and authority: [generation_safety], [ownership_hub],
      [dimension_isolation], [bucket_policies], [state_bag_spec],
      [nui_callbacks].
    - Progress and totality: [resolve_dependencies_spec], [unpack_total],
      [manifest_spec], [reader_total] (the assembly reader never panics),
      [download_resume], [lane_scheduler_fair], [rpc_no_unresolved],
      [client_runs_after_handshake] (which gives up in silence).

    A theorem without a claim number is of the same standing: the properties of
    PROJECT.json are the forty that matter most.

    ** Fuel

    Recursion that is not structural takes fuel, and each bound is proved
    sufficient: [unpack] uses one step per byte ([unpack_total]); the dependency
    search one step per node ([resolve_dependencies_spec] excludes running out);
    [read_n] one turn per remaining byte and one more, as every item takes a
    byte; [strip] and [utf8_valid] the length of the string, which each step
    shortens; [fragment] the length of the payload; [digits] ten, the digits of
    a u32; [rotate] five, the lanes; [parse_args] and [expand_loop] the length of
    the text; the journal's loop one record per byte; [evict_loop] the objects
    and one more; the fxmanifest parser one turn per byte and two for nested
    values; the backtick rewriter one per byte; the Lua bridge two per byte and
    two more; the lossy decoder one per byte; base32 one per bit group; the
    padding of SHA-256 64 bytes; the fetch loop the bound on attempts and two
    ([fetch_loop_fuel]). Include expansion recurses on the levels left below
    [MAX_INCLUDE_DEPTH], so it needs none.

    ** Not modelled

    Sockets, files, HTTP, tokio tasks and the script engines are I/O or
    third-party code around these functions: the hosts of Lua, JavaScript, Node,
    .NET and native extensions mostly call their engines. Of the server process
    the start-up, the configuration loader, the telemetry loop and the operator
    API are left out, of the clients everything that draws or opens windows.
    Configuration structures, logging, telemetry and the audit sink are serde
    data and output; the compatibility adapters forward to the framework
    services; the database capability suite needs live databases. The command
    line, the agents, the applications and the simulation client are front ends. The stack depth of
    recursive decoders and memory exhaustion are outside the model. *)
From stdpp Require Export gmap strings list fin_maps sorting.
From Stdlib Require Export ZArith Lia.

Declare Scope rust_scope.
Delimit Scope rust_scope with rust.
#[global] Open Scope Z_scope.
#[global] Open Scope rust_scope.

(** ** Results

    [Result<T, E>] of the source. The bind notation is the [?] operator. *)
Inductive result (A E : Type) : Type :=
| Ok (a : A)
| Err (e : E).
Arguments Ok {A E} a.
Arguments Err {A E} e.

Definition rbind {A B E} (r : result A E) (k : A -> result B E) : result B E :=
  match r with Ok a => k a | Err e => Err e end.

Definition is_ok {A E} (r : result A E) : bool :=
  match r with Ok _ => true | Err _ => false end.

Definition ok_or {A E} (o : option A) (e : E) : result A E :=
  match o with Some a => Ok a | None => Err e end.

Notation "'let?' x := r 'in' k" := (rbind r (fun x => k))
  (at level 10, x name, r at level 100, k at level 200) : rust_scope.
Notation "'let?' ' p := r 'in' k" :=
  (rbind r (fun y => match y with p => k end))
  (at level 10, p pattern, r at level 100, k at level 200) : rust_scope.

(** [for x in l { f(x)?; }] and the same threading a state. *)
Fixpoint try_each {A E} (f : A -> result unit E) (l : list A) : result unit E :=
  match l with [] => Ok tt | x :: l => rbind (f x) (fun _ => try_each f l) end.
Fixpoint try_fold {A S E} (f : S -> A -> result S E) (s : S) (l : list A) : result S E :=
  match l with [] => Ok s | x :: l => rbind (f s x) (fun s => try_fold f s l) end.

#[global] Instance result_eq_dec {A E} `{EqDecision A} `{EqDecision E} :
  EqDecision (result A E).
Proof. solve_decision. Defined.

Lemma rbind_ok {A B E} (r : result A E) (k : A -> result B E) b :
  rbind r k = Ok b <-> exists a, r = Ok a /\ k a = Ok b.
Proof. destruct r; simpl; naive_solver. Qed.

(** ** Machine integers

    A [uN] value is the [Z] in [0, 2^N). The release profile of the
    workspace sets no overflow checks, so [+], [-] and [*] wrap; [wrap]
    writes that out. *)
Definition wrap (w z : Z) : Z := z mod 2 ^ w.
Definition fits (w z : Z) : Prop := 0 <= z < 2 ^ w.
#[global] Instance fits_dec w z : Decision (fits w z).
Proof. unfold fits; apply _. Defined.

(** Two's complement reading of the low [w] bits: the [as iN] casts. *)
Definition swrap (w z : Z) : Z :=
  let r := z mod 2 ^ w in if decide (r < 2 ^ (w - 1)) then r else r - 2 ^ w.

(** [saturating_sub] on unsigned integers. *)
Definition sat_sub (a b : Z) : Z := Z.max 0 (a - b).

Definition u32_max : Z := 2 ^ 32 - 1.
Definition u64_max : Z := 2 ^ 64 - 1.

Lemma wrap_fits w z : 0 <= w -> fits w (wrap w z).
Proof. intros. unfold fits, wrap. apply Z.mod_pos_bound. lia. Qed.

Lemma wrap_small w z : fits w z -> wrap w z = z.
Proof. unfold fits, wrap. apply Z.mod_small. Qed.

Lemma wrap_idem w z : wrap w (wrap w z) = wrap w z.
Proof. unfold wrap. apply Zmod_mod. Qed.

Lemma wrap_add_l w a b : wrap w (wrap w a + b) = wrap w (a + b).
Proof. unfold wrap. apply Zplus_mod_idemp_l. Qed.

Lemma wrap_add_r w a b : wrap w (a + wrap w b) = wrap w (a + b).
Proof. unfold wrap. apply Zplus_mod_idemp_r. Qed.

Lemma wrap_sub_l w a b : wrap w (wrap w a - b) = wrap w (a - b).
Proof. unfold wrap. apply Zminus_mod_idemp_l. Qed.

Lemma swrap_small w z :
  1 <= w -> - 2 ^ (w - 1) <= z < 2 ^ (w - 1) -> swrap w z = z.
Proof.
  intros Hw Hz. unfold swrap.
  assert (Hp : 2 ^ w = 2 * 2 ^ (w - 1)).
  { rewrite <- Z.pow_succ_r by lia. f_equal. lia. }
  destruct (decide (0 <= z)).
  - rewrite Z.mod_small by lia. case_decide; lia.
  - assert (z mod 2 ^ w = z + 2 ^ w) as ->.
    { rewrite <- (Z.mod_small (z + 2 ^ w) (2 ^ w)) by lia.
      rewrite <- Zplus_mod_idemp_r, Z_mod_same_full, Z.add_0_r. done. }
    case_decide; lia.
Qed.

Lemma lxor_fits w a b : 0 <= w -> fits w a -> fits w b -> fits w (Z.lxor a b).
Proof.
  unfold fits. intros Hw Ha Hb. split; [by apply Z.lxor_nonneg; lia|]. destruct (decide (Z.lxor a b = 0)) as [->|Hne]; [lia|].
  assert (0 <= Z.lxor a b) by (apply Z.lxor_nonneg; lia). apply Z.log2_lt_pow2; [lia|].
  assert (Hlog : forall x, 0 <= x < 2 ^ w -> x = 0 \/ Z.log2 x < w).
  { intros x Hx. destruct (decide (x = 0)); [by left|right]. apply Z.log2_lt_pow2; lia. }
  pose proof (Z.log2_lxor a b ltac:(lia) ltac:(lia)) as Hl.
  destruct (Hlog a Ha) as [->|La], (Hlog b Hb) as [->|Lb]; rewrite ?Z.lxor_0_l, ?Z.lxor_0_r in *; try lia.
Qed.

Lemma lxor_cancel a b c : Z.lxor a c = Z.lxor b c -> a = b.
Proof. intros H. rewrite <- (Z.lxor_0_r a), <- (Z.lxor_0_r b), <- (Z.lxor_nilpotent c), <- !Z.lxor_assoc. by rewrite H. Qed.

(** A factor with an inverse is cancelled. *)
Lemma mul_inv_inj w p q a b : fits w a -> fits w b -> wrap w (p * q) = wrap w 1 -> wrap w (a * p) = wrap w (b * p) -> a = b.
Proof.
  intros Ha Hb Hq H. rewrite <- (wrap_small w a Ha), <- (wrap_small w b Hb).
  assert (Hm : forall x, wrap w x = wrap w (wrap w (x * p) * q)).
  { intros x. unfold wrap in *. rewrite Zmult_mod_idemp_l, <- Z.mul_assoc, <- (Zmult_mod_idemp_r (p * q)), Hq, Zmult_mod_idemp_r. by rewrite Z.mul_1_r. }
  by rewrite (Hm a), (Hm b), H.
Qed.

Lemma try_each_ok {A E} (f : A -> result unit E) l :
  try_each f l = Ok tt <-> Forall (fun x => f x = Ok tt) l.
Proof.
  induction l as [|x l IH]; cbn; [by split; [constructor|]|]. rewrite Forall_cons, <- IH.
  destruct (f x) as [[]|]; cbn; naive_solver.
Qed.

Lemma try_fold_inv {A S E} (f : S -> A -> result S E) (P : S -> Prop) l s s' :
  (forall s x s', x ∈ l -> P s -> f s x = Ok s' -> P s') -> P s -> try_fold f s l = Ok s' -> P s'.
Proof.
  intros Hf. revert s. induction l as [|x l IH]; intros s Hs; cbn; [by intros [= <-]|].
  destruct (f s x) as [s1|] eqn:E1; cbn; [|done]. apply IH; [set_solver|]. eapply Hf; [|done..]. by left.
Qed.

(** A field update of a record [e] with its fields spelled out:
    [c.f = v] is [setter e f v c]. *)
Ltac setter e f :=
  let e' := eval cbv beta delta [e] in e in
  match eval pattern f in e' with ?s f => exact (fun v c => s (fun _ => v) c) end.

(** ** Iterator idioms *)

(** [iter().position(f)]. *)
Fixpoint position {A} (f : A -> bool) (l : list A) : option nat :=
  match l with
  | [] => None
  | x :: l' => if f x then Some 0%nat else S <$> position f l'
  end.

(** [iter_mut().find(f)] followed by the assignment [*x = g(x)]. *)
Fixpoint update_first {A} (f : A -> bool) (g : A -> A) (l : list A) : list A :=
  match l with
  | [] => []
  | x :: l' => if f x then g x :: l' else x :: update_first f g l'
  end.

Section list_idioms.
Context {A : Type} (f : A -> bool).

Lemma position_Some l i :
  position f l = Some i <->
  exists x, l !! i = Some x /\ f x = true /\
    forall j y, (j < i)%nat -> l !! j = Some y -> f y = false.
Proof.
  revert i. induction l as [|x l IH]; intros i; simpl.
  { split; [done|]. intros (y & Hy & _). by rewrite lookup_nil in Hy. }
  destruct (f x) eqn:Hx; [split|].
  - intros [= <-]. exists x. split_and!; [done..|]. intros; lia.
  - intros (y & Hy & Hf & Hmin). destruct i as [|i]; [done|].
    assert (f x = false) by (apply (Hmin 0%nat); [lia|done]). congruence.
  - rewrite fmap_Some. split.
    + intros (j & Hj & ->). apply IH in Hj as (y & Hy & Hfy & Hmin).
      exists y. split_and!; [done..|]. intros [|k] z Hk Hz; simpl in *;
        [congruence|]. apply (Hmin k); [lia|done].
    + intros (y & Hy & Hfy & Hmin). destruct i as [|i]; simpl in *;
        [congruence|]. exists i. split; [|done]. apply IH. exists y.
      split_and!; [done..|]. intros k z Hk Hz. apply (Hmin (S k)); [lia|done].
Qed.

Lemma position_None l :
  position f l = None <-> Forall (fun x => f x = false) l.
Proof.
  induction l as [|x l IH]; simpl; [by split; auto using Forall_nil_2|].
  destruct (f x) eqn:Hx; rewrite Forall_cons.
  - split; [done|]. intros [? _]; congruence.
  - rewrite fmap_None, IH. naive_solver.
Qed.

Lemma position_existsb l : is_Some (position f l) <-> existsb f l = true.
Proof.
  induction l as [|x l IH]; simpl; [split; [by intros []|done]|].
  destruct (f x); simpl; [by split; eauto|]. by rewrite fmap_is_Some.
Qed.

Lemma position_app l l' i : position f l = Some i -> position f (l ++ l') = Some i.
Proof.
  revert i. induction l as [|x l IH]; intros i; simpl; [done|].
  destruct (f x); [done|]. intros (j & Hj & ->)%fmap_Some. by rewrite (IH j).
Qed.

Lemma existsb_elem l : existsb f l = true <-> exists x, x ∈ l /\ f x = true.
Proof.
  rewrite existsb_exists. split; intros (x & Hx & Hfx); exists x;
    by rewrite list_elem_of_In in *.
Qed.

(** The unique match of [l] does not move back in a sublist. *)
Lemma position_sublist l' l i :
  l' `sublist_of` l ->
  (forall j y, l !! j = Some y -> f y = true -> j = i) ->
  position f l = Some i -> existsb f l' = true ->
  exists n, position f l' = Some n /\ (n <= i)%nat.
Proof.
  intros Hsub. revert i. induction Hsub as [|x l1 l2 Hsub IH|x l1 l2 Hsub IH];
    intros i Huniq Hpos Hex; [done|..]; simpl in Hpos.
  - simpl in *. destruct (f x) eqn:Hx; simplify_eq; [exists 0%nat; split; [done|lia]|].
    apply fmap_Some in Hpos as (j & Hj & ->). simpl in Hex.
    destruct (IH j) as (n & Hn & Hle); [|done..|].
    + intros k y Hk Hy. specialize (Huniq (S k) y Hk Hy). lia.
    + exists (S n). rewrite Hn. split; [done|lia].
  - destruct (f x) eqn:Hx; simplify_eq.
    + exfalso. apply existsb_elem in Hex as (y & Hy & Hfy).
      assert (Hy2 : y ∈ l2) by by eapply sublist_subseteq.
      apply list_elem_of_lookup in Hy2 as [k Hk].
      specialize (Huniq (S k) y Hk Hfy). lia.
    + apply fmap_Some in Hpos as (j & Hj & ->).
      destruct (IH j) as (n & Hn & Hle); [|done..|].
      * intros k y Hk Hy. specialize (Huniq (S k) y Hk Hy). lia.
      * exists n. split; [done|lia].
Qed.

Lemma find_Some_elem l x : List.find f l = Some x -> x ∈ l /\ f x = true.
Proof. rewrite list_elem_of_In. apply List.find_some. Qed.

Lemma find_None_Forall l :
  List.find f l = None <-> Forall (fun x => f x = false) l.
Proof.
  induction l as [|x l IH]; simpl; [by split; auto using Forall_nil_2|].
  destruct (f x) eqn:Hx; rewrite Forall_cons; [|naive_solver].
  split; [done|]. intros [? _]; congruence.
Qed.

Lemma existsb_false_Forall l :
  existsb f l = false <-> Forall (fun x => f x = false) l.
Proof.
  induction l as [|x l IH]; simpl; [by split; auto using Forall_nil_2|].
  rewrite orb_false_iff, IH, Forall_cons. done.
Qed.

Lemma elem_of_filterb l x : x ∈ List.filter f l <-> x ∈ l /\ f x = true.
Proof. rewrite !list_elem_of_In. apply List.filter_In. Qed.

Lemma filterb_sublist l : List.filter f l `sublist_of` l.
Proof.
  induction l as [|x l IH]; simpl; [constructor|].
  destruct (f x); by constructor.
Qed.

Lemma update_first_length g l : length (update_first f g l) = length l.
Proof. induction l as [|x l IH]; simpl; [done|]. destruct (f x); simpl; lia. Qed.

Lemma update_first_split g l :
  existsb f l = true ->
  exists l1 x l2, l = l1 ++ x :: l2 /\ f x = true /\
    List.find f l = Some x /\
    Forall (fun y => f y = false) l1 /\
    update_first f g l = l1 ++ g x :: l2.
Proof.
  induction l as [|x l IH]; simpl; [done|].
  destruct (f x) eqn:Hx; simpl.
  - intros _. exists [], x, l. split_and!; done.
  - intros (l1 & y & l2 & -> & Hy & Hfind & Hall & Hup)%IH.
    exists (x :: l1), y, l2. split_and!; [done..| |].
    + by constructor.
    + by rewrite Hup.
Qed.

Lemma update_first_none g l :
  existsb f l = false -> update_first f g l = l.
Proof.
  induction l as [|x l IH]; simpl; [done|].
  intros [Hx Hl]%orb_false_iff. rewrite Hx. by rewrite IH.
Qed.
End list_idioms.

Lemma find_existsb {A} (f : A -> bool) l :
  existsb f l = true <-> is_Some (List.find f l).
Proof.
  induction l as [|x l IH]; simpl; [split; [done|by intros []]|].
  destruct (f x); simpl; [by split; eauto|]. done.
Qed.

Lemma fmap_filterb_sublist {A B} (g : A -> B) (f : A -> bool) l :
  (g <$> List.filter f l) `sublist_of` (g <$> l).
Proof. apply fmap_sublist, filterb_sublist. Qed.

Lemma length_filterb_le {A} (f : A -> bool) l :
  (length (List.filter f l) <= length l)%nat.
Proof. apply sublist_length, filterb_sublist. Qed.

Lemma Forall_sublist {A} (P : A -> Prop) l1 l2 :
  l1 `sublist_of` l2 -> Forall P l2 -> Forall P l1.
Proof.
  induction 1; [done| |]; rewrite ?Forall_cons; naive_solver.
Qed.

Lemma filterb_length_sublist {A} (f : A -> bool) l1 l2 :
  l1 `sublist_of` l2 -> (length (List.filter f l1) <= length (List.filter f l2))%nat.
Proof.
  induction 1 as [|x l1 l2 _ IH|x l1 l2 _ IH]; cbn [List.filter]; [done|..];
    destruct (f x); simpl; lia.
Qed.

Lemma elem_of_delete {A} (l : list A) i j x :
  l !! j = Some x -> i <> j -> x ∈ delete i l.
Proof.
  intros Hj Hne. apply list_elem_of_lookup.
  destruct (decide (j < i)%nat).
  - exists j. by rewrite list_lookup_delete_lt.
  - exists (pred j). rewrite list_lookup_delete_ge by lia.
    by replace (S (pred j)) with j by lia.
Qed.

Lemma delete_Permutation_cons {A} (l : list A) i x :
  l !! i = Some x -> l ≡ₚ x :: delete i l.
Proof. apply delete_Permutation. Qed.

(** ** Stable sort ([sort_by_key], [sort]) *)
Section sort.
Context {A : Type} (key : A -> Z).

Fixpoint insert_by (x : A) (l : list A) : list A :=
  match l with
  | [] => [x]
  | y :: l' => if key x <=? key y then x :: l else y :: insert_by x l'
  end.
Definition sort_by (l : list A) : list A := foldr insert_by [] l.

Lemma insert_by_perm x l : insert_by x l ≡ₚ x :: l.
Proof.
  induction l as [|y l IH]; simpl; [done|]. destruct (key x <=? key y); [done|].
  rewrite IH. constructor.
Qed.

Lemma sort_by_perm l : sort_by l ≡ₚ l.
Proof. induction l as [|x l IH]; simpl; [done|]. by rewrite insert_by_perm, IH. Qed.

Definition key_le (x y : A) : Prop := key x <= key y.

Lemma insert_by_sorted x l :
  StronglySorted key_le l -> StronglySorted key_le (insert_by x l).
Proof.
  unfold key_le. induction 1 as [|y l Hl IH Hy]; simpl; [repeat constructor|].
  destruct (key x <=? key y) eqn:Hxy; [apply Z.leb_le in Hxy|apply Z.leb_gt in Hxy].
  - constructor; [by constructor|]. constructor; [done|].
    eapply Forall_impl; [exact Hy|]. simpl. intros; lia.
  - constructor; [done|]. rewrite insert_by_perm. constructor; [lia|done].
Qed.

Lemma sort_by_sorted l : StronglySorted key_le (sort_by l).
Proof. induction l; simpl; [constructor|]. by apply insert_by_sorted. Qed.
End sort.

Lemma insert_by_head {A} (key : A -> Z) x l : Forall (fun y => key x <= key y) l -> insert_by key x l = x :: l.
Proof. destruct 1 as [|y l Hy Hl]; [done|]. cbn. by rewrite (proj2 (Z.leb_le _ _) Hy). Qed.

Lemma sort_by_id {A} (key : A -> Z) l : StronglySorted (key_le key) l -> sort_by key l = l.
Proof. induction 1 as [|x l Hl IH Hx]; [done|]. unfold sort_by in *. cbn. by rewrite IH, insert_by_head. Qed.

Lemma sorted_sublist {A} (R : A -> A -> Prop) l k : l `sublist_of` k -> StronglySorted R k -> StronglySorted R l.
Proof.
  induction 1 as [|x l k Hs IH|x l k Hs IH]; [done|..]; intros [Hk Hx]%StronglySorted_inv; [|by apply IH].
  constructor; [by apply IH|]. by eapply Forall_sublist.
Qed.

(** ** Sums over lists and maps ([values().sum()]) *)
Definition sum_list (l : list Z) : Z := foldr Z.add 0 l.

Lemma sum_list_app l1 l2 : sum_list (l1 ++ l2) = sum_list l1 + sum_list l2.
Proof. unfold sum_list. induction l1; simpl; lia. Qed.

Lemma sum_list_cons x l : sum_list (x :: l) = x + sum_list l.
Proof. done. Qed.

Section map_sum.
Context {K : Type} `{Countable K}.

Definition map_sum {V} (g : V -> Z) (m : gmap K V) : Z :=
  map_fold (fun _ v acc => g v + acc) 0 m.

Lemma map_sum_empty {V} (g : V -> Z) : map_sum g ∅ = 0.
Proof. apply map_fold_empty. Qed.

Lemma map_sum_insert {V} (g : V -> Z) k v (m : gmap K V) :
  map_sum g (<[k := v]> m) =
  map_sum g m + g v - default 0 (g <$> (m !! k)).
Proof.
  unfold map_sum.
  assert (Hins : forall m' : gmap K V, m' !! k = None -> forall u,
    map_fold (fun _ w acc => g w + acc) 0 (<[k := u]> m') =
    g u + map_fold (fun _ w acc => g w + acc) 0 m').
  { intros m' Hm' u. rewrite map_fold_insert_L; [done| |done]. intros; lia. }
  destruct (m !! k) as [u|] eqn:Hk; simpl.
  - rewrite <- (insert_delete_id m k u) at 2 by done.
    rewrite <- insert_delete_eq. rewrite !Hins by apply lookup_delete_eq. lia.
  - rewrite Hins by done. lia.
Qed.

Lemma map_sum_nonneg {V} (g : V -> Z) (m : gmap K V) :
  (forall k v, m !! k = Some v -> 0 <= g v) -> 0 <= map_sum g m.
Proof.
  unfold map_sum. intros Hm.
  induction m as [|k v m Hk IH] using map_ind; [by rewrite map_fold_empty|].
  rewrite map_fold_insert_L; [|intros; lia|done].
  apply Z.add_nonneg_nonneg.
  - apply (Hm k). apply lookup_insert_eq.
  - apply IH. intros j u Hj. apply (Hm j). rewrite lookup_insert_ne; congruence.
Qed.

Lemma map_sum_lookup_le {V} (g : V -> Z) (m : gmap K V) k v :
  (forall j u, m !! j = Some u -> 0 <= g u) ->
  m !! k = Some v -> g v <= map_sum g m.
Proof.
  intros Hm Hk. rewrite <- (insert_delete_id m k v) by done.
  rewrite map_sum_insert, lookup_delete_eq; simpl.
  assert (0 <= map_sum g (delete k m)); [|lia].
  apply map_sum_nonneg. intros j u [? ?]%lookup_delete_Some. eauto.
Qed.
End map_sum.

(** ** State machines

    A component is a step function over its operations; [run] is a whole
    execution. An invariant that every step preserves holds along [run]. *)
Section machine.
Context {S O : Type} (step : S -> O -> S).

Definition run (s : S) (ops : list O) : S := foldl step s ops.

Lemma run_app s o1 o2 : run s (o1 ++ o2) = run (run s o1) o2.
Proof. apply foldl_app. Qed.

Lemma run_invariant (I : S -> Prop) s ops :
  (forall s o, I s -> I (step s o)) -> I s -> I (run s ops).
Proof. intros Hstep. revert s. induction ops; simpl; auto. Qed.

Lemma run_invariant_ops (P : O -> Prop) (I : S -> Prop) s ops :
  (forall s o, P o -> I s -> I (step s o)) ->
  Forall P ops -> I s -> I (run s ops).
Proof.
  intros Hstep Hops. revert s. induction Hops; simpl; auto.
Qed.

Lemma run_relation (R : S -> S -> Prop) s ops :
  (forall s, R s s) -> (forall a b c, R a b -> R b c -> R a c) ->
  (forall s o, R s (step s o)) -> R s (run s ops).
Proof.
  intros Hrefl Htrans Hstep. revert s.
  induction ops as [|o ops IH]; intros s; simpl; [apply Hrefl|].
  eapply Htrans; [apply Hstep|apply IH].
Qed.
End machine.

(** ** Automation *)
Create HintDb aldivine discriminated.
Create Rewrite HintDb aldivine_rw.
#[export] Hint Resolve wrap_fits map_sum_nonneg : aldivine.
#[export] Hint Rewrite @lookup_insert_eq @lookup_delete_eq @lookup_empty
  @sum_list_app @sum_list_cons : aldivine_rw.

(** Turn boolean tests in the context and the goal into propositions. *)
Ltac bool_prop :=
  repeat match goal with
  | H : bool_decide _ = true |- _ => apply bool_decide_eq_true in H
  | H : bool_decide _ = false |- _ => apply bool_decide_eq_false in H
  | H : (_ && _)%bool = true |- _ => apply andb_true_iff in H as [? ?]
  | H : (_ || _)%bool = false |- _ => apply orb_false_iff in H as [? ?]
  | H : negb _ = true |- _ => apply negb_true_iff in H
  | H : negb _ = false |- _ => apply negb_false_iff in H
  | H : (_ <? _) = true |- _ => apply Z.ltb_lt in H
  | H : (_ <? _) = false |- _ => apply Z.ltb_ge in H
  | H : (_ <=? _) = true |- _ => apply Z.leb_le in H
  | H : (_ <=? _) = false |- _ => apply Z.leb_gt in H
  | H : (_ =? _) = true |- _ => apply Z.eqb_eq in H
  | H : (_ =? _) = false |- _ => apply Z.eqb_neq in H
  end.

(** Split every [match] and [if] of the goal, closing the absurd branches. *)
Ltac split_matches :=
  repeat (case_match; simplify_eq/=; try done).

(** Prove a decidable closed proposition by evaluating its decision. *)
Ltac by_decide := refine (bool_decide_unpack _ _); vm_compute; exact I.

(** Case on the test of the [if] that hypothesis [H] equates. *)
Ltac split_if H E :=
  match type of H with (if ?b then _ else _) = _ => destruct b eqn:E end.
