(* ===== verification/RustStr.v ===== *)
(** The parts of Rust's [str] the sources use: strings are UTF-8 byte
    sequences, held here in a Rocq [string] byte by byte. Lengths are byte
    lengths; [trim] removes Unicode white space. *)
From S2P Require Import Prelude.

Abbreviation text := (list Z).

(** The bytes of a string as numbers. *)
Definition codes (s : string) : list Z :=
  (fun a => Z.of_N (Ascii.N_of_ascii a)) <$> String.list_ascii_of_string s.

Definition of_codes (l : list Z) : string :=
  String.string_of_list_ascii ((fun z => Ascii.ascii_of_N (Z.to_N z)) <$> l).

Definition str_len (s : string) : Z := Z.of_nat (String.length s).
Definition is_empty (s : string) : bool := bool_decide (s = ""%string).

Definition starts_with (p l : list Z) : bool := bool_decide (p = take (length p) l).

(** The UTF-8 encodings of the characters with [char::is_whitespace]. *)
Definition white_space : list text :=
  [[9]; [10]; [11]; [12]; [13]; [32]; [194; 133]; [194; 160]; [225; 154; 128]] ++
  ((fun c => [226; 128; c]) <$> seqZ 128 11 ++ [168; 169; 175]) ++
  [[226; 129; 159]; [227; 128; 128]].

(** The rest of [l] after one of the strings [ws], if there is one. *)
Definition strip_one (ws : list text) (l : text) : option text :=
  (fun w => drop (length w) l) <$> List.find (fun w => starts_with w l) ws.

(** One white-space character at the head of the string, and one at its end
    (on the reversed bytes). *)
Definition ws_head : text -> option text := strip_one white_space.
Definition ws_last : text -> option text := strip_one (@rev Z <$> white_space).

(** Strip as long as [f] strips; every step shortens the list, so the length
    is enough fuel. *)
Fixpoint strip (f : list Z -> option (list Z)) (n : nat) (l : list Z) : list Z :=
  match n with
  | O => l
  | S n => match f l with Some r => strip f n r | None => l end
  end.

Definition trim_start_codes (l : list Z) : list Z := strip ws_head (length l) l.
Definition trim_end_codes (l : list Z) : list Z :=
  rev (strip ws_last (length l) (rev l)).
Definition trim (s : string) : string :=
  of_codes (trim_end_codes (trim_start_codes (codes s))).

(** [str::is_char_boundary]. *)
Definition is_char_boundary (l : list Z) (i : nat) : bool :=
  match l !! i with
  | None => bool_decide (i = length l)
  | Some b => bool_decide (i = 0%nat) || negb ((128 <=? b) && (b <? 192))
  end.

(** [str::split_once] on an ASCII separator. *)
Fixpoint split_once (c : Z) (l : list Z) : option (list Z * list Z) :=
  match l with
  | [] => None
  | b :: l' =>
      if b =? c then Some ([], l')
      else (fun p => (b :: p.1, p.2)) <$> split_once c l'
  end.

(** [str::from_utf8] accepts exactly the well-formed UTF-8 sequences. *)
Definition is_cont (b : Z) : bool := (128 <=? b) && (b <=? 191).

Definition utf8_step (l : list Z) : option (list Z) :=
  match l with
  | [] => None
  | b0 :: r =>
      if (0 <=? b0) && (b0 <=? 127) then Some r
      else if (194 <=? b0) && (b0 <=? 223) then
        match r with
        | b1 :: r => if is_cont b1 then Some r else None
        | _ => None
        end
      else if (224 <=? b0) && (b0 <=? 239) then
        match r with
        | b1 :: b2 :: r =>
            if (if b0 =? 224 then 160 <=? b1 else 128 <=? b1) &&
               (if b0 =? 237 then b1 <=? 159 else b1 <=? 191) && is_cont b2
            then Some r else None
        | _ => None
        end
      else if (240 <=? b0) && (b0 <=? 244) then
        match r with
        | b1 :: b2 :: b3 :: r =>
            if (if b0 =? 240 then 144 <=? b1 else 128 <=? b1) &&
               (if b0 =? 244 then b1 <=? 143 else b1 <=? 191) &&
               is_cont b2 && is_cont b3
            then Some r else None
        | _ => None
        end
      else None
  end.

Fixpoint utf8_valid_n (n : nat) (l : list Z) : bool :=
  match l, n with
  | [], _ => true
  | _, O => false
  | _, S n => match utf8_step l with Some r => utf8_valid_n n r | None => false end
  end.
Definition utf8_valid (l : list Z) : bool := utf8_valid_n (length l) l.

(** [{id}] of a u32: decimal digits, most significant first. Ten digits are
    enough for 2^32 - 1. *)
Fixpoint digits (fuel : nat) (n : Z) (acc : list Z) : list Z :=
  match fuel with
  | O => acc
  | S fuel =>
      let acc := (48 + n mod 10) :: acc in
      if n <? 10 then acc else digits fuel (n / 10) acc
  end.
Definition decimal (n : Z) : list Z := digits 10 n [].

(** [{n}] of an i64. *)
Definition decimal_i64 (n : Z) : list Z := if n <? 0 then 45 :: digits 20 (- n) [] else digits 20 n [].

(** [str::to_ascii_lowercase]. *)
Definition to_lower (l : list Z) : list Z :=
  (fun c => if (65 <=? c) && (c <=? 90) then c + 32 else c) <$> l.

Definition is_digit (c : Z) : bool := (48 <=? c) && (c <=? 57).
Definition digits_val (l : text) : Z := foldl (fun acc c => acc * 10 + (c - 48)) 0 l.

(** [str::parse::<u32>] on a string that does not start with a sign: digits
    only, with the checked multiplication and addition. *)
Fixpoint parse_digits (acc : Z) (l : list Z) : option Z :=
  match l with
  | [] => Some acc
  | c :: l =>
      if (48 <=? c) && (c <=? 57) && (acc * 10 + (c - 48) <=? u32_max)
      then parse_digits (acc * 10 + (c - 48)) l else None
  end.

(** [str::parse::<u32>]: an optional plus sign and at least one digit. *)
Definition parse_u32 (l : text) : option Z :=
  match l with
  | [] => None
  | 43 :: l => if bool_decide (l = []) then None else parse_digits 0 l
  | l => parse_digits 0 l
  end.

(** ** Hexadecimal text: [{b:02x}] of every byte, and the value of a digit. *)
Definition hex_digit (n : Z) : Z := if n <? 10 then 48 + n else 87 + n.
Definition hex (l : list Z) : text := concat ((fun b => [hex_digit (b / 16); hex_digit (b mod 16)]) <$> l).
Definition hex_val (b : Z) : option Z :=
  if (48 <=? b) && (b <=? 57) then Some (b - 48)
  else if (97 <=? b) && (b <=? 102) then Some (b - 97 + 10)
  else if (65 <=? b) && (b <=? 70) then Some (b - 65 + 10)
  else None.

Fixpoint hex_decode (l : text) : option (list Z) :=
  match l with
  | [] => Some []
  | [_] => None
  | hi :: lo :: l =>
      hi ← hex_val hi; lo ← hex_val lo; rest ← hex_decode l; Some (Z.lor (Z.shiftl hi 4) lo :: rest)
  end.

(** [str::replace] of one byte. *)
Definition replace_char (c : Z) (by_ : text) (s : text) : text :=
  concat ((fun x => if x =? c then by_ else [x]) <$> s).

(** [str::split] on one byte. *)
Fixpoint split_on (c : Z) (l : text) : list text :=
  match l with
  | [] => [[]]
  | x :: l =>
      if x =? c then [] :: split_on c l
      else match split_on c l with s :: r => (x :: s) :: r | [] => [[x]] end
  end.

(** [str::contains]. *)
Fixpoint contains (p l : text) : bool :=
  starts_with p l || match l with [] => false | _ :: l => contains p l end.

(** The order of [str]. *)
Fixpoint text_leb (a b : text) : bool :=
  match a, b with
  | [], _ => true
  | _ :: _, [] => false
  | x :: a, y :: b => (x <? y) || ((x =? y) && text_leb a b)
  end.

(** The longest prefix whose bytes satisfy [p], and the rest. *)
Fixpoint span (p : Z -> bool) (l : text) : text * text :=
  match l with
  | [] => ([], [])
  | c :: r => if p c then let '(a, b) := span p r in (c :: a, b) else ([], l)
  end.

(** [s == "..."] and membership in a list of literals. *)
Definition verb_is (v : text) (s : string) : bool := bool_decide (v = codes s).
Definition one_of (v : text) (l : list string) : bool := existsb (verb_is v) l.

Definition trim_text (l : text) : text := trim_end_codes (trim_start_codes l).

(** The entries of a [BTreeMap] in key order. *)
Definition in_order {A} (m : gmap text A) : list (text * A) :=
  merge_sort (fun x y => Is_true (text_leb x.1 y.1)) (map_to_list m).

(** ** Facts *)
Lemma span_spec p l a b :
  span p l = (a, b) -> l = a ++ b /\ Forall (fun c => p c = true) a /\
  match b with [] => True | c :: _ => p c = false end.
Proof.
  revert a b. induction l as [|c l IH]; intros a b; cbn; [by intros [= <- <-]|].
  destruct (p c) eqn:Ec; [|by intros [= <- <-]]. destruct (span p l) as [a' b'].
  intros [= <- <-]. destruct (IH a' b' eq_refl) as (-> & Ha & Hb). split_and!; [done|by constructor|done].
Qed.

Lemma span_app p a b :
  Forall (fun c => p c = true) a -> match b with [] => True | c :: _ => p c = false end ->
  span p (a ++ b) = (a, b).
Proof.
  intros Ha Hb. induction Ha as [|c a Hc Ha IH]; cbn.
  - destruct b as [|c b]; [done|]. cbn. by rewrite Hb.
  - by rewrite Hc, IH.
Qed.

Lemma length_codes s : length (codes s) = String.length s.
Proof. unfold codes. rewrite length_fmap. by induction s; simpl; f_equal. Qed.

Lemma of_codes_codes s : of_codes (codes s) = s.
Proof.
  unfold of_codes, codes. rewrite <- list_fmap_compose.
  rewrite <- (String.string_of_list_ascii_of_string s) at 2. f_equal.
  rewrite <- (list_fmap_id (String.list_ascii_of_string s)) at 2.
  apply list_fmap_ext. intros i x _. simpl.
  rewrite N2Z.id. apply Ascii.ascii_N_embedding.
Qed.

Lemma codes_inj s t : codes s = codes t -> s = t.
Proof. intros H. by rewrite <- (of_codes_codes s), H, of_codes_codes. Qed.

Lemma length_of_codes l : String.length (of_codes l) = length l.
Proof. unfold of_codes. induction l; simpl; by f_equal. Qed.

Lemma codes_range s b : b ∈ codes s -> fits 8 b.
Proof.
  unfold codes. intros (a & -> & _)%list_elem_of_fmap.
  pose proof (Ascii.N_ascii_bounded a). unfold fits. change (2 ^ 8) with 256. lia.
Qed.

Lemma codes_of_codes l : Forall (fits 8) l -> codes (of_codes l) = l.
Proof.
  unfold codes, of_codes. rewrite String.list_ascii_of_string_of_list_ascii.
  rewrite <- list_fmap_compose. intros Hl. induction Hl as [|b l [Hb1 Hb2] Hl IH];
    simpl; [done|]. f_equal; [|done].
  change (2 ^ 8) with 256 in *. rewrite Ascii.N_ascii_embedding; lia.
Qed.

Lemma starts_with_app w z : starts_with w (w ++ z) = true.
Proof. unfold starts_with. apply bool_decide_eq_true. by rewrite take_app_length. Qed.

Lemma starts_with_split w l : starts_with w l = true -> l = w ++ drop (length w) l.
Proof. unfold starts_with. intros H%bool_decide_eq_true. rewrite <- (take_drop (length w) l) at 1. by rewrite <- H. Qed.

Lemma strip_one_some ws l r : strip_one ws l = Some r -> exists w, w ∈ ws /\ l = w ++ r.
Proof.
  unfold strip_one. intros (w & Hw & ->)%fmap_Some. apply List.find_some in Hw as [Hin Hw].
  exists w. split; [by apply list_elem_of_In|]. by apply starts_with_split.
Qed.

Lemma strip_one_none ws l : strip_one ws l = None <-> Forall (fun w => starts_with w l = false) ws.
Proof.
  unfold strip_one. rewrite fmap_None, Forall_forall. split.
  - intros H w Hw%list_elem_of_In. by apply (List.find_none _ _ H).
  - intros H. destruct (List.find _ ws) as [w|] eqn:E; [|done]. apply List.find_some in E as [Hin Hw].
    cbn in Hw. by rewrite H in Hw by by apply list_elem_of_In.
Qed.

(** A body does not become strippable when a byte follows it that continues
    none of the strings. *)
Lemma strip_one_snoc ws v b x :
  Forall (fun w => Forall (fun c => c <> b) (tail w)) ws ->
  v <> [] -> strip_one ws v = None -> strip_one ws (v ++ b :: x) = None.
Proof.
  rewrite !strip_one_none, !Forall_forall. intros Hb Hv Hn w Hw. specialize (Hn w Hw).
  apply not_true_iff_false. intros H%starts_with_split.
  destruct (decide (length w <= length v)%nat) as [Hle|Hgt].
  - apply (f_equal (take (length w))) in H. rewrite take_app_length, take_app_le in H by done.
    unfold starts_with in Hn. apply bool_decide_eq_false in Hn. congruence.
  - specialize (Hb w Hw). rewrite Forall_lookup in Hb. destruct v as [|c v]; [done|].
    assert (Hlook : w !! length (c :: v) = Some b).
    { rewrite <- (lookup_app_l w (drop (length w) ((c :: v) ++ b :: x))) by lia. rewrite <- H.
      by rewrite list_lookup_middle. }
    destruct w as [|c0 w]; [done|]. by apply (Hb (length v) b).
Qed.

Lemma strip_one_head ws d l :
  Forall (fun w => match w with [] => False | c :: _ => c <> d end) ws -> strip_one ws (d :: l) = None.
Proof.
  rewrite strip_one_none. intros H. eapply Forall_impl; [exact H|]. intros [|c w] Hc; [done|]. unfold starts_with.
  apply bool_decide_eq_false. cbn. congruence.
Qed.

Lemma strip_one_nonempty ws :
  Forall (fun w => w <> []) ws -> forall l r, strip_one ws l = Some r -> exists p, p <> [] /\ l = p ++ r.
Proof.
  rewrite Forall_forall. intros Hws l r (w & Hw & ->)%strip_one_some. exists w. by split; [apply Hws|].
Qed.

Lemma ws_head_shorter l r : ws_head l = Some r -> exists p, p <> [] /\ l = p ++ r.
Proof. apply strip_one_nonempty. by repeat constructor. Qed.

Lemma ws_last_shorter l r : ws_last l = Some r -> exists p, p <> [] /\ l = p ++ r.
Proof. apply strip_one_nonempty. by repeat constructor. Qed.

Lemma ws_head_snoc v b x :
  v <> [] -> ws_head v = None -> b < 128 -> ws_head (v ++ b :: x) = None.
Proof. intros Hv Hn Hb. apply strip_one_snoc; [|done..]. repeat constructor; lia. Qed.

Lemma ws_last_snoc v b x :
  v <> [] -> ws_last v = None -> b < 128 -> ws_last (v ++ b :: x) = None.
Proof. intros Hv Hn Hb. apply strip_one_snoc; [|done..]. repeat constructor; lia. Qed.

Lemma ws_head_local l r :
  ws_head l = Some r -> exists q, q <> [] /\ l = q ++ r /\ forall z, ws_head (q ++ z) = Some z.
Proof.
  intros (w & Hw & ->)%strip_one_some. exists w.
  assert (H : Forall (fun w => w <> [] /\ forall z, ws_head (w ++ z) = Some z) white_space)
    by (repeat constructor; done).
  rewrite Forall_forall in H. destruct (H w Hw). by split_and!.
Qed.

Lemma strip_suffix f n l :
  (forall l r, f l = Some r -> exists p, p <> [] /\ l = p ++ r) ->
  exists p, l = p ++ strip f n l.
Proof.
  intros Hf. revert l. induction n as [|n IH]; intros l; simpl; [by exists []|].
  destruct (f l) as [r|] eqn:Hl; [|by exists []].
  apply Hf in Hl as (p & _ & ->). destruct (IH r) as [q Hq].
  exists (p ++ q). by rewrite <- (assoc_L (++)), <- Hq.
Qed.

(** [trim] returns an infix of the string. *)
Lemma trim_infix s : exists a b, codes s = a ++ trim_end_codes (trim_start_codes (codes s)) ++ b.
Proof.
  destruct (strip_suffix ws_head (length (codes s)) (codes s) ws_head_shorter) as [a Ha].
  fold (trim_start_codes (codes s)) in Ha. set (t := trim_start_codes (codes s)) in *.
  destruct (strip_suffix ws_last (length t) (rev t) ws_last_shorter) as [b Hb].
  exists a, (rev b). rewrite Ha at 1. f_equal. unfold trim_end_codes.
  rewrite <- rev_app_distr, <- Hb. by rewrite rev_involutive.
Qed.

Lemma codes_trim s : codes (trim s) = trim_end_codes (trim_start_codes (codes s)).
Proof.
  unfold trim. apply codes_of_codes, Forall_forall. intros b Hb.
  destruct (trim_infix s) as (x & y & Hxy). apply (codes_range s).
  rewrite Hxy, !elem_of_app. by right; left.
Qed.

Lemma trim_length s : (String.length (trim s) <= String.length s)%nat.
Proof.
  destruct (trim_infix s) as (a & b & Hs).
  rewrite <- !length_codes, Hs, codes_trim, !length_app. lia.
Qed.

Lemma trim_nonempty s : is_empty (trim s) = false -> s <> ""%string.
Proof. intros H ->. vm_compute in H. done. Qed.

(** ** Separators *)
Lemma split_on_app c b x : c ∉ b -> split_on c (b ++ c :: x) = b :: split_on c x.
Proof.
  induction b as [|y b IH]; intros Hc; cbn; [by rewrite Z.eqb_refl|].
  rewrite (proj2 (Z.eqb_neq y c)) by (intros ->; apply Hc; by left).
  rewrite IH; [done|]. intros H. apply Hc. by right.
Qed.

Lemma split_on_ne c l : split_on c l <> [].
Proof. destruct l as [|x l]; cbn; [done|]. destruct (x =? c); [done|]. by destruct (split_on c l). Qed.

Lemma split_on_free c l : Forall (fun s => c ∉ s) (split_on c l).
Proof.
  induction l as [|x l IH]; cbn; [repeat constructor; set_solver|].
  destruct (x =? c) eqn:E; bool_prop; [constructor; [set_solver|done]|].
  pose proof (split_on_ne c l). destruct (split_on c l) as [|s r]; [done|].
  apply Forall_cons in IH as [Hs Hr]. constructor; [|done]. set_solver.
Qed.

Lemma split_on_lines c bodies :
  Forall (fun b => c ∉ b) bodies ->
  split_on c (concat ((fun b => b ++ [c]) <$> bodies)) = bodies ++ [[]].
Proof.
  induction 1 as [|b bodies Hb _ IH]; cbn; [done|].
  rewrite <- app_assoc. cbn. rewrite split_on_app by done. by rewrite IH.
Qed.

Lemma split_once_first c a x : c ∉ a -> split_once c (a ++ c :: x) = Some (a, x).
Proof.
  induction a as [|y a IH]; intros H; cbn; [by rewrite Z.eqb_refl|].
  rewrite (proj2 (Z.eqb_neq y c)) by set_solver. rewrite IH by set_solver. done.
Qed.

Lemma text_leb_antisym a : forall b, text_leb a b = true -> text_leb b a = true -> a = b.
Proof.
  induction a as [|x a IH]; intros [|y b]; cbn; try done. intros H1 H2.
  destruct (Z.ltb_spec x y), (Z.ltb_spec y x); cbn in *; try lia; bool_prop; subst; try lia. f_equal. by apply IH.
Qed.

Lemma text_leb_total a : forall b, text_leb a b = true \/ text_leb b a = true.
Proof.
  induction a as [|x a IH]; intros [|y b]; cbn; auto. destruct (Z.lt_trichotomy x y) as [H|[->|H]].
  - left. by rewrite (proj2 (Z.ltb_lt x y)).
  - rewrite Z.ltb_irrefl, Z.eqb_refl. apply IH.
  - right. by rewrite (proj2 (Z.ltb_lt y x)).
Qed.

Lemma text_leb_trans a : forall b c, text_leb a b = true -> text_leb b c = true -> text_leb a c = true.
Proof.
  induction a as [|x a IH]; intros [|y b] [|z c]; cbn; try done. intros H1 H2.
  destruct (Z.ltb_spec x z); [done|]. cbn. destruct (Z.ltb_spec x y), (Z.ltb_spec y z); cbn in *; try lia; bool_prop; subst; try lia.
  rewrite Z.eqb_refl. cbn. by apply (IH b).
Qed.

#[export] Instance text_order_trans {A} (f : A -> text) : Transitive (fun a b => Is_true (text_leb (f a) (f b))).
Proof. intros a b c. rewrite !Is_true_true. apply text_leb_trans. Qed.
#[export] Instance text_order_total {A} (f : A -> text) : Total (fun a b => Is_true (text_leb (f a) (f b))).
Proof. intros a b. rewrite !Is_true_true. apply text_leb_total. Qed.

Lemma elem_of_in_order {A} (m : gmap text A) k x : (k, x) ∈ in_order m <-> m !! k = Some x.
Proof. unfold in_order. rewrite merge_sort_Permutation. apply elem_of_map_to_list. Qed.

(** Digits print a number that reads back. *)
Lemma hex_digit_inj a b : 0 <= a < 16 -> 0 <= b < 16 -> hex_digit a = hex_digit b -> a = b.
Proof. unfold hex_digit. destruct (Z.ltb_spec a 10), (Z.ltb_spec b 10); lia. Qed.

Lemma hex_decode_hex l : Forall (fits 8) l -> hex_decode (hex l) = Some l.
Proof.
  assert (Hb : Forall (fun b => hex_decode (hex [b]) = Some [b]) (seqZ 0 256)) by by_decide.
  induction 1 as [|b l Hf Hl IH]; [done|]. rewrite Forall_forall in Hb.
  unfold fits in Hf. specialize (Hb b ltac:(apply elem_of_seqZ; lia)).
  unfold hex in *. cbn -[hex_digit Z.div Z.modulo Z.lor] in Hb |- *.
  destruct (hex_val (hex_digit (b / 16))); [|done]. destruct (hex_val (hex_digit (b mod 16))); [|done].
  cbn in Hb |- *. injection Hb as Hb. rewrite IH. cbn. by rewrite Hb.
Qed.

Lemma digits_val_app a b : digits_val (a ++ b) = foldl (fun acc c => acc * 10 + (c - 48)) (digits_val a) b.
Proof. unfold digits_val. by rewrite foldl_app. Qed.

Lemma digits_shape fuel : forall n acc, 0 <= n < 10 ^ Z.of_nat (S fuel) ->
  exists ds, ds <> [] /\ digits (S fuel) n acc = ds ++ acc /\ forallb is_digit ds = true /\ digits_val ds = n.
Proof.
  induction fuel as [|fuel IH]; intros n acc Hn; cbn [digits].
  - change (10 ^ Z.of_nat 1) with 10 in Hn. exists [48 + n mod 10]. rewrite Z.mod_small by lia.
    rewrite (proj2 (Z.ltb_lt n 10)) by lia. split_and!; [done|done| |unfold digits_val; cbn; lia].
    unfold is_digit. cbn. lia.
  - pose proof (Z.mod_pos_bound n 10 ltac:(lia)) as Hm. pose proof (Z.div_mod n 10 ltac:(lia)) as Hdm.
    destruct (n <? 10) eqn:En; bool_prop.
    + exists [48 + n mod 10]. split_and!; [done|done|unfold is_digit; cbn; lia|]. unfold digits_val. cbn.
      rewrite Z.mod_small by lia. lia.
    + destruct (IH (n / 10) ((48 + n mod 10) :: acc)) as (ds & Hne & Hd & Hall & Hv).
      { rewrite Nat2Z.inj_succ, Z.pow_succ_r in Hn by lia. split; [apply Z.div_pos; lia|]. apply Z.div_lt_upper_bound; lia. }
      cbn [digits] in Hd. exists (ds ++ [48 + n mod 10]). rewrite Hd, <- app_assoc. split_and!; [by destruct ds|done| |].
      * rewrite forallb_app, Hall. cbn. unfold is_digit. lia.
      * rewrite digits_val_app, Hv. cbn. lia.
Qed.

Lemma digits_nonempty fuel : forall n acc, digits (S fuel) n acc <> [].
Proof. induction fuel as [|fuel IH]; intros n acc; cbn [digits]; destruct (n <? 10); try done. apply (IH (n / 10)). Qed.

Lemma digits_nonneg n : 0 <= n < 10 ^ 20 -> exists ds, ds <> [] /\ digits 20 n [] = ds /\ forallb is_digit ds = true /\ digits_val ds = n.
Proof. intros Hn. destruct (digits_shape 19 n []) as (ds & Hne & E & Hd & Hv); [exact Hn|]. exists ds. by rewrite E, app_nil_r. Qed.

Lemma decimal_i64_bytes n : - 10 ^ 20 < n < 10 ^ 20 -> Forall (fun c => c = 45 \/ is_digit c = true) (decimal_i64 n).
Proof.
  intros Hn. unfold decimal_i64. destruct (Z.ltb_spec n 0).
  - destruct (digits_nonneg (- n)) as (ds & _ & -> & Hd & _); [lia|]. constructor; [by left|].
    apply Forall_forall. intros c Hc. right. rewrite forallb_forall in Hd. by apply Hd, list_elem_of_In.
  - destruct (digits_nonneg n) as (ds & _ & -> & Hd & _); [lia|]. apply Forall_forall. intros c Hc. right.
    rewrite forallb_forall in Hd. by apply Hd, list_elem_of_In.
Qed.

Lemma decimal_i64_inj m n : - 10 ^ 20 < m < 10 ^ 20 -> - 10 ^ 20 < n < 10 ^ 20 -> decimal_i64 m = decimal_i64 n -> m = n.
Proof.
  intros Hm Hn. unfold decimal_i64.
  assert (Hne : forall k x, 0 <= k < 10 ^ 20 -> digits 20 k [] <> 45 :: x).
  { intros k x Hk. destruct (digits_nonneg k Hk) as (ds & _ & -> & Hd & _). by intros ->. }
  assert (Hi : forall j k, 0 <= j < 10 ^ 20 -> 0 <= k < 10 ^ 20 -> digits 20 j [] = digits 20 k [] -> j = k).
  { intros j k Hj Hk. destruct (digits_nonneg j Hj) as (ds & _ & -> & _ & <-), (digits_nonneg k Hk) as (es & _ & -> & _ & <-). congruence. }
  destruct (Z.ltb_spec m 0), (Z.ltb_spec n 0); intros E.
  - apply (inj (cons 45)) in E. apply Hi in E; lia.
  - symmetry in E. by apply Hne in E; [|lia].
  - by apply Hne in E; [|lia].
  - apply Hi in E; lia.
Qed.

(** ** Texts without white space at their ends *)
Lemma trim_start_stop l : ws_head l = None -> trim_start_codes l = l.
Proof. intros E. unfold trim_start_codes. destruct l; [done|]. cbn [length strip]. by rewrite E. Qed.

(** A text without white space at its ends is its own trimming. *)
Definition trimmed (l : text) : Prop := ws_head l = None /\ ws_last (rev l) = None.

Lemma trimmed_id l : trimmed l -> trim_text l = l.
Proof.
  intros [H1 H2]. unfold trim_text, trim_end_codes. rewrite trim_start_stop by done.
  destruct l as [|c l]; [done|]. cbn [length strip]. rewrite H2. apply rev_involutive.
Qed.

Lemma strip_one_first ws c l :
  forallb (fun w => match w with d :: _ => negb (d =? c) | [] => false end) ws = true -> strip_one ws (c :: l) = None.
Proof.
  intros Hw. apply strip_one_none, Forall_forall. intros w Hin. rewrite forallb_forall in Hw.
  specialize (Hw w (proj1 (list_elem_of_In _ _) Hin)). destruct w as [|d w]; [done|].
  apply bool_decide_eq_false_2. cbn. intros [= Hd _]. subst. by rewrite Z.eqb_refl in Hw.
Qed.

Lemma digits_trimmed l : forallb is_digit l = true -> trimmed l.
Proof.
  assert (Hd : Forall (fun c => (forallb (fun w => match w with d :: _ => negb (d =? c) | [] => false end) white_space
    && forallb (fun w => match w with d :: _ => negb (d =? c) | [] => false end) (@rev Z <$> white_space)) = true) (seqZ 48 10)) by by_decide.
  rewrite Forall_forall in Hd.
  assert (Hc : forall c, is_digit c = true -> c ∈ seqZ 48 10) by (intros c Hc; unfold is_digit in Hc; bool_prop; apply elem_of_seqZ; lia).
  intros Hl. split.
  - destruct l as [|c l]; [done|]. apply strip_one_first. apply andb_true_iff in Hl as [Hl _]. by apply Hc, Hd, andb_true_iff in Hl as [? _].
  - rewrite forallb_forall in Hl. destruct (rev l) as [|c r] eqn:E; [done|]. apply strip_one_first.
    specialize (Hl c). rewrite in_rev, E in Hl. specialize (Hl (or_introl eq_refl)). by apply Hc, Hd, andb_true_iff in Hl as [_ ?].
Qed.

(** ** Reading decimal digits *)
Lemma digits_val_grows l acc : forallb is_digit l = true -> 0 <= acc -> acc <= foldl (fun acc c => acc * 10 + (c - 48)) acc l.
Proof.
  revert acc. induction l as [|c l IH]; intros acc Hl Ha; cbn; [lia|]. apply andb_true_iff in Hl as [Hc Hl]. unfold is_digit in Hc. bool_prop.
  etransitivity; [|apply IH; [done|lia]]. lia.
Qed.

Lemma parse_digits_val l acc : forallb is_digit l = true -> 0 <= acc ->
  foldl (fun acc c => acc * 10 + (c - 48)) acc l <= u32_max -> parse_digits acc l = Some (foldl (fun acc c => acc * 10 + (c - 48)) acc l).
Proof.
  revert acc. induction l as [|c l IH]; intros acc Hl Ha Hm; [done|]. apply andb_true_iff in Hl as [Hc Hl]. cbn [parse_digits foldl] in Hm |- *.
  pose proof Hc as Hr. unfold is_digit in Hr. bool_prop.
  pose proof (digits_val_grows l (acc * 10 + (c - 48)) Hl ltac:(lia)). unfold is_digit in Hc. rewrite Hc, (proj2 (Z.leb_le (acc * 10 + (c - 48)) _)) by lia.
  apply IH; [done|lia|done].
Qed.

Lemma parse_u32_digits l : l <> [] -> forallb is_digit l = true -> digits_val l <= u32_max -> parse_u32 l = Some (digits_val l).
Proof.
  intros Hne Hl Hm. unfold digits_val in *. rewrite <- (parse_digits_val l 0 Hl ltac:(lia) Hm). destruct l as [|c l]; [done|].
  destruct (decide (c = 43)) as [->|]; [done|]. unfold parse_u32. by repeat case_match; simplify_eq.
Qed.
