(* ===== verification/Bytes.v ===== *)
(** Bytes and fixed-width encodings: bytes are [Z] in [0, 256);
    [to_le_bytes]/[from_le_bytes] and the big-endian forms. *)
From stdpp Require Import pretty.
From S2P Require Import Prelude.

Abbreviation byte_list l := (Forall (fits 8) l).

Fixpoint le_bytes (n : nat) (z : Z) : list Z :=
  match n with O => [] | S n => z mod 256 :: le_bytes n (z / 256) end.
Fixpoint le_val (l : list Z) : Z :=
  match l with [] => 0 | b :: l => b + 256 * le_val l end.
Definition be_bytes (n : nat) (z : Z) : list Z := rev (le_bytes n z).
Definition be_val (l : list Z) : Z := le_val (rev l).

(** The slice [l[i..j]]. *)
Definition slice {A} (l : list A) (i j : nat) : list A := take (j - i) (drop i l).

Lemma fits8_iff b : fits 8 b <-> 0 <= b < 256.
Proof. done. Qed.

Lemma length_le_bytes n z : length (le_bytes n z) = n.
Proof. revert z. induction n; simpl; auto. Qed.

Lemma le_bytes_range n z : byte_list (le_bytes n z).
Proof.
  revert z. induction n as [|n IH]; intros z; simpl; constructor; [|done].
  apply fits8_iff, Z.mod_pos_bound. lia.
Qed.

Lemma le_val_bytes n z : fits (8 * Z.of_nat n) z -> le_val (le_bytes n z) = z.
Proof.
  unfold fits. revert z. induction n as [|n IH]; intros z Hz; simpl le_bytes; simpl le_val.
  { change (2 ^ (8 * Z.of_nat 0)) with 1 in Hz. lia. }
  replace (8 * Z.of_nat (S n)) with (8 + 8 * Z.of_nat n) in Hz by lia.
  rewrite Z.pow_add_r in Hz by lia. change (2 ^ 8) with 256 in Hz.
  rewrite IH.
  - pose proof (Z.div_mod z 256). lia.
  - split; [apply Z.div_pos; lia|]. apply Z.div_lt_upper_bound; lia.
Qed.

Lemma le_val_fits l : byte_list l -> fits (8 * Z.of_nat (length l)) (le_val l).
Proof.
  unfold fits. induction l as [|b l IH]; simpl le_val; intros Hl; [done|].
  apply Forall_cons in Hl as [[Hb1 Hb2] Hl]. specialize (IH Hl).
  change (length (b :: l)) with (S (length l)).
  replace (8 * Z.of_nat (S (length l))) with (8 + 8 * Z.of_nat (length l)) by lia.
  rewrite Z.pow_add_r by lia. change (2 ^ 8) with 256 in *. lia.
Qed.

Lemma le_bytes_val l : byte_list l -> le_bytes (length l) (le_val l) = l.
Proof.
  induction l as [|b l IH]; simpl; intros Hl; [done|].
  apply Forall_cons in Hl as [[Hb1 Hb2] Hl]. change (2 ^ 8) with 256 in *.
  rewrite (Z.mul_comm 256), Z.mod_add, Z.div_add by lia.
  rewrite Z.mod_small, Z.div_small by lia. by rewrite Z.add_0_l, IH.
Qed.

Lemma length_be_bytes n z : length (be_bytes n z) = n.
Proof. unfold be_bytes. by rewrite length_rev, length_le_bytes. Qed.

Lemma be_val_bytes n z : fits (8 * Z.of_nat n) z -> be_val (be_bytes n z) = z.
Proof. unfold be_val, be_bytes. rewrite rev_involutive. apply le_val_bytes. Qed.

Lemma be_bytes_range n z : byte_list (be_bytes n z).
Proof. apply Forall_rev, le_bytes_range. Qed.

Lemma slice_range l i j : byte_list l -> byte_list (slice l i j).
Proof. intros. by apply Forall_take, Forall_drop. Qed.

Lemma length_slice {A} (l : list A) i j :
  (j <= length l)%nat -> length (slice l i j) = (j - i)%nat.
Proof. intros. unfold slice. rewrite length_take, length_drop. lia. Qed.

(** Adjacent slices cover the list. *)
Lemma drop_slice {A} (l : list A) i j :
  (i <= j)%nat -> drop i l = slice l i j ++ drop j l.
Proof.
  intros. unfold slice. rewrite <- (take_drop (j - i) (drop i l)) at 1.
  rewrite drop_drop. by replace (i + (j - i))%nat with j by lia.
Qed.

(** Lengths as numbers. *)
Definition len {A} (l : list A) : Z := Z.of_nat (length l).

Lemma len_nonneg {A} (l : list A) : 0 <= len l.
Proof. unfold len. lia. Qed.

Lemma len_app {A} (l k : list A) : len (l ++ k) = len l + len k.
Proof. unfold len. rewrite length_app. lia. Qed.

Lemma len_cons {A} (x : A) l : len (x :: l) = 1 + len l.
Proof. unfold len. cbn [length]. lia. Qed.

Lemma len_be n z : len (be_bytes n z) = Z.of_nat n.
Proof. unfold len. by rewrite length_be_bytes. Qed.

Lemma take_len {A} (l k : list A) n : n = len l -> take (Z.to_nat n) (l ++ k) = l.
Proof. intros ->. unfold len. rewrite Nat2Z.id. apply take_app_length. Qed.

Lemma drop_len {A} (l k : list A) n : n = len l -> drop (Z.to_nat n) (l ++ k) = k.
Proof. intros ->. unfold len. rewrite Nat2Z.id. apply drop_app_length. Qed.

(** ** [AldError] (crates/ald-core/src/error.rs) *)
Inductive ald_error :=
| Io (s : string) | Parse (s : string) | Config (s : string) | Protocol (s : string)
| Resource (s : string) | IdentityE (s : string) | EntitlementUnknown | RpcTimeout
| NotFound (s : string) | CapabilityDenied (s : string) | InvalidArgument (s : string)
| Network (s : string) | Other (s : string).
