(* ===== verification/Msgpack.v ===== *)
(** Citizen-compatible MessagePack (crates/ald-serialization-compat/src/lib.rs):
    the value type, the encoder and the decoder over a byte cursor. Floats are
    their IEEE bit patterns; a cursor is the bytes that remain. *)
From S2P Require Import Prelude RustStr Bytes.

Definition FUNCREF : Z := 10.
Definition LOCAL_FUNCREF : Z := 11.
Definition VECTOR2 : Z := 20.
Definition VECTOR3 : Z := 21.
Definition VECTOR4 : Z := 22.
Definition QUATERNION : Z := 23.

Inductive cfx_value :=
| Nil
| Bool (b : bool)
| Int (n : Z)
| Float (bits : Z)
| Str (s : string)
| Bin (b : list Z)
| Array (items : list cfx_value)
| Map (entries : list (cfx_value * cfx_value))
| Vector2 (x y : Z)
| Vector3 (x y z : Z)
| Vector4 (x y z w : Z)
| Quat (x y z w : Z)
| Ext (tag : Z) (data : list Z).

Definition is_nil (v : cfx_value) : bool := match v with Nil => true | _ => false end.
Definition is_vector (v : cfx_value) : bool :=
  match v with Vector2 _ _ | Vector3 _ _ _ | Vector4 _ _ _ _ | Quat _ _ _ _ => true | _ => false end.
Definition components (v : cfx_value) : nat :=
  match v with
  | Vector2 _ _ => 2 | Vector3 _ _ _ => 3 | Vector4 _ _ _ _ | Quat _ _ _ _ => 4 | _ => 0
  end.

(** ** Encoder *)
Definition u8_max : Z := 255.
Definition u16_max : Z := 65535.

(** [n.to_be_bytes()] at the width of the value's type; [n as u8]. *)
Definition be8 (n : Z) : list Z := be_bytes 8 (wrap 64 n).
Definition as_u8 (n : Z) : Z := wrap 8 n.

Definition write_int (n : Z) : list Z :=
  if (0 <=? n) && (n <=? 127) then [as_u8 n]
  else if (0 <=? n) && (n <=? u8_max) then [0xCC; as_u8 n]
  else if (0 <=? n) && (n <=? u16_max) then 0xCD :: be8 n
  else if (0 <=? n) && (n <=? u32_max) then 0xCE :: be8 n
  else if 0 <=? n then 0xCF :: be8 n
  else if (-128 <=? n) && (n <=? 0) then
    if -32 <=? n then [as_u8 n] else [0xD0; as_u8 n]
  else if (-32768 <=? n) && (n <=? 32767) then 0xD1 :: be_bytes 2 (wrap 16 n)
  else if (- 2 ^ 31 <=? n) && (n <=? 2 ^ 31 - 1) then 0xD2 :: be_bytes 4 (wrap 32 n)
  else 0xD3 :: be8 n.

(** The length prefixes; [fix], [t8], [t16], [t32] are the tags. *)
Definition len16_32 (t16 t32 n : Z) : list Z :=
  if n <=? u16_max then t16 :: be_bytes 2 (wrap 16 n) else t32 :: be_bytes 4 (wrap 32 n).

Definition write_str (s : string) : list Z :=
  let b := codes s in
  let n := Z.of_nat (length b) in
  (if n <? 32 then [Z.lor 0xA0 (as_u8 n)]
   else if n <=? u8_max then [0xD9; as_u8 n]
   else len16_32 0xDA 0xDB n) ++ b.

Definition write_bin (b : list Z) : list Z :=
  let n := Z.of_nat (length b) in
  (if n <=? u8_max then [0xC4; as_u8 n] else len16_32 0xC5 0xC6 n) ++ b.

Definition write_vector (tag : Z) (comps : list Z) : list Z :=
  let n := Z.of_nat (length comps * 4) in
  (if n <=? u8_max then [0xC7; as_u8 n] else len16_32 0xC8 0xC9 n) ++
  [as_u8 tag] ++ concat ((fun c => be_bytes 4 c) <$> comps).

Definition write_ext (tag : Z) (data : list Z) : result (list Z) ald_error :=
  let n := Z.of_nat (length data) in
  let? head :=
    if n =? 1 then Ok [0xD4] else if n =? 2 then Ok [0xD5] else if n =? 4 then Ok [0xD6]
    else if n =? 8 then Ok [0xD7] else if n =? 16 then Ok [0xD8]
    else if n <=? u8_max then Ok [0xC7; as_u8 n]
    else if n <=? u16_max then Ok (0xC8 :: be_bytes 2 (wrap 16 n))
    else if n <=? u32_max then Ok (0xC9 :: be_bytes 4 (wrap 32 n))
    else Err (Protocol "ext payload exceeds 4GiB") in
  Ok (head ++ [as_u8 tag] ++ data).

Definition array_head (n : Z) : list Z :=
  if n <? 16 then [Z.lor 0x90 (as_u8 n)] else len16_32 0xDC 0xDD n.
Definition map_head (n : Z) : list Z :=
  if n <? 16 then [Z.lor 0x80 (as_u8 n)] else len16_32 0xDE 0xDF n.

(** The loops of [write_array] and [write_map]. *)
Definition write_items (write : cfx_value -> result (list Z) ald_error) :=
  fix go (l : list cfx_value) : result (list Z) ald_error :=
    match l with
    | [] => Ok []
    | x :: l => let? a := write x in let? b := go l in Ok (a ++ b)
    end.
Definition write_entries (write : cfx_value -> result (list Z) ald_error) :=
  fix go (l : list (cfx_value * cfx_value)) : result (list Z) ald_error :=
    match l with
    | [] => Ok []
    | p :: l =>
        let? a := write p.1 in let? b := write p.2 in let? c := go l in Ok (a ++ b ++ c)
    end.

(** [write_value] with its loops [write_array] and [write_map]. *)
Fixpoint write_value (v : cfx_value) : result (list Z) ald_error :=
  match v with
  | Nil => Ok [0xC0]
  | Bool false => Ok [0xC2]
  | Bool true => Ok [0xC3]
  | Int n => Ok (write_int n)
  | Float f => Ok (0xCB :: be_bytes 8 f)
  | Str s => Ok (write_str s)
  | Bin b => Ok (write_bin b)
  | Array items =>
      let? body := write_items write_value items in
      Ok (array_head (Z.of_nat (length items)) ++ body)
  | Map entries =>
      let? body := write_entries write_value entries in
      Ok (map_head (Z.of_nat (length entries)) ++ body)
  | Vector2 x y => Ok (write_vector VECTOR2 [x; y])
  | Vector3 x y z => Ok (write_vector VECTOR3 [x; y; z])
  | Vector4 x y z w => Ok (write_vector VECTOR4 [x; y; z; w])
  | Quat x y z w => Ok (write_vector QUATERNION [x; y; z; w])
  | Ext tag data => write_ext tag data
  end.

Definition pack (v : cfx_value) : result (list Z) ald_error := write_value v.

(** ** Decoder

    A reader takes the remaining bytes and returns the value and the bytes
    after it. [None] is running out of fuel. *)
Definition parse (A : Type) := result (A * list Z) ald_error.

Definition read_u8 (c : list Z) : parse Z :=
  match c with
  | b :: c => Ok (b, c)
  | [] => Err (Protocol "unexpected end of msgpack buffer")
  end.

Definition take_bytes (n : Z) (c : list Z) : parse (list Z) :=
  if Z.of_nat (length c) <? n then Err (Protocol "msgpack field overruns buffer")
  else Ok (take (Z.to_nat n) c, drop (Z.to_nat n) c).

Definition read_be (n : Z) (c : list Z) : parse Z :=
  let? '(s, c) := take_bytes n c in Ok (be_val s, c).

(** [f32 as f64] on bit patterns; a NaN keeps its payload and becomes quiet. *)
Definition f32_to_f64 (b : Z) : Z :=
  let sign := Z.shiftr b 31 in
  let e := Z.land (Z.shiftr b 23) 255 in
  let m := Z.land b (2 ^ 23 - 1) in
  let out (e m : Z) := sign * 2 ^ 63 + e * 2 ^ 52 + m in
  if e =? 255 then out 2047 (if m =? 0 then 0 else Z.lor (m * 2 ^ 29) (2 ^ 51))
  else if e =? 0 then
    if m =? 0 then out 0 0
    else let k := Z.log2 m in out (k - 149 + 1023) ((m - 2 ^ k) * 2 ^ (52 - k))
  else out (e - 127 + 1023) (m * 2 ^ 29).

Definition read_bin (n : Z) (c : list Z) : parse cfx_value :=
  let? '(d, c) := take_bytes n c in Ok (Bin d, c).

Definition read_str (n : Z) (c : list Z) : parse cfx_value :=
  let? '(raw, c) := take_bytes n c in
  if utf8_valid raw then Ok (Str (of_codes raw), c)
  else Err (Protocol "msgpack string is not valid UTF-8").

Definition read_f32 (c : list Z) : parse Z := read_be 4 c.

Definition read_ext (n : Z) (c : list Z) : parse cfx_value :=
  let? '(t, c) := read_u8 c in
  let tag := swrap 8 t in
  if (tag =? VECTOR2) && (n =? 8) then
    let? '(x, c) := read_f32 c in let? '(y, c) := read_f32 c in Ok (Vector2 x y, c)
  else if (tag =? VECTOR3) && (n =? 12) then
    let? '(x, c) := read_f32 c in let? '(y, c) := read_f32 c in
    let? '(z, c) := read_f32 c in Ok (Vector3 x y z, c)
  else if (tag =? VECTOR4) && (n =? 16) then
    let? '(x, c) := read_f32 c in let? '(y, c) := read_f32 c in
    let? '(z, c) := read_f32 c in let? '(w, c) := read_f32 c in Ok (Vector4 x y z w, c)
  else if (tag =? QUATERNION) && (n =? 16) then
    let? '(x, c) := read_f32 c in let? '(y, c) := read_f32 c in
    let? '(z, c) := read_f32 c in let? '(w, c) := read_f32 c in Ok (Quat x y z w, c)
  else
    let? '(d, c) := take_bytes n c in Ok (Ext tag d, c).

(** The [for _ in 0..n] loops of [read_array] and [read_map]; an item takes a
    byte, so the remaining length is enough turns. *)
Fixpoint read_n {A} (item : list Z -> option (parse A)) (turns : nat) (n : Z) (c : list Z) :
    option (parse (list A)) :=
  if n <=? 0 then Some (Ok ([], c))
  else
    match turns with
    | O => None
    | S turns =>
        match item c with
        | None => None
        | Some (Err e) => Some (Err e)
        | Some (Ok (x, c)) =>
            match read_n item turns (n - 1) c with
            | Some (Ok (xs, c)) => Some (Ok (x :: xs, c))
            | r => r
            end
        end
    end.

Definition read_pair (value : list Z -> option (parse cfx_value)) (c : list Z) :
    option (parse (cfx_value * cfx_value)) :=
  match value c with
  | Some (Ok (k, c)) =>
      match value c with
      | Some (Ok (v, c)) => Some (Ok ((k, v), c))
      | Some (Err e) => Some (Err e)
      | None => None
      end
  | Some (Err e) => Some (Err e)
  | None => None
  end.

Definition omap_parse {A B} (f : A -> B) (r : option (parse A)) : option (parse B) :=
  match r with
  | Some (Ok (a, c)) => Some (Ok (f a, c))
  | Some (Err e) => Some (Err e)
  | None => None
  end.

Definition read_array value (n : Z) (c : list Z) : option (parse cfx_value) :=
  omap_parse Array (read_n value (S (length c)) n c).
Definition read_map value (n : Z) (c : list Z) : option (parse cfx_value) :=
  omap_parse Map (read_n (read_pair value) (S (length c)) n c).

(** [let n = read()? as usize; k(c, n)]. *)
Definition with_len {A} (r : parse Z) (k : Z -> list Z -> option (parse A)) : option (parse A) :=
  match r with Ok (n, c) => k n c | Err e => Some (Err e) end.

Definition ret_int (f : Z -> Z) (r : parse Z) : option (parse cfx_value) :=
  Some (let? '(n, c) := r in Ok (Int (f n), c)).

Definition invalid_tag : ald_error := Protocol "invalid msgpack tag 0xC1".

Definition read_tagged (value : list Z -> option (parse cfx_value)) (tag : Z) (c : list Z)
    : option (parse cfx_value) :=
  match tag with
  | 0xC0 => Some (Ok (Nil, c))
  | 0xC2 => Some (Ok (Bool false, c))
  | 0xC3 => Some (Ok (Bool true, c))
  | 0xCA => Some (let? '(f, c) := read_be 4 c in Ok (Float (f32_to_f64 f), c))
  | 0xCB => Some (let? '(f, c) := read_be 8 c in Ok (Float f, c))
  | 0xCC => ret_int id (read_u8 c)
  | 0xCD => ret_int id (read_be 2 c)
  | 0xCE => ret_int id (read_be 4 c)
  | 0xCF => ret_int (swrap 64) (read_be 8 c)
  | 0xD0 => ret_int (swrap 8) (read_u8 c)
  | 0xD1 => ret_int (swrap 16) (read_be 2 c)
  | 0xD2 => ret_int (swrap 32) (read_be 4 c)
  | 0xD3 => ret_int (swrap 64) (read_be 8 c)
  | 0xC4 => with_len (read_u8 c) (fun n c => Some (read_bin n c))
  | 0xC5 => with_len (read_be 2 c) (fun n c => Some (read_bin n c))
  | 0xC6 => with_len (read_be 4 c) (fun n c => Some (read_bin n c))
  | 0xC7 => with_len (read_u8 c) (fun n c => Some (read_ext n c))
  | 0xC8 => with_len (read_be 2 c) (fun n c => Some (read_ext n c))
  | 0xC9 => with_len (read_be 4 c) (fun n c => Some (read_ext n c))
  | 0xD4 => Some (read_ext 1 c)
  | 0xD5 => Some (read_ext 2 c)
  | 0xD6 => Some (read_ext 4 c)
  | 0xD7 => Some (read_ext 8 c)
  | 0xD8 => Some (read_ext 16 c)
  | 0xD9 => with_len (read_u8 c) (fun n c => Some (read_str n c))
  | 0xDA => with_len (read_be 2 c) (fun n c => Some (read_str n c))
  | 0xDB => with_len (read_be 4 c) (fun n c => Some (read_str n c))
  | 0xDC => with_len (read_be 2 c) (read_array value)
  | 0xDD => with_len (read_be 4 c) (read_array value)
  | 0xDE => with_len (read_be 2 c) (read_map value)
  | 0xDF => with_len (read_be 4 c) (read_map value)
  | _ =>
      if tag <=? 0x7F then Some (Ok (Int tag, c))
      else if (0x80 <=? tag) && (tag <=? 0x8F) then
        read_map value (Z.land tag 0x0F) c
      else if (0x90 <=? tag) && (tag <=? 0x9F) then
        read_array value (Z.land tag 0x0F) c
      else if (0xA0 <=? tag) && (tag <=? 0xBF) then
        Some (read_str (Z.land tag 0x1F) c)
      else if 0xE0 <=? tag then Some (Ok (Int (swrap 8 tag), c))
      else Some (Err invalid_tag)
  end.

Fixpoint read_value (fuel : nat) (c : list Z) : option (parse cfx_value) :=
  match fuel with
  | O => None
  | S fuel =>
      match read_u8 c with
      | Err e => Some (Err e)
      | Ok (tag, c) => read_tagged (read_value fuel) tag c
      end
  end.

(** Every value takes a byte, so the length is enough fuel. *)
Definition unpack (bytes : list Z) : option (result cfx_value ald_error) :=
  match read_value (S (length bytes)) bytes with
  | None => None
  | Some (Err e) => Some (Err e)
  | Some (Ok (v, _)) => Some (Ok v)
  end.

(** ** Properties *)

Section cfx_induction.
Context (P : cfx_value -> Prop).
Hypothesis (HNil : P Nil) (HBool : forall b, P (Bool b)) (HInt : forall n, P (Int n))
  (HFloat : forall f, P (Float f)) (HStr : forall s, P (Str s)) (HBin : forall b, P (Bin b))
  (HArray : forall l, Forall P l -> P (Array l))
  (HMap : forall l, Forall (fun p => P p.1 /\ P p.2) l -> P (Map l))
  (HV2 : forall x y, P (Vector2 x y)) (HV3 : forall x y z, P (Vector3 x y z))
  (HV4 : forall x y z w, P (Vector4 x y z w)) (HQ : forall x y z w, P (Quat x y z w))
  (HExt : forall t d, P (Ext t d)).

Fixpoint cfx_ind' (v : cfx_value) : P v :=
  match v with
  | Nil => HNil | Bool b => HBool b | Int n => HInt n | Float f => HFloat f
  | Str s => HStr s | Bin b => HBin b
  | Array l => HArray l ((fix go l : Forall P l :=
      match l with [] => Forall_nil_2 _ | x :: l => Forall_cons_2 _ _ _ (cfx_ind' x) (go l) end) l)
  | Map l => HMap l ((fix go l : Forall (fun p => P p.1 /\ P p.2) l :=
      match l with
      | [] => Forall_nil_2 _
      | p :: l => Forall_cons_2 _ _ _ (conj (cfx_ind' p.1) (cfx_ind' p.2)) (go l)
      end) l)
  | Vector2 x y => HV2 x y | Vector3 x y z => HV3 x y z | Vector4 x y z w => HV4 x y z w
  | Quat x y z w => HQ x y z w | Ext t d => HExt t d
  end.
End cfx_induction.

(** A tag and length that [read_ext] takes for one of the vector types. *)
Definition vector_shape (tag n : Z) : bool :=
  (tag =? VECTOR2) && (n =? 8) || (tag =? VECTOR3) && (n =? 12) ||
  (tag =? VECTOR4) && (n =? 16) || (tag =? QUATERNION) && (n =? 16).

Definition short {A} (l : list A) : Prop := Z.of_nat (length l) < 2 ^ 32.

(** The values that survive the wire: the ranges of the Rust types (an [i64],
    bit patterns of the float's width, UTF-8 strings, an [i8] tag), lengths
    within the format's [u32], integers outside [256, 2^32), and opaque
    extensions that do not look like a vector. *)
Fixpoint wire_safe (v : cfx_value) : Prop :=
  match v with
  | Nil | Bool _ => True
  | Int n => (- 2 ^ 63 <= n < 2 ^ 63) /\ ~ (256 <= n < 2 ^ 32)
  | Float f => fits 64 f
  | Str s => utf8_valid (codes s) = true /\ short (codes s)
  | Bin b => short b
  | Array l => short l /\ (fix go l := match l with [] => True | x :: l => wire_safe x /\ go l end) l
  | Map l => short l /\
      (fix go l := match l with [] => True | p :: l => (wire_safe p.1 /\ wire_safe p.2) /\ go l end) l
  | Vector2 x y => fits 32 x /\ fits 32 y
  | Vector3 x y z => fits 32 x /\ fits 32 y /\ fits 32 z
  | Vector4 x y z w | Quat x y z w => fits 32 x /\ fits 32 y /\ fits 32 z /\ fits 32 w
  | Ext tag d => (-128 <= tag < 128) /\ short d /\
      vector_shape tag (Z.of_nat (length d)) = false
  end.

Lemma wire_safe_array l : wire_safe (Array l) <-> short l /\ Forall wire_safe l.
Proof.
  cbn [wire_safe]. apply and_iff_compat_l. induction l as [|x l IH]; [by split|].
  by rewrite Forall_cons, IH.
Qed.

Lemma wire_safe_map l :
  wire_safe (Map l) <-> short l /\ Forall (fun p => wire_safe p.1 /\ wire_safe p.2) l.
Proof.
  cbn [wire_safe]. apply and_iff_compat_l. induction l as [|x l IH]; [by split|].
  by rewrite Forall_cons, IH.
Qed.

Lemma swrap_wrap w n :
  1 <= w -> - 2 ^ (w - 1) <= n < 2 ^ (w - 1) -> swrap w (wrap w n) = n.
Proof.
  intros Hw Hn. rewrite <- (swrap_small w n) at 2 by done.
  unfold swrap, wrap. by rewrite Zmod_mod.
Qed.

Lemma take_bytes_app n d c : Z.of_nat (length d) = n -> take_bytes n (d ++ c) = Ok (d, c).
Proof.
  intros <-. unfold take_bytes. rewrite length_app, (proj2 (Z.ltb_ge _ _)) by lia.
  by rewrite Nat2Z.id, take_app_length, drop_app_length.
Qed.

Lemma read_be_app k z c :
  fits (8 * Z.of_nat k) z -> read_be (Z.of_nat k) (be_bytes k z ++ c) = Ok (z, c).
Proof.
  intros Hz. unfold read_be. rewrite take_bytes_app by by rewrite length_be_bytes.
  cbn [rbind]. by rewrite be_val_bytes.
Qed.

Lemma nat_offset lo n x : lo <= x < lo + Z.of_nat n -> exists i, (i < n)%nat /\ x = lo + Z.of_nat i.
Proof. intros H. exists (Z.to_nat (x - lo)). lia. Qed.

(** Case on the at most [k] values of [x] from [lo]. *)
Ltac enum lo k x :=
  let i := fresh "i" in
  let Hi := fresh "Hi" in
  destruct (nat_offset lo k x ltac:(lia)) as (i & Hi & ->);
  repeat (destruct i as [|i]; [reflexivity|]); lia.

Lemma read_fixint f n c : 0 <= n <= 127 -> read_value (S f) (n :: c) = Some (Ok (Int n, c)).
Proof. intros Hn. enum 0 128%nat n. Qed.

Lemma read_neg_fixint f n c :
  -32 <= n < 0 -> read_value (S f) (wrap 8 n :: c) = Some (Ok (Int n, c)).
Proof. intros Hn. enum (-32) 32%nat n. Qed.

Lemma read_fixstr f n c :
  0 <= n < 32 -> read_value (S f) (Z.lor 0xA0 (as_u8 n) :: c) = Some (read_str n c).
Proof. intros Hn. enum 0 32%nat n. Qed.

Lemma read_fixarray f n c :
  0 <= n < 16 ->
  read_value (S f) (Z.lor 0x90 (as_u8 n) :: c) = read_array (read_value f) n c.
Proof. intros Hn. enum 0 16%nat n. Qed.

Lemma read_fixmap f n c :
  0 <= n < 16 -> read_value (S f) (Z.lor 0x80 (as_u8 n) :: c) = read_map (read_value f) n c.
Proof. intros Hn. enum 0 16%nat n. Qed.

Lemma pow_values : 2 ^ 8 = 256 /\ 2 ^ 16 = 65536 /\ 2 ^ 31 = 2147483648 /\ 2 ^ 32 = 4294967296 /\
  2 ^ 63 = 9223372036854775808 /\ 2 ^ 64 = 18446744073709551616.
Proof. done. Qed.

Ltac widths :=
  unfold fits, u8_max, u16_max, u32_max in *; pose proof pow_values; lia.

(** A reader of a length field followed by a continuation. *)
Lemma with_be {A} k n c (g : Z -> list Z -> option (parse A)) :
  fits (8 * Z.of_nat k) n -> with_len (read_be (Z.of_nat k) (be_bytes k n ++ c)) g = g n c.
Proof. intros Hn. unfold with_len. by rewrite read_be_app. Qed.

Lemma ret_be k n m f c :
  fits (8 * Z.of_nat k) m -> f m = n ->
  ret_int f (read_be (Z.of_nat k) (be_bytes k m ++ c)) = Some (Ok (Int n, c)).
Proof. intros Hm <-. unfold ret_int. by rewrite read_be_app. Qed.

(** The three prefix forms of strings, byte strings, arrays and maps. *)
Lemma read_len16_32 f t16 t32 n c (g : nat -> Z -> list Z -> option (parse cfx_value)) :
  (forall c, read_value (S f) (t16 :: c) = with_len (read_be 2 c) (g f)) ->
  (forall c, read_value (S f) (t32 :: c) = with_len (read_be 4 c) (g f)) ->
  0 <= n < 2 ^ 32 ->
  read_value (S f) (len16_32 t16 t32 n ++ c) = g f n c.
Proof.
  intros H16 H32 Hn. unfold len16_32. destruct (n <=? u16_max) eqn:Hle; bool_prop.
  - rewrite wrap_small by widths. rewrite <- app_comm_cons, H16.
    apply (with_be 2). widths.
  - rewrite wrap_small by widths. rewrite <- app_comm_cons, H32.
    apply (with_be 4). widths.
Qed.

Lemma read_int_ok f n c :
  - 2 ^ 63 <= n < 2 ^ 63 -> ~ (256 <= n < 2 ^ 32) ->
  read_value (S f) (write_int n ++ c) = Some (Ok (Int n, c)).
Proof.
  intros Hn Hgap. unfold write_int, as_u8, be8.
  destruct (0 <=? n) eqn:H0; bool_prop; cbn [andb].
  - destruct (n <=? 127) eqn:H1; bool_prop.
    { rewrite wrap_small by widths. apply read_fixint. lia. }
    destruct (n <=? u8_max) eqn:H2; bool_prop.
    { rewrite wrap_small by widths. reflexivity. }
    destruct (n <=? u16_max) eqn:H3; bool_prop; [exfalso; widths|].
    destruct (n <=? u32_max) eqn:H4; bool_prop; [exfalso; widths|].
    rewrite wrap_small by widths. rewrite <- app_comm_cons.
    apply (ret_be 8 n n (swrap 64)); [widths|]. apply swrap_small; [lia|].
    change (64 - 1) with 63. lia.
  - rewrite (proj2 (Z.leb_le n 0)), andb_true_r by lia.
    destruct (-128 <=? n) eqn:H1; bool_prop.
    { destruct (-32 <=? n) eqn:H2; bool_prop; [by apply read_neg_fixint|].
      change (read_value (S f) ([0xD0; wrap 8 n] ++ c)) with
        (Some (Ok (E := ald_error) (Int (swrap 8 (wrap 8 n)), c))).
      rewrite swrap_wrap; [done|lia|]. change (2 ^ (8 - 1)) with 128. lia. }
    destruct ((-32768 <=? n) && (n <=? 32767)) eqn:H2; bool_prop.
    { rewrite <- app_comm_cons. apply (ret_be 2 n (wrap 16 n) (swrap 16)); [apply wrap_fits; lia|].
      apply swrap_wrap; [lia|]. change (2 ^ (16 - 1)) with 32768. lia. }
    destruct ((- 2 ^ 31 <=? n) && (n <=? 2 ^ 31 - 1)) eqn:H3; bool_prop.
    { rewrite <- app_comm_cons. apply (ret_be 4 n (wrap 32 n) (swrap 32)); [apply wrap_fits; lia|].
      apply swrap_wrap; [lia|]. change (32 - 1) with 31. lia. }
    rewrite <- app_comm_cons. apply (ret_be 8 n (wrap 64 n) (swrap 64)); [apply wrap_fits; lia|].
    apply swrap_wrap; [lia|]. change (64 - 1) with 63. lia.
Qed.

Lemma read_str_app s c :
  utf8_valid (codes s) = true ->
  read_str (Z.of_nat (length (codes s))) (codes s ++ c) = Ok (Str s, c).
Proof.
  intros Hs. unfold read_str. rewrite take_bytes_app by done. cbn [rbind].
  by rewrite Hs, of_codes_codes.
Qed.

Lemma read_write_str f s c :
  utf8_valid (codes s) = true -> short (codes s) ->
  read_value (S f) (write_str s ++ c) = Some (Ok (Str s, c)).
Proof.
  intros Hu Hs. unfold write_str, short in *. rewrite <- (assoc_L (++)).
  pose proof (read_str_app s c Hu) as Hr. revert Hr. generalize (codes s ++ c). intros d Hr.
  set (n := Z.of_nat (length (codes s))) in *. assert (Hn : 0 <= n) by lia.
  destruct (n <? 32) eqn:H1; bool_prop.
  { cbn [app]. rewrite read_fixstr by lia. by rewrite Hr. }
  destruct (n <=? u8_max) eqn:H2; bool_prop.
  { unfold as_u8. rewrite wrap_small by widths. cbn [app].
    change (Some (read_str n d) = Some (Ok (Str s, c))). by rewrite Hr. }
  rewrite (read_len16_32 f _ _ n d (fun _ n c => Some (read_str n c))); [by rewrite Hr|done..|lia].
Qed.

Lemma read_write_bin f b c : short b -> read_value (S f) (write_bin b ++ c) = Some (Ok (Bin b, c)).
Proof.
  intros Hs. unfold write_bin, short in *. rewrite <- (assoc_L (++)).
  assert (Hr : read_bin (Z.of_nat (length b)) (b ++ c) = Ok (Bin b, c)).
  { unfold read_bin. by rewrite take_bytes_app. }
  revert Hr. generalize (b ++ c). intros d Hr. set (n := Z.of_nat (length b)) in *.
  destruct (n <=? u8_max) eqn:H2; bool_prop.
  { unfold as_u8. rewrite wrap_small by widths. cbn [app].
    change (Some (read_bin n d) = Some (Ok (Bin b, c))). by rewrite Hr. }
  rewrite (read_len16_32 f _ _ n d (fun _ n c => Some (read_bin n c))); [by rewrite Hr|done..|lia].
Qed.

(** Extensions: the shapes of the heads that carry the length [n]. *)
Definition ext_head (n : Z) (head : list Z) : Prop :=
  forall f c, read_value (S f) (head ++ c) = Some (read_ext n c).

Lemma ext8_head n : 0 <= n <= u8_max -> ext_head n [0xC7; as_u8 n].
Proof. intros Hn f c. unfold as_u8. rewrite wrap_small by widths. reflexivity. Qed.

Lemma ext16_32_head n : 0 <= n < 2 ^ 32 -> ext_head n (len16_32 0xC8 0xC9 n).
Proof.
  intros Hn f c.
  by rewrite (read_len16_32 f _ _ n c (fun _ n c => Some (read_ext n c))).
Qed.

Lemma read_ext_opaque t d c :
  -128 <= t < 128 -> vector_shape t (Z.of_nat (length d)) = false ->
  read_ext (Z.of_nat (length d)) (as_u8 t :: d ++ c) = Ok (Ext t d, c).
Proof.
  intros Ht Hv. unfold read_ext, as_u8. cbn [read_u8 rbind].
  rewrite swrap_wrap by (lia || (change (2 ^ (8 - 1)) with 128; lia)).
  unfold vector_shape in Hv. apply orb_false_iff in Hv as [Hv H4].
  apply orb_false_iff in Hv as [Hv H3]. apply orb_false_iff in Hv as [H1 H2].
  rewrite H1, H2, H3, H4. by rewrite take_bytes_app.
Qed.

Lemma read_ext16 f c :
  read_value (S f) (0xC8 :: c) = with_len (read_be 2 c) (fun n c => Some (read_ext n c)).
Proof. reflexivity. Qed.
Lemma read_ext32 f c :
  read_value (S f) (0xC9 :: c) = with_len (read_be 4 c) (fun n c => Some (read_ext n c)).
Proof. reflexivity. Qed.

Lemma write_ext_ok f t d c :
  -128 <= t < 128 -> short d -> vector_shape t (Z.of_nat (length d)) = false ->
  exists bs, write_ext t d = Ok bs /\ bs <> [] /\
    read_value (S f) (bs ++ c) = Some (Ok (Ext t d, c)).
Proof.
  intros Ht Hd Hv. pose proof (read_ext_opaque t d c Ht Hv) as Hr. unfold write_ext, short in *.
  set (n := Z.of_nat (length d)) in *.
  assert (Hgo : forall head, head <> [] -> ext_head n head -> exists bs,
    (let? h := Ok (E := ald_error) head in Ok (h ++ [as_u8 t] ++ d)) = Ok bs /\ bs <> [] /\
    read_value (S f) (bs ++ c) = Some (Ok (Ext t d, c))).
  { intros head Hne Hh. eexists. split; [done|]. split; [by destruct head|].
    rewrite <- !(assoc_L (++)). rewrite Hh. by rewrite <- Hr. }
  assert (Hfix : forall k tag, n = k ->
    (forall f c, read_value (S f) (tag :: c) = Some (read_ext k c)) -> ext_head n [tag]).
  { intros k tag -> Htag f' c'. apply Htag. }
  destruct (n =? 1) eqn:E1; [bool_prop; apply Hgo; [done|by apply (Hfix 1)]|].
  destruct (n =? 2) eqn:E2; [bool_prop; apply Hgo; [done|by apply (Hfix 2)]|].
  destruct (n =? 4) eqn:E4; [bool_prop; apply Hgo; [done|by apply (Hfix 4)]|].
  destruct (n =? 8) eqn:E8; [bool_prop; apply Hgo; [done|by apply (Hfix 8)]|].
  destruct (n =? 16) eqn:E16; [bool_prop; apply Hgo; [done|by apply (Hfix 16)]|].
  destruct (n <=? u8_max) eqn:H8; [apply Hgo; [done|]|
    destruct (n <=? u16_max) eqn:H16; [apply Hgo; [done|]|
      destruct (n <=? u32_max) eqn:H32; [apply Hgo; [done|]|]]]; bool_prop.
  - apply ext8_head. lia.
  - rewrite (wrap_small 16) by widths. intros f' c'. rewrite <- app_comm_cons, read_ext16.
    apply (with_be 2 n c' (fun n c => Some (read_ext n c))). widths.
  - rewrite (wrap_small 32) by widths. intros f' c'. rewrite <- app_comm_cons, read_ext32.
    apply (with_be 4 n c' (fun n c => Some (read_ext n c))). widths.
  - exfalso. widths.
Qed.

Lemma read_f32_app x c : fits 32 x -> read_f32 (be_bytes 4 x ++ c) = Ok (x, c).
Proof. apply (read_be_app 4). Qed.

Lemma read_write_vector f tag comps c v :
  (length comps <= 4)%nat -> 0 <= tag < 128 ->
  read_ext (Z.of_nat (length comps * 4))
    (as_u8 tag :: concat ((fun c => be_bytes 4 c) <$> comps) ++ c) = Ok (v, c) ->
  read_value (S f) (write_vector tag comps ++ c) = Some (Ok (v, c)).
Proof.
  intros Hl Ht Hr. unfold write_vector. set (n := Z.of_nat _) in *.
  rewrite (proj2 (Z.leb_le n u8_max)) by widths.
  rewrite <- (assoc_L (++)). rewrite (ext8_head n) by widths. cbn [app]. by rewrite Hr.
Qed.

(** The encoding of [v] is read back whatever follows it. *)
Definition survives (v : cfx_value) : Prop :=
  exists bs, write_value v = Ok bs /\ bs <> [] /\
    forall fuel c, (length bs <= fuel)%nat -> read_value (S fuel) (bs ++ c) = Some (Ok (v, c)).

Lemma write_items_ok l :
  Forall survives l ->
  exists body, write_items write_value l = Ok body /\ (length l <= length body)%nat /\
    forall fuel turns c, (length body < fuel)%nat -> (length l <= turns)%nat ->
      read_n (read_value fuel) turns (Z.of_nat (length l)) (body ++ c) = Some (Ok (l, c)).
Proof.
  induction 1 as [|v l (bs & Hw & Hne & Hr) _ (body & Hb & Hlen & IH)].
  { exists []. split_and!; [done..|]. intros fuel [|turns] c _ _; done. }
  exists (bs ++ body). cbn [write_items]. rewrite Hw. cbn [rbind].
  fold (write_items write_value). rewrite Hb. cbn [rbind]. split; [done|].
  assert (Hbs : (1 <= length bs)%nat) by (destruct bs; [done|simpl; lia]).
  rewrite length_app. cbn [length]. split; [lia|].
  intros fuel turns c Hf Ht. destruct turns as [|turns]; [lia|]. cbn [read_n].
  rewrite (proj2 (Z.leb_gt _ _)) by lia. destruct fuel as [|fuel]; [lia|].
  rewrite <- (assoc_L (++)), Hr by lia.
  replace (Z.of_nat (S (length l)) - 1) with (Z.of_nat (length l)) by lia.
  by rewrite IH by lia.
Qed.

Lemma write_entries_ok l :
  Forall (fun p => survives p.1 /\ survives p.2) l ->
  exists body, write_entries write_value l = Ok body /\ (length l <= length body)%nat /\
    forall fuel turns c, (length body < fuel)%nat -> (length l <= turns)%nat ->
      read_n (read_pair (read_value fuel)) turns (Z.of_nat (length l)) (body ++ c) =
      Some (Ok (l, c)).
Proof.
  induction 1 as [|[k v] l [(b1 & Hw1 & Hne1 & Hr1) (b2 & Hw2 & _ & Hr2)] _
    (body & Hb & Hlen & IH)].
  { exists []. split_and!; [done..|]. intros fuel [|turns] c _ _; done. }
  cbn [fst snd] in *. exists (b1 ++ b2 ++ body). cbn [write_entries fst snd].
  rewrite Hw1. cbn [rbind]. rewrite Hw2. cbn [rbind].
  fold (write_entries write_value). rewrite Hb. cbn [rbind]. split; [done|].
  assert (Hbs : (1 <= length b1)%nat) by (destruct b1; [done|simpl; lia]).
  rewrite !length_app. cbn [length]. split; [lia|].
  intros fuel turns c Hf Ht. destruct turns as [|turns]; [lia|]. cbn [read_n].
  rewrite (proj2 (Z.leb_gt _ _)) by lia. destruct fuel as [|fuel]; [lia|].
  unfold read_pair at 1. rewrite <- !(assoc_L (++)), Hr1, Hr2 by lia.
  replace (Z.of_nat (S (length l)) - 1) with (Z.of_nat (length l)) by lia.
  by rewrite IH by lia.
Qed.

Lemma array_head_ok f n c :
  0 <= n < 2 ^ 32 ->
  read_value (S f) (array_head n ++ c) = read_array (read_value f) n c.
Proof.
  intros Hn. unfold array_head. destruct (n <? 16) eqn:H; bool_prop.
  - apply read_fixarray. lia.
  - by apply (read_len16_32 f _ _ n c (fun f => read_array (read_value f))).
Qed.

Lemma map_head_ok f n c :
  0 <= n < 2 ^ 32 -> read_value (S f) (map_head n ++ c) = read_map (read_value f) n c.
Proof.
  intros Hn. unfold map_head. destruct (n <? 16) eqn:H; bool_prop.
  - apply read_fixmap. lia.
  - by apply (read_len16_32 f _ _ n c (fun f => read_map (read_value f))).
Qed.

Lemma len16_32_ne t16 t32 n : len16_32 t16 t32 n <> [].
Proof. unfold len16_32. by case_match. Qed.

Lemma array_head_ne n : (1 <= length (array_head n))%nat.
Proof. unfold array_head, len16_32. repeat case_match; simpl; lia. Qed.
Lemma map_head_ne n : (1 <= length (map_head n))%nat.
Proof. unfold map_head, len16_32. repeat case_match; simpl; lia. Qed.

Lemma app_ne (l1 l2 : list Z) : l1 <> [] -> l1 ++ l2 <> [].
Proof. by destruct l1. Qed.

Lemma wire_safe_survives v : wire_safe v -> survives v.
Proof.
  induction v as [|b|n|x|s|b|l IH|l IH|x y|x y z|x y z w|x y z w|t d] using cfx_ind';
    unfold survives; intros Hv.
  - exists [0xC0]. done.
  - exists (if b then [0xC3] else [0xC2]). by destruct b.
  - destruct Hv as [Hn Hg]. exists (write_int n). split; [done|]. split.
    { unfold write_int. by repeat case_match. }
    intros fuel c _. by apply read_int_ok.
  - exists (0xCB :: be_bytes 8 x). split_and!; [done..|]. intros fuel c _.
    change (Some (let? '(f, c) := read_be (Z.of_nat 8) (be_bytes 8 x ++ c) in
      Ok (E := ald_error) (Float f, c)) = Some (Ok (Float x, c))).
    by rewrite read_be_app.
  - destruct Hv as [Hu Hs]. exists (write_str s). split_and!; [done| |].
    { unfold write_str. apply app_ne. repeat case_match; [done..|]. apply len16_32_ne. }
    intros fuel c _. by apply read_write_str.
  - exists (write_bin b). split_and!; [done| |].
    { unfold write_bin. apply app_ne. case_match; [done|]. apply len16_32_ne. }
    intros fuel c _. by apply read_write_bin.
  - apply wire_safe_array in Hv as [Hs Hl]. unfold short in Hs.
    destruct (write_items_ok l) as (body & Hb & Hlen & Hr).
    { rewrite Forall_forall in *. auto. }
    exists (array_head (Z.of_nat (length l)) ++ body). cbn [write_value]. rewrite Hb.
    pose proof (array_head_ne (Z.of_nat (length l))).
    split_and!; [done|apply app_ne; by destruct (array_head _); [simpl in *; lia|]|].
    intros fuel c Hf. rewrite length_app in Hf. rewrite <- (assoc_L (++)), array_head_ok by lia.
    unfold read_array. rewrite Hr; [done|lia|]. rewrite length_app. lia.
  - apply wire_safe_map in Hv as [Hs Hl]. unfold short in Hs.
    destruct (write_entries_ok l) as (body & Hb & Hlen & Hr).
    { rewrite Forall_forall in *. intros p Hp. destruct (IH p Hp), (Hl p Hp). auto. }
    exists (map_head (Z.of_nat (length l)) ++ body). cbn [write_value]. rewrite Hb.
    pose proof (map_head_ne (Z.of_nat (length l))).
    split_and!; [done|apply app_ne; by destruct (map_head _); [simpl in *; lia|]|].
    intros fuel c Hf. rewrite length_app in Hf. rewrite <- (assoc_L (++)), map_head_ok by lia.
    unfold read_map. rewrite Hr; [done|lia|]. rewrite length_app. lia.
  - destruct Hv as [Hx Hy]. eexists. split_and!; [done|by apply app_ne|]. intros fuel c _.
    apply read_write_vector; [simpl; lia|by unfold VECTOR2|].
    change (read_ext _ _) with (let? '(a, c) := read_f32 (be_bytes 4 x ++ be_bytes 4 y ++ c) in
      let? '(b, c) := read_f32 c in Ok (E := ald_error) (Vector2 a b, c)).
    rewrite read_f32_app by done. cbn [rbind]. by rewrite read_f32_app.
  - destruct Hv as (Hx & Hy & Hz). eexists. split_and!; [done|by apply app_ne|]. intros fuel c _.
    apply read_write_vector; [simpl; lia|by unfold VECTOR3|].
    change (read_ext _ _) with
      (let? '(a, c) := read_f32 (be_bytes 4 x ++ be_bytes 4 y ++ be_bytes 4 z ++ c) in
       let? '(b, c) := read_f32 c in let? '(d, c) := read_f32 c in
       Ok (E := ald_error) (Vector3 a b d, c)).
    rewrite read_f32_app by done. cbn [rbind]. rewrite read_f32_app by done. cbn [rbind].
    by rewrite read_f32_app.
  - destruct Hv as (Hx & Hy & Hz & Hw). eexists. split_and!; [done|by apply app_ne|].
    intros fuel c _. apply read_write_vector; [simpl; lia|by unfold VECTOR4|].
    change (read_ext _ _) with
      (let? '(a, c) := read_f32 (be_bytes 4 x ++ be_bytes 4 y ++ be_bytes 4 z ++ be_bytes 4 w ++ c) in
       let? '(b, c) := read_f32 c in let? '(d, c) := read_f32 c in let? '(e, c) := read_f32 c in
       Ok (E := ald_error) (Vector4 a b d e, c)).
    do 3 (rewrite read_f32_app by done; cbn [rbind]). by rewrite read_f32_app.
  - destruct Hv as (Hx & Hy & Hz & Hw). eexists. split_and!; [done|by apply app_ne|].
    intros fuel c _. apply read_write_vector; [simpl; lia|by unfold QUATERNION|].
    change (read_ext _ _) with
      (let? '(a, c) := read_f32 (be_bytes 4 x ++ be_bytes 4 y ++ be_bytes 4 z ++ be_bytes 4 w ++ c) in
       let? '(b, c) := read_f32 c in let? '(d, c) := read_f32 c in let? '(e, c) := read_f32 c in
       Ok (E := ald_error) (Quat a b d e, c)).
    do 3 (rewrite read_f32_app by done; cbn [rbind]). by rewrite read_f32_app.
  - destruct Hv as (Ht & Hd & Hs). destruct (write_ext_ok 0 t d [] Ht Hd Hs) as (bs & Hw & Hne & _).
    exists bs. split_and!; [done..|]. intros fuel c _.
    destruct (write_ext_ok fuel t d c Ht Hd Hs) as (bs' & Hw' & _ & Hr). congruence.
Qed.

(** C5: every wire-safe value, nested to any depth, is packed and unpacked to
    itself: nil and false stay apart, vectors and quaternions keep their type,
    and so do byte strings, text, floats bit for bit and opaque extensions. *)
Theorem msgpack_roundtrip (v : cfx_value) :
  wire_safe v -> exists bs, pack v = Ok bs /\ unpack bs = Some (Ok v).
Proof.
  intros Hv. destruct (wire_safe_survives v Hv) as (bs & Hw & _ & Hr). exists bs.
  split; [done|]. unfold unpack. specialize (Hr (length bs) [] ltac:(lia)).
  rewrite app_nil_r in Hr. by rewrite Hr.
Qed.

Definition spawn_event : cfx_value :=
  Map [(Str "pos", Vector3 0x3F800000 0 0xBF800000); (Str "args",
    Array [Nil; Bool false; Int (-200); Int (2 ^ 40); Bin [0; 255]; Ext 10 [1; 2; 3]])].

Lemma msgpack_roundtrip_witness :
  wire_safe spawn_event /\ exists bs, pack spawn_event = Ok bs /\ unpack bs = Some (Ok spawn_event).
Proof.
  assert (Hs : wire_safe spawn_event).
  { cbn -[Z.pow]. repeat split; try (vm_compute; done); try lia; try (vm_compute; discriminate). }
  split; [exact Hs|]. exact (msgpack_roundtrip spawn_event Hs).
Defined.

(** ** Termination *)

(** The reader answers on inputs of at most [n] bytes, consuming some. *)
Definition consumes {A} (read : list Z -> option (parse A)) (n : nat) : Prop :=
  forall c, (length c <= n)%nat -> exists r, read c = Some r /\
    forall v c', r = Ok (v, c') -> (length c' < length c)%nat.

Lemma take_bytes_shrinks n c d c' :
  take_bytes n c = Ok (d, c') -> (length c' <= length c)%nat.
Proof.
  unfold take_bytes. destruct (_ <? n); [done|]. intros [= _ <-]. rewrite length_drop. lia.
Qed.

Lemma read_u8_shrinks c n c' : read_u8 c = Ok (n, c') -> (length c' < length c)%nat.
Proof. destruct c; simpl; [done|]. intros [= _ <-]. lia. Qed.

Lemma read_be_shrinks n c z c' : read_be n c = Ok (z, c') -> (length c' <= length c)%nat.
Proof.
  unfold read_be. intros ([s c1] & Ht & [= _ <-])%rbind_ok. by eapply take_bytes_shrinks.
Qed.

(** A reader that answers at once and does not grow the input. *)
Definition plain {A} (r : option (parse A)) (n : nat) : Prop :=
  exists p, r = Some p /\ forall v c', p = Ok (v, c') -> (length c' <= n)%nat.

Lemma plain_some {A} (p : parse A) n :
  (forall v c', p = Ok (v, c') -> (length c' <= n)%nat) -> plain (Some p) n.
Proof. intros H. by exists p. Qed.

Lemma plain_mono {A} (r : option (parse A)) n m : (n <= m)%nat -> plain r n -> plain r m.
Proof. intros Hle (p & Hp & H). exists p. split; [done|]. intros v c' Hv. specialize (H v c' Hv). lia. Qed.

Lemma plain_with_len {A} (r : parse Z) (k : Z -> list Z -> option (parse A)) n :
  (forall z c', r = Ok (z, c') -> (length c' <= n)%nat) ->
  (forall z c', (length c' <= n)%nat -> plain (k z c') (length c')) ->
  plain (with_len r k) n.
Proof.
  intros Hr Hk. unfold with_len. destruct r as [[z c']|e].
  - specialize (Hr z c' eq_refl). eapply plain_mono; [exact Hr|]. by apply Hk.
  - by apply plain_some.
Qed.

Lemma read_n_total {A} (item : list Z -> option (parse A)) k turns n c :
  consumes item k -> (length c <= k)%nat -> (length c < turns)%nat ->
  plain (read_n item turns n c) (length c).
Proof.
  intros Hitem. revert n c. induction turns as [|turns IH]; intros n c Hk Ht; [lia|].
  cbn [read_n]. destruct (n <=? 0); [apply plain_some; intros v c' [= _ <-]; lia|].
  destruct (Hitem c Hk) as (r & Hr & Hlt). rewrite Hr. destruct r as [[x c1]|e];
    [|by apply plain_some]. specialize (Hlt x c1 eq_refl).
  destruct (IH (n - 1) c1 ltac:(lia) ltac:(lia)) as (p & Hp & Hle). rewrite Hp.
  destruct p as [[xs c2]|e]; [|by apply plain_some].
  specialize (Hle xs c2 eq_refl). apply plain_some. intros v c' [= _ <-]. lia.
Qed.

Lemma read_pair_consumes value k : consumes value k -> consumes (read_pair value) k.
Proof.
  intros Hv c Hc. unfold read_pair. destruct (Hv c Hc) as (r & -> & Hlt).
  destruct r as [[x c1]|e]; [|by eexists]. specialize (Hlt x c1 eq_refl).
  destruct (Hv c1 ltac:(lia)) as (r & -> & Hlt2). destruct r as [[y c2]|e]; [|by eexists].
  specialize (Hlt2 y c2 eq_refl). eexists. split; [done|]. intros v c' [= _ <-]. lia.
Qed.

Lemma omap_parse_plain {A B} (f : A -> B) r n : plain r n -> plain (omap_parse f r) n.
Proof.
  intros (p & -> & Hp). destruct p as [[v c]|e]; apply plain_some; [|done].
  intros v' c' [= _ <-]. by apply (Hp v).
Qed.

Lemma read_array_total value k n c :
  consumes value k -> (length c <= k)%nat -> plain (read_array value n c) (length c).
Proof. intros Hv Hc. apply omap_parse_plain. eapply read_n_total; [exact Hv|done|lia]. Qed.

Lemma read_map_total value k n c :
  consumes value k -> (length c <= k)%nat -> plain (read_map value n c) (length c).
Proof.
  intros Hv Hc. apply omap_parse_plain.
  eapply read_n_total; [by apply read_pair_consumes|done|lia].
Qed.

Lemma read_bin_shrinks n c v c' : read_bin n c = Ok (v, c') -> (length c' <= length c)%nat.
Proof.
  unfold read_bin. intros ([d c1] & Ht & [= _ <-])%rbind_ok. by eapply take_bytes_shrinks.
Qed.
Lemma read_str_shrinks n c v c' : read_str n c = Ok (v, c') -> (length c' <= length c)%nat.
Proof.
  unfold read_str. intros ([d c1] & Ht & Hs)%rbind_ok. apply take_bytes_shrinks in Ht.
  case_match; [|done]. injection Hs as _ <-. done.
Qed.

Lemma rbind_shrinks {A B} (r : parse A) (k : A -> list Z -> parse B) n :
  (forall a c, r = Ok (a, c) -> (length c <= n)%nat) ->
  (forall a c, (length c <= n)%nat -> forall b c', k a c = Ok (b, c') -> (length c' <= n)%nat) ->
  forall b c', (let? '(a, c) := r in k a c) = Ok (b, c') -> (length c' <= n)%nat.
Proof. intros Hr Hk b c' ([a c] & Ha & Hb)%rbind_ok. eapply Hk; [|exact Hb]. by eapply Hr. Qed.

Lemma read_ext_shrinks n c v c' : read_ext n c = Ok (v, c') -> (length c' <= length c)%nat.
Proof.
  revert v c'. unfold read_ext, read_f32. apply rbind_shrinks.
  { intros a d H. apply read_u8_shrinks in H. lia. }
  assert (Hbe : forall d, (length d <= length c)%nat ->
    forall a e, read_be 4 d = Ok (a, e) -> (length e <= length c)%nat)
    by (intros d Hd a e H; apply read_be_shrinks in H; lia).
  assert (Htk : forall d, (length d <= length c)%nat ->
    forall a e, take_bytes n d = Ok (a, e) -> (length e <= length c)%nat)
    by (intros d Hd a e H; apply take_bytes_shrinks in H; lia).
  intros t d Hd. cbv zeta.
  repeat match goal with |- forall b c', (if ?x then _ else _) = _ -> _ => destruct x end.
  all: repeat (apply rbind_shrinks; [by eauto|]; intros ? ? ?); by intros b c' [= _ <-].
Qed.

Section read_tagged_plain.
Context (value : list Z -> option (parse cfx_value)) (k : nat) (c : list Z).
Hypothesis (Hvalue : consumes value k) (Hc : (length c <= k)%nat).

Definition within (r : parse Z) : Prop :=
  forall z c', r = Ok (z, c') -> (length c' <= length c)%nat.

Lemma within_read_be n : within (read_be n c).
Proof. intros z c' H. by eapply read_be_shrinks. Qed.
Lemma within_read_u8 : within (read_u8 c).
Proof. intros z c' H. apply read_u8_shrinks in H. lia. Qed.
#[local] Hint Resolve within_read_be within_read_u8 : core.

Lemma plain_value (v : cfx_value) : plain (Some (Ok (v, c))) (length c).
Proof. apply plain_some. by intros ? ? [= _ <-]. Qed.

Lemma plain_ret_int f r : within r -> plain (ret_int f r) (length c).
Proof.
  intros Hr. apply plain_some. apply rbind_shrinks; [done|]. by intros a d Hd v c' [= _ <-].
Qed.

Lemma plain_read_float (f : Z -> cfx_value) n :
  plain (Some (let? '(x, c) := read_be n c in Ok (f x, c))) (length c).
Proof.
  apply plain_some. apply rbind_shrinks; [apply within_read_be|].
  by intros a d Hd v c' [= _ <-].
Qed.

Lemma plain_read_len r (g : Z -> list Z -> parse cfx_value) :
  within r -> (forall z d v c', g z d = Ok (v, c') -> (length c' <= length d)%nat) ->
  plain (with_len r (fun n c => Some (g n c))) (length c).
Proof. intros Hr Hg. apply plain_with_len; [done|]. intros z d _. apply plain_some, Hg. Qed.

Lemma plain_len_array r : within r -> plain (with_len r (read_array value)) (length c).
Proof.
  intros Hr. apply plain_with_len; [done|]. intros z d Hd. eapply read_array_total; [done|lia].
Qed.
Lemma plain_len_map r : within r -> plain (with_len r (read_map value)) (length c).
Proof.
  intros Hr. apply plain_with_len; [done|]. intros z d Hd. eapply read_map_total; [done|lia].
Qed.

Lemma read_tagged_plain tag : plain (read_tagged value tag c) (length c).
Proof.
  assert (Hfix : forall t, plain (
    if t <=? 0x7F then Some (Ok (Int t, c))
    else if (0x80 <=? t) && (t <=? 0x8F) then read_map value (Z.land t 0x0F) c
    else if (0x90 <=? t) && (t <=? 0x9F) then read_array value (Z.land t 0x0F) c
    else if (0xA0 <=? t) && (t <=? 0xBF) then Some (read_str (Z.land t 0x1F) c)
    else if 0xE0 <=? t then Some (Ok (Int (swrap 8 t), c))
    else Some (Err invalid_tag)) (length c)).
  { intros t. destruct (t <=? 0x7F); [apply plain_value|].
    destruct ((0x80 <=? t) && _); [by eapply read_map_total|].
    destruct ((0x90 <=? t) && _); [by eapply read_array_total|].
    destruct ((0xA0 <=? t) && _); [apply plain_some, read_str_shrinks|].
    destruct (0xE0 <=? t); [apply plain_value|by apply plain_some]. }
  pose proof read_bin_shrinks. pose proof read_str_shrinks. pose proof read_ext_shrinks.
  unfold read_tagged.
  repeat match goal with
  | |- plain (match ?x with _ => _ end) _ => is_var x; destruct x
  end.
  all: lazymatch goal with
  | |- plain (if ?t <=? 127 then _ else _) _ => apply (Hfix t)
  | |- plain (Some (Ok _)) _ => apply plain_value
  | |- plain (ret_int _ _) _ => apply plain_ret_int; auto
  | |- plain (Some (read_ext _ _)) _ => apply plain_some, read_ext_shrinks
  | |- plain (with_len _ (read_array _)) _ => apply plain_len_array; auto
  | |- plain (with_len _ (read_map _)) _ => apply plain_len_map; auto
  | |- plain (with_len _ _) _ => apply plain_read_len; eauto
  | |- _ => apply plain_read_float
  end.
Qed.

End read_tagged_plain.

Lemma read_value_consumes fuel : consumes (read_value (S fuel)) fuel.
Proof.
  induction fuel as [|fuel IH]; intros c Hc.
  { destruct c; [|cbn in Hc; lia]. by eexists. }
  destruct c as [|tag c]; [by eexists|]. cbn [length] in Hc.
  destruct (read_tagged_plain (read_value (S fuel)) fuel c IH ltac:(lia) tag) as (p & Hp & Hle).
  exists p. split; [exact Hp|]. intros v c' Hv. specialize (Hle v c' Hv). cbn [length]. lia.
Qed.

(** C16: the decoder answers every byte string, hostile ones included, with a
    value or an error: it never needs more steps than there are bytes. *)
Theorem unpack_total (bytes : list Z) : exists r, unpack bytes = Some r.
Proof.
  unfold unpack. destruct (read_value_consumes (length bytes) bytes) as ([[v c]|e] & Hr & _);
    [done|..]; rewrite Hr; eauto.
Qed.

(** An integer from 256 to 2^32 - 1 is written as eight bytes after a tag that
    announces two or four, and reads back as zero. *)
Lemma pack_int_corrupts n :
  256 <= n < 2 ^ 32 -> exists bs, pack (Int n) = Ok bs /\ unpack bs = Some (Ok (Int 0)).
Proof.
  intros Hn. exists (write_int n). split; [done|]. unfold write_int, be8.
  rewrite (proj2 (Z.leb_le 0 n)) by lia. cbn [andb].
  rewrite (proj2 (Z.leb_gt n 127)) by lia. rewrite (proj2 (Z.leb_gt n u8_max)) by widths.
  rewrite wrap_small by widths.
  assert (Hhi : be_bytes 8 n = [0; 0; 0; 0] ++ be_bytes 4 n).
  { unfold be_bytes. change 8%nat with (4 + 4)%nat. cbn [le_bytes Nat.add rev app].
    rewrite !Z.div_div by lia. change (256 * 256 * 256 * 256) with 4294967296.
    change (2 ^ 32) with 4294967296 in Hn.
    do 4 rewrite (Z.div_small n) by lia. done. }
  rewrite Hhi. destruct (n <=? u16_max) eqn:H16; bool_prop.
  - reflexivity.
  - rewrite (proj2 (Z.leb_le n u32_max)) by widths. reflexivity.
Qed.
