(* ===== verification/Economy.v ===== *)
(** The economy service (framework/aldivine/src/economy.rs): balances in
    cents per (player, account kind), minting, burning, atomic transfers and
    the append-only ledger. Amounts are [u64]; additions wrap as in the
    release build. *)
From S2P Require Import Prelude.

(** [AldivinePlayerId] wraps a ULID, a 128-bit number. *)
Abbreviation player_id := Z.

Inductive account_kind := Cash | Bank | Organization.

#[global] Instance account_kind_eq_dec : EqDecision account_kind.
Proof. solve_decision. Defined.
#[global] Instance account_kind_countable : Countable account_kind.
Proof.
  refine (inj_countable
    (fun k => match k with Cash => 0%nat | Bank => 1%nat | Organization => 2%nat end)
    (fun n => match n with
              | 0%nat => Some Cash | 1%nat => Some Bank
              | 2%nat => Some Organization | _ => None end) _).
  by intros [].
Defined.

Record transaction := Transaction {
  txn_id : string;
  from_player : player_id;
  from_account : account_kind;
  to_player : player_id;
  to_account : account_kind;
  amount : Z;
  reason : string }.

Inductive economy_error :=
| InsufficientFunds (have need : Z)
| NonPositiveAmount
| SelfTransfer
| Inconsistent (account : string).

Record economy_service := EconomyService {
  balances : gmap (player_id * account_kind) Z;
  ledger : list transaction }.

Definition economy_new : economy_service := EconomyService ∅ [].

Definition balance (s : economy_service) (player : player_id)
    (kind : account_kind) : Z :=
  default 0 (balances s !! (player, kind)).

(** A mutating method returns the state it leaves together with its result:
    a failing [debit] has already created the account entry. *)
Definition credit (s : economy_service) (player : player_id)
    (kind : account_kind) (amt : Z) : economy_service * result unit economy_error :=
  if amt =? 0 then (s, Err NonPositiveAmount)
  else
    (EconomyService
       (<[(player, kind) := wrap 64 (balance s player kind + amt)]> (balances s))
       (ledger s),
     Ok tt).

Definition debit (s : economy_service) (player : player_id)
    (kind : account_kind) (amt : Z) : economy_service * result unit economy_error :=
  if amt =? 0 then (s, Err NonPositiveAmount)
  else
    let entry := balance s player kind in
    if entry <? amt then
      (EconomyService (<[(player, kind) := entry]> (balances s)) (ledger s),
       Err (InsufficientFunds entry amt))
    else
      (EconomyService (<[(player, kind) := entry - amt]> (balances s)) (ledger s),
       Ok tt).

Definition transfer (s : economy_service) (txn : transaction) :
    economy_service * result unit economy_error :=
  if amount txn =? 0 then (s, Err NonPositiveAmount)
  else if bool_decide (from_player txn = to_player txn) &&
          bool_decide (from_account txn = to_account txn)
  then (s, Err SelfTransfer)
  else
    match debit s (from_player txn) (from_account txn) (amount txn) with
    | (s1, Err e) => (s1, Err e)
    | (s1, Ok _) =>
        match credit s1 (to_player txn) (to_account txn) (amount txn) with
        | (s2, Err e) => (s2, Err e)
        | (s2, Ok _) => (EconomyService (balances s2) (ledger s2 ++ [txn]), Ok tt)
        end
    end.

Definition money_supply (s : economy_service) : Z :=
  wrap 64 (map_sum id (balances s)).

Definition txn_count (s : economy_service) : nat := length (ledger s).

(** ** Specification: the calls a client makes, with what they mint and burn *)
Inductive economy_op :=
| OpCredit (p : player_id) (k : account_kind) (a : Z)
| OpDebit (p : player_id) (k : account_kind) (a : Z)
| OpTransfer (t : transaction).

Definition op_amount (o : economy_op) : Z :=
  match o with OpCredit _ _ a | OpDebit _ _ a => a | OpTransfer t => amount t end.

Record accounted := Accounted { eco : economy_service; minted : Z; burned : Z }.

Definition economy_step (g : accounted) (o : economy_op) : accounted :=
  match o with
  | OpCredit p k a =>
      let '(s, r) := credit (eco g) p k a in
      Accounted s (minted g + if is_ok r then a else 0) (burned g)
  | OpDebit p k a =>
      let '(s, r) := debit (eco g) p k a in
      Accounted s (minted g) (burned g + if is_ok r then a else 0)
  | OpTransfer t => Accounted (transfer (eco g) t).1 (minted g) (burned g)
  end.

(** Well-formedness: every stored balance is a [u64]. *)
Definition economy_wf (s : economy_service) : Prop :=
  forall k v, balances s !! k = Some v -> fits 64 v.

Lemma balance_insert m l p k v p' k' :
  balance (EconomyService (<[(p, k) := v]> m) l) p' k' =
  if decide ((p, k) = (p', k')) then v else balance (EconomyService m l) p' k'.
Proof. unfold balance; simpl. rewrite lookup_insert. by case_decide. Qed.

Lemma balance_fits s p k : economy_wf s -> fits 64 (balance s p k).
Proof.
  intros Hs. unfold balance. destruct (_ !! _) eqn:Hk; simpl; [by eapply Hs|].
  unfold fits; lia.
Qed.
#[export] Hint Resolve balance_fits : aldivine.

Lemma economy_wf_insert s l k v :
  economy_wf s -> fits 64 v ->
  economy_wf (EconomyService (<[k := v]> (balances s)) l).
Proof.
  intros Hm Hv k' v'; simpl; intros [[<- <-]|[? ?]]%lookup_insert_Some; [done|]. by eapply Hm.
Qed.

Lemma credit_wf s p k a : economy_wf s -> economy_wf (credit s p k a).1.
Proof.
  intros Hs. unfold credit. case_match; [done|]. simpl.
  apply economy_wf_insert; [done|]. apply wrap_fits. lia.
Qed.

Lemma debit_wf s p k a : 0 <= a -> economy_wf s -> economy_wf (debit s p k a).1.
Proof.
  intros Ha Hs. unfold debit. pose proof (balance_fits s p k Hs) as Hb.
  unfold fits in *.
  case_match; [done|]. case_match; bool_prop; simpl;
    (apply economy_wf_insert; [done|unfold fits; lia]).
Qed.

Lemma transfer_wf s t : 0 <= amount t -> economy_wf s -> economy_wf (transfer s t).1.
Proof.
  intros Ha Hs. unfold transfer. case_match; [done|]. case_match; [done|].
  pose proof (debit_wf s (from_player t) (from_account t) _ Ha Hs) as Hd.
  destruct (debit _ _ _ _) as [s1 []]; simpl in *; [|done].
  pose proof (credit_wf s1 (to_player t) (to_account t) (amount t) Hd) as Hc.
  by destruct (credit _ _ _ _) as [s2 []].
Qed.
#[export] Hint Resolve credit_wf debit_wf transfer_wf : aldivine.

(** The raw (unwrapped) sum of balances after each primitive. *)
Lemma map_sum_set s p k v l :
  map_sum id (balances (EconomyService (<[(p, k) := v]> (balances s)) l)) =
  map_sum id (balances s) + v - balance s p k.
Proof.
  simpl. rewrite map_sum_insert. unfold balance.
  by destruct (balances s !! (p, k)).
Qed.

Lemma debit_sum s p k a :
  map_sum id (balances (debit s p k a).1) =
  map_sum id (balances s) - if is_ok (debit s p k a).2 then a else 0.
Proof.
  unfold debit. case_match; simpl; [lia|].
  case_match; simpl fst; rewrite map_sum_set; simpl; lia.
Qed.

Lemma credit_sum s p k a :
  map_sum id (balances (credit s p k a).1) =
  map_sum id (balances s) +
    if is_ok (credit s p k a).2
    then wrap 64 (balance s p k + a) - balance s p k else 0.
Proof.
  unfold credit. case_match; simpl fst; [simpl; lia|].
  rewrite map_sum_set. simpl. lia.
Qed.

Lemma credit_sum_wrap s p k a :
  wrap 64 (map_sum id (balances (credit s p k a).1)) =
  wrap 64 (map_sum id (balances s) + if is_ok (credit s p k a).2 then a else 0).
Proof.
  rewrite credit_sum. destruct (is_ok _); [|done].
  replace (map_sum id (balances s) + (wrap 64 (balance s p k + a) - balance s p k))
    with (wrap 64 (balance s p k + a) + (map_sum id (balances s) - balance s p k))
    by lia.
  rewrite wrap_add_l. f_equal. lia.
Qed.

Lemma transfer_sum_wrap s t :
  wrap 64 (map_sum id (balances (transfer s t).1)) = wrap 64 (map_sum id (balances s)).
Proof.
  unfold transfer. case_match eqn:Hz; [done|]. case_match; [done|].
  pose proof (debit_sum s (from_player t) (from_account t) (amount t)) as Hd.
  destruct (debit _ _ _ _) as [s1 []]; simpl in *; [|by rewrite Hd, Z.sub_0_r].
  pose proof (credit_sum_wrap s1 (to_player t) (to_account t) (amount t)) as Hc.
  unfold credit in *. rewrite Hz in *. simpl in *. rewrite Hc, Hd. f_equal. lia.
Qed.

(** The invariant of every execution: balances stay in range and the money
    in circulation is what was minted minus what was burned, exactly as long
    as the minted total fits 64 bits and modulo 2^64 in any case. *)
Definition economy_inv (g : accounted) : Prop :=
  economy_wf (eco g) /\
  0 <= minted g /\ 0 <= burned g /\
  wrap 64 (map_sum id (balances (eco g))) = wrap 64 (minted g - burned g) /\
  (minted g < 2 ^ 64 -> map_sum id (balances (eco g)) = minted g - burned g).

Lemma economy_wf_sum_nonneg s : economy_wf s -> 0 <= map_sum id (balances s).
Proof.
  intros Hs. apply map_sum_nonneg. intros k v Hk. by apply (Hs k).
Qed.

Lemma balance_le_sum s p k :
  economy_wf s -> balance s p k <= map_sum id (balances s).
Proof.
  intros Hs. unfold balance. destruct (_ !! _) as [v|] eqn:Hk; simpl.
  - apply (map_sum_lookup_le id (balances s) (p, k) v); [|done]. intros j u Hj. by apply (Hs j).
  - by apply economy_wf_sum_nonneg.
Qed.

(** When the raw sums agree modulo 2^64 and the larger one cannot have
    wrapped, they are equal. *)
Lemma credit_sum_exact s p k a :
  economy_wf s -> 0 <= a ->
  map_sum id (balances s) + (if is_ok (credit s p k a).2 then a else 0) < 2 ^ 64 ->
  map_sum id (balances (credit s p k a).1) =
  map_sum id (balances s) + if is_ok (credit s p k a).2 then a else 0.
Proof.
  intros Hs Ha. rewrite credit_sum. destruct (is_ok _); [|done]. intros Hlt.
  pose proof (balance_le_sum s p k Hs). pose proof (balance_fits s p k Hs) as Hf.
  unfold fits in Hf. rewrite wrap_small by (unfold fits; lia). lia.
Qed.

Lemma transfer_sum_exact s t :
  economy_wf s -> 0 <= amount t -> map_sum id (balances s) < 2 ^ 64 ->
  map_sum id (balances (transfer s t).1) = map_sum id (balances s).
Proof.
  intros Hs Ha Hlt. unfold transfer. case_match eqn:Hz; [done|]. case_match; [done|].
  pose proof (debit_sum s (from_player t) (from_account t) (amount t)) as Hd.
  pose proof (debit_wf s (from_player t) (from_account t) _ Ha Hs) as Hw.
  destruct (debit _ _ _ _) as [s1 []]; simpl in *; [|lia].
  pose proof (credit_sum_exact s1 (to_player t) (to_account t) (amount t) Hw Ha) as Hc.
  unfold credit in *. rewrite Hz in *. simpl in *. rewrite Hc; lia.
Qed.

Lemma economy_step_inv g o :
  0 <= op_amount o -> economy_inv g -> economy_inv (economy_step g o).
Proof.
  intros Ho (Hwf & Hm & Hb & Hmod & Hex).
  pose proof (economy_wf_sum_nonneg _ Hwf) as Hnn.
  unfold economy_inv. destruct o as [p k a|p k a|t]; simpl in *.
  - pose proof (credit_wf (eco g) p k a Hwf) as Hw.
    pose proof (credit_sum_wrap (eco g) p k a) as Hsw.
    pose proof (credit_sum_exact (eco g) p k a Hwf Ho) as Hse.
    destruct (credit _ _ _ _) as [s r]; simpl in *. split_and!; try done.
    + destruct (is_ok r); lia.
    + rewrite Hsw, <- wrap_add_l, Hmod, wrap_add_l. f_equal. lia.
    + intros Hlt. destruct (is_ok r); rewrite Hse; lia.
  - pose proof (debit_wf (eco g) p k a Ho Hwf) as Hw.
    pose proof (debit_sum (eco g) p k a) as Hs.
    destruct (debit _ _ _ _) as [s r]; simpl in *. split_and!; try done.
    + destruct (is_ok r); lia.
    + rewrite Hs, <- wrap_sub_l, Hmod, wrap_sub_l. f_equal. lia.
    + intros Hlt. rewrite Hs, (Hex Hlt). lia.
  - split_and!; try done.
    + by apply transfer_wf.
    + by rewrite transfer_sum_wrap.
    + intros Hlt. rewrite transfer_sum_exact; [by apply Hex|done..|].
      rewrite (Hex Hlt). lia.
Qed.

Lemma economy_inv_init : economy_inv (Accounted economy_new 0 0).
Proof.
  unfold economy_inv; simpl. rewrite map_sum_empty. split_and!; done.
Qed.

(** C3: whatever sequence of credits, debits and transfers the service
    executes (failed calls included), every balance stays a [u64], the
    reported money supply is the minted total minus the burned total modulo
    2^64, and while the minted total is below 2^64 the supply is exactly
    that difference: transfers neither create nor destroy money and debits
    never overdraw. *)
Theorem economy_supply_accounting (ops : list economy_op) :
  Forall (fun o => fits 64 (op_amount o)) ops ->
  let g := run economy_step (Accounted economy_new 0 0) ops in
  (forall p k, fits 64 (balance (eco g) p k)) /\
  money_supply (eco g) = wrap 64 (minted g - burned g) /\
  (minted g < 2 ^ 64 ->
   money_supply (eco g) = minted g - burned g /\
   forall p k, balance (eco g) p k <= minted g - burned g).
Proof.
  intros Hops g.
  assert (Hinv : economy_inv g).
  { apply (run_invariant_ops economy_step (fun o => fits 64 (op_amount o)));
      [|done|apply economy_inv_init].
    intros s o [Ho _] Hs. by apply economy_step_inv. }
  destruct Hinv as (Hwf & Hm & Hb & Hmod & Hex).
  split_and!; [intros; by apply balance_fits|done|]. intros Hlt.
  rewrite <- (Hex Hlt). split; [|intros; by apply balance_le_sum].
  unfold money_supply. apply wrap_small. pose proof (economy_wf_sum_nonneg _ Hwf).
  rewrite (Hex Hlt) in *. unfold fits. lia.
Qed.

Definition demo_txn (a : Z) : transaction :=
  Transaction "01J" 1 Cash 2 Bank a "payout".

Lemma economy_supply_accounting_witness :
  let ops := [OpCredit 1 Cash 1000; OpTransfer (demo_txn 400); OpDebit 2 Bank 150;
              OpDebit 1 Cash 9999; OpTransfer (demo_txn 0)] in
  let g := run economy_step (Accounted economy_new 0 0) ops in
  minted g = 1000 /\ burned g = 150 /\ money_supply (eco g) = 850.
Proof.
  intros ops g. split_and!; [vm_compute; done..|].
  assert (Hops : Forall (fun o => fits 64 (op_amount o)) ops)
    by (repeat constructor; vm_compute; done).
  apply (economy_supply_accounting ops Hops). vm_compute; done.
Defined.

(** [transfer] on every branch. It commits exactly when the amount is
    positive, the two accounts differ and the source covers it; then the
    source loses and the target gains the amount (wrapping as [u64]), no
    other account moves and the transaction is appended to the ledger. On
    each error no balance and no ledger entry changes, and the error is the
    one of the first failing check. *)
Theorem transfer_spec (s : economy_service) (t : transaction) :
  0 <= amount t ->
  let '(s', r) := transfer s t in
  let src := (from_player t, from_account t) in
  let dst := (to_player t, to_account t) in
  match r with
  | Ok _ =>
      0 < amount t <= balance s src.1 src.2 /\ src <> dst /\
      ledger s' = ledger s ++ [t] /\
      (forall p k, balance s' p k =
        if decide ((p, k) = src) then balance s p k - amount t
        else if decide ((p, k) = dst) then wrap 64 (balance s p k + amount t)
        else balance s p k)
  | Err e =>
      ledger s' = ledger s /\ (forall p k, balance s' p k = balance s p k) /\
      e = (if decide (amount t = 0) then NonPositiveAmount
           else if decide (src = dst) then SelfTransfer
           else InsufficientFunds (balance s src.1 src.2) (amount t)) /\
      (amount t = 0 \/ src = dst \/ balance s src.1 src.2 < amount t)
  end.
Proof.
  intros Ha. unfold transfer.
  destruct (amount t =? 0) eqn:Hz; bool_prop.
  { split_and!; try done. - by rewrite decide_True. - by left. }
  case_bool_decide as Hp; [case_bool_decide as Hk|]; simpl.
  { rewrite Hp, Hk. split_and!; try done.
    - by rewrite decide_False, decide_True.
    - by right; left. }
  all: assert (Hne : (from_player t, from_account t) <> (to_player t, to_account t))
    by congruence.
  all: unfold debit; rewrite (proj2 (Z.eqb_neq _ _)) by done.
  all: destruct (_ <? _) eqn:Hlt; bool_prop; simpl.
  1, 3: split_and!; [done| |by rewrite !decide_False|by right; right];
    intros p0 k0; rewrite balance_insert; case_decide; simplify_eq; done.
  all: unfold credit; rewrite (proj2 (Z.eqb_neq _ _)) by done; simpl.
  all: split_and!; [lia|lia|done|done|]; intros p0 k0; rewrite !balance_insert.
  all: repeat case_decide; simplify_eq; try done.
Qed.

Lemma transfer_spec_witness :
  let s := (credit economy_new 1 Cash 10).1 in
  0 <= amount (demo_txn 7) /\ ledger (transfer s (demo_txn 7)).1 = [demo_txn 7].
Proof.
  intros s. assert (Ha : 0 <= amount (demo_txn 7)) by (vm_compute; done).
  split; [done|]. pose proof (transfer_spec s (demo_txn 7) Ha) as H.
  assert (Hok : exists s', transfer s (demo_txn 7) = (s', Ok tt))
    by (eexists; vm_compute; reflexivity).
  destruct Hok as [s' Hok]. rewrite Hok in H. rewrite Hok. apply H.
Defined.
