(* ===== verification/Reliability.v ===== *)
(** AstraNet duplicate and replay detection
    (crates/ald-network/src/reliability.rs): a 64-slot bitmask window over
    32-bit wrapping sequence numbers, and its refinement of a set-based
    specification over unwrapped sequence numbers. *)
From S2P Require Import Prelude.

Definition WINDOW : Z := 1024.

Record reliability := Reliability { highest : Z; seen : bool; mask : Z }.

Inductive reliability_error := Duplicate | Stale.

Definition reliability_new : reliability := Reliability 0 false 0.

Definition validate (r : reliability) (seq : Z) :
    reliability * result unit reliability_error :=
  if negb (seen r) then (Reliability seq true 1, Ok tt)
  else if seq =? highest r then (r, Err Duplicate)
  else
    let forward := wrap 32 (seq - highest r) in
    let half := Z.shiftl 1 31 in
    if forward <? half then
      if forward <? 64 then
        (Reliability seq true
           (Z.lor (wrap 64 (Z.shiftl (mask r) forward)) 1), Ok tt)
      else (Reliability seq true 1, Ok tt)
    else
      let back := wrap 32 (highest r - seq) in
      if WINDOW <=? back then (r, Err Stale)
      else if back <? 64 then
        let bit := Z.shiftl 1 back in
        if negb (Z.land (mask r) bit =? 0) then (r, Err Duplicate)
        else (Reliability (highest r) true (Z.lor (mask r) bit), Ok tt)
      else (r, Ok tt).

(** ** Specification

    The receiver keeps the unwrapped number [hi] of the newest packet and the
    set of every unwrapped number it accepted. *)
Record replay_spec := ReplaySpec {
  started : bool; hi : Z; accepted : gset Z }.

Definition spec_new : replay_spec := ReplaySpec false 0 ∅.

(** The unwrapped number of a 32-bit [seq]: the closest one to [hi], ahead
    of it when it is less than half the sequence space away. *)
Definition unwrap_seq (s : replay_spec) (seq : Z) : Z :=
  if started s then
    let forward := wrap 32 (seq - hi s) in
    if forward <? 2 ^ 31 then hi s + forward
    else hi s - wrap 32 (hi s - seq)
  else seq.

(** Within 64 numbers of [hi] exactly the fresh ones pass; between 64 and
    [WINDOW] everything passes; older ones are stale. *)
Definition spec_verdict (s : replay_spec) (n : Z) : result unit reliability_error :=
  if negb (started s) then Ok tt
  else if hi s <? n then Ok tt
  else if WINDOW <=? hi s - n then Err Stale
  else if (hi s - n <? 64) && bool_decide (n ∈ accepted s) then Err Duplicate
  else Ok tt.

Definition spec_validate (s : replay_spec) (seq : Z) :
    replay_spec * result unit reliability_error :=
  let n := unwrap_seq s seq in
  let v := spec_verdict s n in
  (if is_ok v
   then ReplaySpec true (if started s then Z.max (hi s) n else n) ({[n]} ∪ accepted s)
   else s, v).

(** ** Refinement *)
Record window_rel (r : reliability) (s : replay_spec) : Prop := {
  wr_seen : seen r = started s;
  wr_highest : started s = true -> highest r = wrap 32 (hi s);
  wr_mask_range : fits 64 (mask r);
  wr_mask : started s = true -> forall i, 0 <= i < 64 ->
    Z.testbit (mask r) i = bool_decide (hi s - i ∈ accepted s);
  wr_max : forall n, n ∈ accepted s -> n <= hi s;
  wr_hi : started s = true -> hi s ∈ accepted s;
  wr_init : started s = false -> accepted s = ∅ }.

Lemma window_rel_new : window_rel reliability_new spec_new.
Proof. by split. Qed.

Lemma testbit_land_pow2 m i :
  0 <= i -> negb (Z.land m (Z.shiftl 1 i) =? 0) = Z.testbit m i.
Proof.
  intros Hi. rewrite Z.shiftl_1_l. destruct (Z.testbit m i) eqn:Hb.
  - apply negb_true_iff, Z.eqb_neq. intros H0.
    assert (Z.testbit (Z.land m (2 ^ i)) i = true); [|rewrite H0, Z.bits_0 in *; done].
    by rewrite Z.land_spec, Hb, Z.pow2_bits_true.
  - apply negb_false_iff, Z.eqb_eq, Z.bits_inj'. intros j Hj.
    rewrite Z.land_spec, Z.bits_0. destruct (decide (j = i)) as [->|Hne].
    + by rewrite Hb.
    + rewrite Z.pow2_bits_false by lia. by rewrite andb_false_r.
Qed.

Lemma testbit_shift_window m f i :
  0 <= f < 64 -> 0 <= i < 64 ->
  Z.testbit (Z.lor (wrap 64 (Z.shiftl m f)) 1) i =
  if decide (i = 0) then true else (f <=? i) && Z.testbit m (i - f).
Proof.
  intros Hf Hi. rewrite Z.lor_spec. unfold wrap.
  rewrite <- Z.land_ones, Z.land_spec, Z.ones_spec_low, andb_true_r by lia.
  rewrite Z.shiftl_spec by lia. change 1 with (2 ^ 0) at 1.
  rewrite Z.pow2_bits_eqb by lia. case_decide as Hd.
  - subst. by rewrite orb_true_r.
  - assert ((0 =? i) = false) as -> by (apply Z.eqb_neq; lia). rewrite orb_false_r.
    destruct (f <=? i) eqn:Hle; bool_prop; simpl; [done|].
    apply Z.testbit_neg_r. lia.
Qed.

Lemma fits_lor w a b : 0 <= w -> fits w a -> fits w b -> fits w (Z.lor a b).
Proof.
  unfold fits. intros Hw Ha Hb. split; [apply Z.lor_nonneg; lia|].
  destruct (decide (Z.lor a b = 0)) as [->|Hne]; [apply Z.pow_pos_nonneg; lia|].
  apply Z.log2_lt_pow2; [assert (0 <= Z.lor a b) by (apply Z.lor_nonneg; lia); lia|].
  rewrite Z.log2_lor by lia. apply Z.max_lub_lt.
  - destruct (decide (a = 0)) as [->|]; [simpl|apply Z.log2_lt_pow2; lia].
    destruct (decide (w = 0)) as [->|]; [|lia]. exfalso. apply Hne.
    simpl in *. replace b with 0 by lia. done.
  - destruct (decide (b = 0)) as [->|]; [simpl|apply Z.log2_lt_pow2; lia].
    destruct (decide (w = 0)) as [->|]; [|lia]. exfalso. apply Hne.
    simpl in *. replace a with 0 by lia. done.
Qed.

Lemma wrap_sub_wrap w a b : wrap w (a - wrap w b) = wrap w (a - b).
Proof. unfold wrap. apply Zminus_mod_idemp_r. Qed.

(** The implementation's distances are the specification's. *)
Lemma wrap_eq_iff w a b : 0 < w -> fits w a -> (a =? wrap w b) = (wrap w (a - b) =? 0).
Proof.
  intros Hw Ha. apply Bool.eq_iff_eq_true. rewrite !Z.eqb_eq.
  rewrite <- (wrap_small w a) at 1 by done. unfold wrap.
  split; intros H.
  - rewrite Zminus_mod, H, Z.sub_diag. done.
  - apply Z.mod_divide in H as [c Hc]; [|lia].
    replace a with (b + c * 2 ^ w) by lia. apply Z_mod_plus_full.
Qed.

Lemma wrap_opp_pos w z : 0 < w -> 0 < wrap w z -> wrap w (- z) = 2 ^ w - wrap w z.
Proof.
  unfold wrap. intros Hw Hz. apply Z_mod_nz_opp_full. lia.
Qed.

Lemma window_rel_first r s seq :
  fits 32 seq -> started s = false -> window_rel r s ->
  window_rel (Reliability seq true 1) (ReplaySpec true seq ({[seq]} ∪ accepted s)).
Proof.
  intros Hseq Hst [Hs _ _ _ _ _ Hi]. rewrite (Hi Hst). split; simpl; try done.
  - intros _. by rewrite wrap_small.
  - intros _ i Hi'. change 1 with (2 ^ 0). rewrite Z.pow2_bits_eqb by lia.
    apply Bool.eq_iff_eq_true. rewrite Z.eqb_eq, bool_decide_eq_true. set_solver by lia.
  - set_solver by lia.
  - set_solver.
Qed.

(** A packet [d] ahead of the newest one slides the window. *)
Lemma window_rel_forward r s d :
  started s = true -> 0 < d -> window_rel r s ->
  window_rel
    (Reliability (wrap 32 (hi s + d)) true
       (if d <? 64 then Z.lor (wrap 64 (Z.shiftl (mask r) d)) 1 else 1))
    (ReplaySpec true (hi s + d) ({[hi s + d]} ∪ accepted s)).
Proof.
  intros Hst Hd [Hs Hh Hr Hm Hmax Hhi Hi]. split; simpl; try done.
  - case_match; [|done]. apply fits_lor; [lia|apply wrap_fits; lia|done].
  - intros _ i Hi'. destruct (d <? 64) eqn:Hd64; bool_prop.
    + rewrite testbit_shift_window by lia. case_decide as Hi0.
      { symmetry. apply bool_decide_eq_true. set_solver by lia. }
      destruct (d <=? i) eqn:Hdi; bool_prop; simpl.
      * rewrite Hm by (done || lia). apply bool_decide_ext.
        replace (hi s + d - i) with (hi s - (i - d)) by lia.
        rewrite elem_of_union, elem_of_singleton. split; [by right|].
        intros [?|?]; [lia|done].
      * symmetry. apply bool_decide_eq_false.
        rewrite elem_of_union, elem_of_singleton. intros [?|?%Hmax]; lia.
    + change 1 with (2 ^ 0). rewrite Z.pow2_bits_eqb by lia.
      apply Bool.eq_iff_eq_true. rewrite Z.eqb_eq, bool_decide_eq_true.
      rewrite elem_of_union, elem_of_singleton.
      split; [intros <-; left; lia|]. intros [?|?%Hmax]; lia.
  - intros n. rewrite elem_of_union, elem_of_singleton. intros [->|?%Hmax]; lia.
  - set_solver.
Qed.

(** A packet [b] behind fills its slot, when the window still has one. *)
Lemma window_rel_backward r s b :
  started s = true -> 0 < b -> window_rel r s ->
  window_rel
    (Reliability (highest r) true
       (if b <? 64 then Z.lor (mask r) (Z.shiftl 1 b) else mask r))
    (ReplaySpec true (hi s) ({[hi s - b]} ∪ accepted s)).
Proof.
  intros Hst Hb [Hs Hh Hr Hm Hmax Hhi Hi]. split; simpl; try done.
  - by rewrite Hh.
  - destruct (b <? 64) eqn:Hb64; bool_prop; [|done].
    apply fits_lor; [lia|done|]. rewrite Z.shiftl_1_l. unfold fits.
    split; [lia|]. apply Z.pow_lt_mono_r; lia.
  - intros _ i Hi'. rewrite (bool_decide_ext _ (i = b \/ hi s - i ∈ accepted s));
      [|rewrite elem_of_union, elem_of_singleton; intuition lia].
    rewrite bool_decide_or, <- Hm by done.
    destruct (b <? 64) eqn:Hb64; bool_prop.
    + rewrite Z.lor_spec, Z.shiftl_1_l, Z.pow2_bits_eqb by lia.
      rewrite orb_comm. f_equal. rewrite Z.eqb_sym.
      apply Bool.eq_iff_eq_true. by rewrite Z.eqb_eq, bool_decide_eq_true.
    + rewrite bool_decide_eq_false_2 by lia. done.
  - intros n. rewrite elem_of_union, elem_of_singleton. intros [->|?%Hmax]; lia.
  - set_solver.
Qed.

Lemma window_rel_step r s seq :
  fits 32 seq -> window_rel r s ->
  window_rel (validate r seq).1 (spec_validate s seq).1 /\
  (validate r seq).2 = (spec_validate s seq).2.
Proof.
  intros Hseq Hrel. pose proof Hrel as [Hs Hh Hr Hm Hmax Hhi Hi].
  unfold validate, spec_validate, spec_verdict, unwrap_seq. rewrite Hs.
  destruct (started s) eqn:Hst; simpl; [|split; [by apply (window_rel_first r s)|done]].
  specialize (Hh eq_refl). rewrite Hh, wrap_eq_iff, wrap_sub_wrap, wrap_sub_l by (done || lia).
  change (Z.shiftl 1 31) with (2 ^ 31).
  pose proof (wrap_fits 32 (seq - hi s) ltac:(lia)) as Hd.
  assert (Hseq' : seq = wrap 32 (hi s + wrap 32 (seq - hi s))).
  { rewrite wrap_add_r. replace (hi s + (seq - hi s)) with seq by lia.
    by rewrite wrap_small. }
  assert (Hb : 0 < wrap 32 (seq - hi s) ->
    wrap 32 (hi s - seq) = 2 ^ 32 - wrap 32 (seq - hi s)).
  { intros. rewrite <- wrap_opp_pos by lia. f_equal. lia. }
  revert Hd Hseq' Hb. generalize (wrap 32 (seq - hi s)). intros d Hd Hseq' Hb.
  unfold fits in Hd. destruct (d =? 0) eqn:Hd0; bool_prop.
  { subst d. simpl. rewrite Z.add_0_r, Z.ltb_irrefl, Z.sub_diag. simpl.
    rewrite bool_decide_eq_true_2 by auto. done. }
  specialize (Hb ltac:(lia)). destruct (d <? 2 ^ 31) eqn:Hhalf; bool_prop.
  - assert ((hi s <? hi s + d) = true) as -> by (apply Z.ltb_lt; lia). simpl.
    rewrite Z.max_r by lia.
    pose proof (window_rel_forward r s d Hst ltac:(lia) Hrel) as Hf.
    rewrite <- Hseq' in Hf. by destruct (d <? 64).
  - rewrite Hb in *. revert Hb.
    assert (Hbpos : 0 < 2 ^ 32 - d <= 2 ^ 31) by lia. revert Hbpos.
    generalize (2 ^ 32 - d). intros b Hbpos _.
    assert ((hi s <? hi s - b) = false) as -> by (apply Z.ltb_ge; lia).
    replace (hi s - (hi s - b)) with b by lia.
    destruct (WINDOW <=? b); simpl; [done|].
    pose proof (window_rel_backward r s b Hst ltac:(lia) Hrel) as Hbw.
    rewrite Hh in Hbw. destruct (b <? 64) eqn:Hb64; bool_prop; simpl.
    + rewrite testbit_land_pow2, Hm by (done || lia).
      case_bool_decide; simpl; [done|]. by rewrite Z.max_l by lia.
    + rewrite Z.max_l by lia. split; [|done]. by destruct r; simpl in *; subst.
Qed.

(** Results of a whole packet sequence. *)
Fixpoint validate_all (r : reliability) (seqs : list Z) :
    list (result unit reliability_error) :=
  match seqs with
  | [] => []
  | q :: qs => let '(r', v) := validate r q in v :: validate_all r' qs
  end.

Fixpoint spec_validate_all (s : replay_spec) (seqs : list Z) :
    list (result unit reliability_error) :=
  match seqs with
  | [] => []
  | q :: qs => let '(s', v) := spec_validate s q in v :: spec_validate_all s' qs
  end.

Lemma validate_all_refines r s seqs :
  Forall (fits 32) seqs -> window_rel r s ->
  validate_all r seqs = spec_validate_all s seqs.
Proof.
  intros Hall. revert r s. induction Hall as [|q qs Hq Hqs IH]; intros r s Hrel; [done|].
  cbn [validate_all spec_validate_all].
  destruct (window_rel_step r s q Hq Hrel) as [Hrel' Heq].
  destruct (validate r q) as [r' v], (spec_validate s q) as [s' w]; simpl in *.
  by rewrite Heq, (IH r' s').
Qed.

(** C4: the 64-bit mask over wrapping 32-bit sequence numbers gives, for
    every packet sequence, exactly the verdicts of the specification that
    remembers all accepted unwrapped numbers: a packet ahead of the newest
    one passes whatever the wrap-around, one within 63 of it passes once,
    one 1024 or more behind is stale. *)
Theorem validate_refines_replay_spec (seqs : list Z) :
  Forall (fits 32) seqs ->
  validate_all reliability_new seqs = spec_validate_all spec_new seqs.
Proof. intros. apply validate_all_refines; [done|apply window_rel_new]. Qed.

Lemma validate_refines_replay_spec_witness :
  let seqs := [2 ^ 32 - 2; 1; 2 ^ 32 - 2; 0; 2 ^ 32 - 1000; 2 ^ 31] in
  validate_all reliability_new seqs = spec_validate_all spec_new seqs /\
  validate_all reliability_new seqs =
    [Ok tt; Ok tt; Err Duplicate; Ok tt; Ok tt; Ok tt].
Proof.
  intros seqs. split; [|vm_compute; reflexivity].
  apply (validate_refines_replay_spec seqs). by_decide.
Defined.

(** The replay gap between the mask (64 slots) and [WINDOW] (1024): once
    the window is open, a packet 64 to 1023 behind the newest one is accepted
    and leaves no trace, so any number of copies of it is accepted. *)
Theorem validate_replay_gap (r : reliability) (back : Z) (n : nat) :
  seen r = true -> fits 32 (highest r) -> 64 <= back < WINDOW ->
  validate_all r (replicate n (wrap 32 (highest r - back))) = replicate n (Ok tt).
Proof.
  intros Hs Hh Hb. unfold WINDOW in Hb.
  assert (Hstep : validate r (wrap 32 (highest r - back)) = (r, Ok tt)).
  { unfold validate. rewrite Hs. simpl.
    assert (Hd : wrap 32 (wrap 32 (highest r - back) - highest r) = 2 ^ 32 - back).
    { rewrite wrap_sub_l. replace (highest r - back - highest r) with (- back) by lia.
      rewrite wrap_opp_pos; rewrite ?wrap_small; unfold fits; lia. }
    assert (Hbk : wrap 32 (highest r - wrap 32 (highest r - back)) = back).
    { rewrite wrap_sub_wrap. replace (highest r - (highest r - back)) with back by lia.
      apply wrap_small. unfold fits. lia. }
    rewrite Hd, Hbk. change (Z.shiftl 1 31) with (2 ^ 31).
    rewrite (proj2 (Z.eqb_neq _ _)).
    2: { intros Heq. rewrite Heq, Z.sub_diag in Hbk. vm_compute in Hbk. lia. }
    rewrite (proj2 (Z.ltb_ge _ _)) by lia.
    rewrite (proj2 (Z.leb_gt _ _)) by (unfold WINDOW; lia).
    by rewrite (proj2 (Z.ltb_ge _ _)) by lia. }
  induction n as [|n IH]; simpl; [done|]. by rewrite Hstep, IH.
Qed.

Lemma validate_replay_gap_witness :
  let r := (validate (validate reliability_new 5).1 100005).1 in
  seen r = true /\
  validate_all r (replicate 3 (wrap 32 (highest r - 200))) = [Ok tt; Ok tt; Ok tt].
Proof.
  intros r. split; [vm_compute; done|].
  apply (validate_replay_gap r 200 3); vm_compute; done.
Defined.
