(* ===== verification/Packet.v ===== *)
(** AstraNet packet framing (crates/ald-protocol/src: channel.rs, packet.rs):
    the 32-byte little-endian header, its channel byte and the size checks. *)
From stdpp Require Import pretty.
From S2P Require Import Prelude Bytes.

Inductive channel :=
| Control | Auth | EventReliable | EventUnreliable | EntityState
| ResourceTransfer | Admin | Heartbeat | VoiceMetadata.

#[global] Instance channel_eq_dec : EqDecision channel.
Proof. solve_decision. Defined.

(** [c as u8] *)
Definition channel_to_u8 (c : channel) : Z :=
  match c with
  | Control => 0 | Auth => 1 | EventReliable => 2 | EventUnreliable => 3
  | EntityState => 4 | ResourceTransfer => 5 | Admin => 6 | Heartbeat => 7
  | VoiceMetadata => 8
  end.

Definition channel_from_u8 (v : Z) : option channel :=
  match v with
  | 0 => Some Control | 1 => Some Auth | 2 => Some EventReliable
  | 3 => Some EventUnreliable | 4 => Some EntityState | 5 => Some ResourceTransfer
  | 6 => Some Admin | 7 => Some Heartbeat | 8 => Some VoiceMetadata
  | _ => None
  end.

Definition is_unreliable (c : channel) : bool :=
  match c with EventUnreliable | EntityState | VoiceMetadata => true | _ => false end.

Definition MAX_PAYLOAD : Z := 16 * 1024 * 1024.
Definition HEADER_LEN : nat := 32.

Record packet_header := PacketHeader {
  protocol_version : Z;
  session_id : Z;
  hdr_channel : channel;
  sequence : Z;
  tick : Z;
  timestamp_ms : Z;
  flags : Z;
  payload_len : Z }.

Record packet := Packet { header : packet_header; payload : list Z }.

Definition encode_packet (p : packet) : result (list Z) ald_error :=
  let h := header p in
  if negb (wrap 32 (Z.of_nat (length (payload p))) =? payload_len h) then
    Err (Protocol "payload_len mismatch")
  else if MAX_PAYLOAD <? payload_len h then
    Err (Protocol "payload exceeds MAX_PAYLOAD")
  else
    Ok (le_bytes 2 (protocol_version h) ++ le_bytes 8 (session_id h) ++
        [channel_to_u8 (hdr_channel h)] ++ le_bytes 4 (sequence h) ++
        le_bytes 4 (tick h) ++ le_bytes 8 (timestamp_ms h) ++ [flags h] ++
        le_bytes 4 (payload_len h) ++ payload p).

Definition decode_packet (bytes : list Z) (expected_version : Z) :
    result packet ald_error :=
  if bool_decide (length bytes < HEADER_LEN)%nat then
    Err (Protocol "packet shorter than header")
  else
    let version := le_val (slice bytes 0 2) in
    if negb (version =? expected_version) then
      Err (Protocol ("protocol version mismatch: got " +:+ pretty version +:+
                     ", want " +:+ pretty expected_version))
    else
      let session := le_val (slice bytes 2 10) in
      let? chan := ok_or (channel_from_u8 (bytes !!! 10%nat)) (Protocol "invalid channel") in
      let seq := le_val (slice bytes 11 15) in
      let tk := le_val (slice bytes 15 19) in
      let ts := le_val (slice bytes 19 27) in
      let fl := bytes !!! 27%nat in
      let plen := le_val (slice bytes 28 32) in
      if MAX_PAYLOAD <? plen then Err (Protocol "declared payload exceeds MAX_PAYLOAD")
      else if negb (bool_decide (length bytes = HEADER_LEN + Z.to_nat plen)%nat) then
        Err (Protocol ("packet length " +:+ pretty (length bytes) +:+ " != header " +:+
                       pretty HEADER_LEN +:+ " + payload " +:+ pretty plen))
      else
        Ok (Packet (PacketHeader version session chan seq tk ts fl plen)
              (drop HEADER_LEN bytes)).

(** ** Facts *)

(** The values the types of the header's fields allow, with a payload that
    fits in memory below the [u32] cast. *)
Record wf_packet (p : packet) : Prop := {
  wf_version : fits 16 (protocol_version (header p));
  wf_session : fits 64 (session_id (header p));
  wf_sequence : fits 32 (sequence (header p));
  wf_tick : fits 32 (tick (header p));
  wf_timestamp : fits 64 (timestamp_ms (header p));
  wf_flags : fits 8 (flags (header p));
  wf_plen : fits 32 (payload_len (header p));
  wf_payload : byte_list (payload p);
  wf_size : Z.of_nat (length (payload p)) < 2 ^ 32 }.

Lemma channel_roundtrip c : channel_from_u8 (channel_to_u8 c) = Some c.
Proof. by destruct c. Qed.

Lemma channel_from_u8_Some v c : channel_from_u8 v = Some c -> channel_to_u8 c = v.
Proof. unfold channel_from_u8. intros. by repeat (case_match; simplify_eq). Qed.

Lemma decode_encode_packet p bs :
  wf_packet p -> encode_packet p = Ok bs ->
  decode_packet bs (protocol_version (header p)) = Ok p.
Proof.
  destruct p as [[v sid c seq tk ts fl pl] pay].
  intros [Hv Hs Hq Ht Hts Hf Hp Hpay Hsz] Henc; simpl in *.
  unfold encode_packet in Henc; simpl in Henc.
  destruct (negb _) eqn:Hlen; [done|]. destruct (MAX_PAYLOAD <? pl) eqn:Hmax; [done|].
  injection Henc as <-. bool_prop.
  rewrite wrap_small in Hlen by (unfold fits; lia).
  unfold decode_packet. rewrite bool_decide_false by (simpl; unfold HEADER_LEN; lia).
  change (le_val (slice _ 0 2)) with (le_val (le_bytes 2 v)).
  change (le_val (slice _ 2 10)) with (le_val (le_bytes 8 sid)).
  change (le_val (slice _ 11 15)) with (le_val (le_bytes 4 seq)).
  change (le_val (slice _ 15 19)) with (le_val (le_bytes 4 tk)).
  change (le_val (slice _ 19 27)) with (le_val (le_bytes 8 ts)).
  change (le_val (slice _ 28 32)) with (le_val (le_bytes 4 pl)).
  rewrite !le_val_bytes by done. rewrite Z.eqb_refl. cbn [negb].
  match goal with |- context [channel_from_u8 ?b] =>
    change b with (channel_to_u8 c) end.
  rewrite channel_roundtrip. cbn [ok_or rbind].
  assert (MAX_PAYLOAD <? pl = false) as -> by by apply Z.ltb_ge.
  rewrite bool_decide_true; [done|]. simpl. unfold HEADER_LEN. lia.
Qed.

Lemma decode_sound bs v p :
  byte_list bs -> decode_packet bs v = Ok p ->
  wf_packet p /\ protocol_version (header p) = v /\ encode_packet p = Ok bs.
Proof.
  intros Hbs. unfold decode_packet, HEADER_LEN. cbv zeta.
  case_bool_decide as Hlen; [done|].
  destruct (negb (_ =? v)) eqn:Hv; [done|].
  destruct (channel_from_u8 _) as [c|] eqn:Hc; [|done]. cbn [ok_or rbind].
  destruct (MAX_PAYLOAD <? _) eqn:Hmax; [done|].
  destruct (negb (bool_decide _)) eqn:Htot; [done|]. intros [= <-]. bool_prop.
  apply channel_from_u8_Some in Hc.
  assert (Hf : forall i j n, (j <= 32)%nat -> n = (j - i)%nat ->
    fits (8 * Z.of_nat n) (le_val (slice bs i j)) /\
    le_bytes n (le_val (slice bs i j)) = slice bs i j).
  { intros i j n Hj ->. rewrite <- (length_slice bs i j) by lia.
    split; [apply le_val_fits|apply le_bytes_val]; by apply slice_range. }
  assert (Hone : forall i, (i < 32)%nat -> slice bs i (S i) = [bs !!! i]).
  { intros i Hi. unfold slice. replace (S i - i)%nat with 1%nat by lia.
    destruct (lookup_lt_is_Some_2 bs i ltac:(lia)) as [x Hx].
    rewrite (drop_S bs x i Hx). by rewrite (list_lookup_total_correct _ _ _ Hx). }
  assert (Hb27 : fits 8 (bs !!! 27%nat)).
  { destruct (lookup_lt_is_Some_2 bs 27 ltac:(lia)) as [x Hx].
    rewrite (list_lookup_total_correct _ _ _ Hx). by eapply Forall_lookup_1. }
  pose proof (proj1 (Hf 28 32 4 ltac:(lia) eq_refl)%nat) as Hpl.
  assert (Hdl : Z.of_nat (length (drop 32 bs)) = le_val (slice bs 28 32)).
  { rewrite length_drop. unfold fits in Hpl. lia. }
  split_and!; [|done|].
  - split; cbn [header payload protocol_version session_id hdr_channel sequence tick
      timestamp_ms flags payload_len]; try done.
    + apply (Hf 0 2 2)%nat; lia.
    + apply (Hf 2 10 8)%nat; lia.
    + apply (Hf 11 15 4)%nat; lia.
    + apply (Hf 15 19 4)%nat; lia.
    + apply (Hf 19 27 8)%nat; lia.
    + by apply Forall_drop.
    + rewrite Hdl. apply Hpl.
  - unfold encode_packet. cbn [header payload protocol_version session_id hdr_channel
      sequence tick timestamp_ms flags payload_len].
    rewrite Hdl, wrap_small, Z.eqb_refl by done. cbn [negb].
    assert (MAX_PAYLOAD <? le_val (slice bs 28 32) = false) as -> by by apply Z.ltb_ge.
    f_equal. rewrite Hc, <- !Hone by lia.
    rewrite (proj2 (Hf 0 2 2 ltac:(lia) eq_refl))%nat.
    rewrite (proj2 (Hf 2 10 8 ltac:(lia) eq_refl))%nat.
    rewrite (proj2 (Hf 11 15 4 ltac:(lia) eq_refl))%nat.
    rewrite (proj2 (Hf 15 19 4 ltac:(lia) eq_refl))%nat.
    rewrite (proj2 (Hf 19 27 8 ltac:(lia) eq_refl))%nat.
    rewrite (proj2 (Hf 28 32 4 ltac:(lia) eq_refl))%nat.
    rewrite <- !drop_slice by lia. apply drop_0.
Qed.

(** C11: on byte strings, [decode_packet] accepts exactly the encodings of the
    well-formed packets of the expected version, and returns the packet that
    was encoded: the codec is a bijection, and every byte string is either the
    encoding of one packet or rejected. *)
Theorem packet_codec (bs : list Z) (v : Z) (p : packet) :
  byte_list bs ->
  decode_packet bs v = Ok p <->
  wf_packet p /\ protocol_version (header p) = v /\ encode_packet p = Ok bs.
Proof.
  intros Hbs. split; [by apply decode_sound|].
  intros (Hwf & <- & Henc). by apply decode_encode_packet.
Qed.

Definition heartbeat : packet :=
  Packet (PacketHeader 1 77 Heartbeat 5 9 1000 3 2) [10; 255].

Lemma packet_codec_witness :
  exists bs, encode_packet heartbeat = Ok bs /\ decode_packet bs 1 = Ok heartbeat.
Proof.
  eexists. split; [vm_compute; reflexivity|]. apply packet_codec.
  - by_decide.
  - split_and!; [|reflexivity|reflexivity].
    split; first [by_decide | reflexivity].
Defined.
