(* ===== verification/Frames.v ===== *)
(** Event and resource-transfer frames (crates/ald-protocol/src: event.rs,
    transfer.rs) around a JSON codec. [serde_json] is a parameter: its
    encoder and decoder for one type, with what serde documents of them as
    the laws of [json_codec]. *)
From S2P Require Import Prelude Bytes Packet.

(** [serde_json::to_vec] and [from_slice] at type [A]; compact JSON escapes
    control characters, so the encoding holds no newline byte. *)
Class json (A : Type) := {
  to_vec : A -> result (list Z) string;
  from_slice : list Z -> result A string }.

Class json_codec (A : Type) `{json A} := {
  json_roundtrip a bs : to_vec a = Ok bs -> from_slice bs = Ok a;
  json_no_newline a bs : to_vec a = Ok bs -> 10 ∉ bs }.

(** [.map_err(|e| AldError::Protocol(e.to_string()))] *)
Definition map_protocol {A} (r : result A string) : result A ald_error :=
  match r with Ok a => Ok a | Err e => Err (Protocol e) end.

Record event_envelope := EventEnvelope {
  source_resource : string; event : string; data : list Z; seq : Z }.

Definition CHUNK_CAP : Z := 32 * 1024.
Definition MAX_REQUEST : nat := 4096.

Record transfer_request := TransferRequest {
  req_name : string; req_offset : Z; req_len : Z }.
Record transfer_header := TransferHeader {
  hd_name : string; hd_offset : Z; hd_total : Z; hd_sha256 : string }.

Section frames.
Context `{json event_envelope, json transfer_request, json transfer_header}.

Definition encode_event (e : event_envelope) : result (list Z) ald_error :=
  let? body := map_protocol (to_vec e) in
  if MAX_PAYLOAD <? Z.of_nat (length body) then Err (Protocol "event too large")
  else Ok (le_bytes 4 (wrap 32 (Z.of_nat (length body))) ++ body).

Definition decode_event (bytes : list Z) : result event_envelope ald_error :=
  if bool_decide (length bytes < 4)%nat then Err (Protocol "event frame too short")
  else
    let len := le_val (slice bytes 0 4) in
    if negb (bool_decide (length bytes = Z.to_nat len + 4)%nat) then
      Err (Protocol "event frame length mismatch")
    else map_protocol (from_slice (drop 4 bytes)).

Definition encode_request (req : transfer_request) : result (list Z) ald_error :=
  if CHUNK_CAP <? req_len req then Err (Protocol "chunk request exceeds CHUNK_CAP")
  else map_protocol (to_vec req).

Definition decode_request (bytes : list Z) : result transfer_request ald_error :=
  if bool_decide (MAX_REQUEST < length bytes)%nat then
    Err (Protocol "transfer request too large")
  else
    let? req := map_protocol (from_slice bytes) in
    if CHUNK_CAP <? req_len req then Err (Protocol "chunk request exceeds CHUNK_CAP")
    else Ok req.

Definition encode_response (header : transfer_header) (data : list Z) :
    result (list Z) ald_error :=
  if CHUNK_CAP <? Z.of_nat (length data) then Err (Protocol "chunk exceeds CHUNK_CAP")
  else
    let? head := map_protocol (to_vec header) in
    Ok ((head ++ [10]) ++ data).

Definition decode_response (bytes : list Z) :
    result (transfer_header * list Z) ald_error :=
  let? at_ := ok_or (position (fun b => b =? 10) bytes) (Protocol "chunk missing header") in
  let? header := map_protocol (from_slice (take at_ bytes)) in
  let data := drop (S at_) bytes in
  if CHUNK_CAP <? Z.of_nat (length data) then Err (Protocol "chunk exceeds CHUNK_CAP")
  else Ok (header, data).

(** ** Round trips *)
Lemma map_protocol_ok {A} (r : result A string) a : map_protocol r = Ok a <-> r = Ok a.
Proof. destruct r; simpl; naive_solver. Qed.

Lemma map_protocol_Ok {A} (r : result A string) a : r = Ok a -> map_protocol r = Ok a.
Proof. by intros ->. Qed.

Lemma position_newline l1 l2 :
  10 ∉ l1 -> position (fun b => b =? 10) (l1 ++ 10 :: l2) = Some (length l1).
Proof.
  intros Hl. apply position_Some. exists 10. split_and!.
  - by rewrite list_lookup_middle.
  - done.
  - intros j y Hj Hy. rewrite lookup_app_l in Hy by done. apply Z.eqb_neq. intros ->.
    apply Hl. by eapply list_elem_of_lookup_2.
Qed.

Context `{!json_codec event_envelope, !json_codec transfer_request,
  !json_codec transfer_header}.

Lemma event_roundtrip e bs : encode_event e = Ok bs -> decode_event bs = Ok e.
Proof.
  unfold encode_event. intros (body & Hbody%map_protocol_ok & Hbs)%rbind_ok.
  destruct (MAX_PAYLOAD <? _) eqn:Hmax; [done|]. injection Hbs as <-. bool_prop.
  assert (Hfits : fits 32 (Z.of_nat (length body))).
  { unfold fits. change MAX_PAYLOAD with 16777216 in Hmax.
    change (2 ^ 32) with 4294967296. lia. }
  rewrite wrap_small by done. unfold decode_event.
  rewrite bool_decide_false by (simpl; lia).
  change (slice _ 0 4) with (le_bytes 4 (Z.of_nat (length body))).
  rewrite le_val_bytes by done. rewrite bool_decide_true.
  - simpl. apply map_protocol_Ok. by apply json_roundtrip.
  - simpl. lia.
Qed.

Lemma request_roundtrip r bs :
  encode_request r = Ok bs -> (length bs <= MAX_REQUEST)%nat -> decode_request bs = Ok r.
Proof.
  unfold encode_request, decode_request. destruct (CHUNK_CAP <? req_len r) eqn:Hcap; [done|].
  intros Hbs%map_protocol_ok Hlen. rewrite bool_decide_false by lia.
  rewrite (json_roundtrip _ _ Hbs). simpl. by rewrite Hcap.
Qed.

Lemma response_roundtrip h d bs :
  encode_response h d = Ok bs -> decode_response bs = Ok (h, d).
Proof.
  unfold encode_response, decode_response.
  destruct (CHUNK_CAP <? _) eqn:Hcap; [done|].
  intros (head & Hhead%map_protocol_ok & [= <-])%rbind_ok.
  rewrite <- (assoc_L (++)). simpl.
  rewrite position_newline by by eapply json_no_newline. simpl.
  rewrite take_app_length, (json_roundtrip _ _ Hhead). simpl.
  change (drop (S (length head)) (head ++ 10 :: d)) with
    (drop (S (length head)) (head ++ [10] ++ d)).
  rewrite (assoc_L (++)). rewrite drop_app_length' by (rewrite length_app; simpl; lia).
  by rewrite Hcap.
Qed.

(** Every frame the encoders produce is read back by the decoders as the
    value that was sent (a request only while its JSON is within
    [MAX_REQUEST], which [encode_request] does not check), and a decoded
    request or chunk is never larger than [CHUNK_CAP], whoever sent it. *)
Theorem frames_roundtrip :
  (forall e bs, encode_event e = Ok bs -> decode_event bs = Ok e) /\
  (forall r bs, encode_request r = Ok bs ->
     decode_request bs = (if bool_decide (MAX_REQUEST < length bs)%nat
                          then Err (Protocol "transfer request too large") else Ok r)) /\
  (forall h d bs, encode_response h d = Ok bs -> decode_response bs = Ok (h, d)) /\
  (forall bs r, decode_request bs = Ok r -> req_len r <= CHUNK_CAP) /\
  (forall bs h d, decode_response bs = Ok (h, d) -> Z.of_nat (length d) <= CHUNK_CAP).
Proof.
  split_and!; [exact event_roundtrip| |exact response_roundtrip| |].
  - intros r bs Hbs. case_bool_decide as Hlen.
    + unfold decode_request. by rewrite bool_decide_true.
    + apply request_roundtrip; [done|lia].
  - intros bs r. unfold decode_request. case_bool_decide; [done|].
    intros (req & _ & Hreq)%rbind_ok. destruct (CHUNK_CAP <? _) eqn:Hcap; [done|].
    injection Hreq as <-. by bool_prop.
  - intros bs h d. unfold decode_response.
    intros (n & _ & (hd & _ & Hd)%rbind_ok)%rbind_ok.
    destruct (CHUNK_CAP <? _) eqn:Hcap; [done|]. injection Hd as <- <-. by bool_prop.
Qed.
End frames.

(** ** A codec that satisfies the laws

    Any countable type has one: the bits of its code, written as bytes 0/1. *)
Fixpoint pos_bits (p : positive) : list Z :=
  match p with xH => [] | xO p => 0 :: pos_bits p | xI p => 1 :: pos_bits p end.
Fixpoint bits_pos (l : list Z) : positive :=
  match l with [] => xH | b :: l => if b =? 0 then xO (bits_pos l) else xI (bits_pos l) end.

Lemma bits_pos_bits p : bits_pos (pos_bits p) = p.
Proof. induction p; simpl; by f_equal. Qed.

Lemma pos_bits_no_newline p : 10 ∉ pos_bits p.
Proof. induction p; simpl; set_solver. Qed.

Definition countable_json (A : Type) `{Countable A} : json A := {|
  to_vec a := Ok (pos_bits (encode a));
  from_slice bs := ok_or (decode (bits_pos bs)) "eof"%string |}.

Lemma countable_json_codec (A : Type) `{Countable A} :
  @json_codec A (countable_json A).
Proof.
  split; simpl; intros a bs [= <-].
  - by rewrite bits_pos_bits, decode_encode.
  - apply pos_bits_no_newline.
Qed.

#[local] Instance event_envelope_eq_dec : EqDecision event_envelope.
Proof. solve_decision. Defined.
#[local] Instance transfer_request_eq_dec : EqDecision transfer_request.
Proof. solve_decision. Defined.
#[local] Instance transfer_header_eq_dec : EqDecision transfer_header.
Proof. solve_decision. Defined.
#[local] Program Instance event_envelope_countable : Countable event_envelope :=
  inj_countable' (fun e => (source_resource e, event e, data e, seq e))
    (fun '(a, b, c, d) => EventEnvelope a b c d) _.
Next Obligation. by intros []. Qed.
#[local] Program Instance transfer_request_countable : Countable transfer_request :=
  inj_countable' (fun e => (req_name e, req_offset e, req_len e))
    (fun '(a, b, c) => TransferRequest a b c) _.
Next Obligation. by intros []. Qed.
#[local] Program Instance transfer_header_countable : Countable transfer_header :=
  inj_countable' (fun e => (hd_name e, hd_offset e, hd_total e, hd_sha256 e))
    (fun '(a, b, c, d) => TransferHeader a b c d) _.
Next Obligation. by intros []. Qed.

#[local] Existing Instance countable_json.
#[local] Existing Instance countable_json_codec.

Lemma frames_roundtrip_witness :
  let h := TransferHeader "spawn/ald_manifest.toml" 0 3 "00" in
  exists bs, encode_response h [1; 10; 2] = Ok bs /\ decode_response bs = Ok (h, [1; 10; 2]).
Proof.
  intros h. eexists. split; [vm_compute; reflexivity|].
  apply (proj1 (proj2 (proj2 frames_roundtrip))). vm_compute; reflexivity.
Defined.
