(* ===== verification/Cidr.v ===== *)
(** Trusted-proxy address ranges (crates/ald-network/src/lib.rs): [Cidr] and
    its bit-mask membership tests. An IPv4 address is a [u32], an IPv6 address
    its 16 octets. *)
From S2P Require Import Prelude Bytes.

Inductive ip_addr := V4 (a : Z) | V6 (octets : list Z).

Record cidr := Cidr { base : ip_addr; prefix : Z }.

Definition is_ipv4 (a : ip_addr) : bool := match a with V4 _ => true | V6 _ => false end.

(** [!x] on [u32] *)
Definition not_u32 (x : Z) : Z := u32_max - x.

Definition in_range_v4 (a b p : Z) : bool :=
  if p =? 0 then true
  else
    let mask := if 32 <=? p then u32_max else not_u32 (Z.shiftr u32_max p) in
    Z.land a mask =? Z.land b mask.

(** The [for i in 0..16] loop over the octets; [bits] is its [i32] counter. *)
Fixpoint in_range_v6 (a b : list Z) (bits : Z) : bool :=
  match a, b with
  | x :: a', y :: b' =>
      if bits <=? 0 then true
      else
        let take := Z.min bits 8 in
        let mask := if take =? 8 then 255 else wrap 8 (Z.shiftl 255 (8 - take)) in
        if negb (Z.land x mask =? Z.land y mask) then false
        else in_range_v6 a' b' (bits - 8)
  | _, _ => true
  end.

Definition contains (c : cidr) (ip : ip_addr) : bool :=
  if negb (eqb (is_ipv4 (base c)) (is_ipv4 ip)) then false
  else
    match base c, ip with
    | V4 b, V4 a => in_range_v4 a b (prefix c)
    | V6 b, V6 a => in_range_v6 a b (prefix c)
    | _, _ => false
    end.

(** ** Specification *)

(** The addresses [a] and [b] of [w] bits agree on their first [p] bits. *)
Definition same_prefix (w p a b : Z) : Prop := a / 2 ^ (w - p) = b / 2 ^ (w - p).

(** The types' ranges, and the check of [Cidr::parse] on the prefix. *)
Definition wf_ip (a : ip_addr) : Prop :=
  match a with V4 a => fits 32 a | V6 o => byte_list o /\ length o = 16%nat end.
Definition wf_cidr (c : cidr) : Prop :=
  wf_ip (base c) /\ 0 <= prefix c <= (if is_ipv4 (base c) then 32 else 128).

Definition in_prefix (c : cidr) (ip : ip_addr) : Prop :=
  match base c, ip with
  | V4 b, V4 a => same_prefix 32 (prefix c) a b
  | V6 b, V6 a => same_prefix 128 (prefix c) (be_val a) (be_val b)
  | _, _ => False
  end.

(** Masking the high bits of a [w]-bit number keeps its quotient. *)
Lemma land_high_mask w k a :
  0 <= k <= w -> fits w a -> Z.land a (2 ^ w - 2 ^ k) = a / 2 ^ k * 2 ^ k.
Proof.
  intros Hk Ha. unfold fits in Ha.
  replace (2 ^ w - 2 ^ k) with (Z.shiftl (Z.ones (w - k)) k).
  2: { rewrite Z.shiftl_mul_pow2, Z.ones_equiv by lia.
       replace w with ((w - k) + k) at 2 by lia. rewrite Z.pow_add_r by lia. lia. }
  rewrite <- Z.shiftr_div_pow2, <- Z.shiftl_mul_pow2 by lia.
  apply Z.bits_inj'. intros n Hn. rewrite Z.land_spec, !Z.shiftl_spec by done.
  destruct (Z.ltb_spec n k).
  { rewrite (Z.testbit_neg_r _ (n - k)) by lia.
    by rewrite (Z.testbit_neg_r _ (n - k)), andb_false_r by lia. }
  rewrite Z.shiftr_spec by lia. replace (n - k + k) with n by lia.
  destruct (Z.ltb_spec (n - k) (w - k)).
  - by rewrite Z.ones_spec_low, andb_true_r by lia.
  - rewrite Z.ones_spec_high, andb_false_r by lia. symmetry.
    destruct (decide (a = 0)) as [->|]; [apply Z.bits_0|].
    apply Z.bits_above_log2; [lia|]. apply Z.log2_lt_pow2; [lia|].
    eapply Z.lt_le_trans; [apply Ha|]. apply Z.pow_le_mono_r; lia.
Qed.

Lemma masked_eq w k a b :
  0 <= k <= w -> fits w a -> fits w b ->
  (Z.land a (2 ^ w - 2 ^ k) =? Z.land b (2 ^ w - 2 ^ k)) = true <->
  a / 2 ^ k = b / 2 ^ k.
Proof.
  intros Hk Ha Hb. rewrite !land_high_mask, Z.eqb_eq by done.
  pose proof (Z.pow_pos_nonneg 2 k ltac:(lia) ltac:(lia)). nia.
Qed.

Lemma in_range_v4_spec a b p :
  0 <= p <= 32 -> fits 32 a -> fits 32 b ->
  in_range_v4 a b p = true <-> same_prefix 32 p a b.
Proof.
  intros Hp Ha Hb. unfold in_range_v4, same_prefix. case_match eqn:H0; bool_prop.
  { subst p. split; [intros _|done]. unfold fits in *.
    by rewrite !Z.div_small by (change (32 - 0) with 32; lia). }
  assert (Hmask : (if 32 <=? p then u32_max else not_u32 (Z.shiftr u32_max p)) =
    2 ^ 32 - 2 ^ (32 - p)).
  { destruct (32 <=? p) eqn:Hp32; bool_prop.
    - replace p with 32 by lia. done.
    - unfold not_u32. assert (Hs : Z.shiftr u32_max p = 2 ^ (32 - p) - 1); [|unfold u32_max in *; lia].
      change u32_max with (Z.ones 32).
      rewrite Z.shiftr_div_pow2, Z.ones_div_pow2, Z.ones_equiv by lia. lia. }
  rewrite Hmask. apply masked_eq; [lia|done..].
Qed.

Lemma octet_mask x y t :
  1 <= t <= 8 -> fits 8 x -> fits 8 y ->
  (Z.land x (if t =? 8 then 255 else wrap 8 (Z.shiftl 255 (8 - t))) =?
   Z.land y (if t =? 8 then 255 else wrap 8 (Z.shiftl 255 (8 - t)))) = true <->
  x / 2 ^ (8 - t) = y / 2 ^ (8 - t).
Proof.
  intros Ht Hx Hy.
  assert (Hm : (if t =? 8 then 255 else wrap 8 (Z.shiftl 255 (8 - t))) = 2 ^ 8 - 2 ^ (8 - t)).
  { assert (t = 1 \/ t = 2 \/ t = 3 \/ t = 4 \/ t = 5 \/ t = 6 \/ t = 7 \/ t = 8)
      as [->|[->|[->|[->|[->|[->|[->| ->]]]]]]] by lia; reflexivity. }
  rewrite Hm. apply masked_eq; [lia|done..].
Qed.

Lemma be_val_cons x l : be_val (x :: l) = x * 2 ^ (8 * Z.of_nat (length l)) + be_val l.
Proof.
  unfold be_val. simpl. rewrite <- length_rev. generalize (rev l). clear l. intros l.
  induction l as [|b l IH]; simpl le_val; [simpl; lia|].
  rewrite IH.
  change (length (b :: l)) with (S (length l)).
  replace (8 * Z.of_nat (S (length l))) with (8 + 8 * Z.of_nat (length l)) by lia.
  rewrite Z.pow_add_r by lia. change (2 ^ 8) with 256. lia.
Qed.

Lemma be_val_fits l : byte_list l -> fits (8 * Z.of_nat (length l)) (be_val l).
Proof.
  intros Hl. unfold be_val. rewrite <- length_rev. apply le_val_fits. by apply Forall_rev.
Qed.

(** Dividing a number with leading octet [x] by a power of two. *)
Lemma lead_octet_div x v n p :
  0 <= n -> fits n v -> 0 <= p <= n + 8 ->
  (x * 2 ^ n + v) / 2 ^ (n + 8 - p) =
  if p <=? 8 then x / 2 ^ (8 - p) else x * 2 ^ (p - 8) + v / 2 ^ (n - (p - 8)).
Proof.
  intros Hn Hv Hp. unfold fits in Hv. case_match eqn:Hp8; bool_prop.
  - replace (n + 8 - p) with (n + (8 - p)) by lia.
    rewrite Z.pow_add_r, <- Z.div_div by lia.
    by rewrite Z.div_add_l, (Z.div_small v), Z.add_0_r by lia.
  - replace (n + 8 - p) with (n - (p - 8)) by lia.
    replace (x * 2 ^ n) with ((x * 2 ^ (p - 8)) * 2 ^ (n - (p - 8))).
    2: { rewrite <- Z.mul_assoc, <- Z.pow_add_r by lia. do 2 f_equal. lia. }
    by rewrite Z.div_add_l by lia.
Qed.

Lemma in_range_v6_spec a b p :
  length a = length b -> byte_list a -> byte_list b ->
  0 <= p <= 8 * Z.of_nat (length a) ->
  in_range_v6 a b p = true <->
  same_prefix (8 * Z.of_nat (length a)) p (be_val a) (be_val b).
Proof.
  revert b p. induction a as [|x a IH]; intros [|y b] p Hlen Ha Hb Hp; try done.
  apply Forall_cons in Ha as [Hx Ha]. apply Forall_cons in Hb as [Hy Hb].
  simpl in Hlen. injection Hlen as Hlen. cbn [in_range_v6]. cbv zeta.
  unfold same_prefix in *. pose proof (be_val_fits a Ha) as Hva.
  pose proof (be_val_fits b Hb) as Hvb. rewrite <- Hlen in Hvb.
  change (length (x :: a)) with (S (length a)) in *.
  replace (8 * Z.of_nat (S (length a))) with (8 * Z.of_nat (length a) + 8) in * by lia.
  set (n := 8 * Z.of_nat (length a)) in *. rewrite !be_val_cons, <- Hlen. fold n.
  rewrite !lead_octet_div by (done || lia).
  destruct (p <=? 0) eqn:Hp0; bool_prop.
  { replace p with 0 by lia. change (0 <=? 8) with true. change (8 - 0) with 8. cbv iota.
    unfold fits in *. by rewrite !Z.div_small by lia. }
  destruct (Z.land x _ =? _) eqn:Hm; cbn [negb].
  - rewrite octet_mask in Hm by (done || lia). destruct (p <=? 8) eqn:Hp8; bool_prop.
    + rewrite Z.min_l in Hm by lia. split; [done|]. intros _.
      destruct a, b; simpl; try done. by rewrite (proj2 (Z.leb_le _ _)) by lia.
    + rewrite Z.min_r in Hm by lia. change (8 - 8) with 0 in Hm.
      rewrite !Z.div_1_r in Hm. subst y. rewrite IH by (done || lia).
      split; [congruence|]. apply Z.add_cancel_l.
  - assert (Hm' : ~ x / 2 ^ (8 - Z.min p 8) = y / 2 ^ (8 - Z.min p 8)).
    { rewrite <- octet_mask by (done || lia). by rewrite Hm. }
    split; [done|]. intros Heq. exfalso. apply Hm'.
    destruct (p <=? 8) eqn:Hp8; bool_prop; [by rewrite Z.min_l by lia|].
    rewrite Z.min_r by lia. change (8 - 8) with 0. rewrite !Z.div_1_r.
    assert (Hq : forall v, fits n v -> 0 <= v / 2 ^ (n - (p - 8)) < 2 ^ (p - 8)).
    { intros v [Hv1 Hv2]. split; [apply Z.div_pos; lia|].
      apply Z.div_lt_upper_bound; [lia|]. rewrite <- Z.pow_add_r by lia.
      by replace (n - (p - 8) + (p - 8)) with n by lia. }
    pose proof (Hq _ Hva). pose proof (Hq _ Hvb). nia.
Qed.

(** For a range that [Cidr::parse] accepts, [contains] holds exactly of
    the addresses of the same family that agree with the base address on the
    first [prefix] bits: the masked [u32] comparison and the octet loop both
    implement prefix equality, for every prefix from 0 to 32 or 128. *)
Theorem contains_spec (c : cidr) (ip : ip_addr) :
  wf_cidr c -> wf_ip ip -> contains c ip = true <-> in_prefix c ip.
Proof.
  destruct c as [[b|b] p]; intros [Hb Hp] Hip; unfold contains, in_prefix; simpl in *;
    destruct ip as [a|a]; simpl in *; try done.
  - by apply in_range_v4_spec.
  - destruct Hb as [Hb Hlb], Hip as [Ha Hla].
    rewrite in_range_v6_spec by (done || lia). by rewrite Hla.
Qed.

Lemma contains_spec_witness :
  let c := Cidr (V6 [32; 1; 13; 184; 128; 0; 0; 0; 0; 0; 0; 0; 0; 0; 0; 0]) 33 in
  let ip := V6 [32; 1; 13; 184; 255; 1; 2; 3; 4; 5; 6; 7; 8; 9; 10; 11] in
  contains c ip = true /\ in_prefix c ip.
Proof.
  intros c ip. split; [vm_compute; reflexivity|].
  apply (contains_spec c ip); [|split; [by_decide|reflexivity]|vm_compute; reflexivity].
  split; [split; [by_decide|reflexivity]|]. simpl. lia.
Defined.
