(* ===== verification/Network.v ===== *)
(** AstraNet peers (crates/ald-network/src: session.rs, firewall.rs,
    transport.rs): the session table, the event firewall and payload
    fragmentation. Session ids come from the random generator, so an
    operation takes the drawn id; clock readings are milliseconds. *)
From S2P Require Import Prelude Packet Reliability.

Section sessions.
Context {Addr : Type} `{Countable Addr}.

Record session := Session {
  id : Z;
  addr : Addr;
  created : Z;
  last_seen : Z;
  sess_reliability : reliability }.

Definition session_new (i : Z) (a : Addr) (now : Z) : session :=
  Session i a now now reliability_new.

Definition touch (s : session) (now : Z) : session :=
  Session (id s) (addr s) (created s) now (sess_reliability s).

(** [duration_since] saturates at zero. *)
Definition idle_for (s : session) (now : Z) : Z := sat_sub now (last_seen s).

Record session_manager := SessionManager {
  by_id : gmap Z session;
  by_addr : gmap Addr Z }.

Definition manager_new : session_manager := SessionManager ∅ ∅.

Definition create (m : session_manager) (a : Addr) (now fresh : Z) :
    session_manager * session :=
  let s := session_new fresh a now in
  (SessionManager (<[fresh := s]> (by_id m)) (<[a := fresh]> (by_addr m)), s).

Definition get (m : session_manager) (i : Z) : option session := by_id m !! i.

Definition get_by_addr (m : session_manager) (a : Addr) : option session :=
  by_addr m !! a ≫= fun i => by_id m !! i.

Definition remove (m : session_manager) (i : Z) : session_manager * bool :=
  match by_id m !! i with
  | Some s => (SessionManager (delete i (by_id m)) (delete (addr s) (by_addr m)), true)
  | None => (m, false)
  end.

Definition expire_idle (m : session_manager) (timeout now : Z) :
    session_manager * list Z :=
  let dead := (fst <$> List.filter (fun p => timeout <? idle_for p.2 now)
                 (map_to_list (by_id m))) in
  (foldl (fun m i => (remove m i).1) m dead, dead).

Definition len (m : session_manager) : nat := size (by_id m).

(** The sessions are shared ([Arc]): a touch reaches the table's copy. *)
Definition touch_id (m : session_manager) (i now : Z) : session_manager :=
  SessionManager (alter (fun s => touch s now) i (by_id m)) (by_addr m).

Inductive session_op :=
| Create (a : Addr) (now fresh : Z)
| TouchId (i now : Z)
| RemoveId (i : Z)
| Expire (timeout now : Z).

Definition session_step (m : session_manager) (o : session_op) : session_manager :=
  match o with
  | Create a now fresh => (create m a now fresh).1
  | TouchId i now => touch_id m i now
  | RemoveId i => (remove m i).1
  | Expire timeout now => (expire_idle m timeout now).1
  end.

(** The two tables agree: every address maps to a live session of that
    address, and sessions are filed under their own id. *)
Record tables_agree (m : session_manager) : Prop := {
  ta_id : forall i s, by_id m !! i = Some s -> id s = i;
  ta_addr : forall a i, by_addr m !! a = Some i ->
    exists s, by_id m !! i = Some s /\ addr s = a }.

Lemma create_agree m a now fresh :
  by_id m !! fresh = None -> tables_agree m -> tables_agree (create m a now fresh).1.
Proof.
  intros Hf [Hid Had]. split; simpl.
  - intros i s [[<- <-]|[_ ?]]%lookup_insert_Some; [done|eauto].
  - intros b i [[<- <-]|[Hne Hb]]%lookup_insert_Some.
    + exists (session_new fresh a now). by rewrite lookup_insert_eq.
    + destruct (Had b i Hb) as (s & Hs & Hab). exists s. split; [|done].
      rewrite lookup_insert_ne; [done|]. congruence.
Qed.

Lemma remove_agree m i : tables_agree m -> tables_agree (remove m i).1.
Proof.
  intros [Hid Had]. unfold remove. destruct (by_id m !! i) as [s|] eqn:Hs; simpl; [|done].
  split; simpl.
  - intros j t [_ ?]%lookup_delete_Some. eauto.
  - intros b j [Hne Hb]%lookup_delete_Some. destruct (Had b j Hb) as (t & Ht & Hab).
    exists t. split; [|done]. rewrite lookup_delete_ne; [done|]. congruence.
Qed.

Lemma remove_all_agree m l :
  tables_agree m -> tables_agree (foldl (fun m i => (remove m i).1) m l).
Proof. revert m. induction l; simpl; intros; auto using remove_agree. Qed.

Lemma remove_by_id m i : by_id (remove m i).1 = delete i (by_id m).
Proof.
  unfold remove. destruct (by_id m !! i) eqn:Hi; simpl; [done|].
  by rewrite delete_id.
Qed.

Lemma remove_all_by_id m l i :
  by_id (foldl (fun m i => (remove m i).1) m l) !! i =
  if decide (i ∈ l) then None else by_id m !! i.
Proof.
  revert m. induction l as [|j l IH]; intros m; cbn [foldl].
  { case_decide; set_solver. }
  rewrite IH, remove_by_id. destruct (decide (i = j)) as [->|Hne].
  - rewrite lookup_delete_eq. repeat case_decide; set_solver.
  - rewrite lookup_delete_ne by done. repeat case_decide; set_solver.
Qed.

(** [create] draws an id no live session has. *)
Fixpoint fresh_ids (m : session_manager) (ops : list session_op) : Prop :=
  match ops with
  | [] => True
  | o :: ops =>
      match o with Create _ _ fresh => by_id m !! fresh = None | _ => True end /\
      fresh_ids (session_step m o) ops
  end.

Lemma step_agree m o :
  match o with Create _ _ fresh => by_id m !! fresh = None | _ => True end ->
  tables_agree m -> tables_agree (session_step m o).
Proof.
  destruct o as [a now f|i now|i|t now]; simpl; intros Hf Hm.
  - by apply create_agree.
  - destruct Hm as [Hid Had]. split; simpl.
    + intros j s. rewrite lookup_alter_Some. intros [(-> & t & Ht & ->)|[_ ?]]; simpl; eauto.
    + intros b j Hb. destruct (Had b j Hb) as (t & Ht & Hab).
      destruct (decide (i = j)) as [->|].
      * rewrite lookup_alter_eq, Ht. eexists; split; [done|]. done.
      * rewrite lookup_alter_ne by done. eauto.
  - by apply remove_agree.
  - by apply remove_all_agree.
Qed.

Lemma run_agree m ops : fresh_ids m ops -> tables_agree m -> tables_agree (run session_step m ops).
Proof.
  revert m. induction ops as [|o ops IH]; intros m; simpl; [done|].
  intros [Hf Hops] Hm. apply IH; [done|]. by apply step_agree.
Qed.

(** As long as drawn ids do not collide, an address lookup only ever
    returns a live session of that very address, and expiry drops exactly the
    sessions idle for longer than the timeout, reporting each of them. *)
Theorem session_tables (ops : list session_op) :
  fresh_ids manager_new ops ->
  let m := run session_step manager_new ops in
  (forall a s, get_by_addr m a = Some s -> addr s = a /\ get m (id s) = Some s) /\
  (forall timeout now i,
     let '(m', dead) := expire_idle m timeout now in
     (i ∈ dead <-> exists s, get m i = Some s /\ timeout < idle_for s now) /\
     get m' i = (if decide (i ∈ dead) then None else get m i)).
Proof.
  intros Hf m. assert (Hm : tables_agree m).
  { apply run_agree; [done|]. split; simpl; intros *; by rewrite lookup_empty. }
  destruct Hm as [Hid Had]. split.
  - intros a s. unfold get_by_addr, get. intros (i & Hi & Hs)%bind_Some.
    destruct (Had a i Hi) as (s' & Hs' & Ha). assert (s' = s) as -> by congruence.
    split; [done|]. by rewrite (Hid i s Hs).
  - intros timeout now i. simpl. split; [|apply remove_all_by_id].
    rewrite list_elem_of_fmap. split.
    + intros ([j s] & -> & [Hin Hlt]%elem_of_filterb). apply elem_of_map_to_list in Hin.
      exists s. split; [done|]. by bool_prop.
    + intros (s & Hs & Hlt). exists (i, s). split; [done|]. apply elem_of_filterb.
      split; [by apply elem_of_map_to_list|]. by apply Z.ltb_lt.
Qed.

(** Removing an older session of an address unmaps the address although a
    newer session of it is live. *)
Lemma remove_unmaps_live m a now1 now2 i1 i2 :
  i1 <> i2 ->
  let m1 := (create m a now1 i1).1 in
  let m2 := (create m1 a now2 i2).1 in
  let m3 := (remove m2 i1).1 in
  get m3 i2 = Some (session_new i2 a now2) /\ get_by_addr m3 a = None.
Proof.
  intros Hne m1 m2 m3. subst m1 m2 m3. unfold remove; simpl.
  rewrite lookup_insert_ne, lookup_insert_eq by done. simpl. split.
  - unfold get; simpl. by rewrite lookup_delete_ne, lookup_insert_eq.
  - unfold get_by_addr; simpl. by rewrite lookup_delete_eq.
Qed.
End sessions.

Lemma session_tables_witness :
  let ops := [Create 7%nat 0 100; Create 7%nat 5 101; RemoveId 100; Expire 10 12] in
  fresh_ids manager_new ops /\ get_by_addr (run session_step manager_new ops) 7%nat = None /\
  (forall a s, get_by_addr (run session_step manager_new ops) a = Some s -> addr s = a /\
     get (run session_step manager_new ops) (id s) = Some s).
Proof.
  intros ops. split; [vm_compute; repeat split|].
  split; [vm_compute; reflexivity|].
  apply (session_tables ops). vm_compute; repeat split.
Defined.

(** ** Event firewall *)
Inductive direction := ClientToServer | ServerToClient | Bidirectional.

#[global] Instance direction_eq_dec : EqDecision direction.
Proof. solve_decision. Defined.

Record event_rule := EventRule {
  rule_direction : direction;
  rule_resource : string;
  max_size : Z;
  rate_per_sec : Z;
  rule_permission : option string }.

Definition event_firewall := gmap string event_rule.

Inductive firewall_verdict :=
| Allow | DenyUnknownEvent | DenyDirection | DenyOversized | DenyPermission | DenyRate.

Definition register (fw : event_firewall) (name : string) (r : event_rule) : event_firewall :=
  <[name := r]> fw.

Definition rule (fw : event_firewall) (name : string) : option event_rule := fw !! name.

Definition check (fw : event_firewall) (name : string) (d : direction) (size : Z)
    (permission : option string) : firewall_verdict :=
  match fw !! name with
  | None => DenyUnknownEvent
  | Some rule =>
      if negb (bool_decide (rule_direction rule = Bidirectional)) &&
         negb (bool_decide (rule_direction rule = d)) then DenyDirection
      else if max_size rule <? size then DenyOversized
      else
        match rule_permission rule with
        | Some req =>
            match permission with
            | Some p => if bool_decide (p = req) then Allow else DenyPermission
            | None => DenyPermission
            end
        | None => Allow
        end
  end.

Definition channel_allowed_client (c : channel) : bool :=
  match c with
  | Control | Auth | EventReliable | EventUnreliable | Heartbeat | ResourceTransfer => true
  | _ => false
  end.

(** ** Fragmentation *)

(** [payload.chunks(n)] for [n > 0]; the length bounds the number of chunks. *)
Fixpoint chunks_n (fuel n : nat) (l : list Z) : list (list Z) :=
  match fuel, l with
  | _, [] => []
  | O, _ => []
  | S fuel, _ => take n l :: chunks_n fuel n (drop n l)
  end.
Definition chunks (n : nat) (l : list Z) : list (list Z) := chunks_n (length l) n l.

Definition fragment (payload : list Z) (chunk : nat) : list (list Z) :=
  match payload with
  | [] => [[]]
  | _ => chunks (Nat.max chunk 1) payload
  end.

Lemma chunks_n_concat fuel n l :
  (0 < n)%nat -> (length l <= fuel)%nat ->
  concat (chunks_n fuel n l) = l /\
  Forall (fun c => c <> [] /\ (length c <= n)%nat) (chunks_n fuel n l) /\
  Forall (fun c => length c = n) (removelast (chunks_n fuel n l)).
Proof.
  intros Hn. revert l. induction fuel as [|fuel IH]; intros [|b l] Hl; simpl; try by (simpl in Hl; lia).
  - split_and!; constructor.
  - split_and!; constructor.
  - destruct (IH (drop n (b :: l))) as (IH1 & IH2 & IH3).
    { rewrite length_drop. simpl in *. lia. }
    split_and!.
    + by rewrite IH1, take_drop.
    + constructor; [|done]. split; [by destruct n; [lia|]|]. rewrite length_take. lia.
    + destruct (chunks_n fuel n (drop n (b :: l))) as [|c cs] eqn:Hcs; [constructor|].
      constructor; [|done]. rewrite length_take.
      assert (drop n (b :: l) <> []) as Hne by (intros Hd; rewrite Hd in Hcs; by destruct fuel).
      destruct (decide (length (b :: l) <= n)%nat) as [Hle|]; [|simpl in *; lia].
      by rewrite drop_ge in Hne by done.
Qed.

(** The firewall lets an event through exactly when it is registered, may
    travel in that direction, is within its size and the caller holds its
    permission; it never answers [DenyRate]: the rule's rate is not looked at. *)
Theorem firewall_check_spec (fw : event_firewall) name d size permission :
  (check fw name d size permission = Allow <->
   exists r, rule fw name = Some r /\
     (rule_direction r = Bidirectional \/ rule_direction r = d) /\
     size <= max_size r /\
     (rule_permission r = None \/ rule_permission r = permission)) /\
  check fw name d size permission <> DenyRate.
Proof.
  split; [|unfold check; repeat case_match; done].
  unfold check, rule. destruct (fw !! name) as [r|]; [|naive_solver].
  repeat case_bool_decide; simpl; try naive_solver.
  all: destruct (max_size r <? size) eqn:Hs; bool_prop;
    [split; [done|]; intros (r' & [= <-] & _ & Hle & _); lia|].
  all: repeat case_match; simplify_eq; bool_prop; naive_solver.
Qed.

(** Fragments rejoin to the payload, there is at least one, none is longer
    than the chunk size (at least one byte), and only the last is shorter. *)
Theorem fragment_spec payload chunk :
  concat (fragment payload chunk) = payload /\ fragment payload chunk <> [] /\
  Forall (fun c => (length c <= Nat.max chunk 1)%nat) (fragment payload chunk) /\
  Forall (fun c => length c = Nat.max chunk 1) (removelast (fragment payload chunk)).
Proof.
  destruct payload as [|b l]; [split_and!; [done..| |constructor];
    by repeat constructor; simpl; lia|].
  unfold fragment, chunks.
  destruct (chunks_n_concat (length (b :: l)) (Nat.max chunk 1) (b :: l)) as (Hj & Hc & Hr);
    [lia|done|]. split_and!; [done|done| |done].
  eapply Forall_impl; [exact Hc|]. simpl. by intros c [_ ?].
Qed.
