(* ===== verification/Queue.v ===== *)
(** The admission queue (crates/ald-queue/src/lib.rs): playing slots, the
    bounded FIFO waitlist, reserved slots, promotion and expiry. Counts are
    [usize]/[nat]; times are milliseconds. *)
From S2P Require Import Prelude RustStr.

Inductive queue_error := TooManyReserved (max reserved : nat).

Record queue_config := QueueConfig {
  max_players : nat;
  reserved_slots : nat;
  max_queue_len : nat;
  stale_after_ms : Z }.

Definition queue_config_new (max reserved qlen : nat) (stale : Z) :
    result queue_config queue_error :=
  if bool_decide (max < reserved)%nat then Err (TooManyReserved max reserved)
  else Ok (QueueConfig max reserved qlen stale).

Definition open_slots (c : queue_config) : nat :=
  (max_players c - reserved_slots c)%nat.

Record join_request := JoinRequest { req_id : string; req_holds : bool }.

Inductive reject_reason := ServerFull | QueueFull | AlreadyPresent | InvalidId.

Inductive join_outcome :=
| JoinAdmitted
| Queued (position : nat)
| Rejected (reason : reject_reason).

Record queued_entry := QueuedEntry {
  entry_id : string;
  holds_reservation : bool;
  enqueued_at_ms : Z }.

Record queue := Queue {
  config : queue_config;
  playing : list queued_entry;
  waitlist : list queued_entry }.

Definition queue_new (c : queue_config) : queue := Queue c [] [].

Definition playing_count (q : queue) : nat := length (playing q).
Definition queue_len (q : queue) : nat := length (waitlist q).

Definition id_is (id : string) (e : queued_entry) : bool :=
  bool_decide (entry_id e = id).

Definition is_playing (q : queue) (id : string) : bool := existsb (id_is id) (playing q).
Definition is_queued (q : queue) (id : string) : bool := existsb (id_is id) (waitlist q).

Definition queue_position (q : queue) (id : string) : option nat :=
  S <$> position (id_is id) (waitlist q).

Definition slot_free_for (q : queue) (holds : bool) : bool :=
  if holds then bool_decide (length (playing q) < max_players (config q))%nat
  else bool_decide (length (playing q) < open_slots (config q))%nat.

Definition join (q : queue) (req : join_request) (now_ms : Z) : queue * join_outcome :=
  if is_empty (trim (req_id req)) then (q, Rejected InvalidId)
  else if is_playing q (req_id req) || is_queued q (req_id req) then
    (q, Rejected AlreadyPresent)
  else
    let e := QueuedEntry (req_id req) (req_holds req) now_ms in
    if slot_free_for q (req_holds req) then
      (Queue (config q) (playing q ++ [e]) (waitlist q), JoinAdmitted)
    else if bool_decide (length (waitlist q) < max_queue_len (config q))%nat then
      let w := waitlist q ++ [e] in
      (Queue (config q) (playing q) w, Queued (length w))
    else if bool_decide (max_queue_len (config q) = 0%nat) then
      (q, Rejected ServerFull)
    else (q, Rejected QueueFull).

Definition promote_front_fit (q : queue) : queue * option string :=
  match position (fun e => slot_free_for q (holds_reservation e)) (waitlist q) with
  | None => (q, None)
  | Some at_ =>
      match waitlist q !! at_ with
      | None => (q, None)
      | Some e =>
          (Queue (config q) (playing q ++ [e]) (delete at_ (waitlist q)),
           Some (entry_id e))
      end
  end.

Definition playing_leave (q : queue) (id : string) : queue * option string :=
  match position (id_is id) (playing q) with
  | None => (q, None)
  | Some at_ =>
      promote_front_fit (Queue (config q) (delete at_ (playing q)) (waitlist q))
  end.

Definition queue_leave (q : queue) (id : string) : queue * bool :=
  match position (id_is id) (waitlist q) with
  | Some at_ => (Queue (config q) (playing q) (delete at_ (waitlist q)), true)
  | None => (q, false)
  end.

Definition is_stale (q : queue) (now_ms : Z) (e : queued_entry) : bool :=
  stale_after_ms (config q) <? sat_sub now_ms (enqueued_at_ms e).

Definition expire_stale (q : queue) (now_ms : Z) : queue * list string :=
  if stale_after_ms (config q) =? 0 then (q, [])
  else
    (Queue (config q) (playing q)
       (List.filter (fun e => negb (is_stale q now_ms e)) (waitlist q)),
     entry_id <$> List.filter (is_stale q now_ms) (waitlist q)).

(** ** Executions *)
Inductive queue_op :=
| QJoin (req : join_request) (now_ms : Z)
| QPlayingLeave (id : string)
| QQueueLeave (id : string)
| QExpire (now_ms : Z).

Definition queue_step (q : queue) (o : queue_op) : queue :=
  match o with
  | QJoin req now => (join q req now).1
  | QPlayingLeave id => (playing_leave q id).1
  | QQueueLeave id => (queue_leave q id).1
  | QExpire now => (expire_stale q now).1
  end.

Definition non_holder (e : queued_entry) : bool := negb (holds_reservation e).

Definition queue_ids (q : queue) : list string :=
  entry_id <$> (playing q ++ waitlist q).

(** The queue invariant; the last clause says the queue conserves work: a
    waiting entry never fits a free slot. *)
Record queue_inv (q : queue) : Prop := {
  qi_slots : (length (playing q) <= max_players (config q))%nat;
  qi_reserved :
    (length (List.filter non_holder (playing q)) <= open_slots (config q))%nat;
  qi_waitlist : (length (waitlist q) <= max_queue_len (config q))%nat;
  qi_nodup : NoDup (queue_ids q);
  qi_ids : Forall (fun id => is_empty (trim id) = false) (queue_ids q);
  qi_work : Forall (fun e => slot_free_for q (holds_reservation e) = false) (waitlist q) }.

Lemma id_is_false id l :
  existsb (id_is id) l = false <-> id ∉ entry_id <$> l.
Proof.
  rewrite existsb_false_Forall, Forall_forall, list_elem_of_fmap. unfold id_is.
  split.
  - intros H (e & -> & He). specialize (H e He). by rewrite bool_decide_eq_false in H.
  - intros H e He. rewrite bool_decide_eq_false. intros <-. eauto.
Qed.

Lemma filterb_app {A} (f : A -> bool) l1 l2 :
  List.filter f (l1 ++ l2) = List.filter f l1 ++ List.filter f l2.
Proof. apply List.filter_app. Qed.

(** Seating an entry that fits keeps both slot bounds. *)
Lemma slots_push q e :
  queue_inv q -> slot_free_for q (holds_reservation e) = true ->
  (length (playing q ++ [e]) <= max_players (config q))%nat /\
  (length (List.filter non_holder (playing q ++ [e])) <= open_slots (config q))%nat.
Proof.
  intros [H1 H2 _ _ _ _] Hfree. rewrite filterb_app, !length_app. simpl.
  pose proof (length_filterb_le non_holder (playing q)).
  unfold slot_free_for, non_holder in *. unfold open_slots in *.
  destruct (holds_reservation e); apply bool_decide_eq_true in Hfree; simpl; lia.
Qed.

(** Seating an entry frees no slot for anyone. *)
Lemma slot_free_push q e h w :
  slot_free_for q h = false ->
  slot_free_for (Queue (config q) (playing q ++ [e]) w) h = false.
Proof.
  unfold slot_free_for; simpl. rewrite length_app; simpl.
  destruct h; rewrite !bool_decide_eq_false; lia.
Qed.

Lemma slot_free_mono q p w h :
  (length (playing q) <= length p)%nat ->
  slot_free_for q h = false -> slot_free_for (Queue (config q) p w) h = false.
Proof.
  intros Hlen. unfold slot_free_for; simpl.
  destruct h; rewrite !bool_decide_eq_false; lia.
Qed.

Lemma join_inv q req now : queue_inv q -> queue_inv (join q req now).1.
Proof.
  intros Hq. unfold join.
  destruct (is_empty _) eqn:Hid; [done|].
  destruct (_ || _) eqn:Hpres; [done|].
  apply orb_false_iff in Hpres as [Hp Hw].
  apply id_is_false in Hp. apply id_is_false in Hw.
  set (e := QueuedEntry _ _ _).
  destruct (slot_free_for q _) eqn:Hfree; simpl.
  - pose proof (slots_push q e Hq Hfree) as [Hs1 Hs2].
    destruct Hq as [_ _ Hwl Hnd Hids Hwork]. unfold queue_ids in *.
    rewrite fmap_app in *. split; simpl; try done.
    + unfold queue_ids; simpl. rewrite !fmap_app. simpl.
      rewrite <- (assoc_L (++)). rewrite NoDup_app in *. simpl.
      rewrite NoDup_cons. set_solver.
    + unfold queue_ids; simpl. rewrite !fmap_app, !Forall_app in *. simpl.
      rewrite Forall_singleton. naive_solver.
    + eapply Forall_impl; [exact Hwork|]. intros. by apply slot_free_push.
  - case_bool_decide as Hlen; simpl; [|by case_bool_decide].
    destruct Hq as [Hs1 Hs2 Hwl Hnd Hids Hwork]. unfold queue_ids in *.
    rewrite fmap_app in *. split; simpl; try done.
    + rewrite length_app; simpl; lia.
    + unfold queue_ids; simpl. rewrite !fmap_app, (assoc_L (++)). simpl.
      rewrite NoDup_app in *. split_and!; [by apply NoDup_app| |by apply NoDup_singleton].
      set_solver.
    + unfold queue_ids; simpl. rewrite !fmap_app, !Forall_app in *. simpl.
      rewrite Forall_singleton. naive_solver.
    + rewrite Forall_app, Forall_singleton. split; [exact Hwork|done].
Qed.

(** Shrinking the waitlist keeps the invariant. *)
Lemma shrink_waitlist_inv q w :
  queue_inv q -> w `sublist_of` waitlist q ->
  queue_inv (Queue (config q) (playing q) w).
Proof.
  intros [Hs1 Hs2 Hwl Hnd Hids Hwork] Hsub.
  assert (Hall : queue_ids (Queue (config q) (playing q) w) `sublist_of` queue_ids q).
  { unfold queue_ids; simpl. apply fmap_sublist. by apply sublist_app. }
  split; simpl; try done.
  - apply sublist_length in Hsub. lia.
  - by eapply sublist_NoDup.
  - by eapply Forall_sublist.
  - eapply Forall_sublist; [exact Hsub|exact Hwork].
Qed.

(** Unseating a player keeps every clause but work conservation. *)
Lemma unseat_bounds q i :
  queue_inv q ->
  (length (delete i (playing q)) <= max_players (config q))%nat /\
  (length (List.filter non_holder (delete i (playing q))) <= open_slots (config q))%nat /\
  queue_ids (Queue (config q) (delete i (playing q)) (waitlist q)) `sublist_of` queue_ids q.
Proof.
  intros [Hs1 Hs2 _ _ _ _]. pose proof (sublist_delete (playing q) i) as Hsub.
  split_and!.
  - apply sublist_length in Hsub. lia.
  - etrans; [|exact Hs2]. by apply filterb_length_sublist.
  - unfold queue_ids; simpl. apply fmap_sublist. by apply sublist_app.
Qed.

Lemma queue_ids_promote c p w i e :
  w !! i = Some e ->
  queue_ids (Queue c (p ++ [e]) (delete i w)) ≡ₚ queue_ids (Queue c p w).
Proof.
  intros Hi. unfold queue_ids; simpl. apply fmap_Permutation.
  rewrite <- (assoc_L (++)). simpl. by rewrite <- delete_Permutation_cons.
Qed.

Lemma playing_leave_inv q id : queue_inv q -> queue_inv (playing_leave q id).1.
Proof.
  intros Hq. unfold playing_leave. destruct (position _ _) as [i|] eqn:Hi; [|done].
  apply position_Some in Hi as (x & Hx & _ & _).
  pose proof (unseat_bounds q i Hq) as (Hb1 & Hb2 & Hids).
  pose proof (length_delete (playing q) i ltac:(eauto)) as Hlen.
  apply lookup_lt_Some in Hx.
  set (q1 := Queue _ (delete i (playing q)) _) in *.
  destruct Hq as [Hs1 Hs2 Hwl Hnd Hid Hwork].
  assert (Hnd1 : NoDup (queue_ids q1)) by by eapply sublist_NoDup.
  assert (Hid1 : Forall (fun id => is_empty (trim id) = false) (queue_ids q1))
    by by eapply Forall_sublist.
  unfold promote_front_fit. destruct (position _ _) as [j|] eqn:Hj.
  - apply position_Some in Hj as (e & He & Hfree & _). simpl in He. simpl.
    rewrite He. simpl.
    pose proof (queue_ids_promote (config q) (delete i (playing q)) _ _ _ He) as Hperm.
    split; simpl.
    + rewrite length_app; simpl; lia.
    + unfold slot_free_for in Hfree. rewrite filterb_app, length_app. simpl.
      pose proof (length_filterb_le non_holder (delete i (playing q))).
      unfold non_holder in *. destruct (holds_reservation e); simpl in *;
        apply bool_decide_eq_true in Hfree; simpl in *; lia.
    + pose proof (sublist_length _ _ (sublist_delete (waitlist q) j)). lia.
    + by rewrite Hperm.
    + by rewrite Hperm.
    + eapply Forall_sublist; [apply sublist_delete|].
      eapply Forall_impl; [exact Hwork|]. intros e' He'.
      apply slot_free_mono; [|done]. rewrite length_app; simpl. lia.
  - apply position_None in Hj. simpl. by split.
Qed.

Lemma queue_step_inv q o : queue_inv q -> queue_inv (queue_step q o).
Proof.
  destruct o; simpl; intros Hq.
  - by apply join_inv.
  - by apply playing_leave_inv.
  - unfold queue_leave. destruct (position _ _); simpl; [|done].
    apply shrink_waitlist_inv; [done|apply sublist_delete].
  - unfold expire_stale. case_match; simpl; [done|].
    apply shrink_waitlist_inv; [done|apply filterb_sublist].
Qed.

Lemma queue_inv_new c : queue_inv (queue_new c).
Proof. split; simpl; try lia; constructor. Qed.

(** C2: in every state the queue can reach, playing slots and the waitlist
    stay within their bounds, players without a reservation never take more
    than the open slots, no id is present twice or blank, and no waiting
    player fits a free slot. *)
Theorem queue_invariant (c : queue_config) (ops : list queue_op) :
  queue_inv (run queue_step (queue_new c) ops).
Proof. apply run_invariant; [apply queue_step_inv|apply queue_inv_new]. Qed.

Lemma waitlist_unique q i e id :
  queue_inv q -> waitlist q !! i = Some e -> entry_id e = id ->
  forall j y, waitlist q !! j = Some y -> id_is id y = true -> j = i.
Proof.
  intros Hq He Hid j y Hy Hyid%bool_decide_eq_true.
  pose proof (qi_nodup q Hq) as Hnd. unfold queue_ids in Hnd. rewrite fmap_app in Hnd.
  apply NoDup_app in Hnd as (_ & _ & Hnd).
  eapply (proj1 (NoDup_alt (entry_id <$> waitlist q)) Hnd j i id);
    rewrite list_lookup_fmap; [rewrite Hy|rewrite He]; simpl; congruence.
Qed.

Lemma promote_cases q :
  promote_front_fit q = (q, None) \/
  exists j e, waitlist q !! j = Some e /\
    promote_front_fit q =
      (Queue (config q) (playing q ++ [e]) (delete j (waitlist q)), Some (entry_id e)).
Proof.
  unfold promote_front_fit. destruct (position _ _) as [j|]; [|by left].
  destruct (waitlist q !! j) as [e|] eqn:He; [right|by left]. eauto.
Qed.

Lemma join_waitlist q req now :
  waitlist (join q req now).1 = waitlist q \/
  exists e, waitlist (join q req now).1 = waitlist q ++ [e].
Proof. unfold join. repeat (case_match; simpl; eauto). Qed.

(** A waiting player is never overtaken: after any operation other than
    its own departure or expiry, it is playing or still waiting at a position
    no larger than before. *)
Theorem queue_no_overtaking (c : queue_config) (ops : list queue_op) (o : queue_op)
    (id : string) (n : nat) :
  let q := run queue_step (queue_new c) ops in
  let q' := queue_step q o in
  queue_position q id = Some n ->
  o <> QQueueLeave id ->
  (forall now, o = QExpire now -> id ∉ (expire_stale q now).2) ->
  is_playing q' id = true \/
  exists n', queue_position q' id = Some n' /\ (n' <= n)%nat.
Proof.
  intros q q' Hpos Hleave Hexp.
  assert (Hinv : queue_inv q) by (apply run_invariant;
    [apply queue_step_inv|apply queue_inv_new]).
  unfold queue_position in Hpos. apply fmap_Some in Hpos as (i & Hi & ->).
  pose proof Hi as (e & He & Heid & _)%position_Some.
  apply bool_decide_eq_true in Heid.
  assert (Hkeep : forall w, w `sublist_of` waitlist q -> e ∈ w ->
    exists n', S <$> position (id_is id) w = Some n' /\ (n' <= S i)%nat).
  { intros w Hw Hew. destruct (position_sublist (id_is id) w _ i Hw) as (n' & Hn & Hle).
    - by eapply waitlist_unique.
    - done.
    - apply existsb_elem. exists e. split; [done|]. by apply bool_decide_eq_true.
    - exists (S n'). rewrite Hn. split; [done|lia]. }
  subst q'. unfold queue_position. destruct o as [req now|id'|id'|now]; simpl.
  - right. exists (S i). split; [|done].
    destruct (join_waitlist q req now) as [->|[e' ->]]; [by rewrite Hi|].
    by erewrite position_app.
  - unfold playing_leave. destruct (position (id_is id') _); [|right; by apply Hkeep; eauto using list_elem_of_lookup_2].
    set (q1 := Queue _ _ _).
    destruct (promote_cases q1) as [->|(j & e' & He' & ->)]; simpl in *;
      [right; apply Hkeep; eauto using list_elem_of_lookup_2|].
    destruct (decide (j = i)) as [->|Hne]; [left|right].
    + apply existsb_elem. exists e'.
      split; [simpl; apply elem_of_app; right; by apply list_elem_of_singleton|].
      apply bool_decide_eq_true. congruence.
    + apply Hkeep; [apply sublist_delete|by eapply elem_of_delete].
  - right. unfold queue_leave. destruct (position (id_is id') _) as [j|] eqn:Hj; simpl.
    + apply Hkeep; [apply sublist_delete|]. eapply elem_of_delete; [done|]. intros ->.
      apply position_Some in Hj as (e' & He' & Hid' & _).
      apply bool_decide_eq_true in Hid'. congruence.
    + apply Hkeep; eauto using list_elem_of_lookup_2.
  - right. specialize (Hexp now eq_refl). unfold expire_stale in *.
    case_match; simpl in *; [apply Hkeep; eauto using list_elem_of_lookup_2|].
    apply Hkeep; [apply filterb_sublist|]. apply elem_of_filterb.
    split; [by eapply list_elem_of_lookup_2|]. apply negb_true_iff, not_true_is_false.
    intros Hst. apply Hexp. apply list_elem_of_fmap. exists e. split; [done|].
    apply elem_of_filterb. split; [by eapply list_elem_of_lookup_2|done].
Qed.

Lemma queue_no_overtaking_witness :
  let c := QueueConfig 2 1 8 0 in
  let ops := [QJoin (JoinRequest "a" false) 0; QJoin (JoinRequest "b" false) 1;
              QJoin (JoinRequest "c" false) 2; QJoin (JoinRequest "vip" true) 3] in
  let q := run queue_step (queue_new c) ops in
  queue_position q "c" = Some 2%nat /\
  (is_playing (queue_step q (QPlayingLeave "a")) "c" = true \/
   exists n', queue_position (queue_step q (QPlayingLeave "a")) "c" = Some n' /\
     (n' <= 2)%nat).
Proof.
  intros c ops q. split; [vm_compute; reflexivity|].
  apply (queue_no_overtaking c ops (QPlayingLeave "a") "c" 2).
  - vm_compute; reflexivity.
  - discriminate.
  - discriminate.
Defined.

(** ** Interface

    What the queue promises to the admission manager. *)
Class join_queue (Q : Type) := {
  jq_join : Q -> join_request -> Z -> Q * join_outcome;
  jq_playing_leave : Q -> string -> Q * option string;
  jq_queue_leave : Q -> string -> Q * bool;
  jq_queue_len : Q -> nat;
  jq_playing : Q -> string -> bool;
  jq_queued : Q -> string -> bool }.

Class join_queue_laws (Q : Type) `{join_queue Q} := {
  jq_inv : Q -> Prop;
  jq_join_inv q r t : jq_inv q -> jq_inv (jq_join q r t).1;
  jq_playing_leave_inv q id : jq_inv q -> jq_inv (jq_playing_leave q id).1;
  jq_queue_leave_inv q id : jq_inv q -> jq_inv (jq_queue_leave q id).1;
  jq_admitted q r t q' :
    jq_join q r t = (q', JoinAdmitted) -> jq_playing q' (req_id r) = true;
  jq_invalid q r t :
    is_empty (trim (req_id r)) = true -> jq_join q r t = (q, Rejected InvalidId);
  jq_present q r t :
    is_empty (trim (req_id r)) = false ->
    jq_playing q (req_id r) = true \/ jq_queued q (req_id r) = true ->
    jq_join q r t = (q, Rejected AlreadyPresent) }.

#[global] Instance queue_join_queue : join_queue queue := {|
  jq_join := join;
  jq_playing_leave := playing_leave;
  jq_queue_leave := queue_leave;
  jq_queue_len := queue_len;
  jq_playing := is_playing;
  jq_queued := is_queued |}.

Lemma join_admitted q r t q' :
  join q r t = (q', JoinAdmitted) -> is_playing q' (req_id r) = true.
Proof.
  unfold join. intros H. repeat (case_match; simplify_eq).
  apply existsb_elem. eexists. split.
  - simpl. apply elem_of_app. right. apply list_elem_of_singleton. reflexivity.
  - by apply bool_decide_eq_true.
Qed.

#[global] Program Instance queue_join_queue_laws : join_queue_laws queue := {|
  jq_inv := queue_inv;
  jq_join_inv := join_inv;
  jq_playing_leave_inv := playing_leave_inv;
  jq_queue_leave_inv := fun q id => queue_step_inv q (QQueueLeave id);
  jq_admitted := join_admitted |}.
Next Obligation. simpl. intros q r t H. unfold join. by rewrite H. Qed.
Next Obligation.
  simpl. intros q r t H [Hp|Hq]; unfold join; rewrite H; [by rewrite Hp|].
  by rewrite Hq, orb_true_r.
Qed.
