(* ===== verification/Deferrals.v ===== *)
(** Pre-join deferrals (crates/ald-deferrals/src/lib.rs): the ordered gates a
    connecting player passes, the poll watchdog and the bounded messages.
    A gate is a stateful callback; [St] is whatever state the gates' closures
    share, so the gates may do anything between and during polls. *)
From S2P Require Import Prelude RustStr.

Definition TIMEOUT_CODE : string := "ALD-QUEUE-TIMEOUT".
Definition DEFAULT_WAIT_MESSAGE : string := "Connecting…".
Definition MAX_MESSAGE_LEN : nat := 256.

Record deferral_context := DeferralContext {
  player_id : string; remote_ip : string; ctx_queue_position : option nat }.

Inductive gate_decision :=
| Pass
| Wait (message : string)
| Deny (code reason : string).

(** The [DeferralGate] trait: a name and a [check] that may change the
    closures' state. *)
Record deferral_gate (St : Type) := DeferralGate {
  gate_name : string;
  gate_check : deferral_context -> St -> gate_decision * St }.
Arguments DeferralGate {St}.
Arguments gate_name {St}.
Arguments gate_check {St}.

(** [FnGate::new(name, f)] *)
Definition fn_gate {St} (name : string)
    (f : deferral_context -> St -> gate_decision * St) : deferral_gate St :=
  DeferralGate name f.

Inductive session_outcome :=
| Admit
| Denied (code reason gate : string)
| Waiting (message gate : string).

Record deferral_session (St : Type) := DeferralSession {
  gates : list (deferral_gate St);
  current : nat;
  polls : Z;
  max_polls : Z }.
Arguments DeferralSession {St}.
Arguments gates {St}.
Arguments current {St}.
Arguments polls {St}.
Arguments max_polls {St}.

Definition session_new {St} (gs : list (deferral_gate St)) (max : Z) :
    deferral_session St :=
  DeferralSession gs 0 0 (Z.max max 1).

(** The [while !base.is_char_boundary(end) { end -= 1 }] loop. *)
Fixpoint floor_char_boundary (l : list Z) (n : nat) : nat :=
  if is_char_boundary l n then n
  else match n with O => O | S n' => floor_char_boundary l n' end.

Definition bound_message (raw : string) : string :=
  let trimmed := trim raw in
  let base := if is_empty trimmed then DEFAULT_WAIT_MESSAGE else trimmed in
  if bool_decide (String.length base <= MAX_MESSAGE_LEN)%nat then base
  else of_codes (take (floor_char_boundary (codes base) MAX_MESSAGE_LEN) (codes base)).

(** The [while self.current < self.gates.len()] loop over the gates that are
    left; returns the new [current], the outcome and the gates' state. *)
Fixpoint drive {St} (rest : list (deferral_gate St)) (cur : nat)
    (ctx : deferral_context) (st : St) : nat * session_outcome * St :=
  match rest with
  | [] => (cur, Admit, st)
  | g :: rest' =>
      match gate_check g ctx st with
      | (Pass, st') => drive rest' (S cur) ctx st'
      | (Wait m, st') => (cur, Waiting (bound_message m) (gate_name g), st')
      | (Deny c r, st') => (cur, Denied c (bound_message r) (gate_name g), st')
      end
  end.

Definition poll {St} (s : deferral_session St) (ctx : deferral_context) (st : St) :
    deferral_session St * session_outcome * St :=
  let p := wrap 64 (polls s + 1) in
  if max_polls s <? p then
    (DeferralSession (gates s) (current s) p (max_polls s),
     Denied TIMEOUT_CODE "Connection timed out during pre-join checks."
       (default ""%string (gate_name <$> gates s !! current s)),
     st)
  else
    let '(cur, out, st') := drive (drop (current s) (gates s)) (current s) ctx st in
    (DeferralSession (gates s) cur p (max_polls s), out, st').

Definition polls_used {St} (s : deferral_session St) : Z := polls s.
Definition gates_passed {St} (s : deferral_session St) : nat := current s.
Definition gate_count {St} (s : deferral_session St) : nat := length (gates s).

(** ** Specification *)
Section spec.
Context {St : Type}.

(** [all_pass gs ctx st st']: run in order from [st], the gates [gs] all
    answer [Pass] and leave [st']. *)
Inductive all_pass (ctx : deferral_context) :
    list (deferral_gate St) -> St -> St -> Prop :=
| all_pass_nil st : all_pass ctx [] st st
| all_pass_cons g gs st st1 st2 :
    gate_check g ctx st = (Pass, st1) -> all_pass ctx gs st1 st2 ->
    all_pass ctx (g :: gs) st st2.

Lemma drive_spec rest cur ctx (st : St) cur' out st' :
  drive rest cur ctx st = (cur', out, st') ->
  exists passed st1, rest = passed ++ drop (length passed) rest /\
    cur' = (cur + length passed)%nat /\ all_pass ctx passed st st1 /\
    match drop (length passed) rest with
    | [] => out = Admit /\ st' = st1
    | g :: _ =>
        (exists m, gate_check g ctx st1 = (Wait m, st') /\
           out = Waiting (bound_message m) (gate_name g)) \/
        (exists c r, gate_check g ctx st1 = (Deny c r, st') /\
           out = Denied c (bound_message r) (gate_name g))
    end.
Proof.
  revert cur st. induction rest as [|g rest IH]; intros cur st; simpl.
  - intros [= <- <- <-]. exists [], st. split_and!; [done|simpl; lia|constructor|done].
  - destruct (gate_check g ctx st) as [[|m|c r] st1] eqn:Hg.
    + intros (passed & st2 & Heq & -> & Hall & Hend)%IH.
      exists (g :: passed), st2. simpl. split_and!; [by f_equal|lia| |done].
      by econstructor.
    + intros [= <- <- <-]. exists [], st. simpl. split_and!; [done|lia|constructor|].
      left. eauto.
    + intros [= <- <- <-]. exists [], st. simpl. split_and!; [done|lia|constructor|].
      right. eauto.
Qed.

Lemma drive_total rest cur ctx (st : St) :
  exists cur' out st', drive rest cur ctx st = (cur', out, st').
Proof. destruct (drive rest cur ctx st) as [[cur' out] st']. eauto. Qed.
End spec.

(** A poll runs the gates in order from where the session stopped: it
    passes a (possibly empty) run of gates, never re-running an earlier one,
    and ends in [Admit] exactly when no gate is left, otherwise in the bounded
    message of the first gate that waits or denies. Past [max_polls] no gate
    runs: the watchdog denies and neither the gates' state nor the progress
    changes. *)
Theorem poll_spec {St} (s : deferral_session St) ctx (st : St) s' out st' :
  fits 64 (polls s + 1) -> (current s <= gate_count s)%nat ->
  poll s ctx st = (s', out, st') ->
  gates s' = gates s /\ max_polls s' = max_polls s /\ polls s' = polls s + 1 /\
  (current s <= current s' <= gate_count s')%nat /\
  if max_polls s <? polls s + 1 then
    st' = st /\ current s' = current s /\
    exists reason gate, out = Denied TIMEOUT_CODE reason gate
  else
    exists st1,
    all_pass ctx (take (current s' - current s) (drop (current s) (gates s))) st st1 /\
    match gates s !! current s' with
    | None => out = Admit /\ st' = st1
    | Some g =>
        (exists m, gate_check g ctx st1 = (Wait m, st') /\
           out = Waiting (bound_message m) (gate_name g)) \/
        (exists c r, gate_check g ctx st1 = (Deny c r, st') /\
           out = Denied c (bound_message r) (gate_name g))
    end.
Proof.
  intros Hp Hcur. unfold poll, gate_count in *. rewrite wrap_small by done.
  destruct (_ <? _) eqn:Hmax; [intros [= <- <- <-]; simpl; split_and!; eauto|].
  destruct (drive _ _ _ _) as [[cur' o'] st2] eqn:Hd. intros [= <- <- <-]. simpl.
  apply drive_spec in Hd as (passed & st1 & Hrest & -> & Hall & Hend).
  pose proof (f_equal length Hrest) as Hlen.
  rewrite length_app, !length_drop in Hlen.
  assert (Hpl : (length passed <= length (gates s) - current s)%nat).
  { apply (f_equal (take (length passed))) in Hrest.
    rewrite take_app_length in Hrest. apply (f_equal length) in Hrest.
    rewrite length_take, length_drop in Hrest. lia. }
  split_and!; try done; try lia.
  exists st1. split.
  - replace (current s + length passed - current s)%nat with (length passed) by lia.
    rewrite Hrest, take_app_length. done.
  - assert (Hnext : gates s !! (current s + length passed)%nat =
      drop (length passed) (drop (current s) (gates s)) !! 0%nat).
    { rewrite !lookup_drop. f_equal. lia. }
    rewrite Hnext. by destruct (drop (length passed) _).
Qed.

Definition demo_gate : deferral_gate nat :=
  fn_gate "ban-check" (fun _ n =>
    match n with O => (Wait "checking", 1%nat) | _ => (Pass, n) end).

Lemma poll_spec_witness :
  let s := session_new [demo_gate; demo_gate] 2 in
  let ctx := DeferralContext "p" "10.0.0.1" None in
  exists s' st', poll s ctx 0%nat = (s', Waiting "checking" "ban-check", st') /\
    polls s' = 1.
Proof.
  intros s ctx. do 2 eexists. split; [vm_compute; reflexivity|].
  pose proof (poll_spec s ctx 0%nat _ _ _ ltac:(by_decide) ltac:(simpl; lia) eq_refl) as H.
  apply H.
Defined.

(** ** Bounded messages *)
Lemma is_char_boundary_0 l : is_char_boundary l 0 = true.
Proof. unfold is_char_boundary. by destruct l. Qed.

Lemma floor_char_boundary_spec l n :
  (floor_char_boundary l n <= n)%nat /\
  is_char_boundary l (floor_char_boundary l n) = true /\
  forall j, (j <= n)%nat -> is_char_boundary l j = true ->
    (j <= floor_char_boundary l n)%nat.
Proof.
  induction n as [|n (IH1 & IH2 & IH3)]; simpl.
  - rewrite is_char_boundary_0. split_and!; [done|apply is_char_boundary_0|lia].
  - destruct (is_char_boundary l (S n)) eqn:Hb; [done|]. split_and!; [lia|done|].
    intros j Hj Hjb. apply IH3; [|done].
    destruct (decide (j = S n)) as [->|]; [congruence|lia].
Qed.

(** One step of UTF-8 decoding: the character is its lead byte and
    continuation bytes. *)
Lemma utf8_step_char l r :
  utf8_step l = Some r ->
  exists b0 cs, l = b0 :: cs ++ r /\
    Forall (fun b => (128 <=? b) && (b <? 192) = true) cs /\
    (length cs <= 3)%nat /\ (128 <=? b0) && (b0 <? 192) = false /\
    forall r', utf8_step (b0 :: cs ++ r') = Some r'.
Proof.
  unfold utf8_step, is_cont. intros H.
  assert (Hc : forall b lo hi, 128 <= lo -> hi <= 191 ->
    (lo <=? b) && (b <=? hi) = true -> (128 <=? b) && (b <? 192) = true).
  { intros b lo hi ? ? ?. bool_prop. apply andb_true_iff. lia. }
  destruct l as [|b0 l]; [done|].
  assert (Hlead : (b0 <= 127 \/ 192 <= b0) -> (128 <=? b0) && (b0 <? 192) = false).
  { intros. apply andb_false_iff. rewrite Z.leb_gt, Z.ltb_ge. lia. }
  destruct ((0 <=? b0) && (b0 <=? 127)) eqn:H1; [simplify_eq|].
  { exists b0, []. split_and!; [done|constructor|simpl; lia|bool_prop; apply Hlead; lia|].
    intros. by rewrite H1. }
  destruct ((194 <=? b0) && (b0 <=? 223)) eqn:H2.
  { destruct l as [|b1 l]; [done|]. split_if H Hb1; simplify_eq.
    exists b0, [b1]. split_and!; [done| |simpl; lia|bool_prop; apply Hlead; lia|].
    - repeat constructor. by apply (Hc _ 128 191).
    - intros. simpl. by rewrite H1, H2, Hb1. }
  destruct ((224 <=? b0) && (b0 <=? 239)) eqn:H3.
  { destruct l as [|b1 [|b2 l]]; [done..|]. split_if H Hb; simplify_eq.
    exists b0, [b1; b2]. split_and!; [done| |simpl; lia|bool_prop; apply Hlead; lia|].
    - apply andb_true_iff in Hb as [Hb Hb2].
      repeat apply Forall_cons_2; [|by apply (Hc _ 128 191)|constructor].
      clear -Hb Hc. destruct (b0 =? 224), (b0 =? 237);
        eapply Hc; try exact Hb; lia.
    - intros. simpl. by rewrite H1, H2, H3, Hb. }
  destruct ((240 <=? b0) && (b0 <=? 244)) eqn:H4; [|done].
  destruct l as [|b1 [|b2 [|b3 l]]]; [done..|]. split_if H Hb; simplify_eq.
  exists b0, [b1; b2; b3]. split_and!; [done| |simpl; lia|bool_prop; apply Hlead; lia|].
  - apply andb_true_iff in Hb as [Hb Hb3]. apply andb_true_iff in Hb as [Hb Hb2].
    repeat apply Forall_cons_2; [|by apply (Hc _ 128 191)..|constructor].
    clear -Hb Hc. destruct (b0 =? 240), (b0 =? 244); eapply Hc; try exact Hb; lia.
  - intros. simpl. by rewrite H1, H2, H3, H4, Hb.
Qed.

Lemma utf8_valid_n_step n l :
  l <> [] -> utf8_valid_n (S n) l =
  match utf8_step l with Some r => utf8_valid_n n r | None => false end.
Proof. by destruct l. Qed.

Lemma utf8_valid_n_mono n m l :
  (n <= m)%nat -> utf8_valid_n n l = true -> utf8_valid_n m l = true.
Proof.
  revert m l. induction n as [|n IH]; intros m l Hle Hv.
  - destruct l; [by destruct m|done].
  - destruct m as [|m]; [lia|]. destruct (decide (l = [])) as [->|Hl]; [done|].
    rewrite utf8_valid_n_step in Hv |- * by done.
    destruct (utf8_step l); [|done]. apply IH; [lia|done].
Qed.

(** Cutting a valid sequence at a character boundary leaves a valid one. *)
Lemma utf8_take_boundary n l i :
  utf8_valid_n n l = true -> is_char_boundary l i = true ->
  utf8_valid (take i l) = true.
Proof.
  assert (Hmain : forall n l i, utf8_valid_n n l = true ->
    is_char_boundary l i = true -> utf8_valid_n n (take i l) = true).
  { clear n l i. induction n as [|n IH]; intros l i Hv Hb.
    - destruct l; [|done]. by rewrite take_nil.
    - destruct (decide (l = [])) as [->|Hl]; [by rewrite take_nil|].
      rewrite utf8_valid_n_step in Hv by done.
      destruct (utf8_step l) as [r|] eqn:Hstep; [|done].
      apply utf8_step_char in Hstep as (b0 & cs & -> & Hcs & _ & _ & Hany).
      destruct i as [|i]; [done|]. simpl take.
      destruct (decide (i < length cs)%nat) as [Hi|Hi].
      + exfalso. apply lookup_lt_is_Some in Hi as [c Hc].
        pose proof (proj1 (Forall_lookup _ _) Hcs i c Hc) as Hcc. simpl in Hcc.
        unfold is_char_boundary in Hb. simpl in Hb.
        rewrite (lookup_app_l_Some cs r i c Hc) in Hb.
        rewrite Hcc in Hb. done.
      + rewrite take_app_ge by lia. rewrite utf8_valid_n_step, Hany by done.
        apply IH; [done|]. unfold is_char_boundary in *. simpl in Hb.
        rewrite lookup_app_r in Hb by lia. rewrite length_app in Hb.
        destruct (r !! (i - length cs)%nat) as [b|].
        * simpl in Hb. rewrite Hb. apply orb_true_r.
        * apply bool_decide_eq_true in Hb. apply bool_decide_eq_true. lia. }
  intros Hv Hb. unfold utf8_valid.
  assert (Hlen : utf8_valid_n n (take i l) = true) by by apply Hmain.
  clear -Hlen. revert Hlen. generalize (take i l). clear. intros l.
  revert l. induction n as [|n IH]; intros l Hv; [by destruct l|].
  destruct (decide (l = [])) as [->|Hl]; [done|].
  rewrite utf8_valid_n_step in Hv by done.
  destruct (utf8_step l) as [r|] eqn:Hstep; [|done]. pose proof Hstep as Hstep'.
  apply utf8_step_char in Hstep' as (b0 & cs & -> & _).
  simpl length. rewrite utf8_valid_n_step, Hstep by done.
  eapply utf8_valid_n_mono; [|by apply IH]. rewrite length_app. lia.
Qed.

(** The end of the first character is a boundary at most four bytes in. *)
Lemma first_boundary l :
  utf8_valid l = true -> l <> [] ->
  exists j, (0 < j <= 4)%nat /\ is_char_boundary l j = true.
Proof.
  unfold utf8_valid. intros Hv Hl. destruct (length l) as [|n] eqn:Hlen;
    [by destruct l|].
  rewrite utf8_valid_n_step in Hv by done.
  destruct (utf8_step l) as [r|] eqn:Hstep; [|done].
  apply utf8_step_char in Hstep as (b0 & cs & -> & _ & Hcs & _ & _).
  exists (S (length cs)). split; [lia|]. unfold is_char_boundary. simpl.
  rewrite lookup_app_r, Nat.sub_diag by lia. destruct r as [|c r]; simpl.
  - apply bool_decide_eq_true. rewrite app_nil_r. done.
  - destruct n as [|n]; [done|]. rewrite utf8_valid_n_step in Hv by done.
    destruct (utf8_step (c :: r)) as [r'|] eqn:Hstep; [|done].
    apply utf8_step_char in Hstep as (c0 & ? & [= <- _] & _ & _ & Hc0 & _).
    by rewrite Hc0.
Qed.

(** A player-facing message is never blank, never longer than
    [MAX_MESSAGE_LEN] bytes, is a prefix of the trimmed text (or of the
    default), and is well-formed UTF-8 whenever the trimmed text is: the cut
    never splits a character. *)
Theorem bound_message_spec (raw : string) :
  utf8_valid (codes (trim raw)) = true ->
  let base := if is_empty (trim raw) then DEFAULT_WAIT_MESSAGE else trim raw in
  bound_message raw <> ""%string /\
  (String.length (bound_message raw) <= MAX_MESSAGE_LEN)%nat /\
  codes (bound_message raw) `prefix_of` codes base /\
  utf8_valid (codes (bound_message raw)) = true.
Proof.
  intros Hv base.
  assert (Hbase : utf8_valid (codes base) = true /\ base <> ""%string).
  { subst base. destruct (is_empty (trim raw)) eqn:He; [by split|].
    split; [done|]. intros H0. rewrite H0 in He. done. }
  destruct Hbase as [Hbv Hne]. unfold bound_message. fold base.
  case_bool_decide as Hlen; [done|].
  destruct (floor_char_boundary_spec (codes base) MAX_MESSAGE_LEN) as (Hle & Hb & Hmax).
  set (k := floor_char_boundary _ _) in *.
  assert (Hcut : codes (of_codes (take k (codes base))) = take k (codes base)).
  { apply codes_of_codes, Forall_take, Forall_forall. apply codes_range. }
  pose proof (first_boundary (codes base) Hbv) as (j & Hj & Hjb).
  { intros H0. apply Hne. by apply codes_inj. }
  assert (Hk : (j <= k)%nat) by (apply Hmax; [unfold MAX_MESSAGE_LEN|]; lia || done).
  split_and!.
  - intros H0. apply (f_equal String.length) in H0.
    rewrite length_of_codes, length_take, length_codes in H0. simpl in H0. lia.
  - rewrite length_of_codes, length_take. lia.
  - rewrite Hcut. apply prefix_take.
  - rewrite Hcut. by eapply utf8_take_boundary.
Qed.

Lemma bound_message_spec_witness :
  utf8_valid (codes (trim "  banned  ")) = true /\
  bound_message "  banned  " = "banned"%string /\
  bound_message "  banned  " <> ""%string.
Proof.
  split_and!; [vm_compute; reflexivity..|].
  apply (bound_message_spec "  banned  "). vm_compute; reflexivity.
Defined.
