(* ===== verification/Handshake.v ===== *)
(** The handshake vocabulary shared by client and server
    (crates/ald-protocol/src/handshake.rs): states, wire messages, tags and
    reject codes. The JSON encoding of the messages is serde_json's. *)
From S2P Require Import Prelude.

Definition REJECT_PROTOCOL : string := "ALD-PROTO-001".
Definition REJECT_AUTH : string := "ALD-AUTH-001".
Definition REJECT_IDENTITY : string := "ALD-IDENTITY-001".
Definition REJECT_ENTITLEMENT : string := "ALD-ENT-001".
Definition REJECT_SERVER_FULL : string := "ALD-QUEUE-001".
Definition REJECT_DEFERRAL : string := "ALD-QUEUE-002".

(** [PROTOCOL_VERSION] of crates/ald-protocol/src/lib.rs. *)
Definition PROTOCOL_VERSION : Z := 1.

Inductive handshake_state :=
| Idle | WaitingHello | WaitingAuth | WaitingIdentity | WaitingEntitlement
| WaitingDeferrals | WaitingQueue | WaitingManifest | Ready | StRejected | Failed.

#[global] Instance handshake_state_eq_dec : EqDecision handshake_state.
Proof. solve_decision. Defined.

Definition is_terminal (s : handshake_state) : bool :=
  match s with Ready | StRejected | Failed => true | _ => false end.

Record resource_entry := ResourceEntry {
  entry_name : string; entry_hash : string; entry_size : Z }.

Inductive handshake_message :=
| ClientHello (protocol_version build : Z) (edition client_version : string)
| ServerHello (protocol_version session_id : Z) (server_name : string)
    (max_players : Z) (features : list string)
| AuthChallenge (nonce : string)
| ClientAuth (aldivine_id : string) (token platform challenge_response : option string)
| AuthResult (accepted : bool) (message : string)
| IdentityRequest
| IdentityResponse (aldivine_id : string) (platform_id : option string)
    (entitlement : string) (device_id : option string)
| EntitlementRequest
| EntitlementResult (state message : string)
| DeferralUpdate (message : string)
| DeferralDone
| QueueUpdate (position total_queued : nat)
| QueueAdmitted
| ManifestOffer (resources : list resource_entry)
| ClientReady
| ServerReady (world_join : bool)
| Reject (code reason : string).
