(* ===== verification/Identity.v ===== *)
(** The login pipeline's policy stage (crates/ald-identity/src: lib.rs,
    aggregation.rs, pipeline.rs): aggregated identities, the server's
    identity requirements and the decision between them. *)
From S2P Require Import Prelude RustStr.

Inductive entitlement := Verified | NotOwned | NotLoggedIn | Unavailable | Unknown | EntError.

#[global] Instance entitlement_eq_dec : EqDecision entitlement.
Proof. solve_decision. Defined.

Definition entitlement_code (e : entitlement) : string :=
  match e with
  | Verified => "VERIFIED" | NotOwned => "NOT_OWNED"
  | NotLoggedIn => "NOT_LOGGED_IN" | Unavailable => "UNAVAILABLE"
  | Unknown => "UNKNOWN" | EntError => "ERROR"
  end.

Record steam_identity := SteamIdentity {
  steam_id64 : string; steam_hex : string; steam_verified : bool }.
Record rockstar_identity := RockstarIdentity {
  rockstar_account : option string; rockstar_entitlement : entitlement;
  rockstar_verified : bool }.
Record epic_identity := EpicIdentity {
  epic_account : option string; epic_verified : bool }.
Record device_identity := DeviceIdentity {
  device_id : string; device_confidence : string; device_version : Z;
  first_seen : Z; last_seen : Z }.

(** [aldivine_id] is the ULID's 128-bit value; [remote_ip] is
    [network.remote_ip]. *)
Record player_identity := PlayerIdentity {
  aldivine_id : Z;
  rockstar : rockstar_identity;
  steam : option steam_identity;
  epic : epic_identity;
  device : option device_identity;
  remote_ip : string }.

Definition player_identity_new (id : Z) : player_identity :=
  PlayerIdentity id (RockstarIdentity None Unknown false) None
    (EpicIdentity None false) None "".

Record connection_rejection := ConnectionRejection {
  rej_code : string; rej_reason : string; internal_detail : string }.

Record identity_requirements := IdentityRequirements {
  require_aldivine_account : bool;
  require_gta_entitlement : bool;
  require_rockstar : bool;
  require_steam : bool;
  require_epic : bool;
  require_device_id : bool;
  record_connection_ip : bool }.

Definition identity_requirements_default : identity_requirements :=
  IdentityRequirements true true false false false true true.

Inductive policy_outcome :=
| PolicyPass
| PolicyReject (r : connection_rejection).

Section policy.
(** Display of the [ulid] crate, a 26-character string. *)
Variable ulid_to_string : Z -> string.

Definition check_identity_policy (i : player_identity) (req : identity_requirements) :
    policy_outcome :=
  if require_aldivine_account req && is_empty (ulid_to_string (aldivine_id i)) then
    PolicyReject (ConnectionRejection "ALD-IDENTITY-001"
      "Unable to validate Aldivine session."
      "aldivine_player_id missing at policy stage")
  else
    let ent := rockstar_entitlement (rockstar i) in
    match (if require_gta_entitlement req then
             match ent with
             | Verified => None
             | NotOwned => Some "rockstar entitlement NOT_OWNED"%string
             | NotLoggedIn => Some "rockstar entitlement NOT_LOGGED_IN"%string
             | other => Some ("rockstar entitlement " +:+ entitlement_code other)
             end
           else None) with
    | Some detail =>
        PolicyReject (ConnectionRejection "ALD-GAME-002"
          "GTA V entitlement verification failed." detail)
    | None =>
        if require_rockstar req &&
           (negb (rockstar_verified (rockstar i)) ||
            bool_decide (rockstar_account (rockstar i) = None)) then
          PolicyReject (ConnectionRejection "ALD-IDENTITY-001"
            "Unable to validate Aldivine session."
            "rockstar identity required but unverified")
        else if require_steam req && negb (bool_decide (is_Some (steam i))) then
          PolicyReject (ConnectionRejection "ALD-STEAM-001"
            "This server requires Steam identity."
            "steam identity required but absent")
        else if require_epic req &&
                (bool_decide (epic_account (epic i) = None) ||
                 negb (epic_verified (epic i))) then
          PolicyReject (ConnectionRejection "ALD-IDENTITY-001"
            "Unable to validate Aldivine session."
            "epic identity required but unverified")
        else if require_device_id req && negb (bool_decide (is_Some (device i))) then
          PolicyReject (ConnectionRejection "ALD-DEVICE-001"
            "Device identity could not be generated."
            "device identity required but absent")
        else PolicyPass
    end.
End policy.

Definition authoritative_remote_ip (peer_addr : string) : string := peer_addr.

(** [TrustedProxies]: forwarded values count only from a listed peer. *)
Definition resolve_client_ip (peers : list string) (peer_addr : string)
    (forwarded : option string) : string :=
  let trusted := existsb (fun p => bool_decide (p = peer_addr)) peers in
  match trusted, forwarded with
  | true, Some f => if negb (is_empty (trim f)) then trim f else peer_addr
  | _, _ => peer_addr
  end.

(** ** Properties *)

(** What the server's policy asks of an identity. *)
Record meets (i : player_identity) (req : identity_requirements) : Prop := {
  meets_gta : require_gta_entitlement req = true ->
    rockstar_entitlement (rockstar i) = Verified;
  meets_rockstar : require_rockstar req = true ->
    rockstar_verified (rockstar i) = true /\ is_Some (rockstar_account (rockstar i));
  meets_steam : require_steam req = true -> is_Some (steam i);
  meets_epic : require_epic req = true ->
    is_Some (epic_account (epic i)) /\ epic_verified (epic i) = true;
  meets_device : require_device_id req = true -> is_Some (device i) }.

Definition known_codes : list string :=
  ["ALD-IDENTITY-001"; "ALD-GAME-002"; "ALD-STEAM-001"; "ALD-DEVICE-001"]%string.

Lemma required_present {A} (r : bool) (o : option A) :
  r && negb (bool_decide (is_Some o)) = false <-> (r = true -> is_Some o).
Proof. destruct r, o; case_bool_decide; simpl; naive_solver. Qed.

Lemma required_verified (r v : bool) (o : option string) :
  r && (negb v || bool_decide (o = None)) = false <->
  (r = true -> v = true /\ is_Some o).
Proof. destruct r, v, o; case_bool_decide; simpl; naive_solver. Qed.

(** The entitlement stage passes exactly a verified entitlement. *)
Lemma entitlement_stage (r : bool) (e : entitlement) :
  (if r then match e with
             | Verified => None
             | NotOwned => Some "rockstar entitlement NOT_OWNED"%string
             | NotLoggedIn => Some "rockstar entitlement NOT_LOGGED_IN"%string
             | other => Some ("rockstar entitlement " +:+ entitlement_code other)
             end
   else None) = None <-> (r = true -> e = Verified).
Proof. destruct r, e; naive_solver. Qed.

Lemma check_identity_policy_pass ts i req :
  ts (aldivine_id i) <> ""%string ->
  check_identity_policy ts i req = PolicyPass <-> meets i req.
Proof.
  intros Hts. unfold check_identity_policy, is_empty.
  rewrite (bool_decide_eq_false_2 _ Hts), andb_false_r. cbv zeta.
  destruct (if require_gta_entitlement req then _ else _) as [d|] eqn:Hg.
  { split; [done|]. intros [H _ _ _ _]. apply entitlement_stage in H. congruence. }
  rewrite entitlement_stage in Hg.
  destruct (require_rockstar req && _) eqn:Hr.
  { split; [done|]. intros [_ H _ _ _]. apply required_verified in H. congruence. }
  rewrite required_verified in Hr.
  destruct (require_steam req && _) eqn:Hs.
  { split; [done|]. intros [_ _ H _ _]. apply required_present in H. congruence. }
  rewrite required_present in Hs.
  rewrite orb_comm. destruct (require_epic req && _) eqn:He.
  { split; [done|]. intros [_ _ _ H _].
    assert (H' : require_epic req = true ->
      epic_verified (epic i) = true /\ is_Some (epic_account (epic i))) by naive_solver.
    apply required_verified in H'. congruence. }
  rewrite required_verified in He.
  destruct (require_device_id req && _) eqn:Hd.
  { split; [done|]. intros [_ _ _ _ H]. apply required_present in H. congruence. }
  rewrite required_present in Hd. split; [|done]. intros _. split; naive_solver.
Qed.

Lemma check_identity_policy_codes ts i req r :
  check_identity_policy ts i req = PolicyReject r -> rej_code r ∈ known_codes.
Proof.
  unfold check_identity_policy, known_codes. intros H.
  repeat (case_match; simplify_eq; try (simpl; set_solver)).
Qed.

(** The policy stage lets an identity through exactly when it meets every
    requirement the server turned on (an unavailable, unknown or failed
    entitlement check is not a pass, and Steam is asked of nobody unless
    [require_steam] is set), and every rejection carries one of the four
    client-safe codes. *)
Theorem check_identity_policy_spec (ulid_to_string : Z -> string)
    (i : player_identity) (req : identity_requirements) :
  ulid_to_string (aldivine_id i) <> ""%string ->
  match check_identity_policy ulid_to_string i req with
  | PolicyPass => meets i req
  | PolicyReject r => ~ meets i req /\ rej_code r ∈ known_codes
  end.
Proof.
  intros Hts. pose proof (check_identity_policy_pass ulid_to_string i req Hts) as Hp.
  pose proof (check_identity_policy_codes ulid_to_string i req) as Hc.
  destruct (check_identity_policy _ i req) as [|r]; [by apply Hp|].
  split; [|by apply Hc]. intros H. apply Hp in H. done.
Qed.

Definition epic_owner : player_identity :=
  PlayerIdentity 7 (RockstarIdentity (Some "rs") Verified true) None
    (EpicIdentity (Some "epic") true)
    (Some (DeviceIdentity "d" "low" 1 0 0)) "198.51.100.4".

Lemma check_identity_policy_spec_witness :
  check_identity_policy (fun _ => "01ARZ3NDEKTSV4RRFFQ69G5FAV"%string) epic_owner
    identity_requirements_default = PolicyPass /\
  meets epic_owner identity_requirements_default.
Proof.
  split; [vm_compute; reflexivity|].
  apply (check_identity_policy_spec (fun _ => "01ARZ3NDEKTSV4RRFFQ69G5FAV"%string)
    epic_owner identity_requirements_default). discriminate.
Defined.
