(* ===== verification/Admission.v ===== *)
(** The server's admission manager (server/ald-server/src/admission.rs): one
    handshake session per peer address, the identity policy, the deferral
    gates and the admission queue behind one message handler. The queue is
    reached through the interface [join_queue]. *)
From stdpp Require Import pretty.
From S2P Require Import Prelude RustStr Queue Deferrals Handshake Identity.

Record admission_session := AdmissionSession {
  state : handshake_state;
  session_id : Z;
  sess_aldivine_id : option string;
  sess_platform : option string;
  sess_nonce : string;
  sess_polls : Z;
  queue_pos : option nat }.

Definition admission_session_new (id : Z) (nonce : string) : admission_session :=
  AdmissionSession WaitingAuth id None None nonce 0 None.

Definition set_state (st : handshake_state) (s : admission_session) : admission_session :=
  AdmissionSession st (session_id s) (sess_aldivine_id s) (sess_platform s)
    (sess_nonce s) (sess_polls s) (queue_pos s).

Definition set_queue_pos (p : nat) (s : admission_session) : admission_session :=
  AdmissionSession (state s) (session_id s) (sess_aldivine_id s) (sess_platform s)
    (sess_nonce s) (sess_polls s) (Some p).

Section manager.
Context {Q : Type} `{Hq : join_queue Q}.
(** [SocketAddr] and its [Display]; the [ulid] crate's conversions. *)
Context {Addr : Type} `{Countable Addr}.
Variable show_addr : Addr -> string.
Variable ulid_to_string : Z -> string.
Variable ulid_from_string : string -> option Z.

Record admission_manager := AdmissionManager {
  server_name : string;
  adm_max_players : Z;
  next_session : Z;
  sessions : gmap Addr admission_session;
  adm_queue : Q;
  manifest : list resource_entry;
  identity_req : identity_requirements }.

Definition with_sessions (m : admission_manager) (ss : gmap Addr admission_session) :
    admission_manager :=
  AdmissionManager (server_name m) (adm_max_players m) (next_session m) ss
    (adm_queue m) (manifest m) (identity_req m).

Definition with_queue (m : admission_manager) (q : Q) : admission_manager :=
  AdmissionManager (server_name m) (adm_max_players m) (next_session m)
    (sessions m) q (manifest m) (identity_req m).

(** [if let Some(s) = self.sessions.get_mut(&peer) { .. }] *)
Definition on_session (m : admission_manager) (peer : Addr)
    (f : admission_session -> admission_session) : admission_manager :=
  with_sessions m (alter f peer (sessions m)).

Definition set_manifest (m : admission_manager) (entries : list resource_entry) :
    admission_manager :=
  AdmissionManager (server_name m) (adm_max_players m) (next_session m)
    (sessions m) (adm_queue m) entries (identity_req m).

Definition state_of (m : admission_manager) (peer : Addr) : option handshake_state :=
  state <$> sessions m !! peer.

Definition remove (m : admission_manager) (peer : Addr) : admission_manager * bool :=
  match sessions m !! peer with
  | None => (m, false)
  | Some s =>
      let m1 := with_sessions m (delete peer (sessions m)) in
      match sess_aldivine_id s with
      | None => (m1, true)
      | Some id =>
          let q1 := (jq_playing_leave (adm_queue m1) id).1 in
          (with_queue m1 (jq_queue_leave q1 id).1, true)
      end
  end.

Definition on_hello (m : admission_manager) (peer : Addr) (version : Z) :
    admission_manager * list handshake_message :=
  if negb (version =? PROTOCOL_VERSION) then
    (m, [Reject REJECT_PROTOCOL "protocol version mismatch"])
  else
    let id := next_session m in
    let nonce := ("n-" +:+ pretty id +:+ "-" +:+ show_addr peer)%string in
    (AdmissionManager (server_name m) (adm_max_players m) (wrap 64 (id + 1))
       (<[peer := admission_session_new id nonce]> (sessions m))
       (adm_queue m) (manifest m) (identity_req m),
     [ServerHello PROTOCOL_VERSION id (server_name m) (adm_max_players m)
        ["deferrals"; "queue"; "manifest"]%string;
      AuthChallenge nonce]).

Definition on_auth (m : admission_manager) (peer : Addr) (aldivine_id : string)
    (platform challenge_response : option string) :
    admission_manager * list handshake_message :=
  match sessions m !! peer with
  | None => (m, [Reject REJECT_PROTOCOL "auth before hello"])
  | Some s =>
      if negb (bool_decide (state s = WaitingAuth)) then
        (m, [Reject REJECT_PROTOCOL "auth out of order"])
      else if is_empty (trim aldivine_id) then
        (on_session m peer (set_state StRejected),
         [Reject REJECT_AUTH "missing account id"])
      else if negb (bool_decide (challenge_response = Some (sess_nonce s))) then
        (on_session m peer (set_state StRejected),
         [Reject REJECT_AUTH "challenge failed"])
      else
        (on_session m peer (fun s =>
           AdmissionSession WaitingIdentity (session_id s) (Some aldivine_id) platform
             (sess_nonce s) (sess_polls s) (queue_pos s)),
         [AuthResult true "auth ok"; IdentityRequest])
  end.

(** [fresh] is the id [AldivinePlayerId::new()] would draw. *)
Definition on_identity (m : admission_manager) (peer : Addr) (aldivine_id : string)
    (dev : option string) (ip : string) (now_ms fresh : Z) :
    admission_manager * list handshake_message :=
  match sessions m !! peer with
  | None => (m, [Reject REJECT_PROTOCOL "identity before hello"])
  | Some _ =>
      let parsed := default fresh (ulid_from_string aldivine_id) in
      let base := player_identity_new parsed in
      let identity :=
        PlayerIdentity (Identity.aldivine_id base) (rockstar base) (steam base) (epic base)
          (match dev with
           | Some did =>
               if negb (is_empty (trim did))
               then Some (DeviceIdentity did "low" 1 now_ms now_ms) else None
           | None => None
           end) ip in
      match check_identity_policy ulid_to_string identity (identity_req m) with
      | PolicyReject r =>
          (on_session m peer (set_state StRejected),
           [Reject REJECT_IDENTITY (rej_reason r)])
      | PolicyPass =>
          let m1 := on_session m peer (set_state WaitingDeferrals) in
          let ctx := DeferralContext aldivine_id ip None in
          let session :=
            session_new [fn_gate "ban-check" (fun _ (st : unit) => (Pass, st))] 10 in
          match (poll session ctx tt).1.2 with
          | Admit =>
              (on_session m1 peer (set_state WaitingQueue),
               [DeferralDone; EntitlementRequest])
          | Waiting message _ => (m1, [DeferralUpdate message])
          | Denied code reason _ =>
              (on_session m1 peer (set_state StRejected), [Reject code reason])
          end
      end
  end.

Definition on_entitlement (m : admission_manager) (peer : Addr) :
    admission_manager * list handshake_message :=
  match sessions m !! peer with
  | None => (m, [Reject REJECT_PROTOCOL "entitlement before hello"])
  | Some s =>
      if negb (bool_decide (state s = WaitingQueue)) &&
         negb (bool_decide (state s = WaitingDeferrals)) then
        (m, [Reject REJECT_ENTITLEMENT "entitlement out of order"])
      else (m, [EntitlementResult "FREE" "ok"])
  end.

Definition reject_reply (r : reject_reason) : handshake_message :=
  match r with
  | ServerFull | QueueFull =>
      Reject REJECT_SERVER_FULL "server full, try again later"
  | AlreadyPresent => Reject REJECT_DEFERRAL "already connected"
  | InvalidId => Reject REJECT_AUTH "invalid account id"
  end.

Definition on_ready (m : admission_manager) (peer : Addr) (now_ms : Z) :
    admission_manager * list handshake_message :=
  match sessions m !! peer with
  | None => (m, [Reject REJECT_PROTOCOL "ready before hello"])
  | Some s =>
      let id := default ""%string (sess_aldivine_id s) in
      if is_empty id then (m, [Reject REJECT_AUTH "unknown session"])
      else if bool_decide (state s = Ready) then (m, [ServerReady true])
      else
        let '(q, outcome) := jq_join (adm_queue m) (JoinRequest id false) now_ms in
        let m1 := with_queue m q in
        match outcome with
        | JoinAdmitted =>
            (on_session (on_session m1 peer (set_state WaitingManifest)) peer
               (set_state Ready),
             [QueueAdmitted; ManifestOffer (manifest m1); ServerReady true])
        | Queued position =>
            (on_session m1 peer (set_queue_pos position),
             [QueueUpdate position (jq_queue_len q); ManifestOffer (manifest m1)])
        | Rejected reason =>
            (on_session m1 peer (set_state StRejected), [reject_reply reason])
        end
  end.

Definition handle (m : admission_manager) (peer : Addr) (msg : handshake_message)
    (ip : string) (now_ms fresh : Z) : admission_manager * list handshake_message :=
  match msg with
  | ClientHello version _ _ _ => on_hello m peer version
  | ClientAuth aldivine_id _ platform response =>
      on_auth m peer aldivine_id platform response
  | IdentityResponse aldivine_id _ _ dev =>
      on_identity m peer aldivine_id dev ip now_ms fresh
  | EntitlementRequest => on_entitlement m peer
  | ClientReady => on_ready m peer now_ms
  | _ => (m, [Reject REJECT_PROTOCOL "out-of-order message for this session"])
  end.

Definition session_count (m : admission_manager) : nat := size (sessions m).

Definition session_id_of (m : admission_manager) (peer : Addr) : Z :=
  default 0 (session_id <$> sessions m !! peer).

Definition aldivine_id_of (m : admission_manager) (peer : Addr) : option string :=
  sessions m !! peer ≫= sess_aldivine_id.

(** ** Executions *)
Inductive admission_op :=
| Handle (peer : Addr) (msg : handshake_message) (ip : string) (now_ms fresh : Z)
| Remove (peer : Addr)
| SetManifest (entries : list resource_entry).

Definition admission_step (m : admission_manager) (o : admission_op) : admission_manager :=
  match o with
  | Handle peer msg ip now fresh => (handle m peer msg ip now fresh).1
  | Remove peer => (remove m peer).1
  | SetManifest es => set_manifest m es
  end.

(** A session is new after a step, or an old one that moved without touching
    its nonce and account, or the one that has just answered its challenge. *)
Inductive session_change (o : admission_op) (peer : Addr) :
    option admission_session -> admission_session -> Prop :=
| change_fresh old s :
    sess_aldivine_id s = None -> session_change o peer old s
| change_keep s s' :
    sess_aldivine_id s' = sess_aldivine_id s -> sess_nonce s' = sess_nonce s ->
    session_change o peer (Some s) s'
| change_auth s s' id token platform ip now fresh :
    o = Handle peer (ClientAuth id token platform (Some (sess_nonce s))) ip now fresh ->
    state s = WaitingAuth -> is_empty (trim id) = false ->
    sess_aldivine_id s' = Some id -> sess_nonce s' = sess_nonce s ->
    session_change o peer (Some s) s'.

Definition answers_ready (l : list handshake_message) : Prop := ServerReady true ∈ l.

Lemma lookup_on_session m peer f p :
  sessions (on_session m peer f) !! p =
  if decide (peer = p) then f <$> sessions m !! p else sessions m !! p.
Proof.
  unfold on_session; simpl. case_decide; subst;
    [by rewrite lookup_alter_eq|by rewrite lookup_alter_ne].
Qed.

Lemma on_session_compose m peer f g :
  on_session (on_session m peer f) peer g = on_session m peer (g ∘ f).
Proof.
  unfold on_session, with_sessions; simpl. f_equal. apply map_eq. intros p.
  destruct (decide (peer = p)) as [->|]; [|by rewrite !lookup_alter_ne].
  rewrite !lookup_alter_eq. by destruct (sessions m !! p).
Qed.

(** A handler step that only maps the peer's own session. *)
Lemma on_session_change o m peer f p s' :
  (forall s, sessions m !! peer = Some s -> session_change o peer (Some s) (f s)) ->
  sessions (on_session m peer f) !! p = Some s' ->
  session_change o p (sessions m !! p) s'.
Proof.
  rewrite lookup_on_session. intros Hf. case_decide; subst.
  - intros (s & Hs & ->)%fmap_Some. rewrite Hs. by apply Hf.
  - intros ->. by apply change_keep.
Qed.

Lemma same_session_change o m p s' :
  sessions m !! p = Some s' -> session_change o p (sessions m !! p) s'.
Proof. intros ->. by apply change_keep. Qed.

#[local] Hint Resolve same_session_change change_keep : aldivine.

Lemma set_state_change o m peer st p s' :
  sessions (on_session m peer (set_state st)) !! p = Some s' ->
  session_change o p (sessions m !! p) s'.
Proof. apply on_session_change. intros. by apply change_keep. Qed.
#[local] Hint Resolve set_state_change : aldivine.

Lemma on_auth_change m peer id token platform resp ip now fresh p s' :
  sessions (on_auth m peer id platform resp).1 !! p = Some s' ->
  session_change (Handle peer (ClientAuth id token platform resp) ip now fresh)
    p (sessions m !! p) s'.
Proof.
  unfold on_auth. destruct (sessions m !! peer) as [s|] eqn:Hs; simpl;
    [|eauto with aldivine].
  destruct (negb _) eqn:Hst; simpl; [eauto with aldivine|].
  destruct (is_empty _) eqn:He; simpl; [apply set_state_change|].
  destruct (negb (bool_decide (resp = _))) eqn:Hr; simpl; [apply set_state_change|].
  apply on_session_change. intros s0 Hs0. rewrite Hs in Hs0. simplify_eq. bool_prop. subst resp.
  by eapply change_auth.
Qed.

Lemma on_identity_change o m peer id dev ip now fresh p s' :
  sessions (on_identity m peer id dev ip now fresh).1 !! p = Some s' ->
  session_change o p (sessions m !! p) s'.
Proof.
  unfold on_identity. cbv zeta. destruct (sessions m !! peer) as [s|]; [|eauto with aldivine].
  destruct (check_identity_policy _ _ _); [|apply set_state_change].
  destruct ((poll _ _ _).1.2); cbn [fst];
    rewrite ?on_session_compose; apply on_session_change; intros; by apply change_keep.
Qed.

Lemma on_ready_change o m peer now p s' :
  sessions (on_ready m peer now).1 !! p = Some s' ->
  session_change o p (sessions m !! p) s'.
Proof.
  unfold on_ready. cbv zeta. destruct (sessions m !! peer) as [s|]; [|eauto with aldivine].
  destruct (is_empty _); [eauto with aldivine|].
  destruct (bool_decide _); [eauto with aldivine|].
  destruct (jq_join _ _ _) as [q []]; cbn [fst].
  - rewrite on_session_compose. apply (on_session_change o (with_queue m q)).
    intros. by apply change_keep.
  - apply (on_session_change o (with_queue m q)). intros. by apply change_keep.
  - apply (set_state_change o (with_queue m q)).
Qed.

(** Every step changes a session in one of the three ways. *)
Lemma step_session_change m o p s' :
  sessions (admission_step m o) !! p = Some s' ->
  session_change o p (sessions m !! p) s'.
Proof.
  destruct o as [peer msg ip now fresh|peer|es]; simpl; [|
    unfold remove; destruct (sessions m !! peer) as [s|] eqn:Hs; simpl;
    [destruct (sess_aldivine_id s); simpl;
     intros [Hne Hp]%lookup_delete_Some; eauto with aldivine|eauto with aldivine] |
    eauto with aldivine].
  destruct msg; simpl; eauto with aldivine.
  - unfold on_hello. destruct (negb _); simpl; [eauto with aldivine|].
    intros [[<- <-]|[Hne Hp]]%lookup_insert_Some; [by apply change_fresh|eauto with aldivine].
  - apply on_auth_change.
  - apply on_identity_change.
  - unfold on_entitlement. destruct (sessions m !! peer); [|eauto with aldivine].
    destruct (_ && _); eauto with aldivine.
  - apply on_ready_change.
Qed.

(** An account on a session comes from a challenge the same peer answered
    earlier in the execution, with the nonce the session still has. *)
Record authenticated (m0 : admission_manager) (ops : list admission_op) (peer : Addr)
    (s : admission_session) (id : string) : Prop := Authenticated {
  auth_nonblank : is_empty (trim id) = false;
  auth_event : exists before token platform ip now fresh after s0,
    ops = before ++
      Handle peer (ClientAuth id token platform (Some (sess_nonce s))) ip now fresh :: after /\
    sessions (run admission_step m0 before) !! peer = Some s0 /\
    state s0 = WaitingAuth /\ sess_nonce s0 = sess_nonce s }.

Lemma account_authenticated m0 ops peer s id :
  sessions m0 = ∅ ->
  sessions (run admission_step m0 ops) !! peer = Some s ->
  sess_aldivine_id s = Some id -> authenticated m0 ops peer s id.
Proof.
  intros H0. revert s. induction ops as [|o ops IH] using rev_ind; intros s Hs Hid.
  { simpl in Hs. rewrite H0, lookup_empty in Hs. done. }
  rewrite run_app in Hs. simpl in Hs. apply step_session_change in Hs as Hch.
  remember (sessions (run _ m0 ops) !! peer) as old eqn:Hold.
  destruct Hch as [old s Hnone|s1 s Hsame Hnonce|s1 s id' tok pl ip now fr -> Hst Hne Hid' Hnonce].
  - congruence.
  - destruct (IH s1) as [Hnb (b & tok & pl & ip & now & fr & a & s0 & -> & Hs0 & Hst & Hn)];
      [done|congruence|].
    split; [done|]. rewrite Hnonce. exists b, tok, pl, ip, now, fr, (a ++ [o]), s0.
    split_and!; [|done..]. by rewrite <- (assoc_L (++)), <- app_comm_cons.
  - assert (id' = id) as -> by congruence. split; [done|]. rewrite Hnonce.
    exists ops, tok, pl, ip, now, fr, [], s1. by split_and!.
Qed.

Lemma reject_reply_not_ready r : reject_reply r <> ServerReady true.
Proof. by destruct r. Qed.

(** Only [on_ready] announces the world, for a session with an account. *)
Lemma handle_ready m peer msg ip now fresh m' out :
  handle m peer msg ip now fresh = (m', out) -> answers_ready out ->
  msg = ClientReady /\
  exists s id, sessions m !! peer = Some s /\ sess_aldivine_id s = Some id /\
    state_of m' peer = Some Ready.
Proof.
  unfold answers_ready. destruct msg; simpl;
    try (intros [= <- <-] ?%list_elem_of_singleton; done).
  - unfold on_hello. destruct (negb _); intros [= <- <-] Hin; set_solver.
  - unfold on_auth. intros Hm Hin. repeat (case_match; simplify_eq); set_solver.
  - unfold on_identity. cbv zeta. intros Hm Hin.
    repeat (case_match; simplify_eq); set_solver.
  - unfold on_entitlement. intros Hm Hin. repeat (case_match; simplify_eq); set_solver.
  - unfold on_ready. cbv zeta. destruct (sessions m !! peer) as [s|] eqn:Hs;
      [|intros [= <- <-]; set_solver].
    destruct (sess_aldivine_id s) as [id|] eqn:Hid; cbn [default];
      [|intros [= <- <-]; set_solver].
    destruct (is_empty _); [intros [= <- <-]; set_solver|].
    case_bool_decide as Hst.
    { intros [= <- <-] _. split; [done|]. exists s, id. unfold state_of. by rewrite Hs, <- Hst. }
    destruct (jq_join _ _ _) as [q []]; intros [= <- <-] Hin; [|set_solver|].
    + split; [done|]. exists s, id. split_and!; [done..|].
      unfold state_of. rewrite !lookup_on_session, !decide_True by done. simpl. by rewrite Hs.
    + apply list_elem_of_singleton in Hin. by destruct (reject_reply_not_ready reason).
Qed.

Context `{Hlaws : !join_queue_laws Q}.

Lemma admission_step_queue m o : jq_inv (adm_queue m) -> jq_inv (adm_queue (admission_step m o)).
Proof.
  intros Hinv. destruct o as [peer msg ip now fresh|peer|es]; simpl; [|
    unfold remove; repeat (case_match; simpl);
      auto using jq_playing_leave_inv, jq_queue_leave_inv|done].
  destruct msg; simpl; try done.
  - unfold on_hello. by case_match.
  - unfold on_auth. by repeat case_match.
  - unfold on_identity. cbv zeta. by repeat case_match.
  - unfold on_entitlement. by repeat case_match.
  - unfold on_ready. cbv zeta. repeat (case_match; simpl; try done);
      pose proof (jq_join_inv (adm_queue m) (JoinRequest (default ""%string (sess_aldivine_id a)) false) now Hinv) as Hj;
      by match goal with E : jq_join _ _ _ = _ |- _ => rewrite E in Hj end.
Qed.
End manager.

(** ** The server's manager, over the queue of ald-queue *)
Definition admission_new {Addr} `{Countable Addr} (name : string) (max_players : Z)
    (req : identity_requirements) : admission_manager (Q := queue) (Addr := Addr) :=
  let cfg :=
    match queue_config_new (Z.to_nat max_players) 0 64 300000 with
    | Ok c => c
    | Err _ => QueueConfig (Z.to_nat max_players) 0 64 300000
    end in
  AdmissionManager name max_players 1 ∅ (queue_new cfg) [] req.

Section properties.
Context {Addr : Type} `{Countable Addr}.
Variables (show_addr : Addr -> string) (ulid_to_string : Z -> string)
  (ulid_from_string : string -> option Z).

Notation step := (admission_step (Q := queue) show_addr ulid_to_string ulid_from_string).
Notation handle_msg := (handle (Q := queue) show_addr ulid_to_string ulid_from_string).

(** C1: after every execution, whatever its operations, the admission queue
    satisfies its invariant; and whatever message comes next, a peer is told
    [ServerReady] only in answer to [ClientReady], only with a session whose
    non-blank account was bound earlier in the execution by a [ClientAuth] of
    the same peer that answered the session's challenge nonce, and only when
    that session is [Ready] afterwards. *)
Theorem admission_ready_authenticated (name : string) (max : Z)
    (req : identity_requirements) (ops : list admission_op) :
  let m0 := admission_new name max req in
  let m := run step m0 ops in
  queue_inv (adm_queue m) /\
  (forall peer msg ip now fresh m' out,
    handle_msg m peer msg ip now fresh = (m', out) -> ServerReady true ∈ out ->
    msg = ClientReady /\ state_of m' peer = Some Ready /\
    exists s id, sessions m !! peer = Some s /\ sess_aldivine_id s = Some id /\
      authenticated show_addr ulid_to_string ulid_from_string m0 ops peer s id).
Proof.
  intros m0 m. split.
  { apply (run_invariant step (fun m => queue_inv (adm_queue m)) m0 ops).
    - exact (admission_step_queue (Q := queue) show_addr ulid_to_string ulid_from_string).
    - apply queue_inv_new. }
  intros peer msg ip now fresh m' out Hh Hin.
  destruct (handle_ready _ _ _ _ _ _ _ _ _ _ _ Hh Hin) as (-> & s & id & Hs & Hid & Hst).
  split_and!; [done..|]. exists s, id. split_and!; [done..|].
  by eapply account_authenticated.
Qed.

(** The code reaches [Ready] without the identity policy: whatever the
    server requires, [ClientHello], [ClientAuth] with the nonce and
    [ClientReady] alone are answered with [ServerReady]. *)
Theorem admission_skips_policy (name : string) (max : Z) (req : identity_requirements)
    peer id token platform ip now fresh :
  1 <= max -> is_empty (trim id) = false ->
  let hello := Handle peer (ClientHello PROTOCOL_VERSION 3095 "E" "0.1") ip now fresh in
  let auth := Handle peer (ClientAuth id token platform
                (Some ("n-1-" +:+ show_addr peer)%string)) ip now fresh in
  let m := run step (admission_new name max req) [hello; auth] in
  ServerReady true ∈ (handle_msg m peer ClientReady ip now fresh).2 /\
  state_of (handle_msg m peer ClientReady ip now fresh).1 peer = Some Ready.
Proof.
  intros Hmax Hid hello auth m.
  assert (Hs : sessions m !! peer = Some (AdmissionSession WaitingIdentity 1 (Some id) platform
    ("n-1-" +:+ show_addr peer)%string 0 None)).
  { subst m hello auth. simpl. unfold on_auth; simpl. rewrite lookup_insert_eq; simpl.
    rewrite Hid. rewrite bool_decide_true by done. simpl.
    by rewrite lookup_alter_eq, lookup_insert_eq. }
  assert (Hq : adm_queue m = queue_new (QueueConfig (Z.to_nat max) 0 64 300000)).
  { subst m hello auth. simpl. unfold on_auth; simpl. rewrite lookup_insert_eq; simpl.
    rewrite Hid. by rewrite bool_decide_true by done. }
  simpl. unfold on_ready. rewrite Hs. simpl.
  assert (is_empty id = false) as ->.
  { unfold is_empty. apply bool_decide_eq_false. by apply trim_nonempty. }
  unfold join. rewrite Hq. simpl. rewrite Hid. unfold slot_free_for; simpl.
  rewrite bool_decide_true by (unfold open_slots; simpl; lia). simpl. split; [set_solver|].
  unfold state_of. rewrite !lookup_on_session, !decide_True by done. simpl. by rewrite Hs.
Qed.

(** A player that is on the waitlist, or that promotion has already
    seated, is turned away by its next [ClientReady] and ends [Rejected]:
    waiting never leads to [Ready]. *)
Theorem admission_waitlist_stuck (m : admission_manager (Q := queue)) peer s id ip now fresh :
  sessions m !! peer = Some s -> sess_aldivine_id s = Some id ->
  is_empty (trim id) = false -> state s <> Ready ->
  is_queued (adm_queue m) id = true \/ is_playing (adm_queue m) id = true ->
  let r := handle_msg m peer ClientReady ip now fresh in
  r.2 = [Reject REJECT_DEFERRAL "already connected"] /\
  state_of r.1 peer = Some StRejected /\ adm_queue r.1 = adm_queue m.
Proof.
  intros Hs Hid Hne Hst Hin. simpl. unfold on_ready. rewrite Hs, Hid. simpl.
  assert (is_empty id = false) as ->.
  { unfold is_empty. apply bool_decide_eq_false. by apply trim_nonempty. }
  rewrite bool_decide_false by done.
  assert (Hj := jq_present (adm_queue m) (JoinRequest id false) now Hne ltac:(naive_solver)).
  simpl in Hj. rewrite Hj. simpl. split_and!; [done| |done].
  unfold state_of. rewrite lookup_on_session, decide_True by done. simpl. by rewrite Hs.
Qed.
End properties.

Section witnesses.
Local Definition show (n : nat) : string := pretty n.
Local Definition no_ulid (_ : string) : option Z := None.
Local Definition ulid (_ : Z) : string := "01ARZ3NDEKTSV4RRFFQ69G5FAV".

(** Two players on a one-slot server: the second one waits. *)
Definition two_players : list admission_op :=
  [Handle 1%nat (ClientHello 1 0 "E" "0") "ip" 0 0;
   Handle 1%nat (ClientAuth "alice" None None (Some "n-1-1"%string)) "ip" 0 0;
   Handle 2%nat (ClientHello 1 0 "E" "0") "ip" 0 0;
   Handle 2%nat (ClientAuth "bob" None None (Some "n-2-2"%string)) "ip" 0 0;
   Handle 1%nat ClientReady "ip" 0 0;
   Handle 2%nat ClientReady "ip" 1 0].

Definition one_slot : admission_manager (Q := queue) (Addr := nat) :=
  run (admission_step show ulid no_ulid) (admission_new "srv" 1 identity_requirements_default)
    two_players.

Local Notation last_call := (handle show ulid no_ulid one_slot 1%nat ClientReady "ip" 2 0).

Lemma admission_ready_authenticated_witness :
  ServerReady true ∈ last_call.2 /\ queue_inv (adm_queue one_slot) /\
  state_of last_call.1 1%nat = Some Ready.
Proof.
  assert (E : last_call.2 = [ServerReady true]) by (vm_compute; reflexivity).
  pose proof (eq_ind_r (fun o => ServerReady true ∈ o) (list_elem_of_here (ServerReady true) []) E) as Hin.
  split; [exact Hin|].
  destruct (admission_ready_authenticated show ulid no_ulid "srv" 1
    identity_requirements_default two_players) as [Hq Hready].
  split; [exact Hq|].
  exact (proj1 (proj2 (Hready 1%nat ClientReady "ip" 2 0 last_call.1 last_call.2
    (surjective_pairing last_call) Hin))).
Defined.

Lemma admission_skips_policy_witness :
  let req := IdentityRequirements true true true true true true true in
  let m := run (admission_step show ulid no_ulid) (admission_new "srv" 1 req)
    [Handle 1%nat (ClientHello PROTOCOL_VERSION 3095 "E" "0.1") "ip" 0 0;
     Handle 1%nat (ClientAuth "alice" None None (Some ("n-1-" +:+ show 1%nat)%string)) "ip" 0 0] in
  ServerReady true ∈ (handle show ulid no_ulid m 1%nat ClientReady "ip" 0 0).2.
Proof.
  intros req m. apply (admission_skips_policy show ulid no_ulid "srv" 1 req 1%nat "alice"
    None None "ip" 0 0); [lia|vm_compute; reflexivity].
Defined.

Lemma admission_waitlist_stuck_witness :
  is_queued (adm_queue one_slot) "bob" = true /\
  state_of (handle show ulid no_ulid one_slot 2%nat ClientReady "ip" 2 0).1 2%nat =
    Some StRejected.
Proof.
  split; [vm_compute; reflexivity|].
  refine (proj1 (proj2 (admission_waitlist_stuck show ulid no_ulid one_slot 2%nat
    (AdmissionSession WaitingIdentity 2 (Some "bob"%string) None "n-2-2" 0 (Some 1%nat))
    "bob" "ip" 2 0 _ _ _ _ _)));
    first [vm_compute; reflexivity|discriminate|left; vm_compute; reflexivity].
Defined.
End witnesses.
