(* ===== verification/Inventory.v ===== *)
(** The inventory service (framework/aldivine/src/inventory.rs): weighted item
    stacks per storage, grants, removals and transfers with roll-back. All
    counts and weights are [u32] with wrap-around. *)
From S2P Require Import Prelude.

Record item := Item {
  item_def_id : string;
  item_name : string;
  weight : Z;
  stackable : bool;
  max_stack : Z;
  has_durability : bool }.

Record item_stack := ItemStack {
  def_id : string;
  count : Z;
  weight_per_unit : Z;
  durability : option Z }.

Definition item_stack_new (def : item) (n : Z) : item_stack :=
  ItemStack (item_def_id def) n (weight def)
    (if has_durability def then Some 100 else None).

Definition stack_weight (s : item_stack) : Z := wrap 32 (weight_per_unit s * count s).

Inductive storage_kind :=
| Player (p : Z) | Vehicle (v : Z) | Property (p : Z) | Custom (name : string).

#[global] Instance storage_kind_eq_dec : EqDecision storage_kind.
Proof. solve_decision. Defined.
#[global] Instance storage_kind_countable : Countable storage_kind.
Proof.
  refine (inj_countable'
    (fun k => match k with
              | Player p => (0, p, ""%string) | Vehicle v => (1, v, ""%string)
              | Property p => (2, p, ""%string) | Custom n => (3, 0, n) end)
    (fun '(t, z, n) => match t with
              | 0 => Player z | 1 => Vehicle z | 2 => Property z | _ => Custom n end) _).
  by intros [].
Defined.

Inductive inventory_error :=
| UnknownItem (d : string)
| OverWeight (adding total limit : Z)
| OverStack (d : string)
| NestingTooDeep
| Insufficient (d : string) (want : Z).

Definition MAX_NESTING : nat := 3.

Record inventory := Inventory {
  weight_limit : Z;
  slots : list item_stack;
  depth : nat }.

(** [sum()] on [u32]. *)
Definition total_weight (i : inventory) : Z :=
  wrap 32 (sum_list (stack_weight <$> slots i)).

Record inventory_service := InventoryService {
  registry : gmap string item;
  storages : gmap storage_kind inventory }.

Definition service_new : inventory_service := InventoryService ∅ ∅.

Definition register (s : inventory_service) (i : item) : inventory_service :=
  InventoryService (<[item_def_id i := i]> (registry s)) (storages s).

(** [storage] returns a mutable borrow: the inventory and the service that
    holds it; [put] writes the borrow back. *)
Definition storage (s : inventory_service) (k : storage_kind) (limit : Z) :
    inventory_service * inventory :=
  let d := default 0%nat (depth <$> storages s !! k) in
  match storages s !! k with
  | Some inv => (s, inv)
  | None =>
      let inv := Inventory limit [] d in
      (InventoryService (registry s) (<[k := inv]> (storages s)), inv)
  end.

Definition put (s : inventory_service) (k : storage_kind) (sl : list item_stack)
    (inv : inventory) : inventory_service :=
  InventoryService (registry s)
    (<[k := Inventory (weight_limit inv) sl (depth inv)]> (storages s)).

Definition is_def (d : string) (s : item_stack) : bool := bool_decide (def_id s = d).

Definition set_count (n : Z) (s : item_stack) : item_stack :=
  ItemStack (def_id s) n (weight_per_unit s) (durability s).

Definition give (s : inventory_service) (k : storage_kind) (limit : Z) (d : string) (n : Z) :
    inventory_service * result unit inventory_error :=
  match registry s !! d with
  | None => (s, Err (UnknownItem d))
  | Some item =>
      let '(s, inv) := storage s k limit in
      let adding := wrap 32 (weight item * n) in
      let total := wrap 32 (total_weight inv + adding) in
      if weight_limit inv <? total then
        (s, Err (OverWeight adding total (weight_limit inv)))
      else
        match (if stackable item then List.find (is_def d) (slots inv) else None) with
        | Some stack =>
            let new_count := wrap 32 (count stack + n) in
            if max_stack item <? new_count then (s, Err (OverStack d))
            else (put s k (update_first (is_def d) (set_count new_count) (slots inv)) inv,
                  Ok tt)
        | None =>
            if max_stack item <? n then (s, Err (OverStack d))
            else (put s k (slots inv ++ [item_stack_new item n]) inv, Ok tt)
        end
  end.

Definition take (s : inventory_service) (k : storage_kind) (limit : Z) (d : string) (n : Z) :
    inventory_service * result unit inventory_error :=
  let '(s, inv) := storage s k limit in
  match List.find (is_def d) (slots inv) with
  | None => (s, Err (Insufficient d n))
  | Some stack =>
      if count stack <? n then (s, Err (Insufficient d n))
      else
        let left := wrap 32 (count stack - n) in
        let sl := update_first (is_def d) (set_count left) (slots inv) in
        let sl := if left =? 0 then List.filter (fun s => 0 <? count s) sl else sl in
        (put s k sl inv, Ok tt)
  end.

Definition transfer (s : inventory_service) (from to : storage_kind) (limit : Z)
    (d : string) (n : Z) : inventory_service * result unit inventory_error :=
  let '(s, inv) := storage s to limit in
  if bool_decide (MAX_NESTING <= depth inv)%nat then (s, Err NestingTooDeep)
  else
    match take s from limit d n with
    | (s, Err e) => (s, Err e)
    | (s, Ok _) =>
        match give s to limit d n with
        | (s, Ok u) => (s, Ok u)
        | (s, Err e) => ((give s from limit d n).1, Err e)
        end
    end.

(** [count]: the first stack of the definition. *)
Definition item_count (s : inventory_service) (k : storage_kind) (d : string) : Z :=
  match storages s !! k with
  | None => 0
  | Some inv => default 0 (count <$> List.find (is_def d) (slots inv))
  end.

Inductive inventory_op :=
| Give (k : storage_kind) (limit : Z) (d : string) (n : Z)
| Take (k : storage_kind) (limit : Z) (d : string) (n : Z)
| Transfer (from to : storage_kind) (limit : Z) (d : string) (n : Z).

Definition inventory_step (s : inventory_service) (o : inventory_op) : inventory_service :=
  match o with
  | Give k l d n => (give s k l d n).1
  | Take k l d n => (take s k l d n).1
  | Transfer f t l d n => (transfer s f t l d n).1
  end.

(** The [u32] arguments of an operation, with limits below [2^31] grams. *)
Definition op_ok (o : inventory_op) : Prop :=
  match o with
  | Give _ l _ n | Take _ l _ n | Transfer _ _ l _ n => fits 31 l /\ fits 32 n
  end.

(** ** Quantities *)
Definition units (d : string) (sl : list item_stack) : Z :=
  sum_list ((fun s => if is_def d s then count s else 0) <$> sl).

(** Units of [d] in the storage [k]. *)
Definition held (s : inventory_service) (k : storage_kind) (d : string) : Z :=
  default 0 (units d <$> (slots <$> storages s !! k)).

Definition raw_weight (sl : list item_stack) : Z :=
  sum_list ((fun s => weight_per_unit s * count s) <$> sl).

Definition stack_ok (reg : gmap string item) (s : item_stack) : Prop :=
  exists it, reg !! def_id s = Some it /\ weight_per_unit s = weight it /\
    0 <= count s <= max_stack it.

Definition single (reg : gmap string item) (sl : list item_stack) : Prop :=
  forall d it, reg !! d = Some it -> stackable it = true ->
    (length (List.filter (is_def d) sl) <= 1)%nat.

Definition slots_ok reg sl := Forall (stack_ok reg) sl /\ single reg sl.

(** Definitions are filed under their own id; a full stack's count and weight
    stay below [2^31], so that the [u32] sums of the code do not wrap. *)
Record item_ok (d : string) (it : item) : Prop := {
  io_id : item_def_id it = d;
  io_max : 0 <= max_stack it < 2 ^ 31;
  io_weight : 0 <= weight it;
  io_full : weight it * max_stack it < 2 ^ 31 }.
Definition registry_ok (reg : gmap string item) : Prop :=
  forall d it, reg !! d = Some it -> item_ok d it.

(** The true weight of the stacks is within the limit. *)
Definition inventory_ok reg (i : inventory) : Prop :=
  fits 31 (weight_limit i) /\ raw_weight (slots i) <= weight_limit i /\
  slots_ok reg (slots i).

Definition service_ok (s : inventory_service) : Prop :=
  registry_ok (registry s) /\
  forall k i, storages s !! k = Some i -> inventory_ok (registry s) i.

Lemma sum_wrap (l : list Z) : wrap 32 (sum_list (wrap 32 <$> l)) = wrap 32 (sum_list l).
Proof.
  induction l as [|x l IH]; [done|]. rewrite fmap_cons, !sum_list_cons.
  rewrite wrap_add_l, <- wrap_add_r, IH. apply wrap_add_r.
Qed.

Lemma total_weight_raw i : total_weight i = wrap 32 (raw_weight (slots i)).
Proof.
  unfold total_weight, raw_weight. symmetry. etrans; [symmetry; apply sum_wrap|].
  by rewrite <- list_fmap_compose.
Qed.

Lemma sum_filter {A} (f : A -> bool) (g : A -> Z) l :
  Forall (fun x => f x = false -> g x = 0) l ->
  sum_list (g <$> List.filter f l) = sum_list (g <$> l).
Proof.
  unfold sum_list. induction 1 as [|x l Hx _ IH]; [done|]. simpl.
  destruct (f x); simpl; [f_equal; exact IH|]. rewrite Hx by done. exact IH.
Qed.

(** The slots after a grant and after a removal. *)
Definition give_slots (it : item) (d : string) (n : Z) (sl : list item_stack) :
    option (list item_stack) :=
  match (if stackable it then List.find (is_def d) sl else None) with
  | Some stack =>
      let new_count := wrap 32 (count stack + n) in
      if max_stack it <? new_count then None
      else Some (update_first (is_def d) (set_count new_count) sl)
  | None => if max_stack it <? n then None else Some (sl ++ [item_stack_new it n])
  end.

Definition take_slots (d : string) (n : Z) (sl : list item_stack) :
    option (list item_stack) :=
  match List.find (is_def d) sl with
  | None => None
  | Some stack =>
      if count stack <? n then None
      else
        let left := wrap 32 (count stack - n) in
        let sl := update_first (is_def d) (set_count left) sl in
        Some (if left =? 0 then List.filter (fun s => 0 <? count s) sl else sl)
  end.

Lemma is_def_set_count d n s : is_def d (set_count n s) = is_def d s.
Proof. done. Qed.

Lemma units_app d l1 l2 : units d (l1 ++ l2) = units d l1 + units d l2.
Proof. unfold units. by rewrite fmap_app, sum_list_app. Qed.
Lemma units_cons d x l : units d (x :: l) = (if is_def d x then count x else 0) + units d l.
Proof. done. Qed.
Lemma raw_weight_app l1 l2 : raw_weight (l1 ++ l2) = raw_weight l1 + raw_weight l2.
Proof. unfold raw_weight. by rewrite fmap_app, sum_list_app. Qed.
Lemma raw_weight_cons x l : raw_weight (x :: l) = weight_per_unit x * count x + raw_weight l.
Proof. done. Qed.

Section slots.
Context (reg : gmap string item) (Hreg : registry_ok reg).

(** Changing the count of the first stack of [d]. *)
Lemma set_first d it stack m sl :
  reg !! d = Some it -> slots_ok reg sl -> List.find (is_def d) sl = Some stack ->
  0 <= m <= max_stack it ->
  let sl' := update_first (is_def d) (set_count m) sl in
  slots_ok reg sl' /\
  (forall e, units e sl' = units e sl + if bool_decide (e = d) then m - count stack else 0) /\
  raw_weight sl' = raw_weight sl + weight it * (m - count stack) /\
  0 <= count stack <= max_stack it /\
  List.find (is_def d) sl' = Some (set_count m stack).
Proof.
  intros Hit [Hall Hsingle] Hfind Hm sl'.
  destruct (update_first_split (is_def d) (set_count m) sl) as
    (l1 & x & l2 & -> & Hx & Hfx & Hl1 & Hup).
  { apply find_existsb. eauto. }
  assert (x = stack) as -> by congruence. subst sl'. rewrite Hup.
  apply bool_decide_eq_true in Hx as Hd.
  apply Forall_app in Hall as [Ha1 Ha2]. apply Forall_cons in Ha2 as [(it' & Hit' & Hw & Hc) Ha2].
  rewrite Hd in Hit'. assert (it' = it) as -> by congruence.
  split_and!.
  - split.
    + apply Forall_app. split; [done|]. constructor; [|done]. exists it. simpl. by rewrite Hd.
    + intros e ie He Hs. specialize (Hsingle e ie He Hs). revert Hsingle.
      rewrite !List.filter_app, !length_app. cbn [List.filter]. rewrite is_def_set_count. destruct (is_def e stack); done.
  - intros e. rewrite !units_app, !units_cons, is_def_set_count. unfold is_def at 1 2. rewrite Hd.
    cbn [count set_count]. repeat case_bool_decide; try congruence; lia.
  - rewrite !raw_weight_app, !raw_weight_cons. simpl. rewrite Hw. lia.
  - apply Hc.
  - apply Hc.
  - clear -Hl1 Hx. induction Hl1 as [|y l1 Hy _ IH]; simpl.
    + by rewrite is_def_set_count, Hx.
    + by rewrite Hy.
Qed.

Lemma give_slots_ok d it n sl sl' :
  reg !! d = Some it -> slots_ok reg sl -> fits 32 n ->
  give_slots it d n sl = Some sl' ->
  slots_ok reg sl' /\
  (n <= max_stack it ->
   raw_weight sl' = raw_weight sl + weight it * n /\
   forall e, units e sl' = units e sl + if bool_decide (e = d) then n else 0) /\
  (max_stack it < n -> raw_weight sl' <= raw_weight sl).
Proof.
  intros Hit Hsl Hn. unfold give_slots. destruct (Hreg _ _ Hit) as [Hid Hmax Hwt _].
  change (2 ^ 31) with 2147483648 in Hmax. unfold fits in Hn.
  destruct (if stackable it then _ else _) as [stack|] eqn:Hf.
  - destruct (stackable it) eqn:Hst; [|done]. set (m := wrap 32 _).
    destruct (max_stack it <? m) eqn:Hm; intros [= <-]. bool_prop.
    pose proof (wrap_fits 32 (count stack + n) ltac:(lia)) as Hfm. fold m in Hfm.
    unfold fits in Hfm.
    destruct (set_first d it stack m sl Hit Hsl Hf) as (Hok & Hu & Hw & Hc & _); [lia|].
    assert (Hmv : m = count stack + n \/ m = count stack + n - 2 ^ 32).
    { subst m. unfold wrap in *. change (2 ^ 32) with 4294967296 in *.
      pose proof (Z.div_mod (count stack + n) 4294967296). lia. }
    change (2 ^ 32) with 4294967296 in *. split_and!; [done| |].
    + intros Hle. assert (m = count stack + n) as -> by lia.
      split; [rewrite Hw; f_equal; f_equal; lia|]. intros e. rewrite Hu. case_bool_decide; lia.
    + intros Hgt. rewrite Hw. nia.
  - destruct (max_stack it <? n) eqn:Hm; intros [= <-]. bool_prop.
    destruct Hsl as [Hall Hsingle]. split_and!; [| |lia].
    + split.
      * apply Forall_app. split; [done|]. apply Forall_singleton. exists it. simpl.
        rewrite Hid. split_and!; [done..|lia|done].
      * intros e ie He Hs. specialize (Hsingle e ie He Hs). rewrite List.filter_app, length_app.
        simpl. unfold is_def at 2. simpl. rewrite Hid. case_bool_decide; simpl; [|lia]. subst e.
        assert (ie = it) as -> by congruence. rewrite Hs in Hf.
        apply find_None_Forall in Hf. assert (List.filter (is_def d) sl = []) as ->; [|simpl; lia].
        clear -Hf. induction Hf as [|x l Hx _ IH]; simpl; [done|]. by rewrite Hx.
    + intros _. split; [rewrite raw_weight_app; unfold raw_weight at 2; simpl; lia|].
      intros e. rewrite units_app. unfold units at 2. simpl. unfold is_def. simpl. rewrite Hid.
      repeat case_bool_decide; subst; simpl; try done; lia.
Qed.

Lemma take_slots_ok d it n sl sl' :
  reg !! d = Some it -> slots_ok reg sl -> 0 <= n ->
  take_slots d n sl = Some sl' ->
  slots_ok reg sl' /\ n <= max_stack it /\
  raw_weight sl' = raw_weight sl - weight it * n /\
  (forall e, units e sl' = units e sl - if bool_decide (e = d) then n else 0) /\
  is_Some (give_slots it d n sl').
Proof.
  intros Hit Hsl Hn. unfold take_slots. destruct (Hreg _ _ Hit) as [_ Hmax _ _].
  destruct (List.find _ sl) as [stack|] eqn:Hf; [|done].
  destruct (count stack <? n) eqn:Hc; [done|]. bool_prop. cbv zeta. intros [= <-].
  destruct (set_first d it stack 0 sl Hit Hsl Hf ltac:(lia)) as (_ & _ & _ & Hcs & _).
  rewrite wrap_small.
  2: { unfold fits. change (2 ^ 31) with 2147483648 in Hmax. change (2 ^ 32) with 4294967296. lia. }
  destruct (set_first d it stack (count stack - n) sl Hit Hsl Hf ltac:(lia))
    as (Hok & Hu & Hw & _ & Hfind).
  set (sl1 := update_first _ _ sl) in *.
  destruct (count stack - n =? 0) eqn:H0; bool_prop.
  - assert (Hcnt : Forall (fun s => (0 <? count s) = false -> count s = 0) sl1).
    { eapply Forall_impl; [apply Hok|]. intros s (i & _ & _ & ?) ?. bool_prop. lia. }
    split_and!; [|lia| | |].
    + destruct Hok as [Ha Hs]. split; [by eapply Forall_sublist; [apply filterb_sublist|]|].
      intros e ie He Hst. specialize (Hs e ie He Hst). etrans; [|exact Hs].
      apply filterb_length_sublist, filterb_sublist.
    + unfold raw_weight at 1. rewrite sum_filter; [fold (raw_weight sl1); rewrite Hw; lia|].
      eapply Forall_impl; [exact Hcnt|]. simpl. intros s Hs Hz. rewrite Hs by done. lia.
    + intros e. unfold units at 1. rewrite sum_filter; [fold (units e sl1); rewrite Hu; case_bool_decide; lia|].
      eapply Forall_impl; [exact Hcnt|]. simpl. intros s Hs Hz. rewrite Hs by done. by case_match.
    + unfold give_slots. assert (Hlen : stackable it = true ->
        List.find (is_def d) (List.filter (fun s => 0 <? count s) sl1) = None).
      { intros Hst. destruct (List.find _ (List.filter _ _)) as [y|] eqn:Hy; [|done].
        apply find_Some_elem in Hy as [[Hy Hpos]%elem_of_filterb Hyd].
        apply find_Some_elem in Hfind as [Hin Hdd].
        pose proof (proj2 Hok d it Hit Hst) as Hone. exfalso.
        assert (Hy1 : y ∈ List.filter (is_def d) sl1) by by apply elem_of_filterb.
        assert (Hx1 : set_count (count stack - n) stack ∈ List.filter (is_def d) sl1)
          by by apply elem_of_filterb.
        destruct (List.filter (is_def d) sl1) as [|a [|b l]]; simpl in Hone; [|..|lia];
          [by apply not_elem_of_nil in Hy1|].
        apply list_elem_of_singleton in Hy1, Hx1. subst a. rewrite <- Hx1 in Hpos. simpl in Hpos.
        bool_prop. lia. }
      destruct (stackable it); [rewrite Hlen by done|];
        rewrite (proj2 (Z.ltb_ge _ _)) by lia; eauto.
  - split_and!; [done|lia|rewrite Hw; lia| |].
    + intros e. rewrite Hu. case_bool_decide; lia.
    + unfold give_slots. rewrite Hfind. cbn [count set_count]. cbv zeta.
      destruct (stackable it); [|rewrite (proj2 (Z.ltb_ge _ _)) by lia; eauto]. cbn [count set_count].
      replace (count stack - n + n) with (count stack) by lia. rewrite wrap_small.
      * rewrite (proj2 (Z.ltb_ge _ _)) by lia. eauto.
      * unfold fits. change (2 ^ 31) with 2147483648 in Hmax.
        change (2 ^ 32) with 4294967296. lia.
Qed.
End slots.

Lemma raw_weight_nonneg reg sl : registry_ok reg -> slots_ok reg sl -> 0 <= raw_weight sl.
Proof.
  intros Hreg [Hall _]. induction Hall as [|s sl (it & Hit & Hw & Hc) _ IH]; [done|].
  rewrite raw_weight_cons, Hw. pose proof (io_weight _ _ (Hreg _ _ Hit)). nia.
Qed.

Lemma storage_spec s k l s1 inv :
  storage s k l = (s1, inv) -> service_ok s -> fits 31 l ->
  registry s1 = registry s /\ storages s1 = <[k := inv]> (storages s) /\
  inventory_ok (registry s) inv /\ (forall j e, held s1 j e = held s j e) /\ service_ok s1.
Proof.
  intros Hs [Hreg Hinv] Hl. unfold storage in Hs. destruct (storages s !! k) as [i|] eqn:Hk.
  { injection Hs as <- <-. split_and!; [done|by rewrite insert_id|eauto|done|done]. }
  injection Hs as <- <-. simpl.
  assert (Hnew : inventory_ok (registry s) (Inventory l [] 0)).
  { split; [done|]. split; [simpl; apply Hl|]. split; [constructor|]. intros d it _ _. simpl. lia. }
  split_and!; [done..| |].
  - intros j e. unfold held. simpl. destruct (decide (k = j)) as [->|Hne].
    + by rewrite lookup_insert_eq, Hk.
    + by rewrite lookup_insert_ne.
  - split; [done|]. simpl. intros j i [[<- <-]|[_ ?]]%lookup_insert_Some; eauto.
Qed.

Lemma held_put s k sl inv j e :
  held (put s k sl inv) j e = if bool_decide (j = k) then units e sl else held s j e.
Proof.
  unfold held, put. simpl. case_bool_decide as Hj; subst;
    [by rewrite lookup_insert_eq|by rewrite lookup_insert_ne].
Qed.

Lemma put_ok s k sl inv :
  service_ok s -> inventory_ok (registry s) (Inventory (weight_limit inv) sl (depth inv)) ->
  service_ok (put s k sl inv).
Proof.
  intros [Hreg Hinv] Hok. split; [done|]. simpl.
  intros j i [[<- <-]|[_ ?]]%lookup_insert_Some; eauto.
Qed.

Lemma held_lookup s k inv e : storages s !! k = Some inv -> held s k e = units e (slots inv).
Proof. unfold held. by intros ->. Qed.

Lemma give_eq s k l d n it s1 inv :
  registry s !! d = Some it -> storage s k l = (s1, inv) ->
  let total := wrap 32 (total_weight inv + wrap 32 (weight it * n)) in
  exists err, give s k l d n =
    if weight_limit inv <? total then (s1, Err err)
    else match give_slots it d n (slots inv) with
         | Some sl => (put s1 k sl inv, Ok tt)
         | None => (s1, Err (OverStack d))
         end.
Proof.
  intros Hit Hs total. unfold give, give_slots. rewrite Hit, Hs. fold total.
  eexists. destruct (weight_limit inv <? total); [done|].
  destruct (if stackable it then _ else _); by case_match.
Qed.

Lemma take_eq s k l d n s1 inv :
  storage s k l = (s1, inv) ->
  take s k l d n =
    match take_slots d n (slots inv) with
    | Some sl => (put s1 k sl inv, Ok tt)
    | None => (s1, Err (Insufficient d n))
    end.
Proof.
  intros Hs. unfold take, take_slots. rewrite Hs.
  destruct (List.find _ _); [|done]. by case_match.
Qed.

Definition delta (j k : storage_kind) (e d : string) (n : Z) : Z :=
  if bool_decide (j = k /\ e = d) then n else 0.

(** The [u32] weight check computes the true total when the count is legal. *)
Lemma weight_exact reg d it inv n :
  registry_ok reg -> reg !! d = Some it -> inventory_ok reg inv -> 0 <= n <= max_stack it ->
  wrap 32 (total_weight inv + wrap 32 (weight it * n)) = raw_weight (slots inv) + weight it * n.
Proof.
  intros Hreg Hit ([_ Hl] & Hr & Hs) Hn. destruct (Hreg _ _ Hit) as [_ _ Hw Hf].
  pose proof (raw_weight_nonneg _ _ Hreg Hs). rewrite total_weight_raw, wrap_add_l, wrap_add_r.
  apply wrap_small. unfold fits. change (2 ^ 31) with 2147483648 in *.
  change (2 ^ 32) with 4294967296. nia.
Qed.

Lemma give_ok s k l d n s' r :
  service_ok s -> fits 31 l -> fits 32 n -> give s k l d n = (s', r) ->
  service_ok s' /\ registry s' = registry s /\
  match r with
  | Err _ => forall j e, held s' j e = held s j e
  | Ok _ => forall it, registry s !! d = Some it -> n <= max_stack it ->
      forall j e, held s' j e = held s j e + delta j k e d n
  end.
Proof.
  intros Hs Hl Hn Hg. destruct (registry s !! d) as [it|] eqn:Hit.
  2: { unfold give in Hg. rewrite Hit in Hg. by injection Hg as <- <-. }
  destruct (storage s k l) as [s1 inv] eqn:Hst.
  destruct (storage_spec _ _ _ _ _ Hst Hs Hl) as (Hreg & Hsto & Hinv & Hheld & Hok1).
  destruct (give_eq s k l d n it s1 inv Hit Hst) as [err Hgive]. rewrite Hgive in Hg. clear Hgive.
  destruct (weight_limit inv <? _) eqn:Hlim; [by injection Hg as <- <-|]. bool_prop.
  destruct (give_slots it d n (slots inv)) as [sl|] eqn:Hgs; injection Hg as <- <-; [|done].
  pose proof (proj1 Hs) as Hro. pose proof Hinv as (Hwl & Hraw & Hsl).
  destruct (give_slots_ok (registry s) Hro d it n _ _ Hit Hsl Hn Hgs) as (Hsl' & Hle & Hgt).
  split_and!; [|done|].
  - apply put_ok; [done|]. rewrite Hreg. split; [done|]. split; [|done]. cbn [slots weight_limit].
    destruct (decide (n <= max_stack it)) as [Hnm|Hnm]; [|etrans; [apply Hgt; lia|done]].
    destruct (Hle Hnm) as [-> _]. unfold fits in Hn. rewrite (weight_exact (registry s) d) in Hlim by (done || lia). done.
  - intros it' [= <-] Hnm j e. destruct (Hle Hnm) as [_ Hu]. rewrite held_put. unfold delta.
    case_bool_decide as Hj; [subst j|].
    + rewrite Hu, <- Hheld, (held_lookup s1 k inv) by (by rewrite Hsto, lookup_insert_eq).
      repeat case_bool_decide; naive_solver.
    + rewrite Hheld. case_bool_decide; naive_solver lia.
Qed.

Lemma take_ok s k l d n s' r :
  service_ok s -> fits 31 l -> fits 32 n -> take s k l d n = (s', r) ->
  service_ok s' /\ registry s' = registry s /\
  match r with
  | Err _ => forall j e, held s' j e = held s j e
  | Ok _ => exists it, registry s !! d = Some it /\ n <= max_stack it /\
      (forall j e, held s' j e = held s j e - delta j k e d n) /\
      (forall s2, registry s2 = registry s' -> storages s2 !! k = storages s' !! k ->
         (give s2 k l d n).2 = Ok tt)
  end.
Proof.
  intros Hs Hl Hn Ht. destruct (storage s k l) as [s1 inv] eqn:Hst.
  destruct (storage_spec _ _ _ _ _ Hst Hs Hl) as (Hreg & Hsto & Hinv & Hheld & Hok1).
  rewrite (take_eq _ _ _ _ _ _ _ Hst) in Ht.
  destruct (take_slots d n (slots inv)) as [sl|] eqn:Hts; injection Ht as <- <-; [|done].
  pose proof (proj1 Hs) as Hro. pose proof Hinv as (Hwl & Hraw & Hsl). unfold fits in Hn.
  assert (exists it, registry s !! d = Some it) as [it Hit].
  { unfold take_slots in Hts. destruct (List.find _ _) as [st|] eqn:Hf; [|done].
    apply find_Some_elem in Hf as [Hin Hd%bool_decide_eq_true].
    destruct (proj1 (Forall_forall _ _) (proj1 Hsl) st Hin) as (it & Hit & _). subst d. eauto. }
  destruct (take_slots_ok (registry s) Hro d it n _ _ Hit Hsl ltac:(lia) Hts)
    as (Hsl' & Hmax & Hw & Hu & Hback).
  pose proof (io_weight _ _ (Hro _ _ Hit)) as Hwt.
  assert (Hinv' : inventory_ok (registry s) (Inventory (weight_limit inv) sl (depth inv))).
  { split; [done|]. split; [|done]. cbn [slots weight_limit]. rewrite Hw. nia. }
  split_and!; [apply put_ok; [done|by rewrite Hreg]|done|].
  exists it. split_and!; [done..| |].
  - intros j e. rewrite held_put. unfold delta. case_bool_decide as Hj; [subst j|].
    + rewrite Hu, <- Hheld, (held_lookup s1 k inv) by (by rewrite Hsto, lookup_insert_eq).
      repeat case_bool_decide; naive_solver.
    + rewrite Hheld. case_bool_decide; naive_solver lia.
  - intros s2 Hr2 Hk2. cbn [put registry] in Hr2. rewrite Hreg in Hr2.
    unfold put in Hk2. simpl in Hk2. rewrite lookup_insert_eq in Hk2.
    set (inv2 := Inventory (weight_limit inv) sl (depth inv)) in *.
    assert (Hst2 : storage s2 k l = (s2, inv2)) by (unfold storage; by rewrite Hk2).
    rewrite <- Hr2 in Hit. destruct (give_eq s2 k l d n it s2 inv2 Hit Hst2) as [err ->].
    rewrite (weight_exact (registry s) d) by (rewrite Hr2 in Hit; done || lia).
    cbn [slots weight_limit inv2]. rewrite Hw. rewrite (proj2 (Z.ltb_ge _ _)) by lia.
    destruct Hback as [sl2 ->]. done.
Qed.

(** A transfer that fails leaves every quantity as it was. *)
Lemma transfer_ok s from to l d n s' r :
  service_ok s -> fits 31 l -> fits 32 n -> transfer s from to l d n = (s', r) ->
  service_ok s' /\
  match r with
  | Err _ => forall j e, held s' j e = held s j e
  | Ok _ => forall j e, held s' j e = held s j e - delta j from e d n + delta j to e d n
  end.
Proof.
  intros Hs Hl Hn Ht. unfold transfer in Ht.
  destruct (storage s to l) as [s0 inv0] eqn:Hst.
  destruct (storage_spec _ _ _ _ _ Hst Hs Hl) as (Hreg0 & _ & _ & Hheld0 & Hok0).
  case_bool_decide; [by injection Ht as <- <-|].
  destruct (take s0 from l d n) as [s1 [[]|e1]] eqn:Htk;
    destruct (take_ok _ _ _ _ _ _ _ Hok0 Hl Hn Htk) as (Hok1 & Hreg1 & Htake).
  2: { injection Ht as <- <-. split; [done|]. intros j e. by rewrite Htake, Hheld0. }
  destruct Htake as (it & Hit & Hmax & Hheld1 & Hback).
  destruct (give s1 to l d n) as [s2 [[]|e2]] eqn:Hgv;
    destruct (give_ok _ _ _ _ _ _ _ Hok1 Hl Hn Hgv) as (Hok2 & Hreg2 & Hgive).
  { injection Ht as <- <-. split; [done|]. intros j e.
    rewrite (Hgive it) by (rewrite ?Hreg1; done). rewrite Hheld1, Hheld0. lia. }
  injection Ht as <- <-.
  assert (Hsame : from <> to -> storages s2 !! from = storages s1 !! from).
  { intros Hne. unfold give in Hgv. destruct (registry s1 !! d); [|by injection Hgv as <- _].
    assert (Hst1 : storages (storage s1 to l).1 !! from = storages s1 !! from).
    { unfold storage. destruct (storages s1 !! to); simpl; [done|]. by rewrite lookup_insert_ne. }
    destruct (storage s1 to l) as [s3 inv3]. simpl in Hst1.
    repeat (case_match; simplify_eq); done. }
  destruct (decide (from = to)) as [->|Hne].
  { specialize (Hback s1 eq_refl eq_refl). rewrite Hgv in Hback. done. }
  specialize (Hback s2 Hreg2 (Hsame Hne)).
  destruct (give s2 from l d n) as [s3 r3] eqn:Hgb. simpl in Hback. subst r3.
  destruct (give_ok _ _ _ _ _ _ _ Hok2 Hl Hn Hgb) as (Hok3 & _ & Hgive3). split; [done|].
  intros j e. cbn [fst]. rewrite (Hgive3 it) by (rewrite ?Hreg2, ?Hreg1; done).
  rewrite Hgive, Hheld1, Hheld0. lia.
Qed.


Definition bandage : item := Item "ald:bandage" "Bandage" 100 true 10 false.
Definition shop : list inventory_op :=
  [Give (Player 1) 5000 "ald:bandage" 8; Give (Vehicle 9) 300 "ald:bandage" 2].


(** Re-registering an item with a larger weight makes the roll-back fail: the
    rejected transfer destroys the units it took. *)
Lemma rollback_lost_after_reregister :
  let s0 := run inventory_step (InventoryService {["ald:bandage" := bandage]} ∅) shop in
  let s := register s0 (Item "ald:bandage" "Bandage" 4000 true 10 false) in
  let r := transfer s (Player 1) (Vehicle 9) 0 "ald:bandage" 5 in
  is_ok r.2 = false /\ held s (Player 1) "ald:bandage" = 8 /\
  held r.1 (Player 1) "ald:bandage" = 3.
Proof. vm_compute. split_and!; reflexivity. Qed.

(** The [u32] product of the weight check wraps: 2 units of 2^31 g pass a
    limit of zero. *)
Lemma weight_check_wraps :
  let s := register service_new (Item "ald:anvil" "Anvil" (2 ^ 31) true 10 false) in
  (give s (Property 1) 0 "ald:anvil" 2).2 = Ok tt.
Proof. vm_compute. reflexivity. Qed.
