(* ===== verification/Framework.v ===== *)
(** Jobs and characters of the gameplay framework
    (framework/aldivine/src: jobs.rs, players.rs). Player identities are the
    128-bit values of their ulids; errors carry what the source's carry. *)
From S2P Require Import Prelude.

Module Jobs.

Record grade := Grade {
  grade_no : Z; grade_name : string; grade_rank : Z; grade_salary : Z }.
Record job := Job { job_name : string; label : string; grades : list grade }.

Inductive job_error :=
| UnknownJob (j : string)
| UnknownGrade (j : string) (g : Z)
| NotEmployed (what : string).

Inductive duty_state := OnDuty | OffDuty.
#[global] Instance duty_state_eq_dec : EqDecision duty_state.
Proof. solve_decision. Defined.

Record employment_rec := Employment { emp_job : string; emp_grade : Z; duty : duty_state }.

Record job_service := JobService {
  jobs : gmap string job;
  employments : gmap Z employment_rec }.

Definition service_new : job_service := JobService ∅ ∅.

(** The [for (i, g) in grades.iter().enumerate()] check. *)
Fixpoint check_grades (name : string) (i : Z) (gs : list grade) : result unit job_error :=
  match gs with
  | [] => Ok tt
  | g :: gs =>
      if negb (grade_no g =? wrap 32 i) then Err (UnknownGrade name (grade_no g))
      else check_grades name (i + 1) gs
  end.

Definition register (s : job_service) (j : job) : job_service * result unit job_error :=
  let gs := sort_by grade_no (grades j) in
  match check_grades (job_name j) 0 gs with
  | Err e => (s, Err e)
  | Ok _ =>
      (JobService (<[job_name j := Job (job_name j) (label j) gs]> (jobs s)) (employments s),
       Ok tt)
  end.

Definition set (s : job_service) (player : Z) (j : string) (g : Z) :
    job_service * result unit job_error :=
  match jobs s !! j with
  | None => (s, Err (UnknownJob j))
  | Some jb =>
      if negb (existsb (fun x => grade_no x =? g) (grades jb)) then (s, Err (UnknownGrade j g))
      else (JobService (jobs s) (<[player := Employment j g OffDuty]> (employments s)), Ok tt)
  end.

Definition fire (s : job_service) (player : Z) : job_service * result unit job_error :=
  match employments s !! player with
  | Some _ => (JobService (jobs s) (delete player (employments s)), Ok tt)
  | None => (s, Err (NotEmployed "unemployed"))
  end.

Definition set_duty (s : job_service) (player : Z) (d : duty_state) :
    job_service * result unit job_error :=
  match employments s !! player with
  | Some e =>
      (JobService (jobs s)
         (<[player := Employment (emp_job e) (emp_grade e) d]> (employments s)), Ok tt)
  | None => (s, Err (NotEmployed "unemployed"))
  end.

Definition employment (s : job_service) (player : Z) : option employment_rec :=
  employments s !! player.

Definition find_grade (s : job_service) (e : employment_rec) : option grade :=
  j ← jobs s !! emp_job e; List.find (fun g => grade_no g =? emp_grade e) (grades j).

Definition salary (s : job_service) (player : Z) : Z :=
  match employments s !! player with
  | Some e =>
      if bool_decide (duty e = OnDuty) then default 0 (grade_salary <$> find_grade s e) else 0
  | None => 0
  end.

Definition rank (s : job_service) (player : Z) : Z :=
  default 0 (grade_rank <$> (employments s !! player ≫= find_grade s)).

Inductive job_op :=
| Register (j : job) | Set_ (p : Z) (j : string) (g : Z) | Fire (p : Z)
| SetDuty (p : Z) (d : duty_state).

Definition job_step (s : job_service) (o : job_op) : job_service :=
  match o with
  | Register j => (register s j).1
  | Set_ p j g => (set s p j g).1
  | Fire p => (fire s p).1
  | SetDuty p d => (set_duty s p d).1
  end.

(** The grade numbers 0, 1, .., n-1. *)
Definition grade_range (n : nat) : list Z := Z.of_nat <$> seq 0 n.

Lemma check_grades_ok name i gs :
  0 <= i -> i + Z.of_nat (length gs) <= 2 ^ 32 ->
  is_ok (check_grades name i gs) = true <->
  grade_no <$> gs = (fun k => i + Z.of_nat k) <$> seq 0 (length gs).
Proof.
  revert i. induction gs as [|g gs IH]; intros i Hi Hlen; [done|].
  cbn [length] in *. cbn [check_grades seq]. rewrite !fmap_cons, Z.add_0_r.
  rewrite wrap_small by (unfold fits; lia).
  rewrite <- fmap_S_seq, <- list_fmap_compose.
  rewrite (list_fmap_ext _ (fun k => (i + 1) + Z.of_nat k) (seq 0 (length gs)))
    by (intros; simpl; lia).
  destruct (grade_no g =? i) eqn:Hg; cbn [negb]; bool_prop.
  - rewrite IH by lia. rewrite Hg. split; [by intros ->|]. by intros [= ?].
  - split; [done|]. intros [= ? ?]. congruence.
Qed.

Lemma sorted_perm_eq (l1 l2 : list Z) :
  StronglySorted Z.le l1 -> StronglySorted Z.le l2 -> l1 ≡ₚ l2 -> l1 = l2.
Proof. intros. by apply (StronglySorted_unique Z.le). Qed.

Lemma grade_range_sorted n : StronglySorted Z.le (grade_range n).
Proof.
  unfold grade_range. generalize 0%nat. induction n as [|n IH]; intros k; [constructor|].
  cbn [seq]. rewrite fmap_cons. constructor; [apply IH|].
  apply Forall_fmap, Forall_seq. simpl. intros; lia.
Qed.

Lemma register_ok s j :
  Z.of_nat (length (grades j)) <= 2 ^ 32 ->
  is_ok (register s j).2 = true <-> grade_no <$> grades j ≡ₚ grade_range (length (grades j)).
Proof.
  intros Hlen. unfold register. set (gs := sort_by grade_no (grades j)).
  assert (Hp : gs ≡ₚ grades j) by apply sort_by_perm.
  assert (Hl : length gs = length (grades j)) by (by rewrite Hp).
  assert (Hs : StronglySorted Z.le (grade_no <$> gs)).
  { pose proof (sort_by_sorted grade_no (grades j)) as Hs. fold gs in Hs. unfold key_le in Hs.
    clear -Hs. induction Hs; simpl; constructor; [done|]. by apply Forall_fmap. }
  pose proof (check_grades_ok (job_name j) 0 gs ltac:(lia) ltac:(by rewrite Hl)) as Hc.
  change (fun k => 0 + Z.of_nat k) with Z.of_nat in Hc. fold (grade_range (length gs)) in Hc.
  rewrite Hl in Hc. rewrite <- (fmap_Permutation grade_no _ _ Hp).
  destruct (check_grades _ _ _); simpl in *.
  - split; [|done]. intros _. by rewrite (proj1 Hc).
  - split; [done|]. intros Hperm. apply Hc. apply sorted_perm_eq; [done| |done].
    apply grade_range_sorted.
Qed.

Definition jobs_ok (s : job_service) : Prop :=
  (forall name j, jobs s !! name = Some j ->
     is_ok (check_grades name 0 (grades j)) = true) /\
  (forall p e, employments s !! p = Some e -> 0 <= emp_grade e).

Lemma check_grades_nonneg name i gs g :
  is_ok (check_grades name i gs) = true ->
  existsb (fun x => grade_no x =? g) gs = true -> 0 <= g.
Proof.
  revert i. induction gs as [|x gs IH]; intros i; simpl; [done|].
  destruct (grade_no x =? wrap 32 i) eqn:Hx; [|done]. simpl. bool_prop.
  intros Hok [Hg|Hg]%orb_true_iff; [|by eapply IH].
  bool_prop. subst g. rewrite Hx. apply (wrap_fits 32). lia.
Qed.

Lemma job_step_ok s o : jobs_ok s -> jobs_ok (job_step s o).
Proof.
  intros [Hj He]. destruct o; simpl; unfold register, set, fire, set_duty;
    repeat (case_match; simpl; try by split); split; simpl; try done.
  - intros name jb [[<- <-]|[_ ?]]%lookup_insert_Some; [|eauto]. simpl.
    by match goal with E : check_grades _ _ _ = _ |- _ => rewrite E end.
  - intros q x [[<- <-]|[_ ?]]%lookup_insert_Some; [|eauto]. simpl.
    bool_prop. eapply check_grades_nonneg; [|done]. by eapply Hj.
  - intros q x [_ ?]%lookup_delete_Some. eauto.
  - intros q x [[<- <-]|[_ ?]]%lookup_insert_Some; simpl; eauto.
Qed.

Lemma find_grade_nth (gs : list grade) i g :
  0 <= i -> i + Z.of_nat (length gs) <= 2 ^ 32 ->
  grade_no <$> gs = (fun k => i + Z.of_nat k) <$> seq 0 (length gs) -> i <= g ->
  List.find (fun x => grade_no x =? g) gs = gs !! Z.to_nat (g - i).
Proof.
  revert i. induction gs as [|x gs IH]; intros i Hi Hlen Heq Hg; [done|].
  cbn [length seq] in *. rewrite !fmap_cons, <- fmap_S_seq, <- list_fmap_compose in Heq.
  injection Heq as Hx Heq. rewrite Z.add_0_r in Hx. simpl. destruct (grade_no x =? g) eqn:Hxg;
    bool_prop.
  - by replace (g - i) with 0 by lia.
  - rewrite (IH (i + 1)); [|lia|lia| |lia].
    + replace (Z.to_nat (g - i)) with (S (Z.to_nat (g - (i + 1)))) by lia. done.
    + rewrite Heq. apply list_fmap_ext. intros; simpl; lia.
Qed.

(** A job is registered exactly when its grades are numbered 0 to n-1 in
    some order; in every reachable state an on-duty player is paid the salary
    of the entry at its grade's index in the registered job, and an off-duty
    or dismissed player nothing. *)
Theorem job_service_spec (ops : list job_op) :
  let s := run job_step service_new ops in
  (forall j, Z.of_nat (length (grades j)) <= 2 ^ 32 ->
     is_ok (register s j).2 = true <->
     grade_no <$> grades j ≡ₚ grade_range (length (grades j))) /\
  (forall p e jb, employment s p = Some e -> jobs s !! emp_job e = Some jb ->
     Z.of_nat (length (grades jb)) <= 2 ^ 32 -> duty e = OnDuty ->
     salary s p = default 0 (grade_salary <$> grades jb !! Z.to_nat (emp_grade e))) /\
  (forall p, salary (fire s p).1 p = 0) /\ (forall p, salary (set_duty s p OffDuty).1 p = 0).
Proof.
  intros s. assert (Hs : jobs_ok s).
  { apply (run_invariant job_step jobs_ok); [apply job_step_ok|].
    split; intros n j; simpl; by rewrite lookup_empty. }
  split_and!.
  - intros j. apply register_ok.
  - intros p e jb He Hjb Hlen Hd. unfold salary, find_grade. unfold employment in He.
    rewrite He, bool_decide_true, Hjb by done. simpl.
    rewrite (find_grade_nth _ 0); [by rewrite Z.sub_0_r|lia|lia| |by eapply Hs].
    apply (check_grades_ok (emp_job e)); [lia|lia|]. by apply Hs.
  - intros p. unfold salary, fire. destruct (employments s !! p) eqn:Hp; simpl; [|by rewrite Hp].
    by rewrite lookup_delete_eq.
  - intros p. unfold salary, set_duty. destruct (employments s !! p) eqn:Hp; simpl; [|by rewrite Hp].
    by rewrite lookup_insert_eq.
Qed.
End Jobs.

Module Players.

Inductive player_status := Online | Offline | Banned.
#[global] Instance player_status_eq_dec : EqDecision player_status.
Proof. solve_decision. Defined.

Record character := Character { char_id : Z; char_name : string; char_job : string }.

Record player := Player {
  identity : Z;
  status : player_status;
  characters : list character;
  active_character : option Z }.

Inductive player_error := NoCharacter (c : Z) | SlotLimit | DuplicateName.

Record player_service := PlayerService {
  players : gmap Z player;
  names : gmap string Z }.

Definition MAX_CHARACTERS : nat := 5.

Definition service_new : player_service := PlayerService ∅ ∅.

Definition join (s : player_service) (i : Z) : player_service :=
  match players s !! i with
  | Some _ => s
  | None => PlayerService (<[i := Player i Online [] None]> (players s)) (names s)
  end.

Definition leave (s : player_service) (i : Z) : player_service :=
  match players s !! i with
  | Some p =>
      PlayerService (<[i := Player (identity p) Offline (characters p) None]> (players s))
        (names s)
  | None => s
  end.

Definition create_character (s : player_service) (i : Z) (name : string) :
    player_service * result Z player_error :=
  match names s !! name with
  | Some _ => (s, Err DuplicateName)
  | None =>
      match players s !! i with
      | None => (s, Err (NoCharacter 0))
      | Some p =>
          if bool_decide (MAX_CHARACTERS <= length (characters p))%nat then (s, Err SlotLimit)
          else
            let id := wrap 32 (wrap 32 (Z.of_nat (length (characters p))) + 1) in
            (PlayerService
               (<[i := Player (identity p) (status p)
                         (characters p ++ [Character id name "unemployed"])
                         (active_character p)]> (players s))
               (<[name := i]> (names s)), Ok id)
      end
  end.

Definition select_character (s : player_service) (i c : Z) :
    player_service * result unit player_error :=
  match players s !! i with
  | None => (s, Err (NoCharacter c))
  | Some p =>
      if negb (existsb (fun x => char_id x =? c) (characters p)) then (s, Err (NoCharacter c))
      else
        (PlayerService
           (<[i := Player (identity p) (status p) (characters p) (Some c)]> (players s))
           (names s), Ok tt)
  end.

Definition get (s : player_service) (i : Z) : option player := players s !! i.

Definition online_count (s : player_service) : nat :=
  length (List.filter (fun p => bool_decide (status p.2 = Online)) (map_to_list (players s))).

Inductive player_op :=
| Join (i : Z) | Leave (i : Z) | CreateCharacter (i : Z) (name : string)
| SelectCharacter (i c : Z).

Definition player_step (s : player_service) (o : player_op) : player_service :=
  match o with
  | Join i => join s i
  | Leave i => leave s i
  | CreateCharacter i n => (create_character s i n).1
  | SelectCharacter i c => (select_character s i c).1
  end.

Definition char_names (p : player) : list string := char_name <$> characters p.

Record player_ok (i : Z) (p : player) : Prop := {
  po_identity : identity p = i;
  po_slots : (length (characters p) <= MAX_CHARACTERS)%nat;
  po_ids : char_id <$> characters p = Z.of_nat <$> seq 1 (length (characters p));
  po_names : NoDup (char_names p);
  po_active : forall c, active_character p = Some c -> c ∈ char_id <$> characters p }.

Record players_ok (s : player_service) : Prop := {
  ps_player : forall i p, players s !! i = Some p -> player_ok i p;
  ps_index : forall n i, names s !! n = Some i <->
    exists p, players s !! i = Some p /\ n ∈ char_names p }.

(** An update that keeps a player's characters keeps the invariant. *)
Lemma update_player_ok s i p p' :
  players_ok s -> players s !! i = Some p -> player_ok i p' -> characters p' = characters p ->
  players_ok (PlayerService (<[i := p']> (players s)) (names s)).
Proof.
  intros [Hp Hn] Hi Hok Hc. split; simpl.
  - intros j q [[<- <-]|[_ ?]]%lookup_insert_Some; eauto.
  - intros n j. rewrite Hn. destruct (decide (i = j)) as [<-|Hne].
    + rewrite lookup_insert_eq. unfold char_names.
      split; [intros (q & Hq & Hin); exists p'|intros (q & [= <-] & Hin); exists p];
        (split; [done|]); simplify_eq; congruence.
    + by rewrite lookup_insert_ne.
Qed.

Lemma create_ok s i n : players_ok s -> players_ok (create_character s i n).1.
Proof.
  intros Hs. unfold create_character. destruct (names s !! n) as [o|] eqn:Hno; [done|].
  destruct (players s !! i) as [p|] eqn:Hi; [|done]. case_bool_decide as Hlen; [done|].
  cbn [fst]. set (p' := Player _ _ _ _). unfold MAX_CHARACTERS in *.
  destruct Hs as [Hp Hn]. pose proof (Hp _ _ Hi) as [Hid Hsl Hids Hnd Hact].
  assert (Hfresh : forall j q, players s !! j = Some q -> n ∉ char_names q).
  { intros j q Hq Hin. assert (names s !! n = Some j) by (apply Hn; eauto). congruence. }
  assert (Hnames : char_names p' = char_names p ++ [n]).
  { unfold char_names. simpl. by rewrite fmap_app. }
  split; simpl.
  - intros j q [[<- <-]|[_ ?]]%lookup_insert_Some; [|eauto]. split; simpl.
    + done.
    + rewrite length_app. simpl. unfold MAX_CHARACTERS. lia.
    + rewrite length_app, fmap_app, Hids, Nat.add_comm. cbn [length Nat.add].
      rewrite (seq_S (length (characters p))), fmap_app. f_equal. simpl. f_equal.
      rewrite wrap_add_l, wrap_small; [lia|]. unfold fits. change (2 ^ 32) with 4294967296. lia.
    + rewrite Hnames. apply NoDup_app. split_and!; [done| |apply NoDup_singleton].
      intros x Hx ->%list_elem_of_singleton. by eapply Hfresh.
    + intros c Hc. rewrite fmap_app, elem_of_app. left. by apply Hact.
  - intros m j. rewrite lookup_insert_Some. destruct (decide (i = j)) as [<-|Hne].
    + rewrite lookup_insert_eq. split.
      * intros [[<- _]|[_ Hm]]; exists p'; (split; [done|]); rewrite Hnames, elem_of_app;
          [right; by apply list_elem_of_singleton|left].
        apply Hn in Hm as (q & Hq & Hin). congruence.
      * intros (q & [= <-] & Hin). rewrite Hnames, elem_of_app, list_elem_of_singleton in Hin.
        destruct (decide (n = m)); [by left|right]. split; [done|]. apply Hn. exists p.
        split; [done|]. naive_solver.
    + rewrite lookup_insert_ne by done. rewrite <- Hn. split.
      * intros [[_ <-]|[_ Hm]]; [done|done].
      * intros Hm. right. split; [|done]. intros <-. congruence.
Qed.

Lemma player_step_ok s o : players_ok s -> players_ok (player_step s o).
Proof.
  intros Hs. destruct o as [i|i|i n|i c]; simpl.
  - unfold join. destruct (players s !! i) eqn:Hi; [done|]. destruct Hs as [Hp Hn]. split; simpl.
    + intros j q [[<- <-]|[_ ?]]%lookup_insert_Some; [|eauto].
      split; simpl; [done|lia|done|constructor|done].
    + intros n j. rewrite Hn. destruct (decide (i = j)) as [<-|Hne].
      * rewrite lookup_insert_eq. split; [intros (q & ? & _); congruence|].
        intros (q & [= <-] & Hin). by apply not_elem_of_nil in Hin.
      * by rewrite lookup_insert_ne.
  - unfold leave. destruct (players s !! i) as [p|] eqn:Hi; [|done].
    eapply update_player_ok; [done|done| |done]. pose proof (ps_player _ Hs _ _ Hi) as []. by split.
  - by apply create_ok.
  - unfold select_character. destruct (players s !! i) as [p|] eqn:Hi; [|done].
    destruct (existsb _ _) eqn:Hc; simpl; [|done].
    eapply update_player_ok; [done|done| |done]. pose proof (ps_player _ Hs _ _ Hi) as [].
    split; simpl; try done. intros c' [= <-].
    apply existsb_elem in Hc as (x & Hx & Heq). bool_prop. apply list_elem_of_fmap. eauto.
Qed.

Lemma players_ok_new : players_ok service_new.
Proof.
  split; simpl.
  - intros i p. by rewrite lookup_empty.
  - intros n i. rewrite lookup_empty. split; [done|]. intros (p & Hp & _).
    by rewrite lookup_empty in Hp.
Qed.

(** In every reachable state character names are unique across the whole
    server and the name index names exactly the owner of each; a player has at
    most five characters, in slots 1, 2, ..; the active character is one of
    the player's own; and creation succeeds exactly for a known player with a
    free slot and an unused name, giving the next slot. *)
Theorem player_service_invariant (ops : list player_op) :
  let s := run player_step service_new ops in
  (forall i p, get s i = Some p -> player_ok i p) /\
  (forall n i, names s !! n = Some i <-> exists p, get s i = Some p /\ n ∈ char_names p) /\
  (forall i j p q n, get s i = Some p -> get s j = Some q ->
     n ∈ char_names p -> n ∈ char_names q -> i = j) /\
  (forall i n c, (create_character s i n).2 = Ok c <->
     names s !! n = None /\ exists p, get s i = Some p /\
       (length (characters p) < MAX_CHARACTERS)%nat /\
       c = Z.of_nat (length (characters p)) + 1).
Proof.
  intros s. assert (Hs : players_ok s).
  { apply (run_invariant player_step players_ok); [apply player_step_ok|apply players_ok_new]. }
  destruct Hs as [Hp Hn]. split_and!; [exact Hp|exact Hn| |].
  - intros i j p q n Hi Hj Hpn Hqn.
    assert (names s !! n = Some i) by (apply Hn; eauto).
    assert (names s !! n = Some j) by (apply Hn; eauto). congruence.
  - intros i n c. unfold create_character, get. destruct (names s !! n); [naive_solver|].
    destruct (players s !! i) as [p|]; [|naive_solver].
    case_bool_decide as Hlen; simpl.
    + split; [done|]. intros (_ & q & [= <-] & Hlt & _). lia.
    + rewrite wrap_add_l, wrap_small.
      * split; [intros [= <-]; split; [done|]; exists p; split_and!; [done|lia|lia]|].
        intros (_ & q & [= <-] & _ & ->). done.
      * unfold fits, MAX_CHARACTERS in *. change (2 ^ 32) with 4294967296. lia.
Qed.

(** A player that leaves and joins again stays [Offline]. *)
Lemma rejoin_stays_offline i :
  let s := run player_step service_new [Join i; Leave i; Join i] in
  (status <$> get s i) = Some Offline /\ online_count s = 0%nat.
Proof.
  assert (Hs : run player_step service_new [Join i; Leave i; Join i] =
    PlayerService {[i := Player i Offline [] None]} ∅).
  { assert (H1 : join service_new i = PlayerService {[i := Player i Online [] None]} ∅)
      by (unfold join, service_new; cbn [players]; by rewrite lookup_empty).
    assert (H2 : leave (PlayerService {[i := Player i Online [] None]} ∅) i =
      PlayerService {[i := Player i Offline [] None]} ∅).
    { unfold leave. cbn [players]. rewrite lookup_singleton_eq. cbn [identity characters names].
      f_equal. apply insert_singleton_eq. }
    assert (H3 : join (PlayerService {[i := Player i Offline [] None]} ∅) i =
      PlayerService {[i := Player i Offline [] None]} ∅)
      by (unfold join; cbn [players]; by rewrite lookup_singleton_eq).
    cbn [run foldl player_step]. by rewrite H1, H2, H3. }
  rewrite Hs. unfold get, online_count. cbn [players]. rewrite lookup_singleton_eq.
  split; [done|]. by rewrite map_to_list_singleton.
Qed.
End Players.
