(* ===== verification/Ecs.v ===== *)
(** The entity store and entity ownership (crates/ald-ecs/src: lib.rs,
    ownership.rs). Slots are reused; an id pairs the slot with a generation, a
    [u32] that wraps. The isolation planes over the store are in Planes.v. *)
From S2P Require Import Prelude.

Record entity_id := EntityId { index : nat; generation : Z }.
#[global] Instance entity_id_eq_dec : EqDecision entity_id.
Proof. solve_decision. Defined.

Inductive authority := Server | Player (p : Z) | Resource (r : Z).
#[global] Instance authority_eq_dec : EqDecision authority.
Proof. solve_decision. Defined.

Record entity := Entity {
  ent_id : entity_id;
  ent_authority : authority;
  components : gmap string (list Z);
  active : bool }.

(** The [free] vector is held top first. *)
Record entity_store := EntityStore {
  slots : list (option entity);
  free : list nat;
  generations : list Z }.

Definition store_new : entity_store := EntityStore [] [] [].

Definition spawn (s : entity_store) (a : authority) : entity_store * entity_id :=
  let '(i, slots1, free1, gens1) :=
    match free s with
    | i :: rest => (i, slots s, rest, generations s)
    | [] =>
        (Z.to_nat (wrap 32 (Z.of_nat (length (slots s)))), slots s ++ [None], [],
         generations s ++ [0])
    end in
  let id := EntityId i (gens1 !!! i) in
  (EntityStore (<[i := Some (Entity id a ∅ true)]> slots1) free1 gens1, id).

Definition get (s : entity_store) (id : entity_id) : option entity :=
  match slots s !! index id with
  | Some (Some e) =>
      if (generation (ent_id e) =? generation id) && active e then Some e else None
  | _ => None
  end.

(** A write through [get_mut]. *)
Definition update_mut (s : entity_store) (id : entity_id) (f : entity -> entity) :
    entity_store :=
  match get s id with
  | Some e => EntityStore (<[index id := Some (f e)]> (slots s)) (free s) (generations s)
  | None => s
  end.

Definition destroy (s : entity_store) (id : entity_id) : entity_store * bool :=
  match slots s !! index id with
  | Some (Some e) =>
      if generation (ent_id e) =? generation id then
        (EntityStore (<[index id := None]> (slots s)) (index id :: free s)
           (<[index id := wrap 32 (generations s !!! index id + 1)]> (generations s)), true)
      else (s, false)
  | _ => (s, false)
  end.

Definition set_component (s : entity_store) (id : entity_id) (name : string) (data : list Z) :
    entity_store * result unit string :=
  match get s id with
  | None => (s, Err "entity not found or stale"%string)
  | Some _ =>
      (update_mut s id (fun e =>
         Entity (ent_id e) (ent_authority e) (<[name := data]> (components e)) (active e)), Ok tt)
  end.

Definition count (s : entity_store) : nat :=
  length (List.filter (fun o => match o with Some e => active e | None => false end) (slots s)).

(** ** Ownership *)
Inductive transfer_refusal :=
| OwnerMismatch (expected actual : authority)
| MustReleaseFirst (from to : authority).

Inductive transfer_outcome :=
| Transferred (from to : authority)
| Refused (reason : transfer_refusal)
| NotFound.

Definition transfer (s : entity_store) (id : entity_id) (expected next : authority) :
    entity_store * transfer_outcome :=
  match get s id with
  | None => (s, NotFound)
  | Some e =>
      let actual := ent_authority e in
      if negb (bool_decide (actual = expected)) then (s, Refused (OwnerMismatch expected actual))
      else if negb (bool_decide (actual = Server)) && negb (bool_decide (next = Server)) &&
              negb (bool_decide (actual = next)) then
        (s, Refused (MustReleaseFirst actual next))
      else
        (update_mut s id (fun e => Entity (ent_id e) next (components e) (active e)),
         Transferred actual next)
  end.

Definition owner_of (s : entity_store) (id : entity_id) : option authority :=
  ent_authority <$> get s id.

(** ** Executions *)
Inductive store_op :=
| Spawn (a : authority) | Destroy (id : entity_id)
| SetComponent (id : entity_id) (name : string) (data : list Z)
| Transfer (id : entity_id) (expected next : authority).

Definition store_step (s : entity_store) (o : store_op) : entity_store :=
  match o with
  | Spawn a => (spawn s a).1
  | Destroy id => (destroy s id).1
  | SetComponent id n d => (set_component s id n d).1
  | Transfer id e n => (transfer s id e n).1
  end.

(** [n] bounds the operations so far, hence slots and generations. *)
Record store_ok (n : Z) (s : entity_store) : Prop := {
  so_len : length (generations s) = length (slots s);
  so_slots : Z.of_nat (length (slots s)) <= n;
  so_gens : forall i g, generations s !! i = Some g -> 0 <= g <= n;
  so_ids : forall i e, slots s !! i = Some (Some e) ->
    index (ent_id e) = i /\ generations s !! i = Some (generation (ent_id e)) /\
    active e = true;
  so_free : NoDup (free s) /\ forall i, i ∈ free s -> slots s !! i = Some None }.

Definition occupied (s : entity_store) (i : nat) : Prop := exists e, slots s !! i = Some (Some e).

(** Later states: generations only grow, and a slot is emptied only together
    with a new generation. *)
Definition later (p s : entity_store) : Prop :=
  forall i g, generations p !! i = Some g ->
    exists g', generations s !! i = Some g' /\ g <= g' /\
      (g = g' -> occupied p i -> occupied s i).

Lemma later_refl s : later s s.
Proof. intros i g Hg. exists g. split_and!; [done|lia|done]. Qed.

Lemma later_trans a b c : later a b -> later b c -> later a c.
Proof.
  intros Hab Hbc i g Hg. destruct (Hab i g Hg) as (g1 & Hg1 & Hle1 & Ho1).
  destruct (Hbc i g1 Hg1) as (g2 & Hg2 & Hle2 & Ho2). exists g2. split_and!; [done|lia|].
  intros <- Hocc. apply Ho2; [lia|]. apply Ho1; [lia|done].
Qed.

Lemma get_Some n s id e :
  store_ok n s -> get s id = Some e <->
  slots s !! index id = Some (Some e) /\ ent_id e = id.
Proof.
  intros Hs. unfold get. destruct (slots s !! index id) as [[x|]|] eqn:Hx; [|naive_solver..].
  destruct (so_ids _ _ Hs _ _ Hx) as (Hi & Hg & Ha). rewrite Ha, andb_true_r.
  destruct (_ =? _) eqn:Hgen; bool_prop.
  - split; [|naive_solver]. intros [= <-]. split; [done|].
    destruct (ent_id x), id; simpl in *; congruence.
  - split; [done|]. intros [[= <-] Heq]. by rewrite Heq in Hgen.
Qed.

Lemma update_ok n s id f :
  store_ok n s -> (forall e, ent_id (f e) = ent_id e /\ active (f e) = active e) ->
  store_ok n (update_mut s id f) /\ later s (update_mut s id f).
Proof.
  intros Hs Hf. unfold update_mut. destruct (get s id) as [e|] eqn:He;
    [|split; [done|apply later_refl]].
  apply (get_Some n) in He as [He Hid]; [|done].
  destruct (so_ids _ _ Hs _ _ He) as (Hi & Hg & Ha). destruct (Hf e) as [Hfi Hfa].
  pose proof (lookup_lt_Some _ _ _ He) as Hlt. destruct Hs as [Hlen Hsl Hgens Hids [Hnd Hfree]].
  split; [split|]; cbn [slots free generations]; try done.
  - by rewrite length_insert.
  - by rewrite length_insert.
  - intros i x Hx. apply list_lookup_insert_Some in Hx as [(<- & [= <-] & _)|[_ Hx]]; [|eauto].
    rewrite Hfi, Hfa. eauto.
  - split; [done|]. intros i Hin. rewrite list_lookup_insert_ne; [by apply Hfree|].
    intros <-. by rewrite Hfree in He by done.
  - intros i g Hgi. cbn [slots generations]. exists g. split_and!; [done|lia|].
    intros _ [x Hx]. unfold occupied. cbn [slots].
    destruct (decide (index id = i)) as [<-|Hne];
      [rewrite list_lookup_insert_eq by done|rewrite list_lookup_insert_ne by done]; eauto.
Qed.

Lemma spawn_ok n s a s' id :
  store_ok n s -> n + 1 < 2 ^ 32 -> spawn s a = (s', id) ->
  store_ok (n + 1) s' /\ later s s' /\
  get s' id = Some (Entity id a ∅ true) /\
  generations s' !! index id = Some (generation id) /\ ~ occupied s (index id) /\
  (forall id', id' <> id -> get s' id' = get s id').
Proof.
  intros Hs Hn Hsp. pose proof Hs as [Hlen Hsl Hgens Hids [Hnd Hfree]].
  unfold spawn in Hsp. destruct (free s) as [|i rest] eqn:Hf.
  - rewrite wrap_small, Nat2Z.id in Hsp by (unfold fits; lia).
    set (k := length (slots s)) in *.
    assert (Hg : (generations s ++ [0]) !!! k = 0).
    { apply list_lookup_total_correct. by rewrite lookup_app_r, Hlen, Nat.sub_diag by lia. }
    rewrite Hg in Hsp. injection Hsp as <- <-.
    assert (Hins : forall o : option entity, <[k:=o]> (slots s ++ [None]) = slots s ++ [o]).
    { intros o. by rewrite insert_app_r_alt, Nat.sub_diag by (unfold k; lia). }
    rewrite Hins. unfold get. cbn [index generation slots generations].
    assert (Hk : (slots s ++ [Some (Entity (EntityId k 0) a ∅ true)]) !! k =
      Some (Some (Entity (EntityId k 0) a ∅ true)))
      by by rewrite lookup_app_r, Nat.sub_diag by (unfold k; lia).
    split_and!; [split| | | | |]; cbn [slots generations free].
    + rewrite !length_app, Hlen. done.
    + rewrite length_app. simpl. lia.
    + intros i g [Hi|(_ & Hi)]%lookup_app_Some; [destruct (Hgens _ _ Hi); lia|].
      apply list_lookup_singleton_Some in Hi as [_ <-]. lia.
    + intros i e [Hi|(Hge & Hi)]%lookup_app_Some.
      * destruct (Hids _ _ Hi) as (? & ? & ?). split_and!; [done| |done]. by apply lookup_app_l_Some.
      * apply list_lookup_singleton_Some in Hi as [Hi0 [= <-]]. cbn [ent_id index generation active].
        fold k in Hge, Hi0. assert (i = k) as -> by lia. split_and!; [done| |done].
        by rewrite lookup_app_r, Hlen, Nat.sub_diag by lia.
    + split; [constructor|]. intros i Hi. by apply not_elem_of_nil in Hi.
    + intros i g Hi. exists g. cbn [slots generations]. split_and!; [by apply lookup_app_l_Some|lia|].
      intros _ [e He]. exists e. cbn [slots]. by apply lookup_app_l_Some.
    + by rewrite Hk.
    + by rewrite lookup_app_r, Hlen, Nat.sub_diag by lia.
    + intros [e He]. apply lookup_lt_Some in He. unfold k in He. lia.
    + intros [i g] Hne. cbn [index generation]. destruct (decide (i = k)) as [->|].
      * rewrite Hk. cbn [ent_id generation]. rewrite (lookup_ge_None_2 (slots s)) by (unfold k; lia).
        destruct (0 =? g) eqn:Hg0; bool_prop; [congruence|done].
      * destruct (decide (i < k)%nat); [by rewrite lookup_app_l|].
        rewrite !lookup_ge_None_2; [done|unfold k in *; lia|rewrite length_app; simpl; unfold k in *; lia].
  - pose proof (Hfree i ltac:(by left)) as Hi. pose proof (lookup_lt_Some _ _ _ Hi) as Hlt.
    destruct (lookup_lt_is_Some_2 (generations s) i ltac:(lia)) as [g Hg].
    rewrite (list_lookup_total_correct _ _ _ Hg) in Hsp. injection Hsp as <- <-.
    apply NoDup_cons in Hnd as [Hnin Hnd].
    unfold get. cbn [index generation slots generations].
    split_and!; [split| | | | |]; cbn [slots generations free].
    + by rewrite length_insert.
    + rewrite length_insert. lia.
    + intros j h Hj. destruct (Hgens _ _ Hj). lia.
    + intros j e Hj. apply list_lookup_insert_Some in Hj as [(<- & [= <-] & _)|[_ Hj]]; [done|eauto].
    + split; [done|]. intros j Hj. rewrite list_lookup_insert_ne; [apply Hfree; by right|].
      by intros ->.
    + intros j h Hj. exists h. cbn [slots generations]. split_and!; [done|lia|].
      intros _ [e He]. unfold occupied. cbn [slots].
      destruct (decide (i = j)) as [<-|]; [congruence|]. exists e. by rewrite list_lookup_insert_ne.
    + by rewrite list_lookup_insert_eq, Z.eqb_refl by done.
    + done.
    + intros [e He]. congruence.
    + intros [j h] Hne. cbn [index generation]. destruct (decide (i = j)) as [<-|].
      * rewrite list_lookup_insert_eq, Hi by done. cbn [ent_id generation].
        destruct (g =? h) eqn:Hgh; bool_prop; [congruence|done].
      * by rewrite list_lookup_insert_ne.
Qed.

Lemma destroy_ok n s id s' b :
  store_ok n s -> n + 1 < 2 ^ 32 -> destroy s id = (s', b) ->
  store_ok (n + 1) s' /\ later s s' /\
  (if b then generations s' !! index id = Some (generation id + 1) /\ is_Some (get s id)
   else s' = s) /\
  (forall id', id' <> id -> get s' id' = get s id').
Proof.
  intros Hs Hn Hd. pose proof Hs as [Hlen Hsl Hgens Hids [Hnd Hfree]].
  assert (Hno : store_ok (n + 1) s).
  { split; try done; [lia|]. intros i g Hg. destruct (Hgens _ _ Hg). lia. }
  unfold destroy in Hd. destruct (slots s !! index id) as [[e|]|] eqn:He;
    [|by injection Hd as <- <-; split_and!; [done|apply later_refl|done|done]..].
  destruct (Hids _ _ He) as (Hi & Hg & Ha).
  destruct (_ =? _) eqn:Hgen; bool_prop;
    [|by injection Hd as <- <-; split_and!; [done|apply later_refl|done|done]].
  pose proof (lookup_lt_Some _ _ _ He) as Hlt. destruct (Hgens _ _ Hg) as [Hg0 Hgn].
  rewrite (list_lookup_total_correct _ _ _ Hg) in Hd. rewrite wrap_small in Hd by (unfold fits; lia).
  injection Hd as <- <-. rewrite Hgen in *.
  split_and!; [split| | | |]; cbn [slots generations free].
  - by rewrite !length_insert.
  - rewrite length_insert. lia.
  - intros j h Hj. apply list_lookup_insert_Some in Hj as [(<- & <- & _)|[_ Hj]]; [lia|].
    destruct (Hgens _ _ Hj). lia.
  - intros j x Hj. apply list_lookup_insert_Some in Hj as [(_ & ? & _)|[Hne Hj]]; [done|].
    rewrite list_lookup_insert_ne by done. eauto.
  - split; [constructor; [|done]; intros Hin; by rewrite Hfree in He by done|].
    intros j Hj. destruct (decide (index id = j)) as [<-|]; [by rewrite list_lookup_insert_eq|].
    rewrite list_lookup_insert_ne by done. apply Hfree. set_solver.
  - intros j h Hj. cbn [slots generations]. destruct (decide (index id = j)) as [<-|].
    + rewrite list_lookup_insert_eq by lia. eexists. split_and!; [done| |]; assert (h = generation id) by congruence; lia.
    + rewrite list_lookup_insert_ne by done. exists h. split_and!; [done|lia|].
      intros _ [x Hx]. exists x. cbn [slots]. by rewrite list_lookup_insert_ne.
  - by rewrite list_lookup_insert_eq by lia.
  - exists e. apply (get_Some n); [done|]. split; [done|].
    destruct (ent_id e), id; simpl in *; congruence.
  - intros [j h] Hne. unfold get. cbn [index generation slots].
    destruct (decide (index id = j)) as [<-|]; [|by rewrite list_lookup_insert_ne].
    rewrite list_lookup_insert_eq, He by done. destruct (_ =? h) eqn:Hh; [|done]. bool_prop.
    destruct id; simpl in *; congruence.
Qed.

Lemma store_ok_weaken n m s : n <= m -> store_ok n s -> store_ok m s.
Proof.
  intros Hle [? ? Hg ? ?]. split; try done; [lia|].
  intros i g Hi. destruct (Hg _ _ Hi). lia.
Qed.

Lemma transfer_update s id expected next :
  (transfer s id expected next).1 = s \/
  (transfer s id expected next).1 =
    update_mut s id (fun e => Entity (ent_id e) next (components e) (active e)).
Proof. unfold transfer. repeat (case_match; simpl; eauto). Qed.

Lemma set_component_update s id name data :
  (set_component s id name data).1 =
  update_mut s id (fun e =>
    Entity (ent_id e) (ent_authority e) (<[name := data]> (components e)) (active e)).
Proof. unfold set_component, update_mut. by destruct (get s id). Qed.

Lemma store_step_ok n s o :
  store_ok n s -> n + 1 < 2 ^ 32 ->
  store_ok (n + 1) (store_step s o) /\ later s (store_step s o).
Proof.
  intros Hs Hn. assert (Hno : store_ok (n + 1) s) by (eapply store_ok_weaken; [|done]; lia).
  destruct o as [a|id|id name data|id e nx]; cbn [store_step].
  - destruct (spawn s a) as [s' id] eqn:E. by apply (spawn_ok n) in E as (? & ? & _).
  - destruct (destroy s id) as [s' b] eqn:E. by apply (destroy_ok n) in E as (? & ? & _).
  - rewrite set_component_update. by apply update_ok.
  - destruct (transfer_update s id e nx) as [-> | ->]; [split; [done|apply later_refl]|].
    by apply update_ok.
Qed.

Lemma store_run_ok n s ops :
  store_ok n s -> n + Z.of_nat (length ops) < 2 ^ 32 ->
  store_ok (n + Z.of_nat (length ops)) (run store_step s ops) /\
  later s (run store_step s ops).
Proof.
  revert n s. induction ops as [|o ops IH]; intros n s Hs Hn.
  { simpl. rewrite Z.add_0_r. split; [done|apply later_refl]. }
  cbn [length] in Hn. cbn [run foldl].
  destruct (store_step_ok n s o Hs ltac:(lia)) as [Hs1 Hl1].
  destruct (IH (n + 1) (store_step s o) Hs1 ltac:(lia)) as [Hs2 Hl2].
  replace (n + Z.of_nat (length (o :: ops))) with (n + 1 + Z.of_nat (length ops)) by (cbn [length]; lia).
  split; [done|]. by eapply later_trans.
Qed.

Lemma store_ok_new : store_ok 0 store_new.
Proof.
  split; simpl; try done; [intros i ?; by rewrite lookup_nil..|].
  split; [constructor|]. intros i Hi. by apply not_elem_of_nil in Hi.
Qed.

(** An id whose generation has been left behind resolves to nothing. *)
Lemma stale_dead n s id g :
  store_ok n s -> generations s !! index id = Some g -> generation id < g -> get s id = None.
Proof.
  intros Hs Hg Hlt. destruct (get s id) as [e|] eqn:He; [|done].
  apply (get_Some n) in He as [He <-]; [|done]. destruct (so_ids _ _ Hs _ _ He) as (_ & Hg' & _).
  assert (g = generation (ent_id e)) by congruence. lia.
Qed.

Lemma dead_stays n m s t id :
  store_ok n s -> store_ok m t -> later s t ->
  (exists g, generations s !! index id = Some g /\ generation id < g) -> get t id = None.
Proof.
  intros Hs Ht Hl (g & Hg & Hlt). destruct (Hl _ _ Hg) as (g' & Hg' & Hle & _).
  eapply stale_dead; [done|done|]. lia.
Qed.

(** C10: generation safety. In an execution of fewer than 2^32 operations an
    id returned by [spawn] was never resolved by any earlier state, resolves
    to the new entity at once, and after its destruction no later state ever
    resolves it again, however often the slot is reused. *)
Theorem generation_safety (before : list store_op) (a : authority) (between after : list store_op) :
  Z.of_nat (length before) + Z.of_nat (length between) + Z.of_nat (length after) + 2 < 2 ^ 32 ->
  let s := run store_step store_new before in
  let '(s1, id) := spawn s a in
  (forall earlier rest, before = earlier ++ rest ->
     get (run store_step store_new earlier) id = None) /\
  get s1 id = Some (Entity id a ∅ true) /\
  (let s2 := run store_step s1 between in
   let '(s3, b) := destroy s2 id in
   b = true -> get (run store_step s3 after) id = None).
Proof.
  intros Hlen s. destruct (spawn s a) as [s1 id] eqn:Hsp.
  destruct (store_run_ok 0 store_new before store_ok_new ltac:(lia)) as [Hs _].
  rewrite Z.add_0_l in Hs.
  destruct (spawn_ok _ _ _ _ _ Hs ltac:(lia) Hsp) as (Hs1 & Hl1 & Hget & Hgen & Hfree & _).
  split_and!; [|done|].
  - intros earlier rest ->. destruct (get (run _ _ earlier) id) as [e|] eqn:He; [|done]. exfalso.
    rewrite length_app in *. unfold s in *. rewrite run_app in *.
    destruct (store_run_ok 0 store_new earlier store_ok_new ltac:(lia)) as [Hp _].
    rewrite Z.add_0_l in Hp. destruct (store_run_ok _ _ rest Hp ltac:(lia)) as [_ Hl].
    apply (get_Some _ _ _ _ Hp) in He as [He <-]. destruct (so_ids _ _ Hp _ _ He) as (_ & Hg & _).
    destruct (Hl _ _ Hg) as (g' & Hg' & Hle & Hocc).
    destruct (Hl1 _ _ Hg') as (g2 & Hg2 & Hle2 & _).
    apply Hfree, Hocc; [|by exists e]. assert (g2 = generation (ent_id e)) by congruence. lia.
  - cbv zeta. destruct (destroy (run store_step s1 between) id) as [s3 b] eqn:Hd. intros ->.
    destruct (store_run_ok _ _ between Hs1 ltac:(lia)) as [Hs2 _].
    destruct (destroy_ok _ _ _ _ _ Hs2 ltac:(lia) Hd) as (Hs3 & _ & [Hg3 _] & _).
    destruct (store_run_ok _ _ after Hs3 ltac:(lia)) as [Hs4 Hl4].
    eapply dead_stays; [exact Hs3|exact Hs4|exact Hl4|]. eexists. split; [exact Hg3|lia].
Qed.

Lemma generation_safety_witness :
  let s := run store_step store_new [Spawn Server; Destroy (EntityId 0 0)] in
  let '(s1, id) := spawn s (Player 7) in
  id = EntityId 0 1 /\ get s1 id = Some (Entity id (Player 7) ∅ true).
Proof.
  split; [vm_compute; reflexivity|].
  exact (proj1 (proj2 (generation_safety [Spawn Server; Destroy (EntityId 0 0)] (Player 7)
    [] [] ltac:(vm_compute; reflexivity)))).
Defined.

Lemma get_update n s id f id' :
  store_ok n s -> (forall e, ent_id (f e) = ent_id e /\ active (f e) = active e) ->
  get (update_mut s id f) id' = (if decide (id' = id) then f <$> get s id else get s id').
Proof.
  intros Hs Hf. unfold update_mut. destruct (get s id) as [e|] eqn:He; [|by case_decide; subst].
  pose proof He as Hg. apply (get_Some n) in Hg as [Hsl Hid]; [|done].
  pose proof (lookup_lt_Some _ _ _ Hsl) as Hlt.
  destruct (so_ids _ _ Hs _ _ Hsl) as (_ & _ & Ha). destruct (Hf e) as [Hfi Hfa].
  unfold get at 1. cbn [slots]. case_decide as Heq.
  - subst id'. rewrite list_lookup_insert_eq, Hfi, Hfa, Hid, Z.eqb_refl, Ha by done. done.
  - destruct (decide (index id = index id')) as [Hi|Hi].
    + rewrite <- Hi, list_lookup_insert_eq by done. rewrite Hfi, Hid.
      destruct (generation id =? generation id') eqn:Hgen; bool_prop.
      * destruct id, id'; simpl in *; congruence.
      * simpl. unfold get. rewrite <- Hi, Hsl, Hid. rewrite (proj2 (Z.eqb_neq _ _)) by done. done.
    + by rewrite list_lookup_insert_ne.
Qed.

Lemma owner_step n s o id a :
  store_ok n s -> n + 1 < 2 ^ 32 -> owner_of s id = Some a ->
  owner_of (store_step s o) id = Some a \/
  (exists b, owner_of (store_step s o) id = Some b /\ (a = Server \/ b = Server)) \/
  (exists g, generations (store_step s o) !! index id = Some g /\ generation id < g).
Proof.
  intros Hs Hn. unfold owner_of. intros (e & He & ->)%fmap_Some.
  destruct o as [a|id'|id' name data|id' ex nx]; cbn [store_step].
  - destruct (spawn s a) as [s' id'] eqn:E. cbn [fst]. left.
    destruct (spawn_ok n _ _ _ _ Hs Hn E) as (Hs' & _ & Hg & _ & Hocc & Hother).
    rewrite Hother, He; [done|]. intros ->. apply Hocc.
    apply (get_Some n) in He as [He _]; [|done]. by exists e.
  - destruct (destroy s id') as [s' b] eqn:E. cbn [fst].
    destruct (destroy_ok n _ _ _ _ Hs Hn E) as (_ & _ & Hb & Hother).
    destruct (decide (id = id')) as [<-|]; [|left; by rewrite Hother, He].
    destruct b; [|left; by rewrite Hb, He]. do 2 right. eexists. split; [apply Hb|]. lia.
  - left. rewrite set_component_update, (get_update n) by done.
    case_decide; subst; by rewrite He.
  - destruct (decide (id = id')) as [<-|Hne].
    + unfold transfer. rewrite He. case_bool_decide; cbn [negb]; [|left; cbn [fst]; by rewrite He].
      destruct (negb _ && _ && _) eqn:Hg; cbn [fst]; [left; by rewrite He|].
      rewrite (get_update n), decide_True, He by done. cbn [fmap option_fmap option_map ent_authority].
      repeat case_bool_decide; try done; subst; eauto 6.
    + left. destruct (transfer_update s id' ex nx) as [-> | ->]; [by rewrite He|].
      by rewrite (get_update n), decide_False, He by done.
Qed.

(** The server is the hub of ownership: whenever an entity that belongs to
    one player or resource is later found to belong to another, the server
    owned it at some moment in between; no sequence of operations hands it
    over directly. *)
Theorem ownership_hub (before ops : list store_op) (id : entity_id) (a b : authority) :
  Z.of_nat (length before) + Z.of_nat (length ops) < 2 ^ 32 ->
  let s := run store_step store_new before in
  owner_of s id = Some a -> owner_of (run store_step s ops) id = Some b -> a <> b ->
  exists ops1 ops2, ops = ops1 ++ ops2 /\ owner_of (run store_step s ops1) id = Some Server.
Proof.
  intros Hlen s. destruct (store_run_ok 0 store_new before store_ok_new ltac:(lia)) as [Hs _].
  rewrite Z.add_0_l in Hs. fold s in Hs. revert Hs Hlen. generalize s. clear s.
  generalize (Z.of_nat (length before)). intros n s. revert n s a.
  induction ops as [|o ops IH]; intros n s a Hs Hn Ha Hb Hne; [simpl in Hb; congruence|].
  cbn [length] in Hn. cbn [run foldl] in Hb.
  destruct (store_step_ok n s o Hs ltac:(lia)) as [Hs1 Hl1].
  destruct (owner_step n s o id a Hs ltac:(lia) Ha) as [Ha'|[(c & Hc & [->| ->])|(g & Hg & Hlt)]].
  - destruct (IH (n + 1) _ a Hs1 ltac:(lia) Ha' Hb Hne) as (o1 & o2 & -> & Ho).
    exists (o :: o1), o2. done.
  - by exists [], (o :: ops).
  - exists [o], ops. done.
  - exfalso. destruct (store_run_ok _ _ ops Hs1 ltac:(lia)) as [Hs2 Hl2].
    assert (Hdead : get (run store_step (store_step s o) ops) id = None)
      by (eapply dead_stays; [exact Hs1|exact Hs2|exact Hl2|eauto]).
    change (ent_authority <$> get (run store_step (store_step s o) ops) id = Some b) in Hb.
    by rewrite Hdead in Hb.
Qed.

Lemma ownership_hub_witness :
  let id := EntityId 0 0 in
  let s := run store_step store_new [Spawn (Player 7)] in
  let ops := [Transfer id (Player 7) Server; Transfer id Server (Player 9)] in
  owner_of (run store_step s ops) id = Some (Player 9) /\
  exists ops1 ops2, ops = ops1 ++ ops2 /\ owner_of (run store_step s ops1) id = Some Server.
Proof.
  intros id s ops. split; [vm_compute; reflexivity|].
  apply (ownership_hub [Spawn (Player 7)] ops id (Player 7) (Player 9));
    first [vm_compute; reflexivity|discriminate].
Defined.
