(* ===== verification/Planes.v ===== *)
(** Isolation planes and their budgets: dimensions over the entity store
    (crates/ald-ecs/src/dimensions.rs), the ambient population budget of a
    dimension (crates/ald-population/src/lib.rs) and the routing buckets that
    adapt both (crates/ald-buckets/src/lib.rs). [f32] values are the binary32
    numbers of the Standard Library's [SpecFloat]; hooks are the events the
    managers hand to them. *)
From Stdlib Require Import Floats.SpecFloat.
From S2P Require Import Prelude Ecs.

(** ** Dimensions *)
Definition DEFAULT : Z := 0.

Abbreviation dimension_map := (gmap (nat * Z) Z).

Definition key (id : entity_id) : nat * Z := (index id, generation id).
Definition of_key (k : nat * Z) : entity_id := EntityId k.1 k.2.

Definition live (s : entity_store) (id : entity_id) : bool := bool_decide (is_Some (get s id)).

Definition set (m : dimension_map) (s : entity_store) (id : entity_id) (d : Z) :
    dimension_map * bool :=
  if live s id then (<[key id := d]> m, true) else (m, false).

Definition dimension_of (m : dimension_map) (s : entity_store) (id : entity_id) : option Z :=
  if live s id then Some (default DEFAULT (m !! key id)) else None.

Definition remove (m : dimension_map) (id : entity_id) : dimension_map * bool :=
  (delete (key id) m, bool_decide (is_Some (m !! key id))).

Definition prune (m : dimension_map) (s : entity_store) : dimension_map * nat :=
  let m' := filter (fun p => live s (of_key p.1) = true) m in
  (m', (size m - size m')%nat).

(** In the map's iteration order, which the source leaves unspecified. *)
Definition members_of (m : dimension_map) (s : entity_store) (d : Z) : list entity_id :=
  List.filter (live s)
    ((fun p => of_key p.1) <$> List.filter (fun p => p.2 =? d) (map_to_list m)).

Definition visible_to (m : dimension_map) (s : entity_store) (a b : entity_id) : bool :=
  match dimension_of m s a, dimension_of m s b with
  | Some da, Some db => da =? db
  | _, _ => false
  end.

Definition assignment_count (m : dimension_map) : nat := size m.

(** The store and the map together. *)
Inductive world_op :=
| Store (o : store_op)
| SetDim (id : entity_id) (d : Z)
| RemoveDim (id : entity_id)
| Prune.

Definition world := (entity_store * dimension_map)%type.

Definition world_step (w : world) (o : world_op) : world :=
  match o with
  | Store o => (store_step w.1 o, w.2)
  | SetDim id d => (w.1, (set w.2 w.1 id d).1)
  | RemoveDim id => (w.1, (remove w.2 id).1)
  | Prune => (w.1, (prune w.2 w.1).1)
  end.

(** Every key was alive when it was assigned: its generation is not ahead of
    its slot's, and if it is the slot's current one the slot is occupied. *)
Definition keys_seen (w : world) : Prop :=
  forall i g, is_Some (w.2 !! (i, g)) ->
    exists g', generations w.1 !! i = Some g' /\ g <= g' /\ (g = g' -> occupied w.1 i).

Lemma live_seen n s id :
  store_ok n s -> live s id = true ->
  exists g', generations s !! index id = Some g' /\ generation id <= g' /\
    (generation id = g' -> occupied s (index id)).
Proof.
  intros Hs Hl. apply bool_decide_eq_true in Hl as [e He].
  apply (get_Some n) in He as [He <-]; [|done].
  destruct (so_ids _ _ Hs _ _ He) as (_ & Hg & _). eexists. split_and!; [exact Hg|lia|].
  intros _. by exists e.
Qed.

Lemma world_step_ok n w o :
  store_ok n w.1 -> keys_seen w -> n + 1 < 2 ^ 32 ->
  store_ok (n + 1) (world_step w o).1 /\ keys_seen (world_step w o).
Proof.
  destruct w as [s m]. cbn [fst]. intros Hs Hk Hn.
  assert (Hno : store_ok (n + 1) s) by (eapply store_ok_weaken; [|done]; lia).
  destruct o as [o|id d|id|]; cbn [world_step fst snd].
  - destruct (store_step_ok n s o Hs Hn) as [Hs' Hl]. split; [done|].
    intros i g Hi. destruct (Hk i g Hi) as (g1 & Hg1 & Hle1 & Ho1).
    destruct (Hl _ _ Hg1) as (g2 & Hg2 & Hle2 & Ho2). exists g2.
    split_and!; [done|lia|]. intros ->. apply Ho2; [lia|]. apply Ho1. lia.
  - split; [done|]. unfold set. destruct (live s id) eqn:Hl; [|done]. cbn [fst].
    intros i g [x Hx]. cbn [fst snd] in *.
    apply lookup_insert_Some in Hx as [[[= <- <-] _]|[_ Hi]]; [by eapply live_seen|].
    apply Hk. by exists x.
  - split; [done|]. intros i g [x Hx]. cbn [fst snd remove] in *.
    apply lookup_delete_Some in Hx as [_ Hi]. apply Hk. by exists x.
  - split; [done|]. intros i g [d Hd]. cbn [fst snd prune] in Hd.
    apply map_lookup_filter_Some in Hd as [Hd _]. apply Hk. by exists d.
Qed.

Lemma world_run_ok n w ops :
  store_ok n w.1 -> keys_seen w -> n + Z.of_nat (length ops) < 2 ^ 32 ->
  store_ok (n + Z.of_nat (length ops)) (run world_step w ops).1 /\
  keys_seen (run world_step w ops).
Proof.
  revert n w. induction ops as [|o ops IH]; intros n w Hs Hk Hn.
  { cbn [run foldl length]. by rewrite Z.add_0_r. }
  cbn [length] in *. cbn [run foldl].
  destruct (world_step_ok n w o Hs Hk ltac:(lia)) as [Hs1 Hk1].
  replace (n + Z.of_nat (S (length ops))) with (n + 1 + Z.of_nat (length ops)) by lia.
  by apply IH; [..|lia].
Qed.

Lemma prune_dimension m s id : dimension_of (prune m s).1 s id = dimension_of m s id.
Proof.
  unfold dimension_of. destruct (live s id) eqn:Hl; [|done]. do 2 f_equal. cbn [prune fst].
  destruct (m !! key id) as [d|] eqn:Hd.
  - apply map_lookup_filter_Some. split; [done|]. simpl. by destruct id.
  - apply map_lookup_filter_None. by left.
Qed.

Lemma members_of_spec m s d id :
  id ∈ members_of m s d <-> live s id = true /\ m !! key id = Some d.
Proof.
  unfold members_of. rewrite elem_of_filterb, list_elem_of_fmap. split.
  - intros [([[i g] d'] & -> & [Hin Hd]%elem_of_filterb) Hl]. split; [done|].
    apply elem_of_map_to_list in Hin. simpl in Hd. bool_prop. by subst.
  - intros [Hl Hm]. split; [|done]. exists (key id, d). split; [by destruct id|].
    apply elem_of_filterb. split; [by apply elem_of_map_to_list|]. apply Z.eqb_refl.
Qed.

(** Isolation by dimension, in every state that fewer than 2^32 - 1
    operations reach: an entity spawned into a reused slot starts in the
    default plane (it inherits nothing), an assignment to a live entity takes
    effect for it alone, pruning changes no entity's plane, two entities see
    each other exactly when both live in the same plane, and [members_of]
    lists exactly the live entities of a plane (of the default plane, only
    those assigned to it explicitly). *)
Theorem dimension_isolation (ops : list world_op) :
  Z.of_nat (length ops) + 1 < 2 ^ 32 ->
  let '(s, m) := run world_step (store_new, ∅) ops in
  (forall a, let '(s', id) := spawn s a in dimension_of m s' id = Some DEFAULT) /\
  (forall id d, live s id = true ->
     let '(m', ok) := set m s id d in
     ok = true /\ forall id', dimension_of m' s id' =
       if decide (id' = id) then Some d else dimension_of m s id') /\
  (forall id, dimension_of (prune m s).1 s id = dimension_of m s id) /\
  (forall a b, visible_to m s a b = true <->
     exists d, dimension_of m s a = Some d /\ dimension_of m s b = Some d) /\
  (forall d id, id ∈ members_of m s d <->
     dimension_of m s id = Some d /\ (d <> DEFAULT \/ is_Some (m !! key id))).
Proof.
  intros Hlen. destruct (run world_step (store_new, ∅) ops) as [s m] eqn:Hrun.
  assert (Hok : store_ok (Z.of_nat (length ops)) s /\ keys_seen (s, m)).
  { rewrite <- Hrun, <- (Z.add_0_l (Z.of_nat (length ops))).
    change s with (s, m).1. rewrite <- Hrun. apply world_run_ok; [apply store_ok_new| |lia].
    intros i g [d Hd]. cbn [snd] in Hd. by apply lookup_empty_Some in Hd. }
  destruct Hok as [Hs Hk]. split_and!.
  - intros a. destruct (spawn s a) as [s' id] eqn:Hsp.
    destruct (spawn_ok _ _ _ _ _ Hs ltac:(lia) Hsp) as (Hs' & Hl & Hget & Hgen & Hfree & _).
    unfold dimension_of, live. rewrite Hget, bool_decide_true by done.
    destruct (m !! key id) as [d|] eqn:Hd; [|done]. exfalso.
    destruct (Hk (index id) (generation id)) as (g & Hg & Hle & Hocc); [by exists d|].
    cbn [fst] in *. destruct (Hl _ _ Hg) as (g' & Hg' & Hle' & _).
    apply Hfree, Hocc. assert (g' = generation id) by congruence. lia.
  - intros id d Hl. unfold set. rewrite Hl. split; [done|]. intros id'.
    unfold dimension_of. case_decide as Heq; [subst; by rewrite Hl, lookup_insert_eq|].
    rewrite lookup_insert_ne; [done|]. destruct id, id'; unfold key; simpl; congruence.
  - intros id. apply prune_dimension.
  - intros a b. unfold visible_to.
    destruct (dimension_of m s a), (dimension_of m s b); [|naive_solver..].
    rewrite Z.eqb_eq. naive_solver.
  - intros d id. rewrite members_of_spec. unfold dimension_of.
    destruct (live s id); [|naive_solver]. destruct (m !! key id); simpl; naive_solver.
Qed.

Lemma dimension_isolation_witness :
  let ops := [Store (Spawn Server); SetDim (EntityId 0 0) 9; Store (Destroy (EntityId 0 0))] in
  let '(s, m) := run world_step (store_new, ∅) ops in
  m !! key (EntityId 0 0) = Some 9 /\
  (forall a, let '(s', id) := spawn s a in dimension_of m s' id = Some DEFAULT).
Proof.
  split; [vm_compute; reflexivity|].
  exact (proj1 (dimension_isolation [Store (Spawn Server); SetDim (EntityId 0 0) 9;
    Store (Destroy (EntityId 0 0))] ltac:(vm_compute; reflexivity))).
Defined.

(** ** Population budgets *)
Abbreviation f32 := spec_float.
Definition f32_zero : f32 := S754_zero false.
Definition f32_one : f32 := S754_finite false 8388608 (-23).

(** [n as f32] rounds to nearest even; [f as usize] after [floor] saturates
    and sends NaN to zero. *)
Definition f32_of_usize (n : Z) : f32 := binary_normalize 24 128 n 0 false.
Definition f32_mul (a b : f32) : f32 := SFmul 24 128 a b.
Definition floor_as_usize (f : f32) : Z :=
  match f with
  | S754_zero _ | S754_nan | S754_infinity true => 0
  | S754_infinity false => u64_max
  | S754_finite s m e =>
      let v := if s then Z.neg m else Z.pos m in
      let fl := if 0 <=? e then v * 2 ^ e else v / 2 ^ (- e) in
      Z.min u64_max (Z.max 0 fl)
  end.

Inductive population_kind := Ped | Vehicle.
#[global] Instance population_kind_eq_dec : EqDecision population_kind.
Proof. solve_decision. Defined.
#[global] Instance population_kind_countable : Countable population_kind.
Proof.
  refine (inj_countable' (fun k => match k with Ped => true | Vehicle => false end)
    (fun b : bool => if b then Ped else Vehicle) _). by intros [].
Defined.

Record density_policy := DensityPolicy {
  max_peds : Z; max_vehicles : Z; ped_density : f32; vehicle_density : f32 }.

Inductive policy_error := BadDensity (d : f32).

Definition in_unit (d : f32) : bool := SFleb f32_zero d && SFleb d f32_one.

Definition density_policy_new (peds vehicles : Z) (pd vd : f32) :
    result density_policy policy_error :=
  if negb (in_unit pd) then Err (BadDensity pd)
  else if negb (in_unit vd) then Err (BadDensity vd)
  else Ok (DensityPolicy peds vehicles pd vd).

Definition closed : density_policy := DensityPolicy 0 0 f32_zero f32_zero.

Definition cap (p : density_policy) (k : population_kind) : Z :=
  let '(m, d) := match k with
                 | Ped => (max_peds p, ped_density p)
                 | Vehicle => (max_vehicles p, vehicle_density p)
                 end in
  floor_as_usize (f32_mul (f32_of_usize m) d).

Inductive deny_reason := NoPolicy | AtCap (cap : Z).
Inductive spawn_decision := Allow | Deny (r : deny_reason).

Record spawn_event := SpawnEvent {
  ev_kind : population_kind; ev_dimension : Z; ev_decision : spawn_decision;
  count_after : Z }.

Record population_manager := PopulationManager {
  policies : gmap Z density_policy;
  counts : gmap (Z * population_kind) Z }.

Definition population_new : population_manager := PopulationManager ∅ ∅.

Definition count_of (m : population_manager) (k : population_kind) (d : Z) : Z :=
  default 0 (counts m !! (d, k)).

Definition set_policy (m : population_manager) (d : Z) (p : density_policy) : population_manager :=
  PopulationManager (<[d := p]> (policies m)) (counts m).

Definition clear_policy (m : population_manager) (d : Z) : population_manager * bool :=
  (PopulationManager (delete d (policies m)) (counts m),
   bool_decide (is_Some (policies m !! d))).

Definition request_spawn (m : population_manager) (k : population_kind) (d : Z) :
    population_manager * spawn_decision * spawn_event :=
  let decision :=
    match policies m !! d with
    | None => Deny NoPolicy
    | Some p => if count_of m k d <? cap p k then Allow else Deny (AtCap (cap p k))
    end in
  let m' := match decision with
            | Allow => PopulationManager (policies m)
                         (<[(d, k) := wrap 64 (count_of m k d + 1)]> (counts m))
            | Deny _ => m
            end in
  (m', decision, SpawnEvent k d decision (count_of m' k d)).

Definition release (m : population_manager) (k : population_kind) (d : Z) :
    population_manager * bool :=
  match counts m !! (d, k) with
  | Some c =>
      if 0 <? c then (PopulationManager (policies m) (<[(d, k) := c - 1]> (counts m)), true)
      else (m, false)
  | None => (m, false)
  end.

Definition policy_of (m : population_manager) (d : Z) : option density_policy := policies m !! d.

Inductive population_op :=
| SetPolicy (d : Z) (p : density_policy) | ClearPolicy (d : Z)
| Request (k : population_kind) (d : Z) | Release (k : population_kind) (d : Z).

Definition population_step (m : population_manager) (o : population_op) : population_manager :=
  match o with
  | SetPolicy d p => set_policy m d p
  | ClearPolicy d => (clear_policy m d).1
  | Request k d => (request_spawn m k d).1.1
  | Release k d => (release m k d).1
  end.

(** Ambients of a kind in a plane: allowed requests less successful releases. *)
Fixpoint balance (m : population_manager) (ops : list population_op) (k : population_kind)
    (d : Z) : Z :=
  match ops with
  | [] => 0
  | o :: ops =>
      match o with
      | Request k' d' =>
          if bool_decide (k' = k /\ d' = d) then
            match (request_spawn m k d).1.2 with Allow => 1 | Deny _ => 0 end else 0
      | Release k' d' =>
          if bool_decide (k' = k /\ d' = d) then if (release m k d).2 then -1 else 0 else 0
      | _ => 0
      end + balance (population_step m o) ops k d
  end.

Definition keeps_policy (d : Z) (o : population_op) : Prop :=
  match o with SetPolicy d' _ | ClearPolicy d' => d' <> d | _ => True end.

Lemma cap_fits p k : fits 64 (cap p k).
Proof.
  unfold cap, fits. destruct k; unfold floor_as_usize, u64_max;
    destruct (f32_mul _ _) as [|[]| |]; change (2 ^ 64) with 18446744073709551616; lia.
Qed.

Lemma count_of_insert m k d k' d' v :
  count_of (PopulationManager (policies m) (<[(d, k) := v]> (counts m))) k' d' =
  if bool_decide (k = k' /\ d = d') then v else count_of m k' d'.
Proof.
  unfold count_of. cbn [counts]. case_bool_decide as Hb.
  - destruct Hb as [-> ->]. by rewrite lookup_insert_eq.
  - rewrite lookup_insert_ne; [done|]. naive_solver.
Qed.

Definition counts_ok (m : population_manager) : Prop := forall k d, fits 64 (count_of m k d).

(** The count after one step, with what the step may do to it. *)
Lemma population_step_count m o k d :
  counts_ok m ->
  count_of (population_step m o) k d = count_of m k d + balance m [o] k d /\
  (0 < balance m [o] k d -> exists p, policies m !! d = Some p /\ count_of m k d < cap p k) /\
  fits 64 (count_of (population_step m o) k d).
Proof.
  intros Hm. pose proof (Hm k d) as Hc. unfold fits in *. destruct o as [d' p|d'|k' d'|k' d'];
    cbn [balance population_step]; rewrite Z.add_0_r.
  - change (count_of (set_policy m d' p) k d) with (count_of m k d). split_and!; lia.
  - change (count_of (clear_policy m d').1 k d) with (count_of m k d). split_and!; lia.
  - unfold request_spawn. cbn [fst snd].
    destruct (policies m !! d') as [p|] eqn:Hp; [destruct (count_of m k' d' <? cap p k') eqn:Hlt|].
    + bool_prop. rewrite count_of_insert. case_bool_decide as Hb; [|split_and!; lia].
      destruct Hb as [-> ->]. rewrite Hp. cbn [fst snd]. rewrite (proj2 (Z.ltb_lt _ _)) by done.
      pose proof (cap_fits p k) as Hcap. unfold fits in Hcap.
      rewrite wrap_small by (unfold fits; lia). split_and!; [lia|eauto|lia..].
    + case_bool_decide as Hb; [destruct Hb as [-> ->]; rewrite Hp; cbn [fst snd]; rewrite Hlt|];
        split_and!; lia.
    + case_bool_decide as Hb; [destruct Hb as [-> ->]; rewrite Hp; cbn [fst snd]|];
        split_and!; lia.
  - unfold release. destruct (counts m !! (d', k')) as [c|] eqn:Hcnt;
      [destruct (0 <? c) eqn:Hpos|]; bool_prop; cbn [fst].
    + rewrite count_of_insert. case_bool_decide as Hb; [|split_and!; lia].
      destruct Hb as [-> ->]. rewrite Hcnt, (proj2 (Z.ltb_lt _ _)) by done. cbn [snd].
      unfold count_of in *. rewrite Hcnt in *. cbn [from_option id] in *. split_and!; lia.
    + case_bool_decide as Hb; [destruct Hb as [-> ->]; rewrite Hcnt, (proj2 (Z.ltb_ge _ _)) by done|];
        split_and!; cbn [snd]; lia.
    + case_bool_decide as Hb; [destruct Hb as [-> ->]; rewrite Hcnt|]; split_and!; cbn [snd]; lia.
Qed.

Lemma population_run_count m ops k d :
  counts_ok m ->
  count_of (run population_step m ops) k d = count_of m k d + balance m ops k d /\
  counts_ok (run population_step m ops).
Proof.
  revert m. induction ops as [|o ops IH]; intros m Hm; [simpl; split; [lia|done]|].
  cbn [run foldl balance]. destruct (IH (population_step m o)) as [IHc IHo].
  { intros k' d'. by apply population_step_count. }
  split; [|done]. unfold run in IHc. rewrite IHc.
  destruct (population_step_count m o k d Hm) as (Hc & _). rewrite Hc. cbn [balance]. lia.
Qed.

Lemma keeps_policy_step m o d :
  keeps_policy d o -> policies (population_step m o) !! d = policies m !! d.
Proof.
  destruct o as [d' p|d'|k' d'|k' d']; simpl; intros Hd.
  - by rewrite lookup_insert_ne.
  - by rewrite lookup_delete_ne.
  - by repeat case_match.
  - unfold release. by repeat case_match.
Qed.

(** A plane's live count is always the allowed spawns less the successful
    releases (releases never drive it below zero); and while its policy is not
    replaced no sequence of requests and releases takes a kind past the
    density cap of the policy, or past the count it had when the policy was
    set, whichever is larger. *)
Theorem population_budget (before ops : list population_op) (p : density_policy)
    (k : population_kind) (d : Z) :
  Forall (keeps_policy d) ops ->
  let m := run population_step population_new before in
  let m' := run population_step (set_policy m d p) ops in
  count_of m k d = balance population_new before k d /\
  0 <= count_of m' k d <= Z.max (count_of m k d) (cap p k).
Proof.
  intros Hops m m'.
  assert (H0 : counts_ok population_new).
  { intros k' d'. unfold count_of. cbn [counts population_new]. by rewrite lookup_empty. }
  destruct (population_run_count population_new before k d H0) as [Hc Hm]. fold m in Hc, Hm.
  split; [rewrite Hc; unfold count_of; cbn [counts population_new]; by rewrite lookup_empty|].
  assert (Hinv : forall m1, counts_ok m1 -> policies m1 !! d = Some p ->
    count_of (run population_step m1 ops) k d <= Z.max (count_of m1 k d) (cap p k) /\
    counts_ok (run population_step m1 ops)).
  { clear -Hops. induction Hops as [|o ops Ho _ IH]; intros m1 Hm1 Hp; [simpl; split; [lia|done]|].
    cbn [run foldl]. destruct (population_step_count m1 o k d Hm1) as (Hc & Hb & _).
    destruct (IH (population_step m1 o)) as [IHc IHo].
    - intros k' d'. by apply population_step_count.
    - by rewrite keeps_policy_step.
    - split; [|done]. etrans; [exact IHc|]. rewrite Hc.
      destruct (decide (0 < balance m1 [o] k d)) as [Hpos|]; [|lia].
      destruct (Hb Hpos) as (p' & Hp' & Hlt). assert (p' = p) as -> by congruence.
      assert (balance m1 [o] k d <= 1); [|lia].
      clear. cbn [balance]. rewrite Z.add_0_r. destruct o; repeat case_match; lia. }
  destruct (Hinv (set_policy m d p)) as [Hle Hok].
  - intros k' d'. apply (Hm k' d').
  - apply lookup_insert_eq.
  - split; [apply Hok|exact Hle].
Qed.

Definition half : f32 := S754_finite false 8388608 (-24).
Lemma population_budget_witness :
  let p := DensityPolicy 10 5 f32_one half in
  let ops := [Request Vehicle 7; Request Vehicle 7; Request Vehicle 7; Request Vehicle 7] in
  let m' := run population_step (set_policy population_new 7 p) ops in
  cap p Vehicle = 2 /\ count_of m' Vehicle 7 = 2 /\ 0 <= count_of m' Vehicle 7 <= 2.
Proof.
  intros p ops m'. split_and!; [vm_compute; reflexivity..| |];
    apply (population_budget [] ops p Vehicle 7); repeat constructor.
Defined.

(** ** Routing buckets *)
Definition DEFAULT_BUCKET : Z := 0.

Inductive bucket_error := UnknownEntity.

(** A change hook is known by its place in the subscription order; [calls]
    logs what the manager handed to which hook, oldest first. *)
Record bucket_change := BucketChange { bc_player : Z; bc_old : Z; bc_new : Z }.

Record bucket_manager := BucketManager {
  player_buckets : gmap Z Z;
  grants : gset (Z * Z);
  lockdown : gset Z;
  densities : gmap Z density_policy;
  hooks : nat;
  calls : list (nat * bucket_change) }.

Definition buckets_new : bucket_manager := BucketManager ∅ ∅ ∅ ∅ 0 [].

Definition player_bucket (b : bucket_manager) (p : Z) : Z :=
  default DEFAULT_BUCKET (player_buckets b !! p).

Definition set_player_bucket (b : bucket_manager) (p bucket : Z) : bucket_manager :=
  let old := player_bucket b p in
  if old =? bucket then b
  else
    BucketManager (<[p := bucket]> (player_buckets b)) (grants b) (lockdown b) (densities b)
      (hooks b)
      (calls b ++ ((fun h => (h, BucketChange p old bucket)) <$> seq 0 (hooks b))).

Definition on_player_bucket_change (b : bucket_manager) : bucket_manager :=
  BucketManager (player_buckets b) (grants b) (lockdown b) (densities b) (S (hooks b)) (calls b).

Definition set_entity_bucket (m : dimension_map) (s : entity_store) (id : entity_id)
    (bucket : Z) : dimension_map * result unit bucket_error :=
  match dimension_of m s id with
  | None => (m, Err UnknownEntity)
  | Some _ => ((set m s id bucket).1, Ok tt)
  end.

Definition entity_bucket (m : dimension_map) (s : entity_store) (id : entity_id) : option Z :=
  dimension_of m s id.

Definition with_lockdown (b : bucket_manager) (l : gset Z) : bucket_manager :=
  BucketManager (player_buckets b) (grants b) l (densities b) (hooks b) (calls b).
Definition with_grants (b : bucket_manager) (g : gset (Z * Z)) : bucket_manager :=
  BucketManager (player_buckets b) g (lockdown b) (densities b) (hooks b) (calls b).

Definition set_lockdown (b : bucket_manager) (bucket : Z) (locked : bool) : bucket_manager :=
  if locked then with_lockdown b ({[bucket]} ∪ lockdown b)
  else with_lockdown b (lockdown b ∖ {[bucket]}).

Definition is_locked (b : bucket_manager) (bucket : Z) : bool := bool_decide (bucket ∈ lockdown b).

Definition grant (b : bucket_manager) (bucket p : Z) : bucket_manager :=
  with_grants b ({[(bucket, p)]} ∪ grants b).

Definition revoke (b : bucket_manager) (bucket p : Z) : bucket_manager * bool :=
  (with_grants b (grants b ∖ {[(bucket, p)]}), bool_decide ((bucket, p) ∈ grants b)).

Definition can_see (b : bucket_manager) (p p_bucket e_bucket : Z) : bool :=
  if negb (p_bucket =? e_bucket) then false
  else if bool_decide (e_bucket ∈ lockdown b) then bool_decide ((e_bucket, p) ∈ grants b)
  else true.

Definition set_density (b : bucket_manager) (bucket : Z) (pol : density_policy) : bucket_manager :=
  BucketManager (player_buckets b) (grants b) (lockdown b) (<[bucket := pol]> (densities b))
    (hooks b) (calls b).

Definition density_for (b : bucket_manager) (bucket : Z) : option density_policy :=
  densities b !! bucket.

(** The policies go in under distinct dimensions, so the map's iteration order
    does not matter. *)
Definition sync_density (b : bucket_manager) (pm : population_manager) : population_manager :=
  foldl (fun pm p => set_policy pm p.1 p.2) pm (map_to_list (densities b)).

Inductive bucket_op :=
| SetPlayerBucket (p bucket : Z) | Subscribe | SetLockdown (bucket : Z) (locked : bool)
| Grant (bucket p : Z) | Revoke (bucket p : Z) | SetDensity (bucket : Z) (pol : density_policy).

Definition bucket_step (b : bucket_manager) (o : bucket_op) : bucket_manager :=
  match o with
  | SetPlayerBucket p k => set_player_bucket b p k
  | Subscribe => on_player_bucket_change b
  | SetLockdown k l => set_lockdown b k l
  | Grant k p => grant b k p
  | Revoke k p => (revoke b k p).1
  | SetDensity k pol => set_density b k pol
  end.

(** What the first hook was told about player [p]. *)
Definition audit (b : bucket_manager) (p : Z) : list bucket_change :=
  snd <$> List.filter (fun c => bool_decide (c.1 = 0%nat /\ bc_player c.2 = p)) (calls b).

(** [changes from to l]: the changes [l] lead from bucket [from] to [to], each
    starting where the one before ended and none of them idle. *)
Fixpoint changes (from to : Z) (l : list bucket_change) : Prop :=
  match l with
  | [] => from = to
  | c :: l => bc_old c = from /\ bc_new c <> from /\ changes (bc_new c) to l
  end.

Lemma changes_snoc from to l c :
  changes from to l -> bc_old c = to -> bc_new c <> to -> changes from (bc_new c) (l ++ [c]).
Proof.
  revert from. induction l as [|d l IH]; intros from; simpl; [by intros ->|].
  intros (? & ? & ?) ? ?. split_and!; [done..|]. by apply IH.
Qed.

Lemma audit_app b p cs pb hk :
  audit (BucketManager pb (grants b) (lockdown b) (densities b) hk (calls b ++ cs)) p =
  audit b p ++ (snd <$> List.filter (fun c => bool_decide (c.1 = 0%nat /\ bc_player c.2 = p)) cs).
Proof. unfold audit. cbn [calls]. by rewrite List.filter_app, fmap_app. Qed.

Lemma filter_seq_hooks (x : bucket_change) n k p :
  List.filter (fun c => bool_decide (c.1 = 0%nat /\ bc_player c.2 = p))
    ((fun h => (h, x)) <$> seq k n) =
  if bool_decide (k = 0%nat /\ (0 < n)%nat /\ bc_player x = p) then [(0%nat, x)] else [].
Proof.
  revert k. induction n as [|n IH]; intros k.
  { simpl. rewrite bool_decide_false; [done|]. lia. }
  cbn [seq]. rewrite fmap_cons. cbn [List.filter fst snd]. rewrite IH.
  rewrite (bool_decide_false (S k = 0%nat /\ _)) by lia.
  repeat case_bool_decide; try done; naive_solver lia.
Qed.

Lemma set_player_bucket_audit b p k q start :
  (0 < hooks b)%nat -> changes start (player_bucket b q) (audit b q) ->
  changes start (player_bucket (set_player_bucket b p k) q) (audit (set_player_bucket b p k) q).
Proof.
  intros Hh Hch. unfold set_player_bucket. destruct (player_bucket b p =? k) eqn:Hk; [done|].
  bool_prop. rewrite audit_app, filter_seq_hooks. unfold player_bucket at 1.
  cbn [player_buckets bc_player].
  destruct (decide (p = q)) as [->|Hne].
  - rewrite lookup_insert_eq, bool_decide_true by done.
    apply (changes_snoc start (player_bucket b q) (audit b q) (BucketChange q (player_bucket b q) k)); [done|done|].
    simpl. congruence.
  - rewrite lookup_insert_ne, bool_decide_false by naive_solver. by rewrite app_nil_r.
Qed.

Lemma bucket_step_audit b o q start :
  (0 < hooks b)%nat -> changes start (player_bucket b q) (audit b q) ->
  (0 < hooks (bucket_step b o))%nat /\
  changes start (player_bucket (bucket_step b o) q) (audit (bucket_step b o) q).
Proof.
  intros Hh Hch. destruct o as [p k| |k []|k p|k p|k pol]; simpl; try done.
  - split; [|by apply set_player_bucket_audit].
    unfold set_player_bucket. by case_match.
  - split; [lia|done].
Qed.

Lemma sync_density_lookup b pm d :
  policies (sync_density b pm) !! d =
  match densities b !! d with Some p => Some p | None => policies pm !! d end.
Proof.
  unfold sync_density. pose proof (NoDup_fst_map_to_list (densities b)) as Hnd.
  assert (Hl : densities b !! d = list_to_map (M := gmap Z density_policy)
    (map_to_list (densities b)) !! d) by by rewrite list_to_map_to_list.
  rewrite Hl. clear Hl. revert Hnd pm. generalize (map_to_list (densities b)).
  intros l. induction l as [|[k p] l IH]; intros Hnd pm; [done|].
  rewrite fmap_cons in Hnd. apply NoDup_cons in Hnd as [Hk Hnd]. cbn [foldl fst snd].
  rewrite IH by done. rewrite list_to_map_cons. cbn [policies set_policy].
  destruct (decide (k = d)) as [->|Hne].
  - rewrite !lookup_insert_eq. by rewrite not_elem_of_list_to_map_1.
  - by rewrite !lookup_insert_ne by done.
Qed.

(** Whatever assignments, grants and locks follow, the change hooks hear a
    faithful history: for every player the reported changes start at the
    bucket it was in when the first hook subscribed, each begins where the
    last ended, none is idle, and they end at its present bucket. A player
    sees an entity exactly in the same bucket, and in a locked one only with a
    grant; pushed densities replace exactly the planes that have one. *)
Theorem bucket_policies (before ops : list bucket_op) (p : Z) (pm : population_manager) :
  let b0 := run bucket_step buckets_new before in
  let b := run bucket_step (on_player_bucket_change b0) ops in
  (hooks b0 = 0%nat -> changes (player_bucket b0 p) (player_bucket b p) (audit b p)) /\
  (forall pb eb, can_see b p pb eb = true <->
     pb = eb /\ (is_locked b eb = true -> (eb, p) ∈ grants b)) /\
  (forall k, can_see (grant b k p) p k k = true /\
     can_see (set_lockdown (revoke b k p).1 k true) p k k = false) /\
  (forall d, policy_of (sync_density b pm) d =
     match density_for b d with Some pol => Some pol | None => policy_of pm d end).
Proof.
  intros b0 b. split_and!.
  - intros Hh. assert (Hb : (0 < hooks b)%nat /\
      changes (player_bucket b0 p) (player_bucket b p) (audit b p)); [|by destruct Hb].
    apply (run_invariant bucket_step (fun b => (0 < hooks b)%nat /\
      changes (player_bucket b0 p) (player_bucket b p) (audit b p))).
    + intros s o [Hs Hc]. by apply bucket_step_audit.
    + split; [simpl; lia|].
      assert (Hno : calls b0 = []).
      { assert (Hinv : hooks b0 = 0%nat -> calls b0 = []); [|by apply Hinv].
        apply (run_invariant bucket_step (fun b => hooks b = 0%nat -> calls b = [])); [|done].
        intros s [q k| |k []|k q|k q|k pol]; simpl; try done.
        unfold set_player_bucket. case_match; [done|]. cbn [hooks calls].
        intros Hs H0. by rewrite Hs, H0. }
      unfold audit. cbn [calls on_player_bucket_change]. by rewrite Hno.
  - intros pb eb. unfold can_see, is_locked. destruct (pb =? eb) eqn:He; bool_prop; cbn [negb].
    + repeat case_bool_decide; naive_solver.
    + naive_solver.
  - intros k. unfold can_see. rewrite !Z.eqb_refl. cbn [negb]. split.
    + cbn [grant with_grants lockdown grants]. case_bool_decide; [|done].
      rewrite bool_decide_true by set_solver. done.
    + cbn. rewrite bool_decide_true by set_solver. by rewrite bool_decide_false by set_solver.
  - intros d. apply sync_density_lookup.
Qed.
