(* ===== verification/Resource.v ===== *)
(** The resource system (crates/ald-resource/src: lib.rs, lifecycle.rs,
    capabilities.rs): dependency resolution with its depth-first cycle check,
    capability tokens, and the lifecycle manager with the server's supervisor
    over it (server/ald-server/src/lifecycle.rs). *)
From S2P Require Import Prelude Bytes.
From stdpp Require Import relations pretty.

(** ** Dependency resolution *)
Record manifest := Manifest {
  name : string;
  dependencies : list string;
  database_migrations : list string }.

Abbreviation graph := (gmap string (list string)).

(** Outcome of the recursion: a value, an error, or out of fuel. *)
Inductive dfs (A : Type) := Done (a : A) | Cycle (path : string) | OutOfFuel.
Arguments Done {A}. Arguments Cycle {A}. Arguments OutOfFuel {A}.

Record dfs_state := DfsState { visited : gmap string bool; stack : list string }.

(** The [for next in graph.get(node)] loop with the recursive call [visit]. *)
Fixpoint visit_next (visit : string -> dfs_state -> dfs dfs_state) (nexts : list string)
    (s : dfs_state) : dfs dfs_state :=
  match nexts with
  | [] => Done s
  | next :: nexts =>
      match visited s !! next with
      | None =>
          match visit next s with Done s => visit_next visit nexts s | e => e end
      | Some false => Cycle (String.concat " -> " (stack s))
      | Some true => visit_next visit nexts s
      end
  end.

Fixpoint visit (fuel : nat) (g : graph) (node : string) (s : dfs_state) : dfs dfs_state :=
  match fuel with
  | O => OutOfFuel
  | S fuel =>
      let s1 := DfsState (<[node := false]> (visited s)) (stack s ++ [node]) in
      match visit_next (visit fuel g) (default [] (g !! node)) s1 with
      | Done s2 => Done (DfsState (<[node := true]> (visited s2)) (removelast (stack s2)))
      | e => e
      end
  end.

Fixpoint detect_nodes (fuel : nat) (g : graph) (order : list string) (s : dfs_state) :
    dfs dfs_state :=
  match order with
  | [] => Done s
  | node :: order =>
      match visited s !! node with
      | None =>
          match visit fuel g node s with Done s => detect_nodes fuel g order s | e => e end
      | Some _ => detect_nodes fuel g order s
      end
  end.

(** [order] is the map's iteration order over its keys; each level of the
    recursion visits a new node, so the number of nodes is enough fuel. *)
Definition detect_cycle (g : graph) (order : list string) : dfs dfs_state :=
  detect_nodes (size g) g order (DfsState ∅ []).

Definition add_node (g : graph) (m : manifest) : graph :=
  <[name m := default [] (g !! name m)]> g.

Fixpoint add_edges (names : gset string) (src : string) (deps : list string) (g : graph) :
    result graph string :=
  match deps with
  | [] => Ok g
  | d :: deps =>
      if negb (bool_decide (d ∈ names)) then
        Err ("resource '" +:+ src +:+ "' missing dependency '" +:+ d +:+ "'")%string
      else add_edges names src deps (<[src := default [] (g !! src) ++ [d]]> g)
  end.

Fixpoint build_edges (names : gset string) (ms : list manifest) (g : graph) :
    result graph string :=
  match ms with
  | [] => Ok g
  | m :: ms =>
      let? g := add_edges names (name m) (dependencies m) g in build_edges names ms g
  end.

Definition names_of (ms : list manifest) : gset string := list_to_set (name <$> ms).

Definition resolve_dependencies (ms : list manifest) (keys_order : graph -> list string) :
    option (result graph string) :=
  let g0 := foldl add_node ∅ ms in
  match build_edges (names_of ms) ms g0 with
  | Err e => Some (Err e)
  | Ok g =>
      match detect_cycle g (keys_order g) with
      | Done _ => Some (Ok g)
      | Cycle c => Some (Err ("dependency cycle: " +:+ c)%string)
      | OutOfFuel => None
      end
  end.

(** *** Correctness of the search *)
Section search.
Context (g : graph).

Definition edge (a b : string) : Prop := b ∈ default [] (g !! a).

(** Edges stay inside the graph. *)
Definition closed : Prop := forall a b, edge a b -> is_Some (g !! b).

(** No infinite path leaves [n]. *)
Definition grounded (n : string) : Prop := Acc (flip edge) n.

Fixpoint path (l : list string) : Prop :=
  match l with
  | a :: (b :: _) as l' => edge a b /\ path l'
  | _ => True
  end.

Definition white (s : dfs_state) : gset string := dom g ∖ dom (visited s).

Record search_ok (s : dfs_state) : Prop := {
  sk_grey : forall n, visited s !! n = Some false <-> n ∈ stack s;
  sk_black : forall n, visited s !! n = Some true -> grounded n;
  sk_path : path (stack s) }.

(** [s'] has the grey nodes and stack of [s] and at least its black nodes. *)
Definition grows (s s' : dfs_state) : Prop :=
  stack s' = stack s /\ forall n b, visited s !! n = Some b -> visited s' !! n = Some b.

Definition finds_cycle {A} (r : dfs A) (post : A -> Prop) : Prop :=
  match r with
  | Done a => post a
  | Cycle _ => exists n, tc edge n n
  | OutOfFuel => False
  end.

Lemma path_snoc l n :
  path l -> (forall a, last l = Some a -> edge a n) -> path (l ++ [n]).
Proof.
  induction l as [|a [|b l] IH]; intros Hp Hl; [done|by split; [apply Hl|]|].
  destruct Hp as [Hab Hp]. split; [done|]. by apply IH.
Qed.

Lemma path_reach l n z : path l -> last l = Some z -> n ∈ l -> rtc edge n z.
Proof.
  revert n. induction l as [|a [|b l] IH]; intros n Hp Hl Hn.
  - done.
  - apply list_elem_of_singleton in Hn as ->. injection Hl as ->. done.
  - destruct Hp as [Hab Hp]. apply elem_of_cons in Hn as [->|Hn]; [|by apply IH].
    eapply rtc_l; [exact Hab|]. apply IH; [done|done|by left].
Qed.

Lemma grows_white s s' : grows s s' -> white s' ⊆ white s.
Proof.
  intros [_ Hv] n. unfold white. rewrite !elem_of_difference, !elem_of_dom.
  intros [Hg Hn]. split; [done|]. intros [b Hb]. apply Hn. eexists. by apply Hv.
Qed.

Definition visit_spec (rec : string -> dfs_state -> dfs dfs_state) (fuel : nat) : Prop :=
  forall n s, search_ok s -> visited s !! n = None -> is_Some (g !! n) ->
    (forall a, last (stack s) = Some a -> edge a n) -> (size (white s) <= fuel)%nat ->
    finds_cycle (rec n s) (fun s' =>
      search_ok s' /\ grows s s' /\ visited s' !! n = Some true).

Lemma grows_refl s : grows s s.
Proof. by split. Qed.
Lemma grows_trans a b c : grows a b -> grows b c -> grows a c.
Proof. intros [H1 V1] [H2 V2]. split; [congruence|eauto]. Qed.

(** The loop over the successors, given the specification of the call. *)
Lemma visit_next_ok rec fuel node nexts s :
  visit_spec rec fuel -> closed -> (forall n, n ∈ nexts -> edge node n) ->
  search_ok s -> last (stack s) = Some node -> (size (white s) <= fuel)%nat ->
  finds_cycle (visit_next rec nexts s) (fun s' =>
    search_ok s' /\ grows s s' /\ forall n, n ∈ nexts -> visited s' !! n = Some true).
Proof.
  intros Hrec Hclosed. revert s. induction nexts as [|next nexts IH]; intros s Hedge Hs Hlast Hf.
  { cbn. split_and!; [done|apply grows_refl|]. intros n Hn. by apply not_elem_of_nil in Hn. }
  assert (Hen : edge node next) by (apply Hedge; by left).
  cbn [visit_next]. destruct (visited s !! next) as [[]|] eqn:Hv.
  - pose proof (IH s ltac:(set_solver) Hs Hlast Hf) as H.
    destruct (visit_next rec nexts s) as [s'| |]; [|done..].
    destruct H as (Hs' & Hg & Hall). split_and!; [done..|].
    intros n [->|Hn]%elem_of_cons; [by apply Hg|by apply Hall].
  - exists next. eapply tc_rtc_l; [|apply tc_once, Hen].
    eapply path_reach; [apply Hs|done|]. by apply (sk_grey s Hs).
  - pose proof (Hrec next s Hs Hv (Hclosed _ _ Hen)) as H.
    specialize (H ltac:(intros a Ha; congruence) Hf).
    destruct (rec next s) as [s1| |]; [|done..]. destruct H as (Hs1 & Hg1 & Hb1).
    pose proof (IH s1 ltac:(set_solver) Hs1) as H.
    destruct Hg1 as [Hst1 Hv1] eqn:Hg1'. rewrite Hst1 in H. specialize (H Hlast).
    assert (Hsz : (size (white s1) <= fuel)%nat).
    { etrans; [|exact Hf]. apply subseteq_size, grows_white. by split. }
    specialize (H Hsz). destruct (visit_next rec nexts s1) as [s'| |]; [|done..].
    destruct H as (Hs' & Hg & Hall). split_and!; [done| |].
    + eapply grows_trans; [|exact Hg]. by split.
    + intros n [->|Hn]%elem_of_cons; [by apply Hg|by apply Hall].
Qed.

Lemma visit_ok fuel : closed -> visit_spec (visit fuel g) fuel.
Proof.
  intros Hclosed. induction fuel as [|fuel IH]; intros n s Hs Hn Hg Hpath Hf.
  { exfalso. assert (n ∈ white s) as Hin.
    { unfold white. rewrite elem_of_difference, !elem_of_dom, Hn. split; [done|]. by intros []. }
    assert (size (white s) <> 0%nat); [|lia]. intros H0. apply size_empty_inv in H0. set_solver. }
  cbn [visit]. set (s1 := DfsState _ _).
  assert (Hs1 : search_ok s1).
  { destruct Hs as [Hgrey Hblack Hp]. split; cbn [visited stack s1].
    - intros m. rewrite elem_of_app, list_elem_of_singleton, <- Hgrey, lookup_insert_Some. naive_solver.
    - intros m. rewrite lookup_insert_Some. intros [[_ ?]|[_ ?]]; [done|eauto].
    - by apply path_snoc. }
  assert (Hw : (size (white s1) <= fuel)%nat).
  { assert (Hsub : white s1 ∪ {[n]} ⊆ white s).
    { intros m. unfold white. cbn [visited s1]. rewrite dom_insert.
      rewrite elem_of_union, !elem_of_difference, elem_of_singleton, elem_of_union, !elem_of_dom.
      rewrite elem_of_singleton. intros [(? & ?)| ->]; [tauto|]. rewrite Hn. split; [done|by intros []]. }
    apply subseteq_size in Hsub. rewrite size_union, size_singleton in Hsub; [lia|].
    unfold white. cbn [visited s1]. rewrite dom_insert. set_solver. }
  pose proof (visit_next_ok (visit fuel g) fuel n (default [] (g !! n)) s1 IH Hclosed
    ltac:(done) Hs1 ltac:(cbn; by rewrite last_snoc) Hw) as H.
  destruct (visit_next _ _ _) as [s2| |]; [|done..]. destruct H as (Hs2 & [Hst2 Hv2] & Hall).
  cbn [stack s1] in Hst2. cbn [finds_cycle]. rewrite Hst2, removelast_last.
  assert (Hnin : n ∉ stack s) by (rewrite <- (sk_grey s Hs); by rewrite Hn).
  split_and!.
  - destruct Hs2 as [Hgrey Hblack _]. split; cbn [visited stack].
    + intros m. rewrite lookup_insert_Some, Hgrey, Hst2, elem_of_app, list_elem_of_singleton.
      split; [intros [[_ ?]|[? [?|?]]]; [done|done|congruence]|].
      intros Hm. right. split; [intros ->; done|by left].
    + intros m. rewrite lookup_insert_Some. intros [[<- _]|[_ Hm]]; [|by apply Hblack].
      constructor. intros b Hb. apply Hblack, Hall, Hb.
    + apply Hs.
  - split; [done|]. cbn [visited]. intros m b Hm. rewrite lookup_insert_ne by congruence.
    apply Hv2. cbn [visited s1]. by rewrite lookup_insert_ne by congruence.
  - cbn [visited]. by rewrite lookup_insert_eq.
Qed.

Lemma detect_nodes_ok fuel order s :
  closed -> search_ok s -> stack s = [] -> (size (white s) <= fuel)%nat ->
  (forall n, n ∈ order -> is_Some (g !! n)) ->
  finds_cycle (detect_nodes fuel g order s) (fun s' =>
    search_ok s' /\ grows s s' /\ forall n, n ∈ order -> visited s' !! n = Some true).
Proof.
  intros Hclosed. revert s. induction order as [|node order IH]; intros s Hs Hst Hf Hord.
  { cbn. split_and!; [done|apply grows_refl|]. intros n Hn. by apply not_elem_of_nil in Hn. }
  cbn [detect_nodes]. destruct (visited s !! node) as [c|] eqn:Hv.
  - assert (c = true) as ->.
    { destruct c; [done|]. apply (sk_grey s Hs) in Hv. rewrite Hst in Hv.
      by apply not_elem_of_nil in Hv. }
    pose proof (IH s Hs Hst Hf ltac:(set_solver)) as H.
    destruct (detect_nodes _ _ _ _) as [s'| |]; [|done..]. destruct H as (Hs' & Hg & Hall).
    split_and!; [done..|]. intros n [->|Hn]%elem_of_cons; [by apply Hg|by apply Hall].
  - pose proof (visit_ok fuel Hclosed node s Hs Hv ltac:(apply Hord; by left)) as H.
    rewrite Hst in H. specialize (H ltac:(done) Hf).
    destruct (visit fuel g node s) as [s1| |]; [|done..]. destruct H as (Hs1 & Hg1 & Hb1).
    pose proof (IH s1 Hs1 ltac:(rewrite (proj1 Hg1); done)) as H.
    assert (Hsz : (size (white s1) <= fuel)%nat)
      by (etrans; [by apply subseteq_size, grows_white|done]).
    specialize (H Hsz ltac:(set_solver)).
    destruct (detect_nodes _ _ _ s1) as [s'| |]; [|done..]. destruct H as (Hs' & Hg & Hall).
    split_and!; [done|by eapply grows_trans|].
    intros n [->|Hn]%elem_of_cons; [by apply Hg|by apply Hall].
Qed.

Lemma grounded_acyclic n : grounded n -> ~ tc edge n n.
Proof.
  induction 1 as [n _ IH]. intros Hc.
  assert (exists m, edge n m /\ tc edge m m) as (m & Hnm & Hm).
  { inversion Hc as [|x y z Hxy Hyz]; subst; [by exists n|]. exists y. split; [done|].
    eapply tc_r; done. }
  by eapply IH.
Qed.

(** The search decides acyclicity and never runs out of fuel. *)
Lemma detect_cycle_ok order :
  closed -> (forall n, n ∈ order <-> is_Some (g !! n)) ->
  match detect_cycle g order with
  | Done _ => forall n, ~ tc edge n n
  | Cycle _ => exists n, tc edge n n
  | OutOfFuel => False
  end.
Proof.
  intros Hclosed Hord. unfold detect_cycle.
  assert (Hs0 : search_ok (DfsState ∅ [])).
  { split; cbn [visited stack]; [|by intros n ?%lookup_empty_Some|done].
    intros n. rewrite lookup_empty. split; [done|]. intros Hn. by apply not_elem_of_nil in Hn. }
  pose proof (detect_nodes_ok (size g) order (DfsState ∅ []) Hclosed Hs0 eq_refl) as H.
  assert (Hsz : (size (white (DfsState ∅ [])) <= size g)%nat).
  { unfold white. cbn [visited]. rewrite <- size_dom. apply subseteq_size. set_solver. }
  specialize (H Hsz ltac:(intros n ?; by apply Hord)).
  destruct (detect_nodes _ _ _ _) as [s| |]; [|done..]. destruct H as (Hs & _ & Hall).
  intros n Hc. apply (grounded_acyclic n); [|done].
  apply (sk_black s Hs), Hall, Hord.
  inversion Hc as [x y Hxy|x y z Hxy Hyz]; subst; unfold edge in Hxy;
    destruct (g !! n) eqn:Hn; [done| |done|]; by apply not_elem_of_nil in Hxy.
Qed.
End search.

(** *** The graph of a set of manifests *)
Definition depends (ms : list manifest) (a b : string) : Prop :=
  exists m, m ∈ ms /\ name m = a /\ b ∈ dependencies m.

Lemma add_edges_ok names src deps g :
  match add_edges names src deps g with
  | Ok g' => (forall d, d ∈ deps -> d ∈ names) /\
      (is_Some (g !! src) -> forall n, is_Some (g' !! n) <-> is_Some (g !! n)) /\
      (forall a b, edge g' a b <-> edge g a b \/ (a = src /\ b ∈ deps))
  | Err _ => exists d, d ∈ deps /\ d ∉ names
  end.
Proof.
  revert g. induction deps as [|d deps IH]; intros g; cbn [add_edges].
  { split_and!; [intros d Hd; by apply not_elem_of_nil in Hd|done|].
    intros a b. split; [by left|]. intros [?|[_ Hb]]; [done|by apply not_elem_of_nil in Hb]. }
  case_bool_decide as Hd; cbn [negb]; [|exists d; split; [by left|done]].
  specialize (IH (<[src := default [] (g !! src) ++ [d]]> g)).
  destruct (add_edges _ _ _ _) as [g'|]; [|destruct IH as (x & ? & ?); exists x; split; [by right|done]].
  destruct IH as (Hin & Hdom & Hedge). split_and!.
  - intros x [->|Hx]%elem_of_cons; [done|by apply Hin].
  - intros Hsrc n. rewrite Hdom by (rewrite lookup_insert_eq; eauto).
    rewrite lookup_insert_is_Some. split; [intros [<-|[_ ?]]; done|].
    intros Hn. destruct (decide (src = n)); [by left|by right].
  - intros a b. rewrite Hedge. unfold edge. destruct (decide (src = a)) as [<-|Hne].
    + rewrite lookup_insert_eq. cbn [from_option id]. set_solver.
    + rewrite lookup_insert_ne by done. set_solver.
Qed.

Lemma build_edges_ok names ms g :
  (forall m, m ∈ ms -> is_Some (g !! name m)) ->
  match build_edges names ms g with
  | Ok g' => (forall m d, m ∈ ms -> d ∈ dependencies m -> d ∈ names) /\
      (forall n, is_Some (g' !! n) <-> is_Some (g !! n)) /\
      (forall a b, edge g' a b <-> edge g a b \/ depends ms a b)
  | Err _ => exists m d, m ∈ ms /\ d ∈ dependencies m /\ d ∉ names
  end.
Proof.
  revert g. induction ms as [|m ms IH]; intros g Hg; cbn [build_edges].
  { split_and!; [intros ? ? Hm; by apply not_elem_of_nil in Hm|done|].
    intros a b. split; [by left|]. intros [?|(m & Hm & _)]; [done|by apply not_elem_of_nil in Hm]. }
  pose proof (add_edges_ok names (name m) (dependencies m) g) as Ha.
  destruct (add_edges _ _ _ _) as [g1|e]; cbn [rbind].
  2: { destruct Ha as (d & ? & ?). exists m, d. split_and!; [by left|done..]. }
  destruct Ha as (Hin & Hdom & Hedge). specialize (Hdom (Hg m ltac:(by left))).
  specialize (IH g1 ltac:(intros m' Hm'; apply Hdom, Hg; by right)).
  destruct (build_edges names ms g1) as [g2|].
  2: { destruct IH as (m' & d & ? & ? & ?). exists m', d. split_and!; [by right|done..]. }
  destruct IH as (Hin2 & Hdom2 & Hedge2). split_and!.
  - intros m' d [->|Hm']%elem_of_cons Hd; [by apply Hin|by eapply Hin2].
  - intros n. by rewrite Hdom2, Hdom.
  - intros a b. rewrite Hedge2, Hedge. unfold depends. split.
    + intros [[?|[-> ?]]|(m' & ? & ? & ?)]; [by left|right; exists m|right; exists m'];
        split_and!; try done; [by left|by right].
    + intros [?|(m' & [->|?]%elem_of_cons & <- & ?)]; [by left; left|by left; right|].
      right. by exists m'.
Qed.

Lemma add_nodes_ok ms g n :
  is_Some (foldl add_node g ms !! n) <-> is_Some (g !! n) \/ n ∈ name <$> ms.
Proof.
  revert g. induction ms as [|m ms IH]; intros g; cbn [foldl].
  { split; [by left|]. intros [?|Hn]; [done|by apply not_elem_of_nil in Hn]. }
  rewrite IH. unfold add_node. rewrite lookup_insert_is_Some, fmap_cons, elem_of_cons.
  split; [intros [[->|[_ ?]]|?]; tauto|].
  intros [?|[->|?]]; [|by left; left|by right].
  left. destruct (decide (name m = n)); [by left|by right].
Qed.

Lemma add_nodes_edges ms g a b :
  edge (foldl add_node g ms) a b <-> edge g a b.
Proof.
  revert g. induction ms as [|m ms IH]; intros g; cbn [foldl]; [done|]. rewrite IH.
  unfold edge, add_node. destruct (decide (name m = a)) as [<-|];
    [by rewrite lookup_insert_eq|by rewrite lookup_insert_ne].
Qed.

(** C8: dependency resolution always terminates, and accepts a set of
    manifests exactly when every declared dependency is present and the
    dependency relation has no cycle, for every iteration order of the hash
    map; the graph it returns is that relation. *)
Theorem resolve_dependencies_spec (ms : list manifest) (keys_order : graph -> list string) :
  (forall g n, n ∈ keys_order g <-> is_Some (g !! n)) ->
  exists r, resolve_dependencies ms keys_order = Some r /\
    (is_ok r = true <->
       (forall a b, depends ms a b -> b ∈ name <$> ms) /\
       (forall n, ~ tc (depends ms) n n)) /\
    (forall g, r = Ok g -> forall a b, edge g a b <-> depends ms a b).
Proof.
  intros Hkeys. unfold resolve_dependencies. set (g0 := foldl add_node ∅ ms).
  assert (Hdom0 : forall n, is_Some (g0 !! n) <-> n ∈ name <$> ms).
  { intros n. unfold g0. rewrite add_nodes_ok, lookup_empty. split; [intros [[? ?]|?]; done|by right]. }
  pose proof (build_edges_ok (names_of ms) ms g0) as Hb.
  specialize (Hb ltac:(intros m Hm; apply Hdom0, list_elem_of_fmap; eauto)).
  destruct (build_edges _ _ _) as [g|e].
  2: { eexists. split; [done|]. split; [|done]. split; [done|]. intros [Hin _].
       destruct Hb as (m & d & Hm & Hd & Hnot). exfalso. apply Hnot. unfold names_of.
       rewrite elem_of_list_to_set. apply (Hin (name m)). by exists m. }
  destruct Hb as (Hin & Hdom & Hedge).
  assert (Hge : forall a b, edge g a b <-> depends ms a b).
  { intros a b. rewrite Hedge. unfold g0. rewrite add_nodes_edges. unfold edge.
    rewrite lookup_empty. split; [intros [Hx|?]; [by apply not_elem_of_nil in Hx|done]|by right]. }
  assert (Hpres : forall a b, depends ms a b -> b ∈ name <$> ms).
  { intros a b (m & Hm & _ & Hb). specialize (Hin m b Hm Hb). unfold names_of in Hin.
    by rewrite elem_of_list_to_set in Hin. }
  assert (Htc : forall a b, tc (edge g) a b <-> tc (depends ms) a b).
  { intros a b. split; induction 1 as [x y Hxy|x y z Hxy _ IH];
      first [by apply tc_once, Hge|eapply tc_l; [by apply Hge|exact IH]]. }
  assert (Hclosed : closed g) by (intros a b Hab; apply Hdom, Hdom0, (Hpres a), Hge, Hab).
  pose proof (detect_cycle_ok g (keys_order g) Hclosed (Hkeys g)) as Hd.
  destruct (detect_cycle _ _) as [s|c|]; [| |done]; (eexists; split; [done|split]).
  - split; [|done]. intros _. split; [done|]. intros n Hn. apply (Hd n). by apply Htc.
  - by intros g' [= <-].
  - split; [done|]. intros [_ Hac]. destruct Hd as [n Hn]. exfalso. apply (Hac n). by apply Htc.
  - done.
Qed.

Definition by_key (g : graph) : list string := fst <$> map_to_list g.

Lemma by_key_keys g n : n ∈ by_key g <-> is_Some (g !! n).
Proof.
  unfold by_key. rewrite list_elem_of_fmap. split.
  - intros ([k v] & -> & Hin%elem_of_map_to_list). by exists v.
  - intros [v Hv]. exists (n, v). split; [done|]. by apply elem_of_map_to_list.
Qed.

Lemma resolve_dependencies_spec_witness :
  let ms := [Manifest "core" [] []; Manifest "inv" ["core"] []; Manifest "shop" ["inv"; "core"] []]%string in
  (exists g, resolve_dependencies ms by_key = Some (Ok g)) /\
  exists r, resolve_dependencies ms by_key = Some r /\
    (is_ok r = true <-> (forall a b, depends ms a b -> b ∈ name <$> ms) /\
       (forall n, ~ tc (depends ms) n n)).
Proof.
  intros ms. split; [eexists; vm_compute; reflexivity|].
  destruct (resolve_dependencies_spec ms by_key by_key_keys) as (r & Hr & Hok & _).
  exists r. by split.
Defined.
