(* ===== verification/Lifecycle.v ===== *)
(** Resource lifecycle: the state table with its guarded transitions
    (crates/ald-resource/src/lifecycle.rs), capability tokens
    (capabilities.rs) and the server's single-writer supervisor
    (server/ald-server/src/lifecycle.rs). Reading a manifest, checking its
    dependencies on disk and starting the scripts are file-system and script
    host work: a command carries their results. *)
From stdpp Require Import pretty.
From S2P Require Import Prelude Bytes Resource.

Inductive resource_state :=
| Stopped | Discovered | Validating | DependencyResolution | Starting
| ScriptHostStarting | MigrationsReady | HealthChecking | Healthy | Degraded
| Quarantined | Stopping | Failed.
#[global] Instance resource_state_eq_dec : EqDecision resource_state.
Proof. solve_decision. Defined.

Definition state_str (s : resource_state) : string :=
  match s with
  | Stopped => "STOPPED" | Discovered => "DISCOVERED" | Validating => "VALIDATING"
  | DependencyResolution => "DEPENDENCY_RESOLUTION" | Starting => "STARTING"
  | ScriptHostStarting => "SCRIPT_HOST_STARTING" | MigrationsReady => "MIGRATIONS_READY"
  | HealthChecking => "HEALTH_CHECKING" | Healthy => "HEALTHY" | Degraded => "DEGRADED"
  | Quarantined => "QUARANTINED" | Stopping => "STOPPING" | Failed => "FAILED"
  end.

Definition is_serving (s : resource_state) : bool :=
  match s with Healthy | Degraded => true | _ => false end.

Record lifecycle_manager := LifecycleManager {
  states : gmap string resource_state;
  handles : gmap string nat }.

Definition lifecycle_new : lifecycle_manager := LifecycleManager ∅ ∅.

Definition state (m : lifecycle_manager) (n : string) : resource_state :=
  default Stopped (states m !! n).

Definition set (m : lifecycle_manager) (n : string) (s : resource_state) : lifecycle_manager :=
  LifecycleManager (<[n := s]> (states m)) (handles m).

Definition can_start (m : lifecycle_manager) (n : string) : bool :=
  match state m n with Stopped | Failed => true | _ => false end.

(** [mark_healthy] and [mark_degraded]. *)
Definition mark (to : resource_state) (what : string) (m : lifecycle_manager) (n : string)
    (count : nat) : lifecycle_manager * result unit ald_error :=
  if negb (bool_decide (state m n = HealthChecking)) then
    (m, Err (Resource ("resource '" +:+ n +:+ "' not in HealthChecking state before " +:+ what)))
  else (LifecycleManager (<[n := to]> (states m)) (<[n := count]> (handles m)), Ok tt).
Definition mark_healthy := mark Healthy "mark_healthy".
Definition mark_degraded := mark Degraded "mark_degraded".

Definition quarantine (m : lifecycle_manager) (n : string) :
    lifecycle_manager * result unit ald_error :=
  match state m n with
  | Healthy | Degraded | Failed => (set m n Quarantined, Ok tt)
  | other => (m, Err (Resource ("resource '" +:+ n +:+ "' in " +:+ state_str other +:+
                                " cannot be quarantined")))
  end.

Definition stop (m : lifecycle_manager) (n : string) : lifecycle_manager * result unit ald_error :=
  let leaked := default 0%nat (handles m !! n) in
  if negb (bool_decide (leaked = 0%nat)) then
    (m, Err (Resource ("resource '" +:+ n +:+ "' leaked " +:+ pretty leaked +:+
                       " handles on stop")))
  else (set m n Stopped, Ok tt).

Definition release_handle (m : lifecycle_manager) (n : string) : lifecycle_manager :=
  match handles m !! n with
  | Some (S c) => LifecycleManager (states m) (<[n := c]> (handles m))
  | _ => m
  end.

Definition running_count (m : lifecycle_manager) : nat :=
  length (List.filter (fun p => is_serving p.2) (map_to_list (states m))).

(** ** The supervisor *)
Record start_env := StartEnv {
  load_manifest : result manifest string;
  check_dependencies : manifest -> result unit string;
  start_resource_scripts : result nat string }.

Record server := Server { lifecycle : lifecycle_manager; metrics : gmap string Z }.

(** [metrics().incr(key, 1)] *)
Definition incr (s : server) (key : string) : server :=
  Server (lifecycle s) (<[key := default 0 (metrics s !! key) + 1]> (metrics s)).

Definition with_lifecycle (s : server) (m : lifecycle_manager) : server := Server m (metrics s).
Definition fail_point (s : server) (n : string) (st : resource_state) : server :=
  with_lifecycle s (set (lifecycle s) n st).

Definition fail (s : server) (n : string) : server :=
  incr (fail_point s n Failed) "resources.start_failures".

(** The last block of [transition_start], under one lock. *)
Definition finish_start (s : server) (n : string) (h : nat) : server :=
  let s := fail_point s n MigrationsReady in
  let s := fail_point s n HealthChecking in
  match mark_healthy (lifecycle s) n h with
  | (m, Ok _) => incr (with_lifecycle s m) "resources.started"
  | (m, Err _) => fail (with_lifecycle s m) n
  end.

Definition transition_start (s : server) (n : string) (env : start_env) : server :=
  if negb (can_start (lifecycle s) n) then s
  else
    let s := fail_point s n Validating in
    match load_manifest env with
    | Err _ => fail s n
    | Ok man =>
        let s := fail_point s n DependencyResolution in
        match check_dependencies env man with
        | Err _ => fail s n
        | Ok _ =>
            let s := fail_point s n Starting in
            let s := fail_point s n ScriptHostStarting in
            match start_resource_scripts env with
            | Err _ => fail s n
            | Ok h =>
                match database_migrations man with
                | _ :: _ => fail s n
                | [] =>
                    finish_start s n h
                end
            end
        end
    end.

Definition STOP_RELEASES : nat := 4096.

Definition transition_stop (s : server) (n : string) : server :=
  let m := set (lifecycle s) n Stopping in
  let m := Nat.iter STOP_RELEASES (fun m => release_handle m n) m in
  match stop m n with
  | (m, Ok _) => incr (with_lifecycle s m) "resources.stopped"
  | (m, Err _) => incr (with_lifecycle s (set m n Failed)) "resources.stop_failures"
  end.

Definition transition_restart (s : server) (n : string) (env : start_env) : server :=
  transition_start (transition_stop s n) n env.

Inductive command :=
| Start (n : string) (env : start_env) | Stop (n : string)
| Restart (n : string) (env : start_env) | Reload (n : string) (env : start_env).

(** One turn of the [run] loop; during shutdown commands are ignored. *)
Definition run_command (s : server) (c : bool * command) : server :=
  if c.1 then s
  else
    match c.2 with
    | Start n env => transition_start s n env
    | Stop n => transition_stop s n
    | Restart n env | Reload n env => transition_restart s n env
    end.

(** ** Capabilities *)
Definition KNOWN_CAPABILITIES : list string :=
  ["filesystem.read"; "filesystem.write"; "network.http"; "database.query";
   "database.transaction"; "player.read"; "player.manage"; "entity.create";
   "entity.manage"; "resource.control"; "server.commands"; "identity.steam.read";
   "identity.rockstar.read"]%string.

Fixpoint parse_capabilities (tokens : list string) : result (list string) ald_error :=
  match tokens with
  | [] => Ok []
  | t :: ts =>
      if negb (bool_decide (t ∈ KNOWN_CAPABILITIES)) then
        Err (CapabilityDenied ("unknown capability '" +:+ t +:+ "'"))
      else let? out := parse_capabilities ts in Ok (t :: out)
  end.

Definition capability_check (granted : list string) (required : string) : bool :=
  existsb (fun c => bool_decide (c = required)) granted.

(** ** Properties *)
Definition launches (env : start_env) (h : nat) : Prop :=
  exists man, load_manifest env = Ok man /\ check_dependencies env man = Ok tt /\
    start_resource_scripts env = Ok h /\ database_migrations man = [].

Definition handle_count (m : lifecycle_manager) (n : string) : nat := default 0%nat (handles m !! n).

Lemma state_set m n s n' :
  state (set m n s) n' = if bool_decide (n = n') then s else state m n'.
Proof.
  unfold state, set. cbn [states]. case_bool_decide; subst;
    [by rewrite lookup_insert_eq|by rewrite lookup_insert_ne].
Qed.

Lemma release_one m n :
  states (release_handle m n) = states m /\
  handle_count (release_handle m n) n = pred (handle_count m n) /\
  forall n', n' <> n -> handle_count (release_handle m n) n' = handle_count m n'.
Proof.
  unfold release_handle, handle_count. destruct (handles m !! n) as [[|c]|] eqn:Hc;
    cbn [states handles]; rewrite ?Hc; [done| |done].
  rewrite lookup_insert_eq. split_and!; [done..|]. intros n' Hne. by rewrite lookup_insert_ne.
Qed.

Lemma release_iter k m n :
  let m' := Nat.iter k (fun m => release_handle m n) m in
  states m' = states m /\ handle_count m' n = (handle_count m n - k)%nat.
Proof.
  induction k as [|k [Hs Hn]]; [split; [done|simpl; lia]|].
  cbv zeta. rewrite Nat.iter_succ.
  destruct (release_one (Nat.iter k (fun m => release_handle m n) m) n) as (Hs1 & Hn1 & _).
  rewrite Hs1, Hn1, Hs, Hn. split; [done|lia].
Qed.

Lemma stop_spec s n :
  let s' := transition_stop s n in
  state (lifecycle s') n =
    (if bool_decide (handle_count (lifecycle s) n <= STOP_RELEASES)%nat then Stopped else Failed) /\
  (forall n', n' <> n -> state (lifecycle s') n' = state (lifecycle s) n').
Proof.
  unfold transition_stop. generalize STOP_RELEASES. intros k. set (m := Nat.iter _ _ _).
  destruct (release_iter k (set (lifecycle s) n Stopping) n) as (Hs & Hn).
  fold m in Hs, Hn. change (handle_count (set (lifecycle s) n Stopping) n) with
    (handle_count (lifecycle s) n) in Hn.
  assert (Hst : forall n', n' <> n -> state m n' = state (lifecycle s) n').
  { intros n' Hne. unfold state. rewrite Hs. cbn [states set]. by rewrite lookup_insert_ne. }
  unfold stop. fold (handle_count m n). rewrite Hn.
  destruct (bool_decide (handle_count (lifecycle s) n <= k)%nat) eqn:Hle; bool_prop.
  - rewrite bool_decide_true by lia. cbn [negb incr with_lifecycle lifecycle].
    rewrite state_set, bool_decide_true by done. split; [done|].
    intros n' Hne. rewrite state_set, bool_decide_false by done. by apply Hst.
  - rewrite bool_decide_false by lia. cbn [negb incr with_lifecycle lifecycle].
    rewrite state_set, bool_decide_true by done. split; [done|].
    intros n' Hne. rewrite state_set, bool_decide_false by done. by apply Hst.
Qed.

Lemma finish_start_ok s n h :
  lifecycle (finish_start s n h) =
  LifecycleManager (<[n := Healthy]> (states (lifecycle s))) (<[n := h]> (handles (lifecycle s))).
Proof.
  unfold finish_start, fail_point, mark_healthy, mark. cbn [with_lifecycle lifecycle].
  rewrite state_set, (bool_decide_true (n = n)) by done.
  rewrite bool_decide_true by done. cbn [negb incr with_lifecycle lifecycle set states handles].
  by rewrite !insert_insert_eq.
Qed.

Lemma start_spec s n env :
  let s' := transition_start s n env in
  (can_start (lifecycle s) n = false -> s' = s) /\
  (can_start (lifecycle s) n = true ->
     (forall h, launches env h ->
        state (lifecycle s') n = Healthy /\ handle_count (lifecycle s') n = h) /\
     ((forall h, ~ launches env h) -> state (lifecycle s') n = Failed)) /\
  (forall n', n' <> n -> state (lifecycle s') n' = state (lifecycle s) n').
Proof.
  unfold transition_start. destruct (can_start (lifecycle s) n) eqn:Hcs; cbn [negb];
    [|split_and!; done].
  split; [done|]. unfold launches.
  destruct (load_manifest env) as [man|e];
    [destruct (check_dependencies env man) as [[]|e] eqn:Hd;
     [destruct (start_resource_scripts env) as [h|e];
      [destruct (database_migrations man) as [|x l] eqn:Hm|]|]|].
  { cbv zeta. unfold state, handle_count. rewrite finish_start_ok.
    cbn [with_lifecycle lifecycle fail_point set states handles].
    rewrite !lookup_insert_eq. split.
    - intros _. split; [by intros h' (m & [= <-] & _ & [= <-] & _)|].
      intros H. destruct (H h). exists man. by split_and!.
    - intros n' Hne. by rewrite !lookup_insert_ne. }
  all: unfold fail, fail_point, with_lifecycle; cbn [incr lifecycle];
    rewrite state_set, bool_decide_true by done;
    (split; [split; [intros h' (m & ? & ? & ? & ?); congruence|done]|]);
    intros n' Hne; rewrite !state_set, !bool_decide_false by done; done.
Qed.

Definition settled (s : server) : Prop :=
  forall n, state (lifecycle s) n = Stopped \/ state (lifecycle s) n = Healthy \/
    state (lifecycle s) n = Failed.

Lemma start_settled s n env : settled s -> settled (transition_start s n env).
Proof.
  intros Hs n'. destruct (start_spec s n env) as (H0 & H1 & H2).
  destruct (can_start (lifecycle s) n) eqn:Hcs; [|by rewrite H0].
  destruct (decide (n' = n)) as [->|]; [|rewrite H2 by done; apply Hs].
  destruct (H1 eq_refl) as [Hl Hf].
  destruct (load_manifest env) as [man|] eqn:E1;
    [|right; right; apply Hf; intros h (m & ? & _); congruence].
  destruct (check_dependencies env man) as [[]|] eqn:E2;
    [|right; right; apply Hf; intros h (m & ? & ? & _); congruence].
  destruct (start_resource_scripts env) as [h|] eqn:E3;
    [|right; right; apply Hf; intros h (m & ? & ? & ? & _); congruence].
  destruct (database_migrations man) eqn:E4;
    [|right; right; apply Hf; intros h' (m & ? & ? & ? & ?); congruence].
  right; left. apply (Hl h). by exists man.
Qed.

Lemma stop_settled s n : settled s -> settled (transition_stop s n).
Proof.
  intros Hs n'. destruct (stop_spec s n) as [H1 H2].
  destruct (decide (n' = n)) as [->|]; [rewrite H1; case_bool_decide; auto|].
  rewrite H2 by done. apply Hs.
Qed.

(** Between commands every resource is stopped, healthy or failed, never
    caught half way. A start from stopped or failed ends healthy exactly when
    the manifest loads, the dependencies check, the scripts start and no
    migration is declared (and then records the scripts' handle count), and
    ends failed otherwise; a stop ends stopped exactly when at most 4096
    handles are open; no command touches another resource; a restart always
    attempts the start, even after a leaking stop. *)
Theorem supervisor_spec (cmds : list (bool * command)) (n : string) (env : start_env) :
  let s := run run_command (Server lifecycle_new ∅) cmds in
  settled s /\
  (can_start (lifecycle s) n = true ->
     let s' := transition_start s n env in
     (state (lifecycle s') n = Healthy <-> exists h, launches env h /\
        handle_count (lifecycle s') n = h) /\
     (state (lifecycle s') n = Failed <-> forall h, ~ launches env h)) /\
  (state (lifecycle (transition_stop s n)) n = Stopped <->
     (handle_count (lifecycle s) n <= STOP_RELEASES)%nat) /\
  (forall h, launches env h -> state (lifecycle (transition_restart s n env)) n = Healthy) /\
  (forall n', n' <> n ->
     state (lifecycle (transition_start s n env)) n' = state (lifecycle s) n' /\
     state (lifecycle (transition_stop s n)) n' = state (lifecycle s) n').
Proof.
  intros s. assert (Hs : settled s).
  { apply (run_invariant run_command settled).
    - intros s0 [[] [m e|m|m e|m e]] Hs0; unfold run_command; cbn [fst snd]; try done;
        auto using start_settled, stop_settled; unfold transition_restart;
        auto using start_settled, stop_settled.
    - intros m. left. unfold state. cbn. by rewrite lookup_empty. }
  destruct (start_spec s n env) as (_ & H1 & H2). destruct (stop_spec s n) as [H3 H4].
  split_and!; [done| | | |].
  - intros Hcs s'. destruct (H1 Hcs) as [Hl Hf]. fold s' in Hl, Hf.
    pose proof (start_settled s n env Hs n) as Hst. fold s' in Hst. split; split.
    + intros Hh. destruct (decide (state (lifecycle s') n = Failed)); [congruence|].
      assert (Hx : ~ (forall h, ~ launches env h)) by (intros Hx; by apply Hf in Hx).
      destruct (load_manifest env) as [man|] eqn:E1;
        [|exfalso; apply Hx; intros h (m & ? & _); congruence].
      destruct (check_dependencies env man) as [[]|] eqn:E2;
        [|exfalso; apply Hx; intros h (m & ? & ? & _); congruence].
      destruct (start_resource_scripts env) as [h|] eqn:E3;
        [|exfalso; apply Hx; intros h (m & ? & ? & ? & _); congruence].
      destruct (database_migrations man) eqn:E4;
        [|exfalso; apply Hx; intros h' (m & ? & ? & ? & ?); congruence].
      exists h. assert (Hla : launches env h) by by exists man. split; [done|]. by apply Hl.
    + intros (h & Hla & _). by apply (Hl h).
    + intros Hfl h Hla. destruct (Hl h Hla). congruence.
    + apply Hf.
  - rewrite H3. case_bool_decide; split; done.
  - intros h Hla. unfold transition_restart.
    destruct (start_spec (transition_stop s n) n env) as (_ & Hst & _).
    assert (Hcs : can_start (lifecycle (transition_stop s n)) n = true)
      by (unfold can_start; rewrite H3; by case_bool_decide).
    by apply (proj1 (Hst Hcs) h).
  - intros n' Hne. split; [by apply H2|by apply H4].
Qed.

(** A quarantined resource cannot be started again. *)
Lemma quarantined_cannot_start m n m' :
  quarantine m n = (m', Ok tt) -> can_start m' n = false.
Proof.
  unfold quarantine, can_start. intros H.
  destruct (state m n); simplify_eq; rewrite state_set, bool_decide_true; done.
Qed.

(** Every parsed capability is a known one, and parsing keeps the list. *)
Lemma parse_capabilities_spec tokens out :
  parse_capabilities tokens = Ok out <->
  out = tokens /\ Forall (fun t => t ∈ KNOWN_CAPABILITIES) tokens.
Proof.
  revert out. induction tokens as [|t ts IH]; intros out; cbn [parse_capabilities].
  { split; [intros [= <-]; by split|by intros [-> _]]. }
  rewrite Forall_cons. case_bool_decide as Hk; cbn [negb]; [|naive_solver].
  destruct (parse_capabilities ts) as [o|]; cbn [rbind].
  - split; [intros [= <-]|intros (-> & _ & Hf)].
    + destruct (proj1 (IH o) eq_refl) as [-> ?]. by split_and!.
    + pose proof (proj2 (IH ts) (conj eq_refl Hf)). congruence.
  - split; [done|]. intros (-> & _ & Hf). pose proof (proj2 (IH ts) (conj eq_refl Hf)). done.
Qed.
