(* ===== verification/Download.v ===== *)
(** The download control plane of crates/ald-download/src/lib.rs: chunk plans,
    reassembly over a coverage bitmap with resume lists, the stall watchdog and
    the weighted lane scheduler. Sizes and ticks are u64; [usize] is 64 bits
    wide. A buffer is the list of its bytes. *)
From S2P Require Import Prelude.

(** ** Chunk plans *)
Inductive download_error :=
| BadPlan (file_len chunk_len : Z)
| OutOfBounds (offset len file_len : Z).

Record chunk_plan := ChunkPlan { file_len : Z; chunk_len : Z; chunk_count : Z }.

(** [u64::div_ceil]. *)
Definition div_ceil (a b : Z) : Z := if a mod b =? 0 then a / b else a / b + 1.

Definition plan_new (file_len chunk_len : Z) : result chunk_plan download_error :=
  if (file_len =? 0) || (chunk_len =? 0) then Err (BadPlan file_len chunk_len)
  else Ok (ChunkPlan file_len chunk_len (div_ceil file_len chunk_len)).

Definition chunk_range (p : chunk_plan) (i : Z) : option (Z * Z) :=
  if chunk_count p <=? i then None
  else
    let start := wrap 64 (i * chunk_len p) in
    Some (start, Z.min (wrap 64 (start + chunk_len p)) (file_len p)).

(** ** Reassembly *)
Record download := Download {
  plan : chunk_plan;
  bytes : list Z;
  covered : list bool;
  received_bytes : Z;
  last_progress_tick : Z }.

Definition download_new (p : chunk_plan) (now_tick : Z) : download :=
  Download p (replicate (Z.to_nat (file_len p)) 0) (replicate (Z.to_nat (file_len p)) false)
    0 now_tick.

Definition is_complete (d : download) : bool := received_bytes d =? file_len (plan d).

(** The loop of [receive]: position [at], bytes and bitmap, fresh bytes. *)
Fixpoint store (at_ : nat) (data : list Z) (buf : list Z) (cov : list bool) (fresh : Z) :
    list Z * list bool * Z :=
  match data with
  | [] => (buf, cov, fresh)
  | byte :: data =>
      let buf := <[at_ := byte]> buf in
      if decide (cov !! at_ = Some false)
      then store (S at_) data buf (<[at_ := true]> cov) (fresh + 1)
      else store (S at_) data buf cov fresh
  end.

Definition receive (d : download) (offset : Z) (data : list Z) (now_tick : Z) :
    result download download_error :=
  let len := Z.of_nat (length data) in
  let out := OutOfBounds offset len (file_len (plan d)) in
  if is_complete d then Err out
  else if u64_max <? offset + len then Err out
  else if file_len (plan d) <? offset + len then Err out
  else if len =? 0 then Ok d
  else
    let '(buf, cov, fresh) := store (Z.to_nat offset) data (bytes d) (covered d) 0 in
    Ok (if 0 <? fresh
        then Download (plan d) buf cov (received_bytes d + fresh) now_tick
        else Download (plan d) buf cov (received_bytes d) (last_progress_tick d)).

Definition chunk_covered (d : download) (i : Z) : bool :=
  match chunk_range (plan d) i with
  | Some (s, e) => forallb (fun b => bool_decide (covered d !! Z.to_nat b = Some true)) (seqZ s (e - s))
  | None => false
  end.

Definition complete_chunks (d : download) : Z :=
  Z.of_nat (length (List.filter (chunk_covered d) (seqZ 0 (chunk_count (plan d))))).

(** The loop of [missing_ranges]: the open run, if any, starts at [run.1]. *)
Fixpoint scan_missing (cov : list bool) (i : Z) (out : list (Z * Z)) (run : option (Z * Z)) :
    list (Z * Z) :=
  match cov with
  | [] => match run with Some r => out ++ [r] | None => out end
  | true :: cov =>
      scan_missing cov (i + 1) (match run with Some r => out ++ [r] | None => out end) None
  | false :: cov =>
      scan_missing cov (i + 1) out
        (Some (match run with Some (s, l) => (s, l + 1) | None => (i, 1) end))
  end.

Definition missing_ranges (d : download) : list (Z * Z) := scan_missing (covered d) 0 [] None.

Definition assembled (d : download) : option (list Z) :=
  if is_complete d then Some (bytes d) else None.

(** ** Watchdog *)
Record watchdog := Watchdog { stall_after_ticks : Z }.
Definition watchdog_new (n : Z) : watchdog := Watchdog (Z.max n 1).
Definition is_stalled (w : watchdog) (last now : Z) : bool :=
  stall_after_ticks w <? sat_sub now last.

(** ** Lane scheduler *)
Inductive lane := JoinCritical | SpawnCritical | Foreground | Background | Optional.

#[global] Instance lane_eq_dec : EqDecision lane.
Proof. solve_decision. Defined.

Definition weight (l : lane) : Z :=
  match l with
  | JoinCritical => 8 | SpawnCritical => 4 | Foreground => 2 | Background => 1 | Optional => 1
  end.

Definition all_lanes : list lane :=
  [JoinCritical; SpawnCritical; Foreground; Background; Optional].

Definition lane_index (l : lane) : nat :=
  match l with
  | JoinCritical => 0 | SpawnCritical => 1 | Foreground => 2 | Background => 3 | Optional => 4
  end.
(** [order[i]] for [i < 5]. *)
Definition lane_at (i : nat) : lane := nth i all_lanes JoinCritical.

Lemma lane_at_index l : lane_at (lane_index l) = l.
Proof. by destruct l. Qed.

#[global] Program Instance lane_countable : Countable lane :=
  inj_countable' lane_index lane_at lane_at_index.

Record lane_scheduler := LaneScheduler {
  queues : gmap lane (list Z);
  pos : nat;
  remaining : gmap lane Z;
  served_map : gmap lane Z }.

Definition scheduler_new : lane_scheduler := LaneScheduler ∅ 0 ∅ ∅.

Definition queue_of (s : lane_scheduler) (l : lane) : list Z := default [] (queues s !! l).

Definition enqueue (s : lane_scheduler) (l : lane) (job : Z) : lane_scheduler :=
  LaneScheduler (<[l := queue_of s l ++ [job]]> (queues s)) (pos s) (remaining s) (served_map s).

Definition pending (s : lane_scheduler) (l : lane) : Z := Z.of_nat (length (queue_of s l)).
Definition total_pending (s : lane_scheduler) : Z :=
  map_sum (fun q => Z.of_nat (length q)) (queues s).
Definition served (s : lane_scheduler) (l : lane) : Z := default 0 (served_map s !! l).

Definition current (s : lane_scheduler) : lane := lane_at (pos s mod 5).
Definition end_turn (s : lane_scheduler) : lane_scheduler :=
  LaneScheduler (queues s) ((pos s + 1) mod 5) (delete (current s) (remaining s)) (served_map s).

(** One visit of the loop: skip an empty lane, or serve the head of its queue. *)
Definition visit (s : lane_scheduler) : lane_scheduler * option (lane * Z) :=
  let lane := current s in
  match queue_of s lane with
  | [] => (end_turn s, None)
  | job :: q =>
      let rem := wrap 64 (default (weight lane) (remaining s !! lane) - 1) in
      let s1 := LaneScheduler (<[lane := q]> (queues s)) (pos s) (remaining s) (served_map s) in
      let s2 :=
        if (pending s1 lane =? 0) || (rem =? 0) then end_turn s1
        else LaneScheduler (queues s1) (pos s1) (<[lane := rem]> (remaining s1)) (served_map s1) in
      (LaneScheduler (queues s2) (pos s2) (remaining s2)
         (<[lane := wrap 64 (served s2 lane + 1)]> (served_map s2)), Some (lane, job))
  end.

Fixpoint rotate (turns : nat) (s : lane_scheduler) : lane_scheduler * option (lane * Z) :=
  match turns with
  | O => (s, None)
  | S turns => match visit s with (s', None) => rotate turns s' | r => r end
  end.

Definition pop_next (s : lane_scheduler) : lane_scheduler * option (lane * Z) :=
  if total_pending s =? 0 then (LaneScheduler (queues s) 0 ∅ (served_map s), None)
  else rotate 5 s.

(** ** Chunk plans: properties *)
Lemma div_ceil_spec a b i : 0 < b -> (i < div_ceil a b <-> i * b < a).
Proof.
  intros Hb. unfold div_ceil. pose proof (Z.div_mod a b ltac:(lia)).
  pose proof (Z.mod_pos_bound a b Hb). destruct (a mod b =? 0) eqn:E; bool_prop; nia.
Qed.

Lemma chunk_range_eq fl cl p i :
  plan_new fl cl = Ok p -> 0 <= fl -> 0 < cl -> fl + cl <= 2 ^ 64 -> 0 <= i ->
  chunk_range p i = if i * cl <? fl then Some (i * cl, Z.min (i * cl + cl) fl) else None.
Proof.
  unfold plan_new. destruct (_ || _) eqn:E; [done|]. intros [= <-] Hfl Hcl Hsum Hi.
  unfold chunk_range; cbn [chunk_count chunk_len file_len].
  pose proof (div_ceil_spec fl cl i Hcl) as Hdiv. destruct (div_ceil fl cl <=? i) eqn:Ei; bool_prop.
  - rewrite (proj2 (Z.ltb_ge _ _)) by lia. done.
  - rewrite (proj2 (Z.ltb_lt _ _)) by lia. rewrite !wrap_small by (unfold fits; nia). done.
Qed.

(** A plan of a file cuts it into chunks that tile it: every byte lies in
    exactly one chunk, every chunk is non-empty, within the file and at most
    [chunk_len] long, and only the last one may be shorter. The sum of both
    lengths has to fit u64, or [start + chunk_len] wraps. *)
Theorem chunk_plan_tiles fl cl p :
  plan_new fl cl = Ok p -> 0 <= fl -> 0 <= cl -> fl + cl <= 2 ^ 64 ->
  (forall b, 0 <= b < fl -> exists i s e, 0 <= i < chunk_count p /\
    chunk_range p i = Some (s, e) /\ s <= b < e /\
    forall j s' e', 0 <= j -> chunk_range p j = Some (s', e') -> s' <= b < e' -> j = i) /\
  (forall i s e, 0 <= i -> chunk_range p i = Some (s, e) ->
    0 <= s < e /\ e <= fl /\ e - s <= cl /\ (i + 1 < chunk_count p -> e - s = cl)) /\
  (forall i, 0 <= i -> is_Some (chunk_range p i) <-> i < chunk_count p).
Proof.
  intros Hp Hfl Hcl Hsum. pose proof Hp as Hp0. unfold plan_new in Hp0.
  destruct ((fl =? 0) || (cl =? 0)) eqn:E; [done|]. bool_prop. injection Hp0 as Hp0.
  assert (Hcl0 : 0 < cl) by lia.
  assert (Hr := fun i Hi => chunk_range_eq fl cl p i Hp Hfl Hcl0 Hsum Hi).
  assert (Hcnt : forall i, i < chunk_count p <-> i * cl < fl)
    by (intros i; subst p; cbn; by apply div_ceil_spec).
  split_and!.
  - intros b Hb. pose proof (Z.div_mod b cl ltac:(lia)). pose proof (Z.mod_pos_bound b cl Hcl0).
    assert (0 <= b / cl) by (apply Z.div_pos; lia).
    exists (b / cl), (b / cl * cl), (Z.min (b / cl * cl + cl) fl). rewrite Hr, Hcnt by done.
    rewrite (proj2 (Z.ltb_lt _ _)) by nia. split_and!; [done|nia|done|nia|nia|].
    intros j s' e' Hj. rewrite Hr by done. destruct (_ <? _); [|done]. intros [= <- <-] ?. nia.
  - intros i s e Hi. rewrite Hr by done. destruct (_ <? _) eqn:Ei; [|done]. bool_prop.
    intros [= <- <-]. rewrite Hcnt. nia.
  - intros i Hi. rewrite Hr, Hcnt by done. destruct (_ <? _) eqn:Ei; bool_prop.
    + split; [done|by eexists].
    + split; [by intros []|lia].
Qed.

Lemma chunk_plan_tiles_witness :
  plan_new 1000 256 = Ok (ChunkPlan 1000 256 4) /\
  exists i s e, 0 <= i < 4 /\ chunk_range (ChunkPlan 1000 256 4) i = Some (s, e) /\ s <= 999 < e.
Proof.
  split; [reflexivity|].
  destruct (chunk_plan_tiles 1000 256 (ChunkPlan 1000 256 4)) as (H & _);
    [reflexivity|lia|lia|lia|].
  destruct (H 999) as (i & s & e & Hi & Hr & Hb & _); [lia|]. exists i, s, e. exact (conj Hi (conj Hr Hb)).
Defined.

(** With lengths near the end of u64 the second chunk ends before it starts. *)
Lemma chunk_range_wraps :
  exists p, plan_new (2 ^ 64 - 1) (2 ^ 63 + 1) = Ok p /\ chunk_range p 1 = Some (2 ^ 63 + 1, 2).
Proof. by eexists. Qed.

(** ** Reassembly: properties *)
Definition count_true (cov : list bool) : Z := Z.of_nat (length (List.filter id cov)).

Lemma count_true_insert cov i :
  cov !! i = Some false -> count_true (<[i := true]> cov) = count_true cov + 1.
Proof.
  unfold count_true. revert i. induction cov as [|b cov IH]; intros [|i] Hi; [done..| |].
  - injection Hi as ->. change (<[0%nat := true]> (false :: cov)) with (true :: cov).
    cbn [List.filter id length]. lia.
  - specialize (IH i Hi). change (<[S i := true]> (b :: cov)) with (b :: <[i := true]> cov).
    destruct b; cbn [List.filter id length]; lia.
Qed.

Lemma count_true_le cov : count_true cov <= Z.of_nat (length cov).
Proof. unfold count_true. pose proof (length_filterb_le id cov). lia. Qed.

Lemma count_true_full cov :
  count_true cov = Z.of_nat (length cov) <-> forall i, (i < length cov)%nat -> cov !! i = Some true.
Proof.
  unfold count_true. induction cov as [|b cov IH]; [split; [cbn; lia|done]|].
  pose proof (length_filterb_le id cov). destruct b; cbn [List.filter id length].
  - split.
    + intros Hc [|i] Hi; [done|]. apply IH; [lia|cbn in Hi; lia].
    + intros Hall. assert (Z.of_nat (length (List.filter id cov)) = Z.of_nat (length cov)); [|lia].
      apply IH. intros i Hi. apply (Hall (S i)). cbn; lia.
  - split; [lia|]. intros Hall. specialize (Hall 0%nat ltac:(cbn; lia)). done.
Qed.

Definition within (i at_ len : nat) : Prop := (at_ <= i < at_ + len)%nat.

Lemma store_spec data : forall at_ buf cov fresh buf' cov' fresh',
  store at_ data buf cov fresh = (buf', cov', fresh') ->
  length buf = length cov -> (at_ + length data <= length cov)%nat ->
  length buf' = length buf /\ length cov' = length cov /\
  (forall i, within i at_ (length data) -> buf' !! i = data !! (i - at_)%nat /\ cov' !! i = Some true) /\
  (forall i, ~ within i at_ (length data) -> buf' !! i = buf !! i /\ cov' !! i = cov !! i) /\
  fresh' - fresh = count_true cov' - count_true cov /\ fresh <= fresh'.
Proof.
  induction data as [|b data IH]; intros at_ buf cov fresh buf' cov' fresh' Hst Hl Hat;
    cbn [store length] in *.
  { injection Hst as <- <- <-. split_and!; [done|done| |done|lia|lia]. unfold within. intros; lia. }
  assert (Hstep : forall cov1 fresh1,
    store (S at_) data (<[at_ := b]> buf) cov1 fresh1 = (buf', cov', fresh') ->
    length cov1 = length cov -> cov1 !! at_ = Some true ->
    (forall i, i <> at_ -> cov1 !! i = cov !! i) ->
    fresh1 - fresh = count_true cov1 - count_true cov -> fresh <= fresh1 ->
    length buf' = length buf /\ length cov' = length cov /\
    (forall i, within i at_ (S (length data)) ->
       buf' !! i = (b :: data) !! (i - at_)%nat /\ cov' !! i = Some true) /\
    (forall i, ~ within i at_ (S (length data)) -> buf' !! i = buf !! i /\ cov' !! i = cov !! i) /\
    fresh' - fresh = count_true cov' - count_true cov /\ fresh <= fresh').
  { intros cov1 fresh1 Hs Hl1 Hat1 Hne Hf Hle. unfold within in *.
    apply IH in Hs as (Hb & Hc & Hin & Hout & Hfr & Hm); [|by rewrite length_insert; lia|lia].
    rewrite length_insert in Hb. split_and!; [lia|lia| | |lia|lia].
    - intros i Hi. destruct (decide (i = at_)) as [->|Hia].
      + rewrite Nat.sub_diag. destruct (Hout at_ ltac:(lia)) as [-> ->].
        by rewrite list_lookup_insert_eq by lia.
      + destruct (Hin i ltac:(lia)) as [-> ->]. by replace (i - at_)%nat with (S (i - S at_)) by lia.
    - intros i Hi. destruct (Hout i ltac:(lia)) as [-> ->].
      rewrite list_lookup_insert_ne by lia. rewrite Hne by lia. done. }
  destruct (decide (cov !! at_ = Some false)) as [Hf|Hf].
  - eapply Hstep; [exact Hst|by rewrite length_insert| | |by rewrite count_true_insert by done; lia|lia].
    + apply list_lookup_insert_eq. lia.
    + intros i Hi. by rewrite list_lookup_insert_ne.
  - eapply Hstep; [exact Hst|done| |done|lia|lia].
    destruct (lookup_lt_is_Some_2 cov at_ ltac:(lia)) as [[] Hb]; done.
Qed.

(** What every reachable download satisfies: the buffers have the length of
    the file and the counter counts the covered bytes. *)
Record download_ok (d : download) : Prop := {
  ok_len : 0 < file_len (plan d) < 2 ^ 64;
  ok_bytes : Z.of_nat (length (bytes d)) = file_len (plan d);
  ok_covered : Z.of_nat (length (covered d)) = file_len (plan d);
  ok_received : received_bytes d = count_true (covered d) }.

Lemma count_true_replicate n : count_true (replicate n false) = 0.
Proof. unfold count_true. by induction n. Qed.

Lemma download_new_ok p t : 0 < file_len p < 2 ^ 64 -> download_ok (download_new p t).
Proof.
  intros Hp. split; cbn; rewrite ?length_replicate; [done|lia|lia|].
  by rewrite count_true_replicate.
Qed.

Definition fits_in (d : download) (offset : Z) (data : list Z) : Prop :=
  offset + Z.of_nat (length data) <= file_len (plan d).

Lemma receive_err d offset data t e :
  download_ok d -> receive d offset data t = Err e ->
  is_complete d = true \/ ~ fits_in d offset data.
Proof.
  intros [? _ _ _]. unfold receive, fits_in. destruct (is_complete d); [by left|].
  destruct (_ <? _) eqn:E1; bool_prop; [right; unfold u64_max in *; lia|].
  destruct (file_len (plan d) <? _) eqn:E2; bool_prop; [right; lia|].
  destruct (_ =? 0); [done|]. by destruct (store _ _ _ _ _) as [[??] ?].
Qed.

Lemma receive_ok d offset data t d' :
  download_ok d -> 0 <= offset -> receive d offset data t = Ok d' ->
  download_ok d' /\ plan d' = plan d /\ is_complete d = false /\ fits_in d offset data /\
  (forall i, within i (Z.to_nat offset) (length data) ->
     bytes d' !! i = data !! (i - Z.to_nat offset)%nat /\ covered d' !! i = Some true) /\
  (forall i, ~ within i (Z.to_nat offset) (length data) ->
     bytes d' !! i = bytes d !! i /\ covered d' !! i = covered d !! i) /\
  last_progress_tick d' =
    (if received_bytes d <? received_bytes d' then t else last_progress_tick d).
Proof.
  intros Hok Ho. pose proof Hok as [Hlen Hb Hc Hr]. unfold receive, fits_in.
  destruct (is_complete d) eqn:Hcmp; [done|].
  destruct (u64_max <? _); [done|]. destruct (file_len (plan d) <? _) eqn:E2; [done|]. bool_prop.
  destruct (Z.of_nat (length data) =? 0) eqn:E0; bool_prop.
  { intros [= <-]. destruct data; [|done]. rewrite Z.ltb_irrefl. split_and!; [done..| |done|done].
    unfold within. cbn. intros; lia. }
  destruct (store _ _ _ _ _) as [[buf cov] fresh] eqn:Hst.
  apply store_spec in Hst as (Hlb & Hlc & Hin & Hout & Hfr & Hge); [|lia|lia].
  destruct (0 <? fresh) eqn:Ef; bool_prop; intros [= <-]; cbn;
    (split; [split; cbn; lia|]); split_and!; auto.
  - by rewrite (proj2 (Z.ltb_lt _ _)) by lia.
  - by rewrite Z.ltb_irrefl.
Qed.

Lemma is_complete_iff d :
  download_ok d -> is_complete d = true <->
  forall i, (Z.of_nat i < file_len (plan d)) -> covered d !! i = Some true.
Proof.
  intros [_ _ Hc Hr]. unfold is_complete. rewrite Z.eqb_eq, Hr, <- Hc, count_true_full.
  split; intros H i Hi; apply H; lia.
Qed.

(** One call: offset, bytes, tick. A rejected call leaves the download as it is. *)
Definition piece := (Z * list Z * Z)%type.
Definition receive_step (d : download) (p : piece) : download :=
  match receive d p.1.1 p.1.2 p.2 with Ok d' => d' | Err _ => d end.

(** The bytes of the call are those the file has there. *)
Definition honest (f : list Z) (p : piece) : Prop :=
  0 <= p.1.1 /\
  forall i x, p.1.2 !! i = Some x -> forall y, f !! (Z.to_nat p.1.1 + i)%nat = Some y -> x = y.

Definition covers (n : Z) (p : piece) (i : nat) : Prop :=
  p.1.1 + Z.of_nat (length p.1.2) <= n /\ within i (Z.to_nat p.1.1) (length p.1.2).

#[global] Instance covers_dec n p i : Decision (covers n p i).
Proof. unfold covers, within. apply _. Defined.

(** The specification: a position is covered when some piece within the file
    covers it, and covered positions hold the byte of the file. *)
Definition reassembles (f : list Z) (n : Z) (ps : list piece) (d : download) : Prop :=
  download_ok d /\ file_len (plan d) = n /\
  (forall i, covered d !! i = Some true <-> Exists (fun p => covers n p i) ps) /\
  (forall i, covered d !! i = Some true -> bytes d !! i = f !! i).

Lemma covers_lt n p i : covers n p i -> 0 <= p.1.1 -> Z.of_nat i < n.
Proof. unfold covers, within. lia. Qed.

Lemma covered_true_or_false d i :
  download_ok d -> Z.of_nat i < file_len (plan d) ->
  covered d !! i = Some true \/ covered d !! i = Some false.
Proof.
  intros [_ _ Hc _] Hi. destruct (lookup_lt_is_Some_2 (covered d) i ltac:(lia)) as [[] ?]; auto.
Qed.

Lemma receive_step_reassembles f n ps d p :
  Z.of_nat (length f) = n -> honest f p ->
  reassembles f n ps d -> reassembles f n (ps ++ [p]) (receive_step d p).
Proof.
  intros Hf [Ho Hh] (Hok & Hn & Hc & Hb). unfold receive_step.
  assert (Hex : forall i, Exists (fun p => covers n p i) (ps ++ [p]) <->
    covered d !! i = Some true \/ covers n p i).
  { intros i. rewrite Exists_app, Exists_cons, Exists_nil, <- Hc. naive_solver. }
  destruct p as [[offset data] t]; cbn [fst snd] in *.
  destruct (receive d offset data t) as [d'|e] eqn:Hrec.
  - apply receive_ok in Hrec as (Hok' & Hp & _ & Hfit & Hin & Hout & _); [|done..].
    unfold fits_in in Hfit. unfold reassembles. rewrite Hp. split; [done|]. split; [done|].
    assert (Hcov : forall i, covered d' !! i = Some true <->
      covered d !! i = Some true \/ covers n (offset, data, t) i).
    { intros i. unfold covers; cbn [fst snd]. destruct (decide (within i (Z.to_nat offset) (length data))) as [Hw|Hw].
      - destruct (Hin i Hw) as [_ ->]. split; [right; split; [lia|done]|done].
      - destruct (Hout i Hw) as [_ ->]. naive_solver. }
    split; [intros i; by rewrite Hex|].
    intros i Hi. destruct (decide (within i (Z.to_nat offset) (length data))) as [Hw|Hw].
    + destruct (Hin i Hw) as [-> _]. unfold within in Hw.
      destruct (lookup_lt_is_Some_2 data (i - Z.to_nat offset)%nat) as [x Hx]; [lia|].
      destruct (lookup_lt_is_Some_2 f i) as [y Hy]; [lia|].
      rewrite Hx, Hy. f_equal. apply (Hh _ _ Hx).
      by replace (Z.to_nat offset + (i - Z.to_nat offset))%nat with i by lia.
    + destruct (Hout i Hw) as [-> Hci]. apply Hb. congruence.
  - apply receive_err in Hrec as [Hcmp|Hfit]; [|..|done].
    + split_and!; [apply Hok..|done| |done]. intros i. rewrite Hex. split; [by left|].
      intros [?|Hcv]; [done|]. rewrite is_complete_iff in Hcmp by done. apply Hcmp.
      rewrite Hn. by eapply covers_lt.
    + split_and!; [apply Hok..|done| |done]. intros i. rewrite Hex. split; [by left|].
      intros [?|[Hle _]]; [done|]. unfold fits_in in Hfit. cbn in Hle. lia.
Qed.

Lemma receive_plan d offset data t d' :
  receive d offset data t = Ok d' -> plan d' = plan d.
Proof.
  unfold receive. destruct (is_complete d); [done|]. destruct (_ <? _); [done|].
  destruct (_ <? _); [done|]. destruct (_ =? 0); [by intros [= ->]|].
  destruct (store _ _ _ _ _) as [[??] fresh]. by destruct (0 <? fresh); intros [= <-].
Qed.

Lemma run_plan p t ps : plan (run receive_step (download_new p t) ps) = p.
Proof.
  induction ps as [|q ps IH] using rev_ind; [done|]. rewrite run_app; cbn.
  unfold receive_step. destruct (receive _ _ _ _) as [d'|] eqn:E; [|done].
  by apply receive_plan in E as ->.
Qed.

Lemma run_reassembles f n p t ps :
  Z.of_nat (length f) = n -> file_len p = n -> 0 < n < 2 ^ 64 -> Forall (honest f) ps ->
  reassembles f n ps (run receive_step (download_new p t) ps).
Proof.
  intros Hf Hp Hn. induction ps as [|q ps IH] using rev_ind; intros Hh.
  - split; [apply download_new_ok; lia|]. split; [done|]. cbn.
    assert (H : forall i, replicate (Z.to_nat (file_len p)) false !! i <> Some true)
      by (intros i [? _]%lookup_replicate; done).
    split; [intros i; rewrite Exists_nil; split; [by intros ?%H|done]|by intros i ?%H].
  - apply Forall_app in Hh as [Hh [Hq _]%Forall_cons]. rewrite run_app.
    by apply receive_step_reassembles; auto.
Qed.

Lemma complete_bytes f n ps d :
  Z.of_nat (length f) = n -> reassembles f n ps d -> is_complete d = true -> bytes d = f.
Proof.
  intros Hf (Hok & Hn & _ & Hb) Hcmp. pose proof Hok as [_ Hlb _ _].
  apply list_eq. intros i. destruct (decide (Z.of_nat i < n)).
  - apply Hb. rewrite is_complete_iff in Hcmp by done. apply Hcmp. lia.
  - rewrite !lookup_ge_None_2 by lia. done.
Qed.

Lemma chunk_covered_iff d i s e :
  chunk_range (plan d) i = Some (s, e) -> 0 <= s ->
  chunk_covered d i = true <-> forall k, s <= Z.of_nat k < e -> covered d !! k = Some true.
Proof.
  intros Hr Hs. unfold chunk_covered. rewrite Hr, forallb_forall. split.
  - intros H k Hk. specialize (H (Z.of_nat k)). rewrite Nat2Z.id in H.
    apply bool_decide_eq_true in H; [done|]. rewrite <- list_elem_of_In, elem_of_seqZ. lia.
  - intros H b Hb. rewrite <- list_elem_of_In, elem_of_seqZ in Hb. apply bool_decide_eq_true, H. lia.
Qed.

Lemma filterb_full {A} (f : A -> bool) l :
  length (List.filter f l) = length l <-> Forall (fun x => f x = true) l.
Proof.
  induction l as [|x l IH]; [done|]. rewrite Forall_cons. cbn [List.filter length].
  pose proof (length_filterb_le f l). destruct (f x); cbn [length]; [naive_solver lia|].
  split; [lia|by intros [? _]].
Qed.

Lemma complete_chunks_all d fl cl :
  download_ok d -> plan_new fl cl = Ok (plan d) -> 0 < cl -> fl + cl <= 2 ^ 64 ->
  complete_chunks d = chunk_count (plan d) <-> is_complete d = true.
Proof.
  intros Hok Hp Hcl Hsum. pose proof Hok as [Hlen _ _ _]. rewrite is_complete_iff by done.
  assert (Hfl : fl = file_len (plan d)).
  { unfold plan_new in Hp. destruct (_ || _); [done|]. by injection Hp as <-. }
  assert (Hcnt : forall i, i < chunk_count (plan d) <-> i * cl < fl).
  { intros i. unfold plan_new in Hp. destruct (_ || _); [done|]. injection Hp as <-. cbn.
    by apply div_ceil_spec. }
  assert (Hpos : 0 < chunk_count (plan d)) by (apply Hcnt; lia).
  unfold complete_chunks. rewrite <- (Z2Nat.id (chunk_count (plan d))) at 2 by lia.
  rewrite <- (length_seqZ 0 (chunk_count (plan d))). rewrite Nat2Z.inj_iff, filterb_full.
  rewrite Forall_forall. setoid_rewrite elem_of_seqZ.
  assert (Hr : forall i, 0 <= i < chunk_count (plan d) -> chunk_covered d i = true <->
    forall k, i * cl <= Z.of_nat k < Z.min (i * cl + cl) fl -> covered d !! k = Some true).
  { intros i Hi. apply chunk_covered_iff; [|nia]. rewrite (chunk_range_eq fl cl) by (done || lia).
    rewrite (proj2 (Z.ltb_lt _ _)) by (apply Hcnt; lia). done. }
  split.
  - intros H i Hi. pose proof (Z.div_mod (Z.of_nat i) cl ltac:(lia)).
    pose proof (Z.mod_pos_bound (Z.of_nat i) cl Hcl).
    assert (0 <= Z.of_nat i / cl) by (apply Z.div_pos; lia).
    apply (Hr (Z.of_nat i / cl)); [split; [done|apply Hcnt; nia]|apply H; split; [lia|]|nia].
    rewrite Z.add_0_l. apply Hcnt. nia.
  - intros H i Hi. apply Hr; [lia|]. intros k Hk. apply H. lia.
Qed.

(** C6: whatever order, overlap or repetition the pieces of a file arrive in,
    out-of-range writes included, the bitmap is exactly the union of the pieces
    within the file, the counter is its size, the buffer is the file wherever it
    is covered, and [assembled] is the file once every byte is covered and
    nothing before; all chunks count as complete exactly then. *)
Theorem download_reassembly f cl p t ps :
  plan_new (Z.of_nat (length f)) cl = Ok p -> 0 < cl -> Z.of_nat (length f) + cl <= 2 ^ 64 ->
  Forall (honest f) ps ->
  let d := run receive_step (download_new p t) ps in
  let all := forall i, (i < length f)%nat -> Exists (fun q => covers (Z.of_nat (length f)) q i) ps in
  (forall i, covered d !! i = Some true <-> Exists (fun q => covers (Z.of_nat (length f)) q i) ps) /\
  received_bytes d = count_true (covered d) /\
  (forall i, covered d !! i = Some true -> bytes d !! i = f !! i) /\
  (all -> assembled d = Some f) /\ (~ all -> assembled d = None) /\
  (complete_chunks d = chunk_count (plan d) <-> all).
Proof.
  intros Hp Hcl Hsum Hh d all.
  assert (Hpl : file_len p = Z.of_nat (length f) /\ 0 < Z.of_nat (length f)).
  { unfold plan_new in Hp. destruct (_ || _) eqn:E; [done|]. bool_prop. injection Hp as <-. cbn. lia. }
  destruct (run_reassembles f (Z.of_nat (length f)) p t ps) as (Hok & Hn & Hc & Hb);
    [done|lia|lia|done|]. fold d in Hok, Hn, Hc, Hb.
  assert (Hall : is_complete d = true <-> all).
  { rewrite is_complete_iff by done. unfold all. rewrite Hn. setoid_rewrite Hc.
    split; intros H i Hi; apply H; lia. }
  assert (Hplan : plan d = p) by (apply run_plan).
  split_and!; [done|apply Hok|done| | |].
  - intros Ha. unfold assembled. rewrite (proj2 Hall Ha). f_equal.
    apply (complete_bytes f (Z.of_nat (length f)) ps); [done|exact (conj Hok (conj Hn (conj Hc Hb)))|by apply Hall].
  - intros Hna. unfold assembled. destruct (is_complete d) eqn:E; [|done]. by destruct Hna; apply Hall.
  - rewrite <- Hall. apply (complete_chunks_all d (Z.of_nat (length f)) cl); [done|by rewrite Hplan|done|done].
Qed.

Lemma download_reassembly_witness :
  let d := run receive_step (download_new (ChunkPlan 5 2 3) 0) [(3, [13; 14], 1); (2, [12; 13; 14], 2)] in
  plan_new 5 2 = Ok (ChunkPlan 5 2 3) /\ assembled d = None.
Proof.
  intros d. split; [reflexivity|].
  destruct (download_reassembly [10; 11; 12; 13; 14] 2 (ChunkPlan 5 2 3) 0
    [(3, [13; 14], 1); (2, [12; 13; 14], 2)]) as (_ & _ & _ & _ & Hna & _); [reflexivity|lia|cbn; lia| |].
  - repeat constructor; cbn; try lia; intros [|[|[|[]]]] x [= <-] y [= <-]; reflexivity.
  - apply Hna. intros Hall. specialize (Hall 0%nat ltac:(cbn; lia)).
    rewrite !Exists_cons, Exists_nil in Hall. unfold covers, within in Hall. cbn in Hall. lia.
Defined.

(** ** Resume: properties *)
Definition in_range (i : Z) (r : Z * Z) : Prop := r.1 <= i < r.1 + r.2.
Definition before (r1 r2 : Z * Z) : Prop := r1.1 + r1.2 < r2.1.

Definition run_ok (i : Z) (out : list (Z * Z)) (open : option (Z * Z)) : Prop :=
  match open with
  | Some (s, l) => 0 < l /\ s + l = i /\ Forall (fun r => before r (s, l)) out
  | None => Forall (fun r => before r (i, 1)) out
  end.

Lemma sorted_snoc out r :
  StronglySorted before out -> Forall (fun x => before x r) out ->
  StronglySorted before (out ++ [r]).
Proof.
  induction 1 as [|x out Hs IH Hx]; intros H; cbn; [repeat constructor|].
  apply Forall_cons in H as [H1 H2]. constructor; [by apply IH|]. apply Forall_app; auto.
Qed.

Lemma scan_missing_spec cov : forall i out open,
  run_ok i out open -> StronglySorted before out -> Forall (fun r => 0 < r.2) out ->
  let ms := scan_missing cov i out open in
  StronglySorted before ms /\ Forall (fun r => 0 < r.2) ms /\
  forall k, Exists (in_range k) ms <->
    Exists (in_range k) out \/ (exists r, open = Some r /\ in_range k r) \/
    (i <= k /\ cov !! Z.to_nat (k - i) = Some false).
Proof.
  induction cov as [|b cov IH]; intros i out open Hrun Hs Hp; cbn [scan_missing].
  { destruct open as [[s l]|]; cbn in Hrun.
    - destruct Hrun as (Hl & Hi & Hb). split_and!; [by apply sorted_snoc|apply Forall_app; auto|].
      intros k. rewrite Exists_app, Exists_cons, Exists_nil. naive_solver.
    - split_and!; [done..|]. intros k. naive_solver. }
  assert (Hk : forall k, (i <= k /\ (b :: cov) !! Z.to_nat (k - i) = Some false) <->
    (k = i /\ b = false) \/ (i + 1 <= k /\ cov !! Z.to_nat (k - (i + 1)) = Some false)).
  { intros k. destruct (decide (k = i)) as [->|].
    - rewrite Z.sub_diag. cbn. naive_solver lia.
    - destruct (decide (i < k)); [|naive_solver lia].
      replace (Z.to_nat (k - i)) with (S (Z.to_nat (k - (i + 1)))) by lia. cbn. naive_solver lia. }
  destruct b.
  - destruct (IH (i + 1) (match open with Some r => out ++ [r] | None => out end) None)
      as (Hs' & Hp' & Hin).
    + destruct open as [[s l]|]; cbn in *.
      * destruct Hrun as (Hl & Hi & Hb). apply Forall_app. split; [|apply Forall_singleton; unfold before; cbn; lia].
        eapply Forall_impl; [exact Hb|]. unfold before; cbn. intros; lia.
      * eapply Forall_impl; [exact Hrun|]. unfold before; cbn. intros; lia.
    + destruct open as [[s l]|]; [by apply sorted_snoc; [|apply Hrun]|done].
    + destruct open as [[s l]|]; [apply Forall_app; split; [done|apply Forall_singleton, Hrun]|done].
    + split_and!; [done..|]. intros k. rewrite Hin, Hk. destruct open as [r|].
      * rewrite Exists_app, Exists_cons, Exists_nil. naive_solver.
      * naive_solver.
  - destruct open as [[s l]|]; cbn in Hrun.
    + destruct Hrun as (Hl & Hi & Hb).
      destruct (IH (i + 1) out (Some (s, l + 1))) as (Hs' & Hp' & Hin); [|done..|].
      { cbn. split_and!; [lia|lia|exact Hb]. }
      split_and!; [done..|]. intros k. rewrite Hin, Hk. unfold in_range. cbn.
      split.
      * intros [?|[(r & [= <-] & ?)|?]]; [by left| |by right; right; right].
        cbn in *. destruct (decide (k = i)); [by right; right; left|].
        right; left. eexists; split; [done|]. cbn. lia.
      * intros [?|[(r & [= <-] & ?)|[[-> _]|?]]]; [by left|right; left; eexists; split; [done|]..|by right; right];
          cbn in *; lia.
    + destruct (IH (i + 1) out (Some (i, 1))) as (Hs' & Hp' & Hin); [|done..|].
      { cbn. split_and!; [lia|lia|exact Hrun]. }
      split_and!; [done..|]. intros k. rewrite Hin, Hk. unfold in_range. cbn. split.
      * intros [?|[(r & [= <-] & ?)|?]]; [by left| |by right; right; right].
        cbn in *. right; right; left. split; [lia|done].
      * intros [?|[(r & [=] & ?)|[[-> _]|?]]]; [by left| |by right; right].
        right; left. eexists; split; [done|]. cbn. lia.
Qed.

Lemma missing_ranges_spec d :
  StronglySorted before (missing_ranges d) /\ Forall (fun r => 0 < r.2) (missing_ranges d) /\
  Forall (fun r => 0 <= r.1) (missing_ranges d) /\
  forall k, 0 <= k -> Exists (in_range k) (missing_ranges d) <-> covered d !! Z.to_nat k = Some false.
Proof.
  destruct (scan_missing_spec (covered d) 0 [] None) as (Hs & Hp & Hin); [by cbn|constructor..|].
  unfold missing_ranges. split_and!; [done..| |].
  - rewrite Forall_forall in *. intros r Hr.
    assert (Hex : Exists (in_range r.1) (scan_missing (covered d) 0 [] None)).
    { apply Exists_exists. exists r. split; [done|]. specialize (Hp r Hr). unfold in_range. lia. }
    apply Hin in Hex. rewrite Exists_nil in Hex. naive_solver.
  - intros k Hk. rewrite Hin, Exists_nil, Z.sub_0_r. naive_solver.
Qed.

(** Ask for each range in turn and hand over the bytes of the file. *)
Fixpoint serve (f : list Z) (t : Z) (ranges : list (Z * Z)) (d : download) :
    result download download_error :=
  match ranges with
  | [] => Ok d
  | (s, l) :: ranges =>
      let? d := receive d s (take (Z.to_nat l) (drop (Z.to_nat s) f)) t in serve f t ranges d
  end.

Definition agrees (f : list Z) (d : download) : Prop :=
  forall i, covered d !! i = Some true -> bytes d !! i = f !! i.

Lemma serve_completes f t ranges : forall d,
  download_ok d -> agrees f d -> Z.of_nat (length f) = file_len (plan d) ->
  StronglySorted before ranges -> Forall (fun r => 0 <= r.1 /\ 0 < r.2) ranges ->
  (forall k, 0 <= k -> Exists (in_range k) ranges <-> covered d !! Z.to_nat k = Some false) ->
  exists d', serve f t ranges d = Ok d' /\ assembled d' = Some f.
Proof.
  induction ranges as [|[s l] ranges IH]; intros d Hok Hag Hf Hs Hp Hin; cbn [serve].
  - exists d. split; [done|].
    assert (Hcmp : is_complete d = true).
    { apply is_complete_iff; [done|]. intros i Hi.
      destruct (covered_true_or_false d i) as [?|Hc]; [done|done|done|].
      specialize (Hin (Z.of_nat i) ltac:(lia)). rewrite Nat2Z.id, Hc, Exists_nil in Hin.
      by destruct (proj2 Hin). }
    unfold assembled. rewrite Hcmp. f_equal. apply list_eq. intros i.
    pose proof Hok as [_ Hlb _ _]. destruct (decide (Z.of_nat i < file_len (plan d))).
    + apply Hag. by apply is_complete_iff.
    + rewrite !lookup_ge_None_2 by lia. done.
  - apply Forall_cons in Hp as [[Hs0 Hl] Hp]. inversion Hs as [|? ? Hs' Hb]; subst. cbn in Hs0, Hl.
    assert (Hlast : covered d !! Z.to_nat (s + l - 1) = Some false).
    { apply Hin; [lia|]. left. unfold in_range; cbn. lia. }
    assert (Hfit : s + l <= file_len (plan d)).
    { apply lookup_lt_Some in Hlast. pose proof (ok_covered d Hok). lia. }
    set (data := take (Z.to_nat l) (drop (Z.to_nat s) f)).
    assert (Hdl : length data = Z.to_nat l) by (unfold data; rewrite length_take, length_drop; lia).
    destruct (receive d s data t) as [d1|e] eqn:Hrec.
    2:{ exfalso. apply receive_err in Hrec as [Hcmp|Hnf]; [|unfold fits_in in Hnf; lia|done].
        rewrite is_complete_iff in Hcmp by done. rewrite Hcmp in Hlast by lia. done. }
    apply receive_ok in Hrec as (Hok1 & Hp1 & _ & _ & Hin1 & Hout1 & _); [|done..].
    rewrite Hdl in Hin1, Hout1. cbn [rbind]. apply IH; [done| |by rewrite Hp1|done|done|].
    + intros i. destruct (decide (within i (Z.to_nat s) (Z.to_nat l))) as [Hw|Hw].
      * intros _. destruct (Hin1 i Hw) as [-> _]. unfold within in Hw. unfold data.
        rewrite lookup_take_lt, lookup_drop by lia. f_equal. lia.
      * destruct (Hout1 i Hw) as [-> ->]. apply Hag.
    + intros k Hk. specialize (Hin k Hk). rewrite Exists_cons in Hin.
      destruct (decide (within (Z.to_nat k) (Z.to_nat s) (Z.to_nat l))) as [Hw|Hw].
      * destruct (Hin1 _ Hw) as [_ ->]. split; [|done]. intros Hex. exfalso.
        apply Exists_exists in Hex as (r & Hr & Hkr). rewrite Forall_forall in Hb.
        specialize (Hb r Hr). unfold before, in_range, within in *. cbn in *. lia.
      * destruct (Hout1 _ Hw) as [_ ->]. rewrite <- Hin. split; [by right|].
        intros [Hr|?]; [|done]. destruct Hw. unfold in_range, within in *. cbn in *. lia.
Qed.

(** The resume list of a download is exact: maximal runs in ascending
    order, with a covered gap between two of them, whose positions are the
    missing ones. Asking for its ranges one by one is never refused and ends
    with the complete file. *)
Theorem download_resume f cl p t ps t' :
  plan_new (Z.of_nat (length f)) cl = Ok p -> Z.of_nat (length f) < 2 ^ 64 ->
  Forall (honest f) ps ->
  let d := run receive_step (download_new p t) ps in
  StronglySorted before (missing_ranges d) /\ Forall (fun r => 0 < r.2) (missing_ranges d) /\
  (forall k, 0 <= k ->
     Exists (in_range k) (missing_ranges d) <-> covered d !! Z.to_nat k = Some false) /\
  exists d', serve f t' (missing_ranges d) d = Ok d' /\ assembled d' = Some f.
Proof.
  intros Hp Hlen Hh d. destruct (missing_ranges_spec d) as (Hs & Hpos & Hnn & Hin).
  split; [done|]. split; [done|]. split; [done|].
  assert (Hpl : file_len p = Z.of_nat (length f) /\ 0 < Z.of_nat (length f)).
  { unfold plan_new in Hp. destruct (_ || _) eqn:E; [done|]. bool_prop. injection Hp as <-. cbn. lia. }
  destruct (run_reassembles f (Z.of_nat (length f)) p t ps) as (Hok & Hn & _ & Hb);
    [done|lia|lia|done|].
  apply serve_completes; [exact Hok|exact Hb|symmetry; exact Hn|done| |done].
  rewrite Forall_forall in *. intros r Hr. split; [by apply Hnn|by apply Hpos].
Qed.

Lemma download_resume_witness :
  let d := run receive_step (download_new (ChunkPlan 6 4 2) 0) [(1, [11], 1); (4, [14], 2)] in
  missing_ranges d = [(0, 1); (2, 2); (5, 1)] /\
  exists d', serve [10; 11; 12; 13; 14; 15] 9 (missing_ranges d) d = Ok d' /\
    assembled d' = Some [10; 11; 12; 13; 14; 15].
Proof.
  intros d. split; [reflexivity|].
  destruct (download_resume [10; 11; 12; 13; 14; 15] 4 (ChunkPlan 6 4 2) 0
    [(1, [11], 1); (4, [14], 2)] 9) as (_ & _ & _ & H); [reflexivity|cbn; lia| |exact H].
  repeat constructor; cbn; try lia; intros [|[]] x [= <-] y [= <-]; reflexivity.
Defined.

(** ** Lane scheduler: properties *)
Definition lanes_ok (s : lane_scheduler) : Prop :=
  (pos s < 5)%nat /\ forall l r, remaining s !! l = Some r -> l = current s /\ 1 <= r < weight l.

Definition quantum (s : lane_scheduler) : Z :=
  default (weight (current s)) (remaining s !! current s).

(** Turns of the rotation from the current lane to lane [l]. *)
Definition distance (p : nat) (l : lane) : nat := (lane_index l + 5 - p) mod 5.

Fixpoint weights_from (p n : nat) : Z :=
  match n with O => 0 | S n => weight (lane_at (p mod 5)) + weights_from (p + 1) n end.

(** Most jobs that can be served before lane [l] has its turn. *)
Definition wait (s : lane_scheduler) (l : lane) : Z :=
  match distance (pos s) l with
  | O => 0
  | S n => quantum s + weights_from ((pos s + 1) mod 5) n
  end.

Lemma lanes_new_ok : lanes_ok scheduler_new.
Proof. split; [cbn; lia|]. intros l r H. cbn in H. by rewrite lookup_empty in H. Qed.

Lemma quantum_bounds s : lanes_ok s -> 1 <= quantum s <= weight (current s).
Proof.
  intros [_ Hr]. assert (1 <= weight (current s)) by by destruct (current s).
  unfold quantum. destruct (remaining s !! current s) as [r|] eqn:E; [|cbn [from_option]; lia].
  apply Hr in E as [_ ?]. cbn [from_option id]. lia.
Qed.

Ltac case_pos s := destruct (pos s) as [|[|[|[|[|?]]]]]; try lia.

Lemma wait_bound s l : lanes_ok s -> 0 <= wait s l <= 16 - weight l.
Proof.
  intros Hok. pose proof (quantum_bounds s Hok) as Hq. destruct Hok as [Hp _].
  unfold wait, current in *. revert Hp Hq. generalize (quantum s).
  case_pos s; intros q _ Hq; destruct l; cbn in *; lia.
Qed.

Lemma distance_current s l : lanes_ok s -> distance (pos s) l = 0%nat <-> l = current s.
Proof. intros [Hp _]. unfold current. case_pos s; by destruct l. Qed.

Lemma distance_lt p l : (distance p l < 5)%nat.
Proof. unfold distance. apply Nat.mod_upper_bound. lia. Qed.

Lemma end_turn_ok s : lanes_ok s -> lanes_ok (end_turn s).
Proof.
  intros [Hp Hr]. split; [apply Nat.mod_upper_bound; lia|].
  intros l r H. cbn in H. apply lookup_delete_Some in H as [Hne H]. apply Hr in H as [-> _]. done.
Qed.

Lemma end_turn_quantum s :
  lanes_ok s -> quantum (end_turn s) = weight (current (end_turn s)).
Proof.
  intros Hok. unfold quantum. destruct (remaining (end_turn s) !! _) as [r|] eqn:E; [|done].
  exfalso. cbn in E. apply lookup_delete_Some in E as [Hne E].
  destruct Hok as [_ Hr]. by apply Hr in E as [E _].
Qed.

Lemma end_turn_distance s l :
  lanes_ok s -> l <> current s -> S (distance (pos (end_turn s)) l) = distance (pos s) l.
Proof. intros [Hp _]. unfold current; cbn [end_turn pos]. case_pos s; by destruct l. Qed.

Lemma end_turn_wait s l :
  lanes_ok s -> l <> current s -> wait (end_turn s) l = wait s l - quantum s.
Proof.
  intros Hok Hl. pose proof (end_turn_distance s l Hok Hl) as Hd.
  unfold wait at 2. rewrite <- Hd. unfold wait.
  destruct (distance (pos (end_turn s)) l) as [|n]; cbn [weights_from]; [lia|].
  rewrite (end_turn_quantum s Hok).
  replace (current (end_turn s)) with (lane_at ((pos s + 1) mod 5 mod 5)) by done.
  assert (H : forall p, weights_from (p mod 5) n = weights_from p n); [|cbn [end_turn pos]; rewrite H; lia].
  clear. induction n as [|n IH]; intros p; cbn [weights_from]; [done|].
  rewrite Nat.Div0.mod_mod. f_equal. rewrite <- (IH (p mod 5 + 1)%nat), <- (IH (p + 1)%nat).
  by rewrite Nat.Div0.add_mod_idemp_l.
Qed.

(** The answer of [visit], [rotate] and [pop_next]: the head of a lane's queue
    is served, nothing else moves, and every other waiting lane is closer to
    its turn. *)
Definition serves (s s' : lane_scheduler) (l : lane) (job : Z) : Prop :=
  (exists q, queue_of s l = job :: q /\
    forall l', queue_of s' l' = if decide (l' = l) then q else queue_of s l') /\
  (forall l', served s' l' = if decide (l' = l) then wrap 64 (served s l + 1) else served s l').

Lemma queue_of_insert s l q p r v l' :
  queue_of (LaneScheduler (<[l := q]> (queues s)) p r v) l' =
  if decide (l' = l) then q else queue_of s l'.
Proof.
  unfold queue_of; cbn [queues]. destruct (decide (l' = l)) as [->|Hne].
  - by rewrite lookup_insert_eq.
  - by rewrite lookup_insert_ne by congruence.
Qed.

Lemma visit_serves s job q :
  lanes_ok s -> queue_of s (current s) = job :: q ->
  exists s', visit s = (s', Some (current s, job)) /\ lanes_ok s' /\ serves s s' (current s) job /\
    forall l, l <> current s -> wait s' l < wait s l.
Proof.
  intros Hok Hq. pose proof (quantum_bounds s Hok) as Hb.
  unfold visit. rewrite Hq. fold (quantum s).
  assert (Hw : wrap 64 (quantum s - 1) = quantum s - 1).
  { apply wrap_small. unfold fits. destruct (current s); cbn in Hb; lia. }
  rewrite Hw. eexists. split; [reflexivity|].
  set (s1 := LaneScheduler (<[current s := q]> (queues s)) (pos s) (remaining s) (served_map s)).
  set (b := ((pending s1 (current s) =? 0) || (quantum s - 1 =? 0))%bool).
  set (s2 := if b then end_turn s1 else LaneScheduler (queues s1) (pos s1)
    (<[current s := quantum s - 1]> (remaining s1)) (served_map s1)).
  assert (Hq2 : queues s2 = <[current s := q]> (queues s)) by (unfold s2; by destruct b).
  assert (Hv2 : served_map s2 = served_map s) by (unfold s2; by destruct b).
  assert (Hok1 : lanes_ok s1) by exact Hok.
  assert (Hokw : lanes_ok s2 /\ forall l, l <> current s -> wait s2 l < wait s l).
  { unfold s2. destruct b eqn:Eb.
    - split; [by apply end_turn_ok|]. intros l Hl.
      rewrite (end_turn_wait s1 l Hok1 Hl). change (wait s1 l) with (wait s l).
      change (quantum s1) with (quantum s). lia.
    - unfold b in Eb. bool_prop. split.
      + destruct Hok as [Hp Hr]. split; [done|]. intros l r. cbn [remaining s1 current pos].
        destruct (decide (l = current s)) as [->|Hne].
        * rewrite lookup_insert_eq. intros [= <-]. split; [done|lia].
        * rewrite lookup_insert_ne by congruence. by intros [? _]%Hr.
      + intros l Hl. unfold wait; cbn [pos s1].
        pose proof (distance_current s l Hok) as Hd.
        destruct (distance (pos s) l) as [|n]; [by destruct Hl; apply Hd|].
        unfold quantum at 1; cbn [remaining s1 current pos]. rewrite lookup_insert_eq. cbn [from_option id].
        lia. }
  split; [exact (proj1 Hokw)|]. split; [|exact (proj2 Hokw)]. split.
  - exists q. split; [done|]. intros l'. unfold queue_of; cbn [queues]. rewrite Hq2.
    apply (queue_of_insert s (current s) q 0 ∅ ∅ l').
  - intros l'. unfold served; cbn [served_map]. rewrite Hv2. destruct (decide (l' = current s)) as [->|Hne].
    + by rewrite lookup_insert_eq.
    + by rewrite lookup_insert_ne by congruence.
Qed.

Lemma visit_skips s : queue_of s (current s) = [] -> visit s = (end_turn s, None).
Proof. intros Hq. unfold visit. by rewrite Hq. Qed.

Lemma rotate_serves turns l : forall s,
  lanes_ok s -> queue_of s l <> [] -> (distance (pos s) l < turns)%nat ->
  exists s' l' job, rotate turns s = (s', Some (l', job)) /\ lanes_ok s' /\ serves s s' l' job /\
    forall k, queue_of s k <> [] -> k <> l' -> wait s' k < wait s k.
Proof.
  induction turns as [|turns IH]; intros s Hok Hl Hd; [lia|]. cbn [rotate].
  destruct (queue_of s (current s)) as [|job q] eqn:Hq.
  - rewrite visit_skips by done.
    assert (Hskip : forall k, queue_of s k <> [] -> k <> current s) by (intros k Hk ->; done).
    destruct (IH (end_turn s)) as (s' & l' & job & -> & Hok' & Hs & Hw).
    + by apply end_turn_ok.
    + done.
    + pose proof (end_turn_distance s l Hok (Hskip l Hl)). lia.
    + exists s', l', job. split_and!; [done..|]. intros k Hk Hne. specialize (Hw k Hk Hne).
      rewrite (end_turn_wait s k Hok (Hskip k Hk)) in Hw. pose proof (quantum_bounds s Hok). lia.
  - destruct (visit_serves s job q Hok Hq) as (s' & -> & Hok' & Hs & Hw).
    exists s', (current s), job. split_and!; [done..|]. intros k _ Hk. by apply Hw.
Qed.

Lemma total_pending_zero s : total_pending s = 0 <-> forall l, queue_of s l = [].
Proof.
  unfold total_pending, queue_of. split.
  - intros Hz l. destruct (queues s !! l) as [q|] eqn:E; [|done]. cbn.
    pose proof (map_sum_lookup_le (fun q : list Z => Z.of_nat (length q)) (queues s) l q
      ltac:(intros; apply Nat2Z.is_nonneg) E) as Hle. cbn beta in Hle. destruct q; [done|cbn [length] in Hle; lia].
  - intros Hall. assert (H : forall m : gmap lane (list Z), (forall l, default [] (m !! l) = []) ->
      map_sum (fun q => Z.of_nat (length q)) m = 0); [|by apply H].
    clear. intros m. induction m as [|l q m Hl IH] using map_ind; intros Hall; [apply map_sum_empty|].
    pose proof (Hall l) as Hq. rewrite lookup_insert_eq in Hq. cbn in Hq. subst q.
    rewrite map_sum_insert, Hl, IH; [done|]. intros k. specialize (Hall k).
    destruct (decide (k = l)) as [->|]; [by rewrite Hl|by rewrite lookup_insert_ne in Hall].
Qed.

Lemma pop_next_spec s :
  lanes_ok s ->
  match pop_next s with
  | (s', None) => (forall l, queue_of s l = []) /\ lanes_ok s' /\ queues s' = queues s
  | (s', Some (l, job)) => lanes_ok s' /\ serves s s' l job /\
      forall k, queue_of s k <> [] -> k <> l -> wait s' k < wait s k
  end.
Proof.
  intros Hok. unfold pop_next. destruct (total_pending s =? 0) eqn:E; bool_prop.
  - pose proof (proj1 (total_pending_zero s) E). split; [done|]. split; [|done].
    split; [cbn; lia|]. intros l r Hr. cbn in Hr. by rewrite lookup_empty in Hr.
  - assert (Hex : exists l, queue_of s l <> []).
    { destruct (decide (Forall (fun l => queue_of s l = []) all_lanes)) as [Hall|Hn].
      - destruct E. apply total_pending_zero. intros l. rewrite Forall_forall in Hall.
        apply Hall. destruct l; cbn; set_solver.
      - apply not_Forall_Exists in Hn; [|apply _]. apply Exists_exists in Hn as (l & _ & ?). by exists l. }
    destruct Hex as [l Hl].
    destruct (rotate_serves 5 l s Hok Hl (distance_lt _ _)) as (s' & l' & job & -> & ?). done.
Qed.

(** Executions: what is served, in order. *)
Inductive lane_op := Enqueue (l : lane) (job : Z) | Pop.

Definition lane_step (st : lane_scheduler * list (lane * Z)) (o : lane_op) :=
  match o with
  | Enqueue l job => (enqueue st.1 l job, st.2)
  | Pop => match pop_next st.1 with (s, r) => (s, st.2 ++ option_list r) end
  end.

Definition pops (ops : list lane_op) : Z :=
  Z.of_nat (length (List.filter (fun o => match o with Pop => true | _ => false end) ops)).

Lemma enqueue_queue s l job l' :
  queue_of (enqueue s l job) l' = if decide (l' = l) then queue_of s l ++ [job] else queue_of s l'.
Proof. apply queue_of_insert. Qed.

Lemma lane_step_ok st o : lanes_ok st.1 -> lanes_ok (lane_step st o).1.
Proof.
  intros Hok. destruct o as [l job|]; [exact Hok|]. cbn. pose proof (pop_next_spec st.1 Hok) as H.
  destruct (pop_next st.1) as [s' [[l job]|]]; apply H.
Qed.

Lemma lane_run_served_mono ops : forall st, st.2 `prefix_of` (run lane_step st ops).2.
Proof.
  induction ops as [|o ops IH]; intros st; [done|]. cbn. etransitivity; [|apply IH].
  destruct o as [l job|]; [done|]. cbn. destruct (pop_next st.1). by eexists.
Qed.

Lemma lane_not_starved l ops : forall st,
  lanes_ok st.1 -> queue_of st.1 l <> [] -> wait st.1 l < pops ops ->
  exists job, (l, job) ∈ drop (length st.2) (run lane_step st ops).2.
Proof.
  induction ops as [|o ops IH]; intros st Hok Hq Hw; [pose proof (wait_bound st.1 l Hok); change (pops []) with 0 in Hw; lia|].
  destruct o as [l' job|]; cbn [run foldl].
  - unfold pops in Hw; cbn [List.filter] in Hw. apply (IH (lane_step st (Enqueue l' job))); [exact Hok| |exact Hw].
    cbn. rewrite enqueue_queue. destruct (decide (l = l')) as [->|]; [|done]. by destruct (queue_of st.1 l').
  - unfold pops in Hw; cbn [List.filter length] in Hw.
    pose proof (lane_step_ok st Pop Hok) as Hok'. pose proof (pop_next_spec st.1 Hok) as Hp.
    pose proof (lane_run_served_mono ops (lane_step st Pop)) as [rest Hrest].
    pose proof (IH (lane_step st Pop)) as IHp. unfold run in Hrest, IHp. rewrite Hrest in IHp |- *. clear IH.
    cbn in IHp, Hok' |- *. destruct (pop_next st.1) as [s' [[l' job]|]]; [|by destruct Hq; apply Hp].
    cbn [fst snd option_list] in *. destruct Hp as (_ & Hs & Hwait).
    destruct (decide (l = l')) as [<-|Hne].
    + exists job. rewrite <- app_assoc, drop_app_length. by left.
    + destruct IHp as [job' Hj]; [done| |specialize (Hwait l Hq Hne); unfold pops; lia|].
      { destruct Hs as [(q & _ & Hqs) _]. rewrite Hqs. by rewrite decide_False. }
      exists job'. rewrite <- app_assoc, drop_app_length.
      rewrite drop_app_length in Hj. by right.
Qed.

(** The lane scheduler over any sequence of enqueues and pops: a pop answers
    [None] only when every lane is empty and otherwise serves the head of one
    lane's queue and leaves every other queue alone; and a lane of weight [w]
    with a waiting job is served within the next [17 - w] pops, whatever is
    enqueued in between. *)
Theorem lane_scheduler_fair ops :
  let st := run lane_step (scheduler_new, []) ops in
  match pop_next st.1 with
  | (_, None) => forall l, queue_of st.1 l = []
  | (s', Some (l, job)) => serves st.1 s' l job
  end /\
  forall l more, queue_of st.1 l <> [] -> 17 - weight l <= pops more ->
    exists job, (l, job) ∈ drop (length st.2) (run lane_step st more).2.
Proof.
  intros st.
  assert (Hok : lanes_ok st.1)
    by (apply (run_invariant lane_step (fun st => lanes_ok st.1)); [apply lane_step_ok|apply lanes_new_ok]).
  split.
  - pose proof (pop_next_spec st.1 Hok) as H. destruct (pop_next st.1) as [s' [[l job]|]]; apply H.
  - intros l more Hq Hm. apply lane_not_starved; [done|done|].
    pose proof (wait_bound st.1 l Hok). lia.
Qed.
