(* ===== verification/Scheduler.v ===== *)
(** Resource budgets of crates/ald-scheduler: the budget check (src/budget.rs),
    the runaway heuristics (src/detector.rs), the accounting of the scheduler
    (src/lib.rs) and the lane of a workload class (src/workload.rs,
    src/executor.rs). Counters are u64 and wrap. *)
From S2P Require Import Prelude.

(** ** Budgets *)
Record budget := Budget {
  max_cpu_time_ms : Z; max_exec_time_ms : Z; max_memory_bytes : Z; max_events_per_sec : Z;
  max_net_events_per_sec : Z; max_db_queries_per_sec : Z; max_tasks : Z }.
Definition budget_default : budget := Budget 0 0 0 0 0 0 0.

Record budget_usage := BudgetUsage {
  cpu_time_ms : Z; exec_time_ms : Z; memory_bytes : Z; events : Z;
  net_events : Z; db_queries : Z; task_count : Z }.
Definition usage_default : budget_usage := BudgetUsage 0 0 0 0 0 0 0.

Inductive budget_violation :=
| CpuTime | ExecTime | Memory | Events | NetEvents | DbQueries | TaskCount.

Definition violation_str (v : budget_violation) : string :=
  match v with
  | CpuTime => "cpu_time_exceeded"
  | ExecTime => "exec_time_exceeded"
  | Memory => "memory_exceeded"
  | Events => "events_per_sec_exceeded"
  | NetEvents => "net_events_per_sec_exceeded"
  | DbQueries => "db_queries_per_sec_exceeded"
  | TaskCount => "task_count_exceeded"
  end.

(** [max != 0 && used > max]. *)
Definition exceeds (max used : Z) : bool := negb (max =? 0) && (max <? used).

Definition check (b : budget) (u : budget_usage) : result unit budget_violation :=
  if exceeds (max_cpu_time_ms b) (cpu_time_ms u) then Err CpuTime
  else if exceeds (max_exec_time_ms b) (exec_time_ms u) then Err ExecTime
  else if exceeds (max_memory_bytes b) (memory_bytes u) then Err Memory
  else if exceeds (max_events_per_sec b) (events u) then Err Events
  else if exceeds (max_net_events_per_sec b) (net_events u) then Err NetEvents
  else if exceeds (max_db_queries_per_sec b) (db_queries u) then Err DbQueries
  else if exceeds (max_tasks b) (task_count u) then Err TaskCount
  else Ok tt.

(** ** Runaway heuristics *)
Inductive runaway_kind := InfiniteLoop | EventFlood | MemoryGrowth | SlowHandler | UnboundedTasks.

Record resource_stats := ResourceStats {
  st_cpu_time_ms : Z; st_exec_time_ms : Z; st_memory_bytes : Z; st_events_sec : Z;
  st_net_events_sec : Z; st_db_queries_sec : Z; st_tasks_spawned : Z }.
Definition stats_default : resource_stats := ResourceStats 0 0 0 0 0 0 0.

Record runaway_detector := RunawayDetector {
  event_flood_threshold : Z; memory_growth_threshold : Z; slow_handler_ms : Z }.
(** [#[derive(Default)]]: every threshold is zero. *)
Definition detector_default : runaway_detector := RunawayDetector 0 0 0.
Definition detector_new : runaway_detector := RunawayDetector 1000 (512 * 1024 * 1024) 250.

(** [if c { out.push(k) }]. *)
Definition push_if {A} (c : bool) (k : A) (out : list A) : list A := if c then out ++ [k] else out.

Definition inspect (d : runaway_detector) (st : resource_stats) (b : budget) : list runaway_kind :=
  let out := push_if (event_flood_threshold d <? st_events_sec st) EventFlood [] in
  let out := push_if ((memory_growth_threshold d <? st_memory_bytes st) &&
    negb (max_memory_bytes b =? 0) && (max_memory_bytes b <? st_memory_bytes st)) MemoryGrowth out in
  let out := push_if ((slow_handler_ms d <? st_exec_time_ms st) && (max_exec_time_ms b =? 0))
    SlowHandler out in
  push_if (negb (max_tasks b =? 0) && (wrap 64 (max_tasks b * 4) <? st_tasks_spawned st))
    UnboundedTasks out.

(** ** Scheduler *)
Record scheduler := Scheduler {
  budgets : gmap string budget;
  usage : gmap string budget_usage;
  stats : gmap string resource_stats;
  detector : runaway_detector }.

Definition scheduler_new : scheduler := Scheduler ∅ ∅ ∅ detector_default.

Definition register_resource (s : scheduler) (name : string) (b : budget) : scheduler :=
  Scheduler (<[name := b]> (budgets s)) (<[name := usage_default]> (usage s))
    (<[name := stats_default]> (stats s)) (detector s).

(** Applying a signed i64 [delta] to a u64 counter: [+=] when it is not
    negative, else [saturating_sub((-delta) as u64)], where [-i64::MIN] wraps. *)
Definition apply_delta (m delta : Z) : Z :=
  if 0 <=? delta then wrap 64 (m + delta) else sat_sub m (wrap 64 (swrap 64 (- delta))).

Definition account_usage (u : budget_usage) (cpu_ms mem_delta evs : Z) : budget_usage :=
  BudgetUsage (wrap 64 (cpu_time_ms u + cpu_ms)) (exec_time_ms u)
    (apply_delta (memory_bytes u) mem_delta) (wrap 64 (events u + evs))
    (net_events u) (db_queries u) (wrap 64 (task_count u + 1)).

Definition account_stats (st : resource_stats) (cpu_ms mem_delta evs : Z) : resource_stats :=
  ResourceStats (wrap 64 (st_cpu_time_ms st + cpu_ms)) (st_exec_time_ms st)
    (apply_delta (st_memory_bytes st) mem_delta) (wrap 64 (st_events_sec st + evs))
    (st_net_events_sec st) (st_db_queries_sec st) (wrap 64 (st_tasks_spawned st + 1)).

Definition account_task (s : scheduler) (name : string) (cpu_ms mem_delta evs : Z) :
    scheduler * result unit budget_violation :=
  let u := account_usage (default usage_default (usage s !! name)) cpu_ms mem_delta evs in
  let st := account_stats (default stats_default (stats s !! name)) cpu_ms mem_delta evs in
  (Scheduler (budgets s) (<[name := u]> (usage s)) (<[name := st]> (stats s)) (detector s),
   match budgets s !! name with Some b => check b u | None => Ok tt end).

Definition check_runaway (s : scheduler) (name : string) : list runaway_kind :=
  inspect (detector s) (default stats_default (stats s !! name))
    (default budget_default (budgets s !! name)).

(** ** Workload classes and lanes *)
Inductive workload_class :=
| MainThread | AsyncIo | ParallelSafe | OrderedGameplay | ResourceLocal
| NetworkProcessing | EntityProcessing | Background.

Definition class_str (c : workload_class) : string :=
  match c with
  | MainThread => "MAIN_THREAD" | AsyncIo => "ASYNC_IO" | ParallelSafe => "PARALLEL_SAFE"
  | OrderedGameplay => "ORDERED_GAMEPLAY" | ResourceLocal => "RESOURCE_LOCAL"
  | NetworkProcessing => "NETWORK_PROCESSING" | EntityProcessing => "ENTITY_PROCESSING"
  | Background => "BACKGROUND"
  end.

Definition parallel_eligible (c : workload_class) : bool :=
  match c with ParallelSafe | Background | NetworkProcessing => true | _ => false end.

Inductive executor_lane := OrderedTx | ParallelTx | AsyncTx.

Definition lane_for (c : workload_class) : executor_lane :=
  match c with
  | ParallelSafe | NetworkProcessing | Background => ParallelTx
  | AsyncIo => AsyncTx
  | _ => OrderedTx
  end.

Lemma lane_for_parallel c : lane_for c = ParallelTx <-> parallel_eligible c = true.
Proof. by destruct c. Qed.

(** ** Specification

    What is on record of a resource is the budget of its last registration and
    the tasks accounted since. *)
Record task_cost := TaskCost { tc_cpu : Z; tc_mem : Z; tc_events : Z }.

Inductive sched_op := Register (name : string) (b : budget) | Account (name : string) (t : task_cost).

Definition sched_step (s : scheduler) (o : sched_op) : scheduler :=
  match o with
  | Register name b => register_resource s name b
  | Account name t => (account_task s name (tc_cpu t) (tc_mem t) (tc_events t)).1
  end.

Definition record_of := (option budget * option (list task_cost))%type.

Definition record_step (name : string) (r : record_of) (o : sched_op) : record_of :=
  match o with
  | Register n b => if decide (n = name) then (Some b, Some []) else r
  | Account n t => if decide (n = name) then (r.1, Some (default [] r.2 ++ [t])) else r
  end.

Definition budget_on_record (ops : list sched_op) (name : string) : option budget :=
  (run (record_step name) (None, None) ops).1.
Definition tasks_on_record (ops : list sched_op) (name : string) : list task_cost :=
  default [] (run (record_step name) (None, None) ops).2.

Definition total_cpu (l : list task_cost) : Z := wrap 64 (sum_list (tc_cpu <$> l)).
Definition total_events (l : list task_cost) : Z := wrap 64 (sum_list (tc_events <$> l)).
Definition total_tasks (l : list task_cost) : Z := wrap 64 (Z.of_nat (length l)).
Definition total_memory (l : list task_cost) : Z := foldl apply_delta 0 (tc_mem <$> l).

Definition total_usage (l : list task_cost) : budget_usage :=
  BudgetUsage (total_cpu l) 0 (total_memory l) (total_events l) 0 0 (total_tasks l).
Definition total_stats (l : list task_cost) : resource_stats :=
  ResourceStats (total_cpu l) 0 (total_memory l) (total_events l) 0 0 (total_tasks l).

(** The limit and the use of a dimension, in the order of the checks. *)
Definition limit (b : budget) (v : budget_violation) : Z :=
  match v with
  | CpuTime => max_cpu_time_ms b | ExecTime => max_exec_time_ms b | Memory => max_memory_bytes b
  | Events => max_events_per_sec b | NetEvents => max_net_events_per_sec b
  | DbQueries => max_db_queries_per_sec b | TaskCount => max_tasks b
  end.
Definition used (u : budget_usage) (v : budget_violation) : Z :=
  match v with
  | CpuTime => cpu_time_ms u | ExecTime => exec_time_ms u | Memory => memory_bytes u
  | Events => events u | NetEvents => net_events u | DbQueries => db_queries u
  | TaskCount => task_count u
  end.
Definition rank (v : budget_violation) : nat :=
  match v with
  | CpuTime => 0 | ExecTime => 1 | Memory => 2 | Events => 3 | NetEvents => 4
  | DbQueries => 5 | TaskCount => 6
  end.

Definition over (b : budget) (u : budget_usage) (v : budget_violation) : Prop :=
  limit b v <> 0 /\ limit b v < used u v.

Lemma exceeds_over b u v : exceeds (limit b v) (used u v) = true <-> over b u v.
Proof.
  unfold exceeds, over. rewrite andb_true_iff, negb_true_iff, Z.eqb_neq, Z.ltb_lt. done.
Qed.

Definition over_b (b : budget) (u : budget_usage) (v : budget_violation) : bool :=
  exceeds (limit b v) (used u v).

Lemma check_eq b u :
  check b u = match List.find (over_b b u)
    [CpuTime; ExecTime; Memory; Events; NetEvents; DbQueries; TaskCount] with
  | Some v => Err v | None => Ok tt end.
Proof.
  unfold check, over_b. cbn [List.find limit used].
  repeat (destruct (exceeds _ _); [reflexivity|]). reflexivity.
Qed.

Lemma check_err b u v :
  check b u = Err v <-> over b u v /\ forall w, (rank w < rank v)%nat -> ~ over b u w.
Proof.
  rewrite check_eq. setoid_rewrite <- exceeds_over. fold (over_b b u v).
  setoid_rewrite not_true_iff_false.
  assert (Hf : forall w, exceeds (limit b w) (used u w) = over_b b u w) by done.
  setoid_rewrite Hf. generalize (over_b b u) as f. clear Hf. intros f. cbn [List.find]. split.
  - repeat match goal with
    | |- context [if f ?w then _ else _] => destruct (f w) eqn:?;
        [intros [= <-]; split; [done|intros [] Hw; cbn in Hw; (done || lia)]|]
    end. done.
  - intros [Hv Hmin].
    destruct v; repeat match goal with
    | |- context [f ?w] => first [rewrite (Hmin w) by (cbn; lia) | rewrite Hv]
    end; done.
Qed.

Lemma check_ok b u : check b u = Ok tt <-> forall v, ~ over b u v.
Proof.
  rewrite check_eq. split.
  - intros H v Hv. apply exceeds_over in Hv. fold (over_b b u v) in Hv.
    destruct (List.find _ _) eqn:E; [done|]. rewrite find_None_Forall, Forall_forall in E.
    rewrite E in Hv; [done|]. destruct v; set_solver.
  - intros H. destruct (List.find _ _) as [v|] eqn:E; [|done].
    apply find_Some_elem in E as [_ E]. by apply exceeds_over, H in E.
Qed.

(** ** Properties *)
Definition on_record (ops : list sched_op) (s : scheduler) : Prop :=
  detector s = detector_default /\
    forall name,
    budgets s !! name = budget_on_record ops name /\
    default usage_default (usage s !! name) = total_usage (tasks_on_record ops name) /\
    default stats_default (stats s !! name) = total_stats (tasks_on_record ops name).

Lemma total_snoc l t :
  total_usage (l ++ [t]) = account_usage (total_usage l) (tc_cpu t) (tc_mem t) (tc_events t) /\
  total_stats (l ++ [t]) = account_stats (total_stats l) (tc_cpu t) (tc_mem t) (tc_events t).
Proof.
  assert (Hc : total_cpu (l ++ [t]) = wrap 64 (total_cpu l + tc_cpu t)).
  { unfold total_cpu. rewrite fmap_app, sum_list_app, wrap_add_l. f_equal. cbn. lia. }
  assert (He : total_events (l ++ [t]) = wrap 64 (total_events l + tc_events t)).
  { unfold total_events. rewrite fmap_app, sum_list_app, wrap_add_l. f_equal. cbn. lia. }
  assert (Ht : total_tasks (l ++ [t]) = wrap 64 (total_tasks l + 1)).
  { unfold total_tasks. rewrite length_app, wrap_add_l. f_equal. cbn. lia. }
  assert (Hm : total_memory (l ++ [t]) = apply_delta (total_memory l) (tc_mem t)).
  { unfold total_memory. by rewrite fmap_app, foldl_app. }
  unfold total_usage, total_stats, account_usage, account_stats. cbn.
  by rewrite Hc, He, Ht, Hm.
Qed.

Lemma record_snoc ops o name :
  run (record_step name) (None, None) (ops ++ [o]) =
  record_step name (run (record_step name) (None, None) ops) o.
Proof. by rewrite run_app. Qed.

Lemma sched_step_on_record ops s o :
  on_record ops s -> on_record (ops ++ [o]) (sched_step s o).
Proof.
  intros [Hd Hr]. split; [by destruct o|]. intros name.
  destruct (Hr name) as (Hb & Hu & Hs).
  unfold budget_on_record, tasks_on_record in *. rewrite record_snoc.
  destruct o as [n b|n t]; cbn [sched_step record_step register_resource account_task
    budgets usage stats fst]; destruct (decide (n = name)) as [->|Hne].
  - by rewrite !lookup_insert_eq.
  - by rewrite !lookup_insert_ne.
  - rewrite !lookup_insert_eq. cbn [fst snd from_option id].
    rewrite Hu, Hs. destruct (total_snoc (default [] (run (record_step name) (None, None) ops).2) t)
      as [-> ->]. done.
  - by rewrite !lookup_insert_ne.
Qed.

Lemma run_on_record ops : on_record ops (run sched_step scheduler_new ops).
Proof.
  induction ops as [|o ops IH] using rev_ind.
  - split; [done|]. intros name. done.
  - rewrite run_app. by apply sched_step_on_record.
Qed.

(** After any sequence of registrations and accounted tasks, accounting one
    more task of a resource answers with the first dimension, in the order of
    the checks, in which the totals since the last registration exceed the
    non-zero limit of its budget, and succeeds exactly when there is none (or
    no budget); other resources do not enter into it. Totals are u64 sums,
    memory a saturating sum of the signed deltas; execution time, network
    events and queries are never charged, so never exceeded. *)
Theorem account_task_spec ops name t :
  let s := run sched_step scheduler_new ops in
  let u := total_usage (tasks_on_record ops name ++ [t]) in
  let verdict := (account_task s name (tc_cpu t) (tc_mem t) (tc_events t)).2 in
  (verdict = Ok tt <->
     forall b, budget_on_record ops name = Some b -> forall v, limit b v = 0 \/ used u v <= limit b v) /\
  (forall v, verdict = Err v <->
     exists b, budget_on_record ops name = Some b /\ over b u v /\
       forall w, (rank w < rank v)%nat -> ~ over b u w).
Proof.
  intros s u verdict. destruct (run_on_record ops) as [_ Hr]. destruct (Hr name) as (Hb & Hu & _).
  assert (Hv : verdict = match budget_on_record ops name with Some b => check b u | None => Ok tt end).
  { unfold verdict, account_task; cbn [snd]. unfold s. rewrite Hb, Hu.
    unfold u. by rewrite (proj1 (total_snoc _ _)). }
  rewrite Hv. destruct (budget_on_record ops name) as [b|].
  - rewrite check_ok. split; [|intros v; rewrite check_err; naive_solver].
    unfold over. split.
    + intros H ? [= <-] v. specialize (H v). destruct (decide (limit b v = 0)); [by left|right].
      destruct (decide (limit b v < used u v)); [by destruct H|lia].
    + intros H v Hov. destruct (H b eq_refl v); lia.
  - naive_solver.
Qed.

Lemma elem_of_push_if {A} c (k x : A) out : x ∈ push_if c k out <-> x ∈ out \/ (c = true /\ x = k).
Proof. destruct c; cbn; [rewrite elem_of_app, list_elem_of_singleton|]; naive_solver. Qed.

Lemma NoDup_push_if {A} c (k : A) out : NoDup out -> k ∉ out -> NoDup (push_if c k out).
Proof.
  intros Ho Hk. destruct c; cbn; [|done]. apply NoDup_app. split; [done|].
  split; [|by apply NoDup_singleton]. intros x Hx ->%list_elem_of_singleton. done.
Qed.

(** What the runaway check reports of a resource in a reachable scheduler:
    an infinite loop or a slow handler never; an event flood as soon as one
    event is accounted (the default thresholds are zero); memory growth when
    the budget has a memory limit and the total exceeds it; unbounded tasks
    when the task count exceeds four times the limit, a product that wraps. *)
Theorem check_runaway_spec ops name :
  let kinds := check_runaway (run sched_step scheduler_new ops) name in
  let l := tasks_on_record ops name in
  let b := default budget_default (budget_on_record ops name) in
  InfiniteLoop ∉ kinds /\ SlowHandler ∉ kinds /\ NoDup kinds /\
  (EventFlood ∈ kinds <-> total_events l <> 0) /\
  (MemoryGrowth ∈ kinds <-> 0 < total_memory l /\ max_memory_bytes b <> 0 /\
     max_memory_bytes b < total_memory l) /\
  (UnboundedTasks ∈ kinds <-> max_tasks b <> 0 /\ wrap 64 (max_tasks b * 4) < total_tasks l).
Proof.
  intros kinds l b. destruct (run_on_record ops) as [Hd Hr]. destruct (Hr name) as (Hb & _ & Hs).
  unfold kinds, check_runaway. rewrite Hd, Hb, Hs. fold l b. unfold inspect.
  cbn [detector_default event_flood_threshold memory_growth_threshold slow_handler_ms
    total_stats st_events_sec st_memory_bytes st_exec_time_ms st_tasks_spawned].
  rewrite Z.ltb_irrefl. cbn [andb].
  assert (He : 0 <= total_events l) by (apply Z.mod_pos_bound; lia).
  split_and!.
  - rewrite !elem_of_push_if, elem_of_nil. naive_solver.
  - rewrite !elem_of_push_if, elem_of_nil. naive_solver.
  - repeat apply NoDup_push_if; [constructor|..]; rewrite ?elem_of_push_if, elem_of_nil; naive_solver.
  - rewrite !elem_of_push_if, elem_of_nil, Z.ltb_lt. naive_solver lia.
  - rewrite !elem_of_push_if, elem_of_nil, !andb_true_iff, negb_true_iff, !Z.ltb_lt, !Z.eqb_neq.
    naive_solver.
  - rewrite !elem_of_push_if, elem_of_nil, !andb_true_iff, !negb_true_iff, !Z.ltb_lt, !Z.eqb_neq.
    naive_solver.
Qed.
