(* ===== verification/StateBag.v ===== *)
(** Replicated state bags (crates/ald-state/src/lib.rs) and the CitizenFX scopes
    with owner-gated writes over them (crates/ald-statebag-compat/src/lib.rs).
    A change handler is an observer: it is represented by its subscription id,
    and what the code hands to handlers is the list of deliveries of a step. *)
From S2P Require Import Prelude RustStr.

(** ** Values *)
Definition MAX_KEY_LEN : Z := 64.
Definition MAX_BLOB_LEN : Z := 65536.
Definition MAX_CHILDREN : Z := 1024.
Definition MAX_DEPTH : Z := 16.

(** A [Float] is its bit pattern; the entries of a [Map] are in key order. *)
Inductive value :=
| Nil
| Bool (b : bool)
| Int (n : Z)
| Float (f : Z)
| Str (s : string)
| Bytes (b : list Z)
| Array (l : list value)
| Map (l : list (string * value)).

Inductive state_error :=
| BadKey (why : string) | TooLarge | TooManyChildren | TooDeep | NotOwner (writer : Z)
| NoSuchHandler.

Definition validate_key (key : string) : result unit state_error :=
  if is_empty key then Err (BadKey "key is empty")
  else if MAX_KEY_LEN <? str_len key then Err (BadKey "key too long")
  else if existsb (Z.eqb 0) (codes key) then Err (BadKey "key contains NUL")
  else Ok tt.

(** [Iterator::try_for_each]. *)
Section try_for_each.
Context {A E : Type} (f : A -> result unit E).
Fixpoint try_for_each (l : list A) : result unit E :=
  match l with [] => Ok tt | x :: l => let? _ := f x in try_for_each l end.
End try_for_each.

Fixpoint validate_at (v : value) (depth : Z) : result unit state_error :=
  if MAX_DEPTH <? depth then Err TooDeep
  else match v with
  | Str s => if MAX_BLOB_LEN <? str_len s then Err TooLarge else Ok tt
  | Bytes b => if MAX_BLOB_LEN <? Z.of_nat (length b) then Err TooLarge else Ok tt
  | Array items =>
      if MAX_CHILDREN <? Z.of_nat (length items) then Err TooManyChildren
      else try_for_each (fun v => validate_at v (depth + 1)) items
  | Map entries =>
      if MAX_CHILDREN <? Z.of_nat (length entries) then Err TooManyChildren
      else try_for_each (fun '(k, v) => let? _ := validate_key k in validate_at v (depth + 1)) entries
  | _ => Ok tt
  end.

Definition validate (v : value) : result unit state_error := validate_at v 0.

(** ** One bag *)
Inductive write_policy := Open | OwnerOnly.

Record change_event := ChangeEvent {
  ev_bag : string; ev_key : string; ev_old : option value; ev_new : option value; ev_seq : Z }.

Record state_bag := StateBag {
  id : string;
  policy : write_policy;
  owner : option Z;
  seq : Z;
  values : gmap string (value * bool);
  handlers : gmap Z (option string);
  next_handler : Z }.

Definition bag_new (id : string) (policy : write_policy) : state_bag :=
  StateBag id policy None 0 ∅ ∅ 0.

Definition set_owner (b : state_bag) (o : option Z) : state_bag :=
  StateBag (id b) (policy b) o (seq b) (values b) (handlers b) (next_handler b).

(** The bag with new values, one mutation later. *)
Definition mutated (b : state_bag) (vs : gmap string (value * bool)) : state_bag :=
  StateBag (id b) (policy b) (owner b) (wrap 64 (seq b + 1)) vs (handlers b) (next_handler b).

Definition check_write (b : state_bag) (writer : Z) : result unit state_error :=
  match policy b with
  | Open => Ok tt
  | OwnerOnly => if decide (owner b = Some writer) then Ok tt else Err (NotOwner writer)
  end.

(** Deliveries of one event: the matching handlers in id order. *)
Definition listens (key : string) (filter : option string) : bool :=
  match filter with Some k => bool_decide (k = key) | None => true end.

Definition deliveries := list (Z * change_event).

Definition dispatch (b : state_bag) (ev : change_event) : deliveries :=
  (fun h => (h.1, ev)) <$>
    sort_by fst (List.filter (fun h => listens (ev_key ev) h.2) (map_to_list (handlers b))).

Definition outcome (A : Type) := (state_bag * result A state_error * deliveries)%type.
Definition refuse {A} (b : state_bag) (e : state_error) : outcome A := (b, Err e, []).

Definition apply_value (b : state_bag) (key : string) (v : value) (replicated : bool) : outcome Z :=
  let old := fst <$> values b !! key in
  let b := mutated b (<[key := (v, replicated)]> (values b)) in
  (b, Ok (seq b), dispatch b (ChangeEvent (id b) key old (Some v) (seq b))).

Definition set (b : state_bag) (key : string) (v : value) (writer : Z) : outcome Z :=
  match check_write b writer with Err e => refuse b e | Ok _ =>
  match validate_key key with Err e => refuse b e | Ok _ =>
  match validate v with Err e => refuse b e | Ok _ =>
    apply_value b key v (default true (snd <$> values b !! key))
  end end end.

Definition set_replicated (b : state_bag) (key : string) (replicated : bool) (writer : Z) :
    outcome unit :=
  match check_write b writer with Err e => refuse b e | Ok _ =>
  match validate_key key with Err e => refuse b e | Ok _ =>
    match values b !! key with
    | Some (v, _) =>
        (StateBag (id b) (policy b) (owner b) (seq b) (<[key := (v, replicated)]> (values b))
           (handlers b) (next_handler b), Ok tt, [])
    | None => (mutated b (<[key := (Nil, replicated)]> (values b)), Ok tt, [])
    end
  end end.

Definition get (b : state_bag) (key : string) : option value := fst <$> values b !! key.

Definition delete_key (b : state_bag) (key : string) (writer : Z) : outcome bool :=
  match check_write b writer with Err e => refuse b e | Ok _ =>
  match validate_key key with Err e => refuse b e | Ok _ =>
    match values b !! key with
    | None => (b, Ok false, [])
    | Some _ =>
        let b := mutated b (delete key (values b)) in
        (b, Ok true, dispatch b (ChangeEvent (id b) key None None (seq b)))
    end
  end end.

(** In key order, as a [BTreeMap] iterates. *)
Definition snapshot_replicated (b : state_bag) : list (string * value) :=
  (fun e => (e.1, e.2.1)) <$>
    merge_sort (fun x y => String.le x.1 y.1)
      (List.filter (fun e => e.2.2) (map_to_list (values b))).

Definition on_change (b : state_bag) (key_filter : option string) : outcome Z :=
  match (match key_filter with Some k => validate_key k | None => Ok tt end) with
  | Err e => refuse b e
  | Ok _ =>
      let i := next_handler b in
      (StateBag (id b) (policy b) (owner b) (seq b) (values b) (<[i := key_filter]> (handlers b))
         (wrap 64 (i + 1)), Ok i, [])
  end.

Definition remove_handler (b : state_bag) (i : Z) : outcome unit :=
  match handlers b !! i with
  | None => refuse b NoSuchHandler
  | Some _ =>
      (StateBag (id b) (policy b) (owner b) (seq b) (values b) (delete i (handlers b))
         (next_handler b), Ok tt, [])
  end.

(** ** Values: properties *)
Definition key_ok (k : string) : Prop :=
  k <> ""%string /\ str_len k <= MAX_KEY_LEN /\ 0 ∉ codes k.

#[global] Instance key_ok_dec k : Decision (key_ok k).
Proof. unfold key_ok. apply _. Defined.

Lemma validate_key_ok k : validate_key k = Ok tt <-> key_ok k.
Proof.
  unfold validate_key, key_ok, is_empty.
  destruct (bool_decide _) eqn:E1; bool_prop; [naive_solver|].
  destruct (_ <? _) eqn:E2; bool_prop; [split; [done|lia]|].
  destruct (existsb _ _) eqn:E3.
  - apply existsb_elem in E3 as (x & Hx & E). apply Z.eqb_eq in E as <-. naive_solver.
  - split; [|done]. intros _. split_and!; [done|done|]. intros H0.
    assert (existsb (Z.eqb 0) (codes k) = true); [|congruence].
    apply existsb_elem. by exists 0.
Qed.

Fixpoint depth (v : value) : Z :=
  match v with
  | Array l => foldr (fun v acc => Z.max (1 + depth v) acc) 0 l
  | Map l => foldr (fun '(_, v) acc => Z.max (1 + depth v) acc) 0 l
  | _ => 0
  end.

Fixpoint sizes_ok (v : value) : bool :=
  match v with
  | Str s => str_len s <=? MAX_BLOB_LEN
  | Bytes b => Z.of_nat (length b) <=? MAX_BLOB_LEN
  | Array l => (Z.of_nat (length l) <=? MAX_CHILDREN) && forallb sizes_ok l
  | Map l => (Z.of_nat (length l) <=? MAX_CHILDREN) &&
      forallb (fun '(k, v) => bool_decide (key_ok k) && sizes_ok v) l
  | _ => true
  end.

Definition value_ok (v : value) : Prop := depth v <= MAX_DEPTH /\ sizes_ok v = true.

Section value_induction.
Context (P : value -> Prop).
Hypothesis (HNil : P Nil) (HBool : forall b, P (Bool b)) (HInt : forall n, P (Int n))
  (HFloat : forall f, P (Float f)) (HStr : forall s, P (Str s)) (HBytes : forall b, P (Bytes b))
  (HArray : forall l, Forall P l -> P (Array l))
  (HMap : forall l, Forall (fun e => P e.2) l -> P (Map l)).
Fixpoint value_ind' (v : value) : P v :=
  match v with
  | Nil => HNil | Bool b => HBool b | Int n => HInt n | Float f => HFloat f
  | Str s => HStr s | Bytes b => HBytes b
  | Array l => HArray l ((fix go l : Forall P l :=
      match l with [] => Forall_nil_2 _ | v :: l => Forall_cons_2 _ _ _ (value_ind' v) (go l) end) l)
  | Map l => HMap l ((fix go l : Forall (fun e => P e.2) l :=
      match l with
      | [] => Forall_nil_2 _
      | (k, v) :: l => Forall_cons_2 _ (k, v) _ (value_ind' v) (go l)
      end) l)
  end.
End value_induction.

Lemma try_for_each_ok {A E} (f : A -> result unit E) l :
  try_for_each f l = Ok tt <-> Forall (fun x => f x = Ok tt) l.
Proof.
  induction l as [|x l IH]; cbn; [by split; auto using Forall_nil_2|].
  rewrite rbind_ok, Forall_cons, <- IH. split; [by intros ([] & ? & ?)|]. intros [? ?]; by exists tt.
Qed.

Lemma max_depth_le {A} (f : A -> Z) l d :
  0 <= d -> foldr (fun x acc => Z.max (1 + f x) acc) 0 l <= d <-> Forall (fun x => 1 + f x <= d) l.
Proof.
  intros Hd. induction l as [|x l IH]; cbn; [split; auto using Forall_nil_2|].
  rewrite Forall_cons, <- IH. lia.
Qed.

Lemma validate_at_depth v d : validate_at v d = Ok tt -> d <= MAX_DEPTH.
Proof. destruct v; cbn; destruct (MAX_DEPTH <? d) eqn:E; bool_prop; done || lia. Qed.

Lemma depth_nonneg v : 0 <= depth v.
Proof.
  destruct v as [| | | | | |l|l]; cbn [depth]; try lia.
  - induction l; cbn; lia.
  - induction l as [|[k v] l IH]; cbn; lia.
Qed.

Lemma max_depth_map_le l d :
  0 <= d -> foldr (fun '(_, v) acc => Z.max (1 + depth v) acc) 0 l <= d <->
  Forall (fun e : string * value => 1 + depth e.2 <= d) l.
Proof.
  intros Hd. rewrite <- max_depth_le by done.
  replace (foldr (fun '(_, v) acc => Z.max (1 + depth v) acc) 0 l)
    with (foldr (fun (e : string * value) acc => Z.max (1 + depth e.2) acc) 0 l); [done|].
  induction l as [|[k v] l IH]; cbn; [done|]. by rewrite IH.
Qed.

Lemma forallb_Forall_true {A} (f : A -> bool) l : forallb f l = true <-> Forall (fun x => f x = true) l.
Proof. rewrite forallb_forall, Forall_forall. by setoid_rewrite list_elem_of_In. Qed.

Lemma validate_at_ok v : forall d,
  validate_at v d = Ok tt <-> sizes_ok v = true /\ d + depth v <= MAX_DEPTH.
Proof.
  induction v as [|b|n|f|s|b|l IH|l IH] using value_ind'; intros d;
    (destruct (MAX_DEPTH <? d) eqn:Ed;
     [split; [intros H%validate_at_depth; bool_prop; lia|
        intros [_ H]; match type of H with d + depth ?v <= _ => pose proof (depth_nonneg v) end;
        bool_prop; lia]|]);
    cbn [validate_at sizes_ok depth]; rewrite Ed; bool_prop.
  1-4: (split; [intros _; split; [done|lia]|done]).
  1-2: (destruct (MAX_BLOB_LEN <? _) eqn:E; bool_prop; rewrite Z.leb_le;
    (split; [try done; intros _; lia|try done; lia])).
  - destruct (MAX_CHILDREN <? _) eqn:E; bool_prop.
    { rewrite andb_true_iff, Z.leb_le. split; [done|lia]. }
    rewrite try_for_each_ok, andb_true_iff, Z.leb_le, forallb_Forall_true,
      Z.le_add_le_sub_l, max_depth_le by lia.
    rewrite !Forall_forall in *. split.
    + intros H. split; [split; [done|]|]; intros x Hx; by destruct (proj1 (IH x Hx _) (H x Hx)); try lia.
    + intros [[_ H1] H2] x Hx. apply IH; [done|]. specialize (H2 x Hx). split; [by apply H1|]. cbn in H2. lia.
  - destruct (MAX_CHILDREN <? _) eqn:E; bool_prop.
    { rewrite andb_true_iff, Z.leb_le. split; [done|lia]. }
    rewrite try_for_each_ok, andb_true_iff, Z.leb_le, forallb_Forall_true,
      Z.le_add_le_sub_l, max_depth_map_le by lia.
    rewrite !Forall_forall in *. split.
    + intros H. assert (Hx : forall e, e ∈ l -> key_ok e.1 /\ sizes_ok e.2 = true /\ d + 1 + depth e.2 <= MAX_DEPTH).
      { intros [k v] Hkv. specialize (H _ Hkv). cbn in H. apply rbind_ok in H as ([] & Hk & Hv).
        apply validate_key_ok in Hk. by apply (IH _ Hkv) in Hv. }
      split; [split; [done|]|]; intros [k v] Hkv; destruct (Hx _ Hkv) as (Hk & Hs & Hd); cbn in *; [|lia].
      rewrite Hs, andb_true_r. by apply bool_decide_eq_true.
    + intros [[_ H1] H2] [k v] Hkv. specialize (H1 _ Hkv). specialize (H2 _ Hkv). cbn in H1, H2. bool_prop.
      apply rbind_ok. exists tt. split; [by apply validate_key_ok|]. apply (IH _ Hkv). cbn. split; [done|lia].
Qed.

Lemma validate_ok v : validate v = Ok tt <-> value_ok v.
Proof. unfold validate, value_ok. rewrite validate_at_ok. split; intros [? ?]; split; done || lia. Qed.

(** ** Bags: properties *)
Inductive bag_op :=
| SetOwner (o : option Z)
| SetKey (key : string) (v : value) (writer : Z)
| SetReplicated (key : string) (replicated : bool) (writer : Z)
| DeleteKey (key : string) (writer : Z)
| OnChange (filter : option string)
| RemoveHandler (i : Z).

(** The bag after the call, whether it succeeded, and the deliveries. *)
Definition bag_call (b : state_bag) (o : bag_op) : state_bag * bool * deliveries :=
  match o with
  | SetOwner o => (set_owner b o, true, [])
  | SetKey k v w => let '(b, r, ds) := set b k v w in (b, is_ok r, ds)
  | SetReplicated k r w => let '(b, r, ds) := set_replicated b k r w in (b, is_ok r, ds)
  | DeleteKey k w => let '(b, r, ds) := delete_key b k w in (b, is_ok r, ds)
  | OnChange f => let '(b, r, ds) := on_change b f in (b, is_ok r, ds)
  | RemoveHandler i => let '(b, r, ds) := remove_handler b i in (b, is_ok r, ds)
  end.

Definition bag_step (st : state_bag * deliveries) (o : bag_op) : state_bag * deliveries :=
  let '(b, _, ds) := bag_call st.1 o in (b, st.2 ++ ds).

Definition writer_of (o : bag_op) : option (string * Z) :=
  match o with
  | SetKey k _ w | SetReplicated k _ w | DeleteKey k w => Some (k, w)
  | _ => None
  end.

Definition may_write (b : state_bag) (w : Z) : Prop := policy b = OwnerOnly -> owner b = Some w.

Lemma check_write_ok b w : check_write b w = Ok tt <-> may_write b w.
Proof. unfold check_write, may_write. destruct (policy b); [naive_solver|]. case_decide; naive_solver. Qed.

Lemma check_write_case b w :
  (check_write b w = Ok tt /\ may_write b w) \/ (check_write b w = Err (NotOwner w) /\ ~ may_write b w).
Proof.
  unfold check_write, may_write. destruct (policy b); [left; naive_solver|].
  case_decide; [left|right]; naive_solver.
Qed.

(** Every stored key and value passed validation. *)
Definition bag_ok (b : state_bag) : Prop :=
  map_Forall (fun k e => key_ok k /\ value_ok e.1) (values b).

Lemma validate_key_case k :
  (validate_key k = Ok tt /\ key_ok k) \/ (exists e, validate_key k = Err e) /\ ~ key_ok k.
Proof.
  destruct (validate_key k) as [[]|e] eqn:E; [left; split; [done|by apply validate_key_ok]|right].
  split; [by eexists|]. intros H%validate_key_ok. congruence.
Qed.

Lemma validate_case v :
  (validate v = Ok tt /\ value_ok v) \/ (exists e, validate v = Err e) /\ ~ value_ok v.
Proof.
  destruct (validate v) as [[]|e] eqn:E; [left; split; [done|by apply validate_ok]|right].
  split; [by eexists|]. intros H%validate_ok. congruence.
Qed.

(** What an operation does, by its success. *)
Definition allowed (b : state_bag) (o : bag_op) : Prop :=
  match o with
  | SetOwner _ => True
  | SetKey k v w => may_write b w /\ key_ok k /\ value_ok v
  | SetReplicated k _ w | DeleteKey k w => may_write b w /\ key_ok k
  | OnChange f => forall k, f = Some k -> key_ok k
  | RemoveHandler i => is_Some (handlers b !! i)
  end.

Definition new_values (b : state_bag) (o : bag_op) : gmap string (value * bool) :=
  match o with
  | SetKey k v _ => <[k := (v, default true (snd <$> values b !! k))]> (values b)
  | SetReplicated k r _ => <[k := (default Nil (get b k), r)]> (values b)
  | DeleteKey k _ => delete k (values b)
  | _ => values b
  end.

(** Whether the call counts as a mutation: any [set], a deletion of a present
    key, a replication flag on an absent one. *)
Definition mutates (b : state_bag) (o : bag_op) : bool :=
  match o with
  | SetKey _ _ _ => true
  | SetReplicated k _ _ => negb (bool_decide (is_Some (values b !! k)))
  | DeleteKey k _ => bool_decide (is_Some (values b !! k))
  | _ => false
  end.

Definition event_of (b : state_bag) (o : bag_op) : option change_event :=
  match o with
  | SetKey k v _ => Some (ChangeEvent (id b) k (get b k) (Some v) (wrap 64 (seq b + 1)))
  | DeleteKey k _ =>
      if decide (is_Some (values b !! k))
      then Some (ChangeEvent (id b) k None None (wrap 64 (seq b + 1))) else None
  | _ => None
  end.

Lemma bag_call_spec b o :
  let '(b', ok, ds) := bag_call b o in
  (ok = true <-> allowed b o) /\
  (ok = false -> b' = b /\ ds = []) /\
  (ok = true -> values b' = new_values b o /\
     seq b' = (if mutates b o then wrap 64 (seq b + 1) else seq b) /\
     ds = (match event_of b o with Some ev => dispatch b ev | None => [] end)) /\
  policy b' = policy b /\ id b' = id b /\
  owner b' = match o with SetOwner o => o | _ => owner b end.
Proof.
  destruct o as [o|k v w|k r w|k w|f|i]; cbn [bag_call allowed new_values mutates event_of].
  - split_and!; done.
  - unfold set, refuse. destruct (check_write_case b w) as [[-> Hw]|[-> Hw]]; [|cbn; split_and!; naive_solver].
    destruct (validate_key_case k) as [[-> Hk]|[[e ->] Hk]]; [|cbn; split_and!; naive_solver].
    destruct (validate_case v) as [[-> Hv]|[[e ->] Hv]]; [|cbn; split_and!; naive_solver].
    cbn. split_and!; naive_solver.
  - unfold set_replicated, refuse, get. destruct (check_write_case b w) as [[-> Hw]|[-> Hw]]; [|cbn; split_and!; naive_solver].
    destruct (validate_key_case k) as [[-> Hk]|[[e ->] Hk]]; [|cbn; split_and!; naive_solver].
    destruct (values b !! k) as [[u q]|] eqn:E; cbn; split_and!; naive_solver.
  - unfold delete_key, refuse. destruct (check_write_case b w) as [[-> Hw]|[-> Hw]]; [|cbn; split_and!; naive_solver].
    destruct (validate_key_case k) as [[-> Hk]|[[e ->] Hk]]; [|cbn; split_and!; naive_solver].
    destruct (values b !! k) as [[u q]|] eqn:E; cbn.
    + split_and!; try naive_solver.
    + split_and!; try naive_solver; intros _; [split_and!; [by rewrite delete_id|done|by case_decide as H; [destruct H|]]].
  - unfold on_change, refuse. destruct f as [k|].
    + destruct (validate_key_case k) as [[-> Hk]|[[e ->] Hk]]; cbn; split_and!; naive_solver.
    + cbn. split_and!; naive_solver.
  - unfold remove_handler, refuse. destruct (handlers b !! i) eqn:E; cbn; split_and!; naive_solver.
Qed.

Lemma snapshot_spec b :
  StronglySorted (fun x y => String.le x.1 y.1) (snapshot_replicated b) /\
  forall k v, (k, v) ∈ snapshot_replicated b <-> values b !! k = Some (v, true).
Proof.
  unfold snapshot_replicated.
  set (l := List.filter (fun e => e.2.2) (map_to_list (values b))).
  set (R := fun x y : string * (value * bool) => String.le x.1 y.1).
  split.
  - assert (Hs : StronglySorted R (merge_sort R l)).
    { apply Sorted_StronglySorted; [intros x y z; unfold R; apply transitivity|].
      apply Sorted_merge_sort. intros x y. unfold R. apply (total String.le). }
    induction Hs as [|x xs _ IH Hx]; cbn; constructor; [exact IH|].
    apply Forall_fmap. eapply Forall_impl; [exact Hx|done].
  - intros k v. rewrite list_elem_of_fmap. setoid_rewrite merge_sort_Permutation.
    unfold l. setoid_rewrite elem_of_filterb. split.
    + intros ([k' [v' r]] & [= -> ->] & Hin & Hr). cbn in Hr. subst r. by apply elem_of_map_to_list in Hin.
    + intros H. exists (k, (v, true)). split; [done|]. split; [by apply elem_of_map_to_list|done].
Qed.

Lemma dispatch_spec b ev :
  StronglySorted (fun x y => x.1 <= y.1) (dispatch b ev) /\
  forall i e, (i, e) ∈ dispatch b ev <->
    e = ev /\ exists f, handlers b !! i = Some f /\ listens (ev_key ev) f = true.
Proof.
  unfold dispatch. set (l := List.filter _ _). split.
  - pose proof (sort_by_sorted fst l) as Hs. induction Hs as [|x xs _ IH Hx]; cbn; constructor; [exact IH|].
    apply Forall_fmap. eapply Forall_impl; [exact Hx|done].
  - intros i e. rewrite list_elem_of_fmap. setoid_rewrite (sort_by_perm fst l).
    unfold l. setoid_rewrite elem_of_filterb. split.
    + intros ([j f] & [= -> ->] & Hin & Hf). apply elem_of_map_to_list in Hin. eauto.
    + intros (-> & f & Hf & Hl). exists (i, f). split; [done|]. split; [by apply elem_of_map_to_list|done].
Qed.

Lemma new_values_ok b o : bag_ok b -> allowed b o -> map_Forall (fun k e => key_ok k /\ value_ok e.1) (new_values b o).
Proof.
  intros Hb Ha. destruct o as [o|k v w|k r w|k w|f|i]; cbn in *; try exact Hb.
  - apply map_Forall_insert_2; [naive_solver|exact Hb].
  - apply map_Forall_insert_2; [|exact Hb]. split; [naive_solver|]. cbn. unfold get.
    destruct (values b !! k) as [[u q]|] eqn:E; [by apply (Hb _ _ E)|]. cbn. by unfold value_ok.
  - by apply map_Forall_delete.
Qed.

Lemma bag_call_ok b o b' ok ds : bag_call b o = (b', ok, ds) -> bag_ok b -> bag_ok b'.
Proof.
  intros E Hb. pose proof (bag_call_spec b o) as H. rewrite E in H.
  destruct H as (Ha & Hf & Ht & _). destruct ok; [|by destruct Hf as [-> _]].
  destruct Ht as (Hv & _); [done|]. unfold bag_ok. rewrite Hv. apply new_values_ok; [done|by apply Ha].
Qed.

Lemma bag_step_inv (I : state_bag -> Prop) :
  (forall b o b' ok ds, bag_call b o = (b', ok, ds) -> I b -> I b') ->
  forall ops st, I st.1 -> I (run bag_step st ops).1.
Proof.
  intros H ops st. apply (run_invariant bag_step (fun st => I st.1)). intros [b log] o Hb.
  unfold bag_step. cbn. destruct (bag_call b o) as [[b' ok] ds] eqn:E. by eapply H.
Qed.

(** In every reachable bag all keys and values are within the limits (key
    length, no NUL, sizes, breadth, nesting depth 16); an owner-only bag refuses
    every writer but its current owner, an unowned one everybody, with no effect;
    a call succeeds exactly when it is allowed, a refused call changes nothing,
    and a successful one has exactly its effect; the snapshot lists the
    replicated entries in key order. *)
Theorem state_bag_spec name pol ops :
  let b := (run bag_step (bag_new name pol, []) ops).1 in
  map_Forall (fun k e => key_ok k /\ value_ok e.1) (values b) /\
  (forall o k w, writer_of o = Some (k, w) -> pol = OwnerOnly -> owner b <> Some w ->
     bag_call b o = (b, false, [])) /\
  (forall o, let '(b', ok, ds) := bag_call b o in
     (ok = true <-> allowed b o) /\ (ok = false -> b' = b /\ ds = []) /\
     (ok = true -> values b' = new_values b o /\
        seq b' = (if mutates b o then wrap 64 (seq b + 1) else seq b) /\
        ds = (match event_of b o with Some ev => dispatch b ev | None => [] end))) /\
  StronglySorted (fun x y => String.le x.1 y.1) (snapshot_replicated b) /\
  (forall k v, (k, v) ∈ snapshot_replicated b <-> values b !! k = Some (v, true)).
Proof.
  intros b.
  assert (Hb : bag_ok b) by (apply bag_step_inv; [apply bag_call_ok|done]).
  assert (Hp : policy b = pol).
  { apply (bag_step_inv (fun b => policy b = pol)); [|done]. intros c o c' ok ds E <-.
    pose proof (bag_call_spec c o) as H. rewrite E in H. by apply H. }
  split; [exact Hb|]. split; [|split; [|apply snapshot_spec]].
  - intros o k w Hw Hown Hne. pose proof (bag_call_spec b o) as H.
    destruct (bag_call b o) as [[b' ok] ds]. destruct H as (Ha & Hf & _).
    destruct ok; [exfalso|by destruct Hf as [-> ->]].
    assert (may_write b w) as Hm by (destruct o; simplify_eq/=; by apply Ha).
    apply Hne, Hm. congruence.
  - intros o. pose proof (bag_call_spec b o) as H. destruct (bag_call b o) as [[b' ok] ds].
    destruct H as (Ha & Hf & Ht & _). done.
Qed.

(** ** Observers

    What a handler that keeps its own copy of the bag holds after a list of
    deliveries. *)
Definition mirror_step (m : gmap string value) (ev : change_event) : gmap string value :=
  match ev_new ev with Some v => <[ev_key ev := v]> m | None => delete (ev_key ev) m end.
Definition mirror (i : Z) (ds : deliveries) : gmap string value :=
  foldl mirror_step ∅ (snd <$> List.filter (fun d => d.1 =? i) ds).

Lemma dispatch_to b ev i f :
  handlers b !! i = Some f ->
  snd <$> List.filter (fun d => d.1 =? i) (dispatch b ev) =
  if listens (ev_key ev) f then [ev] else [].
Proof.
  intros Hi. destruct (dispatch_spec b ev) as [_ Hin].
  assert (Hnd : NoDup (fst <$> dispatch b ev)).
  { unfold dispatch. rewrite <- list_fmap_compose. cbn.
    rewrite (sort_by_perm fst). eapply sublist_NoDup; [|apply fmap_filterb_sublist].
    apply NoDup_fst_map_to_list. }
  revert Hin Hnd. generalize (dispatch b ev) as l. intros l Hin Hnd.
  assert (Hmem : existsb (fun d => d.1 =? i) l = listens (ev_key ev) f).
  { apply eq_iff_eq_true. rewrite existsb_elem. split.
    - intros ([j e] & Hj & Hji). cbn in Hji. apply Z.eqb_eq in Hji as ->. apply Hin in Hj as (_ & g & Hg & Hl). cbn in Hg. congruence.
    - intros Hl. exists (i, ev). split; [apply Hin; eauto|cbn; apply Z.eqb_refl]. }
  assert (Hev : forall e, (i, e) ∈ l -> e = ev) by (intros e He; by apply Hin in He as [-> _]).
  rewrite <- Hmem. clear Hin Hmem. induction l as [|[j e] l IH]; [done|].
  apply NoDup_cons in Hnd as [Hj Hnd]. cbn [List.filter existsb fst].
  specialize (IH Hnd ltac:(intros; apply Hev; by right)).
  destruct (j =? i) eqn:E; bool_prop; cbn [orb]; [|exact IH].
  subst j. rewrite fmap_cons. cbn [snd]. rewrite (Hev e) by by left. f_equal. rewrite IH.
  destruct (existsb _ l) eqn:Ex; [|done]. destruct Hj. apply existsb_elem in Ex as ([k e'] & Hk & Hki).
  cbn in Hki. apply Z.eqb_eq in Hki as ->.
  apply list_elem_of_fmap. by exists (i, e').
Qed.

Lemma handlers_step b o b' ok ds :
  bag_call b o = (b', ok, ds) -> o <> RemoveHandler 0 -> 1 <= next_handler b < 2 ^ 64 - 1 ->
  handlers b' !! 0 = handlers b !! 0 /\ 1 <= next_handler b' <= next_handler b + 1.
Proof.
  intros E Ho Hn. destruct o as [o|k v w|k r w|k w|f|i]; cbn in E.
  - simplify_eq. cbn. split; [done|lia].
  - unfold set, refuse, apply_value in E. repeat case_match; simplify_eq; cbn; split; done || lia.
  - unfold set_replicated, refuse in E. repeat case_match; simplify_eq; cbn; split; done || lia.
  - unfold delete_key, refuse in E. repeat case_match; simplify_eq; cbn; split; done || lia.
  - assert (Hw : wrap 64 (next_handler b + 1) = next_handler b + 1) by (apply wrap_small; unfold fits; lia).
    unfold on_change, refuse in E. destruct (match f with Some k => validate_key k | None => Ok tt end);
      simplify_eq; cbn; [|split; done || lia].
    rewrite Hw, lookup_insert_ne by lia. split; [done|lia].
  - unfold remove_handler, refuse in E. destruct (handlers b !! i); simplify_eq; cbn; [|split; done || lia].
    rewrite lookup_delete_ne by congruence. split; [done|lia].
Qed.

Lemma mirror_app i ds1 ds2 :
  mirror i (ds1 ++ ds2) =
  foldl mirror_step (mirror i ds1) (snd <$> List.filter (fun d => d.1 =? i) ds2).
Proof. unfold mirror. by rewrite List.filter_app, fmap_app, foldl_app. Qed.

Definition heard (ds : deliveries) : list Z := ev_seq <$> (snd <$> List.filter (fun d => d.1 =? 0) ds).

Record observing (f : option string) (n : Z) (st : state_bag * deliveries) : Prop := {
  obs_handler : handlers st.1 !! 0 = Some f;
  obs_next : 1 <= next_handler st.1 <= n;
  obs_seq : 0 <= seq st.1 <= n;
  obs_mirror : forall k, if listens k f
    then mirror 0 st.2 !! k = get st.1 k \/ (mirror 0 st.2 !! k = None /\ get st.1 k = Some Nil)
    else mirror 0 st.2 !! k = None;
  obs_heard : StronglySorted Z.lt (heard st.2) /\ Forall (fun s => s <= seq st.1) (heard st.2) }.

(** The effect of one event, or of its absence, on a mirrored key. *)
Lemma mirror_event b o ev m k :
  event_of b o = Some ev ->
  mirror_step m ev !! k = (if decide (k = ev_key ev) then fst <$> new_values b o !! k else m !! k) /\
  (k <> ev_key ev -> new_values b o !! k = values b !! k).
Proof.
  intros E. destruct o as [o|k' v w|k' r w|k' w|f|i]; cbn in E; try done.
  - injection E as <-. unfold mirror_step; cbn. split; [|intros; by rewrite lookup_insert_ne].
    case_decide; subst; [by rewrite !lookup_insert_eq|by rewrite lookup_insert_ne].
  - case_decide; [|done]. injection E as <-. unfold mirror_step; cbn.
    split; [|intros; by rewrite lookup_delete_ne].
    case_decide; subst; [by rewrite !lookup_delete_eq|by rewrite lookup_delete_ne].
Qed.

Lemma no_event b o k :
  event_of b o = None ->
  new_values b o !! k = values b !! k \/
  (fst <$> new_values b o !! k = get b k) \/
  (values b !! k = None /\ fst <$> new_values b o !! k = Some Nil).
Proof.
  intros E. destruct o as [o|k' v w|k' r w|k' w|f|i]; cbn in *; auto; try done.
  - destruct (decide (k = k')) as [->|]; [|left; by rewrite lookup_insert_ne]. right.
    rewrite lookup_insert_eq. cbn. unfold get. destruct (values b !! k') as [[u q]|] eqn:Ek; cbn; auto.
  - case_decide as Hc; [done|]. left. rewrite delete_id; [done|]. by apply eq_None_not_Some.
Qed.

Lemma event_mutates b o ev : event_of b o = Some ev -> mutates b o = true /\ ev_seq ev = wrap 64 (seq b + 1).
Proof.
  destruct o; cbn; try done; [by intros [= <-]|]. case_decide as H; [|done]. intros [= <-].
  split; [by apply bool_decide_eq_true|done].
Qed.

Lemma observing_step f n st o :
  observing f n st -> n < 2 ^ 64 - 1 -> o <> RemoveHandler 0 -> observing f (n + 1) (bag_step st o).
Proof.
  destruct st as [b log]. intros [Hh Hn Hs Hm [Hso Hle]] Hlt Ho. unfold bag_step. cbn [fst snd] in *.
  destruct (bag_call b o) as [[b' ok] ds] eqn:E.
  destruct (handlers_step _ _ _ _ _ E Ho ltac:(lia)) as [Hh' Hn'].
  pose proof (bag_call_spec b o) as Hc. rewrite E in Hc. destruct Hc as (_ & Hf & Ht & _).
  assert (Hw : wrap 64 (seq b + 1) = seq b + 1) by (apply wrap_small; unfold fits; lia).
  destruct ok.
  2:{ destruct Hf as [-> ->]; [done|]. rewrite app_nil_r.
      split; cbn [fst snd]; [done|lia|lia|done|done]. }
  destruct Ht as (Hv & Hsq & Hds); [done|]. rewrite Hw in Hsq.
  assert (Hg : forall k, get b' k = fst <$> new_values b o !! k) by (intros k; unfold get; by rewrite Hv).
  split; cbn [fst snd]; [by rewrite Hh'|lia|destruct (mutates b o); lia| |].
  - intros k. rewrite mirror_app, Hds. specialize (Hm k). rewrite Hg.
    destruct (event_of b o) as [ev|] eqn:Eev.
    + rewrite (dispatch_to b ev 0 f Hh). destruct (mirror_event b o ev (mirror 0 log) k Eev) as [Hst Hne].
      destruct (listens (ev_key ev) f) eqn:El; cbn [foldl].
      * rewrite Hst. case_decide as Hk; [subst; rewrite El; by left|].
        rewrite (Hne Hk). exact Hm.
      * destruct (listens k f) eqn:Elk; [|exact Hm].
        destruct (decide (k = ev_key ev)) as [->|Hk]; [congruence|]. rewrite (Hne Hk). exact Hm.
    + cbn. destruct (listens k f); [|exact Hm].
      destruct (no_event b o k Eev) as [->|[->|[Hnone ->]]]; [exact Hm|exact Hm|].
      right. split; [|done]. unfold get in Hm. rewrite Hnone in Hm. naive_solver.
  - unfold heard. rewrite List.filter_app, !fmap_app. fold (heard log). rewrite Hds.
    destruct (event_of b o) as [ev|] eqn:Eev.
    + rewrite (dispatch_to b ev 0 f Hh). apply event_mutates in Eev as [Hmu Hseq].
      rewrite Hmu in Hsq. rewrite Hw in Hseq.
      assert (Hle' : Forall (fun s => s <= seq b') (heard log))
        by (eapply Forall_impl; [exact Hle|]; cbn; intros; lia).
      destruct (listens (ev_key ev) f); cbn [fmap list_fmap]; [|by rewrite app_nil_r].
      split; [|apply Forall_app; split; [done|apply Forall_singleton; lia]].
      clear -Hso Hle Hseq Hsq. induction Hso as [|x l Hso IH Hx]; cbn; [repeat constructor|].
      apply Forall_cons in Hle as [H1 H2]. constructor; [by apply IH|].
      apply Forall_app. split; [done|apply Forall_singleton; lia].
    + cbn. rewrite app_nil_r. split; [done|]. eapply Forall_impl; [exact Hle|]. cbn.
      intros s ?. destruct (mutates b o); lia.
Qed.

(** C9: a handler subscribed before anything is written, with or without a key
    filter, and never removed can rebuild the bag from its deliveries: for every
    key it listens to its mirror holds the value of the bag, except keys that
    only [set_replicated] created, which hold [Nil] unannounced; it hears nothing
    of other keys, and the sequence numbers it sees strictly increase. *)
Theorem observer_mirror name pol f ops :
  match f with Some k => key_ok k | None => True end ->
  Forall (fun o => o <> RemoveHandler 0) ops -> Z.of_nat (length ops) < 2 ^ 64 - 2 ->
  let st := run bag_step (bag_new name pol, []) (OnChange f :: ops) in
  (forall k, listens k f = true ->
     mirror 0 st.2 !! k = get st.1 k \/ (mirror 0 st.2 !! k = None /\ get st.1 k = Some Nil)) /\
  (forall k, listens k f = false -> mirror 0 st.2 !! k = None) /\
  StronglySorted Z.lt (heard st.2).
Proof.
  intros Hf Hops Hlen st.
  assert (Hobs : observing f (1 + Z.of_nat (length ops)) st).
  { assert (Hstart : observing f 1 (bag_step (bag_new name pol, []) (OnChange f))).
    { assert (bag_step (bag_new name pol, []) (OnChange f) =
        (StateBag name pol None 0 ∅ {[0 := f]} 1, [])) as ->.
      { unfold bag_step; cbn. unfold on_change. destruct f as [k|]; [|done].
        apply validate_key_ok in Hf. by rewrite Hf. }
      split; cbn; [apply lookup_singleton_eq|lia|lia| |split; constructor].
      intros k. unfold mirror, get; cbn. destruct (listens k f); [left|]; by rewrite !lookup_empty. }
    unfold st. change (run bag_step (bag_new name pol, []) (OnChange f :: ops)) with
      (run bag_step (bag_step (bag_new name pol, []) (OnChange f)) ops).
    revert Hstart. generalize (bag_step (bag_new name pol, []) (OnChange f)). clear st Hf.
    intros st0 H0. induction ops as [|o ops IH] using rev_ind; [exact H0|].
    rewrite run_app. cbn. apply Forall_app in Hops as [Hops [Ho _]%Forall_cons].
    rewrite length_app in *. cbn [length] in *.
    replace (1 + Z.of_nat (length ops + 1)) with (1 + Z.of_nat (length ops) + 1) by lia.
    apply observing_step; [apply IH; [done|lia]|lia|done]. }
  destruct Hobs as [_ _ _ Hm [Hs _]]. split_and!; [| |exact Hs].
  - intros k Hk. specialize (Hm k). by rewrite Hk in Hm.
  - intros k Hk. specialize (Hm k). by rewrite Hk in Hm.
Qed.

Lemma observer_mirror_witness :
  let ops := [SetKey "hp" (Int 1) 7; SetReplicated "scratch" false 7; SetKey "hp" (Int 2) 7] in
  let st := run bag_step (bag_new "global" Open, []) (OnChange None :: ops) in
  mirror 0 st.2 !! "hp"%string = Some (Int 2) /\ StronglySorted Z.lt (heard st.2).
Proof.
  intros ops st. split; [reflexivity|].
  destruct (observer_mirror "global" Open None ops) as (_ & _ & Hs);
    [exact I|repeat constructor; discriminate|cbn; lia|exact Hs].
Defined.

(** A deletion is delivered without the value it removed. *)
Lemma delete_event_has_no_old b k w ev : event_of b (DeleteKey k w) = Some ev -> ev_old ev = None.
Proof. cbn. case_decide; [|done]. by intros [= <-]. Qed.

(** A replication flag on an absent key creates it, bumps the sequence and tells
    nobody. *)
Lemma flag_creates_silently b k r w :
  may_write b w -> key_ok k -> values b !! k = None ->
  let '(b', ok, ds) := bag_call b (SetReplicated k r w) in
  ok = true /\ ds = [] /\ get b' k = Some Nil /\ seq b' = wrap 64 (seq b + 1).
Proof.
  intros Hw Hk Hn. pose proof (bag_call_spec b (SetReplicated k r w)) as H.
  destruct (bag_call b (SetReplicated k r w)) as [[b' ok] ds]. destruct H as (Ha & _ & Ht & _).
  assert (Hok : ok = true) by by apply Ha. destruct (Ht Hok) as (Hv & Hs & Hd).
  split_and!; [done|exact Hd| |].
  - unfold get. rewrite Hv. cbn. rewrite lookup_insert_eq. unfold get. by rewrite Hn.
  - rewrite Hs. cbn. rewrite bool_decide_eq_false_2; [done|]. rewrite Hn. by intros [].
Qed.

(** ** CitizenFX scopes *)
Definition MAX_STATE_KEY_LEN : Z := 128.

Inductive bag_scope := Global | Entity (id : Z) | Player (id : Z) | Local.

#[global] Instance bag_scope_eq_dec : EqDecision bag_scope.
Proof. solve_decision. Defined.

Inductive scope_error := BadName (name : string) | BadScopeKey (why : string) | State (e : state_error).

Definition bag_id (s : bag_scope) : string :=
  match s with
  | Global => "global"
  | Entity id => of_codes (codes "entity:" ++ decimal id)
  | Player id => of_codes (codes "player:" ++ decimal id)
  | Local => "localplayer"
  end.

Definition scope_parse (s : string) : result bag_scope scope_error :=
  let t := codes (trim s) in
  let lower := to_lower t in
  if bool_decide (lower = codes "global") then Ok Global
  else if bool_decide (lower = codes "localplayer") then Ok Local
  else
    let? '(kind, num) := ok_or (split_once 58 t) (BadName s) in
    if starts_with [43] num || starts_with [45] num || bool_decide (num = []) then Err (BadName s)
    else
      let? id := ok_or (parse_digits 0 num) (BadName s) in
      let kind := to_lower kind in
      if bool_decide (kind = codes "entity") then Ok (Entity id)
      else if bool_decide (kind = codes "player") then Ok (Player id)
      else Err (BadName s).

Definition validate_state_key (key : string) : result unit scope_error :=
  if is_empty key then Err (BadScopeKey "key is empty")
  else if MAX_STATE_KEY_LEN <? str_len key then Err (BadScopeKey "key too long")
  else if existsb (Z.eqb 0) (codes key) then Err (BadScopeKey "key contains NUL")
  else if MAX_KEY_LEN <? str_len key then Err (BadScopeKey "key too long")
  else Ok tt.

(** ** Owner-gated bags *)
Record strict_bags := StrictBags { registry : gmap string state_bag; owners : gmap string Z }.

Definition strict_new : strict_bags := StrictBags ∅ ∅.

Definition create (s : strict_bags) (scope : bag_scope) (owner : Z) :
    strict_bags * result unit scope_error :=
  let id := bag_id scope in
  match owners s !! id with
  | Some existing =>
      if negb (existing =? owner)
      then (s, Err (BadScopeKey (String.append "bag " (String.append id " already owned"))))
      else (s, Ok tt)
  | None =>
      let bag := set_owner (default (bag_new id OwnerOnly) (registry s !! id)) (Some owner) in
      (StrictBags (<[id := bag]> (registry s)) (<[id := owner]> (owners s)), Ok tt)
  end.

Definition transfer (s : strict_bags) (scope : bag_scope) (from to : Z) :
    strict_bags * result unit scope_error :=
  let id := bag_id scope in
  if decide (owners s !! id = Some from) then
    (StrictBags (alter (fun b => set_owner b (Some to)) id (registry s)) (<[id := to]> (owners s)), Ok tt)
  else (s, Err (State (NotOwner from))).

Definition strict_set (s : strict_bags) (scope : bag_scope) (key : string) (v : value) (writer : Z) :
    strict_bags * result Z scope_error :=
  match validate_state_key key with
  | Err e => (s, Err e)
  | Ok _ =>
      let id := bag_id scope in
      match registry s !! id with
      | None => (s, Err (BadName id))
      | Some b =>
          match set b key v writer with
          | (b', Ok n, _) => (StrictBags (<[id := b']> (registry s)) (owners s), Ok n)
          | (b', Err e, _) => (StrictBags (<[id := b']> (registry s)) (owners s), Err (State e))
          end
      end
  end.

Definition strict_get (s : strict_bags) (scope : bag_scope) (key : string) : option value :=
  match registry s !! bag_id scope with Some b => get b key | None => None end.

Definition owner_of (s : strict_bags) (scope : bag_scope) : option Z := owners s !! bag_id scope.

(** ** Scopes: properties *)
Definition scope_ok (s : bag_scope) : Prop :=
  match s with Entity id | Player id => fits 32 id | _ => True end.

Lemma digits_spec fuel : forall n acc, 0 <= n < 10 ^ Z.of_nat (S fuel) -> n <= u32_max ->
  exists ds d, digits (S fuel) n acc = (ds ++ [d]) ++ acc /\ Forall (fun c => 48 <= c <= 57) (ds ++ [d]) /\
    forall l, parse_digits 0 ((ds ++ [d]) ++ l) = parse_digits n l.
Proof.
  induction fuel as [|fuel IH]; intros n acc Hn Hmax;
    rewrite Nat2Z.inj_succ, Z.pow_succ_r in Hn by lia.
  all: assert (Hm : 0 <= n mod 10 < 10) by (apply Z.mod_pos_bound; lia).
  all: pose proof (Z.div_mod n 10 ltac:(lia)) as Hdm.
  all: assert (Hone : n < 10 -> exists ds d, (48 + n mod 10) :: acc = (ds ++ [d]) ++ acc /\
    Forall (fun c => 48 <= c <= 57) (ds ++ [d]) /\
    forall l, parse_digits 0 ((ds ++ [d]) ++ l) = parse_digits n l).
  1,3: intros Hlt; exists [], (48 + n mod 10); rewrite Z.mod_small by lia; (split; [done|]);
    (split; [repeat constructor; lia|]); intros l; cbn [app parse_digits];
    rewrite !(proj2 (Z.leb_le _ _)) by lia; cbn [andb]; f_equal; lia.
  - cbn in Hn. cbn [digits]. rewrite (proj2 (Z.ltb_lt _ _)) by lia. apply Hone. lia.
  - cbn [digits]. destruct (n <? 10) eqn:E; bool_prop; [by apply Hone|]. cbn [digits] in IH.
    assert (Hd : 0 <= n / 10 < 10 ^ Z.of_nat (S fuel))
      by (split; [apply Z.div_pos; lia|apply Z.div_lt_upper_bound; lia]).
    destruct (IH (n / 10) ((48 + n mod 10) :: acc) Hd ltac:(lia)) as (ds & d & -> & Hds & Hp).
    exists (ds ++ [d]), (48 + n mod 10). split; [by rewrite <- !app_assoc|]. split.
    + apply Forall_app. split; [done|repeat constructor; lia].
    + intros l. rewrite <- (app_assoc _ [_] l), Hp. cbn [app parse_digits].
      rewrite !(proj2 (Z.leb_le _ _)) by lia. cbn [andb]. f_equal. lia.
Qed.

Lemma decimal_spec n : fits 32 n ->
  exists ds d, decimal n = ds ++ [d] /\ Forall (fun c => 48 <= c <= 57) (ds ++ [d]) /\
    parse_digits 0 (decimal n) = Some n.
Proof.
  unfold fits. intros Hn. destruct (digits_spec 9 n []) as (ds & d & E & Hds & Hp);
    [change (10 ^ Z.of_nat 10) with 10000000000; lia|unfold u32_max; lia|].
  unfold decimal. rewrite E, app_nil_r. exists ds, d. split_and!; [done..|].
  specialize (Hp []). by rewrite app_nil_r in Hp.
Qed.

Lemma ws_last_digit d l : 48 <= d <= 57 -> ws_last (d :: l) = None.
Proof.
  intros Hd. apply strip_one_head.
  apply (Forall_impl (fun w => match w with [] => False | c :: _ => (c <? 48) || (57 <? c) = true end));
    [by repeat constructor|].
  intros [|c w]; [done|]. rewrite orb_true_iff, !Z.ltb_lt. lia.
Qed.

Lemma trim_end_digit l d : 48 <= d <= 57 -> trim_end_codes (l ++ [d]) = l ++ [d].
Proof.
  intros Hd. unfold trim_end_codes. rewrite rev_app_distr. cbn [rev app].
  rewrite length_app. cbn [length]. rewrite Nat.add_1_r. cbn [strip].
  rewrite ws_last_digit by done. change (rev (d :: rev l)) with (rev (rev l) ++ [d]).
  by rewrite rev_involutive.
Qed.

Lemma digits_first ds d :
  Forall (fun c => 48 <= c <= 57) (ds ++ [d]) -> exists c l, ds ++ [d] = c :: l /\ 48 <= c <= 57.
Proof.
  destruct ds as [|c ds]; cbn; intros H; apply Forall_cons in H as [Hc _]; eauto.
Qed.

Lemma scope_parse_id (mk : Z -> bag_scope) (kind : string) (n : Z) :
  (mk = Entity /\ kind = "entity"%string \/ mk = Player /\ kind = "player"%string) -> fits 32 n ->
  scope_parse (of_codes (codes kind ++ 58 :: decimal n)) = Ok (mk n).
Proof.
  intros Hk Hn. destruct (decimal_spec n Hn) as (ds & d & E & Hds & Hp).
  pose proof Hds as [Hds1 [Hd _]%Forall_cons]%Forall_app.
  destruct (digits_first ds d Hds) as (c & l & Ec & Hc).
  set (s := of_codes _).
  assert (Ht : codes (trim s) = codes kind ++ 58 :: decimal n).
  { rewrite codes_trim. unfold s. rewrite codes_of_codes.
    2:{ rewrite E. apply Forall_app. split; [apply Forall_forall; intros b Hb; by eapply codes_range|].
        constructor; [unfold fits; lia|]. eapply Forall_impl; [exact Hds|]. unfold fits; cbn; intros; lia. }
    assert (Hst : trim_start_codes (codes kind ++ 58 :: decimal n) = codes kind ++ 58 :: decimal n)
      by (destruct Hk as [[_ ->]|[_ ->]]; reflexivity).
    rewrite Hst, E. change (58 :: ds ++ [d]) with ((58 :: ds) ++ [d]). rewrite app_assoc.
    by apply trim_end_digit. }
  unfold scope_parse. rewrite Ht.
  rewrite bool_decide_eq_false_2 by (destruct Hk as [[_ ->]|[_ ->]]; cbn; discriminate).
  rewrite bool_decide_eq_false_2 by (destruct Hk as [[_ ->]|[_ ->]]; cbn; discriminate).
  assert (Hsp : split_once 58 (codes kind ++ 58 :: decimal n) = Some (codes kind, decimal n))
    by (destruct Hk as [[_ ->]|[_ ->]]; reflexivity).
  rewrite Hsp. cbn [ok_or rbind]. rewrite Hp. rewrite E, Ec. unfold starts_with. cbn [length take].
  rewrite !bool_decide_eq_false_2 by (intros [=]; lia). cbn [orb ok_or rbind].
  by destruct Hk as [[-> ->]|[-> ->]].
Qed.

Lemma scope_roundtrip s : scope_ok s -> scope_parse (bag_id s) = Ok s.
Proof.
  destruct s as [|n|n|]; [reflexivity| | |reflexivity]; intros Hn.
  - apply (scope_parse_id Entity "entity"); auto.
  - apply (scope_parse_id Player "player"); auto.
Qed.

Lemma bag_id_inj s t : scope_ok s -> scope_ok t -> bag_id s = bag_id t -> s = t.
Proof. intros Hs%scope_roundtrip Ht%scope_roundtrip E. congruence. Qed.

(** ** Owner-gated bags: properties *)
Inductive strict_op :=
| Create (scope : bag_scope) (owner : Z)
| Transfer (scope : bag_scope) (from to : Z)
| SetIn (scope : bag_scope) (key : string) (v : value) (writer : Z).

Definition strict_step (s : strict_bags) (o : strict_op) : strict_bags :=
  match o with
  | Create sc o => (create s sc o).1
  | Transfer sc f t => (transfer s sc f t).1
  | SetIn sc k v w => (strict_set s sc k v w).1
  end.

Definition gated (o : Z) (b : state_bag) : Prop := policy b = OwnerOnly /\ owner b = Some o.

(** The recorded owner of a scope is the one its bag enforces. *)
Definition owners_agree (s : strict_bags) : Prop :=
  forall i, match registry s !! i, owners s !! i with
  | Some b, Some o => gated o b
  | None, None => True
  | _, _ => False
  end.

Lemma owners_agree_get s i o :
  owners_agree s -> owners s !! i = Some o -> exists b, registry s !! i = Some b /\ gated o b.
Proof.
  intros H Ho. specialize (H i). rewrite Ho in H. destruct (registry s !! i) as [b|]; [by exists b|done].
Qed.

Lemma validate_state_key_ok k : is_ok (validate_state_key k) = true <-> key_ok k.
Proof.
  rewrite <- validate_key_ok. unfold validate_state_key, validate_key, MAX_STATE_KEY_LEN, MAX_KEY_LEN.
  destruct (is_empty k); [done|]. destruct (128 <? str_len k) eqn:E1, (64 <? str_len k) eqn:E2;
    bool_prop; try lia; destruct (existsb (Z.eqb 0) (codes k)); done.
Qed.

(** A write through the gate: its success, and everything it may change. *)
Lemma strict_set_spec s sc k v w :
  owners_agree s ->
  let '(s', r) := strict_set s sc k v w in
  (is_ok r = true <-> owner_of s sc = Some w /\ key_ok k /\ value_ok v) /\
  owners s' = owners s /\ owners_agree s' /\
  (is_ok r = false -> registry s' = registry s) /\
  (is_ok r = true -> forall i, registry s' !! i =
     if decide (i = bag_id sc) then
       (fun b => mutated b (<[k := (v, default true (snd <$> values b !! k))]> (values b))) <$>
         registry s !! i
     else registry s !! i).
Proof.
  intros Hag. unfold strict_set, owner_of.
  destruct (validate_state_key k) as [[]|e] eqn:Ek.
  2:{ split; [|done]. cbn. split; [done|]. rewrite <- validate_state_key_ok, Ek. naive_solver. }
  assert (Hk : key_ok k) by (apply validate_state_key_ok; by rewrite Ek).
  pose proof (Hag (bag_id sc)) as Hi. destruct (registry s !! bag_id sc) as [b|] eqn:Eb.
  2:{ destruct (owners s !! bag_id sc); [done|]. split; [cbn; naive_solver|done]. }
  destruct (owners s !! bag_id sc) as [o|] eqn:Eo; [|done]. destruct Hi as [Hp Ho].
  pose proof (bag_call_spec b (SetKey k v w)) as Hc. cbn [bag_call allowed] in Hc.
  destruct (set b k v w) as [[b' r] ds] eqn:Es. destruct Hc as (Ha & Hf & Ht & Hp' & _ & Ho').
  assert (Hm : may_write b w <-> Some o = Some w).
  { unfold may_write. rewrite Hp, Ho. naive_solver. }
  assert (Hag' : owners_agree (StrictBags (<[bag_id sc := b']> (registry s)) (owners s))).
  { intros i. cbn. destruct (decide (i = bag_id sc)) as [->|Hne].
    - rewrite lookup_insert_eq, Eo. split; congruence.
    - rewrite lookup_insert_ne by congruence. apply Hag. }
  destruct r as [n|e]; cbn [is_ok] in *.
  - split; [by rewrite <- Hm|]. split; [done|]. split; [done|]. split; [done|].
    intros _ i. cbn [registry]. case_decide as Hd.
    + subst i. rewrite lookup_insert_eq, Eb. cbn. f_equal.
      destruct (proj1 Ha eq_refl) as (Hw & _ & Hv). apply check_write_ok in Hw.
      apply validate_key_ok in Hk. apply validate_ok in Hv.
      unfold set, apply_value in Es. rewrite Hw, Hk, Hv in Es. by injection Es as <- _ _.
    + by rewrite lookup_insert_ne by congruence.
  - split; [by rewrite <- Hm|]. split; [done|]. split; [done|]. split; [|done].
    intros _. cbn. destruct Hf as [-> _]; [done|]. by apply insert_id.
Qed.

Lemma create_owners_agree s sc o : owners_agree s -> owners_agree (create s sc o).1.
Proof.
  intros Hag. unfold create. pose proof (Hag (bag_id sc)) as Hi.
  destruct (owners s !! bag_id sc) as [e|] eqn:Eo; [by destruct (negb _)|].
  destruct (registry s !! bag_id sc); [done|]. cbn. intros i. cbn.
  destruct (decide (i = bag_id sc)) as [->|Hne]; [by rewrite !lookup_insert_eq|].
  rewrite !lookup_insert_ne by congruence. apply Hag.
Qed.

Lemma transfer_owners_agree s sc f t : owners_agree s -> owners_agree (transfer s sc f t).1.
Proof.
  intros Hag. unfold transfer. case_decide as Ho; [|done]. cbn. intros i. cbn.
  destruct (owners_agree_get _ _ _ Hag Ho) as (b & Hb & [Hp _]).
  destruct (decide (i = bag_id sc)) as [->|Hne].
  - by rewrite lookup_alter_eq, lookup_insert_eq, Hb.
  - rewrite lookup_alter_ne, lookup_insert_ne by congruence. apply Hag.
Qed.

Lemma strict_run_agree ops : owners_agree (run strict_step strict_new ops).
Proof.
  apply (run_invariant strict_step owners_agree).
  - intros s [sc o|sc f t|sc k v w] Hs; cbn; [by apply create_owners_agree|by apply transfer_owners_agree|].
    pose proof (strict_set_spec s sc k v w Hs) as H. by destruct (strict_set s sc k v w) as [s' r]; apply H.
  - intros i. cbn. by rewrite !lookup_empty.
Qed.

(** Scope names parse back to their scope, so distinct scopes have distinct
    bags; and in every reachable table a write succeeds exactly for the scope's
    current owner with an acceptable key and value, is then read back, and no
    operation changes what any other scope or key holds; a refused write changes
    no value; an owner is set by the first [create] and changed only by a
    [transfer] that names it. *)
Theorem strict_bags_spec ops sc :
  scope_ok sc ->
  let s := run strict_step strict_new ops in
  scope_parse (bag_id sc) = Ok sc /\
  (forall sc', scope_ok sc' -> bag_id sc' = bag_id sc -> sc' = sc) /\
  (forall k v w, let '(s', r) := strict_set s sc k v w in
     (is_ok r = true <-> owner_of s sc = Some w /\ key_ok k /\ value_ok v) /\
     forall sc' k', scope_ok sc' ->
       owner_of s' sc' = owner_of s sc' /\
       strict_get s' sc' k' =
         if decide (is_ok r = true /\ sc' = sc /\ k' = k) then Some v else strict_get s sc' k') /\
  (forall o sc', scope_ok sc' -> owner_of (create s sc o).1 sc' =
     if decide (sc' = sc /\ owner_of s sc = None) then Some o else owner_of s sc') /\
  (forall f t sc', scope_ok sc' -> owner_of (transfer s sc f t).1 sc' =
     if decide (sc' = sc /\ owner_of s sc = Some f) then Some t else owner_of s sc').
Proof.
  intros Hsc s. pose proof (strict_run_agree ops) as Hag. fold s in Hag.
  split; [by apply scope_roundtrip|]. split; [intros; by apply bag_id_inj|]. split; [|split].
  - intros k v w. pose proof (strict_set_spec s sc k v w Hag) as H.
    destruct (strict_set s sc k v w) as [s' r]. destruct H as (Hok & Hown & _ & Hf & Ht).
    split; [exact Hok|]. intros sc' k' Hsc'. unfold owner_of, strict_get. rewrite Hown. split; [done|].
    destruct (is_ok r) eqn:Er.
    + rewrite (Ht eq_refl). destruct (decide (bag_id sc' = bag_id sc)) as [Hid|Hid].
      * assert (sc' = sc) as -> by by apply bag_id_inj.
        destruct (proj1 Hok eq_refl) as (Ho & _). destruct (owners_agree_get _ _ _ Hag Ho) as (b & Hb & _).
        rewrite Hb. cbn. unfold get; cbn. destruct (decide (k' = k)) as [->|Hk].
        -- rewrite lookup_insert_eq. by rewrite decide_True.
        -- rewrite lookup_insert_ne by congruence. rewrite decide_False by naive_solver. done.
      * rewrite decide_False; [done|]. intros (_ & -> & _). done.
    + rewrite (Hf eq_refl). rewrite decide_False by naive_solver. done.
  - intros o sc' Hsc'. unfold owner_of, create. destruct (owners s !! bag_id sc) as [e|] eqn:Eo.
    + rewrite decide_False by naive_solver. by destruct (negb _).
    + cbn. destruct (decide (sc' = sc)) as [->|Hne].
      * rewrite lookup_insert_eq. by rewrite decide_True.
      * rewrite lookup_insert_ne by (intros E; apply Hne; by apply bag_id_inj).
        rewrite decide_False by naive_solver. done.
  - intros f t sc' Hsc'. unfold owner_of, transfer. destruct (decide (owners s !! bag_id sc = Some f)) as [Ho|Ho].
    + cbn. destruct (decide (sc' = sc)) as [->|Hne].
      * rewrite lookup_insert_eq. by rewrite decide_True.
      * rewrite lookup_insert_ne by (intros E; apply Hne; by apply bag_id_inj).
        rewrite decide_False by naive_solver. done.
    + cbn. rewrite decide_False by naive_solver. done.
Qed.

Lemma strict_bags_spec_witness :
  let s := run strict_step strict_new [Create (Entity 12) 7; SetIn (Entity 12) "hp" (Int 100) 7] in
  scope_parse (bag_id (Entity 12)) = Ok (Entity 12) /\ strict_get s (Entity 12) "hp" = Some (Int 100).
Proof.
  intros s. split; [|reflexivity].
  apply (strict_bags_spec [Create (Entity 12) 7] (Entity 12)). cbn. unfold fits. lia.
Defined.
