(* ===== verification/ServerCfg.v ===== *)
(** server.cfg (crates/ald-servercfg/src: ast.rs, error.rs, parse.rs): the
    document model, its rendering and the line tokenizer. Text is the list of
    its UTF-8 bytes; a slice between two ASCII bytes of valid UTF-8 is valid, so
    the lossy conversions of the source change nothing. *)
From S2P Require Import Prelude RustStr.

(** ** The document (ast.rs) *)
Inductive value := Bare (s : text) | Quoted (s : text).

Record directive := Directive { verb : text; args : list value; raw_arg_count : nat }.

Inductive line_kind := Comment (c : text) | Blank | Dir (d : directive).

Record line := Line { line_no : Z; indent : text; kind : line_kind }.

Record document := Document { source : text; lines : list line }.

Definition document_new (source : text) : document := Document source [].
Definition push (d : document) (l : line) : document := Document (source d) (lines d ++ [l]).

Definition as_str (v : value) : text := match v with Bare s | Quoted s => s end.

Definition QUOTE : Z := 34.
Definition BACKSLASH : Z := 92.

(** Backslashes are doubled first, then quotes get one. *)
Definition escape (s : text) : text :=
  replace_char QUOTE [BACKSLASH; QUOTE] (replace_char BACKSLASH [BACKSLASH; BACKSLASH] s).

Definition value_render (v : value) : text :=
  match v with Bare s => s | Quoted s => QUOTE :: escape s ++ [QUOTE] end.

Definition name (d : directive) : text := verb d.
Definition first_arg (d : directive) : option text := as_str <$> head (args d).
Definition kv (d : directive) : option (text * text) :=
  match args d with k :: v :: _ => Some (as_str k, as_str v) | _ => None end.

Definition directive_render (d : directive) : text :=
  verb d ++ concat ((fun a => 32 :: value_render a) <$> args d).

Definition directives (d : document) : list (Z * directive) :=
  omap (fun l => match kind l with Dir x => Some (line_no l, x) | _ => None end) (lines d).

Definition line_render (l : line) : text :=
  indent l ++ match kind l with
  | Comment c => c ++ [10] | Blank => [10] | Dir d => directive_render d ++ [10]
  end.
Definition render (d : document) : text := concat (line_render <$> lines d).

(** ** Errors (error.rs) *)
Inductive cfg_error :=
| UnterminatedString (line col : Z)
| WrongArgCount (line : Z) (verb : text) (expected got : nat)
| UnknownDirective (line : Z) (verb : text)
| InvalidValue (line : Z) (reason : string)
| DirectiveForbiddenInInclude (line : Z) (verb : text)
| UnknownEnvVar (line : Z) (name : text)
| IncludeOutsideRoot (line : Z) (path : text)
| IncludeTraversal (line : Z) (path : text)
| IncludeMissing (line : Z) (path : text)
| IncludeDepthLimit (line : Z) (path : text) (limit : nat)
| IncludeCycle (line : Z) (path : text) (chain : list text)
| EmptySecret (line : Z)
| SecretProvider (handle : text) (reason : string).

Definition KNOWN_DIRECTIVES : list string :=
  ["set"; "setr"; "sets"; "set_secret"; "exec"; "ensure"; "start"; "stop"; "restart";
   "sv_hostname"; "sv_projectName"; "sv_projectDesc"; "sv_maxclients"; "sv_endpoint";
   "endpoint_add_tcp"; "endpoint_add_udp"; "sv_tags"; "sv_locale"; "sv_icon"; "sv_gameBuild";
   "sv_public"; "sv_listing"; "sv_licenseKey"; "ald_projectId"; "ald_serverId";
   "ald_licenseKey"; "license_mode"; "add_ace"; "remove_ace"; "add_principal";
   "remove_principal"]%string.

Definition is_known (v : text) : bool := one_of v KNOWN_DIRECTIVES.

(** ** The parser (parse.rs) *)
Inductive env_expansion := Disabled | Enabled.
Record parse_options := ParseOptions { env : env_expansion; strict_verbs : bool }.
Definition options_default : parse_options := ParseOptions Enabled false.

(** [char::is_ascii_whitespace]. *)
Definition ascii_ws (c : Z) : bool :=
  (c =? 32) || (c =? 9) || (c =? 10) || (c =? 12) || (c =? 13).

(** The tokenizer: the position in the body and the bytes from there on. *)
Definition cursor := (Z * text)%type.
Definition advance (p : Z -> bool) (c : cursor) : text * cursor :=
  let '(a, b) := span p c.2 in (a, (c.1 + Z.of_nat (length a), b)).

Definition skip_ws (c : cursor) : cursor := (advance ascii_ws c).2.

Definition next_bare (line : Z) (c : cursor) : result (option text * cursor) cfg_error :=
  let c := skip_ws c in
  match c.2 with
  | [] => Ok (None, c)
  | _ =>
      match advance (fun b => negb (ascii_ws b || (b =? QUOTE))) c with
      | ([], _) => Err (InvalidValue line "directive verb must be an unquoted token")
      | (v, c) => Ok (Some v, c)
      end
  end.

(** [b as char] pushed to a [String]: a byte above 127 becomes a Latin-1
    character of two bytes. *)
Definition push_char (b : Z) : text :=
  if b <? 128 then [b] else [Z.lor 192 (Z.shiftr b 6); Z.lor 128 (Z.land b 63)].

Definition unescape (e : Z) : text :=
  if e =? 110 then [10] else if e =? 116 then [9] else if e =? 114 then [13] else push_char e.

(** After the opening quote. *)
Fixpoint read_quoted (line col : Z) (l : text) (out : text) : result (text * text) cfg_error :=
  match l with
  | [] => Err (UnterminatedString line col)
  | c :: l =>
      if c =? QUOTE then Ok (out, l)
      else if c =? BACKSLASH then
        match l with
        | [] => Err (UnterminatedString line col)
        | e :: l => read_quoted line col l (out ++ unescape e)
        end
      else read_quoted line col l (out ++ push_char c)
  end.

Definition next_token (line : Z) (c : cursor) : result (option value * cursor) cfg_error :=
  let c := skip_ws c in
  match c.2 with
  | [] => Ok (None, c)
  | b :: l =>
      if b =? QUOTE then
        let? '(s, r) := read_quoted line (c.1 + 1) l [] in
        Ok (Some (Quoted s), (c.1 + Z.of_nat (length (b :: l) - length r), r))
      else let '(s, c) := advance (fun b => negb (ascii_ws b)) c in Ok (Some (Bare s), c)
  end.

Section environment.
(** [std::env::var]. *)
Context (getenv : text -> option text).

Fixpoint expand_loop (fuel : nat) (line : Z) (s : text) : result text cfg_error :=
  match fuel, s with
  | S fuel, 36 :: 123 :: r =>
      match position (Z.eqb 125) r with
      | Some e =>
          match getenv (take e r) with
          | Some v => let? rest := expand_loop fuel line (drop (S e) r) in Ok (v ++ rest)
          | None => Err (UnknownEnvVar line (take e r))
          end
      | None => let? rest := expand_loop fuel line (123 :: r) in Ok (push_char 36 ++ rest)
      end
  | S fuel, b :: r => let? rest := expand_loop fuel line r in Ok (push_char b ++ rest)
  | _, _ => Ok []
  end.

(** [s.contains("${")]. *)
Fixpoint has_ref (s : text) : bool :=
  match s with
  | 36 :: (123 :: _) => true
  | _ :: r => has_ref r
  | [] => false
  end.

Definition expand_env (s : text) (opts : parse_options) (line : Z) : result text cfg_error :=
  match env opts with
  | Disabled => Ok s
  | Enabled => if has_ref s then expand_loop (length s) line s else Ok s
  end.

(** The argument loop of [parse_line]: each token takes a byte. *)
Fixpoint parse_args (fuel : nat) (opts : parse_options) (line : Z) (c : cursor) :
    result (list value) cfg_error :=
  match fuel with
  | O => Ok []
  | S fuel =>
      let? '(tok, c) := next_token line c in
      match tok with
      | None => Ok []
      | Some tok =>
          let? v := (match tok with
            | Bare s => let? s := expand_env s opts line in Ok (Bare s)
            | Quoted s => let? s := expand_env s opts line in Ok (Quoted s)
            end) in
          let? vs := parse_args fuel opts line c in Ok (v :: vs)
      end
  end.

Definition trim_cr (l : text) : text := rev (span (Z.eqb 13) (rev l)).2.

Definition parse_line (line_no : Z) (raw : text) (opts : parse_options) : result line cfg_error :=
  let trimmed := trim_start_codes raw in
  let indent := take (length raw - length trimmed) raw in
  let body := trim_cr trimmed in
  if bool_decide (body = []) then Ok (Line line_no indent Blank)
  else if starts_with [35] body || starts_with [47; 47] body then
    Ok (Line line_no indent (Comment body))
  else
    let? '(v, c) := next_bare line_no (0, body) in
    match v with
    | None => Ok (Line line_no indent Blank)
    | Some v =>
        if strict_verbs opts && negb (is_known v) then Err (UnknownDirective line_no v)
        else
          let? args := parse_args (S (length c.2)) opts line_no c in
          Ok (Line line_no indent (Dir (Directive v args (length args))))
    end.

Fixpoint parse_lines (no : Z) (segs : list text) (opts : parse_options) :
    result (list line) cfg_error :=
  match segs with
  | [] => Ok []
  | raw :: segs =>
      let? l := parse_line no raw opts in
      let? ls := parse_lines (no + 1) segs opts in
      Ok (l :: ls)
  end.

Definition parse_document (source : text) (t : text) (opts : parse_options) :
    result document cfg_error :=
  let segs := split_on 10 t in
  let n := length segs in
  let last := if bool_decide (1 < n)%nat && bool_decide (last segs = Some []) then (n - 1)%nat else n in
  let? ls := parse_lines 1 (take last segs) opts in
  if bool_decide (last = 0)%nat then
    let? l := parse_line 1 [] opts in Ok (Document source (ls ++ [l]))
  else Ok (Document source ls).

End environment.

(** ** White space *)
Lemma ws_head_app l r x : ws_head l = Some r -> ws_head (l ++ x) = Some (r ++ x).
Proof.
  intros (q & _ & -> & Hq)%ws_head_local. rewrite <- app_assoc. by rewrite Hq.
Qed.

Definition is_space (p : text) : Prop := forall x, ws_head x = None -> trim_start_codes (p ++ x) = x.

Lemma strip_more f n m l :
  (forall l r, f l = Some r -> exists p, p <> [] /\ l = p ++ r) ->
  (length l <= n)%nat -> (n <= m)%nat -> strip f m l = strip f n l.
Proof.
  intros Hf. revert m l. induction n as [|n IH]; intros m l Hl Hm.
  - destruct l; [|cbn in Hl; lia]. destruct m; [done|]. cbn.
    destruct (f []) as [r|] eqn:E; [|done]. apply Hf in E as (p & Hp & E). by destruct p.
  - destruct m; [lia|]. cbn. destruct (f l) as [r|] eqn:E; [|done].
    apply Hf in E as (p & Hp & ->). apply IH; [|lia]. rewrite length_app in Hl.
    destruct p; [done|]. cbn in Hl. lia.
Qed.

Lemma trim_start_step l r : ws_head l = Some r -> trim_start_codes l = trim_start_codes r.
Proof.
  intros E. unfold trim_start_codes. pose proof (ws_head_shorter _ _ E) as (p & Hp & ->).
  rewrite length_app. destruct p as [|c p]; [done|]. cbn [length Nat.add strip]. rewrite E.
  apply strip_more; [apply ws_head_shorter|lia|lia].
Qed.

Lemma trim_start_split_n n l :
  (length l <= n)%nat ->
  exists p, l = p ++ trim_start_codes l /\ is_space p /\ ws_head (trim_start_codes l) = None.
Proof.
  revert l. induction n as [|n IH]; intros l Hl.
  - destruct l; [|cbn in Hl; lia]. exists []. split; [done|]. split; [|done]. intros x Hx. by apply trim_start_stop.
  - destruct (ws_head l) as [r|] eqn:E.
    + rewrite (trim_start_step _ _ E). destruct (ws_head_local _ _ E) as (q & Hq & -> & Hloc).
      rewrite length_app in Hl. destruct (IH r) as (p & Hr & Hp & Hn); [destruct q; [done|cbn in Hl; lia]|].
      exists (q ++ p). split; [by rewrite <- app_assoc, <- Hr|]. split; [|done].
      intros x Hx. rewrite <- app_assoc, (trim_start_step _ _ (Hloc _)). by apply Hp.
    + exists []. rewrite (trim_start_stop _ E). split; [done|]. split; [|done].
      intros x Hx. by apply trim_start_stop.
Qed.

Lemma trim_start_split l :
  exists p, l = p ++ trim_start_codes l /\ is_space p /\ ws_head (trim_start_codes l) = None.
Proof. by apply (trim_start_split_n (length l)). Qed.

(** ** Spans and separators *)
Lemma trim_cr_keep l : last l <> Some 13 -> trim_cr l = l.
Proof.
  intros H. unfold trim_cr. destruct (rev l) as [|c r] eqn:E.
  { rewrite <- (rev_involutive l), E. done. }
  cbn [span]. destruct (13 =? c) eqn:Ec; bool_prop.
  - assert (l = rev r ++ [c]) as -> by (rewrite <- (rev_involutive l), E; done).
    rewrite last_snoc in H. by subst c.
  - cbn [snd]. rewrite <- E. apply rev_involutive.
Qed.

Lemma trim_cr_spec l :
  exists t, l = trim_cr l ++ t /\ Forall (fun c => c = 13) t /\
    last (trim_cr l) <> Some 13.
Proof.
  unfold trim_cr. destruct (span (Z.eqb 13) (rev l)) as [a b] eqn:E.
  apply span_spec in E as (Hl & Ha & Hb). exists (rev a). cbn [snd]. split; [|split].
  - rewrite <- (rev_involutive l), Hl. by rewrite rev_app_distr.
  - apply Forall_rev. eapply Forall_impl; [exact Ha|]. intros c Hc%Z.eqb_eq. done.
  - destruct b as [|c b]; [done|]. cbn [rev]. rewrite last_snoc. apply Z.eqb_neq in Hb. by intros [= ->].
Qed.

(** ** What renders and reads back *)
Definition bare_ok (s : text) : Prop :=
  s <> [] /\ Forall (fun c => ascii_ws c = false) s /\ head s <> Some QUOTE.
Definition plain (s : text) : Prop := Forall (fun c => 0 <= c < 128 /\ c <> 10) s.
Definition value_ok (v : value) : Prop := match v with Bare s => bare_ok s | Quoted s => plain s end.

Definition verb_ok (v : text) : Prop :=
  v <> [] /\ Forall (fun c => ascii_ws c = false /\ c <> QUOTE) v /\ ws_head v = None /\
  starts_with [35] v = false /\ starts_with [47; 47] v = false.

Definition kind_ok (opts : parse_options) (k : line_kind) : Prop :=
  match k with
  | Blank => True
  | Comment c => 10 ∉ c /\ ws_head c = None /\
      (starts_with [35] c || starts_with [47; 47] c) = true /\
      last c <> Some 13
  | Dir d => verb_ok (verb d) /\ Forall value_ok (args d) /\ raw_arg_count d = length (args d) /\
      (strict_verbs opts = true -> is_known (verb d) = true) /\
      (env opts = Enabled -> Forall (fun a => has_ref (as_str a) = false) (args d))
  end.

Definition line_ok (opts : parse_options) (l : line) : Prop :=
  is_space (indent l) /\ 10 ∉ indent l /\ kind_ok opts (kind l).

Fixpoint numbered (n : Z) (ls : list line) : Prop :=
  match ls with [] => True | l :: ls => line_no l = n /\ numbered (n + 1) ls end.

Definition doc_ok (opts : parse_options) (d : document) : Prop :=
  lines d <> [] /\ Forall (line_ok opts) (lines d) /\ numbered 1 (lines d).

Lemma read_quoted_render line col s out rest :
  plain s -> read_quoted line col (escape s ++ QUOTE :: rest) out = Ok (out ++ s, rest).
Proof.
  intros Hs. revert out. induction Hs as [|c s [Hc Hn] _ IH]; intros out.
  { cbn. by rewrite app_nil_r. }
  assert (Hp : push_char c = [c]) by (unfold push_char; by rewrite (proj2 (Z.ltb_lt _ _)) by lia).
  unfold escape, replace_char in *. cbn [fmap list_fmap].
  destruct (c =? BACKSLASH) eqn:Eb; bool_prop.
  - subst c. cbn. rewrite IH. by rewrite <- app_assoc.
  - cbn [concat app fmap list_fmap]. destruct (c =? QUOTE) eqn:Eq; bool_prop.
    + subst c. cbn. rewrite IH. by rewrite <- app_assoc.
    + cbn [app concat read_quoted]. rewrite (proj2 (Z.eqb_neq c QUOTE)), (proj2 (Z.eqb_neq c BACKSLASH)) by done.
      rewrite Hp, IH. by rewrite <- app_assoc.
Qed.

Definition ends_token (rest : text) : Prop := match rest with [] => True | c :: _ => ascii_ws c = true end.

Lemma skip_one_space pos l :
  match l with [] => True | c :: _ => ascii_ws c = false end ->
  skip_ws (pos, 32 :: l) = (pos + 1, l).
Proof.
  intros Hl. unfold skip_ws, advance. cbn [fst snd].
  change (32 :: l) with ([32] ++ l). rewrite (span_app ascii_ws [32] l); [done|by repeat constructor|done].
Qed.

Lemma next_token_render line pos a rest :
  value_ok a -> ends_token rest ->
  exists pos', next_token line (pos, 32 :: value_render a ++ rest) = Ok (Some a, (pos', rest)).
Proof.
  intros Ha Hr. unfold next_token. destruct a as [s|s]; cbn [value_render value_ok] in *.
  - destruct Ha as (Hne & Hall & Hq). destruct s as [|c s]; [done|]. pose proof Hall as [Hc _]%Forall_cons.
    rewrite skip_one_space by done. cbn [snd app].
    rewrite (proj2 (Z.eqb_neq c QUOTE)) by (intros ->; done).
    unfold advance. cbn [snd fst]. change (c :: s ++ rest) with ((c :: s) ++ rest).
    rewrite span_app; [by eexists| |].
    + eapply Forall_impl; [exact Hall|]. cbn. by intros x ->.
    + destruct rest as [|x rest]; [done|]. cbn in Hr. by rewrite Hr.
  - cbn [app]. rewrite <- app_assoc. cbn [app]. rewrite skip_one_space by done. cbn [snd].
    rewrite Z.eqb_refl. rewrite read_quoted_render by done. cbn. by eexists.
Qed.

Lemma expand_env_id getenv opts line s :
  (env opts = Enabled -> has_ref s = false) -> expand_env getenv s opts line = Ok s.
Proof. unfold expand_env. destruct (env opts); [done|]. intros H. by rewrite H. Qed.

Section roundtrip.
Context (getenv : text -> option text).

Definition args_render (l : list value) : text := concat ((fun a => 32 :: value_render a) <$> l).

Lemma args_render_ends l : ends_token (args_render l).
Proof. by destruct l. Qed.

Lemma args_render_length l : (length l <= length (args_render l))%nat.
Proof. unfold args_render. induction l as [|a l IH]; cbn; [lia|]. rewrite length_app. lia. Qed.

Lemma parse_args_render opts line l fuel pos :
  Forall value_ok l -> (env opts = Enabled -> Forall (fun a => has_ref (as_str a) = false) l) ->
  (length l < fuel)%nat ->
  parse_args getenv fuel opts line (pos, args_render l) = Ok l.
Proof.
  intros Hl. revert fuel pos. induction Hl as [|a l Ha _ IH]; intros fuel pos He Hf;
    (destruct fuel as [|fuel]; [cbn in Hf; lia|]); cbn [parse_args]; [done|].
  destruct (next_token_render line pos a (args_render l) Ha (args_render_ends l)) as (pos' & Hn).
  change (args_render (a :: l)) with (32 :: value_render a ++ args_render l). rewrite Hn. cbn [rbind].
  assert (Hv : env opts = Enabled -> has_ref (as_str a) = false) by (intros H; by apply (Forall_inv (He H))).
  assert (Hargs : parse_args getenv fuel opts line (pos', args_render l) = Ok l).
  { apply IH; [|cbn in Hf; lia]. intros H. exact (Forall_inv_tail (He H)). }
  destruct a as [s|s]; rewrite (expand_env_id getenv opts line s Hv); cbn [rbind]; by rewrite Hargs.
Qed.

(** ** Reading back a rendered line *)
Definition content (k : line_kind) : text :=
  match k with Comment c => c | Blank => [] | Dir d => directive_render d end.

Lemma last_app_ne {A} (a b : list A) : b <> [] -> last (a ++ b) = last b.
Proof. intros Hb. destruct (last_is_Some b) as [_ [x Hx]]; [done|]. by rewrite last_app, Hx. Qed.

Lemma not_cr_last l : Forall (fun c => ascii_ws c = false) l ->
  last l <> Some 13.
Proof.
  intros H E%last_Some_elem_of. rewrite Forall_forall in H. by apply H in E.
Qed.

Lemma value_render_ne a : value_ok a -> value_render a <> [].
Proof. destruct a as [s|s]; [by intros [? _]|done]. Qed.

Lemma value_render_last a : value_ok a -> last (value_render a) <> Some 13.
Proof.
  destruct a as [s|s]; cbn [value_ok value_render]; [intros (_ & H & _); by apply not_cr_last|intros _].
  change (QUOTE :: escape s ++ [QUOTE]) with ((QUOTE :: escape s) ++ [QUOTE]). by rewrite last_snoc.
Qed.

Lemma args_render_snoc l a : args_render (l ++ [a]) = (args_render l ++ [32]) ++ value_render a.
Proof.
  unfold args_render. rewrite fmap_app, concat_app. cbn. rewrite app_nil_r, <- app_assoc. done.
Qed.

Lemma verb_not_ws v : verb_ok v -> Forall (fun c => ascii_ws c = false) v.
Proof. intros (_ & H & _). eapply Forall_impl; [exact H|]. by intros c [? _]. Qed.

Lemma directive_last d :
  verb_ok (verb d) -> Forall value_ok (args d) ->
  last (directive_render d) <> Some 13.
Proof.
  intros Hv Ha. unfold directive_render. fold (args_render (args d)).
  destruct (args d) as [|a l _] using rev_ind.
  - cbn. rewrite app_nil_r. by apply not_cr_last, verb_not_ws.
  - rewrite args_render_snoc, app_assoc. apply Forall_app in Ha as [_ Ha%Forall_inv].
    rewrite last_app_ne by by apply value_render_ne. by apply value_render_last.
Qed.

Lemma verb_head v l : verb_ok v ->
  ws_head (v ++ args_render l) = None /\ starts_with [35] (v ++ args_render l) = false /\
  starts_with [47; 47] (v ++ args_render l) = false.
Proof.
  intros (Hne & Hall & Hw & H1 & H2). destruct l as [|a l]; [by rewrite app_nil_r|].
  change (args_render (a :: l)) with (32 :: value_render a ++ args_render l).
  split; [by apply ws_head_snoc|].
  unfold starts_with in *. destruct v as [|x [|y v]]; [done| |]; cbn [app take length] in *;
    rewrite ?take_0, !bool_decide_eq_false in *; split; congruence.
Qed.

Lemma trim_start_indent p x : is_space p -> ws_head x = None ->
  trim_start_codes (p ++ x) = x /\ take (length (p ++ x) - length x) (p ++ x) = p.
Proof.
  intros Hp Hx. split; [by apply Hp|]. rewrite length_app.
  replace (length p + length x - length x)%nat with (length p) by lia. by rewrite take_app_length.
Qed.

Lemma next_bare_verb line v l :
  verb_ok v -> next_bare line (0, v ++ args_render l) = Ok (Some v, (Z.of_nat (length v), args_render l)).
Proof.
  intros (Hne & Hall & _). unfold next_bare, skip_ws, advance. cbn [fst snd].
  destruct v as [|c v]; [done|]. pose proof Hall as [[Hc Hq] _]%Forall_cons.
  assert (Hs : span ascii_ws ((c :: v) ++ args_render l) = ([], (c :: v) ++ args_render l)).
  { cbn. by rewrite Hc. }
  rewrite Hs. cbn [fst snd length]. rewrite Z.add_0_r. cbn [app]. change (c :: v ++ args_render l) with ((c :: v) ++ args_render l).
  rewrite span_app; [done| |].
  - eapply Forall_impl; [exact Hall|]. intros x [Hx Hxq]. cbv beta.
    by rewrite Hx, (proj2 (Z.eqb_neq x QUOTE)).
  - by destruct l.
Qed.

Lemma parse_line_render opts l :
  line_ok opts l -> parse_line getenv (line_no l) (indent l ++ content (kind l)) opts = Ok l.
Proof.
  intros (Hi & _ & Hk). destruct l as [no ind k]. cbn [line_no indent kind] in *.
  unfold parse_line. destruct k as [c| |d]; cbn [content kind_ok] in *.
  - destruct Hk as (_ & Hw & Hc & Hl). destruct (trim_start_indent ind c) as [-> ->]; [done..|].
    rewrite trim_cr_keep by done. rewrite Hc. case_bool_decide; [by subst|done].
  - by destruct (trim_start_indent ind []) as [-> ->].
  - destruct d as [v a n]. cbn [verb args raw_arg_count] in *. destruct Hk as (Hv & Ha & -> & Hs & He).
    change (directive_render _) with (v ++ args_render a).
    destruct (verb_head v a Hv) as (Hw & H1 & H2). destruct (trim_start_indent ind (v ++ args_render a)) as [-> ->]; [done..|].
    rewrite trim_cr_keep by exact (directive_last (Directive v a 0) Hv Ha). rewrite H1, H2. cbn [orb].
    rewrite bool_decide_eq_false_2 by (destruct Hv as [? _]; by destruct v).
    rewrite next_bare_verb by done. cbn [rbind].
    replace (strict_verbs opts && negb (is_known v)) with false
      by (symmetry; destruct (strict_verbs opts); [by rewrite Hs|done]).
    rewrite parse_args_render; [done..|]. cbn [snd]. pose proof (args_render_length a). lia.
Qed.

Lemma parse_lines_render opts ls n :
  Forall (line_ok opts) ls -> numbered n ls ->
  parse_lines getenv n ((fun l => indent l ++ content (kind l)) <$> ls) opts = Ok ls.
Proof.
  intros Hl. revert n. induction Hl as [|l ls Hl _ IH]; intros n Hn; [done|]. destruct Hn as [<- Hn].
  cbn [fmap list_fmap parse_lines]. rewrite parse_line_render by done. cbn [rbind]. by rewrite IH.
Qed.

(** ** No line feed inside a line *)
Lemma escape_no_lf s : 10 ∉ s -> 10 ∉ escape s.
Proof.
  unfold escape, replace_char. intros Hs Hin. apply list_elem_of_In in Hin.
  apply in_concat in Hin as (x & Hx & Hin). apply list_elem_of_In, list_elem_of_fmap in Hx as (y & -> & Hy).
  apply list_elem_of_In, in_concat in Hy as (z & Hz & Hy).
  apply list_elem_of_In, list_elem_of_fmap in Hz as (w & -> & Hw).
  assert (10 <> w) by (by intros <-). apply list_elem_of_In in Hin, Hy.
  destruct (w =? BACKSLASH), (y =? QUOTE); set_solver.
Qed.

Lemma plain_no_lf s : plain s -> 10 ∉ s.
Proof. unfold plain. rewrite Forall_forall. intros H Hin. by destruct (H _ Hin). Qed.

Lemma no_ws_no_lf s : Forall (fun c => ascii_ws c = false) s -> 10 ∉ s.
Proof. rewrite Forall_forall. intros H Hin. by specialize (H _ Hin). Qed.

Lemma args_render_no_lf l : Forall value_ok l -> 10 ∉ args_render l.
Proof.
  unfold args_render. induction 1 as [|a l Ha _ IH]; cbn; [set_solver|].
  assert (10 ∉ value_render a).
  { destruct a as [s|s]; cbn in *; [destruct Ha as (_ & Ha & _); by apply no_ws_no_lf|].
    apply plain_no_lf, escape_no_lf in Ha. unfold QUOTE. set_solver. }
  set_solver.
Qed.

Lemma content_no_lf opts k : kind_ok opts k -> 10 ∉ content k.
Proof.
  destruct k as [c| |d]; cbn; [by intros [? _]|set_solver|].
  intros (Hv & Ha & _). unfold directive_render. rewrite elem_of_app. intros [H|H].
  - by apply no_ws_no_lf in H; [|apply verb_not_ws].
  - by apply args_render_no_lf in H.
Qed.

Lemma line_render_eq l : line_render l = (indent l ++ content (kind l)) ++ [10].
Proof. unfold line_render. destruct (kind l); cbn; by rewrite <- app_assoc. Qed.

Lemma parse_render opts d : doc_ok opts d -> parse_document getenv (source d) (render d) opts = Ok d.
Proof.
  intros (Hne & Hl & Hn). unfold parse_document, render.
  set (bodies := (fun l => indent l ++ content (kind l)) <$> lines d).
  assert (Hb : line_render <$> lines d = (fun b => b ++ [10]) <$> bodies).
  { unfold bodies. rewrite <- list_fmap_compose. apply list_fmap_ext. intros. apply line_render_eq. }
  rewrite Hb, split_on_lines.
  - assert (Hlen : (0 < length bodies)%nat) by (unfold bodies; rewrite length_fmap; destruct (lines d); [done|cbn; lia]).
    rewrite length_app, last_snoc. cbn [length].
    rewrite (bool_decide_eq_true_2 (1 < _)%nat), (bool_decide_eq_true_2 (Some _ = _)) by (done || lia). cbn [andb].
    rewrite Nat.add_sub, take_app_length. unfold bodies. rewrite parse_lines_render by done. cbn [rbind].
    rewrite bool_decide_eq_false_2 by (fold bodies; lia). by destruct d.
  - apply Forall_fmap. eapply Forall_impl; [exact Hl|]. intros l (_ & Hi & Hk). cbn.
    apply content_no_lf in Hk. set_solver.
Qed.

(** ** What the parser produces *)
Definition plain_quotes (v : value) : Prop := match v with Bare _ => True | Quoted s => plain s end.
Definition plain_line (k : line_kind) : Prop :=
  match k with Dir d => Forall plain_quotes (args d) | _ => True end.

Lemma next_token_bare line c s c' : next_token line c = Ok (Some (Bare s), c') -> bare_ok s.
Proof.
  unfold next_token, skip_ws, advance.
  destruct (span ascii_ws c.2) as [a b] eqn:E. apply span_spec in E as (_ & _ & Hb). cbn [fst snd].
  destruct b as [|x b]; [done|]. destruct (x =? QUOTE) eqn:Eq; bool_prop.
  - destruct (read_quoted _ _ _ _) as [[? ?]|]; cbn; congruence.
  - cbn [span]. rewrite Hb. cbn [negb]. destruct (span (fun b => negb (ascii_ws b)) b) as [u w] eqn:E.
    intros [= <- <-]. apply span_spec in E as (_ & Hu & _). split_and!; [done| |cbn; congruence].
    constructor; [done|]. eapply Forall_impl; [exact Hu|]. cbv beta. by intros y ->%negb_true_iff.
Qed.

Lemma parse_args_ok opts fuel line c l :
  env opts = Disabled -> parse_args getenv fuel opts line c = Ok l -> Forall plain_quotes l -> Forall value_ok l.
Proof.
  intros He. revert c l. induction fuel as [|fuel IH]; intros c l; cbn [parse_args]; [by intros [= <-]|].
  destruct (next_token line c) as [[tok c']|] eqn:Et; [|done]. cbn [rbind].
  destruct tok as [tok|]; [|by intros [= <-]]. unfold expand_env. rewrite He.
  assert (Hr : forall v, (let? vs := parse_args getenv fuel opts line c' in Ok (v :: vs)) = Ok l ->
    exists vs, l = v :: vs /\ parse_args getenv fuel opts line c' = Ok vs).
  { intros v. destruct (parse_args _ _ _ _ _) as [vs|]; [|done]. intros [= <-]. by eexists. }
  destruct tok as [s|s]; cbn [rbind]; intros (vs & -> & Hvs)%Hr [Hs Hp]%Forall_cons.
  - constructor; [by eapply next_token_bare|by eapply IH].
  - constructor; [done|by eapply IH].
Qed.

Lemma ws_head_prefix a b : ws_head (a ++ b) = None -> ws_head a = None.
Proof. intros H. destruct (ws_head a) as [r|] eqn:E; [|done]. by rewrite (ws_head_app _ _ b E) in H. Qed.

Lemma starts_with_app_l p a b : starts_with p (a ++ b) = false -> starts_with p a = false.
Proof.
  unfold starts_with. rewrite !bool_decide_eq_false. intros H Hp. apply H.
  assert (length p <= length a)%nat by (rewrite Hp at 1; rewrite length_take; lia).
  by rewrite take_app_le.
Qed.

Lemma ws_head_not_ascii c l : ws_head (c :: l) = None -> ascii_ws c = false.
Proof.
  intros H. destruct (ascii_ws c) eqn:E; [|done]. exfalso. unfold ascii_ws in E.
  rewrite !orb_true_iff, !Z.eqb_eq in E. destruct E as [[[[->| ->]| ->]| ->]| ->]; done.
Qed.

Lemma next_bare_ok line body v c :
  ws_head body = None -> starts_with [35] body = false -> starts_with [47; 47] body = false ->
  next_bare line (0, body) = Ok (v, c) -> match v with Some v => verb_ok v | None => body = [] end.
Proof.
  intros Hw H1 H2. unfold next_bare, skip_ws, advance. cbn [fst snd].
  assert (Hs : span ascii_ws body = ([], body)).
  { destruct body as [|x body]; [done|]. cbn. by rewrite (ws_head_not_ascii _ _ Hw). }
  rewrite Hs. clear Hs. cbn [fst snd]. destruct body as [|x body]; [by intros [= <- <-]|].
  destruct (span _ (x :: body)) as [u w] eqn:E. apply span_spec in E as (Hb & Hu & _).
  destruct u as [|y u]; [done|]. intros [= <- <-]. rewrite Hb in Hw, H1, H2.
  split_and!; [done| |by eapply ws_head_prefix|by eapply starts_with_app_l|by eapply starts_with_app_l].
  eapply Forall_impl; [exact Hu|]. cbv beta. intros z [Hz Hq]%negb_true_iff%orb_false_iff.
  split; [done|]. by apply Z.eqb_neq.
Qed.

Lemma parse_line_ok opts no raw l :
  env opts = Disabled -> 10 ∉ raw -> parse_line getenv no raw opts = Ok l -> plain_line (kind l) ->
  line_ok opts l /\ line_no l = no.
Proof.
  intros He Hlf. unfold parse_line.
  destruct (trim_start_split raw) as (p & Hraw & Hp & Hw). set (t := trim_start_codes raw) in *.
  assert (Hind : take (length raw - length t) raw = p).
  { rewrite Hraw, length_app. replace (length p + length t - length t)%nat with (length p) by lia.
    by rewrite take_app_length. }
  assert (Hplf : 10 ∉ p /\ 10 ∉ t) by (rewrite Hraw in Hlf; set_solver).
  destruct (trim_cr_spec t) as (u & Ht & _ & Hl). set (body := trim_cr t) in *. clearbody body t.
  rewrite Ht in Hw, Hplf. apply ws_head_prefix in Hw. rewrite Hind.
  assert (Hgo : forall k, kind_ok opts k -> line_ok opts (Line no p k) /\ no = no)
    by (intros k Hk; split; [by split; [|split; [apply Hplf|]]|done]).
  case_bool_decide; [intros [= <-] _; by apply Hgo|].
  destruct (starts_with [35] body || starts_with [47; 47] body) eqn:Ec.
  - intros [= <-] _. apply Hgo. split_and!; [set_solver|done..].
  - apply orb_false_iff in Ec as [H1 H2]. destruct (next_bare _ _) as [[v c]|] eqn:Eb; [|done].
    apply next_bare_ok in Eb; [|done..]. cbn [rbind]. destruct v as [v|]; [|done].
    destruct (strict_verbs opts && negb (is_known v)) eqn:Es; [done|].
    destruct (parse_args _ _ _ _ _) as [a|] eqn:Ea; [|done]. intros [= <-] Hq. apply Hgo.
    cbn in Hq |- *. split_and!; [done|by eapply parse_args_ok|done| |congruence].
    intros Hst. rewrite Hst in Es. by apply negb_false_iff in Es.
Qed.

Lemma parse_lines_ok opts n segs ls :
  env opts = Disabled -> Forall (fun s => 10 ∉ s) segs -> parse_lines getenv n segs opts = Ok ls ->
  Forall (fun l => plain_line (kind l)) ls ->
  Forall (line_ok opts) ls /\ numbered n ls /\ length ls = length segs.
Proof.
  intros He Hs. revert n ls. induction Hs as [|s segs Hs _ IH]; intros n ls; cbn [parse_lines]; [by intros [= <-]|].
  destruct (parse_line _ _ _ _) as [l|] eqn:El; [|done]. cbn [rbind].
  destruct (parse_lines _ _ _ _) as [ls'|] eqn:Els; [|done]. intros [= <-] [Hl Hls]%Forall_cons.
  apply parse_line_ok in El as [Hok Hno]; [|done..]. apply IH in Els as (H1 & H2 & H3); [|done..].
  split_and!; [by constructor|done|cbn; by rewrite H3].
Qed.

Lemma parse_doc_ok opts src t d :
  env opts = Disabled -> parse_document getenv src t opts = Ok d ->
  Forall (fun l => plain_line (kind l)) (lines d) -> doc_ok opts d /\ source d = src.
Proof.
  intros He. unfold parse_document. set (segs := split_on 10 t).
  set (n := if _ && _ then _ else _).
  assert (Hn : (0 < n <= length segs)%nat).
  { assert (0 < length segs)%nat by (unfold segs; pose proof (split_on_ne 10 t); destruct (split_on 10 t); [done|cbn; lia]).
    unfold n. repeat case_bool_decide; cbn; lia. }
  clearbody n. destruct (parse_lines _ _ _ _) as [ls|] eqn:E; [|done]. cbn [rbind].
  rewrite bool_decide_eq_false_2 by lia. intros [= <-] Hp. cbn [lines source] in *.
  apply parse_lines_ok in E as (H1 & H2 & H3); [|done|apply Forall_take, split_on_free|done].
  split; [|done]. split; [|by split]. cbn. rewrite length_take in H3. intros ->. cbn in H3. lia.
Qed.

End roundtrip.

(** ** Properties *)

(** C15: Printing and parsing agree on well-formed documents: rendering one and
    parsing the text gives it back unchanged. A document the parser made is
    well-formed, and so survives rendering and parsing again, when it was
    parsed without environment expansion and its quoted values are ASCII
    without a line feed; other parsed documents need not be
    ([cfg_mangles_values]). *)
Theorem cfg_roundtrip (getenv : text -> option text) (opts : parse_options) :
  (forall d, doc_ok opts d -> parse_document getenv (source d) (render d) opts = Ok d) /\
  (forall src t d, env opts = Disabled -> parse_document getenv src t opts = Ok d ->
    Forall (fun l => plain_line (kind l)) (lines d) ->
    doc_ok opts d /\ parse_document getenv src (render d) opts = Ok d).
Proof.
  split; [apply parse_render|]. intros src t d He Hp Hq.
  apply parse_doc_ok in Hp as [Hok <-]; [|done..]. split; [done|]. by apply parse_render.
Qed.

Lemma cfg_roundtrip_witness :
  let no_env := ParseOptions Disabled false in
  exists d, parse_document (fun _ => None) [] (codes "  sv_hostname " ++ [34; 120; 34; 10; 35]) no_env = Ok d /\
    parse_document (fun _ => None) [] (render d) no_env = Ok d.
Proof.
  intros no_env. eexists. split; [vm_compute; reflexivity|].
  eapply (proj2 (cfg_roundtrip (fun _ => None) no_env) [] (codes "  sv_hostname " ++ [34; 120; 34; 10; 35]));
    [done|vm_compute; reflexivity|].
  repeat constructor; done.
Defined.

(** Outside those values the text changes the meaning: a quoted non-ASCII
    character is read as two Latin-1 characters, byte by byte, and a line feed
    written as an escape is rendered raw, which no longer parses. *)
Theorem cfg_mangles_values (getenv : text -> option text) :
  let no_env := ParseOptions Disabled false in
  parse_document getenv [] (codes "set a " ++ [34; 195; 169; 34]) no_env =
    Ok (Document [] [Line 1 [] (Dir (Directive (codes "set")
      [Bare (codes "a"); Quoted [195; 131; 194; 169]] 2))]) /\
  exists d, parse_document getenv [] (codes "set a " ++ [34; 92; 110; 34]) no_env = Ok d /\
    parse_document getenv [] (render d) no_env = Err (UnterminatedString 1 7).
Proof.
  intros no_env. split; [by vm_compute|].
  exists (Document [] [Line 1 [] (Dir (Directive (codes "set") [Bare (codes "a"); Quoted [10]] 2))]).
  by split; vm_compute.
Qed.
