(* ===== verification/Includes.v ===== *)
(** Include resolution (crates/ald-servercfg/src/include_resolver.rs): the
    [exec] lines of a document are replaced by the documents they name. The
    file system and the environment are parameters. *)
From S2P Require Import Prelude RustStr ServerCfg.

Definition MAX_INCLUDE_DEPTH : nat := 16.

(** [p.trim_start_matches("./")]; each turn drops two bytes. *)
Fixpoint trim_dot_slash (l : text) : text :=
  match l with 46 :: 47 :: l => trim_dot_slash l | _ => l end.

Definition normalize_owned (p : text) : text := replace_char BACKSLASH [47] (trim_dot_slash p).

(** [target.split(['/', '\\'])]. *)
Fixpoint split_path (l : text) : list text :=
  match l with
  | [] => [[]]
  | x :: l =>
      if (x =? 47) || (x =? BACKSLASH) then [] :: split_path l
      else match split_path l with s :: r => (x :: s) :: r | [] => [[x]] end
  end.

Section resolver.
Context (getenv : text -> option text) (fs : text -> option text) (opts : parse_options).

(** [rec] is [expand] one level deeper, absent when [depth >= MAX_INCLUDE_DEPTH].
    On Linux [Path::is_absolute] is the test for a leading slash. *)
Definition expand_include
    (rec : option (document -> document -> list text -> Z -> result document cfg_error))
    (target : text) (out : document) (chain : list text) (at_line : Z) :
    result document cfg_error :=
  if bool_decide (target = []) then Err (InvalidValue at_line "empty exec path")
  else if starts_with [47] target || starts_with [BACKSLASH] target then
    Err (IncludeOutsideRoot at_line target)
  else if existsb (fun c => bool_decide (c = [46; 46])) (split_path target) then
    Err (IncludeTraversal at_line target)
  else match rec with
  | None => Err (IncludeDepthLimit at_line target MAX_INCLUDE_DEPTH)
  | Some rec =>
      let norm := normalize_owned target in
      if bool_decide (norm ∈ chain) then Err (IncludeCycle at_line target chain)
      else
        let? t := ok_or (fs norm) (IncludeMissing at_line norm) in
        let? child := parse_document getenv norm t opts in
        rec child out (chain ++ [norm]) at_line
  end.

(** The loop of [expand] over the lines. *)
Fixpoint expand_lines
    (include : text -> document -> Z -> result document cfg_error)
    (ls : list line) (i : Z) (out : document) (parent_line : Z) : result document cfg_error :=
  match ls with
  | [] => Ok out
  | l :: ls =>
      let line_no := i + 1 in
      let? out :=
        (match kind l with
         | Dir d =>
             if verb_is (verb d) "exec" then
               let? target := ok_or (first_arg d) (WrongArgCount (Z.max parent_line line_no) (codes "exec") 1 0) in
               include target out line_no
             else Ok (push out l)
         | _ => Ok (push out l)
         end) in
      expand_lines include ls (i + 1) out parent_line
  end.

(** [levels] is [MAX_INCLUDE_DEPTH - depth]. *)
Fixpoint expand (levels : nat) (doc out : document) (chain : list text) (parent_line : Z) :
    result document cfg_error :=
  expand_lines
    (fun target out at_line =>
      expand_include (match levels with O => None | S levels => Some (expand levels) end)
        target out chain at_line)
    (lines doc) 0 out parent_line.

Definition resolve (root_path : text) : result document cfg_error :=
  let? t := ok_or (fs root_path) (IncludeMissing 0 root_path) in
  let? root := parse_document getenv root_path t opts in
  expand (MAX_INCLUDE_DEPTH - 1) root (document_new root_path) [normalize_owned root_path] 0.
End resolver.

(** ** Specification: flattening as a relation *)

(** The targets an [exec] line may name. *)
Definition admissible (target : text) : Prop :=
  target <> [] /\ starts_with [47] target = false /\ starts_with [BACKSLASH] target = false /\
  [46; 46] ∉ split_path target.

Definition is_exec (l : line) : bool :=
  match kind l with Dir d => verb_is (verb d) "exec" | _ => false end.

Inductive flat (getenv fs : text -> option text) (opts : parse_options) :
  nat -> list text -> list line -> list line -> Prop :=
| flat_nil levels chain : flat getenv fs opts levels chain [] []
| flat_keep levels chain l ls out :
    is_exec l = false -> flat getenv fs opts levels chain ls out ->
    flat getenv fs opts levels chain (l :: ls) (l :: out)
| flat_exec levels chain l d target t child ls sub out :
    kind l = Dir d -> is_exec l = true -> first_arg d = Some target -> admissible target ->
    normalize_owned target ∉ chain -> fs (normalize_owned target) = Some t ->
    parse_document getenv (normalize_owned target) t opts = Ok child ->
    flat getenv fs opts levels (chain ++ [normalize_owned target]) (lines child) sub ->
    flat getenv fs opts (S levels) chain ls out ->
    flat getenv fs opts (S levels) chain (l :: ls) (sub ++ out).

Section facts.
Context (getenv : text -> option text) (opts : parse_options).

(** The guards of an include as one condition. *)
Definition admissibleb (target : text) : bool :=
  negb (bool_decide (target = []) || (starts_with [47] target || starts_with [BACKSLASH] target) ||
    existsb (fun c => bool_decide (c = [46; 46])) (split_path target)).

Lemma admissibleb_spec target : admissibleb target = true <-> admissible target.
Proof.
  unfold admissibleb, admissible. rewrite negb_true_iff, !orb_false_iff, bool_decide_eq_false, existsb_false_Forall.
  rewrite Forall_forall. split.
  - intros ((Hn & H1 & H2) & H3). split_and!; [done..|]. intros Hin. by specialize (H3 _ Hin); bool_prop.
  - intros (Hn & H1 & H2 & H3). split_and!; [done..|]. intros x Hx. apply bool_decide_eq_false. by intros ->.
Qed.

Lemma expand_include_ok fs rec target out chain at_line r :
  expand_include getenv fs opts rec target out chain at_line = Ok r <->
  admissible target /\ exists k t child, rec = Some k /\ normalize_owned target ∉ chain /\
    fs (normalize_owned target) = Some t /\
    parse_document getenv (normalize_owned target) t opts = Ok child /\
    k child out (chain ++ [normalize_owned target]) at_line = Ok r.
Proof.
  rewrite <- admissibleb_spec. unfold expand_include, admissibleb. split.
  - case_bool_decide; [done|]. destruct (_ || _); [done|]. destruct (existsb _ _); [done|].
    destruct rec as [k|]; [|done]. case_bool_decide; [done|].
    destruct (fs _) as [t|]; [|done]. cbn [ok_or rbind].
    destruct (parse_document _ _ _ _) as [child|] eqn:E; [|done]. cbn [rbind]. intros Hr.
    split; [done|]. by exists k, t, child.
  - intros (Ha & k & t & child & -> & Hc & Ht & Hp & Hr). apply negb_true_iff, orb_false_iff in Ha as [[Ha1 Ha2]%orb_false_iff Ha3].
    rewrite bool_decide_eq_false in Ha1.
    rewrite (bool_decide_eq_false_2 (target = [])) by done. rewrite Ha2, Ha3.
    rewrite bool_decide_eq_false_2 by done. rewrite Ht. cbn. by rewrite Hp.
Qed.

Lemma expand_eq fs levels doc out chain p :
  expand getenv fs opts levels doc out chain p =
  expand_lines (fun target out at_line =>
      expand_include getenv fs opts
        (match levels with O => None | S n => Some (expand getenv fs opts n) end) target out chain at_line)
    (lines doc) 0 out p.
Proof. by destruct levels. Qed.

Definition extend (out : document) (ls : list line) : document := Document (source out) (lines out ++ ls).

Lemma extend_app out a b : extend (extend out a) b = extend out (a ++ b).
Proof. unfold extend. cbn. by rewrite app_assoc. Qed.

Lemma flat_exec_inv fs levels chain l ls r :
  is_exec l = true -> flat getenv fs opts levels chain (l :: ls) r ->
  exists n d target t child sub out, levels = S n /\ kind l = Dir d /\ first_arg d = Some target /\
    admissible target /\ normalize_owned target ∉ chain /\ fs (normalize_owned target) = Some t /\
    parse_document getenv (normalize_owned target) t opts = Ok child /\
    flat getenv fs opts n (chain ++ [normalize_owned target]) (lines child) sub /\
    flat getenv fs opts levels chain ls out /\ r = sub ++ out.
Proof. intros He Hf. inversion Hf; subst; [congruence|]. do 7 eexists. split_and!; try done. Qed.

Lemma expand_lines_flat fs levels chain ls i out p r :
  (forall n child out at_line r, levels = S n -> forall chain,
    expand getenv fs opts n child out chain at_line = Ok r <->
    exists sub, flat getenv fs opts n chain (lines child) sub /\ r = extend out sub) ->
  expand_lines (fun target out at_line =>
      expand_include getenv fs opts
        (match levels with O => None | S n => Some (expand getenv fs opts n) end) target out chain at_line)
    ls i out p = Ok r <->
  exists sub, flat getenv fs opts levels chain ls sub /\ r = extend out sub.
Proof.
  intros IHn. revert i out. induction ls as [|l ls IH]; intros i out; cbn [expand_lines].
  { split.
    - intros [= <-]. exists []. split; [constructor|]. unfold extend. rewrite app_nil_r. by destruct out.
    - intros (sub & Hf & ->). inversion Hf. unfold extend. rewrite app_nil_r. by destruct out. }
  destruct (is_exec l) eqn:He.
  - assert (exists d, kind l = Dir d /\ verb_is (verb d) "exec" = true) as (d & Hk & Hv)
      by (unfold is_exec in He; destruct (kind l); [done..|by eexists]).
    rewrite Hk, Hv. split.
    + destruct (first_arg d) as [target|] eqn:Ha; [|done]. cbn [ok_or rbind].
      destruct (expand_include _ _ _ _ _ _ _ _) as [out'|] eqn:Ei; [|done]. cbn [rbind].
      apply expand_include_ok in Ei as (Hadm & k & t & child & Hrec & Hc & Ht & Hp & Hr).
      destruct levels as [|n]; [done|]. injection Hrec as <-.
      apply (IHn n) in Hr as (sub & Hsub & ->); [|done].
      intros (rest & Hrest & ->)%IH. exists (sub ++ rest). split; [by eapply flat_exec|by rewrite extend_app].
    + intros (sub & Hf & ->). apply flat_exec_inv in Hf; [|done].
      destruct Hf as (n & d' & target & t & child & s1 & s2 & -> & Hk' & Ha & Hadm & Hc & Ht & Hp & H1 & H2 & ->).
      rewrite Hk in Hk'. injection Hk' as <-. rewrite Ha. cbn [ok_or rbind].
      assert (Hi : expand_include getenv fs opts (Some (expand getenv fs opts n)) target out chain (i + 1) =
        Ok (extend out s1)).
      { apply expand_include_ok. split; [done|]. exists (expand getenv fs opts n), t, child.
        split_and!; [done..|]. apply (IHn n); [done|]. by exists s1. }
      rewrite Hi. cbn [rbind]. apply IH. exists s2. by rewrite extend_app.
  - assert (Hpush : forall (k : document -> result document cfg_error),
      (let? out := match kind l with
        | Dir d => if verb_is (verb d) "exec" then
            (let? target := ok_or (first_arg d) (WrongArgCount (Z.max p (i + 1)) (codes "exec") 1 0) in
             expand_include getenv fs opts (match levels with O => None | S n => Some (expand getenv fs opts n) end)
               target out chain (i + 1)) else Ok (push out l)
        | _ => Ok (push out l) end in k out) = k (extend out [l])).
    { intros k. unfold is_exec in He. destruct (kind l); try rewrite He; done. }
    cbv zeta. rewrite Hpush, IH. split.
    + intros (sub & Hs & ->). exists (l :: sub). split; [by constructor|by rewrite extend_app].
    + intros (sub & Hs & ->). inversion Hs; subst; [|congruence]. eexists. split; [done|by rewrite extend_app].
Qed.

Lemma expand_flat fs levels doc out chain p r :
  expand getenv fs opts levels doc out chain p = Ok r <->
  exists sub, flat getenv fs opts levels chain (lines doc) sub /\ r = extend out sub.
Proof.
  revert doc out chain p r. induction levels as [|n IH]; intros doc out chain p r; rewrite expand_eq.
  - apply (expand_lines_flat fs 0). done.
  - apply (expand_lines_flat fs (S n)). intros n' child out' at_line r' [= <-] chain'. apply IH.
Qed.

Lemma flat_no_exec fs levels chain ls out :
  flat getenv fs opts levels chain ls out -> Forall (fun l => is_exec l = false) out.
Proof. induction 1; [done|by constructor|by apply Forall_app]. Qed.

(** Two file systems that agree on the admissible paths give the same result. *)
Lemma expand_include_agree (fs1 fs2 : text -> option text) r1 r2 target out chain at_line :
  (forall target, admissible target -> fs1 (normalize_owned target) = fs2 (normalize_owned target)) ->
  match r1, r2 with
  | Some k1, Some k2 => forall child out chain at_line, k1 child out chain at_line = k2 child out chain at_line
  | None, None => True
  | _, _ => False
  end ->
  expand_include getenv fs1 opts r1 target out chain at_line =
  expand_include getenv fs2 opts r2 target out chain at_line.
Proof.
  intros Hfs Hk. unfold expand_include. destruct (admissibleb target) eqn:Ha.
  - apply admissibleb_spec in Ha. rewrite (Hfs target Ha).
    destruct (bool_decide (target = [])); [done|]. destruct (_ || _); [done|]. destruct (existsb _ _); [done|].
    destruct r1, r2; try done. case_bool_decide; [done|]. destruct (fs2 _) as [t|]; [|done]. cbn [ok_or rbind].
    destruct (parse_document _ _ _ _); [|done]. cbn [rbind]. by rewrite Hk.
  - unfold admissibleb in Ha. apply negb_false_iff in Ha.
    destruct (bool_decide (target = [])); [done|].
    destruct (starts_with [47] target || starts_with [BACKSLASH] target); [done|]. cbn in Ha. by rewrite Ha.
Qed.

Lemma expand_lines_agree inc1 inc2 ls i out p :
  (forall target out at_line, inc1 target out at_line = inc2 target out at_line) ->
  expand_lines inc1 ls i out p = expand_lines inc2 ls i out p.
Proof.
  intros Hi. revert i out. induction ls as [|l ls IH]; intros i out; [done|]. cbn [expand_lines].
  destruct (kind l) as [c| |d]; cbn [rbind]; [apply IH..|].
  destruct (verb_is _ _); cbn [rbind]; [|apply IH].
  destruct (first_arg d); cbn [ok_or rbind]; [|done]. rewrite Hi. by destruct (inc2 _ _ _); cbn [rbind].
Qed.

Lemma expand_agree fs1 fs2 levels doc out chain p :
  (forall target, admissible target -> fs1 (normalize_owned target) = fs2 (normalize_owned target)) ->
  expand getenv fs1 opts levels doc out chain p = expand getenv fs2 opts levels doc out chain p.
Proof.
  intros Hfs. revert doc out chain p. induction levels as [|n IH]; intros doc out chain p;
    rewrite !expand_eq; apply expand_lines_agree; intros target out' at_line.
  - by apply expand_include_agree.
  - apply expand_include_agree; [done|]. intros. apply IH.
Qed.

End facts.

(** ** Normalised paths have no parent component *)
Fixpoint split_slash (l : text) : list text :=
  match l with
  | [] => [[]]
  | x :: l => if x =? 47 then [] :: split_slash l
      else match split_slash l with s :: r => (x :: s) :: r | [] => [[x]] end
  end.

Lemma split_slash_normal l : split_slash (replace_char BACKSLASH [47] l) = split_path l.
Proof.
  unfold replace_char. induction l as [|x l IH]; cbn; [done|].
  destruct (x =? BACKSLASH) eqn:E; cbn.
  - by rewrite orb_true_r, IH.
  - rewrite orb_false_r. destruct (x =? 47); by rewrite IH.
Qed.

Lemma split_path_ne l : split_path l <> [].
Proof. destruct l as [|x l]; cbn; [done|]. destruct (_ || _); [done|]. by destruct (split_path l). Qed.

Lemma trim_dot_slash_no_parent n l :
  (length l <= n)%nat -> [46; 46] ∉ split_path l -> [46; 46] ∉ split_path (trim_dot_slash l).
Proof.
  revert l. induction n as [|n IH]; intros l Hl; [by destruct l; [|cbn in Hl; lia]|].
  destruct l as [|x [|y l]]; [done|by destruct x as [|p|p]; try done; repeat (destruct p as [p|p|]; try done)|].
  destruct (decide (x = 46 /\ y = 47)) as [[-> ->]|Hne].
  - intros H. cbn [trim_dot_slash]. apply IH; [cbn in Hl; lia|]. cbn in H. set_solver.
  - assert (trim_dot_slash (x :: y :: l) = x :: y :: l) as ->; [|done].
    destruct x as [|p|p]; try done. repeat (destruct p as [p|p|]; try done).
    destruct y as [|p|p]; try done. repeat (destruct p as [p|p|]; try done). naive_solver.
Qed.

Lemma normalized_no_parent target :
  admissible target -> [46; 46] ∉ split_slash (normalize_owned target).
Proof.
  intros (_ & _ & _ & H). unfold normalize_owned. rewrite split_slash_normal.
  by apply (trim_dot_slash_no_parent (length target)).
Qed.
(** ** Properties *)

(** C14: Resolving terminates for every file system and implements the relation
    [flat]: it returns a document exactly when the root parses and its lines
    flatten with at most fifteen nested includes, none of which repeats a path
    of its own chain, and the document then holds these lines and no [exec]. *)
Theorem resolve_refines_flat (getenv fs : text -> option text) (opts : parse_options) (root : text) (d : document) :
  resolve getenv fs opts root = Ok d <->
  exists t rd sub, fs root = Some t /\ parse_document getenv root t opts = Ok rd /\
    flat getenv fs opts 15 [normalize_owned root] (lines rd) sub /\
    Forall (fun l => is_exec l = false) sub /\ d = Document root sub.
Proof.
  unfold resolve. split.
  - destruct (fs root) as [t|]; [|done]. cbn [ok_or rbind].
    destruct (parse_document _ _ _ _) as [rd|] eqn:Ep; [|done]. cbn [rbind].
    intros (sub & Hs & ->)%expand_flat. exists t, rd, sub. split_and!; try done. by eapply flat_no_exec.
  - intros (t & rd & sub & -> & Hp & Hs & _ & ->). cbn [ok_or rbind]. rewrite Hp. cbn [rbind].
    apply expand_flat. by exists sub.
Qed.

(** C17: Apart from the root file, resolving reads only paths without a [..]
    component: two file systems that agree on the root and on those paths give
    the same result. *)
Theorem include_confined (getenv fs1 fs2 : text -> option text) (opts : parse_options) (root : text) :
  fs1 root = fs2 root ->
  (forall p, [46; 46] ∉ split_slash p -> fs1 p = fs2 p) ->
  resolve getenv fs1 opts root = resolve getenv fs2 opts root.
Proof.
  intros Hroot Hfs. unfold resolve. rewrite Hroot. destruct (fs2 root) as [t|]; cbn [ok_or rbind]; [|done].
  destruct (parse_document _ _ _ _) as [rd|]; cbn [rbind]; [|done].
  apply expand_agree. intros target Ha. exact (Hfs _ (normalized_no_parent target Ha)).
Qed.

Lemma include_confined_witness :
  resolve (fun _ => None) (fun p => if bool_decide (p = codes "a") then Some (codes "set x 1") else None)
    options_default (codes "a") =
  resolve (fun _ => None) (fun p => if bool_decide (p = codes "a") then Some (codes "set x 1") else
      if bool_decide (p = codes "../b") then Some (codes "set y 2") else None)
    options_default (codes "a").
Proof.
  apply (include_confined (fun _ => None)); [by vm_compute|]. intros p Hp.
  case_bool_decide; [done|]. case_bool_decide as Hb; [|done]. subst p. exfalso. apply Hp. vm_compute. by left.
Defined.

(** An absolute path does get through: the guard looks at the target before
    the leading [./] is stripped, so [exec .//etc/x] reads [/etc/x]; and the
    lines of an included file keep the line numbers of their own file. *)
Theorem include_gaps (getenv : text -> option text) :
  let fs := fun p =>
    if bool_decide (p = codes "r") then Some (codes "#" ++ [10] ++ codes "exec .//etc/x") else
    if bool_decide (p = codes "/etc/x") then Some (codes "set a 1") else None in
  exists d, resolve getenv fs options_default (codes "r") = Ok d /\
    lines d = [Line 1 [] (Comment (codes "#"));
               Line 1 [] (Dir (Directive (codes "set") [Bare (codes "a"); Bare (codes "1")] 2))].
Proof. intros fs. eexists. split; vm_compute; reflexivity. Qed.
