(* ===== verification/Normalize.v ===== *)
(** Normalisation of a server.cfg (crates/ald-servercfg/src: normalize.rs,
    secrets.rs). Warnings and error reasons are kept without the values
    formatted into them. *)
From S2P Require Import Prelude RustStr ServerCfg Includes.

(** ** Secret handles (secrets.rs) *)
Record secret_handle := SecretHandle { provider : text; key : text }.
#[global] Instance secret_handle_eq_dec : EqDecision secret_handle.
Proof. solve_decision. Defined.

Definition KNOWN_PROVIDERS : list string := ["env"; "file"; "credman"; "vault"; "kms"]%string.

Definition handle_parse (spec : text) : result secret_handle cfg_error :=
  let spec := trim_text spec in
  if bool_decide (spec = []) then Err (EmptySecret 0)
  else
    match split_once 58 spec with
    | Some ((_ :: _) as prov, key) =>
        if bool_decide (trim_text key = []) then Err (EmptySecret 0)
        else
          let prov := to_lower (trim_text prov) in
          if negb (one_of prov KNOWN_PROVIDERS) then Err (SecretProvider spec "unknown provider")
          else Ok (SecretHandle prov (trim_text key))
    | _ => Ok (SecretHandle (codes "env") spec)
    end.

Definition as_spec (h : secret_handle) : text := provider h ++ 58 :: key h.

(** [EnvProvider.resolve]. *)
Definition env_resolve (getenv : text -> option text) (h : secret_handle) : result text cfg_error :=
  ok_or (getenv (key h)) (SecretProvider (as_spec h) "environment variable not set").

(** [RedactedValue::redact]. *)
Definition redact (s : text) : text := if bool_decide (s = []) then [] else codes "***".

(** ** The normalised configuration *)
Inductive convar_scope := SLocal | SReplicated | SPublic.
#[global] Instance convar_scope_eq_dec : EqDecision convar_scope.
Proof. solve_decision. Defined.

Record convar := Convar { scope : convar_scope; cv_value : text; cv_line : Z }.
Record secret_convar := SecretConvar { handle : secret_handle; sc_line : Z }.

Inductive reload_impact := HotReloadSafe | ResourceReloadRequired | ServerRestartRequired | ImmutableRuntime.

Record ace_rule := AceRule { ace_principal : text; object : text; allow : bool; ace_line : Z }.
Record principal_rule := PrincipalRule { principal : text; parent : text; add : bool; pr_line : Z }.
Record resource_directive := ResourceDirective { action : text; res_name : text; res_line : Z }.
Inductive endpoint_transport := Tcp | Udp.
Record endpoint_spec := EndpointSpec { addr : text; transport : endpoint_transport; ep_line : Z }.

Record config := Config {
  hostname : option text; project_name : option text; project_desc : option text;
  max_clients : option Z; endpoint : option text; endpoints : list endpoint_spec;
  tags : list text; locale : option text; icon : option text; game_build : option text;
  public : bool; listing : bool; project_id : option text; server_id : option text;
  license_mode : option text; aldivine_license_key : option secret_convar;
  fivem_license_key : option text; legacy_mysql : option text;
  convars : gmap text convar; secrets : gmap text secret_convar; ace : list ace_rule;
  principals : list principal_rule; resources : list resource_directive;
  includes : list text; warnings : list (Z * string) }.

Definition config_default : config :=
  Config None None None None None [] [] None None None false false None None None None None None
    ∅ ∅ [] [] [] [] [].

(** Field updates. *)
Definition eta (c : config) : config :=
  Config (hostname c) (project_name c) (project_desc c) (max_clients c) (endpoint c) (endpoints c)
    (tags c) (locale c) (icon c) (game_build c) (public c) (listing c) (project_id c) (server_id c)
    (license_mode c) (aldivine_license_key c) (fivem_license_key c) (legacy_mysql c) (convars c)
    (secrets c) (ace c) (principals c) (resources c) (includes c) (warnings c).
Definition with_hostname : option text -> config -> config := ltac:(setter eta hostname).
Definition with_project_name : option text -> config -> config := ltac:(setter eta project_name).
Definition with_project_desc : option text -> config -> config := ltac:(setter eta project_desc).
Definition with_max_clients : option Z -> config -> config := ltac:(setter eta max_clients).
Definition with_endpoint : option text -> config -> config := ltac:(setter eta endpoint).
Definition with_endpoints : list endpoint_spec -> config -> config := ltac:(setter eta endpoints).
Definition with_tags : list text -> config -> config := ltac:(setter eta tags).
Definition with_locale : option text -> config -> config := ltac:(setter eta locale).
Definition with_icon : option text -> config -> config := ltac:(setter eta icon).
Definition with_game_build : option text -> config -> config := ltac:(setter eta game_build).
Definition with_public : bool -> config -> config := ltac:(setter eta public).
Definition with_listing : bool -> config -> config := ltac:(setter eta listing).
Definition with_project_id : option text -> config -> config := ltac:(setter eta project_id).
Definition with_server_id : option text -> config -> config := ltac:(setter eta server_id).
Definition with_license_mode : option text -> config -> config := ltac:(setter eta license_mode).
Definition with_aldivine_license_key : option secret_convar -> config -> config := ltac:(setter eta aldivine_license_key).
Definition with_fivem_license_key : option text -> config -> config := ltac:(setter eta fivem_license_key).
Definition with_legacy_mysql : option text -> config -> config := ltac:(setter eta legacy_mysql).
Definition with_convars : gmap text convar -> config -> config := ltac:(setter eta convars).
Definition with_secrets : gmap text secret_convar -> config -> config := ltac:(setter eta secrets).
Definition with_ace : list ace_rule -> config -> config := ltac:(setter eta ace).
Definition with_principals : list principal_rule -> config -> config := ltac:(setter eta principals).
Definition with_resources : list resource_directive -> config -> config := ltac:(setter eta resources).
Definition with_includes : list text -> config -> config := ltac:(setter eta includes).
Definition with_warnings : list (Z * string) -> config -> config := ltac:(setter eta warnings).

(** ** Values *)
Definition TYPED_DIRECTIVES : list string :=
  ["sv_hostname"; "sv_projectName"; "sv_projectDesc"; "sv_maxclients"; "sv_endpoint"; "sv_tags";
   "sv_locale"; "sv_icon"; "sv_gameBuild"; "sv_public"; "sv_listing"; "endpoint_add_tcp";
   "endpoint_add_udp"; "ald_projectId"; "ald_serverId"; "ald_licenseKey"; "license_mode"]%string.
Definition is_typed_directive (name : text) : bool := one_of name TYPED_DIRECTIVES.

Definition HINTS : list string :=
  ["secret"; "password"; "passwd"; "key"; "token"; "credential"; "url"; "dsn"; "connection"]%string.
Definition looks_secret (k : text) : bool := existsb (fun h => contains (codes h) (to_lower k)) HINTS.
Definition is_secret_convar (name : text) : bool := looks_secret name.
Definition redact_convar (name v : text) : text := if is_secret_convar name then redact v else v.

Definition parse_grant (raw : text) (line : Z) : result bool cfg_error :=
  let r := to_lower (trim_text raw) in
  if verb_is r "allow" then Ok true else if verb_is r "deny" then Ok false
  else Err (InvalidValue line "ace rule must be allow or deny").

Definition parse_bool (raw : text) (line : Z) : result bool cfg_error :=
  let r := to_lower (trim_text raw) in
  if one_of r ["true"; "1"; "yes"; "on"]%string then Ok true
  else if one_of r ["false"; "0"; "no"; "off"]%string then Ok false
  else Err (InvalidValue line "expects a boolean").

(** [split([',', ' '])] without the empty parts. *)
Definition split_tags (l : text) : list text :=
  List.filter (fun t => negb (bool_decide (t = [])))
    (split_on 32 (replace_char 44 [32] l)).

(** ** Appliers *)
Definition is_set_verb (v : text) : bool := one_of v ["set"; "setr"; "sets"]%string.

Definition arg_count_error (d : directive) (line : Z) (expected : nat) : cfg_error :=
  WrongArgCount line (verb d) expected (length (args d)).

(** The macro [one!]. *)
Definition one (d : directive) (line : Z) : result text cfg_error :=
  ok_or (if is_set_verb (verb d) then snd <$> kv d else first_arg d) (arg_count_error d line 1).

Definition apply_typed (c : config) (v : text) (d : directive) (line : Z) : result config cfg_error :=
  let eqv s := verb_is v s in
  if eqv "sv_hostname" then let? x := one d line in Ok (with_hostname (Some x) c)
  else if eqv "sv_projectName" then let? x := one d line in Ok (with_project_name (Some x) c)
  else if eqv "sv_projectDesc" then let? x := one d line in Ok (with_project_desc (Some x) c)
  else if eqv "sv_maxclients" then
    let? raw := one d line in
    let? n := ok_or (parse_u32 raw) (InvalidValue line "sv_maxclients must be an integer") in
    Ok (with_max_clients (Some n) c)
  else if eqv "sv_endpoint" then let? x := one d line in Ok (with_endpoint (Some x) c)
  else if eqv "sv_tags" then let? x := one d line in Ok (with_tags (split_tags x) c)
  else if eqv "sv_locale" then let? x := one d line in Ok (with_locale (Some x) c)
  else if eqv "sv_icon" then let? x := one d line in Ok (with_icon (Some x) c)
  else if eqv "sv_gameBuild" then let? x := one d line in Ok (with_game_build (Some x) c)
  else if eqv "sv_public" then
    let? x := one d line in let? b := parse_bool x line in Ok (with_public b c)
  else if eqv "sv_listing" then
    let? x := one d line in let? b := parse_bool x line in Ok (with_listing b c)
  else if eqv "ald_projectId" then let? x := one d line in Ok (with_project_id (Some x) c)
  else if eqv "ald_serverId" then let? x := one d line in Ok (with_server_id (Some x) c)
  else if eqv "license_mode" then let? x := one d line in Ok (with_license_mode (Some x) c)
  else if eqv "ald_licenseKey" then
    let? x := one d line in let? h := handle_parse x in
    Ok (with_aldivine_license_key (Some (SecretConvar h line)) c)
  else if eqv "sv_licenseKey" then
    let? x := one d line in
    let c := with_fivem_license_key (Some x) c in
    Ok (with_warnings (warnings c ++ [(line, "sv_licenseKey is a FiveM compatibility marker; it is not an Aldivine license"%string)]) c)
  else
    match first_arg d with
    | Some x => Ok (with_convars (<[v := Convar SLocal x line]> (convars c)) c)
    | None => Ok c
    end.

(** The [unreachable!()] arm is [sets]: the caller checked the three verbs. *)
Definition scope_of (v : text) : convar_scope :=
  if verb_is v "set" then SLocal else if verb_is v "setr" then SReplicated else SPublic.

Definition apply_convar (c : config) (d : directive) (line : Z) : result config cfg_error :=
  let? '(k, v) := ok_or (kv d) (arg_count_error d line 2) in
  let s := scope_of (verb d) in
  let? _ := (match convars c !! k with
    | Some existing =>
        if bool_decide (scope existing = s) then Ok tt
        else Err (InvalidValue line "convar declared with conflicting scope")
    | None => Ok tt
    end) in
  let c := with_convars (<[k := Convar s v line]> (convars c)) c in
  Ok (if verb_is k "mysql_connection_string" then with_legacy_mysql (Some v) c else c).

Definition apply_secret (c : config) (d : directive) (line : Z) : result config cfg_error :=
  let? '(k, spec) := ok_or (kv d) (arg_count_error d line 2) in
  let? h := handle_parse spec in
  Ok (with_secrets (<[k := SecretConvar h line]> (secrets c)) c).

Definition apply_resource (c : config) (d : directive) (line : Z) : result config cfg_error :=
  let? x := ok_or (first_arg d) (arg_count_error d line 1) in
  Ok (with_resources (resources c ++ [ResourceDirective (verb d) x line]) c).

Definition apply_ace (c : config) (d : directive) (line : Z) : result config cfg_error :=
  match args d with
  | p :: o :: a :: _ =>
      let? granted := parse_grant (as_str a) line in
      let allow := if verb_is (verb d) "add_ace" then granted else negb granted in
      Ok (with_ace (ace c ++ [AceRule (as_str p) (as_str o) allow line]) c)
  | _ => Err (arg_count_error d line 3)
  end.

Definition apply_principal (c : config) (d : directive) (line : Z) : result config cfg_error :=
  match args d with
  | p :: parent :: _ =>
      let add := verb_is (verb d) "add_principal" in
      Ok (with_principals (principals c ++ [PrincipalRule (as_str p) (as_str parent) add line]) c)
  | _ => Err (arg_count_error d line 2)
  end.

Definition apply_endpoint (c : config) (d : directive) (line : Z) : result config cfg_error :=
  let? a := ok_or (first_arg d) (arg_count_error d line 1) in
  let t := if verb_is (verb d) "endpoint_add_tcp" then Tcp else Udp in
  Ok (with_endpoints (endpoints c ++ [EndpointSpec a t line]) c).

Definition apply_directive (c : config) (v : text) (d : directive) (line : Z) : result config cfg_error :=
  if is_set_verb v then
    match kv d with
    | Some (k, _) => if is_typed_directive k then apply_typed c k d line else apply_convar c d line
    | None => apply_convar c d line
    end
  else if verb_is v "set_secret" then apply_secret c d line
  else if one_of v ["ensure"; "start"; "stop"; "restart"]%string then apply_resource c d line
  else if one_of v ["add_ace"; "remove_ace"]%string then apply_ace c d line
  else if one_of v ["add_principal"; "remove_principal"]%string then apply_principal c d line
  else if one_of v ["endpoint_add_tcp"; "endpoint_add_udp"]%string then apply_endpoint c d line
  else if verb_is v "exec" then Err (DirectiveForbiddenInInclude line (codes "exec"))
  else apply_typed c v d line.

(** ** Validation *)
Definition MODES : list string :=
  ["free"; "aldivine"; "paid"; "subscription"; "private"; "developer"; "beta"; "invite_only"]%string.

Definition check_public (e : text * convar) : result unit cfg_error :=
  let '(k, c) := e in
  if bool_decide (scope c = SPublic) && looks_secret k then
    Err (InvalidValue (cv_line c) "convar looks secret but is declared sets")
  else Ok tt.

Definition check_secret (getenv : text -> option text) (c : config) (e : text * secret_convar) :
    result unit cfg_error :=
  let '(k, s) := e in
  let? _ := (match convars c !! k with
    | Some x => if bool_decide (scope x <> SLocal) then
        Err (InvalidValue (cv_line x) "convar has both a secret and a replicated/public value") else Ok tt
    | None => Ok tt
    end) in
  match env_resolve getenv (handle s) with
  | Ok v => if bool_decide (v = []) then Err (EmptySecret (sc_line s)) else Ok tt
  | Err _ => Ok tt
  end.

Definition validate (getenv : text -> option text) (c : config) : result unit cfg_error :=
  let? _ := (match max_clients c with
    | Some n => if (n =? 0) || (1024 <? n) then Err (InvalidValue 0 "sv_maxclients out of range") else Ok tt
    | None => Ok tt
    end) in
  let? _ := try_each check_public (in_order (convars c)) in
  let? _ := try_each (check_secret getenv c) (in_order (secrets c)) in
  match license_mode c with
  | Some m => if one_of m MODES then Ok tt else Err (InvalidValue 0 "unknown license_mode")
  | None => Ok tt
  end.

Definition from_document (getenv : text -> option text) (doc : document) : result config cfg_error :=
  let? c := try_fold (fun c '(line, d) => apply_directive c (verb d) d line) config_default (directives doc) in
  let? _ := validate getenv c in Ok c.

Definition collect_includes (doc : document) : list text :=
  omap (fun l => match kind l with
    | Dir d => if verb_is (verb d) "exec" then first_arg d else None
    | _ => None end) (lines doc).

Definition from_root (getenv : text -> option text) (source t : text) (opts : parse_options) :
    result config cfg_error :=
  let? root := parse_document getenv source t opts in
  let? c := try_fold (fun c '(line, d) =>
      if verb_is (verb d) "exec" then Ok c else apply_directive c (verb d) d line)
    config_default (directives root) in
  let? _ := validate getenv c in
  Ok (with_includes (collect_includes root) c).

(** [NormalizedServerConfig::secret]; the value is wrapped for display. *)
Definition secret (getenv : text -> option text) (c : config) (name : text) : result text cfg_error :=
  let? s := ok_or (secrets c !! name) (SecretProvider name "no such secret convar") in
  env_resolve getenv (handle s).

Definition impact_of (k : text) : reload_impact :=
  if one_of k ["sv_hostname"; "sv_projectName"; "sv_projectDesc"; "sv_tags"; "sv_locale"; "sv_icon"; "sv_listing"]%string
  then HotReloadSafe
  else if one_of k ["sv_maxclients"; "sv_endpoint"; "endpoint_add_tcp"; "endpoint_add_udp"; "ald_serverId"]%string
  then ImmutableRuntime
  else if one_of k ["sv_public"; "license_mode"; "ald_licenseKey"]%string then ServerRestartRequired
  else ResourceReloadRequired.

(** ** Facts *)
Lemma one_of_spec v l : one_of v l = true <-> exists s, s ∈ l /\ v = codes s.
Proof. unfold one_of, verb_is. rewrite existsb_elem. by setoid_rewrite bool_decide_eq_true. Qed.

Definition handle_ok (h : secret_handle) : Prop := one_of (provider h) KNOWN_PROVIDERS = true /\ key h <> [].

Lemma handle_parse_ok s h : handle_parse s = Ok h -> handle_ok h.
Proof.
  unfold handle_parse. case_bool_decide as Hs; [done|].
  assert (Hb : handle_ok (SecretHandle (codes "env") (trim_text s))) by by split.
  destruct (split_once 58 (trim_text s)) as [[[|x p] k]|]; [by intros [= <-]| |by intros [= <-]].
  case_bool_decide; [done|]. destruct (one_of _ _) eqn:E; [|done]. by intros [= <-].
Qed.

(** What a configuration holds while directives are applied. *)
Definition ENDPOINT_VERBS : list string := ["endpoint_add_tcp"; "endpoint_add_udp"]%string.
Definition stored_ok (c : config) : Prop :=
  (forall k s, secrets c !! k = Some s -> handle_ok (handle s)) /\
  (forall s, aldivine_license_key c = Some s -> handle_ok (handle s)) /\
  (forall k, is_Some (convars c !! k) -> is_typed_directive k = true -> one_of k ENDPOINT_VERBS = true) /\
  Forall (fun r => one_of (action r) ["ensure"; "start"; "stop"; "restart"]%string = true) (resources c).

Lemma apply_typed_stored c v d line c' : stored_ok c -> apply_typed c v d line = Ok c' -> stored_ok c'.
Proof.
  intros (H1 & H2 & H3 & H4). unfold apply_typed.
  repeat match goal with
  | |- (if verb_is v ?s then _ else _) = _ -> _ => destruct (verb_is v s) eqn:?;
      [try (intros (x & _ & [= <-])%rbind_ok; by split_and!)|]
  end.
  - intros (x & _ & (n & _ & [= <-])%rbind_ok)%rbind_ok. by split_and!.
  - intros (x & _ & (n & _ & [= <-])%rbind_ok)%rbind_ok. by split_and!.
  - intros (x & _ & (n & _ & [= <-])%rbind_ok)%rbind_ok. by split_and!.
  - intros (x & _ & (h & Hh & [= <-])%rbind_ok)%rbind_ok. split_and!; [done| |done..].
    intros s [= <-]. by eapply handle_parse_ok.
  - destruct (first_arg d) as [x|]; intros [= <-]; [|by split_and!]. split_and!; [done..| |done].
    cbn. intros k Hk Ht. apply lookup_insert_is_Some in Hk as [<-|[_ Hk]]; [|by apply H3].
    unfold is_typed_directive, one_of in Ht. cbn in Ht |- *.
    repeat match goal with H : verb_is v _ = false |- _ => rewrite H in Ht; clear H end. done.
Qed.

Lemma apply_convar_stored c d line c' :
  stored_ok c -> (forall k v, kv d = Some (k, v) -> is_typed_directive k = false) ->
  apply_convar c d line = Ok c' -> stored_ok c'.
Proof.
  intros (H1 & H2 & H3 & H4) Hk. unfold apply_convar.
  intros ([k v] & Hkv & H)%rbind_ok. apply rbind_ok in H as (u & _ & [= <-]).
  destruct (kv d) as [[k' v']|]; [|done]. injection Hkv as -> ->. specialize (Hk k v eq_refl).
  assert (Hc : forall k', is_Some (<[k := Convar (scope_of (verb d)) v line]> (convars c) !! k') ->
    is_typed_directive k' = true -> one_of k' ENDPOINT_VERBS = true).
  { intros k' Hs Ht. apply lookup_insert_is_Some in Hs as [<-|[_ Hs]]; [congruence|by apply H3]. }
  by destruct (verb_is k _); split_and!.
Qed.

Lemma apply_directive_stored c d line c' :
  stored_ok c -> apply_directive c (verb d) d line = Ok c' -> stored_ok c'.
Proof.
  intros Hc. pose proof Hc as (H1 & H2 & H3 & H4). unfold apply_directive.
  destruct (is_set_verb _).
  { destruct (kv d) as [[k v]|] eqn:Ek; [|apply apply_convar_stored; [done|congruence]].
    destruct (is_typed_directive k) eqn:Et; [by apply apply_typed_stored|].
    apply apply_convar_stored; [done|]. intros k' v'. rewrite Ek. by intros [= <- <-]. }
  destruct (verb_is _ "set_secret").
  { unfold apply_secret. intros ([k s] & _ & H)%rbind_ok. apply rbind_ok in H as (h & Hh & [= <-]).
    split_and!; [|done..]. cbn. intros k' s' [[<- <-]|[_ Hs]]%lookup_insert_Some; [|by eapply H1].
    by eapply handle_parse_ok. }
  destruct (one_of (verb d) ["ensure"; _; _; _]%string) eqn:Er.
  { unfold apply_resource. intros (x & _ & [= <-])%rbind_ok. split_and!; [done..|]. cbn.
    apply Forall_app. split; [done|]. by constructor. }
  destruct (one_of _ ["add_ace"; _]%string).
  { unfold apply_ace. destruct (args d) as [|p [|o [|a l]]]; [done..|].
    intros (b & _ & [= <-])%rbind_ok. by split_and!. }
  destruct (one_of _ ["add_principal"; _]%string).
  { unfold apply_principal. destruct (args d) as [|p [|o l]]; [done..|]. intros [= <-]. by split_and!. }
  destruct (one_of _ ["endpoint_add_tcp"; _]%string).
  { unfold apply_endpoint. intros (x & _ & [= <-])%rbind_ok. by split_and!. }
  destruct (verb_is _ "exec"); [done|]. by apply apply_typed_stored.
Qed.

(** What validation adds. *)
Record valid (getenv : text -> option text) (c : config) : Prop := Valid {
  valid_clients n : max_clients c = Some n -> n <> 0 /\ n <= 1024;
  valid_public k v : convars c !! k = Some v -> scope v = SPublic -> looks_secret k = false;
  valid_exclusive k s v : secrets c !! k = Some s -> convars c !! k = Some v -> scope v = SLocal;
  valid_secret k s : secrets c !! k = Some s -> getenv (key (handle s)) <> Some [];
  valid_mode m : license_mode c = Some m -> one_of m MODES = true }.

Lemma check_secret_ok getenv c k s :
  check_secret getenv c (k, s) = Ok tt <->
  (forall v, convars c !! k = Some v -> scope v = SLocal) /\ getenv (key (handle s)) <> Some [].
Proof.
  unfold check_secret, env_resolve. destruct (convars c !! k) as [v|]; cbn.
  - case_bool_decide as Hs; cbn; [split; [done|]; intros [H _]; by destruct Hs; apply H|].
    destruct (getenv _) as [x|]; cbn; [case_bool_decide|]; naive_solver.
  - destruct (getenv _) as [x|]; cbn; [case_bool_decide|]; naive_solver.
Qed.

Lemma config_validate_ok getenv c : validate getenv c = Ok tt <-> valid getenv c.
Proof.
  unfold validate. rewrite rbind_ok. split.
  - intros ([] & Hm & H). apply rbind_ok in H as ([] & Hp & H). apply rbind_ok in H as ([] & Hs & Hl).
    apply try_each_ok in Hp, Hs. rewrite Forall_forall in Hp. rewrite Forall_forall in Hs.
    assert (Hs' : forall k s, secrets c !! k = Some s -> check_secret getenv c (k, s) = Ok tt)
      by (intros; by apply Hs, elem_of_in_order).
    split.
    + intros n Hn. rewrite Hn in Hm. destruct (n =? 0) eqn:E1, (1024 <? n) eqn:E2; try done. bool_prop. lia.
    + intros k v Hk Hv. apply elem_of_in_order, Hp in Hk.
      unfold check_public in Hk. rewrite bool_decide_eq_true_2 in Hk by done. cbn [andb] in Hk.
      by destruct (looks_secret k).
    + intros k s v Hk. apply Hs', check_secret_ok in Hk as [Hk _]. apply Hk.
    + intros k s Hk. by apply Hs', check_secret_ok in Hk as [_ Hk].
    + intros m Hm'. rewrite Hm' in Hl. by destruct (one_of m MODES).
  - intros [Hc Hp He Hs Hl]. exists tt. split.
    { destruct (max_clients c) as [n|]; [|done]. destruct (Hc n eq_refl).
      rewrite (proj2 (Z.eqb_neq n 0)), (proj2 (Z.ltb_ge 1024 n)) by done. done. }
    rewrite (proj2 (try_each_ok check_public (in_order (convars c)))); cbn [rbind].
    2:{ apply Forall_forall. intros [k v] Hk%elem_of_in_order. unfold check_public.
        case_bool_decide; [|done]. by rewrite (Hp k v). }
    rewrite (proj2 (try_each_ok (check_secret getenv c) (in_order (secrets c)))); cbn [rbind].
    2:{ apply Forall_forall. intros [k s] Hk%elem_of_in_order. apply check_secret_ok. split; [intros v; by apply (He k s v)|by apply (Hs k)]. }
    destruct (license_mode c) as [m|]; [|done]. by rewrite (Hl m).
Qed.

Lemma from_document_ok getenv doc c :
  from_document getenv doc = Ok c <->
  try_fold (fun c '(line, d) => apply_directive c (verb d) d line) config_default (directives doc) = Ok c /\
  valid getenv c.
Proof.
  unfold from_document. rewrite rbind_ok. setoid_rewrite rbind_ok. split.
  - intros (c' & Hc & [] & Hv & [= <-]). by rewrite <- config_validate_ok.
  - intros [Hc Hv]. exists c. split; [done|]. exists tt. by rewrite config_validate_ok.
Qed.

(** *** Handles survive printing *)
Lemma strip_done f n l :
  (forall l r, f l = Some r -> exists p, p <> [] /\ l = p ++ r) ->
  (length l <= n)%nat -> f [] = None -> f (strip f n l) = None.
Proof.
  intros Hf. revert l. induction n as [|n IH]; intros l Hl H0; cbn.
  - by destruct l; [|cbn in Hl; lia].
  - destruct (f l) as [r|] eqn:E; [|done]. apply IH; [|done].
    apply Hf in E as (p & Hp & ->). rewrite length_app in Hl. destruct p; [done|]. cbn in Hl. lia.
Qed.

Lemma trim_text_prefix l : exists b, trim_start_codes l = trim_text l ++ b.
Proof.
  unfold trim_text, trim_end_codes. set (t := trim_start_codes l).
  destruct (strip_suffix ws_last (length t) (rev t) ws_last_shorter) as [b Hb].
  exists (rev b). by rewrite <- rev_app_distr, <- Hb, rev_involutive.
Qed.

Lemma trim_text_trimmed l : trimmed (trim_text l).
Proof.
  split.
  - destruct (trim_text_prefix l) as [b Hb]. destruct (trim_start_split l) as (p & _ & _ & Hw).
    rewrite Hb in Hw. by apply ws_head_prefix in Hw.
  - unfold trim_text, trim_end_codes. rewrite rev_involutive.
    apply strip_done; [apply ws_last_shorter|by rewrite length_rev|done].
Qed.

Lemma known_provider p : one_of p KNOWN_PROVIDERS = true ->
  trim_text p = p /\ to_lower p = p /\ p <> [] /\ 58 ∉ p /\ (forall x, ws_head (p ++ x) = None).
Proof.
  intros (s & Hs & ->)%one_of_spec. unfold KNOWN_PROVIDERS in Hs.
  rewrite !elem_of_cons in Hs.
  destruct Hs as [->|[->|[->|[->|[->|[]%elem_of_nil]]]]];
    (split_and!; [by vm_compute..| |done]; rewrite <- list_elem_of_In || idtac; vm_compute; set_solver).
Qed.

Lemma handle_parse_spec s h : handle_parse s = Ok h -> handle_ok h /\ trimmed (key h).
Proof.
  intros H. split; [by eapply handle_parse_ok|]. revert H. unfold handle_parse. case_bool_decide; [done|].
  destruct (split_once 58 _) as [[[|x p] k]|];
    [intros [= <-]; apply trim_text_trimmed| |intros [= <-]; apply trim_text_trimmed].
  case_bool_decide; [done|]. destruct (one_of _ _); [|done]. intros [= <-]. apply trim_text_trimmed.
Qed.

Lemma as_spec_parse h : handle_ok h -> trimmed (key h) -> handle_parse (as_spec h) = Ok h.
Proof.
  destruct h as [p k]. intros [Hp Hk] [Hk1 Hk2]. cbn [provider key] in *.
  destruct (known_provider p Hp) as (Ht & Hl & Hne & Hc & Hw). unfold as_spec, handle_parse. cbn [provider key].
  rewrite trimmed_id.
  2:{ split; [apply Hw|]. rewrite rev_app_distr. cbn [rev]. rewrite <- app_assoc. cbn.
      apply ws_last_snoc; [|done|lia]. intros Hr. apply Hk. by rewrite <- (rev_involutive k), Hr. }
  rewrite bool_decide_eq_false_2 by by destruct p.
  rewrite split_once_first by done. destruct p as [|c p]; [done|].
  rewrite (trimmed_id k) by done. rewrite bool_decide_eq_false_2 by done. rewrite Ht, Hl, Hp. done.
Qed.

(** *** Roots and documents *)
Definition without_exec (doc : document) : document :=
  Document (source doc) (List.filter (fun l => negb (is_exec l)) (lines doc)).

Lemma fold_without_exec doc c :
  try_fold (fun c '(line, d) => if verb_is (verb d) "exec" then Ok c else apply_directive c (verb d) d line)
    c (directives doc) =
  try_fold (fun c '(line, d) => apply_directive c (verb d) d line) c (directives (without_exec doc)).
Proof.
  unfold directives, without_exec. cbn [lines]. revert c.
  induction (lines doc) as [|l ls IH]; intros c; [done|]. cbn [omap list_omap List.filter].
  unfold is_exec at 1. destruct (kind l) as [x| |d] eqn:E; cbn [negb].
  - cbn [omap list_omap]. rewrite E. apply IH.
  - cbn [omap list_omap]. rewrite E. apply IH.
  - destruct (verb_is (verb d) "exec") eqn:Ev; cbn [negb].
    + cbn [try_fold]. rewrite Ev. apply IH.
    + cbn [omap list_omap]. rewrite E. cbn [try_fold]. rewrite Ev.
      destruct (apply_directive _ _ _ _); [|done]. apply IH.
Qed.

Lemma validate_includes getenv l c : validate getenv (with_includes l c) = validate getenv c.
Proof. done. Qed.

(** ** Properties *)

(** C18: Every configuration read from a document is well formed: the client
    count is in 1..=1024, no public convar has a secret-looking name, a secret is
    never also replicated and never resolves to the empty string, the license
    mode is known, every handle has a known provider and a key, and a setting
    with a typed field is never left as an opaque convar, except for endpoint
    lines. *)
Theorem normalized_well_formed (getenv : text -> option text) (doc : document) (c : config) :
  from_document getenv doc = Ok c -> valid getenv c /\ stored_ok c.
Proof.
  intros [Hf Hv]%from_document_ok. split; [done|].
  eapply try_fold_inv; [|split_and!|exact Hf]; cbn; try done.
  - intros s [line d] s' _ Hs. by apply apply_directive_stored.
  - intros k [x Hx]. by rewrite lookup_empty in Hx.
Qed.

Lemma normalized_well_formed_witness :
  exists doc c, parse_document (fun _ => None) [] (codes "sv_maxclients 48") options_default = Ok doc /\
    from_document (fun _ => None) doc = Ok c /\ max_clients c = Some 48 /\
    valid (fun _ => None) c /\ stored_ok c.
Proof.
  eexists _, _. split; [vm_compute; reflexivity|]. split; [vm_compute; reflexivity|]. split; [reflexivity|].
  eapply (normalized_well_formed (fun _ => None) (Document [] [Line 1 [] (Dir (Directive (codes "sv_maxclients") [Bare (codes "48")] 1))])).
  vm_compute. reflexivity.
Defined.

(** The configuration holds references to secrets, never their values: it
    does not depend on the environment, as long as no secret that was set
    becomes empty. *)
Theorem secrets_by_reference (g1 g2 : text -> option text) (doc : document) (c : config) :
  from_document g1 doc = Ok c ->
  (forall k s, secrets c !! k = Some s -> g2 (key (handle s)) <> Some []) ->
  from_document g2 doc = Ok c.
Proof.
  rewrite !from_document_ok. intros [Hf [H1 H2 H3 H4 H5]] Hg. split; [done|]. by split.
Qed.

Lemma secrets_by_reference_witness :
  let doc := Document [] [Line 1 [] (Dir (Directive (codes "set_secret") [Bare (codes "db"); Bare (codes "env:DB")] 2))] in
  exists c, from_document (fun _ => Some (codes "pg")) doc = Ok c /\ from_document (fun _ => None) doc = Ok c.
Proof.
  intros doc. eexists. split; [vm_compute; reflexivity|].
  apply (secrets_by_reference (fun _ => Some (codes "pg"))); [vm_compute; reflexivity|]. done.
Defined.

(** A parsed handle prints to a text that parses to the same handle. *)
Theorem handle_roundtrip (s : text) (h : secret_handle) :
  handle_parse s = Ok h -> handle_parse (as_spec h) = Ok h.
Proof. intros [Hok Ht]%handle_parse_spec. by apply as_spec_parse. Qed.

Lemma handle_roundtrip_witness :
  handle_parse (codes " VAULT: db ") = Ok (SecretHandle (codes "vault") (codes "db")) /\
  handle_parse (codes "vault:db") = Ok (SecretHandle (codes "vault") (codes "db")).
Proof. split; [by vm_compute|].
  apply (handle_roundtrip (codes " VAULT: db ") (SecretHandle (codes "vault") (codes "db"))). by vm_compute.
Defined.

(** Reading a root is reading its document without the [exec] lines, and
    records their targets. *)
Theorem from_root_spec (getenv : text -> option text) (src t : text) (opts : parse_options) :
  from_root getenv src t opts =
    let? root := parse_document getenv src t opts in
    let? c := from_document getenv (without_exec root) in
    Ok (with_includes (collect_includes root) c).
Proof.
  unfold from_root, from_document. destruct (parse_document _ _ _ _) as [root|]; [|done]. cbn [rbind].
  rewrite fold_without_exec. destruct (try_fold _ _ _) as [c|]; [|done]. cbn [rbind].
  by destruct (validate getenv c).
Qed.

(** Three lines do not do what they say: [set endpoint_add_tcp a] stores a
    convar with its own name as the value and no endpoint; an unknown bare
    directive silently makes a replicated convar local; and a secret of another
    provider is read from the environment. *)
Theorem normalize_gaps :
  let dir v a := Line 1 [] (Dir (Directive (codes v) (Bare <$> (codes <$> a)) (length a))) in
  let cfg l := from_document (fun k => if bool_decide (k = codes "x") then Some (codes "v") else None) (Document [] l) in
  (exists c, cfg [dir "set" ["endpoint_add_tcp"; "0.0.0.0:1"]]%string = Ok c /\ endpoints c = [] /\
    convars c !! codes "endpoint_add_tcp" = Some (Convar SLocal (codes "endpoint_add_tcp") 1)) /\
  (exists c, cfg [dir "setr" ["foo"; "1"]; dir "foo" ["2"]]%string = Ok c /\
    convars c !! codes "foo" = Some (Convar SLocal (codes "2") 1)) /\
  (exists c, cfg [dir "set_secret" ["s"; "vault:x"]]%string = Ok c /\
    secret (fun k => if bool_decide (k = codes "x") then Some (codes "v") else None) c (codes "s") = Ok (codes "v")).
Proof. split_and!; eexists; split_and!; vm_compute; reflexivity. Qed.
