(* ===== verification/Vfs.v ===== *)
(** The resource file system (crates/ald-vfs/src/lib.rs): mounts, sharing, the
    lexical checks of a virtual path and the canonical checks around reads and
    writes. Paths are the Unix paths of [std::path]; the host file system is a
    parameter. *)
From S2P Require Import Prelude RustStr.

(** ** Paths ([std::path] on Unix) *)
Inductive component := RootDir | CurDir | ParentDir | Normal (s : text).
#[global] Instance component_eq_dec : EqDecision component.
Proof. solve_decision. Defined.

Definition SLASH : Z := 47.

(** A segment between separators; empty ones and inner dots vanish. *)
Definition segment (s : text) : option component :=
  if bool_decide (s = []) then None
  else if bool_decide (s = [46]) then None
  else if bool_decide (s = [46; 46]) then Some ParentDir
  else Some (Normal s).

Definition components (p : text) : list component :=
  match split_on SLASH p with
  | s :: segs =>
      if bool_decide (s = []) && negb (bool_decide (segs = [])) then RootDir :: omap segment segs
      else if bool_decide (s = [46]) then CurDir :: omap segment segs
      else omap segment (s :: segs)
  | [] => []
  end.

Definition has_root (p : text) : bool := starts_with [SLASH] p.

(** [PathBuf::push] and [Path::join]. *)
Definition join (p q : text) : text :=
  if has_root q then q
  else match last p with
  | None => q
  | Some c => if c =? SLASH then p ++ q else p ++ SLASH :: q
  end.

(** [Path::starts_with] compares components. *)
Definition path_starts_with (p base : text) : bool :=
  bool_decide (components base = take (length (components base)) (components p)).

Definition comp_text (c : component) : text :=
  match c with RootDir => [SLASH] | CurDir => [46] | ParentDir => [46; 46] | Normal s => s end.

(** The text of a list of components. The standard library keeps repeated
    separators inside the text of a parent; they name the same file. *)
Definition of_components (l : list component) : text := foldl (fun p c => join p (comp_text c)) [] l.

Definition parent (p : text) : option text :=
  match last (components p) with
  | None | Some RootDir => None
  | Some _ => Some (of_components (removelast (components p)))
  end.

Definition file_name (p : text) : option text :=
  match last (components p) with Some (Normal s) => Some s | _ => None end.

(** [PathBuf::pop]. *)
Definition pop (p : text) : text := default p (parent p).

(** ** Errors and mounts *)
Inductive vfs_error :=
| BadResourceName (s : text) | UnknownResource (s : text) | PathEscape (s : text)
| AbsolutePath | ReservedDevice (s : text) | AdsNotAllowed (s : text) | NonUtf8
| CrossResource (r caller : text) | NotFound (s : text) | Io.
#[global] Instance vfs_error_eq_dec : EqDecision vfs_error.
Proof. solve_decision. Defined.

Record mount := Mount { resource : text; root : text; shared_with : list text; writable : bool }.
Definition vfs := gmap text mount.
Definition vfs_new : vfs := ∅.

(** ** The host file system *)
Inductive io_kind := KindNotFound | KindOther.

Class filesystem (F : Type) := {
  fs_canonicalize : F -> text -> result text io_kind;
  fs_read : F -> text -> result text io_kind;
  fs_write : F -> text -> text -> bool * F;
  fs_rename : F -> text -> text -> bool * F;
  fs_remove : F -> text -> F;
  fs_read_dir : F -> text -> option (list (option text)) }.

(** ** Lexical checks *)
(** [trim_end_matches(' ')]. *)
Fixpoint drop_spaces (l : text) : text := match l with 32 :: l => drop_spaces l | _ => l end.
Definition trim_spaces (l : text) : text := rev (drop_spaces (rev l)).

Definition is_digit (c : Z) : bool := (48 <=? c) && (c <=? 57).

Definition strip_prefix (p l : text) : option text :=
  if starts_with p l then Some (drop (length p) l) else None.

Definition RESERVED : list string :=
  ["con"; "prn"; "aux"; "nul"; "conin$"; "conout$"; "$mft"; "$log"; "$volume"]%string.

Definition is_reserved_device_name (comp : text) : bool :=
  let stem := default comp (head (split_on 58 comp)) in
  let lower := to_lower (trim_spaces stem) in
  match (match strip_prefix (codes "com") lower with
         | Some r => Some r | None => strip_prefix (codes "lpt") lower end) with
  | Some rest =>
      bool_decide (rest = []) ||
      (forallb is_digit rest && match parse_digits 0 rest with Some n => (1 <=? n) && (n <=? 9) | None => false end)
  | None => existsb (fun s => bool_decide (lower = codes s)) RESERVED
  end.

Definition name_char (c : Z) : bool :=
  is_digit c || ((65 <=? c) && (c <=? 90)) || ((97 <=? c) && (c <=? 122)) || (c =? 95) || (c =? 45) || (c =? 46).

Definition validate_resource_name (name : text) : result unit vfs_error :=
  if bool_decide (name = []) || (64 <? Z.of_nat (length name)) then Err (BadResourceName name)
  else if bool_decide (name = [46]) || bool_decide (name = [46; 46]) then Err (BadResourceName name)
  else if negb (forallb name_char name) then Err (BadResourceName name)
  else if is_reserved_device_name name then Err (ReservedDevice name)
  else Ok tt.

Definition is_sep (c : Z) : bool := (c =? SLASH) || (c =? 92).

Definition split_virtual (virtual_path : text) : result (text * text) vfs_error :=
  let v := trim_text virtual_path in
  match v with
  | 64 :: rest =>
      let '(resource, rel) := match position is_sep rest with
        | Some i => (take i rest, drop (S i) rest)
        | None => (rest, [])
        end in
      let? _ := validate_resource_name resource in
      Ok (resource, rel)
  | _ => Err (PathEscape v)
  end.

(** The UTF-8 forms of U+0300..=U+036F, U+200B and U+202E. *)
Fixpoint confusable (l : text) : bool :=
  match l with
  | [] => false
  | c :: r =>
      match c, r with
      | 204, d :: _ => (128 <=? d) && (d <=? 191)
      | 205, d :: _ => (128 <=? d) && (d <=? 175)
      | 226, 128 :: d :: _ => (d =? 139) || (d =? 174)
      | _, _ => false
      end || confusable r
  end.
Definition is_normalized_nfc (s : text) : bool := negb (confusable s).
Definition is_ascii (s : text) : bool := forallb (fun c => c <? 128) s.

(** The traversal count; the depth stays within the length of the path. *)
Fixpoint depth_ok (depth : Z) (segs : list text) : bool :=
  match segs with
  | [] => true
  | s :: segs =>
      if bool_decide (s = []) || bool_decide (s = [46]) then depth_ok depth segs
      else if bool_decide (s = [46; 46]) then
        if depth - 1 <? 0 then false else depth_ok (depth - 1) segs
      else depth_ok (depth + 1) segs
  end.

Definition sanitize_relative (rel : text) : result text vfs_error :=
  if bool_decide (rel = []) then Ok []
  else if negb (is_ascii rel) && negb (is_normalized_nfc rel) then Err (PathEscape rel)
  else if bool_decide (0 ∈ rel) then Err (PathEscape (codes "nul byte"))
  else
    let rel := replace_char 92 [SLASH] rel in
    if starts_with [SLASH] rel || bool_decide (rel !! 1%nat = Some 58) then Err AbsolutePath
    else
      let segs := split_on SLASH rel in
      let final := default [] (last segs) in
      if bool_decide (58 ∈ final) then Err (AdsNotAllowed final)
      else
        match List.find is_reserved_device_name segs with
        | Some comp => Err (ReservedDevice comp)
        | None => if depth_ok 0 segs then Ok rel else Err (PathEscape rel)
        end.

Fixpoint within_loop (rel : text) (comps : list component) (at_start : bool) (acc : text) :
    result text vfs_error :=
  match comps with
  | [] => Ok acc
  | RootDir :: comps => if at_start then within_loop rel comps at_start acc else Err AbsolutePath
  | CurDir :: comps => within_loop rel comps at_start acc
  | ParentDir :: _ => Err (PathEscape rel)
  | Normal p :: comps => within_loop rel comps false (join acc p)
  end.

Definition verify_within (root candidate rel : text) : result unit vfs_error :=
  let? acc := within_loop rel (components candidate) (has_root root) root in
  if path_starts_with acc root then Ok tt else Err (PathEscape rel).

Definition normalize_lexical (p : text) : text :=
  foldl (fun out c =>
    match c with
    | RootDir | Normal _ => join out (comp_text c)
    | CurDir => out
    | ParentDir => pop out
    end) [] (components p).

(** ** Access and resolution *)
Definition check_access (v : vfs) (resource caller : text) : result unit vfs_error :=
  if bool_decide (resource = caller) then Ok tt
  else match v !! resource with
  | Some m => if bool_decide (caller ∈ shared_with m) then Ok tt else Err (CrossResource resource caller)
  | None => Err (CrossResource resource caller)
  end.

Definition share (v : vfs) (resource_ other : text) : result unit vfs_error * vfs :=
  match validate_resource_name resource_ with
  | Err e => (Err e, v)
  | Ok _ =>
      match validate_resource_name other with
      | Err e => (Err e, v)
      | Ok _ =>
          match v !! resource_ with
          | Some m =>
              if bool_decide (other ∈ shared_with m) then (Ok tt, v)
              else (Ok tt, <[resource_ := Mount (resource m) (root m) (shared_with m ++ [other]) (writable m)]> v)
          | None => (Err (UnknownResource resource_), v)
          end
      end
  end.

Definition resolve (v : vfs) (virtual_path caller : text) : result text vfs_error :=
  let? '(res, raw) := split_virtual virtual_path in
  let? rel := sanitize_relative raw in
  let? m := ok_or (v !! res) (UnknownResource res) in
  let? _ := check_access v res caller in
  let candidate := join (root m) rel in
  let? _ := verify_within (root m) candidate rel in
  Ok candidate.

Definition mount_count (v : vfs) : nat := size v.

(** [diagnostics]: the names, the writable ones and the sharing edges, sorted. *)
Definition sort_text (l : list text) : list text := merge_sort (fun x y => Is_true (text_leb x y)) l.
Record diagnostics := Diagnostics { d_mounts : list text; d_writable : list text; d_shared_edges : list text }.
Definition vfs_diagnostics (v : vfs) : diagnostics :=
  let ms := map_to_list v in
  Diagnostics (sort_text ms.*1)
    (sort_text (resource <$> List.filter writable ms.*2))
    (sort_text (ms.*2 ≫= fun m => (fun o => resource m ++ codes "->" ++ o) <$> shared_with m)).

(** ** Operations on the host *)
Inductive fs_op := OpWrite (p : text) | OpRename (p q : text) | OpRemove (p : text).

Section host.
Context {F : Type} `{filesystem F}.

Definition canonicalize_or (s : F) (p fallback : text) : text :=
  match fs_canonicalize s p with Ok c => c | Err _ => normalize_lexical fallback end.

Definition verify_canonical_within (s : F) (root target : text) : result unit vfs_error :=
  let root_c := canonicalize_or s root root in
  let target_c := canonicalize_or s target target in
  if bool_decide (components target_c = components root_c) then Ok tt
  else if negb (path_starts_with target_c root_c) then Err (PathEscape target_c)
  else Ok tt.

Definition mount_at (s : F) (v : vfs) (res root : text) (writable : bool) : result unit vfs_error * vfs :=
  match validate_resource_name res with
  | Err e => (Err e, v)
  | Ok _ => (Ok tt, <[res := Mount res (canonicalize_or s root root) [] writable]> v)
  end.

Definition io_error (p : text) (k : io_kind) : vfs_error :=
  match k with KindNotFound => NotFound p | KindOther => Io end.

Definition read_resolved (s : F) (target : text) : result text vfs_error :=
  match fs_canonicalize s target with
  | Err k => Err (io_error target k)
  | Ok real =>
      let? _ := verify_canonical_within s (default [] (parent target)) real in
      match fs_read s real with Ok b => Ok b | Err k => Err (io_error target k) end
  end.

Definition read (s : F) (v : vfs) (virtual_path caller : text) : result text vfs_error :=
  let? target := resolve v virtual_path caller in read_resolved s target.

(** The operations performed are recorded; [suffix] is the clock reading in
    the name of the temporary file. *)
Definition write_at (s : F) (m : mount) (rel suffix data : text) :
    result unit vfs_error * F * list fs_op :=
  let target := join (root m) rel in
  match verify_within (root m) target rel with
  | Err e => (Err e, s, [])
  | Ok _ =>
      let par := default [] (parent target) in
      if bool_decide (par = []) then (Err (PathEscape rel), s, [])
      else
        let parent_canon := canonicalize_or s par par in
        match verify_canonical_within s (root m) parent_canon with
        | Err e => (Err e, s, [])
        | Ok _ =>
            let tmp := join parent_canon (codes ".ald-tmp-" ++ suffix) in
            let '(ok, s) := fs_write s tmp data in
            if negb ok then (Err Io, s, [OpWrite tmp])
            else
              let final := join parent_canon (default [] (file_name target)) in
              match verify_canonical_within s (root m) final with
              | Err e => (Err e, s, [OpWrite tmp])
              | Ok _ =>
                  let '(ok, s) := fs_rename s tmp final in
                  if ok then (Ok tt, s, [OpWrite tmp; OpRename tmp final])
                  else (Err Io, fs_remove s tmp, [OpWrite tmp; OpRename tmp final; OpRemove tmp])
              end
        end
  end.

Definition write (s : F) (v : vfs) (virtual_path caller suffix data : text) :
    result unit vfs_error * F * list fs_op :=
  match split_virtual virtual_path with
  | Err e => (Err e, s, [])
  | Ok (res, rel) =>
      if negb (bool_decide (res = caller)) then (Err (CrossResource res caller), s, [])
      else match v !! res with
      | None => (Err (UnknownResource res), s, [])
      | Some m =>
          if negb (writable m) then (Err Io, s, [])
          else match sanitize_relative rel with
          | Err e => (Err e, s, [])
          | Ok rel => write_at s m rel suffix data
          end
      end
  end.

(** An entry that cannot be read fails the listing. *)
Fixpoint list_entries (es : list (option text)) : result (list text) vfs_error :=
  match es with
  | [] => Ok []
  | None :: _ => Err Io
  | Some n :: es =>
      let? r := list_entries es in
      Ok (if starts_with (codes ".ald-tmp-") n then r else n :: r)
  end.

Definition list_dir (s : F) (v : vfs) (virtual_dir caller : text) : result (list text) vfs_error :=
  let? dir := resolve v virtual_dir caller in
  let? es := ok_or (fs_read_dir s dir) (NotFound dir) in
  let? names := list_entries es in
  Ok (sort_text names).
End host.

(** ** Facts about paths *)
Definition good_name (s : text) : Prop := s <> [] /\ s <> [46] /\ s <> [46; 46] /\ SLASH ∉ s.

(** A component as it can occur in a path. *)
Definition comp_ok (c : component) : Prop := match c with Normal s => good_name s | _ => True end.

Lemma segment_spec s c : segment s = Some c -> SLASH ∉ s -> c = ParentDir \/ exists n, c = Normal n /\ n = s /\ good_name n.
Proof. unfold segment. repeat case_bool_decide; try done; intros [= <-] Hs; [by left|]. right. by exists s. Qed.

Lemma segments_ok l : Forall (fun s => SLASH ∉ s) l ->
  Forall (fun c => c = ParentDir \/ exists n, c = Normal n /\ good_name n) (omap segment l).
Proof.
  induction 1 as [|s l Hs _ IH]; cbn; [constructor|]. destruct (segment s) as [c|] eqn:E; [|done].
  constructor; [|done]. destruct (segment_spec _ _ E Hs) as [->|(n & -> & _ & Hn)]; [by left|right; by exists n].
Qed.

Lemma split_on_snoc c a b : split_on c (a ++ c :: b) = split_on c a ++ split_on c b.
Proof.
  induction a as [|x a IH]; cbn; [by rewrite Z.eqb_refl|].
  destruct (x =? c); rewrite IH; [done|]. pose proof (split_on_ne c a). by destruct (split_on c a).
Qed.

Lemma split_on_free_id c s : c ∉ s -> split_on c s = [s].
Proof.
  induction s as [|x s IH]; intros Hs; [done|]. cbn. rewrite (proj2 (Z.eqb_neq x c)) by set_solver.
  rewrite IH by set_solver. done.
Qed.

(** Components of [p/q]: those of [q] without a leading dot follow those of [p]. *)
Definition tail_components (q : text) : list component := omap segment (split_on SLASH q).

Lemma components_app p q : p <> [] ->
  components (p ++ SLASH :: q) = components p ++ tail_components q.
Proof.
  intros Hp. unfold components, tail_components. rewrite split_on_snoc. pose proof (split_on_ne SLASH q) as Hq.
  pose proof (split_on_ne SLASH p) as Hn.
  assert (Hp' : split_on SLASH p <> [[]]).
  { intros E. apply Hp. destruct p as [|x p]; [done|]. cbn in E. destruct (x =? SLASH).
    - injection E as E. by destruct (split_on_ne SLASH p).
    - by destruct (split_on SLASH p). }
  destruct (split_on SLASH p) as [|s segs]; [done|]. cbn [app].
  destruct (bool_decide (s = [])) eqn:Es; bool_prop.
  - subst s. destruct segs as [|t segs]; [done|]. cbn [app]. rewrite !bool_decide_eq_false_2 by done.
    cbn [andb negb]. by rewrite app_comm_cons, omap_app.
  - cbn [andb]. case_bool_decide; [by rewrite omap_app|]. by rewrite app_comm_cons, omap_app.
Qed.

Lemma omap_segment_single s : good_name s -> omap segment [s] = [Normal s].
Proof. intros (H1 & H2 & H3 & _). cbn. unfold segment. by rewrite !bool_decide_eq_false_2. Qed.

Lemma tail_name s : good_name s -> tail_components s = [Normal s].
Proof.
  intros Hs. unfold tail_components. rewrite split_on_free_id by apply Hs. by apply omap_segment_single.
Qed.

Lemma components_name s : good_name s -> components s = [Normal s].
Proof.
  intros Hs. unfold components. rewrite split_on_free_id by apply Hs.
  pose proof Hs as (H1 & H2 & _). rewrite (bool_decide_eq_false_2 (s = [])) by done. cbn [andb].
  rewrite bool_decide_eq_false_2 by done. by apply omap_segment_single.
Qed.

Lemma has_root_false s : has_root s = false -> match s with [] => True | c :: _ => c <> SLASH end.
Proof.
  unfold has_root, starts_with. destruct s as [|c s]; [done|]. cbn. rewrite take_0, bool_decide_eq_false. congruence.
Qed.

Lemma has_root_name s : SLASH ∉ s -> has_root s = false.
Proof.
  unfold has_root, starts_with. intros H. destruct s as [|c s]; [done|]. cbn. rewrite take_0, bool_decide_eq_false.
  set_solver.
Qed.

(** A path that ends in a separator has the components of the path before it. *)
Lemma last_slash p : last p = Some SLASH -> exists p', p = p' ++ [SLASH].
Proof. intros H. apply last_Some in H as [l ->]. by exists l. Qed.

Lemma components_join p q : p <> [] -> has_root q = false ->
  components (join p q) = components p ++ tail_components q.
Proof.
  intros Hp Hq. unfold join. rewrite Hq. destruct (last p) as [c|] eqn:El.
  2:{ by apply last_None in El. }
  destruct (c =? SLASH) eqn:Ec; bool_prop; [|by apply components_app].
  subst c. apply last_slash in El as (p' & ->). rewrite <- app_assoc. cbn [app].
  destruct p' as [|x p'].
  - cbn [app]. unfold components at 1, tail_components. cbn [split_on]. rewrite Z.eqb_refl.
    pose proof (split_on_ne SLASH q) as Hn. rewrite bool_decide_eq_true_2, bool_decide_eq_false_2 by done. done.
  - rewrite (components_app (x :: p') q), (components_app (x :: p') []) by done. by rewrite <- app_assoc.
Qed.

Lemma components_join_name p s : good_name s -> components (join p s) = components p ++ [Normal s].
Proof.
  intros Hs. pose proof (has_root_name s (proj2 (proj2 (proj2 Hs)))) as Hr. destruct p as [|c p].
  - unfold join. rewrite Hr. cbn. by apply components_name.
  - rewrite components_join by done. by rewrite tail_name.
Qed.

Lemma tail_ok q : Forall (fun c => c = ParentDir \/ exists n, c = Normal n /\ good_name n) (tail_components q).
Proof. apply segments_ok, split_on_free. Qed.

Lemma components_shape p :
  exists rest, components p = (if has_root p then [RootDir] else []) ++ rest /\
    RootDir ∉ rest /\ Forall comp_ok rest.
Proof.
  unfold components. pose proof (split_on_free SLASH p) as Hf.
  assert (Hseg : forall l, Forall (fun s => SLASH ∉ s) l -> RootDir ∉ omap segment l /\ Forall comp_ok (omap segment l)).
  { intros l Hl%segments_ok. rewrite Forall_forall in Hl. split.
    - intros Hin. by destruct (Hl _ Hin) as [|(n & ? & _)].
    - apply Forall_forall. intros c Hc. by destruct (Hl _ Hc) as [->|(n & -> & Hn)]. }
  assert (Hr : has_root p = true <-> exists segs, split_on SLASH p = [] :: segs /\ segs <> []).
  { destruct p as [|c p]; cbn; [split; [done|by intros (? & [= <-] & ?)]|].
    unfold has_root, starts_with. cbn. rewrite take_0, bool_decide_eq_true. pose proof (split_on_ne SLASH p) as Hn.
    destruct (c =? SLASH) eqn:Ec; bool_prop; [subst c; split; [by eauto|done]|].
    split; [intros [= E]; by rewrite E in Ec|]. destruct (split_on SLASH p); [done|]. by intros (? & ? & ?). }
  destruct (split_on SLASH p) as [|s segs] eqn:E; [by destruct (split_on_ne SLASH p)|].
  destruct (bool_decide (s = [])) eqn:Es; bool_prop.
  - subst s. case_bool_decide as Hs; cbn [andb negb].
    + subst segs. exists []. destruct (has_root p) eqn:Eh; [|split_and!; [done|apply not_elem_of_nil|done]].
      destruct (proj1 Hr eq_refl) as (x & [= <-] & ?). done.
    + rewrite (proj2 Hr) by by exists segs. exists (omap segment segs). split; [done|]. apply Hseg. by inversion Hf.
  - destruct (has_root p) eqn:Eh; [destruct (proj1 Hr eq_refl) as (x & [= ? <-] & ?); done|]. cbn [andb app].
    case_bool_decide; (eexists; split; [done|]); [|by apply Hseg].
    destruct (Hseg segs) as [H1 H2]; [by inversion Hf|]. split; [set_solver|by constructor].
Qed.

Definition names (l : list component) : list text :=
  omap (fun c => match c with Normal s => Some s | _ => None end) l.

Lemma within_no_root rel l at_start acc acc' :
  RootDir ∉ l -> within_loop rel l at_start acc = Ok acc' <-> ParentDir ∉ l /\ acc' = foldl join acc (names l).
Proof.
  revert at_start acc. induction l as [|c l IH]; intros at_start acc Hl; cbn.
  { split; [intros [= <-]; split; [apply not_elem_of_nil|done]|by intros [_ ->]]. }
  rewrite not_elem_of_cons in Hl. destruct Hl as [Hc Hl]. destruct c as [| | |s]; [done|..].
  - rewrite IH by done. rewrite not_elem_of_cons. naive_solver.
  - split; [done|]. intros [H _]. set_solver.
  - rewrite IH by done. rewrite not_elem_of_cons. naive_solver.
Qed.

Lemma components_joins p l : Forall good_name l -> components (foldl join p l) = components p ++ (Normal <$> l).
Proof.
  intros Hl. revert p. induction Hl as [|s l Hs _ IH]; intros p; cbn; [by rewrite app_nil_r|].
  rewrite IH, components_join_name by done. by rewrite <- app_assoc.
Qed.

Lemma names_ok l : Forall comp_ok l -> Forall good_name (names l).
Proof.
  unfold names. induction 1 as [|c l Hc _ IH]; cbn; [constructor|]. destruct c; try done. by constructor.
Qed.

Lemma path_starts_with_app p base l : components p = components base ++ l -> path_starts_with p base = true.
Proof. intros H. unfold path_starts_with. rewrite H, take_app_length. by apply bool_decide_eq_true. Qed.

Lemma path_starts_with_spec p base : path_starts_with p base = true <-> exists l, components p = components base ++ l.
Proof.
  split; [|intros [l Hl]; by eapply path_starts_with_app].
  unfold path_starts_with. rewrite bool_decide_eq_true. intros H. exists (drop (length (components base)) (components p)).
  rewrite <- (take_drop (length (components base)) (components p)) at 1. by rewrite <- H.
Qed.

Lemma tail_no_root q : RootDir ∉ tail_components q.
Proof.
  pose proof (tail_ok q) as H. rewrite Forall_forall in H. intros Hin. by destruct (H _ Hin) as [|(n & ? & _)].
Qed.

Lemma join_shape root rel : has_root rel = false ->
  exists rest, components (join root rel) = (if has_root root then [RootDir] else []) ++ rest /\
    RootDir ∉ rest /\ Forall comp_ok rest.
Proof.
  intros Hr. destruct root as [|c r].
  - unfold join. rewrite Hr. cbn [last]. destruct (components_shape rel) as (rest & H1 & H2 & H3).
    rewrite Hr in H1. exists rest. by rewrite H1.
  - rewrite components_join by done. destruct (components_shape (c :: r)) as (rest & -> & H2 & H3).
    exists (rest ++ tail_components rel). rewrite app_assoc. split_and!; [done| |].
    + rewrite elem_of_app. intros [?|?]; [done|]. by eapply tail_no_root.
    + apply Forall_app. split; [done|]. eapply Forall_impl; [apply tail_ok|].
      intros x [->|(n & -> & Hn)]; done.
Qed.

Lemma verify_within_join root rel : has_root rel = false ->
  verify_within root (join root rel) rel = Ok tt <-> ParentDir ∉ components (join root rel).
Proof.
  intros Hr. unfold verify_within. destruct (join_shape root rel Hr) as (rest & Hc & Hn & Hok).
  assert (Hloop : forall acc, within_loop rel (components (join root rel)) (has_root root) acc =
    within_loop rel rest (has_root root) acc).
  { intros acc. rewrite Hc. by destruct (has_root root). }
  rewrite Hloop. assert (Hp : ParentDir ∈ components (join root rel) <-> ParentDir ∈ rest).
  { rewrite Hc. destruct (has_root root); set_solver. }
  rewrite Hp. destruct (within_loop rel rest (has_root root) root) as [acc|e] eqn:E; cbn [rbind].
  - apply within_no_root in E as [E1 ->]; [|done].
    rewrite (path_starts_with_app _ _ (Normal <$> names rest)); [done|]. by apply components_joins, names_ok.
  - split; [done|]. intros H. pose proof (proj2 (within_no_root rel rest (has_root root) root _ Hn) (conj H eq_refl)).
    congruence.
Qed.

(** ** Absolute paths *)
Definition abs (l : list text) : list component := RootDir :: (Normal <$> l).

Lemma absolute_components p : has_root p = true ->
  exists l, components p = RootDir :: l /\ Forall (fun c => c = ParentDir \/ exists n, c = Normal n /\ good_name n) l.
Proof.
  destruct p as [|c p]; [done|]. unfold has_root, starts_with. cbn [take length].
  rewrite take_0, bool_decide_eq_true. intros [= <-]. exists (tail_components p). split; [|apply tail_ok].
  unfold components. change 47 with SLASH. cbn [split_on]. rewrite Z.eqb_refl.
  rewrite bool_decide_eq_true_2 by done. pose proof (split_on_ne SLASH p).
  by rewrite bool_decide_eq_false_2.
Qed.

Lemma normals l : Forall (fun c => c = ParentDir \/ exists n, c = Normal n /\ good_name n) l -> ParentDir ∉ l ->
  exists ns, l = Normal <$> ns /\ Forall good_name ns.
Proof.
  induction 1 as [|c l Hc _ IH]; intros Hp; [by exists []|]. rewrite not_elem_of_cons in Hp. destruct Hp as [Hp1 Hp2].
  destruct IH as (ns & -> & Hns); [done|]. destruct Hc as [->|(n & -> & Hn)]; [done|].
  exists (n :: ns). split; [done|by constructor].
Qed.

Lemma absolute_names p : has_root p = true -> ParentDir ∉ components p ->
  exists ns, components p = abs ns /\ Forall good_name ns.
Proof.
  intros Hr Hp. destruct (absolute_components p Hr) as (l & Hl & Hok). rewrite Hl, not_elem_of_cons in Hp.
  destruct (normals l Hok) as (ns & -> & Hns); [apply Hp|]. by exists ns.
Qed.

Lemma of_components_abs ns : Forall good_name ns -> components (of_components (abs ns)) = abs ns.
Proof.
  intros Hns. unfold of_components, abs. cbn [foldl comp_text]. change (join [] [SLASH]) with [SLASH].
  assert (Hf : forall p, foldl (fun p c => join p (comp_text c)) p (Normal <$> ns) = foldl join p ns).
  { clear Hns. induction ns as [|n ns IH]; intros p; [done|]. apply IH. }
  rewrite Hf, components_joins by done. done.
Qed.

Lemma normalize_of_abs p ns : components p = abs ns -> normalize_lexical p = of_components (abs ns).
Proof.
  intros H. unfold normalize_lexical, of_components. rewrite H. unfold abs. cbn [foldl].
  generalize (join [] (comp_text RootDir)). clear H. induction ns as [|n ns IH]; intros q; [done|]. apply IH.
Qed.

Lemma parent_abs p ns : components p = abs ns ->
  parent p = match ns with [] => None | _ => Some (of_components (abs (removelast ns))) end /\
  file_name p = last ns.
Proof.
  intros H. unfold parent, file_name. rewrite H. destruct ns as [|n ns _] using rev_ind; [done|].
  unfold abs. rewrite fmap_app. cbn [fmap list_fmap]. rewrite app_comm_cons, !last_snoc. split; [|done].
  rewrite !removelast_last. by destruct ns.
Qed.

(** ** Facts about the lexical checks *)
Lemma sanitize_relative_ok raw rel : sanitize_relative raw = Ok rel ->
  has_root rel = false /\ 0 ∉ rel /\ Forall (fun s => is_reserved_device_name s = false) (split_on SLASH rel).
Proof.
  unfold sanitize_relative. case_bool_decide as E0.
  { intros [= <-]. split_and!; [done|apply not_elem_of_nil|]. by repeat constructor. }
  destruct (_ && _); [done|]. case_bool_decide as Hnul; [done|]. set (r := replace_char 92 [SLASH] raw).
  destruct (starts_with [SLASH] r) eqn:Er; [done|]. cbn [orb]. case_bool_decide; [done|].
  case_bool_decide; [done|]. destruct (List.find _ _) as [c|] eqn:Ef; [done|].
  destruct (depth_ok _ _); [|done]. intros [= <-]. split_and!; [done| |by apply find_None_Forall].
  unfold r, replace_char. intros Hin. apply list_elem_of_In, in_concat in Hin as (x & Hx & Hin).
  apply list_elem_of_In, list_elem_of_fmap in Hx as (y & -> & Hy). apply list_elem_of_In in Hin.
  destruct (y =? 92) eqn:Ey; bool_prop; [unfold SLASH in Hin; set_solver|set_solver].
Qed.

Lemma elem_of_segment s l x : s ∈ split_on SLASH l -> x ∈ s -> x ∈ l.
Proof.
  revert s. induction l as [|c l IH]; intros s; cbn [split_on].
  { intros ->%list_elem_of_singleton. done. }
  destruct (c =? SLASH).
  { intros [->|Hs]%elem_of_cons; [by intros ?%elem_of_nil|]. intros Hx. right. by apply (IH s). }
  pose proof (split_on_ne SLASH l). destruct (split_on SLASH l) as [|t r]; [done|].
  intros [->|Hs]%elem_of_cons.
  - intros [->|Hx]%elem_of_cons; [by left|]. right. apply (IH t); [by left|done].
  - intros Hx. right. apply (IH s); [by right|done].
Qed.

Definition safe_name (n : text) : Prop := good_name n /\ is_reserved_device_name n = false /\ 0 ∉ n.

Lemma tail_safe rel ns : 0 ∉ rel -> Forall (fun s => is_reserved_device_name s = false) (split_on SLASH rel) ->
  tail_components rel = Normal <$> ns -> Forall safe_name ns.
Proof.
  intros H0 Hr Ht. rewrite Forall_forall in Hr |- *. intros n Hn.
  assert (Hin : Normal n ∈ tail_components rel) by (rewrite Ht; by apply list_elem_of_fmap_2).
  unfold tail_components in Hin. apply list_elem_of_omap in Hin as (s & Hs & Hseg).
  pose proof (split_on_free SLASH rel) as Hf. rewrite Forall_forall in Hf.
  destruct (segment_spec _ _ Hseg (Hf _ Hs)) as [|(m & [= <-] & -> & Hm)]; [done|].
  split_and!; [done|by apply Hr|]. intros Hz. apply H0. by eapply elem_of_segment.
Qed.

(** A mounted root is absolute and without parent components. *)
Definition mount_ok (m : mount) : Prop := has_root (root m) = true /\ ParentDir ∉ components (root m).

Lemma candidate_names m rel : mount_ok m -> has_root rel = false ->
  ParentDir ∉ components (join (root m) rel) ->
  exists ns, tail_components rel = Normal <$> ns /\
    components (join (root m) rel) = components (root m) ++ (Normal <$> ns).
Proof.
  intros [Hr _] Hrel Hp. rewrite components_join in * by (done || by intros E; rewrite E in Hr).
  rewrite not_elem_of_app in Hp. destruct (normals _ (tail_ok rel)) as (ns & Hns & _); [apply Hp|].
  exists ns. by rewrite Hns.
Qed.

Lemma check_access_ok v res caller m : v !! res = Some m ->
  check_access v res caller = Ok tt <-> res = caller \/ caller ∈ shared_with m.
Proof.
  intros Hm. unfold check_access. rewrite Hm. repeat case_bool_decide; naive_solver.
Qed.

Lemma resolve_ok v vp caller p :
  resolve v vp caller = Ok p <->
  exists res raw rel m, split_virtual vp = Ok (res, raw) /\ sanitize_relative raw = Ok rel /\ v !! res = Some m /\
    (res = caller \/ caller ∈ shared_with m) /\ p = join (root m) rel /\ ParentDir ∉ components p.
Proof.
  unfold resolve. split.
  - destruct (split_virtual vp) as [[res raw]|] eqn:Es; cbn [rbind]; [|done].
    destruct (sanitize_relative raw) as [rel|] eqn:Er; cbn [rbind]; [|done].
    destruct (v !! res) as [m|] eqn:Em; cbn [ok_or rbind]; [|done].
    destruct (check_access v res caller) as [[]|] eqn:Ea; cbn [rbind]; [|done].
    destruct (verify_within _ _ _) as [[]|] eqn:Ev; cbn [rbind]; [|done]. intros [= <-].
    apply (check_access_ok _ _ _ _ Em) in Ea.
    apply verify_within_join in Ev; [|by eapply sanitize_relative_ok].
    by exists res, raw, rel, m.
  - intros (res & raw & rel & m & -> & Hs & Hm & Ha & -> & Hp). cbn [rbind]. rewrite Hs. cbn [rbind].
    rewrite Hm. cbn [ok_or rbind]. rewrite (proj2 (check_access_ok _ _ _ _ Hm) Ha). cbn [rbind].
    by rewrite (proj2 (verify_within_join (root m) rel (proj1 (sanitize_relative_ok _ _ Hs))) Hp).
Qed.

(** ** Writes *)
(** What [fs::canonicalize] documents: an absolute path with every component
    normalised and links resolved, so canonicalising it again changes nothing. *)
Class filesystem_laws (F : Type) `{filesystem F} := {
  canonical_clean s p c : fs_canonicalize s p = Ok c ->
    exists ns, components c = abs ns /\ Forall good_name ns;
  canonical_idem s p c : fs_canonicalize s p = Ok c -> fs_canonicalize s c = Ok c }.

Definition op_paths (o : fs_op) : list text :=
  match o with OpWrite p | OpRemove p => [p] | OpRename p q => [p; q] end.

(** [p] lies strictly inside [base] with no parent component on the way. *)
Definition inside (base p : text) : Prop :=
  exists l, components p = components base ++ l /\ l <> [] /\ ParentDir ∉ l.

Section host_facts.
Context {F : Type} `{filesystem_laws F}.

Lemma abs_no_parent ns : ParentDir ∉ abs ns.
Proof. unfold abs. rewrite not_elem_of_cons, list_elem_of_fmap. split; [done|]. by intros (? & ? & _). Qed.

Lemma share_ok (v : vfs) r other : map_Forall (fun _ m => mount_ok m) v ->
  map_Forall (fun _ m => mount_ok m) (share v r other).2.
Proof.
  intros Hv. unfold share. destruct (validate_resource_name r); [|done].
  destruct (validate_resource_name other); [|done]. destruct (v !! r) as [m|] eqn:Em; [|done].
  case_bool_decide; [done|]. apply map_Forall_insert_2; [|done]. exact (Hv _ _ Em).
Qed.

Lemma normalize_lexical_abs p : has_root p = true ->
  exists ns, Forall good_name ns /\ normalize_lexical p = of_components (abs ns).
Proof.
  intros Hr. destruct (absolute_components p Hr) as (l & Hl & Hok). unfold normalize_lexical. rewrite Hl. cbn [foldl comp_text].
  change (join [] [SLASH]) with (of_components (abs [])). clear Hl.
  generalize (Forall_nil_2 good_name). generalize (@nil text).
  induction Hok as [|c l Hc _ IH]; intros ns Hns; cbn [foldl]; [by exists ns|].
  destruct Hc as [->|(n & -> & Hn)].
  - unfold pop. destruct (parent_abs _ _ (of_components_abs ns Hns)) as [-> _].
    destruct ns as [|n ns]; [by apply IH|]. cbn [default]. apply IH.
    destruct (exists_last (l := n :: ns)) as (ns' & x & E'); [done|]. rewrite E' in Hns |- *.
    rewrite removelast_last. by apply Forall_app in Hns as [? _].
  - assert (of_components (abs (ns ++ [n])) = join (of_components (abs ns)) (comp_text (Normal n))) as <-.
    { unfold of_components, abs. rewrite fmap_app. cbn [foldl]. by rewrite foldl_app. }
    apply IH. apply Forall_app. split; [done|]. by constructor.
Qed.

Lemma mount_at_ok (s : F) v res root_ w : map_Forall (fun _ m => mount_ok m) v -> has_root root_ = true ->
  map_Forall (fun _ m => mount_ok m) (mount_at s v res root_ w).2.
Proof.
  intros Hv Hr. unfold mount_at. destruct (validate_resource_name res); [|done]. cbn [snd].
  apply map_Forall_insert_2; [|done]. unfold mount_ok, canonicalize_or. cbn [root].
  assert (Habs : forall c ns, components c = abs ns -> has_root c = true /\ ParentDir ∉ components c).
  { intros c ns Hc. rewrite Hc. split; [|apply abs_no_parent].
    destruct (has_root c) eqn:E; [done|]. destruct (components_shape c) as (rest & Hs & Hn & _).
    rewrite E, Hc in Hs. cbn in Hs. destruct Hn. rewrite <- Hs. by left. }
  destruct (fs_canonicalize s root_) as [c|k] eqn:E.
  - apply canonical_clean in E as (ns & Hc & _). by eapply Habs.
  - destruct (normalize_lexical_abs root_ Hr) as (ns & Hns & ->). eapply Habs. by apply of_components_abs.
Qed.

(** The canonical parent of a target that passed the check lies in the root. *)
Lemma parent_within (s : F) (rt par : text) (ps : list text) :
  components par = abs ps -> par = of_components (abs ps) -> Forall good_name ps ->
  verify_canonical_within s rt (canonicalize_or s par par) = Ok tt ->
  exists l, components (canonicalize_or s par par) = components (canonicalize_or s rt rt) ++ l /\ ParentDir ∉ l.
Proof.
  intros Hpar Htext Hps Hv. set (pc := canonicalize_or s par par) in *.
  assert (Hpc : canonicalize_or s pc pc = pc /\ ParentDir ∉ components pc).
  { destruct (fs_canonicalize s par) as [c|k] eqn:E.
    - assert (pc = c) as -> by (unfold pc, canonicalize_or; by rewrite E).
      unfold canonicalize_or. rewrite (canonical_idem _ _ _ E). split; [done|].
      apply canonical_clean in E as (ns & -> & _). apply abs_no_parent.
    - assert (Hn : normalize_lexical par = par) by (by rewrite (normalize_of_abs _ _ Hpar)).
      assert (pc = par) as -> by (unfold pc, canonicalize_or; by rewrite E).
      unfold canonicalize_or. rewrite E, Hn, Hpar. split; [done|apply abs_no_parent]. }
  destruct Hpc as [Hid Hnp]. unfold verify_canonical_within in Hv. rewrite Hid in Hv.
  assert (Hl : exists l, components pc = components (canonicalize_or s rt rt) ++ l).
  { case_bool_decide as Hc; [exists []; by rewrite app_nil_r|].
    destruct (path_starts_with _ _) eqn:Es; [|done]. by apply path_starts_with_spec. }
  destruct Hl as [l Hl]. exists l. split; [done|]. rewrite Hl, not_elem_of_app in Hnp. apply Hnp.
Qed.

Lemma inside_join (base pc n : text) l :
  components pc = components base ++ l -> ParentDir ∉ l -> good_name n -> inside base (join pc n).
Proof.
  intros Hc Hl Hn. exists (l ++ [Normal n]). rewrite components_join_name by done. rewrite Hc, <- app_assoc.
  split_and!; [done|by destruct l|]. rewrite not_elem_of_app. split; [done|]. by rewrite list_elem_of_singleton.
Qed.

Lemma tmp_good suffix : SLASH ∉ suffix -> good_name (codes ".ald-tmp-" ++ suffix).
Proof.
  intros Hs. split_and!; [done..|]. rewrite elem_of_app. intros [Hin|Hin]; [|done].
  apply list_elem_of_In in Hin. vm_compute in Hin. intuition congruence.
Qed.

Lemma write_at_inside (s s' : F) m rel suffix data r ops :
  mount_ok m -> has_root rel = false -> SLASH ∉ suffix ->
  write_at s m rel suffix data = (r, s', ops) ->
  Forall (fun o => Forall (inside (canonicalize_or s (root m) (root m))) (op_paths o)) ops.
Proof.
  intros Hm Hrel Hsuf. unfold write_at.
  destruct (verify_within _ _ _) as [[]|] eqn:Ev; [|by intros [= <- <- <-]].
  apply verify_within_join in Ev; [|done].
  destruct (candidate_names m rel Hm Hrel Ev) as (ns & _ & Hc).
  destruct (absolute_names (root m)) as (rs & Hrs & Hrok); [apply Hm..|].
  assert (Ht : exists ts, components (join (root m) rel) = abs ts /\ Forall good_name ts).
  { apply absolute_names; [|done]. destruct (has_root (join (root m) rel)) eqn:E; [done|].
    destruct (components_shape (join (root m) rel)) as (rest & Hs & Hn & _). rewrite E, Hc, Hrs in Hs. cbn in Hs.
    destruct Hn. rewrite <- Hs. by left. }
  clear Hc ns. destruct Ht as (ts & Ht & Htok). destruct (parent_abs _ _ Ht) as [Hp Hf]. rewrite Hp, Hf.
  destruct ts as [|t ts _] using rev_ind; [cbn; by intros [= <- <- <-]|].
  apply Forall_app in Htok as [Htok Hlast%Forall_inv]. rewrite removelast_last, last_snoc.
  replace (match ts ++ [t] with [] => None | _ :: _ => Some (of_components (abs ts)) end)
    with (Some (of_components (abs ts))) by by destruct ts.
  cbn [from_option]. unfold id. set (par := of_components (abs ts)).
  case_bool_decide; [by intros [= <- <- <-]|].
  destruct (verify_canonical_within s (root m) (canonicalize_or s par par)) as [[]|] eqn:Epc; [|by intros [= <- <- <-]].
  apply (parent_within s (root m) par ts) in Epc as (l & Hl & Hnp); [|by apply of_components_abs|done..].
  assert (Htmp : inside (canonicalize_or s (root m) (root m)) (join (canonicalize_or s par par) (codes ".ald-tmp-" ++ suffix)))
    by (eapply inside_join; [done..|by apply tmp_good]).
  assert (Hfin : inside (canonicalize_or s (root m) (root m)) (join (canonicalize_or s par par) t))
    by (eapply inside_join; done).
  destruct (fs_write s _ data) as [ok s1]. destruct ok; cbn [negb]; [|intros [= <- <- <-]; by repeat constructor].
  destruct (verify_canonical_within _ _ _); [|intros [= <- <- <-]; by repeat constructor].
  destruct (fs_rename _ _ _) as [ok s2]. destruct ok; intros [= <- <- <-]; by repeat constructor.
Qed.
End host_facts.

(** ** A host with one directory link: [/m/link] leads to [/out] *)
Definition follow (ns : list text) : list text :=
  match ns with
  | m :: l :: ns =>
      if bool_decide (m = codes "m") && bool_decide (l = codes "link") then codes "out" :: ns else m :: l :: ns
  | _ => ns
  end.

Definition all_names (l : list component) : bool :=
  forallb (fun c => match c with Normal _ => true | _ => false end) l.

#[global] Instance link_fs : filesystem unit := {|
  fs_canonicalize _ p :=
    match components p with
    | RootDir :: l => if all_names l then Ok (of_components (abs (follow (names l)))) else Err KindOther
    | _ => Err KindOther
    end;
  fs_read _ p := if bool_decide (p = codes "/out/s") then Ok (codes "secret") else Err KindNotFound;
  fs_write _ _ _ := (true, tt);
  fs_rename _ _ _ := (true, tt);
  fs_remove _ _ := tt;
  fs_read_dir _ _ := None |}.

Lemma follow_good ns : Forall good_name ns -> Forall good_name (follow ns).
Proof.
  intros Hns. unfold follow. destruct ns as [|m [|l ns]]; [done..|]. destruct (_ && _); [|done].
  constructor; [|exact (Forall_inv_tail (Forall_inv_tail Hns))].
  split_and!; [done..|]. intros Hin. apply list_elem_of_In in Hin. vm_compute in Hin. intuition congruence.
Qed.

Lemma follow_idem ns : follow (follow ns) = follow ns.
Proof.
  unfold follow. destruct ns as [|m [|l ns]]; [done..|]. destruct (_ && _) eqn:E; [|by rewrite E].
  by destruct ns.
Qed.

Lemma names_normals ns : names (Normal <$> ns) = ns.
Proof. unfold names. induction ns as [|n ns IH]; cbn; [done|]. by f_equal. Qed.

Lemma all_names_normals ns : all_names (Normal <$> ns) = true.
Proof. induction ns; [done|done]. Qed.

#[global] Instance link_fs_laws : filesystem_laws unit.
Proof.
  assert (Hc : forall p c, fs_canonicalize tt p = Ok c -> exists ns, Forall good_name ns /\ c = of_components (abs (follow ns))).
  { intros p c. cbn. destruct (components_shape p) as (rest & Hs & Hn & Hok). rewrite Hs.
    destruct (has_root p); cbn [app]; [|destruct rest as [|[] rest]; try done; by destruct Hn; left].
    destruct (all_names rest); [|done]. intros [= <-]. exists (names rest). split; [by apply names_ok|done]. }
  split.
  - intros [] p c (ns & Hns & ->)%Hc. exists (follow ns). split; [|by apply follow_good].
    by apply of_components_abs, follow_good.
  - intros [] p c (ns & Hns & ->)%Hc. cbn [fs_canonicalize link_fs]. rewrite of_components_abs by by apply follow_good.
    unfold abs at 1. by rewrite all_names_normals, names_normals, follow_idem.
Qed.

(** ** Properties *)

(** A resolved path lies under the root of the mount it names, only its own
    resource or one it is shared with gets it, and every component added to the
    root is an ordinary name: no parent component, separator or NUL, no reserved
    device name. *)
Theorem resolve_confined (v : vfs) (vp caller p : text) :
  map_Forall (fun _ m => mount_ok m) v -> resolve v vp caller = Ok p ->
  exists res m ns, v !! res = Some m /\ (res = caller \/ caller ∈ shared_with m) /\
    components p = components (root m) ++ (Normal <$> ns) /\ Forall safe_name ns.
Proof.
  intros Hv (res & raw & rel & m & _ & Hs & Hm & Ha & -> & Hp)%resolve_ok.
  apply sanitize_relative_ok in Hs as (Hr & H0 & Hres).
  destruct (candidate_names m rel (Hv _ _ Hm) Hr Hp) as (ns & Hns & Hc).
  exists res, m, ns. split_and!; [done..|]. by eapply tail_safe.
Qed.

Lemma resolve_confined_witness :
  let v := {[codes "a" := Mount (codes "a") (codes "/r/a") [codes "b"] true]} : vfs in
  resolve v (codes "@a/x/./y") (codes "b") = Ok (codes "/r/a/x/./y") /\
  exists res m ns, v !! res = Some m /\ (res = codes "b" \/ codes "b" ∈ shared_with m) /\
    components (codes "/r/a/x/./y") = components (root m) ++ (Normal <$> ns) /\ Forall safe_name ns.
Proof.
  intros v. assert (Hr : resolve v (codes "@a/x/./y") (codes "b") = Ok (codes "/r/a/x/./y")) by by vm_compute.
  split; [done|]. apply (resolve_confined v (codes "@a/x/./y")); [|done].
  apply map_Forall_singleton. split; [done|]. refine (bool_decide_unpack _ _). by vm_compute.
Defined.

(** C13: Whatever the host answers, every path a write touches lies strictly
    inside the canonical root of the caller's own, writable mount. *)
Theorem write_confined {F : Type} `{filesystem_laws F} (s s' : F) (v : vfs) (vp caller suffix data : text)
    (r : result unit vfs_error) (ops : list fs_op) :
  map_Forall (fun _ m => mount_ok m) v -> SLASH ∉ suffix ->
  write s v vp caller suffix data = (r, s', ops) ->
  ops = [] \/
  exists m, v !! caller = Some m /\ writable m = true /\
    Forall (fun o => Forall (inside (canonicalize_or s (root m) (root m))) (op_paths o)) ops.
Proof.
  intros Hv Hsuf. unfold write. destruct (split_virtual vp) as [[res rel]|]; [|intros [= _ _ <-]; by left].
  case_bool_decide; cbn [negb]; [subst res|intros [= _ _ <-]; by left].
  destruct (v !! caller) as [m|] eqn:Em; [|intros [= _ _ <-]; by left].
  destruct (writable m) eqn:Ew; cbn [negb]; [|intros [= _ _ <-]; by left].
  destruct (sanitize_relative rel) as [rel'|] eqn:Es; [|intros [= _ _ <-]; by left].
  intros Hw. right. exists m. split_and!; [done..|].
  eapply write_at_inside; [by apply (Hv caller)| |done|exact Hw]. by eapply sanitize_relative_ok.
Qed.

Lemma write_confined_witness :
  let v := {[codes "a" := Mount (codes "a") (codes "/m") [] true]} : vfs in
  let ops := [OpWrite (codes "/m/d/.ald-tmp-1"); OpRename (codes "/m/d/.ald-tmp-1") (codes "/m/d/x")] in
  write tt v (codes "@a/d/x") (codes "a") (codes "1") (codes "data") = (Ok tt, tt, ops) /\
  (ops = [] \/
   exists m, v !! codes "a" = Some m /\ writable m = true /\
     Forall (fun o => Forall (inside (canonicalize_or tt (root m) (root m))) (op_paths o)) ops).
Proof.
  intros v ops.
  assert (Hw : write tt v (codes "@a/d/x") (codes "a") (codes "1") (codes "data") = (Ok tt, tt, ops)) by by vm_compute.
  split; [done|]. apply (write_confined tt tt v (codes "@a/d/x") (codes "a") (codes "1") (codes "data") (Ok tt) ops); [| |done].
  - apply map_Forall_singleton. split; [done|]. refine (bool_decide_unpack _ _). by vm_compute.
  - refine (bool_decide_unpack _ _). by vm_compute.
Defined.

(** Reads are not confined: the check compares the real file with its own
    parent directory instead of the mount root, so a linked directory leads out
    of the sandbox, on a host that keeps every law, although the same path is
    refused for a write. *)
Theorem read_escapes :
  let v := {[codes "a" := Mount (codes "a") (codes "/m") [] true]} : vfs in
  read tt v (codes "@a/link/s") (codes "a") = Ok (codes "secret") /\
  fs_canonicalize tt (codes "/m/link/s") = Ok (codes "/out/s") /\
  ~ inside (codes "/m") (codes "/out/s") /\
  write tt v (codes "@a/link/s") (codes "a") (codes "1") [] = (Err (PathEscape (codes "/out")), tt, []).
Proof.
  intros v. split_and!; [by vm_compute..| |by vm_compute].
  intros (l & Hl & _). vm_compute in Hl. congruence.
Qed.

(** Lexical divergences: a stream name in an inner component passes, [com]
    alone counts as a reserved device, and a backtracking path that the
    sanitiser calls legal is refused by the resolver. *)
Theorem lexical_gaps :
  let v := {[codes "r" := Mount (codes "r") (codes "/r") [] true]} : vfs in
  sanitize_relative (codes "f.txt:evil/x") = Ok (codes "f.txt:evil/x") /\
  validate_resource_name (codes "com") = Err (ReservedDevice (codes "com")) /\
  sanitize_relative (codes "a/../b") = Ok (codes "a/../b") /\
  resolve v (codes "@r/a/../b") (codes "r") = Err (PathEscape (codes "a/../b")).
Proof. by vm_compute. Qed.
