(* ===== verification/Persistence.v ===== *)
(** The journal and its checkpoints (crates/ald-persistence/src/lib.rs): record
    framing, recovery, and the disk steps of each operation, cut anywhere by a
    crash; sequence numbers are the source's [u64], which wrap. SHA-256 is a parameter of which only the digest length is used. *)
From S2P Require Import Prelude RustStr Bytes.

Definition MAX_KEY_LEN : Z := 256.
Definition MAX_VALUE_LEN : Z := 1048576.
Definition MAX_PAYLOAD : Z := 64 * 1024 * 1024.
Definition CHECKPOINT_MAGIC : list Z := codes "ALDCKPT1".

Inductive op := Put | Delete.
#[global] Instance op_eq_dec : EqDecision op.
Proof. solve_decision. Defined.

Record record := Rec { seq : Z; rop : op; key : text; value : list Z }.
#[global] Instance record_eq_dec : EqDecision record.
Proof. solve_decision. Defined.

Record recovery := Recovery {
  checkpoint_base : option (Z * list Z); replayed : list record;
  torn_tail_dropped : bool; checkpoint_ignored : bool; r_next_seq : Z }.

(** [Panicked] is a slice index out of range or a failed [split_at]. *)
Inductive persist_error := BadKey (n : Z) | TooLarge (n : Z) | CorruptAt (pos : Z) | BadCheckpoint | Panicked.

(** ** The directory: the three files, each absent or its bytes *)
Record dir := Dir { journal_log : option (list Z); checkpoint_bin : option (list Z); checkpoint_tmp : option (list Z) }.
Definition dir_empty : dir := Dir None None None.

Inductive disk_step :=
| AppendJournal (b : list Z)
| WriteTmp (b : list Z)
| RenameTmp
| TruncateJournal.

Definition run_step (d : dir) (s : disk_step) : dir :=
  match s with
  | AppendJournal b => Dir (Some (default [] (journal_log d) ++ b)) (checkpoint_bin d) (checkpoint_tmp d)
  | WriteTmp b => Dir (journal_log d) (checkpoint_bin d) (Some b)
  | RenameTmp => Dir (journal_log d) (checkpoint_tmp d) None
  | TruncateJournal => Dir (Some []) (checkpoint_bin d) (checkpoint_tmp d)
  end.

(** A step that a crash may have left half done. *)
Inductive torn : disk_step -> disk_step -> Prop :=
| torn_append b b' : b' `prefix_of` b -> b' <> b -> torn (AppendJournal b) (AppendJournal b')
| torn_write b b' : b' `prefix_of` b -> torn (WriteTmp b) (WriteTmp b').

(** The directories a crash during [steps] can leave. *)
Inductive crash : dir -> list disk_step -> dir -> Prop :=
| crash_now d steps : crash d steps d
| crash_torn d s s' steps : torn s s' -> crash d (s :: steps) (run_step d s')
| crash_later d s steps d' : crash (run_step d s) steps d' -> crash d (s :: steps) d'.

Inductive record_decode := Torn | Corrupt | Panic.

Section persistence.
Context (sha : list Z -> list Z).

Definition op_byte (o : op) : Z := match o with Put => 1 | Delete => 2 end.

Definition record_fields (s : Z) (o : op) (k : text) (v : list Z) : list Z :=
  be_bytes 8 s ++ op_byte o :: be_bytes 2 (len k) ++ k ++ be_bytes 4 (len v) ++ v.

Definition encode_record (s : Z) (o : op) (k : text) (v : list Z) : list Z :=
  let body := record_fields s o k v in
  let body := body ++ sha body in
  be_bytes 4 (len body) ++ body.

(** [l.get(i..i + n)]. *)
Definition get_range (l : list Z) (i n : Z) : option (list Z) :=
  if i + n <=? len l then Some (take (Z.to_nat n) (drop (Z.to_nat i) l)) else None.

Definition decode_fields (fields : list Z) : result record record_decode :=
  if len fields <? 8 then Err Panic
  else
    let s := be_val (take 8 fields) in
    if s =? 0 then Err Corrupt
    else match fields !! 8%nat with
    | None => Err Panic
    | Some o =>
        let? o := (if o =? 1 then Ok Put else if o =? 2 then Ok Delete else Err Corrupt) in
        if len fields <? 11 then Err Panic
        else
          let klen := be_val (slice fields 9 11) in
          if (klen =? 0) || (MAX_KEY_LEN <? klen) then Err Corrupt
          else
            let kend := 11 + klen in
            let? k := ok_or (get_range fields 11 klen) Corrupt in
            if negb (utf8_valid k) then Err Corrupt
            else
              let? vl := ok_or (get_range fields kend 4) Corrupt in
              let vlen := be_val vl in
              if MAX_VALUE_LEN <? vlen then Err Corrupt
              else
                let vstart := kend + 4 in
                let? v := ok_or (get_range fields vstart vlen) Corrupt in
                if negb (vstart + vlen =? len fields) then Err Corrupt
                else Ok (Rec s o k v)
    end.

Definition decode_record (buf : list Z) : result (record * Z) record_decode :=
  if len buf <? 4 then Err Torn
  else
    let total := be_val (take 4 buf) in
    if 4 + 8 + 1 + 2 + MAX_KEY_LEN + 4 + MAX_VALUE_LEN + 32 <? total then Err Corrupt
    else if len buf <? 4 + total then Err Torn
    else
      let body := take (Z.to_nat total) (drop 4 buf) in
      if total <? 32 then Err Panic
      else
        let fields := take (Z.to_nat (total - 32)) body in
        let sum := drop (Z.to_nat (total - 32)) body in
        if negb (bool_decide (sha fields = sum)) then Err Corrupt
        else let? r := decode_fields fields in Ok (r, 4 + total).

(** Every record takes at least a byte. *)
Fixpoint journal_loop (fuel : nat) (bytes : list Z) (pos : Z) : result (list record * bool * Z) persist_error :=
  match bytes, fuel with
  | [], _ | _, O => Ok ([], false, pos)
  | _, S fuel =>
      match decode_record bytes with
      | Ok (r, used) =>
          let? '(rs, t, p) := journal_loop fuel (drop (Z.to_nat used) bytes) (pos + used) in
          Ok (r :: rs, t, p)
      | Err Torn => Ok ([], true, pos)
      | Err Corrupt => Err (CorruptAt pos)
      | Err Panic => Err Panicked
      end
  end.

Definition read_journal (d : dir) : result (list record * bool * Z) persist_error :=
  match journal_log d with
  | None => Ok ([], false, 0)
  | Some bytes => journal_loop (length bytes) bytes 0
  end.

Definition read_checkpoint (d : dir) : result (option (Z * list Z)) persist_error :=
  match checkpoint_bin d with
  | None => Ok None
  | Some bytes =>
      if len bytes <? 8 + 8 + 8 + 32 then Ok None
      else if negb (bool_decide (take 8 bytes = CHECKPOINT_MAGIC)) then Err BadCheckpoint
      else
        let s := be_val (slice bytes 8 16) in
        let n := be_val (slice bytes 16 24) in
        if MAX_PAYLOAD <? n then Err BadCheckpoint
        else
          let total := 24 + n + 32 in
          if len bytes <? total then Ok None
          else if total <? len bytes then Err BadCheckpoint
          else
            let body := take (Z.to_nat (total - 32)) bytes in
            let sum := drop (Z.to_nat (total - 32)) bytes in
            if negb (bool_decide (sha body = sum)) then Err BadCheckpoint
            else Ok (Some (s, take (Z.to_nat n) (drop 24 bytes)))
  end.

Definition validate (k : text) (v : list Z) : result unit persist_error :=
  if bool_decide (k = []) || (MAX_KEY_LEN <? len k) || bool_decide (0 ∈ k) then Err (BadKey (len k))
  else if MAX_VALUE_LEN <? len v then Err (TooLarge (len v))
  else Ok tt.

(** [Journal]: the sequence counter; [open] scans the directory. *)
Definition open (d : dir) : result Z persist_error :=
  let? c := read_checkpoint d in
  let next := match c with Some (s, _) => Z.max 1 (wrap 64 (s + 1)) | None => 1 end in
  let? '(rs, _, _) := read_journal d in
  Ok (foldl (fun n r => Z.max n (wrap 64 (seq r + 1))) next rs).

(** An operation gives its result, the new counter and its disk steps. *)
Definition append (next : Z) (o : op) (k : text) (v : list Z) : result Z persist_error * Z * list disk_step :=
  match validate k v with
  | Err e => (Err e, next, [])
  | Ok _ => (Ok next, wrap 64 (next + 1), [AppendJournal (encode_record next o k v)])
  end.

Definition checkpoint_bytes (s : Z) (payload : list Z) : list Z :=
  let body := CHECKPOINT_MAGIC ++ be_bytes 8 s ++ be_bytes 8 (len payload) ++ payload in
  body ++ sha body.

Definition checkpoint (next : Z) (payload : list Z) : Z * list disk_step :=
  let s := wrap 64 (next - 1) in
  (s, [WriteTmp (checkpoint_bytes s payload); RenameTmp; TruncateJournal]).

Definition recover (d : dir) : result recovery persist_error :=
  let? c := read_checkpoint d in
  let ignored := match c with Some _ => false | None => bool_decide (is_Some (checkpoint_bin d)) end in
  let base_seq := match c with Some (s, _) => s | None => 0 end in
  let? '(rs, torn, _) := read_journal d in
  let rep := sort_by seq (List.filter (fun r => base_seq <? seq r) rs) in
  let max := match last rep with Some r => seq r | None => base_seq end in
  Ok (Recovery c rep torn ignored (wrap 64 (max + 1))).

Definition apply_to_map (r : recovery) (base : gmap text (list Z)) : gmap text (list Z) :=
  foldl (fun m x => match rop x with Put => <[key x := value x]> m | Delete => delete (key x) m end)
    base (replayed r).
End persistence.

(** ** Framing *)
Definition record_ok (r : record) : Prop :=
  0 < seq r < 2 ^ 64 /\ key r <> [] /\ len (key r) <= MAX_KEY_LEN /\ utf8_valid (key r) = true /\
  len (value r) <= MAX_VALUE_LEN.

Lemma get_range_app a b c i n : i = len a -> n = len b -> get_range (a ++ b ++ c) i n = Some b.
Proof.
  intros -> ->. unfold get_range. rewrite !len_app. pose proof (len_nonneg c).
  rewrite (proj2 (Z.leb_le _ _)) by lia. by rewrite drop_len, take_len.
Qed.

Lemma get_range_end a b i n : i = len a -> n = len b -> get_range (a ++ b) i n = Some b.
Proof. intros Hi Hn. rewrite <- (app_nil_r b) at 1. by apply get_range_app. Qed.

Section facts.
Context (sha : list Z -> list Z) (Hsha : forall l, length (sha l) = 32%nat).

Definition enc (r : record) : list Z := encode_record sha (seq r) (rop r) (key r) (value r).

Lemma len_fields s o k v : len (record_fields s o k v) = 15 + len k + len v.
Proof.
  unfold record_fields. rewrite len_app, len_cons, !len_app, !len_be. lia.
Qed.

Lemma decode_fields_ok r : record_ok r -> decode_fields (record_fields (seq r) (rop r) (key r) (value r)) = Ok r.
Proof.
  destruct r as [s o k v]. intros (Hs & Hk & Hkl & Hu & Hv). cbn [seq rop key value] in *.
  pose proof (len_nonneg k). pose proof (len_nonneg v). unfold MAX_KEY_LEN, MAX_VALUE_LEN in *.
  assert (Hk0 : len k <> 0) by (destruct k; [done|rewrite len_cons; pose proof (len_nonneg k); lia]).
  set (F := record_fields s o k v). set (hd := be_bytes 8 s ++ [op_byte o]).
  set (kl := be_bytes 2 (len k)). set (vl := be_bytes 4 (len v)).
  assert (HF : F = hd ++ kl ++ k ++ vl ++ v) by (unfold F, record_fields, hd; by rewrite <- app_assoc).
  assert (Hlen : len F = 15 + len k + len v) by apply len_fields.
  assert (Hhd : len hd = 9) by (unfold hd; by rewrite len_app, len_be).
  assert (Hkl2 : len kl = 2) by (unfold kl; by rewrite len_be).
  assert (Hvl4 : len vl = 4) by (unfold vl; by rewrite len_be).
  assert (Hseq : be_val (take 8 F) = s).
  { unfold F, record_fields. rewrite take_app_length' by by rewrite length_be_bytes.
    apply be_val_bytes. unfold fits. change (8 * Z.of_nat 8) with 64. lia. }
  assert (Hop : F !! 8%nat = Some (op_byte o)).
  { unfold F, record_fields. rewrite lookup_app_r by by rewrite length_be_bytes.
    by rewrite length_be_bytes. }
  assert (Hsl : slice F 9 11 = kl).
  { unfold slice. rewrite HF. rewrite drop_app_length' by (unfold len in Hhd; lia).
    apply take_app_length'. unfold len in Hkl2. lia. }
  assert (Hkv : be_val kl = len k) by (apply be_val_bytes; unfold fits; change (8 * Z.of_nat 2) with 16; lia).
  assert (Hvv : be_val vl = len v) by (apply be_val_bytes; unfold fits; change (8 * Z.of_nat 4) with 32; lia).
  assert (Hg1 : get_range F 11 (len k) = Some k).
  { rewrite HF, app_assoc. apply get_range_app; [|done]. rewrite len_app. lia. }
  assert (Hg2 : get_range F (11 + len k) 4 = Some vl).
  { rewrite HF, app_assoc, (app_assoc (hd ++ kl)). apply get_range_app; [|done]. rewrite !len_app. lia. }
  assert (Hg3 : get_range F (11 + len k + 4) (len v) = Some v).
  { rewrite HF, app_assoc, (app_assoc (hd ++ kl)), (app_assoc ((hd ++ kl) ++ k)). apply get_range_end; [|done].
    rewrite !len_app. lia. }
  assert (Ho : (if op_byte o =? 1 then Ok Put else if op_byte o =? 2 then Ok Delete else Err Corrupt) = Ok o)
    by by destruct o.
  clearbody F hd kl vl. unfold decode_fields, MAX_KEY_LEN, MAX_VALUE_LEN.
  rewrite Hlen, Hseq, Hop, Ho, Hsl, Hkv, Hg1.
  rewrite (proj2 (Z.ltb_ge (15 + len k + len v) 8)), (proj2 (Z.ltb_ge (15 + len k + len v) 11)), (proj2 (Z.eqb_neq s 0)),
    (proj2 (Z.eqb_neq (len k) 0)), (proj2 (Z.ltb_ge 256 (len k))) by lia.
  cbn [orb rbind ok_or]. rewrite Hu, Hg2. cbn [negb ok_or rbind]. rewrite Hvv, Hg3, (proj2 (Z.ltb_ge 1048576 (len v))) by lia.
  cbn [ok_or rbind]. rewrite (proj2 (Z.eqb_eq _ _)) by lia. done.
Qed.

Lemma enc_eq r : record_ok r -> exists body,
  enc r = be_bytes 4 (len body) ++ body /\
  body = record_fields (seq r) (rop r) (key r) (value r) ++ sha (record_fields (seq r) (rop r) (key r) (value r)) /\
  len body = 47 + len (key r) + len (value r) /\ be_val (be_bytes 4 (len body)) = len body.
Proof.
  intros (Hs & Hk & Hkl & Hu & Hv). unfold enc, encode_record. eexists. split; [done|]. split; [done|].
  assert (Hl : len (record_fields (seq r) (rop r) (key r) (value r) ++ sha (record_fields (seq r) (rop r) (key r) (value r)))
    = 47 + len (key r) + len (value r)).
  { rewrite len_app, len_fields. assert (Hs32 : forall l, len (sha l) = 32) by (intros l; unfold len; by rewrite Hsha). rewrite Hs32. lia. }
  split; [done|]. rewrite Hl. apply be_val_bytes. unfold fits, MAX_KEY_LEN, MAX_VALUE_LEN in *.
  change (8 * Z.of_nat 4) with 32. pose proof (len_nonneg (key r)). pose proof (len_nonneg (value r)). lia.
Qed.

Lemma decode_record_ok r rest : record_ok r -> decode_record sha (enc r ++ rest) = Ok (r, len (enc r)).
Proof.
  intros Hr. destruct (enc_eq r Hr) as (body & -> & Hb & Hl & Hv). pose proof Hr as (_ & _ & Hkl & _ & Hvl).
  pose proof (len_nonneg (key r)). pose proof (len_nonneg (value r)). pose proof (len_nonneg rest).
  unfold decode_record, MAX_KEY_LEN, MAX_VALUE_LEN in *. rewrite <- app_assoc.
  rewrite (take_app_length' (be_bytes 4 (len body))), (drop_app_length' (be_bytes 4 (len body))) by by rewrite length_be_bytes.
  rewrite Hv, !len_app, len_be.
  rewrite (proj2 (Z.ltb_ge _ 4)), (proj2 (Z.ltb_ge _ (len body))), (proj2 (Z.ltb_ge _ (4 + len body))),
    (proj2 (Z.ltb_ge (len body) 32)) by lia.
  rewrite take_len by done. set (f := record_fields _ _ _ _) in *.
  assert (Hf : len body - 32 = len f).
  { rewrite Hb, len_app. assert (len (sha f) = 32) by (unfold len; by rewrite Hsha). lia. }
  assert (Ht : take (Z.to_nat (len body - 32)) body = f) by (rewrite Hb at 2; by apply take_len).
  assert (Hd : drop (Z.to_nat (len body - 32)) body = sha f) by (rewrite Hb at 2; by apply drop_len).
  rewrite Ht, Hd, bool_decide_eq_true_2 by done. cbn [negb].
  assert (Hdf : decode_fields f = Ok r) by by apply decode_fields_ok. by rewrite Hdf.
Qed.

(** A strict prefix of a record is torn. *)
Lemma decode_record_torn r p : record_ok r -> p `prefix_of` enc r -> p <> enc r -> decode_record sha p = Err Torn.
Proof.
  intros Hr [q Hq] Hne. destruct (enc_eq r Hr) as (body & He & _ & Hl & Hv). pose proof Hr as (_ & _ & Hkl & _ & Hvl).
  assert (Hq0 : 0 < len q) by (destruct q; [by rewrite app_nil_r in Hq|rewrite len_cons; pose proof (len_nonneg q); lia]).
  assert (Hp : len p < 4 + len body).
  { assert (Ht : len (enc r) = len p + len q) by by rewrite Hq, len_app. rewrite He, len_app, len_be in Ht. lia. }
  unfold decode_record. destruct (len p <? 4) eqn:E4; [done|]. apply Z.ltb_ge in E4.
  assert (Hh : take 4 p = be_bytes 4 (len body)).
  { assert (Ht : take 4 (enc r) = take 4 p) by (rewrite Hq; apply take_app_le; unfold len in E4; lia).
    rewrite <- Ht, He. apply take_app_length'. by rewrite length_be_bytes. }
  rewrite Hh, Hv. unfold MAX_KEY_LEN, MAX_VALUE_LEN in *.
  rewrite (proj2 (Z.ltb_ge _ (len body))) by lia. by rewrite (proj2 (Z.ltb_lt _ (4 + len body))) by lia.
Qed.
Definition jbytes (rs : list record) : list Z := concat (enc <$> rs).

Lemma enc_pos r : record_ok r -> 4 <= len (enc r).
Proof.
  intros Hr. destruct (enc_eq r Hr) as (body & -> & _). rewrite len_app, len_be. pose proof (len_nonneg body). lia.
Qed.

Definition torn_tail (t : list Z) : Prop := t = [] \/ exists r, record_ok r /\ t `prefix_of` enc r /\ t <> enc r.

Lemma journal_loop_ok fuel rs t pos :
  Forall record_ok rs -> torn_tail t -> (length (jbytes rs ++ t) <= fuel)%nat ->
  exists p, journal_loop sha fuel (jbytes rs ++ t) pos = Ok (rs, negb (bool_decide (t = [])), p).
Proof.
  intros Hrs Ht. revert fuel pos. induction Hrs as [|r rs Hr _ IH]; intros fuel pos Hf.
  - change (jbytes [] ++ t) with t in *. destruct t as [|b t]; [by destruct fuel; eexists|].
    destruct fuel as [|fuel]; [cbn in Hf; lia|]. destruct Ht as [|(r & Hr & Hp & Hne)]; [done|].
    exists pos. cbn [journal_loop]. by rewrite (decode_record_torn r).
  - change (jbytes (r :: rs)) with (enc r ++ jbytes rs) in *. rewrite <- app_assoc in *.
    pose proof (enc_pos r Hr) as He. unfold len in He. rewrite length_app in Hf.
    destruct fuel as [|fuel]; [lia|]. destruct (IH fuel (pos + len (enc r))) as [q Hq]; [lia|].
    exists q. pose proof (decode_record_ok r (jbytes rs ++ t) Hr) as Hd.
    destruct (enc r ++ jbytes rs ++ t) as [|b l] eqn:E.
    + apply (f_equal length) in E. rewrite !length_app in E. cbn in E. lia.
    + cbn [journal_loop]. rewrite Hd, <- E, drop_len by done. rewrite Hq. done.
Qed.

Lemma len_checkpoint s p : len (checkpoint_bytes sha s p) = 56 + len p.
Proof.
  unfold checkpoint_bytes. rewrite len_app. assert (Hs32 : forall l, len (sha l) = 32) by (intros l; unfold len; by rewrite Hsha).
  rewrite Hs32, !len_app, !len_be. change (len CHECKPOINT_MAGIC) with 8. lia.
Qed.

Lemma read_checkpoint_frame j tmp s p : 0 <= s < 2 ^ 64 -> len p < 2 ^ 64 ->
  read_checkpoint sha (Dir j (Some (checkpoint_bytes sha s p)) tmp) =
    if MAX_PAYLOAD <? len p then Err BadCheckpoint else Ok (Some (s, p)).
Proof.
  intros Hs Hp. pose proof (len_nonneg p) as Hp0. pose proof (len_checkpoint s p) as Hl.
  unfold read_checkpoint. cbn [checkpoint_bin].
  set (m := CHECKPOINT_MAGIC). set (bs := be_bytes 8 s). set (bn := be_bytes 8 (len p)).
  set (body := m ++ bs ++ bn ++ p). assert (Hc : checkpoint_bytes sha s p = body ++ sha body) by done.
  assert (Hm : len m = 8) by done. assert (Hbs : len bs = 8) by (unfold bs; by rewrite len_be).
  assert (Hbn : len bn = 8) by (unfold bn; by rewrite len_be).
  assert (Hbody : len body = 24 + len p) by (unfold body; rewrite !len_app; lia).
  assert (Htake : take 8 (checkpoint_bytes sha s p) = m) by (rewrite Hc; unfold body; by rewrite <- app_assoc; apply take_app_length').
  assert (Hsl : slice (checkpoint_bytes sha s p) 8 16 = bs).
  { rewrite Hc. unfold body, slice. rewrite <- !app_assoc, drop_app_length' by done. apply take_app_length'. unfold len in Hbs. lia. }
  assert (Hsl2 : slice (checkpoint_bytes sha s p) 16 24 = bn).
  { rewrite Hc. unfold body, slice. rewrite <- !app_assoc, app_assoc, drop_app_length'; [apply take_app_length'; unfold len in Hbn; lia|].
    rewrite length_app. unfold len in *. lia. }
  assert (Hdrop : drop 24 (checkpoint_bytes sha s p) = p ++ sha body).
  { rewrite Hc. unfold body at 1. rewrite <- !app_assoc, app_assoc, app_assoc. apply drop_app_length'.
    rewrite !length_app. unfold len in *. lia. }
  assert (Hv1 : be_val bs = s) by (apply be_val_bytes; unfold fits; change (8 * Z.of_nat 8) with 64; lia).
  assert (Hv2 : be_val bn = len p) by (apply be_val_bytes; unfold fits; change (8 * Z.of_nat 8) with 64; lia).
  rewrite Hl, Htake, Hsl, Hsl2, Hdrop, Hv1, Hv2. rewrite (proj2 (Z.ltb_ge _ (8 + 8 + 8 + 32))) by lia.
  rewrite bool_decide_eq_true_2 by done. cbn [negb]. destruct (MAX_PAYLOAD <? len p); [done|].
  rewrite (proj2 (Z.ltb_ge (56 + len p) _)), (proj2 (Z.ltb_ge _ (56 + len p))) by lia.
  rewrite Hc, take_len, drop_len by lia. rewrite bool_decide_eq_true_2 by done. cbn [negb].
  by rewrite take_len.
Qed.

(** ** Sequence numbers *)
Fixpoint numbered (b : Z) (rs : list record) : Prop :=
  match rs with [] => True | r :: rs => seq r = b + 1 /\ numbered (b + 1) rs end.

Lemma numbered_above b rs : numbered b rs -> Forall (fun r => b < seq r <= b + len rs) rs.
Proof.
  revert b. induction rs as [|r rs IH]; intros b; [done|]. intros [Hr Hn]. rewrite len_cons. pose proof (len_nonneg rs).
  constructor; [lia|]. eapply Forall_impl; [apply (IH _ Hn)|]. cbv beta. intros; lia.
Qed.

Lemma numbered_sorted b rs : numbered b rs -> sort_by seq rs = rs.
Proof.
  revert b. induction rs as [|r rs IH]; intros b; [done|]. intros [Hr Hn]. cbn [sort_by foldr].
  change (foldr (insert_by seq) [] rs) with (sort_by seq rs). rewrite (IH _ Hn). pose proof (numbered_above _ _ Hn) as Ha.
  destruct rs as [|x rs]; [done|]. cbn [insert_by]. apply Forall_inv in Ha. by rewrite (proj2 (Z.leb_le _ _)) by lia.
Qed.

Lemma numbered_last b rs : numbered b rs -> match last rs with Some r => seq r | None => b end = b + len rs.
Proof.
  revert b. induction rs as [|r rs IH]; intros b; cbn [numbered]; [unfold len; cbn; lia|]. intros [Hr Hn].
  specialize (IH _ Hn). rewrite len_cons. destruct rs as [|x rs]; [unfold len in *; cbn in *; lia|].
  change (last (r :: x :: rs)) with (last (x :: rs)). destruct (last (x :: rs)) eqn:E; [lia|].
  by apply last_None in E.
Qed.

Lemma numbered_snoc b rs r : numbered b rs -> seq r = b + len rs + 1 -> numbered b (rs ++ [r]).
Proof.
  revert b. induction rs as [|x rs IH]; intros b; cbn [app numbered].
  - unfold len. cbn. intros _ Hr. split; [lia|done].
  - rewrite len_cons. intros [Hx Hn] Hr. split; [done|]. apply IH; [done|lia].
Qed.

(** ** What the directory stands for *)
Record view := View { v_base : option (Z * list Z); v_recs : list record; v_next : Z }.
Definition base_seq (v : view) : Z := match v_base v with Some (s, _) => s | None => 0 end.

Inductive client_op := CAppend (o : op) (k : text) (v : list Z) | CCheckpoint (payload : list Z).

Definition spec_step (v : view) (c : client_op) : view :=
  match c with
  | CAppend o k x =>
      match validate k x with
      | Ok _ => View (v_base v) (v_recs v ++ [Rec (v_next v) o k x]) (v_next v + 1)
      | Err _ => v
      end
  | CCheckpoint p => View (Some (v_next v - 1, p)) [] (v_next v)
  end.
Definition spec (cs : list client_op) : view := foldl spec_step (View None [] 1) cs.

(** The disk steps of an operation and the next counter. *)
Definition steps_of (next : Z) (c : client_op) : list disk_step * Z :=
  match c with
  | CAppend o k x => let '(_, n, ss) := append sha next o k x in (ss, n)
  | CCheckpoint p => ((checkpoint sha next p).2, next)
  end.
Definition exec_op (s : dir * Z) (c : client_op) : dir * Z :=
  let '(ss, n) := steps_of s.2 c in (foldl run_step s.1 ss, n).

(** What recovery returns for [v], with the torn tail it reports. *)
Definition recovered (v : view) (torn : bool) : recovery :=
  Recovery (v_base v) (v_recs v) torn false (v_next v).

(** A [&str] key is valid UTF-8; a checkpoint is at most 64 MiB; the sequence
    counter does not wrap. *)
Definition op_ok (c : client_op) : Prop :=
  match c with CAppend _ k _ => utf8_valid k = true | CCheckpoint p => len p <= MAX_PAYLOAD end.
Definition allowed (cs : list client_op) (c : client_op) : Prop :=
  op_ok c /\ v_next (spec (cs ++ [c])) < 2 ^ 64.

(** The lives of a journal directory: operations run to their end, and
    crashes inside one after which the directory is opened again, as long as
    recovery reports no torn tail. The list holds the operations that took
    effect. *)
Inductive lives : dir * Z -> list client_op -> Prop :=
| lives_new : lives (dir_empty, 1) []
| lives_op s cs c : lives s cs -> allowed cs c -> lives (exec_op s c) (cs ++ [c])
| lives_crash s cs c d cs' next :
    lives s cs -> allowed cs c -> crash s.1 (steps_of s.2 c).1 d ->
    cs' = cs \/ cs' = cs ++ [c] ->
    recover sha d = Ok (recovered (spec cs') false) -> open sha d = Ok next ->
    lives (d, next) cs'.

Definition base_repr (b : option (Z * list Z)) (f : option (list Z)) : Prop :=
  match b with
  | None => f = None
  | Some (s, p) => f = Some (checkpoint_bytes sha s p) /\ 0 <= s < 2 ^ 64 /\ len p <= MAX_PAYLOAD
  end.

(** The journal holds records the checkpoint has made obsolete, then those
    after it, then a torn tail. *)
Definition repr (t : list Z) (v : view) (d : dir) : Prop :=
  base_repr (v_base v) (checkpoint_bin d) /\ torn_tail t /\
  Forall record_ok (v_recs v) /\ numbered (base_seq v) (v_recs v) /\
  v_next v = base_seq v + 1 + len (v_recs v) /\ 0 <= base_seq v /\
  exists old, default [] (journal_log d) = jbytes (old ++ v_recs v) ++ t /\
    Forall record_ok old /\ Forall (fun r => seq r <= base_seq v) old.

Lemma read_base b j f tmp : base_repr b f -> read_checkpoint sha (Dir j f tmp) = Ok b.
Proof.
  destruct b as [[s p]|]; cbn [base_repr]; [|by intros ->]. unfold MAX_PAYLOAD. intros (-> & Hs & Hp).
  rewrite read_checkpoint_frame by lia. unfold MAX_PAYLOAD. by rewrite (proj2 (Z.ltb_ge _ (len p))).
Qed.

(** The journal is read whatever file holds it, absent when it is empty. *)
Lemma read_repr j f tmp rs t :
  default [] j = jbytes rs ++ t -> Forall record_ok rs -> torn_tail t ->
  exists p, read_journal sha (Dir j f tmp) = Ok (rs, negb (bool_decide (t = [])), p).
Proof.
  intros Hj Hrs Ht. unfold read_journal. cbn [journal_log]. destruct j as [bytes|]; cbn in Hj.
  - subst bytes. by apply journal_loop_ok.
  - destruct rs as [|r rs]; [change (jbytes [] ++ t) with t in Hj; subst t; by exists 0|]. exfalso.
    apply (f_equal length) in Hj. apply Forall_inv in Hrs. pose proof (enc_pos r Hrs) as He. unfold len in He.
    change (jbytes (r :: rs)) with (enc r ++ jbytes rs) in Hj. rewrite !length_app in Hj. cbn in Hj. lia.
Qed.

Lemma filter_all {A} (f : A -> bool) l : Forall (fun x => f x = true) l -> List.filter f l = l.
Proof. induction 1 as [|x l Hx _ IH]; cbn; [done|]. by rewrite Hx, IH. Qed.
Lemma filter_none {A} (f : A -> bool) l : Forall (fun x => f x = false) l -> List.filter f l = [].
Proof. induction 1 as [|x l Hx _ IH]; cbn; [done|]. by rewrite Hx. Qed.

Lemma filter_old v old : Forall (fun r => seq r <= base_seq v) old -> numbered (base_seq v) (v_recs v) ->
  List.filter (fun r => base_seq v <? seq r) (old ++ v_recs v) = v_recs v.
Proof.
  intros Ho Hn. rewrite List.filter_app, filter_none, filter_all; [done| |].
  - eapply Forall_impl; [by apply numbered_above|]. cbv beta. intros r Hr. apply Z.ltb_lt. lia.
  - eapply Forall_impl; [done|]. cbv beta. intros r Hr. apply Z.ltb_ge. lia.
Qed.

Lemma repr_recovers t v d : repr t v d -> v_next v < 2 ^ 64 ->
  recover sha d = Ok (recovered v (negb (bool_decide (t = [])))).
Proof.
  intros (Hb & Ht & Hrs & Hn & Hnext & H0 & old & Hj & Hok & Hold) Hlt. pose proof (len_nonneg (v_recs v)).
  destruct d as [j f tmp]. cbn [journal_log checkpoint_bin] in *.
  destruct (read_repr j f tmp _ _ Hj) as [p Hp]; [by apply Forall_app|done|].
  unfold recover. rewrite (read_base _ _ _ _ Hb), Hp. cbn [rbind checkpoint_bin].
  assert (Hig : match v_base v with Some _ => false | None => bool_decide (is_Some f) end = false).
  { destruct (v_base v) as [[? ?]|]; [done|]. cbn in Hb. by subst f. }
  rewrite Hig. fold (base_seq v). rewrite filter_old, (numbered_sorted _ _ Hn), (numbered_last _ _ Hn) by done.
  unfold recovered. rewrite wrap_small by (unfold fits; lia). do 2 f_equal. lia.
Qed.

Definition next_max (n : Z) (rs : list record) : Z := foldl (fun n r => Z.max n (wrap 64 (seq r + 1))) n rs.

Lemma next_max_old b n rs : Forall record_ok rs -> Forall (fun r => seq r <= b) rs -> b + 1 <= n < 2 ^ 64 ->
  next_max n rs = n.
Proof.
  intros Hok Hb Hn. induction rs as [|r rs IH]; [done|]. apply Forall_cons in Hok as [Hr Hok], Hb as [Hrb Hb].
  unfold next_max. cbn [foldl]. destruct Hr as (Hr & _). rewrite wrap_small by (unfold fits; lia).
  rewrite Z.max_l by lia. by apply IH.
Qed.

Lemma next_max_new b rs : numbered b rs -> 0 <= b -> b + 1 + len rs < 2 ^ 64 -> next_max (b + 1) rs = b + 1 + len rs.
Proof.
  revert b. induction rs as [|r rs IH]; intros b; [unfold len; cbn; lia|]. rewrite len_cons. intros [Hr Hn] Hb Hl.
  pose proof (len_nonneg rs). unfold next_max. cbn [foldl]. rewrite Hr, wrap_small by (unfold fits; lia).
  rewrite Z.max_r by lia. fold (next_max (b + 1 + 1) rs). rewrite (IH (b + 1)); [lia|done|lia..].
Qed.

Lemma repr_open t v d : repr t v d -> v_next v < 2 ^ 64 -> open sha d = Ok (v_next v).
Proof.
  intros (Hb & Ht & Hrs & Hn & Hnext & H0 & old & Hj & Hok & Hold) Hlt. pose proof (len_nonneg (v_recs v)).
  destruct d as [j f tmp]. cbn [journal_log checkpoint_bin] in *.
  destruct (read_repr j f tmp _ _ Hj) as [p Hp]; [by apply Forall_app|done|].
  unfold open. rewrite (read_base _ _ _ _ Hb), Hp. cbn [rbind].
  assert (Hs : match v_base v with Some (s, _) => Z.max 1 (wrap 64 (s + 1)) | None => 1 end = base_seq v + 1).
  { unfold base_seq in *. destruct (v_base v) as [[s q]|]; [|done]. rewrite wrap_small by (unfold fits; lia). lia. }
  pose proof (next_max_old (base_seq v) (base_seq v + 1) old Hok Hold ltac:(lia)) as Hm1.
  pose proof (next_max_new _ _ Hn H0 ltac:(lia)) as Hm2.
  rewrite Hs, foldl_app. unfold next_max in *. by rewrite Hm1, Hm2, Hnext.
Qed.
(** ** Operations keep the representation *)
Lemma validate_accepts k x : utf8_valid k = true -> validate k x = Ok tt ->
  k <> [] /\ len k <= MAX_KEY_LEN /\ len x <= MAX_VALUE_LEN.
Proof.
  intros _. unfold validate. case_bool_decide; [done|]. destruct (MAX_KEY_LEN <? len k) eqn:Ek; [done|].
  case_bool_decide; [done|]. destruct (MAX_VALUE_LEN <? len x) eqn:Ex; [done|]. cbn. intros _.
  bool_prop. split_and!; [done|lia..].
Qed.

Definition bounded (v : view) (c : client_op) : Prop := op_ok c /\ v_next (spec_step v c) < 2 ^ 64.

Lemma spec_next_mono v c : v_next v <= v_next (spec_step v c).
Proof. destruct c as [o k x|p]; cbn [spec_step]; [destruct (validate k x); cbn; lia|cbn; lia]. Qed.

Lemma new_record t v d o k x : repr t v d -> bounded v (CAppend o k x) -> validate k x = Ok tt ->
  record_ok (Rec (v_next v) o k x) /\ 1 <= v_next v /\ v_next v + 1 < 2 ^ 64.
Proof.
  intros (_ & _ & _ & _ & Hnext & H0 & _) [Hk Hb] Hv. pose proof (len_nonneg (v_recs v)).
  destruct (validate_accepts k x Hk Hv) as (H1 & H2 & H3). cbn [spec_step] in Hb. rewrite Hv in Hb. cbn in Hb.
  unfold record_ok; split_and!; cbn; try done; lia.
Qed.

Lemma jbytes_snoc rs r : jbytes (rs ++ [r]) = jbytes rs ++ enc r.
Proof. unfold jbytes. rewrite fmap_app, concat_app. cbn. by rewrite app_nil_r. Qed.

Lemma append_repr v d o k x : repr [] v d -> bounded v (CAppend o k x) -> validate k x = Ok tt ->
  repr [] (spec_step v (CAppend o k x)) (run_step d (AppendJournal (encode_record sha (v_next v) o k x))).
Proof.
  intros Hr Hb Hv. destruct (new_record _ _ _ _ _ _ Hr Hb Hv) as [Hok _].
  destruct Hr as (H1 & Ht & H3 & H4 & H5 & H6 & old & Hj & Ho1 & Ho2). cbn [spec_step run_step]. rewrite Hv.
  unfold repr, base_seq in *. cbn [v_base v_recs v_next journal_log checkpoint_bin].
  rewrite len_app. split_and!; try done.
  - apply Forall_app. split; [done|by constructor].
  - apply numbered_snoc; [done|]. cbn. lia.
  - unfold len at 2. cbn. lia.
  - exists old. rewrite Hj, !app_nil_r, app_assoc, jbytes_snoc. by split_and!.
Qed.

(** A partial append leaves a torn tail, a partial checkpoint file nothing. *)
Lemma torn_append_repr v d o k x b : repr [] v d -> bounded v (CAppend o k x) -> validate k x = Ok tt ->
  b `prefix_of` encode_record sha (v_next v) o k x -> b <> encode_record sha (v_next v) o k x ->
  repr b v (run_step d (AppendJournal b)).
Proof.
  intros Hr Hb Hv Hp Hne. destruct (new_record _ _ _ _ _ _ Hr Hb Hv) as [Hok _].
  destruct Hr as (H1 & Ht & H3 & H4 & H5 & H6 & old & Hj & Ho1 & Ho2). cbn [run_step]. unfold repr. split_and!; try done.
  - right. by exists (Rec (v_next v) o k x).
  - exists old. cbn [journal_log default]. rewrite Hj, app_nil_r. by split_and!.
Qed.

Lemma repr_tmp t v d tmp : repr t v d -> repr t v (Dir (journal_log d) (checkpoint_bin d) tmp).
Proof. by intros Hr. Qed.

(** After the rename the records are obsolete, after the truncation gone. *)
Lemma renamed_repr v d p j tmp : repr [] v d -> bounded v (CCheckpoint p) -> j = journal_log d \/ j = Some [] ->
  repr [] (spec_step v (CCheckpoint p)) (Dir j (Some (checkpoint_bytes sha (wrap 64 (v_next v - 1)) p)) tmp).
Proof.
  intros (H1 & Ht & H3 & H4 & H5 & H6 & old & Hj & Ho1 & Ho2) [Hp Hb] Hjd. cbn in Hp, Hb.
  pose proof (len_nonneg (v_recs v)). rewrite wrap_small by (unfold fits; lia).
  unfold repr, base_seq. cbn. split_and!; try done; try lia; [unfold len; cbn; lia|].
  destruct Hjd as [->| ->]; [exists (old ++ v_recs v)|exists []; by split_and!; try constructor].
  rewrite Hj, !app_nil_r. split_and!; [done|by apply Forall_app|]. apply Forall_app. split.
  - eapply Forall_impl; [done|]. cbv beta. intros; lia.
  - eapply Forall_impl; [by apply numbered_above|]. cbv beta. intros; lia.
Qed.

Lemma exec_op_repr v d c : repr [] v d -> bounded v c ->
  repr [] (spec_step v c) (exec_op (d, v_next v) c).1 /\ (exec_op (d, v_next v) c).2 = v_next (spec_step v c).
Proof.
  intros Hr Hb. unfold exec_op. destruct c as [o k x|p]; cbn [fst snd steps_of].
  - unfold append. destruct (validate k x) as [[]|] eqn:Hv.
    + cbn [fst snd foldl]. split; [by apply append_repr|]. destruct (new_record _ _ _ _ _ _ Hr Hb Hv) as [_ Hn].
      cbn [spec_step]. rewrite Hv. cbn. apply wrap_small. unfold fits. lia.
    + cbn [fst snd foldl spec_step]. by rewrite Hv.
  - split; [|done]. apply (renamed_repr v d); [done..|by right].
Qed.

Lemma crash_op v d c d' : repr [] v d -> bounded v c -> crash d (steps_of (v_next v) c).1 d' ->
  exists t v', (v' = v \/ v' = spec_step v c) /\ repr t v' d'.
Proof.
  intros Hr Hb. destruct c as [o k x|p].
  - cbn [steps_of]. unfold append. destruct (validate k x) as [[]|] eqn:Hv; cbn [fst].
    2:{ intros Hc. inversion Hc; subst. exists [], v. auto. }
    pose proof (append_repr _ _ _ _ _ Hr Hb Hv) as Ha.
    intros Hc. inversion Hc as [|? ? ? ? Ht|? ? ? ? Hc2]; subst; [by exists [], v; auto| |].
    + inversion Ht as [? b Hpre Hne|]; subst. exists b, v. split; [by left|]. by eapply torn_append_repr.
    + inversion Hc2; subst. eexists [], _. eauto.
  - assert (Hnew : forall j tmp, j = journal_log d \/ j = Some [] ->
      exists t v', (v' = v \/ v' = spec_step v (CCheckpoint p)) /\
        repr t v' (Dir j (Some (checkpoint_bytes sha (wrap 64 (v_next v - 1)) p)) tmp))
      by (intros j tmp Hj; eexists [], _; split; [by right|by apply (renamed_repr v d)]).
    assert (Hold : forall tmp, exists t v', (v' = v \/ v' = spec_step v (CCheckpoint p)) /\
        repr t v' (Dir (journal_log d) (checkpoint_bin d) tmp))
      by (intros tmp; exists [], v; split; [by left|by apply repr_tmp]).
    cbn [steps_of fst checkpoint snd]. intros Hc.
    inversion Hc as [|? ? ? ? Ht|? ? ? ? Hc2]; subst; [by exists [], v; auto|by inversion Ht; subst; apply Hold|].
    inversion Hc2 as [|? ? ? ? Ht|? ? ? ? Hc3]; subst; [by apply Hold|by inversion Ht|].
    inversion Hc3 as [|? ? ? ? Ht|? ? ? ? Hc4]; subst; [by apply Hnew; left|by inversion Ht|].
    inversion Hc4; subst. by apply Hnew; right.
Qed.

Lemma spec_snoc cs c : spec (cs ++ [c]) = spec_step (spec cs) c.
Proof. unfold spec. by rewrite foldl_app. Qed.

Lemma allowed_bounded cs c : allowed cs c -> bounded (spec cs) c.
Proof. unfold allowed, bounded. by rewrite spec_snoc. Qed.

(** A crash leaves one of the two views, and opening agrees with recovery. *)
Lemma crash_views v d c d' : repr [] v d -> bounded v c -> crash d (steps_of (v_next v) c).1 d' ->
  exists t v', (v' = v \/ v' = spec_step v c) /\ repr t v' d' /\ v_next v' < 2 ^ 64 /\
    recover sha d' = Ok (recovered v' (negb (bool_decide (t = [])))) /\ open sha d' = Ok (v_next v').
Proof.
  intros Hr Hb Hc. destruct (crash_op _ _ _ _ Hr Hb Hc) as (t & v' & Hv & Hr').
  assert (Hlt : v_next v' < 2 ^ 64).
  { destruct Hb as [_ Hb]. pose proof (spec_next_mono v c). destruct Hv as [->| ->]; lia. }
  exists t, v'. split_and!; [done..| |]; [by apply repr_recovers|by eapply repr_open].
Qed.

Lemma lives_repr s cs : lives s cs -> repr [] (spec cs) s.1 /\ s.2 = v_next (spec cs).
Proof.
  induction 1 as [|[d n] cs c _ [Hr He] Ha|[d n] cs c d' cs' next _ [Hr He] Ha Hc Hcs Hrec Ho]; cbn [fst snd] in *.
  - split; [|done]. unfold repr. cbn. split_and!; try done; [by left|]. exists []. by split_and!; try constructor.
  - subst n. rewrite spec_snoc. by apply exec_op_repr, allowed_bounded.
  - subst n. apply allowed_bounded in Ha. destruct (crash_views _ _ _ _ Hr Ha Hc) as (t & v' & Hv & Hr' & _ & Hrec' & Ho').
    rewrite Hrec in Hrec'. injection Hrec' as Eb Er Et En. rewrite Ho in Ho'. injection Ho' as ->.
    assert (Ev : spec cs' = v') by (destruct (spec cs'), v'; cbn in *; by subst).
    rewrite Ev. split; [|done]. by destruct (bool_decide_reflect (t = [])); subst.
Qed.
End facts.

(** ** Properties *)

(** C12: Every operation is atomic under crashes. Take a directory that began
    fresh and lived through any appends and checkpoints and any crashes inside
    them, each followed by a new [open], where recovery never reported a torn
    tail; keys are UTF-8, checkpoints at most 64 MiB and the 64-bit sequence
    counter does not wrap. A crash anywhere inside the next such operation
    leaves a directory from which recovery returns exactly the checkpoint and
    the records of the operations that took effect so far, or of those and
    the next one, and the next free sequence number, which is also the one
    [open] continues with. This crash may tear the tail; what happens when
    appends continue after that is [torn_tail_poisons]. *)
Theorem crash_recovery (sha : list Z -> list Z) (s : dir * Z) (cs : list client_op) (c : client_op) (d : dir) :
  (forall l, length (sha l) = 32%nat) ->
  lives sha s cs -> allowed cs c -> crash s.1 (steps_of sha s.2 c).1 d ->
  exists cs' torn, (cs' = cs \/ cs' = cs ++ [c]) /\
    recover sha d = Ok (recovered (spec cs') torn) /\ open sha d = Ok (v_next (spec cs')).
Proof.
  intros Hsha Hl Ha Hd. destruct (lives_repr sha Hsha s cs Hl) as [Hr He]. rewrite He in Hd.
  destruct (crash_views sha Hsha _ _ _ _ Hr (allowed_bounded _ _ Ha) Hd) as (t & v' & Hv & _ & _ & Hrec & Ho).
  destruct Hv as [->| ->]; [exists cs|exists (cs ++ [c]); rewrite spec_snoc]; eauto 10.
Qed.

Definition zero_sha (_ : list Z) : list Z := repeat 0 32.

(** The first append, a crash between the rename and the truncation of a
    checkpoint, a new start, and a crash that tears the next append. *)
Lemma crash_recovery_witness :
  let a := CAppend Put (codes "a") [1] in
  let ck := CCheckpoint [7] in
  let d1 := (exec_op zero_sha (dir_empty, 1) a).1 in
  let d2 := run_step (run_step d1 (WriteTmp (checkpoint_bytes zero_sha 1 [7]))) RenameTmp in
  let d3 := run_step d2 (AppendJournal [0; 0]) in
  exists cs' torn, (cs' = [a; ck] \/ cs' = [a; ck] ++ [CAppend Put (codes "b") [2]]) /\
    recover zero_sha d3 = Ok (recovered (spec cs') torn) /\ open zero_sha d3 = Ok (v_next (spec cs')).
Proof.
  intros a ck d1 d2 d3.
  assert (Ha : allowed [] a) by (split; by vm_compute).
  assert (Hck : allowed [a] ck) by (split; by vm_compute).
  assert (Hb : allowed [a; ck] (CAppend Put (codes "b") [2])) by (split; by vm_compute).
  apply (crash_recovery zero_sha (d2, 2)); [done| |done|].
  - apply (lives_crash zero_sha (exec_op zero_sha (dir_empty, 1) a) [a] ck);
      [by apply (lives_op zero_sha (dir_empty, 1) []); [apply lives_new|]|done| |by right|by vm_compute..].
    apply crash_later, crash_later, crash_now.
  - apply crash_torn. apply torn_append; [|done]. by eexists.
Defined.

Lemma recover_single sha l e :
  l <> [] -> decode_record sha l = Err e ->
  recover sha (Dir (Some l) None None) =
    match e with Torn => Ok (Recovery None [] true false 1) | Corrupt => Err (CorruptAt 0) | Panic => Err Panicked end.
Proof.
  intros Hl He. unfold recover, read_checkpoint, read_journal. cbn [checkpoint_bin journal_log rbind].
  destruct l as [|b l]; [done|]. cbn [length journal_loop]. rewrite He. by destruct e.
Qed.

Lemma open_single sha l :
  l <> [] -> decode_record sha l = Err Torn -> open sha (Dir (Some l) None None) = Ok 1.
Proof.
  intros Hl He. unfold open, read_checkpoint, read_journal. cbn [checkpoint_bin journal_log rbind].
  destruct l as [|b l]; [done|]. cbn [length journal_loop]. by rewrite He.
Qed.

(** After a torn tail the journal is poisoned: recovery drops the tail but
    leaves it in the file, and the next append goes behind it. With three torn
    bytes the appended, acknowledged record makes recovery panic; with four it
    is silently lost when the torn record was longer. *)
Theorem torn_tail_poisons (sha : list Z -> list Z) :
  (forall l, length (sha l) = 32%nat) ->
  let torn1 := Dir (Some (take 3 (encode_record sha 1 Put (codes "a") [1]))) None None in
  let torn2 := Dir (Some (take 4 (encode_record sha 1 Put (codes "a") (repeat 0 100)))) None None in
  let '(r, _, ss) := append sha 1 Put (codes "b") [2] in
  r = Ok 1 /\
  open sha torn1 = Ok 1 /\ recover sha torn1 = Ok (Recovery None [] true false 1) /\
  recover sha (foldl run_step torn1 ss) = Err Panicked /\
  open sha torn2 = Ok 1 /\ recover sha (foldl run_step torn2 ss) = Ok (Recovery None [] true false 1).
Proof.
  intros Hsha torn1 torn2.
  assert (H32 : forall l, len (sha l) = 32) by (intros l; unfold len; by rewrite Hsha).
  assert (He : forall k v, len (record_fields 1 Put k v ++ sha (record_fields 1 Put k v)) = 47 + len k + len v)
    by (intros k v; rewrite len_app, len_fields, H32; lia).
  assert (Henc : forall k v, encode_record sha 1 Put k v = be_bytes 4 (47 + len k + len v) ++
    record_fields 1 Put k v ++ sha (record_fields 1 Put k v)) by (intros k v; unfold encode_record; by rewrite He).
  subst torn1 torn2. unfold append. change (validate (codes "b") [2]) with (@Ok unit persist_error tt). cbn [foldl run_step].
  rewrite !Henc. change (be_bytes 4 (47 + len (codes "a") + len [1])) with [0; 0; 0; 49].
  change (be_bytes 4 (47 + len (codes "b") + len [2])) with [0; 0; 0; 49].
  change (be_bytes 4 (47 + len (codes "a") + len (repeat 0 100))) with [0; 0; 0; 148].
  pose proof (He (codes "b") [2]) as Ht. change (47 + len (codes "b") + len [2]) with 49 in Ht.
  set (t := record_fields 1 Put (codes "b") [2] ++ sha (record_fields 1 Put (codes "b") [2])) in *.
  split_and!; [done|apply open_single; by vm_compute|apply (recover_single sha _ Torn); by vm_compute| |
    apply open_single; by vm_compute|].
  - apply (recover_single sha _ Panic); [done|].
    change (decode_record sha ([0; 0; 0] ++ [0; 0; 0; 49] ++ t) = Err Panic).
    unfold decode_record. by rewrite !len_app, Ht.
  - apply (recover_single sha _ Torn); [done|].
    change (decode_record sha ([0; 0; 0; 148] ++ [0; 0; 0; 49] ++ t) = Err Torn).
    unfold decode_record. by rewrite !len_app, Ht.
Qed.

Lemma torn_tail_poisons_witness :
  recover zero_sha (foldl run_step (Dir (Some (take 3 (encode_record zero_sha 1 Put (codes "a") [1]))) None None)
    (append zero_sha 1 Put (codes "b") [2]).2) = Err Panicked.
Proof. by apply (torn_tail_poisons zero_sha). Defined.

(** A checkpoint above 64 MiB is written and replaces the good one, and
    then no recovery succeeds. *)
Theorem oversized_checkpoint (sha : list Z -> list Z) (d : dir) (next : Z) (payload : list Z) :
  (forall l, length (sha l) = 32%nat) -> 1 <= next < 2 ^ 64 -> MAX_PAYLOAD < len payload < 2 ^ 64 ->
  recover sha (foldl run_step d (checkpoint sha next payload).2) = Err BadCheckpoint.
Proof.
  intros Hsha Hn Hp. unfold recover.
  change (foldl run_step d (checkpoint sha next payload).2) with
    (Dir (Some []) (Some (checkpoint_bytes sha (wrap 64 (next - 1)) payload)) None).
  rewrite wrap_small by (unfold fits; lia).
  rewrite read_checkpoint_frame by (done || lia). by rewrite (proj2 (Z.ltb_lt _ (len payload))) by lia.
Qed.

Lemma oversized_checkpoint_witness :
  exists payload, recover zero_sha (foldl run_step dir_empty (checkpoint zero_sha 1 payload).2) = Err BadCheckpoint.
Proof.
  exists (repeat 0 (Z.to_nat (MAX_PAYLOAD + 1))). apply (oversized_checkpoint zero_sha); [done|lia|].
  unfold len. rewrite repeat_length. unfold MAX_PAYLOAD. lia.
Defined.
