(* ===== verification/Snapshot.v ===== *)
(** World snapshots (crates/ald-snapshot/src/lib.rs): the framed encoding of the
    flat state and its verifying decoder. SHA-256 is a parameter of which only
    the digest length is used. *)
From S2P Require Import Prelude RustStr Bytes.

Definition MAGIC : list Z := codes "ALDSNAP1".
Definition SUPPORTED_SCHEMAS : list Z := [1].
Definition MAX_KEY_LEN : Z := 256.
Definition MAX_VALUE_LEN : Z := 4096576.
Definition MAX_ENTRIES : Z := 1000000.

Record snapshot := Snapshot { schema_version : Z; tick : Z; entries : gmap text (list Z) }.
Definition snapshot_new (tick : Z) (entries : gmap text (list Z)) : snapshot := Snapshot 1 tick entries.

Inductive snapshot_error :=
| BadMagic | UnsupportedSchema (n : Z) | Truncated | ChecksumMismatch | KeyTooLong (n : Z)
| BadKeyEncoding | DuplicateKey | ValueTooLong (n : Z) | TooManyEntries.

Section snapshot.
Context (sha : list Z -> list Z).

Fixpoint encode_entries (es : list (text * list Z)) : result (list Z) snapshot_error :=
  match es with
  | [] => Ok []
  | (k, v) :: es =>
      if MAX_KEY_LEN <? len k then Err (KeyTooLong (len k))
      else if MAX_VALUE_LEN <? len v then Err (ValueTooLong (len v))
      else
        let? r := encode_entries es in
        Ok (be_bytes 2 (len k) ++ k ++ be_bytes 4 (len v) ++ v ++ r)
  end.

Definition encode (s : snapshot) : result (list Z) snapshot_error :=
  if bool_decide (schema_version s ∉ SUPPORTED_SCHEMAS) then Err (UnsupportedSchema (schema_version s))
  else
    let es := in_order (entries s) in
    let out := MAGIC ++ be_bytes 4 (schema_version s) ++ be_bytes 8 (tick s) in
    if u32_max <? len es then Err TooManyEntries
    else
      let? body := encode_entries es in
      let out := out ++ be_bytes 4 (len es) ++ body in
      Ok (out ++ sha out).

(** [Reader]: the bytes from the position on. *)
Definition take_n (n : Z) (l : list Z) : option (list Z * list Z) :=
  if n <=? len l then Some (take (Z.to_nat n) l, drop (Z.to_nat n) l) else None.
Definition uint (n : Z) (l : list Z) : option (Z * list Z) :=
  (fun p => (be_val p.1, p.2)) <$> take_n n l.

Definition decode_entry (m : gmap text (list Z)) (l : list Z) :
    result (gmap text (list Z) * list Z) snapshot_error :=
  let? '(klen, l) := ok_or (uint 2 l) Truncated in
  if (MAX_KEY_LEN <? klen) || (klen =? 0) then Err (KeyTooLong klen)
  else
    let? '(k, l) := ok_or (take_n klen l) Truncated in
    if negb (utf8_valid k) then Err BadKeyEncoding
    else
      let? '(vlen, l) := ok_or (uint 4 l) Truncated in
      if MAX_VALUE_LEN <? vlen then Err (ValueTooLong vlen)
      else
        let? '(v, l) := ok_or (take_n vlen l) Truncated in
        match m !! k with
        | Some _ => Err DuplicateKey
        | None => Ok (<[k := v]> m, l)
        end.

Fixpoint decode_entries (n : nat) (m : gmap text (list Z)) (l : list Z) :
    result (gmap text (list Z) * list Z) snapshot_error :=
  match n with
  | O => Ok (m, l)
  | S n => let? '(m, l) := decode_entry m l in decode_entries n m l
  end.

Definition decode (bytes : list Z) : result snapshot snapshot_error :=
  let? '(magic, l) := ok_or (take_n 8 bytes) Truncated in
  if negb (bool_decide (magic = MAGIC)) then Err BadMagic
  else
    let? '(schema, l) := ok_or (uint 4 l) Truncated in
    if bool_decide (schema ∉ SUPPORTED_SCHEMAS) then Err (UnsupportedSchema schema)
    else
      let? '(t, l) := ok_or (uint 8 l) Truncated in
      let? '(count, l) := ok_or (uint 4 l) Truncated in
      if MAX_ENTRIES <? count then Err TooManyEntries
      else
        let? '(m, l) := decode_entries (Z.to_nat count) ∅ l in
        let cut := (length bytes - 32)%nat in
        if negb (bool_decide (length (drop cut bytes) = 32%nat)) || negb (len l =? 32) then Err Truncated
        else if negb (bool_decide (sha (take cut bytes) = drop cut bytes)) then Err ChecksumMismatch
        else Ok (Snapshot schema t m).
End snapshot.

(** ** Reading what was written *)
Lemma take_n_app a l n : n = len a -> take_n n (a ++ l) = Some (a, l).
Proof.
  intros ->. unfold take_n. rewrite len_app. pose proof (len_nonneg l). rewrite (proj2 (Z.leb_le _ _)) by lia.
  by rewrite take_len, drop_len.
Qed.

Lemma uint_app k z l : fits (8 * Z.of_nat k) z -> uint (Z.of_nat k) (be_bytes k z ++ l) = Some (z, l).
Proof.
  intros Hz. unfold uint. rewrite take_n_app by by rewrite len_be. cbn [fmap option_fmap option_map fst snd]. by rewrite be_val_bytes.
Qed.

Definition entry_ok (e : text * list Z) : Prop :=
  e.1 <> [] /\ utf8_valid e.1 = true /\ len e.1 <= MAX_KEY_LEN /\ len e.2 <= MAX_VALUE_LEN.

Definition entry_bytes (e : text * list Z) : list Z :=
  be_bytes 2 (len e.1) ++ e.1 ++ be_bytes 4 (len e.2) ++ e.2.

Lemma encode_entries_ok es : Forall entry_ok es -> encode_entries es = Ok (concat (entry_bytes <$> es)).
Proof.
  induction 1 as [|[k v] es (Hk & Hu & Hkl & Hvl) _ IH]; cbn; [done|]. cbn in *.
  rewrite (proj2 (Z.ltb_ge _ (len k))), (proj2 (Z.ltb_ge _ (len v))) by done. rewrite IH. cbn [rbind].
  unfold entry_bytes. cbn. by rewrite <- !app_assoc.
Qed.

Lemma fits_len {A} n (l : list A) b : len l <= b -> b < 2 ^ n -> fits n (len l).
Proof. pose proof (len_nonneg l). unfold fits. lia. Qed.

Lemma decode_entry_ok m k v l : entry_ok (k, v) -> m !! k = None ->
  decode_entry m (entry_bytes (k, v) ++ l) = Ok (<[k := v]> m, l).
Proof.
  intros (Hk & Hu & Hkl & Hvl) Hm. unfold decode_entry, entry_bytes. cbn [fst snd] in *. unfold MAX_KEY_LEN, MAX_VALUE_LEN in *.
  rewrite <- !app_assoc. change (uint 2) with (uint (Z.of_nat 2)). change (uint 4) with (uint (Z.of_nat 4)).
  rewrite uint_app by by eapply fits_len. cbn [ok_or rbind].
  assert (len k <> 0) by (destruct k; [done|rewrite len_cons; pose proof (len_nonneg k); lia]).
  rewrite (proj2 (Z.ltb_ge _ (len k))), (proj2 (Z.eqb_neq (len k) 0)) by done. cbn [orb].
  rewrite take_n_app by done. cbn [ok_or rbind]. rewrite Hu. cbn [negb].
  rewrite uint_app by by eapply fits_len. cbn [ok_or rbind]. rewrite (proj2 (Z.ltb_ge _ (len v))) by done.
  rewrite take_n_app by done. cbn [ok_or rbind]. by rewrite Hm.
Qed.

Lemma decode_entries_ok es : forall m l,
  Forall entry_ok es -> NoDup es.*1 -> (forall k, k ∈ es.*1 -> m !! k = None) ->
  decode_entries (length es) m (concat (entry_bytes <$> es) ++ l) = Ok (list_to_map es ∪ m, l).
Proof.
  induction es as [|[k v] es IH]; intros m l He Hn Hm; cbn -[entry_bytes].
  { by rewrite (left_id_L ∅ (∪)). }
  apply Forall_cons in He as [Hkv He]. apply NoDup_cons in Hn as [Hk Hn].
  rewrite <- app_assoc, decode_entry_ok; [|done|apply Hm; by left]. cbn [rbind]. rewrite IH; [|done..|].
  - do 2 f_equal. assert (Hnone : (list_to_map es : gmap text (list Z)) !! k = None) by by apply not_elem_of_list_to_map_1.
    rewrite <- insert_union_r by done. by rewrite insert_union_l.
  - intros k' Hk'. rewrite lookup_insert_ne by (intros ->; done). apply Hm. by right.
Qed.

(** ** Cut input *)
Lemma take_n_short n p : len p < n -> take_n n p = None.
Proof. intros H. unfold take_n. by rewrite (proj2 (Z.leb_gt _ _)). Qed.
Lemma uint_short n p : len p < n -> uint n p = None.
Proof. intros H. unfold uint. by rewrite take_n_short. Qed.

(** A strict prefix of [a ++ b] is one of [a] or [a] followed by one of [b]. *)
Lemma strict_prefix_app {A} (p a b : list A) : p `prefix_of` a ++ b -> p <> a ++ b ->
  len p < len a \/ exists q, p = a ++ q /\ q `prefix_of` b /\ q <> b.
Proof.
  intros Hp Hne. destruct (decide (length p < length a)%nat) as [Hl|Hl]; [left; unfold len; lia|]. right.
  destruct Hp as [x Hx]. assert (Ha : a = take (length a) p).
  { apply (f_equal (take (length a))) in Hx. rewrite take_app_length, take_app_le in Hx by lia. done. }
  exists (drop (length a) p). assert (Hs : p = a ++ drop (length a) p) by (rewrite Ha at 1; by rewrite take_drop).
  split; [done|]. rewrite Hs, <- app_assoc in Hx. apply app_inv_head in Hx. split; [by exists x|].
  intros E. apply Hne. by rewrite Hs at 1; rewrite E.
Qed.

(** A prefix of [a ++ b] shorter than [a] is a strict prefix of [a]. *)
Lemma prefix_shorter {A} (p a b : list A) : p `prefix_of` a ++ b -> len p < len a -> p `prefix_of` a /\ p <> a.
Proof.
  intros [x Hx] Hl. split; [|intros ->; lia]. exists (take (length a - length p) x).
  apply (f_equal (take (length a))) in Hx. rewrite take_app_length, take_app in Hx.
  rewrite Hx at 1. f_equal. apply take_ge. unfold len in Hl. lia.
Qed.

Lemma decode_entry_cut m k v p : entry_ok (k, v) -> m !! k = None ->
  p `prefix_of` entry_bytes (k, v) -> p <> entry_bytes (k, v) -> decode_entry m p = Err Truncated.
Proof.
  intros (Hk & Hu & Hkl & Hvl) Hm Hp Hne. unfold entry_bytes in *. cbn [fst snd] in *. unfold MAX_KEY_LEN, MAX_VALUE_LEN in *.
  assert (Hk0 : len k <> 0) by (destruct k; [done|rewrite len_cons; pose proof (len_nonneg k); lia]).
  unfold decode_entry, MAX_KEY_LEN, MAX_VALUE_LEN.
  apply strict_prefix_app in Hp as [Hl|(p1 & -> & Hp & Hn1)]; [rewrite len_be in Hl; by rewrite uint_short| |done].
  change (uint 2) with (uint (Z.of_nat 2)). rewrite uint_app by by eapply fits_len. cbn [ok_or rbind].
  rewrite (proj2 (Z.ltb_ge _ (len k))), (proj2 (Z.eqb_neq (len k) 0)) by done. cbn [orb].
  apply strict_prefix_app in Hp as [Hl|(p2 & -> & Hp & Hn2)]; [by rewrite take_n_short| |done].
  rewrite take_n_app by done. cbn [ok_or rbind]. rewrite Hu. cbn [negb].
  apply strict_prefix_app in Hp as [Hl|(p3 & -> & Hp & Hn3)]; [rewrite len_be in Hl; by rewrite uint_short| |done].
  change (uint 4) with (uint (Z.of_nat 4)). rewrite uint_app by by eapply fits_len. cbn [ok_or rbind].
  rewrite (proj2 (Z.ltb_ge _ (len v))) by done. destruct Hp as [x Hx].
  rewrite take_n_short; [done|]. destruct x as [|y x]; [by rewrite app_nil_r in Hx|].
  rewrite Hx, len_app, len_cons. pose proof (len_nonneg x). lia.
Qed.

Lemma decode_entries_cut es : forall m p,
  Forall entry_ok es -> NoDup es.*1 -> (forall k, k ∈ es.*1 -> m !! k = None) ->
  p `prefix_of` concat (entry_bytes <$> es) -> p <> concat (entry_bytes <$> es) ->
  decode_entries (length es) m p = Err Truncated.
Proof.
  induction es as [|[k v] es IH]; intros m p He Hn Hm Hp Hne; cbn -[entry_bytes] in *.
  { by apply prefix_nil_inv in Hp. }
  apply Forall_cons in He as [Hkv He]. apply NoDup_cons in Hn as [Hk Hn].
  assert (Hmk : m !! k = None) by (apply Hm; by left).
  pose proof Hp as Hp0. apply strict_prefix_app in Hp as [Hl|(q & -> & Hq & Hqn)]; [| |done].
  - destruct (prefix_shorter _ _ _ Hp0 Hl). by rewrite (decode_entry_cut m k v).
  - rewrite decode_entry_ok by done. cbn [rbind]. apply IH; try done.
    intros k' Hk'. rewrite lookup_insert_ne by (intros ->; done). apply Hm. by right.
Qed.

(** ** The whole file *)
Definition snapshot_ok (s : snapshot) : Prop :=
  schema_version s = 1 /\ fits 64 (tick s) /\ map_Forall (fun k v => entry_ok (k, v)) (entries s) /\
  Z.of_nat (size (entries s)) <= MAX_ENTRIES.

Lemma in_order_facts (m : gmap text (list Z)) :
  NoDup (in_order m).*1 /\ list_to_map (in_order m) = m /\ length (in_order m) = size m.
Proof.
  assert (Hp : in_order m ≡ₚ map_to_list m) by apply merge_sort_Permutation.
  assert (Hn : NoDup (in_order m).*1) by (rewrite Hp; apply NoDup_fst_map_to_list).
  split; [done|]. split; [|rewrite Hp; by rewrite length_map_to_list].
  rewrite <- (list_to_map_to_list m) at 2. by apply list_to_map_proper.
Qed.

Section file.
Context (sha : list Z -> list Z) (H32 : forall l, length (sha l) = 32%nat).

Definition head_bytes (t n : Z) : list Z := MAGIC ++ be_bytes 4 1 ++ be_bytes 8 t ++ be_bytes 4 n.

(** What follows the header in [decode]. *)
Definition finish (t : Z) (bytes : list Z) (r : result (gmap text (list Z) * list Z) snapshot_error) :=
  let? '(m, l) := r in
  let cut := (length bytes - 32)%nat in
  if negb (bool_decide (length (drop cut bytes) = 32%nat)) || negb (len l =? 32) then Err Truncated
  else if negb (bool_decide (sha (take cut bytes) = drop cut bytes)) then Err ChecksumMismatch
  else Ok (Snapshot 1 t m).

Lemma decode_head t n l : fits 64 t -> 0 <= n <= MAX_ENTRIES ->
  decode sha (head_bytes t n ++ l) = finish t (head_bytes t n ++ l) (decode_entries (Z.to_nat n) ∅ l).
Proof.
  intros Ht Hn. unfold decode. unfold head_bytes at 1. rewrite <- !app_assoc.
  rewrite take_n_app by done. cbn [ok_or rbind]. rewrite bool_decide_eq_true_2 by done. cbn [negb].
  change (uint 4) with (uint (Z.of_nat 4)). change (uint 8) with (uint (Z.of_nat 8)).
  rewrite uint_app by done. cbn [ok_or rbind]. rewrite bool_decide_eq_false_2 by (intros H; apply H; by left).
  rewrite uint_app by done. cbn [ok_or rbind].
  unfold MAX_ENTRIES in *. rewrite uint_app by (unfold fits; change (2 ^ _) with 4294967296; lia). cbn [ok_or rbind].
  rewrite (proj2 (Z.ltb_ge _ n)) by lia. done.
Qed.

Lemma decode_head_cut t n p l : fits 64 t ->
  p `prefix_of` head_bytes t n ++ l -> len p < len (head_bytes t n) -> decode sha p = Err Truncated.
Proof.
  intros Ht Hp Hl.
  apply prefix_shorter in Hp as [Hp Hne]; [|done]. clear Hl. unfold head_bytes in *. unfold decode.
  change (uint 4) with (uint (Z.of_nat 4)). change (uint 8) with (uint (Z.of_nat 8)).
  apply strict_prefix_app in Hp as [Hl|(p1 & -> & Hp & Hn1)]; [by rewrite take_n_short| |done].
  rewrite take_n_app by done. cbn [ok_or rbind]. rewrite bool_decide_eq_true_2 by done. cbn [negb].
  apply strict_prefix_app in Hp as [Hl|(p2 & -> & Hp & Hn2)]; [by rewrite uint_short| |done].
  rewrite uint_app by done. cbn [ok_or rbind]. rewrite bool_decide_eq_false_2 by (intros H; apply H; by left).
  apply strict_prefix_app in Hp as [Hl|(p3 & -> & Hp & Hn3)]; [rewrite len_be in Hl; by rewrite uint_short| |done].
  rewrite uint_app by done. cbn [ok_or rbind].
  rewrite uint_short; [done|]. destruct Hp as [x Hx]. destruct x as [|y x]; [by rewrite app_nil_r in Hx|].
  apply (f_equal len) in Hx. rewrite len_be, len_app, len_cons in Hx. pose proof (len_nonneg x). lia.
Qed.

Lemma finish_wrong_rest t bytes m l : len l <> 32 -> finish t bytes (Ok (m, l)) = Err Truncated.
Proof.
  intros Hl. unfold finish. cbn [rbind]. rewrite (proj2 (Z.eqb_neq (len l) 32)) by done.
  cbn [negb]. by rewrite orb_true_r.
Qed.

Lemma finish_ok t body m : finish t (body ++ sha body) (Ok (m, sha body)) = Ok (Snapshot 1 t m).
Proof.
  unfold finish. cbn [rbind]. rewrite length_app, H32. replace (length body + 32 - 32)%nat with (length body) by lia.
  rewrite drop_app_length, take_app_length, H32. unfold len. rewrite H32. by rewrite !bool_decide_eq_true_2.
Qed.
End file.

(** ** Properties *)

(** A snapshot whose keys are non-empty valid UTF-8 within the limits is
    read back exactly, and nothing but its whole encoding is accepted: every
    strict prefix and every extension of it is rejected as truncated. *)
Theorem snapshot_exact (sha : list Z -> list Z) (s : snapshot) :
  (forall l, length (sha l) = 32%nat) -> snapshot_ok s ->
  exists b, encode sha s = Ok b /\ decode sha b = Ok s /\
    (forall p, p `prefix_of` b -> p <> b -> decode sha p = Err Truncated) /\
    (forall x, x <> [] -> decode sha (b ++ x) = Err Truncated).
Proof.
  intros H32 (Hv & Ht & He & Hc). destruct s as [v t m]. cbn in Hv, Ht, He, Hc. subst v.
  destruct (in_order_facts m) as (Hn & Hm & Hlen). set (es := in_order m) in *.
  assert (Hok : Forall entry_ok es).
  { apply Forall_forall. intros [k x] Hk. apply He. by apply elem_of_in_order. }
  set (n := len es). assert (Hnb : 0 <= n <= MAX_ENTRIES) by (unfold n, len; lia).
  set (E := concat (entry_bytes <$> es)). set (body := head_bytes t n ++ E).
  assert (HN : Z.to_nat n = length es) by (unfold n, len; lia).
  assert (Hnone : forall k, k ∈ es.*1 -> (∅ : gmap text (list Z)) !! k = None) by done.
  assert (Hdec : forall l, decode_entries (Z.to_nat n) ∅ (E ++ l) = Ok (m, l)).
  { intros l. rewrite HN. unfold E. rewrite decode_entries_ok by done. by rewrite Hm, (right_id_L ∅ (∪)). }
  exists (body ++ sha body). split_and!.
  - unfold encode. cbn [schema_version entries tick].
    rewrite bool_decide_eq_false_2 by (intros H; apply H; by left). fold es n.
    unfold MAX_ENTRIES in *. rewrite (proj2 (Z.ltb_ge u32_max n)) by (unfold u32_max; lia).
    rewrite encode_entries_ok by done. cbn [rbind]. fold E. unfold body, head_bytes. by rewrite <- !app_assoc.
  - unfold body at 1. rewrite <- app_assoc, decode_head, Hdec by done. rewrite app_assoc. fold body. by apply finish_ok.
  - intros p Hp Hne. destruct (decide (len p < len (head_bytes t n))) as [Hl|Hl].
    { unfold body in Hp. rewrite <- app_assoc in Hp. by eapply decode_head_cut. }
    unfold body in Hp, Hne. rewrite <- app_assoc in Hp, Hne.
    apply strict_prefix_app in Hp as [Hl'|(q & -> & Hq & Hqn)]; [lia| |done].
    rewrite decode_head by done. fold body in Hq, Hqn.
    pose proof Hq as Hq0. apply strict_prefix_app in Hq as [Hl'|(r & -> & Hr & Hrn)]; [| |done].
    + destruct (prefix_shorter _ _ _ Hq0 Hl'). by rewrite HN, decode_entries_cut.
    + rewrite Hdec. apply finish_wrong_rest. destruct Hr as [x Hx]. intros Hr. apply Hrn.
      apply (f_equal len) in Hx as Hx'. rewrite len_app in Hx'. unfold len at 1 in Hx'. rewrite H32 in Hx'.
      destruct x as [|y x]; [by rewrite app_nil_r in Hx|]. rewrite len_cons in Hx'. pose proof (len_nonneg x). lia.
  - intros x Hx. unfold body at 1. rewrite <- !app_assoc, decode_head, Hdec by done. apply finish_wrong_rest.
    rewrite len_app. unfold len at 1. rewrite H32. destruct x as [|y x]; [done|]. rewrite len_cons.
    pose proof (len_nonneg x). lia.
Qed.

Lemma snapshot_exact_witness :
  let sha := fun _ => repeat 0 32 in
  let s := Snapshot 1 7 {[codes "k" := [1; 2]]} in
  exists b, encode sha s = Ok b /\ decode sha b = Ok s /\
    (forall p, p `prefix_of` b -> p <> b -> decode sha p = Err Truncated) /\
    (forall x, x <> [] -> decode sha (b ++ x) = Err Truncated).
Proof.
  intros sha s. apply (snapshot_exact sha s); [done|]. split; [done|]. split; [done|]. split; [|done].
  apply map_Forall_singleton. by vm_compute.
Defined.

(** An empty key is written but never read back. *)
Theorem snapshot_empty_key (sha : list Z -> list Z) (v : list Z) :
  len v <= MAX_VALUE_LEN ->
  exists b, encode sha (Snapshot 1 0 {[[] := v]}) = Ok b /\ decode sha b = Err (KeyTooLong 0).
Proof.
  intros Hv. unfold encode. cbn [schema_version entries tick].
  rewrite bool_decide_eq_false_2 by (intros H; apply H; by left).
  assert (Hes : in_order ({[[] := v]} : gmap text (list Z)) = [([], v)])
    by (unfold in_order; by rewrite map_to_list_singleton).
  rewrite Hes. cbn [encode_entries]. change (MAX_KEY_LEN <? len []) with false. cbv iota.
  rewrite (proj2 (Z.ltb_ge _ (len v))) by done. cbn [rbind]. eexists. split; [done|].
  assert (Hd : forall r, decode sha (head_bytes 0 1 ++ be_bytes 2 0 ++ r) = Err (KeyTooLong 0)).
  { intros r. rewrite decode_head by done. change (Z.to_nat 1) with 1%nat. cbn [decode_entries].
    unfold decode_entry. change (uint 2) with (uint (Z.of_nat 2)). by rewrite uint_app. }
  rewrite <- !app_assoc. apply Hd.
Qed.

Lemma snapshot_empty_key_witness :
  exists b, encode (fun _ => []) (Snapshot 1 0 {[[] := [1]]}) = Ok b /\ decode (fun _ => []) b = Err (KeyTooLong 0).
Proof. by apply snapshot_empty_key. Defined.
