(* ===== verification/Ha.v ===== *)
(** High availability of central services (crates/ald-ha/src/lib.rs): the
    circuit breaker, endpoint failover, the offline grace and the leader
    election. *)
From S2P Require Import Prelude RustStr.

(** ** Circuit breaker *)
Inductive circuit_state := Closed | Open (tripped_at_ms : Z) | HalfOpen.

Record circuit_breaker := CircuitBreaker {
  state : circuit_state; failure_threshold : Z; cooldown_ms : Z; consecutive_failures : Z }.

Definition breaker_new (threshold cooldown : Z) : circuit_breaker := CircuitBreaker Closed threshold cooldown 0.

Definition can_execute (b : circuit_breaker) (now : Z) : bool * circuit_breaker :=
  match state b with
  | Closed => (true, b)
  | Open tripped =>
      if cooldown_ms b <=? sat_sub now tripped then
        (true, CircuitBreaker HalfOpen (failure_threshold b) (cooldown_ms b) (consecutive_failures b))
      else (false, b)
  | HalfOpen => (true, b)
  end.

Definition record_success (b : circuit_breaker) : circuit_breaker :=
  CircuitBreaker Closed (failure_threshold b) (cooldown_ms b) 0.

Definition record_failure (b : circuit_breaker) (now : Z) : circuit_breaker :=
  let n := wrap 32 (consecutive_failures b + 1) in
  CircuitBreaker (if failure_threshold b <=? n then Open now else state b) (failure_threshold b) (cooldown_ms b) n.

(** ** Failover *)
Record service_endpoint := ServiceEndpoint { url : string; priority : Z; healthy : bool }.
Definition failover_pool := list service_endpoint.

(** [sort_by_key] is stable. *)
Definition add_endpoint (p : failover_pool) (u : string) (prio : Z) : failover_pool :=
  sort_by priority (p ++ [ServiceEndpoint u prio true]).

Definition mark_healthy (p : failover_pool) (u : string) (h : bool) : failover_pool :=
  update_first (fun e => bool_decide (url e = u)) (fun e => ServiceEndpoint (url e) (priority e) h) p.

Definition get_active_endpoint (p : failover_pool) : option service_endpoint := List.find healthy p.

(** ** Offline grace *)
Record offline_grace := OfflineGrace { grace_started_at_ms : Z; grace_duration_ms : Z }.
Definition is_within_grace (g : offline_grace) (now : Z) : bool :=
  sat_sub now (grace_started_at_ms g) <=? grace_duration_ms g.
Definition remaining_grace_ms (g : offline_grace) (now : Z) : Z :=
  sat_sub (grace_duration_ms g) (sat_sub now (grace_started_at_ms g)).

(** ** Leader election *)
Inductive election_error := StaleEpoch (current provided : Z) | LeaderStillActive (leader : string).

Record leader_coordinator := LeaderCoordinator {
  current_epoch : Z; current_leader : option string; last_heartbeat_ms : Z; heartbeat_timeout_ms : Z }.

Definition coordinator_new (timeout : Z) : leader_coordinator := LeaderCoordinator 0 None 0 timeout.

Definition record_heartbeat (c : leader_coordinator) (leader : string) (epoch now : Z) :
    result unit election_error * leader_coordinator :=
  if epoch <? current_epoch c then (Err (StaleEpoch (current_epoch c) epoch), c)
  else (Ok tt, LeaderCoordinator epoch (Some leader) now (heartbeat_timeout_ms c)).

Definition attempt_claim (c : leader_coordinator) (candidate : string) (now : Z) :
    result Z election_error * leader_coordinator :=
  let timed_out := heartbeat_timeout_ms c <? sat_sub now (last_heartbeat_ms c) in
  match current_leader c with
  | Some leader =>
      if negb timed_out then (Err (LeaderStillActive leader), c)
      else
        let e := wrap 64 (current_epoch c + 1) in
        (Ok e, LeaderCoordinator e (Some candidate) now (heartbeat_timeout_ms c))
  | None =>
      let e := wrap 64 (current_epoch c + 1) in
      (Ok e, LeaderCoordinator e (Some candidate) now (heartbeat_timeout_ms c))
  end.

(** ** The breaker against its history *)
Inductive breaker_op := Probe (now : Z) | Success | Failure (now : Z).
Definition breaker_step (b : circuit_breaker) (o : breaker_op) : circuit_breaker :=
  match o with
  | Probe now => (can_execute b now).2
  | Success => record_success b
  | Failure now => record_failure b now
  end.

(** Failures since the last success, and the time of the last failure. *)
Fixpoint failures (ops : list breaker_op) : Z :=
  match ops with
  | [] => 0
  | Failure _ :: ops => failures ops + 1
  | Success :: _ => 0
  | Probe _ :: ops => failures ops
  end.
Fixpoint last_failure (ops : list breaker_op) : Z :=
  match ops with
  | [] => 0
  | Failure t :: _ => t
  | _ :: ops => last_failure ops
  end.
(** Whether a probe after the last failure came late enough. *)
Fixpoint probed (cooldown : Z) (ops : list breaker_op) : bool :=
  match ops with
  | Probe now :: ops => (cooldown <=? sat_sub now (last_failure ops)) || probed cooldown ops
  | _ => false
  end.

(** The newest operation comes first in the history. *)
Definition breaker_after (threshold cooldown : Z) (hist : list breaker_op) : circuit_breaker :=
  run breaker_step (breaker_new threshold cooldown) (rev hist).

Lemma run_rev_cons {S O} (step : S -> O -> S) s o hist :
  run step s (rev (o :: hist)) = step (run step s (rev hist)) o.
Proof. cbn [rev]. by rewrite run_app. Qed.

Lemma failures_nonneg ops : 0 <= failures ops <= Z.of_nat (length ops).
Proof. induction ops as [|[now| |now] ops IH]; cbn [failures length]; lia. Qed.

Lemma breaker_history threshold cooldown hist :
  1 <= threshold -> Z.of_nat (length hist) < 2 ^ 32 ->
  breaker_after threshold cooldown hist =
    CircuitBreaker
      (if failures hist <? threshold then Closed
       else if probed cooldown hist then HalfOpen else Open (last_failure hist))
      threshold cooldown (failures hist).
Proof.
  intros Ht. induction hist as [|o hist IH]; intros Hl.
  { unfold breaker_after. cbn. by rewrite (proj2 (Z.ltb_lt 0 threshold)) by lia. }
  unfold breaker_after. rewrite run_rev_cons. fold (breaker_after threshold cooldown hist).
  pose proof (failures_nonneg hist) as Hf. cbn [length] in Hl. rewrite IH by lia. clear IH.
  destruct o as [now| |now]; cbn [breaker_step failures last_failure probed].
  - unfold can_execute. cbn [state].
    destruct (failures hist <? threshold); [done|]. destruct (probed cooldown hist); [by rewrite orb_true_r|].
    rewrite orb_false_r. cbn [cooldown_ms]. by destruct (cooldown <=? _).
  - unfold record_success. cbn. by rewrite (proj2 (Z.ltb_lt 0 threshold)) by lia.
  - unfold record_failure. cbn. unfold wrap. rewrite Z.mod_small by lia.
    destruct (threshold <=? failures hist + 1) eqn:E; bool_prop.
    + by rewrite (proj2 (Z.ltb_ge _ threshold)) by lia.
    + rewrite (proj2 (Z.ltb_lt (failures hist) threshold)), (proj2 (Z.ltb_lt _ threshold)) by lia. done.
Qed.

(** ** Election *)
Inductive election_op := Heartbeat (leader : string) (epoch now : Z) | Claim (candidate : string) (now : Z).
Definition election_step (c : leader_coordinator) (o : election_op) : leader_coordinator :=
  match o with
  | Heartbeat l e now => (record_heartbeat c l e now).2
  | Claim l now => (attempt_claim c l now).2
  end.

(** ** Failover *)
Inductive pool_op := AddEndpoint (u : string) (prio : Z) | Mark (u : string) (h : bool).
Definition pool_step (p : failover_pool) (o : pool_op) : failover_pool :=
  match o with AddEndpoint u prio => add_endpoint p u prio | Mark u h => mark_healthy p u h end.

Lemma update_first_sorted f g (p : failover_pool) :
  (forall e, priority (g e) = priority e) ->
  StronglySorted (key_le priority) p -> StronglySorted (key_le priority) (update_first f g p).
Proof.
  intros Hg. induction 1 as [|e p Hp IH He]; cbn [update_first]; [constructor|].
  assert (Hk : forall x y, key_le priority x y -> key_le priority (g x) y) by (intros x y; unfold key_le; by rewrite Hg).
  destruct (f e); (constructor; [done|]).
  - eapply Forall_impl; [exact He|]. intros y. apply Hk.
  - clear Hp IH. induction He as [|y p Hy Hall IH]; cbn [update_first]; [constructor|].
    destruct (f y); constructor; try done. unfold key_le in *. by rewrite Hg.
Qed.

Lemma pool_sorted ops : StronglySorted (key_le priority) (run pool_step [] ops).
Proof.
  apply run_invariant; [|constructor]. intros p [u prio|u h] Hp; cbn [pool_step].
  - apply sort_by_sorted.
  - by apply update_first_sorted.
Qed.

(** The active endpoint is a healthy one of least priority value. *)
Lemma active_endpoint_spec ops e :
  get_active_endpoint (run pool_step [] ops) = Some e ->
  e ∈ run pool_step [] ops /\ healthy e = true /\
  forall e', e' ∈ run pool_step [] ops -> healthy e' = true -> priority e <= priority e'.
Proof.
  pose proof (pool_sorted ops) as Hs. unfold get_active_endpoint. intros Hf.
  destruct (find_Some_elem _ _ _ Hf) as [Hin Hh]. split; [done|]. split; [done|]. revert Hf.
  induction Hs as [|x p Hp IH Hx]; cbn [List.find]; [done|]. destruct (healthy x) eqn:Ex.
  - intros [= <-] e' [->|He']%elem_of_cons _; [lia|]. rewrite Forall_forall in Hx. by apply Hx.
  - intros Hf e' [->|He']%elem_of_cons Hh'; [congruence|].
    apply IH; try done. apply (find_Some_elem _ _ _ Hf).
Qed.

(** ** Properties *)

(** C19: The breaker is a function of its history: it is closed while fewer than
    the threshold failures followed the last success; otherwise calls are
    refused from the last failure until a probe at least a cooldown later. *)
Theorem breaker_spec (threshold cooldown : Z) (hist : list breaker_op) (now : Z) :
  1 <= threshold -> Z.of_nat (length hist) < 2 ^ 32 ->
  (can_execute (breaker_after threshold cooldown hist) now).1 =
    (failures hist <? threshold) || probed cooldown hist || (cooldown <=? sat_sub now (last_failure hist)).
Proof.
  intros Ht Hl. rewrite breaker_history by done. unfold can_execute. cbn [state].
  destruct (failures hist <? threshold); [done|]. destruct (probed cooldown hist); [done|].
  cbn [cooldown_ms orb]. by destruct (cooldown <=? _).
Qed.

Lemma breaker_spec_witness :
  (can_execute (breaker_after 2 5000 [Failure 1100; Failure 1000]) 2000).1 = false.
Proof. apply (breaker_spec 2 5000 [Failure 1100; Failure 1000] 2000); vm_compute; congruence. Defined.

(** A claim succeeds exactly when there is no leader or its heartbeat is
    older than the timeout, and then wins a larger epoch than the coordinator
    has seen; no operation lowers the epoch, as long as it stays below its
    64-bit maximum. *)
Theorem election_epochs (c : leader_coordinator) :
  0 <= current_epoch c < u64_max ->
  (forall candidate now,
    let '(r, c') := attempt_claim c candidate now in
    if bool_decide (current_leader c = None) || (heartbeat_timeout_ms c <? sat_sub now (last_heartbeat_ms c))
    then r = Ok (current_epoch c + 1) /\ current_leader c' = Some candidate /\ current_epoch c' = current_epoch c + 1
    else c' = c /\ is_ok r = false) /\
  (forall o, current_epoch c <= current_epoch (election_step c o)).
Proof.
  unfold u64_max. intros He. assert (Hw : wrap 64 (current_epoch c + 1) = current_epoch c + 1)
    by (unfold wrap; apply Z.mod_small; lia).
  split.
  - intros candidate now. unfold attempt_claim. rewrite Hw. destruct (current_leader c) as [l|]; cbn [bool_decide].
    + rewrite bool_decide_eq_false_2 by done. cbn [orb]. by destruct (heartbeat_timeout_ms c <? _).
    + by rewrite bool_decide_eq_true_2.
  - intros [l e now|l now]; cbn [election_step].
    + unfold record_heartbeat. destruct (e <? current_epoch c) eqn:E; bool_prop; cbn; lia.
    + unfold attempt_claim. rewrite Hw. destruct (current_leader c); [destruct (negb _)|]; cbn; lia.
Qed.

Lemma election_epochs_witness :
  current_epoch (coordinator_new 100) <= current_epoch (election_step (coordinator_new 100) (Claim "a" 5)).
Proof. by apply (election_epochs (coordinator_new 100)). Defined.

(** The election is not safe against a second node of the same epoch: a
    heartbeat of another node is accepted and takes the leadership from a live
    leader, and a heartbeat of the largest epoch makes the next claim wrap to
    epoch 0. *)
Theorem heartbeat_steals :
  let c := (attempt_claim (coordinator_new 1000) "a" 0).2 in
  current_leader c = Some "a"%string /\
  (let '(r, c2) := record_heartbeat c "b" 1 1 in r = Ok tt /\ current_leader c2 = Some "b"%string) /\
  (let c3 := (record_heartbeat c "a" u64_max 1).2 in (attempt_claim c3 "b" 2000).1 = Ok 0).
Proof. by vm_compute. Qed.
