(* ===== verification/Sharding.v ===== *)
(** Shards, player hand-off and entity leases (crates/ald-sharding/src/lib.rs).
    Region bounds and coordinates are binary32 numbers. *)
From Stdlib Require Import Floats.SpecFloat.
From S2P Require Import Prelude RustStr.

Abbreviation f32 := spec_float.

Record shard_region := ShardRegion { region_shard : Z; min_x : f32; max_x : f32; min_y : f32; max_y : f32 }.

Definition contains (r : shard_region) (x y : f32) : bool :=
  SFleb (min_x r) x && SFleb x (max_x r) && SFleb (min_y r) y && SFleb y (max_y r).

Inductive handoff_phase := Initiated | Prepared | Committed | Aborted (reason : string).
#[global] Instance handoff_phase_eq_dec : EqDecision handoff_phase.
Proof. solve_decision. Defined.

Record handoff_ticket := HandoffTicket {
  ticket_id : string; player_id : Z; from_shard : Z; to_shard : Z; t_entities : list Z; phase : handoff_phase }.

Record ownership_lease := Lease { entity_id : Z; owner_shard : Z; epoch : Z; expires_at_ms : Z }.

Inductive sharding_error :=
| ShardNotFound (s : Z) | TicketNotFound (id : string)
| InvalidTransition (from to : handoff_phase) | LeaseConflict (e s : Z).

Record coordinator := Coordinator {
  regions : list shard_region; tickets : gmap string handoff_ticket;
  leases : gmap Z ownership_lease; current_epoch : Z }.

Definition coordinator_new : coordinator := Coordinator [] ∅ ∅ 1.

Definition register_shard (c : coordinator) (r : shard_region) : coordinator :=
  Coordinator (regions c ++ [r]) (tickets c) (leases c) (current_epoch c).

Definition locate_shard (c : coordinator) (x y : f32) : option Z :=
  region_shard <$> List.find (fun r => contains r x y) (regions c).

Definition has_shard (c : coordinator) (s : Z) : bool := existsb (fun r => region_shard r =? s) (regions c).

Definition with_phase (t : handoff_ticket) (p : handoff_phase) : handoff_ticket :=
  HandoffTicket (ticket_id t) (player_id t) (from_shard t) (to_shard t) (t_entities t) p.

Definition initiate_handoff (c : coordinator) (id : string) (player from to : Z) (entities : list Z) :
    result handoff_ticket sharding_error * coordinator :=
  if negb (has_shard c from) then (Err (ShardNotFound from), c)
  else if negb (has_shard c to) then (Err (ShardNotFound to), c)
  else
    let t := HandoffTicket id player from to entities Initiated in
    (Ok t, Coordinator (regions c) (<[id := t]> (tickets c)) (leases c) (current_epoch c)).

(** The lease check of [prepare_handoff]. *)
Definition lease_conflict (c : coordinator) (from now : Z) (ent : Z) : option Z :=
  match leases c !! ent with
  | Some l => if negb (owner_shard l =? from) && (now <? expires_at_ms l) then Some (owner_shard l) else None
  | None => None
  end.

Fixpoint check_entities (c : coordinator) (from now : Z) (ents : list Z) : result unit sharding_error :=
  match ents with
  | [] => Ok tt
  | e :: ents =>
      match lease_conflict c from now e with
      | Some o => Err (LeaseConflict e o)
      | None => check_entities c from now ents
      end
  end.

Definition prepare_handoff (c : coordinator) (id : string) (now : Z) : result unit sharding_error * coordinator :=
  match tickets c !! id with
  | None => (Err (TicketNotFound id), c)
  | Some t =>
      if negb (bool_decide (phase t = Initiated)) then (Err (InvalidTransition (phase t) Prepared), c)
      else match check_entities c (from_shard t) now (t_entities t) with
      | Err e => (Err e, c)
      | Ok _ => (Ok tt, Coordinator (regions c) (<[id := with_phase t Prepared]> (tickets c)) (leases c) (current_epoch c))
      end
  end.

Definition commit_handoff (c : coordinator) (id : string) (ttl now : Z) : result unit sharding_error * coordinator :=
  match tickets c !! id with
  | None => (Err (TicketNotFound id), c)
  | Some t =>
      if negb (bool_decide (phase t = Prepared)) then (Err (InvalidTransition (phase t) Committed), c)
      else
        let e := wrap 64 (current_epoch c + 1) in
        let exp := wrap 64 (now + ttl) in
        let ls := foldl (fun m ent => <[ent := Lease ent (to_shard t) e exp]> m) (leases c) (t_entities t) in
        (Ok tt, Coordinator (regions c) (<[id := with_phase t Committed]> (tickets c)) ls e)
  end.

Definition abort_handoff (c : coordinator) (id reason : string) : result unit sharding_error * coordinator :=
  match tickets c !! id with
  | None => (Err (TicketNotFound id), c)
  | Some t =>
      (Ok tt, Coordinator (regions c) (<[id := with_phase t (Aborted reason)]> (tickets c)) (leases c) (current_epoch c))
  end.

Definition acquire_lease (c : coordinator) (ent shard ttl now : Z) :
    result ownership_lease sharding_error * coordinator :=
  match lease_conflict c shard now ent with
  | Some o => (Err (LeaseConflict ent o), c)
  | None =>
      let e := wrap 64 (current_epoch c + 1) in
      let l := Lease ent shard e (wrap 64 (now + ttl)) in
      (Ok l, Coordinator (regions c) (tickets c) (<[ent := l]> (leases c)) e)
  end.

Definition get_lease (c : coordinator) (ent : Z) : option ownership_lease := leases c !! ent.

Definition reclaim_expired_leases (c : coordinator) (now : Z) : nat * coordinator :=
  let ls := filter (fun p => now < expires_at_ms p.2) (leases c) in
  ((size (leases c) - size ls)%nat, Coordinator (regions c) (tickets c) ls (current_epoch c)).

(** ** Executions *)
Inductive shard_op :=
| Register (r : shard_region)
| Initiate (id : string) (player from to : Z) (ents : list Z)
| Prepare (id : string) (now : Z)
| Commit (id : string) (ttl now : Z)
| Abort_ (id reason : string)
| Acquire (ent shard ttl now : Z)
| Reclaim (now : Z).

Definition shard_step (c : coordinator) (o : shard_op) : coordinator :=
  match o with
  | Register r => register_shard c r
  | Initiate id p f t es => (initiate_handoff c id p f t es).2
  | Prepare id now => (prepare_handoff c id now).2
  | Commit id ttl now => (commit_handoff c id ttl now).2
  | Abort_ id r => (abort_handoff c id r).2
  | Acquire e s ttl now => (acquire_lease c e s ttl now).2
  | Reclaim now => (reclaim_expired_leases c now).2
  end.

(** The leases an operation hands out. *)
Definition granted (c : coordinator) (o : shard_op) : list ownership_lease :=
  match o with
  | Acquire e s ttl now => match (acquire_lease c e s ttl now).1 with Ok l => [l] | Err _ => [] end
  | Commit id ttl now =>
      match (commit_handoff c id ttl now).1, tickets c !! id with
      | Ok _, Some t => (fun e => Lease e (to_shard t) (wrap 64 (current_epoch c + 1)) (wrap 64 (now + ttl))) <$> t_entities t
      | _, _ => []
      end
  | _ => []
  end.

Lemma foldl_insert_lookup (t : Z) (e x : Z) ents (m : gmap Z ownership_lease) k l :
  foldl (fun m ent => <[ent := Lease ent t e x]> m) m ents !! k = Some l ->
  (k ∈ ents /\ l = Lease k t e x) \/ (k ∉ ents /\ m !! k = Some l).
Proof.
  revert m. induction ents as [|y ents IH]; intros m; cbn [foldl]; [right; split; [apply not_elem_of_nil|done]|].
  intros [[Hk ->]|[Hk Hm]]%IH; [left; split; [by right|done]|].
  apply lookup_insert_Some in Hm as [[<- <-]|[Hne Hm]]; [left; split; [by left|done]|].
  right. split; [|done]. by intros [->|?]%elem_of_cons.
Qed.

(** Every lease of the next state is an old one or was granted by the step. *)
Lemma step_leases c o ent l : leases (shard_step c o) !! ent = Some l ->
  leases c !! ent = Some l \/ (l ∈ granted c o /\ entity_id l = ent).
Proof.
  destruct o as [r|id p f t es|id now|id ttl now|id r|e s ttl now|now]; cbn [shard_step granted].
  - by left.
  - unfold initiate_handoff. destruct (negb _); [by left|]. destruct (negb _); by left.
  - unfold prepare_handoff. destruct (tickets c !! id); [|by left]. destruct (negb _); [by left|].
    destruct (check_entities _ _ _ _); by left.
  - unfold commit_handoff. destruct (tickets c !! id) as [t|]; [|by left]. destruct (negb _); [by left|]. cbn.
    intros [[Hin ->]|[_ Hl]]%foldl_insert_lookup; [|by left]. right. split; [|done]. apply list_elem_of_fmap. by exists ent.
  - unfold abort_handoff. destruct (tickets c !! id); by left.
  - unfold acquire_lease. destruct (lease_conflict _ _ _ _); [by left|]. cbn.
    intros [[<- <-]|[_ Hl]]%lookup_insert_Some; [right; split; [by left|done]|by left].
  - cbn. intros [Hl _]%map_lookup_filter_Some. by left.
Qed.

Lemma granted_epoch c o l : 1 <= current_epoch c < u64_max -> l ∈ granted c o ->
  epoch l = current_epoch c + 1 /\ current_epoch (shard_step c o) = current_epoch c + 1.
Proof.
  unfold u64_max. intros He. assert (Hw : wrap 64 (current_epoch c + 1) = current_epoch c + 1)
    by (unfold wrap; apply Z.mod_small; lia).
  destruct o as [r|id p f t es|id now|id ttl now|id r|e s ttl now|now]; cbn [granted shard_step];
    try (by intros ?%elem_of_nil).
  - unfold commit_handoff. destruct (tickets c !! id) as [t|]; [|by intros ?%elem_of_nil].
    destruct (negb _); cbn; [by intros ?%elem_of_nil|]. rewrite Hw. by intros (x & -> & _)%list_elem_of_fmap.
  - unfold acquire_lease. destruct (lease_conflict _ _ _ _); cbn; [by intros ?%elem_of_nil|]. rewrite Hw.
    by intros ->%list_elem_of_singleton.
Qed.

Lemma step_epoch c o : 1 <= current_epoch c < u64_max ->
  current_epoch c <= current_epoch (shard_step c o) <= current_epoch c + 1.
Proof.
  unfold u64_max. intros He. assert (Hw : wrap 64 (current_epoch c + 1) = current_epoch c + 1)
    by (unfold wrap; apply Z.mod_small; lia).
  destruct o as [r|id p f t es|id now|id ttl now|id r|e s ttl now|now]; cbn [shard_step]; cbn; try lia.
  - unfold initiate_handoff. repeat destruct (negb _); cbn; lia.
  - unfold prepare_handoff. destruct (tickets c !! id); [|cbn; lia]. destruct (negb _); [cbn; lia|].
    destruct (check_entities _ _ _ _); cbn; lia.
  - unfold commit_handoff. destruct (tickets c !! id); [|cbn; lia]. destruct (negb _); cbn; lia.
  - unfold abort_handoff. destruct (tickets c !! id); cbn; lia.
  - unfold acquire_lease. destruct (lease_conflict _ _ _ _); cbn; lia.
Qed.

(** A live lease of another shard blocks an acquisition. *)
Lemma acquire_exclusive c ent shard ttl now l :
  leases c !! ent = Some l -> owner_shard l <> shard -> now < expires_at_ms l ->
  acquire_lease c ent shard ttl now = (Err (LeaseConflict ent (owner_shard l)), c).
Proof.
  intros Hl Ho Hn. unfold acquire_lease, lease_conflict. rewrite Hl.
  by rewrite (proj2 (Z.eqb_neq _ _)), (proj2 (Z.ltb_lt _ _)).
Qed.

Lemma lease_invariant ops :
  Z.of_nat (length ops) < u64_max - 1 ->
  let c := run shard_step coordinator_new ops in
  1 <= current_epoch c <= 1 + Z.of_nat (length ops) /\
  (forall ent l, leases c !! ent = Some l -> entity_id l = ent /\ 1 < epoch l <= current_epoch c).
Proof.
  induction ops as [|o ops IH] using rev_ind; intros Hl.
  { cbn. split; [lia|]. intros ent l H. by rewrite lookup_empty in H. }
  rewrite length_app in *. cbn [length] in *. destruct IH as [He Hc]; [lia|]. rewrite run_app. cbn [run foldl].
  fold (run shard_step coordinator_new ops). set (c := run shard_step coordinator_new ops) in *.
  assert (He' : 1 <= current_epoch c < u64_max) by lia.
  pose proof (step_epoch c o He') as Hs. split; [lia|].
  intros ent l Hlk. destruct (step_leases _ _ _ _ Hlk) as [Hold|[Hg Hid]].
  - destruct (Hc _ _ Hold). split; [done|lia].
  - destruct (granted_epoch _ _ _ He' Hg) as [Hep Hcur]. split; [done|lia].
Qed.

(** ** Properties *)

(** Leases are fenced: in every reachable coordinator a lease carries its
    entity and an epoch that was issued; a step changes the lease of an entity
    only to one it grants itself, with an epoch above every lease before it; an
    acquisition never takes an entity from the live lease of another shard. *)
Theorem lease_fencing (ops : list shard_op) (o : shard_op) :
  Z.of_nat (length ops) < u64_max - 2 ->
  let c := run shard_step coordinator_new ops in
  (forall ent l, leases c !! ent = Some l -> entity_id l = ent /\ 1 < epoch l <= current_epoch c) /\
  (forall ent l', leases (shard_step c o) !! ent = Some l' ->
    leases c !! ent = Some l' \/
    (l' ∈ granted c o /\ forall ent2 l, leases c !! ent2 = Some l -> epoch l < epoch l')) /\
  (forall ent shard ttl now l, leases c !! ent = Some l -> owner_shard l <> shard -> now < expires_at_ms l ->
    acquire_lease c ent shard ttl now = (Err (LeaseConflict ent (owner_shard l)), c)).
Proof.
  intros Hl c. destruct (lease_invariant ops) as [He Hc]; [lia|]. fold c in He, Hc. split; [done|]. split.
  - intros ent l' [Hold|[Hg _]]%step_leases; [by left|]. right. split; [done|]. intros ent2 l H2.
    destruct (granted_epoch c o l') as [Hep _]; [lia|done|]. destruct (Hc _ _ H2). lia.
  - intros. by apply acquire_exclusive.
Qed.

Lemma lease_fencing_witness :
  let c := run shard_step coordinator_new [Acquire 7 1 100 0] in
  acquire_lease c 7 2 100 50 = (Err (LeaseConflict 7 1), c).
Proof.
  intros c. apply (lease_fencing [Acquire 7 1 100 0] (Reclaim 0)) with (l := Lease 7 1 2 100);
    vm_compute; congruence.
Defined.

(** The hand-off is not atomic with the leases: between prepare and commit
    another shard can take a live lease, which the commit overwrites; a
    committed hand-off can still be aborted, and its ticket then denies a
    transfer that has happened. *)
Theorem handoff_gaps :
  let r s := ShardRegion s (S754_zero false) (S754_zero false) (S754_zero false) (S754_zero false) in
  let pre := [Register (r 1); Register (r 2); Register (r 3); Initiate "t" 9 1 2 [7]; Prepare "t" 0; Acquire 7 3 1000 10] in
  let c := run shard_step coordinator_new pre in
  let c1 := shard_step c (Commit "t" 1000 20) in
  let c2 := shard_step c1 (Abort_ "t" "late") in
  leases c !! 7 = Some (Lease 7 3 2 1010) /\
  leases c1 !! 7 = Some (Lease 7 2 3 1020) /\
  leases c2 !! 7 = Some (Lease 7 2 3 1020) /\ (phase <$> tickets c2 !! "t"%string) = Some (Aborted "late").
Proof. by vm_compute. Qed.
