(* ===== verification/Assets.v ===== *)
(** From file to playable asset: the format registry
    (crates/ald-asset-registry/src/lib.rs), the data files
    (crates/ald-datafiles/src/lib.rs), the mount pipeline
    (crates/ald-mount/src/lib.rs) and the residency handshake
    (crates/ald-residency/src/lib.rs). *)
From S2P Require Import Prelude RustStr.

(** * Formats *)
Module Formats.

Inductive stream_class := Texture | Geometry | Collision | MapData | Animation | Audio | Metadata | Data.
Inductive entry_source := SpecSeed | Certified.
#[global] Instance entry_source_eq_dec : EqDecision entry_source.
Proof. solve_decision. Defined.

Record asset_format := AssetFormat { extension : text; class : stream_class; source : entry_source; note : string }.

Inductive registry_error := BadExtension (e : text) | Duplicate (e : text).
Inductive recognition := Known (f : asset_format) | Unknown (extension : text).

Definition registry := gmap text asset_format.

Definition SEED_NOTE : string := "spec seed: recognized for routing, content uncertified".
Definition seed : list (string * stream_class) :=
  [(".ytd", Texture); (".yft", Geometry); (".ydd", Geometry); (".ydr", Geometry); (".ybn", Collision);
   (".ymap", MapData); (".ytyp", MapData); (".ycd", Animation); (".awc", Audio); (".rel", Data); (".ymt", Metadata)]%string.

Definition with_spec_seed : registry :=
  foldl (fun r '(e, c) => <[codes e := AssetFormat (codes e) c SpecSeed SEED_NOTE]> r) ∅ seed.

Definition alnum (c : Z) : bool :=
  ((48 <=? c) && (c <=? 57)) || ((65 <=? c) && (c <=? 90)) || ((97 <=? c) && (c <=? 122)).

(** [rsplit_once('.')]: the part after the last dot. *)
Definition after_last_dot (l : text) : option text :=
  match split_on 46 l with (_ :: _ :: _) as segs => last segs | _ => None end.

Definition base_name (l : text) : text := default [] (last (split_on 47 (replace_char 92 [47] l))).

Definition extension_of (s : text) : option text :=
  match after_last_dot (base_name (trim_text s)) with
  | Some ext =>
      if bool_decide (ext = []) || (16 <? Z.of_nat (length ext)) || negb (forallb alnum ext) then None
      else Some (46 :: to_lower ext)
  | None => None
  end.

Definition normalize_extension (raw : text) : result text registry_error :=
  let t := to_lower (trim_text raw) in
  if existsb (fun c => (c =? 0) || (c =? 47) || (c =? 92) || (c =? 58)) t then Err (BadExtension raw)
  else
    let? ext := (match extension_of t with
      | Some e => Ok e
      | None =>
          if bool_decide (t = []) || (16 <? Z.of_nat (length t)) || negb (forallb alnum t) then Err (BadExtension raw)
          else Ok (46 :: t)
      end) in
    if 17 <? Z.of_nat (length ext) then Err (BadExtension raw) else Ok ext.

Definition register (r : registry) (e : text) (c : stream_class) (s : entry_source) (n : string) :
    result unit registry_error * registry :=
  match normalize_extension e with
  | Err x => (Err x, r)
  | Ok ext =>
      match r !! ext with
      | Some f =>
          if bool_decide (source f = SpecSeed) && bool_decide (s = Certified)
          then (Ok tt, <[ext := AssetFormat ext c s n]> r)
          else (Err (Duplicate ext), r)
      | None => (Ok tt, <[ext := AssetFormat ext c s n]> r)
      end
  end.

Definition recognize (r : registry) (path : text) : recognition :=
  match extension_of path with
  | Some ext => match r !! ext with Some f => Known f | None => Unknown ext end
  | None => Unknown []
  end.

Definition format_count (r : registry) : nat := size r.
End Formats.

(** * Data files (crates/ald-datafiles/src/lib.rs) *)
Module DataFiles.

Inductive data_file_category :=
| Vehicle | Handling | Appearance | Variation | Layout | Ped | Clothing | MapInterior | Audio | Weapon | Clip
| Population | Vfx | TextureParenting | Other.
#[global] Instance data_file_category_eq_dec : EqDecision data_file_category.
Proof. solve_decision. Defined.
Inductive entry_source := SpecSeed | Certified.
#[global] Instance entry_source_eq_dec : EqDecision entry_source.
Proof. solve_decision. Defined.

Record data_file_entry := DataFileEntry {
  file_name : text; category : data_file_category; source : entry_source; note : string }.

Inductive data_file_error := BadName (n : text) | Duplicate (n : text).

Abbreviation registry := (gmap text data_file_entry).

Definition SEED_NOTE : string := "spec seed: vehicle graph".
Definition seed : list (string * data_file_category) :=
  [("vehicles.meta", Vehicle); ("handling.meta", Handling); ("carcols.meta", Appearance);
   ("carvariations.meta", Variation); ("vehiclelayouts.meta", Layout)]%string.

Definition with_spec_seed : registry :=
  foldl (fun r '(n, c) => <[codes n := DataFileEntry (codes n) c SpecSeed SEED_NOTE]> r) ∅ seed.

Definition is_alpha (c : Z) : bool := ((65 <=? c) && (c <=? 90)) || ((97 <=? c) && (c <=? 122)).
Definition is_sep (c : Z) : bool := (c =? 92) || (c =? 47).

(** A drive prefix is cut off; a colon elsewhere is refused. *)
Definition without_drive (t : text) : option text :=
  match t with
  | drive :: 58 :: sep :: rest => if is_alpha drive && is_sep sep then Some rest else None
  | _ => if existsb (Z.eqb 58) t then None else Some t
  end.

Definition last_name (t : text) : text := default [] (last (split_on 47 (replace_char 92 [47] t))).

Definition normalize_name (raw : text) : result text data_file_error :=
  let t := trim_text raw in
  if bool_decide (t = []) || existsb (Z.eqb 0) t then Err (BadName raw)
  else match without_drive t with
  | None => Err (BadName raw)
  | Some t =>
      let base := last_name t in
      if bool_decide (base = []) || bool_decide (base = codes ".") || bool_decide (base = codes "..") ||
         (128 <? Z.of_nat (length base)) then Err (BadName raw)
      else if negb (existsb (Z.eqb 46) base) then Err (BadName raw)
      else Ok (to_lower base)
  end.

Definition register (r : registry) (n : text) (c : data_file_category) (s : entry_source) (nt : string) :
    result unit data_file_error * registry :=
  match normalize_name n with
  | Err e => (Err e, r)
  | Ok key =>
      let entry := <[key := DataFileEntry key c s nt]> r in
      match r !! key with
      | Some f =>
          if bool_decide (source f = SpecSeed) && bool_decide (s = Certified) then (Ok tt, entry)
          else (Err (Duplicate key), r)
      | None => (Ok tt, entry)
      end
  end.

Definition lookup (r : registry) (n : text) : option data_file_entry :=
  match normalize_name n with Ok key => r !! key | Err _ => None end.

Definition by_category (r : registry) (c : data_file_category) : list data_file_entry :=
  List.filter (fun e => bool_decide (category e = c)) (in_order r).*2.

Definition entry_count (r : registry) : nat := size r.

(** A registration is what the same name looks up afterwards; it never changes
    another entry, nor a certified one. *)
Theorem register_spec (r : registry) (n : text) c s nt :
  let '(res, r') := register r n c s nt in
  (res = Ok tt -> exists key, normalize_name n = Ok key /\ lookup r' n = Some (DataFileEntry key c s nt)) /\
  (forall k e, r !! k = Some e -> source e = Certified -> r' !! k = Some e) /\
  (forall k, normalize_name n <> Ok k -> r' !! k = r !! k).
Proof.
  unfold register, lookup. destruct (normalize_name n) as [key|] eqn:En; [|split_and!; [by intros [=]|done..]].
  assert (Hins : forall k, Ok (E := data_file_error) key <> Ok k -> <[key := DataFileEntry key c s nt]> r !! k = r !! k)
    by (intros k Hk; rewrite lookup_insert_ne; [done|congruence]).
  destruct (r !! key) as [f|] eqn:Er.
  - destruct (bool_decide (source f = SpecSeed) && _) eqn:Eb; [|split_and!; [by intros [=]|done..]].
    apply andb_true_iff in Eb as [Hs%bool_decide_eq_true _]. split_and!; [|intros k e Hk He|done].
    + intros _. exists key. by rewrite lookup_insert_eq.
    + rewrite lookup_insert_ne; [done|]. intros <-. congruence.
  - split_and!; [|intros k e Hk _|done].
    + intros _. exists key. by rewrite lookup_insert_eq.
    + rewrite lookup_insert_ne; [done|]. intros <-. congruence.
Qed.

(** Colons are refused because of alternate data streams, but not behind a
    drive prefix; and a path with a blank before its last name registers a key
    that the key itself does not look up. *)
Theorem name_gaps :
  normalize_name (codes "c:/x/a.meta:evil") = Ok (codes "a.meta:evil") /\
  normalize_name (codes "a.meta:evil") = Err (BadName (codes "a.meta:evil")) /\
  normalize_name (codes "x/ a.meta") = Ok (codes " a.meta") /\
  normalize_name (codes " a.meta") = Ok (codes "a.meta").
Proof. split_and!; vm_compute; reflexivity. Qed.
End DataFiles.

(** * The mount pipeline *)
Module Mounting.
Import Formats.

Inductive mount_state :=
| Queued | Verifying | Verified | DependenciesReady | MountPending | Mounted | Registered
| FailedRetryable (reason : string) | FailedFatal (reason : string) | Cancelled.
#[global] Instance mount_state_eq_dec : EqDecision mount_state.
Proof. solve_decision. Defined.

Definition terminal (s : mount_state) : bool :=
  match s with Registered | FailedRetryable _ | FailedFatal _ | Cancelled => true | _ => false end.

Inductive mount_error :=
| UnknownAsset (id : string) | UnknownFormat (f : text)
| BadTransition (from : mount_state) (op : string) | Terminal.

Record mount_record := MountRecord {
  asset_id : string; file_name : text; m_class : stream_class; expected_hash : option string;
  dependencies : list string; state : mount_state; mount_point : option string }.

Abbreviation mounter := (gmap string mount_record).

Definition with_state (r : mount_record) (s : mount_state) : mount_record :=
  MountRecord (asset_id r) (file_name r) (m_class r) (expected_hash r) (dependencies r) s (mount_point r).

Definition queue (m : mounter) (id : string) (f : text) (formats : registry) (hash : option string) (deps : list string) :
    result unit mount_error * mounter :=
  match recognize formats f with
  | Unknown _ => (Err (UnknownFormat f), m)
  | Known k =>
      match m !! id with
      | Some r => (Err (BadTransition (state r) "re-queue"), m)
      | None => (Ok tt, <[id := MountRecord id f (class k) hash deps Queued None]> m)
      end
  end.

(** [check] compares discriminants. *)
Definition same_kind (a b : mount_state) : bool :=
  match a, b with
  | Queued, Queued | Verifying, Verifying | Verified, Verified | DependenciesReady, DependenciesReady
  | MountPending, MountPending | Mounted, Mounted | Registered, Registered
  | FailedRetryable _, FailedRetryable _ | FailedFatal _, FailedFatal _ | Cancelled, Cancelled => true
  | _, _ => false
  end.
Definition check (s want : mount_state) (op : string) : result unit mount_error :=
  if terminal s then Err Terminal else if negb (same_kind s want) then Err (BadTransition s op) else Ok tt.

(** [record_mut], [check] and the update of one operation. *)
Definition advance (m : mounter) (id : string) (want : mount_state) (op : string)
    (f : mount_record -> mount_record) : result unit mount_error * mounter :=
  match m !! id with
  | None => (Err (UnknownAsset id), m)
  | Some r =>
      match check (state r) want op with
      | Err e => (Err e, m)
      | Ok _ => (Ok tt, <[id := f r]> m)
      end
  end.

Definition begin_verify (m : mounter) (id : string) :=
  advance m id Queued "begin_verify" (fun r => with_state r Verifying).

Definition finish_verify (m : mounter) (id : string) (hash_ok : bool) (detail : string) :=
  advance m id Verifying "finish_verify"
    (fun r => with_state r (if hash_ok then Verified else FailedRetryable ("hash mismatch: " ++ detail))).

Definition check_dependencies (m : mounter) (id : string) (resolve : string -> bool) :=
  advance m id Verified "check_dependencies"
    (fun r =>
      let missing := List.filter (fun d => negb (resolve d)) (dependencies r) in
      with_state r (if bool_decide (missing = []) then DependenciesReady
        else FailedRetryable ("missing datafiles: " ++ String.concat ", " missing))).

Definition begin_mount (m : mounter) (id point : string) :=
  advance m id DependenciesReady "begin_mount"
    (fun r => MountRecord (asset_id r) (file_name r) (m_class r) (expected_hash r) (dependencies r) MountPending (Some point)).

Definition complete_mount (m : mounter) (id : string) :=
  advance m id MountPending "complete_mount" (fun r => with_state r Mounted).

Definition register (m : mounter) (id : string) :=
  advance m id Mounted "register" (fun r => with_state r Registered).

(** [cancel] and [fail] work from any state that is not terminal. *)
Definition leave (m : mounter) (id : string) (s : mount_state) : result unit mount_error * mounter :=
  match m !! id with
  | None => (Err (UnknownAsset id), m)
  | Some r => if terminal (state r) then (Err Terminal, m) else (Ok tt, <[id := with_state r s]> m)
  end.
Definition cancel (m : mounter) (id : string) := leave m id Cancelled.
Definition fail_ (m : mounter) (id reason : string) (retryable : bool) :=
  leave m id (if retryable then FailedRetryable reason else FailedFatal reason).

Definition state_of (m : mounter) (id : string) : option mount_state := state <$> m !! id.
Definition record_count (m : mounter) : nat := size m.

Inductive mount_op :=
| OQueue (id : string) (f : text) (formats : registry) (hash : option string) (deps : list string)
| OBeginVerify (id : string)
| OFinishVerify (id : string) (ok : bool) (detail : string)
| OCheckDeps (id : string) (resolve : string -> bool)
| OBeginMount (id point : string)
| OCompleteMount (id : string)
| ORegister (id : string)
| OCancel (id : string)
| OFail (id reason : string) (retryable : bool).

Definition step (m : mounter) (o : mount_op) : mounter :=
  match o with
  | OQueue id f k h d => (queue m id f k h d).2
  | OBeginVerify id => (begin_verify m id).2
  | OFinishVerify id b d => (finish_verify m id b d).2
  | OCheckDeps id r => (check_dependencies m id r).2
  | OBeginMount id p => (begin_mount m id p).2
  | OCompleteMount id => (complete_mount m id).2
  | ORegister id => (register m id).2
  | OCancel id => (cancel m id).2
  | OFail id r b => (fail_ m id r b).2
  end.

(** The operations that carry an asset with dependencies [deps] to a state. *)
Inductive walked (id : string) (deps : list string) : mount_state -> list mount_op -> Prop :=
| w_queue f k h fmt : recognize k f = Known fmt -> walked id deps Queued [OQueue id f k h deps]
| w_begin l : walked id deps Queued l -> walked id deps Verifying (l ++ [OBeginVerify id])
| w_verified l d : walked id deps Verifying l -> walked id deps Verified (l ++ [OFinishVerify id true d])
| w_ready l r : walked id deps Verified l -> Forall (fun x => r x = true) deps ->
    walked id deps DependenciesReady (l ++ [OCheckDeps id r])
| w_pending l p : walked id deps DependenciesReady l -> walked id deps MountPending (l ++ [OBeginMount id p])
| w_mounted l : walked id deps MountPending l -> walked id deps Mounted (l ++ [OCompleteMount id])
| w_registered l : walked id deps Mounted l -> walked id deps Registered (l ++ [ORegister id]).

Definition failed (s : mount_state) : bool :=
  match s with FailedRetryable _ | FailedFatal _ | Cancelled => true | _ => false end.

Definition explained (ops : list mount_op) (id : string) (r : mount_record) : Prop :=
  failed (state r) = true \/ exists l, walked id (dependencies r) (state r) l /\ l `sublist_of` ops.

Lemma explained_more ops o id r : explained ops id r -> explained (ops ++ [o]) id r.
Proof. intros [H|(l & Hl & Hs)]; [by left|]. right. exists l. split; [done|]. by apply sublist_inserts_r. Qed.

Lemma explained_step ops o id r l :
  walked id (dependencies r) (state r) (l ++ [o]) -> l `sublist_of` ops -> explained (ops ++ [o]) id r.
Proof. intros Hw Hs. right. exists (l ++ [o]). split; [done|]. by apply sublist_app. Qed.

Lemma mount_check_ok s want op : check s want op = Ok tt -> failed want = false -> want <> Registered -> s = want.
Proof.
  unfold check. destruct (terminal s) eqn:Et; [done|]. destruct (same_kind s want) eqn:E; [|done]. intros _ Hw Hr.
  by destruct s, want.
Qed.

Definition all_explained (ops : list mount_op) (m : mounter) : Prop := map_Forall (explained ops) m.

Lemma advance_explained ops m id want op f o :
  all_explained ops m -> failed want = false -> want <> Registered ->
  (forall r l, m !! id = Some r -> walked id (dependencies r) want l -> state r = want ->
    failed (state (f r)) = true \/ walked id (dependencies (f r)) (state (f r)) (l ++ [o])) ->
  all_explained (ops ++ [o]) (advance m id want op f).2.
Proof.
  intros Hm Hw Hwr Hf. assert (Hm' : all_explained (ops ++ [o]) m).
  { eapply map_Forall_impl; [exact Hm|]. intros. by apply explained_more. }
  unfold advance. destruct (m !! id) as [r|] eqn:Er; [|done]. destruct (check _ _ _) as [[]|] eqn:Ec; [|done].
  apply mount_check_ok in Ec; [|done..]. apply map_Forall_insert_2; [|done].
  destruct (Hm _ _ Er) as [Hfail|(l & Hl & Hs)]; [by rewrite Ec in Hfail; rewrite Hw in Hfail|].
  rewrite Ec in Hl. destruct (Hf r l eq_refl Hl Ec) as [H|H]; [by left|]. by eapply explained_step.
Qed.

Lemma leave_explained ops m id s o :
  all_explained ops m -> failed s = true -> all_explained (ops ++ [o]) (leave m id s).2.
Proof.
  intros Hm Hs. assert (Hm' : all_explained (ops ++ [o]) m).
  { eapply map_Forall_impl; [exact Hm|]. intros. by apply explained_more. }
  unfold leave. destruct (m !! id) as [r|]; [|done]. destruct (terminal (state r)); [done|].
  apply map_Forall_insert_2; [|done]. by left.
Qed.

Lemma step_explained ops m o : all_explained ops m -> all_explained (ops ++ [o]) (step m o).
Proof.
  intros Hm. assert (Hm' : all_explained (ops ++ [o]) m).
  { eapply map_Forall_impl; [exact Hm|]. intros. by apply explained_more. }
  destruct o as [id f k h d|id|id ok d|id r|id p|id|id|id|id r b]; cbn [step].
  - unfold queue. destruct (recognize k f) as [fmt|] eqn:Ek; [|done]. destruct (m !! id) eqn:Em; [done|].
    apply map_Forall_insert_2; [|done]. right. exists [OQueue id f k h d]. split; [by eapply w_queue|].
    by apply sublist_inserts_l.
  - apply advance_explained; [done..|]. intros r l _ Hl Hs. right. by apply w_begin.
  - apply advance_explained; [done..|]. intros r l _ Hl Hs. destruct ok; [right; by apply w_verified|by left].
  - apply advance_explained; [done..|]. intros rec l _ Hl Hs. cbn. case_bool_decide as Hmiss; [right|by left].
    apply w_ready; [done|]. apply Forall_forall. intros x Hx. destruct (r x) eqn:E; [done|].
    assert (x ∈ List.filter (fun d => negb (r d)) (dependencies rec)) as Hin by (apply elem_of_filterb; by rewrite E).
    by rewrite Hmiss in Hin; apply elem_of_nil in Hin.
  - apply advance_explained; [done..|]. intros r l _ Hl Hs. right. by apply w_pending.
  - apply advance_explained; [done..|]. intros r l _ Hl Hs. right. by apply w_mounted.
  - apply advance_explained; [done..|]. intros r l _ Hl Hs. right. by apply w_registered.
  - by apply leave_explained.
  - apply leave_explained; [done|]. by destruct b.
Qed.

Lemma step_terminal m o id r : m !! id = Some r -> terminal (state r) = true -> step m o !! id = Some r.
Proof.
  intros Hr Ht.
  assert (Hadv : forall id' want op f, (advance m id' want op f).2 !! id = Some r).
  { intros id' want op f. unfold advance. destruct (m !! id') as [r'|] eqn:E; [|done].
    destruct (decide (id = id')) as [->|Hne].
    - assert (r' = r) as -> by congruence. unfold check. by rewrite Ht.
    - destruct (check _ _ _); [|done]. cbn [snd]. by rewrite lookup_insert_ne. }
  assert (Hleave : forall id' s, (leave m id' s).2 !! id = Some r).
  { intros id' s. unfold leave. destruct (m !! id') as [r'|] eqn:E; [|done].
    destruct (decide (id = id')) as [->|Hne].
    - assert (r' = r) as -> by congruence. by rewrite Ht.
    - destruct (terminal (state r')); [done|]. cbn [snd]. by rewrite lookup_insert_ne. }
  destruct o as [id' f k h d|id'|id' ok d|id' r'|id' p|id'|id'|id'|id' r' b]; cbn [step];
    try apply Hadv; try apply Hleave.
  unfold queue. destruct (recognize k f); [|done]. destruct (m !! id') eqn:E; [done|].
  cbn [snd]. rewrite lookup_insert_ne; [done|]. intros ->. congruence.
Qed.

Lemma run_explained ops : all_explained ops (run step ∅ ops).
Proof.
  induction ops as [|o ops IH] using rev_ind; [apply map_Forall_empty|]. rewrite run_app. cbn [run foldl].
  by apply step_explained.
Qed.

(** No step of the pipeline can be skipped: a record that has not failed got
    to its state by its operations in the order of the diagram, so a registered
    asset had a recognised format, a matching hash and every dependency
    resolved; and a record in a terminal state never changes. *)
Theorem mount_pipeline (ops : list mount_op) (id : string) (r : mount_record) :
  run step ∅ ops !! id = Some r -> failed (state r) = false ->
  (exists l, walked id (dependencies r) (state r) l /\ l `sublist_of` ops) /\
  (state r = Registered -> forall more, run step (run step ∅ ops) more !! id = Some r).
Proof.
  intros Hr Hf. split.
  - destruct (run_explained ops _ _ Hr) as [H|H]; [congruence|done].
  - intros Hreg more. generalize dependent (run step ∅ ops). intros m Hm. revert m Hm.
    induction more as [|o more IH]; intros m Hm; [done|]. cbn [run foldl].
    apply IH. apply step_terminal; [done|]. by rewrite Hreg.
Qed.

Lemma mount_pipeline_witness :
  let ops := [OQueue "a" (codes "x/car.YFT") with_spec_seed None ["d"]; OBeginVerify "a"; OFinishVerify "a" true "";
    OCheckDeps "a" (fun _ => true); OBeginMount "a" "p"; OCompleteMount "a"; ORegister "a"]%string in
  exists r, run step ∅ ops !! "a"%string = Some r /\ state r = Registered /\
    forall more, run step (run step ∅ ops) more !! "a"%string = Some r.
Proof.
  intros ops. eexists. split; [vm_compute; reflexivity|]. split; [done|].
  refine (proj2 (mount_pipeline ops _ _ _ _) _); [vm_compute; reflexivity|done..].
Defined.
End Mounting.

(** * The residency handshake *)
Module Residency.

Inductive commit_outcome := Accepted | Retryable | Fatal.

Inductive residency_state :=
| Requested | Waiting (deadline_tick : Z) | Resident (deadline_tick : Z) | Ready
| Failed (reason : string) | Expired | Cancelled.

Definition terminal (s : residency_state) : bool :=
  match s with Ready | Failed _ | Expired | Cancelled => true | _ => false end.

Inductive residency_error := Unknown (id : string) | Terminal (id : string) | Duplicate (id : string).

Record request_rec := Request { state : residency_state; retries_used : Z; max_retries : Z; timeout_ticks : Z }.

Abbreviation tracker := (gmap string request_rec).

(** What the bridge is asked; its answers are arguments. *)
Inductive bridge_call := CallRequest | CallConfirm.

Definition after_commit (ans : commit_outcome) (now timeout : Z) (why : string) : residency_state :=
  match ans with
  | Accepted => Resident (wrap 64 (now + timeout))
  | Retryable => Waiting (wrap 64 (now + timeout))
  | Fatal => Failed why
  end.

Definition request (t : tracker) (id : string) (now timeout max : Z) (ans : commit_outcome) :
    result residency_state residency_error * tracker * list bridge_call :=
  match t !! id with
  | Some _ => (Err (Duplicate id), t, [])
  | None =>
      let timeout := Z.max timeout 1 in
      let s := after_commit ans now timeout "bridge refused residency" in
      (Ok s, <[id := Request s 0 max timeout]> t, [CallRequest])
  end.

(** One poll of a record: the next record and the calls made. *)
Definition poll_record (r : request_rec) (now : Z) (ans : commit_outcome) (confirm : bool) :
    request_rec * list bridge_call :=
  let set s := Request s (retries_used r) (max_retries r) (timeout_ticks r) in
  if terminal (state r) then (r, [])
  else match state r with
  | Requested => (set (Waiting (wrap 64 (now + timeout_ticks r))), [])
  | Waiting deadline =>
      if now <? deadline then (r, [])
      else if max_retries r <=? retries_used r then (set Expired, [])
      else
        (Request (after_commit ans now (timeout_ticks r) "bridge refused residency on retry")
           (wrap 32 (retries_used r + 1)) (max_retries r) (timeout_ticks r), [CallRequest])
  | Resident deadline =>
      if confirm then (set Ready, [CallConfirm])
      else if deadline <=? now then (set Expired, [CallConfirm])
      else (r, [CallConfirm])
  | _ => (r, [])
  end.

Definition poll (t : tracker) (id : string) (now : Z) (ans : commit_outcome) (confirm : bool) :
    result residency_state residency_error * tracker * list bridge_call :=
  match t !! id with
  | None => (Err (Unknown id), t, [])
  | Some r =>
      let '(r, calls) := poll_record r now ans confirm in
      (Ok (state r), <[id := r]> t, calls)
  end.

Definition cancel (t : tracker) (id : string) : result unit residency_error * tracker :=
  match t !! id with
  | None => (Err (Unknown id), t)
  | Some r =>
      if terminal (state r) then (Err (Terminal id), t)
      else (Ok tt, <[id := Request Cancelled (retries_used r) (max_retries r) (timeout_ticks r)]> t)
  end.

Definition state_of (t : tracker) (id : string) : option residency_state := state <$> t !! id.
Definition retries_of (t : tracker) (id : string) : option Z := retries_used <$> t !! id.

(** The ids come in the order of the map. *)
Definition reap_terminal (t : tracker) : list string * tracker :=
  ((map_to_list (filter (fun p => terminal (state p.2) = true) t)).*1,
   filter (fun p => terminal (state p.2) = false) t).

(** ** Every request ends *)

(** A poll: the tick and the answers the bridge would give. *)
Record poll_event := Poll { at_ : Z; answer : commit_outcome; confirmed : bool }.
Definition poll_all (r : request_rec) (ps : list poll_event) : request_rec :=
  foldl (fun r p => (poll_record r (at_ p) (answer p) (confirmed p)).1) r ps.

Definition deadline (s : residency_state) : Z := match s with Waiting d | Resident d => d | _ => 0 end.

Definition well_formed (r : request_rec) : Prop :=
  state r <> Requested /\ 0 <= retries_used r <= max_retries r /\ max_retries r <= u32_max /\
  1 <= timeout_ticks r <= u64_max.

(** Polls from a tick on, each at least a timeout after the one before. *)
Fixpoint spaced (timeout from : Z) (ps : list poll_event) : Prop :=
  match ps with
  | [] => True
  | p :: ps => from <= at_ p /\ 0 <= at_ p /\ at_ p + timeout <= u64_max /\ spaced timeout (at_ p + timeout) ps
  end.

Lemma poll_all_terminal r ps : terminal (state r) = true -> poll_all r ps = r.
Proof.
  intros Ht. unfold poll_all. induction ps as [|p ps IH]; cbn [foldl]; [done|].
  assert (Hp : (poll_record r (at_ p) (answer p) (confirmed p)).1 = r) by (unfold poll_record; by rewrite Ht).
  by rewrite Hp.
Qed.

(** One poll at or after the deadline ends the request or uses up a retry. *)
Lemma poll_progress r p : well_formed r -> terminal (state r) = false ->
  deadline (state r) <= at_ p -> 0 <= at_ p -> at_ p + timeout_ticks r <= u64_max ->
  let r' := (poll_record r (at_ p) (answer p) (confirmed p)).1 in
  timeout_ticks r' = timeout_ticks r /\ max_retries r' = max_retries r /\
  (terminal (state r') = true \/
   (well_formed r' /\ retries_used r' = retries_used r + 1 /\ deadline (state r') = at_ p + timeout_ticks r)).
Proof.
  intros (Hs & Hu & Hm & Ht) Hterm Hd Hp Hov. unfold poll_record. rewrite Hterm. unfold u64_max, u32_max in *.
  destruct (state r) as [|d|d| |why| |] eqn:Es; try done; cbn [deadline] in Hd.
  - rewrite (proj2 (Z.ltb_ge (at_ p) d)) by done. destruct (max_retries r <=? retries_used r) eqn:E; bool_prop.
    { cbn. split_and!; try done. by left. }
    cbn. split_and!; [done..|]. assert (Hw : wrap 64 (at_ p + timeout_ticks r) = at_ p + timeout_ticks r)
      by (unfold wrap; apply Z.mod_small; lia).
    assert (Hw32 : wrap 32 (retries_used r + 1) = retries_used r + 1) by (unfold wrap; apply Z.mod_small; lia).
    unfold well_formed, u64_max, u32_max. cbn. rewrite Hw32.
    destruct (answer p); cbn; rewrite ?Hw; [right|right|by left]; split_and!; done || lia.
  - destruct (confirmed p); [cbn; split_and!; try done; by left|].
    rewrite (proj2 (Z.leb_le d (at_ p))) by done. cbn. split_and!; try done. by left.
Qed.

Lemma polls_end ps : forall r, well_formed r ->
  spaced (timeout_ticks r) (deadline (state r)) ps ->
  max_retries r - retries_used r < Z.of_nat (length ps) -> terminal (state (poll_all r ps)) = true.
Proof.
  induction ps as [|p ps IH]; intros r Hr Hs Hl.
  { destruct Hr as (_ & Hu & _). cbn in Hl. lia. }
  destruct (terminal (state r)) eqn:Et; [by rewrite poll_all_terminal|]. cbn [spaced length] in *.
  destruct Hs as (Hd & Hp & Hov & Hs). pose proof (poll_progress r p Hr Et Hd Hp Hov) as Hstep.
  unfold poll_all. cbn [foldl]. fold (poll_all (poll_record r (at_ p) (answer p) (confirmed p)).1 ps).
  destruct Hstep as (H1 & H2 & [H3|(H3 & H4 & H5)]); [by rewrite poll_all_terminal|].
  apply IH; [done| |lia]. by rewrite H1, H5.
Qed.

(** ** The bridge is called once per attempt *)
Definition requests (cs : list bridge_call) : Z :=
  Z.of_nat (length (List.filter (fun c => match c with CallRequest => true | _ => false end) cs)).

Lemma poll_calls r now ans conf : 0 <= retries_used r <= max_retries r -> max_retries r <= u32_max ->
  let '(r', cs) := poll_record r now ans conf in
  requests cs = retries_used r' - retries_used r /\ 0 <= retries_used r' <= max_retries r' /\
  max_retries r' = max_retries r /\ requests cs <= 1 /\
  (state r' = Ready -> state r <> Ready -> conf = true /\ cs = [CallConfirm]).
Proof.
  intros Hu Hm. unfold poll_record, requests, u32_max in *.
  destruct (terminal (state r)) eqn:Et; [cbn; split_and!; done || lia|].
  destruct (state r) as [|d|d| |why| |] eqn:Es; try done; cbn [fst snd].
  - cbn. split_and!; done || lia.
  - destruct (now <? d); [cbn; rewrite Es; split_and!; done || lia|].
    destruct (max_retries r <=? retries_used r) eqn:E; bool_prop; [cbn; split_and!; done || lia|].
    assert (Hw32 : wrap 32 (retries_used r + 1) = retries_used r + 1) by (unfold wrap; apply Z.mod_small; lia).
    cbn. rewrite Hw32. split_and!; try lia. by destruct ans.
  - destruct conf; [cbn; split_and!; done || lia|]. destruct (d <=? now); cbn; rewrite ?Es; split_and!; done || lia.
Qed.

(** No request waits for ever: whatever the bridge answers, a tracked
    request that is polled at its deadline and then a timeout apart is terminal
    after at most one poll more than the retries it has left. *)
Theorem residency_ends (t : tracker) (id : string) (now timeout max : Z) (ans : commit_outcome) (ps : list poll_event) :
  t !! id = None -> 0 <= max <= u32_max -> timeout <= u64_max -> 0 <= now -> now + Z.max timeout 1 <= u64_max ->
  spaced (Z.max timeout 1) (now + Z.max timeout 1) ps -> max < Z.of_nat (length ps) ->
  exists r, (request t id now timeout max ans).1.2 !! id = Some r /\ terminal (state (poll_all r ps)) = true.
Proof.
  intros Hn Hmax Hto Hnow Hov Hs Hl. unfold request. rewrite Hn. cbn [fst snd].
  eexists. split; [by rewrite lookup_insert_eq|].
  assert (Hw : wrap 64 (now + Z.max timeout 1) = now + Z.max timeout 1)
    by (unfold wrap, u64_max in *; apply Z.mod_small; lia).
  destruct ans; cbn [after_commit]; rewrite ?Hw; [..|by rewrite poll_all_terminal];
    (apply polls_end; [unfold well_formed, u64_max in *; cbn; split_and!; done || lia|done|cbn; lia]).
Qed.

Lemma residency_ends_witness :
  exists r, (request ∅ "a" 0 10 1 Retryable).1.2 !! "a"%string = Some r /\
    terminal (state (poll_all r [Poll 10 Retryable false; Poll 20 Accepted false])) = true.
Proof.
  apply (residency_ends ∅ "a" 0 10 1 Retryable); try done; cbn; unfold u64_max; split_and!; done || lia.
Defined.
End Residency.
