(* ===== verification/Cache.v ===== *)
(** The content-addressed store of crates/ald-cache/src/lib.rs: staging, the
    verified commit, verification and repair, and eviction to a quota. The
    directory is explicit, so that other programs can damage it between the
    calls; SHA-256 is a parameter. File operations on an intact directory
    succeed. *)
From S2P Require Import Prelude RustStr Bytes.

(** Hashes are lowercase hex strings; [staged] is process id and sequence
    number, the two parts of a staging file's name. *)
Inductive cache_error :=
| Io | HashMismatch (expected actual : text) | NoSuchStaged | NoSuchObject (h : text) | BadHash (h : text).

Definition staged := (Z * Z)%type.

Record health_report := HealthReport { ok_count : nat; corrupt : list text }.

Record content_cache := ContentCache {
  quota_bytes : Z; sizes : gmap text Z;
  lru : list text; (* most recently used last *)
  staged_seq : Z }.

(** The files below [objects/], by shard and name joined, and below [tmp/]. *)
Record file := File { f_bytes : list Z; f_mtime : Z }.
Record disk := Disk { objects : gmap text file; tmp : gmap staged file }.

Definition put_object (h : text) (f : file) (d : disk) : disk := Disk (<[h := f]> (objects d)) (tmp d).
Definition drop_object (h : text) (d : disk) : disk := Disk (delete h (objects d)) (tmp d).
Definition drop_tmp (t : staged) (d : disk) : disk := Disk (objects d) (delete t (tmp d)).

Definition lower_hex (c : Z) : bool := ((48 <=? c) && (c <=? 57)) || ((97 <=? c) && (c <=? 102)).
Definition valid_hash (h : text) : bool := bool_decide (length h = 64%nat) && forallb lower_hex h.

(** [object_path] below the objects directory. *)
Definition object_path (h : text) : text * text := (take 2 h, drop 2 h).

Definition touch (h : text) (l : list text) : list text :=
  List.filter (fun x => negb (bool_decide (x = h))) l ++ [h].

Definition sort_texts : list text -> list text := merge_sort (fun a b => Is_true (text_leb a b)).

Section cache.
Context (sha : list Z -> list Z).

Definition sha256_hex (data : list Z) : text := hex (sha data).

(** [rescan]: the objects in the order of their modification times. *)
Definition rescan (c : content_cache) (d : disk) : content_cache :=
  let found := sort_by (fun e => f_mtime e.2)
    (List.filter (fun e => valid_hash e.1) (map_to_list (objects d))) in
  ContentCache (quota_bytes c)
    (foldl (fun s e => <[e.1 := len (f_bytes e.2)]> s) (sizes c) found) (lru c ++ found.*1) (staged_seq c).
Definition open (quota : Z) (d : disk) : content_cache := rescan (ContentCache quota ∅ [] 0) d.

Definition stage (pid now : Z) (c : content_cache) (d : disk) (payload : list Z) :
    staged * content_cache * disk :=
  let n := wrap 64 (staged_seq c + 1) in
  ((pid, n), ContentCache (quota_bytes c) (sizes c) (lru c) n,
   Disk (objects d) (<[(pid, n) := File payload now]> (tmp d))).

Definition commit (c : content_cache) (d : disk) (s : staged) (expected : text) :
    result (text * text) cache_error * content_cache * disk :=
  if negb (valid_hash expected) then (Err (BadHash expected), c, drop_tmp s d)
  else match tmp d !! s with
  | None => (Err NoSuchStaged, c, d)
  | Some f =>
      let actual := sha256_hex (f_bytes f) in
      if negb (bool_decide (actual = expected)) then
        (Err (HashMismatch expected actual), c, drop_tmp s d)
      else
        let d := drop_tmp s
          match objects d !! expected with Some _ => d | None => put_object expected f d end in
        match objects d !! expected with
        | None => (Err Io, c, d)
        | Some landed =>
            let got := sha256_hex (f_bytes landed) in
            if negb (bool_decide (got = expected)) then
              (Err (HashMismatch expected got), c, drop_object expected d)
            else
              (Ok (object_path expected),
               ContentCache (quota_bytes c) (<[expected := len (f_bytes landed)]> (sizes c))
                 (touch expected (lru c)) (staged_seq c), d)
        end
  end.

Definition get (c : content_cache) (d : disk) (h : text) : option (text * text) * content_cache :=
  if negb (valid_hash h) then (None, c)
  else match objects d !! h with
  | Some _ => (Some (object_path h), ContentCache (quota_bytes c) (sizes c) (touch h (lru c)) (staged_seq c))
  | None => (None, c)
  end.

Definition verify (d : disk) (h : text) : result bool cache_error :=
  if negb (valid_hash h) then Err (BadHash h)
  else match objects d !! h with
  | None => Ok false
  | Some f => Ok (bool_decide (sha256_hex (f_bytes f) = h))
  end.

(** The loop body of [verify_all]. *)
Definition tally (d : disk) (acc : nat * list text) (h : text) : result (nat * list text) cache_error :=
  let? ok := verify d h in Ok (if ok : bool then (S acc.1, acc.2) else (acc.1, acc.2 ++ [h])).
Definition verify_all (c : content_cache) (d : disk) : result health_report cache_error :=
  let? r := try_fold (tally d) (0%nat, []) (map_to_list (sizes c)).*1 in
  Ok (HealthReport r.1 (sort_texts r.2)).

Definition forget (h : text) (c : content_cache) : content_cache :=
  ContentCache (quota_bytes c) (delete h (sizes c))
    (List.filter (fun x => negb (bool_decide (x = h))) (lru c)) (staged_seq c).

Definition repair (c : content_cache) (d : disk) : result (list text) cache_error * content_cache * disk :=
  match verify_all c d with
  | Err e => (Err e, c, d)
  | Ok r => (Ok (corrupt r), foldl (fun c h => forget h c) c (corrupt r), foldl (fun d h => drop_object h d) d (corrupt r))
  end.

Definition size_bytes (c : content_cache) : Z := wrap 64 (map_sum id (sizes c)).
Definition object_count (c : content_cache) : nat := size (sizes c).

(** The loop of [evict_to_fit]; every turn takes an entry off the list. *)
Fixpoint evict_loop (fuel : nat) (protected : list text) (c : content_cache) (d : disk) (evicted : list text) :
    list text * content_cache * disk :=
  match fuel with
  | O => (evicted, c, d)
  | S fuel =>
      if size_bytes c <=? quota_bytes c then (evicted, c, d)
      else match List.find (fun h => negb (bool_decide (h ∈ protected))) (lru c) with
      | Some h => evict_loop fuel protected (forget h c) (drop_object h d) (evicted ++ [h])
      | None => (evicted, c, d)
      end
  end.
Definition evict_to_fit (protected : list text) (c : content_cache) (d : disk) :
    list text * content_cache * disk :=
  evict_loop (S (length (lru c))) protected c d [].
End cache.

(** ** Histories

    [Damage] is another program that rewrites or deletes an object's file. *)
Inductive cache_op :=
| OStage (pid now : Z) (payload : list Z)
| OCommit (s : staged) (expected : text)
| OGet (h : text)
| ORepair
| OEvict (protected : list text)
| OReopen
| Damage (h : text) (f : option file).

Definition quiet (o : cache_op) : Prop := match o with Damage _ _ => False | _ => True end.

Lemma elem_of_keys {V} (m : gmap text V) h : h ∈ (map_to_list m).*1 <-> is_Some (m !! h).
Proof.
  rewrite list_elem_of_fmap. split.
  - intros ([k v] & -> & H%elem_of_map_to_list). by eexists.
  - intros [v H]. exists (h, v). by rewrite elem_of_map_to_list.
Qed.

Lemma elem_of_sort_texts l h : h ∈ sort_texts l <-> h ∈ l.
Proof. unfold sort_texts. by rewrite merge_sort_Permutation. Qed.

Lemma elem_of_without (h x : text) l : x ∈ List.filter (fun x => negb (bool_decide (x = h))) l <-> x ∈ l /\ x <> h.
Proof. by rewrite elem_of_filterb, negb_true_iff, bool_decide_eq_false. Qed.

Lemma elem_of_touch h x l : x ∈ touch h l <-> x ∈ l \/ x = h.
Proof. unfold touch. rewrite elem_of_app, elem_of_without, list_elem_of_singleton. destruct (decide (x = h)); tauto. Qed.

Lemma NoDup_without (f : text -> bool) l : NoDup l -> NoDup (List.filter f l).
Proof. intros H. eapply sublist_NoDup; [exact H|]. apply filterb_sublist. Qed.

Lemma NoDup_touch h l : NoDup l -> NoDup (touch h l).
Proof.
  intros H. apply NoDup_app. split_and!; [by apply NoDup_without| |apply NoDup_singleton].
  intros x [_ Hx]%elem_of_without. by rewrite list_elem_of_singleton.
Qed.

(** What holds whatever happens to the files: the index is well formed. *)
Record tracked (c : content_cache) : Prop := {
  tr_nodup : NoDup (lru c);
  tr_listed : forall h, is_Some (sizes c !! h) -> h ∈ lru c;
  tr_valid : forall h, is_Some (sizes c !! h) -> valid_hash h = true }.

Lemma foldl_sizes (l : list (text * file)) : forall (s : gmap text Z) h n, NoDup l.*1 ->
  foldl (fun s e => <[e.1 := len (f_bytes e.2)]> s) s l !! h = Some n <->
  (exists f, (h, f) ∈ l /\ n = len (f_bytes f)) \/ (h ∉ l.*1 /\ s !! h = Some n).
Proof.
  induction l as [|[k f] l IH]; intros s h n; cbn [foldl fst snd fmap list_fmap].
  { intros _. set_solver. }
  intros [Hk Hl]%NoDup_cons. rewrite IH by done. rewrite lookup_insert_Some.
  assert (Hin : forall f', (k, f') ∉ l) by (intros f' Hf; apply Hk; apply list_elem_of_fmap; by exists (k, f')).
  destruct (decide (h = k)) as [->|Hne]; set_solver.
Qed.

Lemma open_spec quota d :
  (forall h n, sizes (open quota d) !! h = Some n <->
    exists f, objects d !! h = Some f /\ valid_hash h = true /\ n = len (f_bytes f)) /\
  NoDup (lru (open quota d)) /\
  (forall h, h ∈ lru (open quota d) <-> is_Some (objects d !! h) /\ valid_hash h = true).
Proof.
  unfold open, rescan. cbn [sizes lru app]. set (l := sort_by _ _).
  assert (Hl : forall h f, (h, f) ∈ l <-> objects d !! h = Some f /\ valid_hash h = true).
  { intros h f. unfold l. by rewrite sort_by_perm, elem_of_filterb, elem_of_map_to_list. }
  assert (Hk : forall h, h ∈ l.*1 <-> is_Some (objects d !! h) /\ valid_hash h = true).
  { intros h. rewrite list_elem_of_fmap. split.
    - intros ([k f] & -> & [? ?]%Hl). by split; [eexists|].
    - intros [[f Hf] Hv]. exists (h, f). by rewrite Hl. }
  assert (Hnd : NoDup l.*1).
  { unfold l. rewrite sort_by_perm. eapply sublist_NoDup; [apply (NoDup_fst_map_to_list (objects d))|].
    apply fmap_filterb_sublist. }
  split_and!; [|done..]. intros h n. rewrite foldl_sizes by done. setoid_rewrite Hl. rewrite lookup_empty.
  split; [intros [(f & [? ?] & ?)|[_ ?]]; [by exists f|done]|]. intros (f & ? & ? & ?). left. by exists f.
Qed.

Lemma open_tracked quota d : tracked (open quota d).
Proof.
  destruct (open_spec quota d) as (Hs & Hn & Hl). split; [done|..]; intros h [n (f & Hf & Hv & _)%Hs]; [|done].
  apply Hl. by split; [eexists|].
Qed.

Lemma tracked_forget h c : tracked c -> tracked (forget h c).
Proof.
  intros [Hn Hl Hv]. split; cbn [forget lru sizes].
  - by apply NoDup_without.
  - intros k [n [? Hk]%lookup_delete_Some]. apply elem_of_without. split; [|done]. apply Hl. by eexists.
  - intros k [n [_ Hk]%lookup_delete_Some]. apply Hv. by eexists.
Qed.

Lemma tracked_touch h c s n : tracked c -> (forall k, is_Some (s !! k) -> is_Some (sizes c !! k) \/ (k = h /\ valid_hash h = true)) ->
  tracked (ContentCache (quota_bytes c) s (touch h (lru c)) n).
Proof.
  intros [Hn Hl Hv] Hs. split; cbn [lru sizes].
  - by apply NoDup_touch.
  - intros k [Hk|[-> _]]%Hs; apply elem_of_touch; [left; by apply Hl|by right].
  - intros k [Hk|[-> ?]]%Hs; [by apply Hv|done].
Qed.

Lemma foldl_forget bad : forall c h n,
  sizes (foldl (fun c h => forget h c) c bad) !! h = Some n <-> h ∉ bad /\ sizes c !! h = Some n.
Proof.
  induction bad as [|b bad IH]; intros c h n; cbn [foldl]; [set_solver|]. rewrite IH. cbn [forget sizes].
  rewrite lookup_delete_Some. set_solver.
Qed.

Lemma foldl_drop bad : forall d h,
  objects (foldl (fun d h => drop_object h d) d bad) !! h = if decide (h ∈ bad) then None else objects d !! h.
Proof.
  induction bad as [|b bad IH]; intros d h; cbn [foldl]; [done|]. rewrite IH. cbn [drop_object objects].
  destruct (decide (h = b)) as [->|Hne].
  - rewrite lookup_delete_eq. rewrite (decide_True (P := b ∈ b :: bad)) by left. by destruct (decide _).
  - rewrite lookup_delete_ne by done. destruct (decide (h ∈ bad)), (decide (h ∈ b :: bad)); set_solver.
Qed.

Lemma evict_loop_inv (I : content_cache -> disk -> Prop) protected fuel :
  (forall c d h, I c d -> I (forget h c) (drop_object h d)) ->
  forall c d ev, I c d -> let '(_, c', d') := evict_loop fuel protected c d ev in I c' d'.
Proof.
  intros Hf. induction fuel as [|fuel IH]; intros c d ev HI; cbn [evict_loop]; [done|].
  destruct (_ <=? _); [done|]. destruct (List.find _ _) as [h|]; [|done]. by apply IH, Hf.
Qed.

(** ** Eviction *)
Definition unprotected (protected : list text) (c : content_cache) : list text :=
  List.filter (fun h => negb (bool_decide (h ∈ protected))) (lru c).
Definition forget_all (l : list text) (c : content_cache) : content_cache := foldl (fun c h => forget h c) c l.
Definition drop_all (l : list text) (d : disk) : disk := foldl (fun d h => drop_object h d) d l.

Lemma find_head {A} (f : A -> bool) l : List.find f l = head (List.filter f l).
Proof. induction l as [|x l IH]; cbn; [done|]. by destruct (f x). Qed.

Lemma filter_comm {A} (f g : A -> bool) l : List.filter f (List.filter g l) = List.filter g (List.filter f l).
Proof. induction l as [|x l IH]; cbn; [done|]. destruct (f x) eqn:Ef, (g x) eqn:Eg; cbn; rewrite ?Ef, ?Eg, IH; done. Qed.

Lemma without_absent (h : text) l : h ∉ l -> List.filter (fun x => negb (bool_decide (x = h))) l = l.
Proof.
  induction l as [|x l IH]; cbn; [done|]. intros [Hx Hl]%not_elem_of_cons.
  rewrite bool_decide_eq_false_2 by done. cbn. by rewrite IH.
Qed.

Lemma unprotected_forget protected c h l : NoDup (lru c) -> unprotected protected c = h :: l ->
  unprotected protected (forget h c) = l.
Proof.
  intros Hn E. unfold unprotected in *. cbn [forget lru]. rewrite filter_comm, E. cbn.
  rewrite bool_decide_eq_true_2 by done. cbn. apply without_absent.
  assert (Hnd : NoDup (h :: l)) by (rewrite <- E; by apply NoDup_without). by apply NoDup_cons in Hnd as [? _].
Qed.

Lemma evict_loop_spec protected fuel : forall c d ev, tracked c -> (length (unprotected protected c) < fuel)%nat ->
  exists k, (k <= length (unprotected protected c))%nat /\
    let l := take k (unprotected protected c) in
    evict_loop fuel protected c d ev = (ev ++ l, forget_all l c, drop_all l d) /\
    (size_bytes (forget_all l c) <= quota_bytes c \/ unprotected protected (forget_all l c) = []) /\
    forall j, (j < k)%nat -> quota_bytes c < size_bytes (forget_all (take j (unprotected protected c)) c).
Proof.
  induction fuel as [|fuel IH]; intros c d ev Ht Hf; [lia|]. cbn [evict_loop].
  destruct (size_bytes c <=? quota_bytes c) eqn:E.
  { apply Z.leb_le in E. exists 0%nat. rewrite app_nil_r. split_and!; [lia|done|by left|lia]. }
  apply Z.leb_gt in E. rewrite find_head. fold (unprotected protected c).
  destruct (unprotected protected c) as [|h l] eqn:Eu; cbn [head].
  { exists 0%nat. rewrite app_nil_r. split_and!; [done|done|by right|lia]. }
  pose proof (unprotected_forget protected c h l (tr_nodup _ Ht) Eu) as Hu.
  destruct (IH (forget h c) (drop_object h d) (ev ++ [h])) as (k & Hk & He & Hend & Hmin);
    [by apply tracked_forget|rewrite Hu; cbn in Hf; lia|]. rewrite Hu in *.
  exists (S k). cbn [length take]. cbn zeta in He. rewrite He, <- app_assoc. split_and!; [lia|done|done|].
  intros [|j] Hj; [done|]. apply Hmin. lia.
Qed.

Section facts.
Context (sha : list Z -> list Z).

Definition cache_step (s : content_cache * disk) (o : cache_op) : content_cache * disk :=
  let '(c, d) := s in
  match o with
  | OStage pid now payload => let '(_, c, d) := stage pid now c d payload in (c, d)
  | OCommit st h => let '(_, c, d) := commit sha c d st h in (c, d)
  | OGet h => ((get c d h).2, d)
  | ORepair => let '(_, c, d) := repair sha c d in (c, d)
  | OEvict p => let '(_, c, d) := evict_to_fit p c d in (c, d)
  | OReopen => (open (quota_bytes c) d, d)
  | Damage h f => (c, Disk (match f with Some f => <[h := f]> (objects d) | None => delete h (objects d) end) (tmp d))
  end.

(** What holds as long as nobody else writes: the index is the directory, and
    every object has the content its name claims. *)
Record sound (c : content_cache) (d : disk) : Prop := {
  so_tracked : tracked c;
  so_sizes : sizes c = (fun f => len (f_bytes f)) <$> objects d;
  so_lru : forall h, h ∈ lru c -> is_Some (objects d !! h);
  so_content : map_Forall (fun h f => sha256_hex sha (f_bytes f) = h) (objects d) }.

Lemma open_sound quota d :
  map_Forall (fun h f => valid_hash h = true /\ sha256_hex sha (f_bytes f) = h) (objects d) -> sound (open quota d) d.
Proof.
  intros Hd. destruct (open_spec quota d) as (Hs & Hn & Hl). split; [apply open_tracked|..].
  - apply map_eq. intros h. apply option_eq. intros n. rewrite Hs, lookup_fmap, fmap_Some.
    split; [by intros (f & ? & _ & ?); exists f|]. intros (f & Hf & ?). exists f. split_and!; [done| |done]. by apply (Hd _ _ Hf).
  - intros h [? _]%Hl. done.
  - eapply map_Forall_impl; [exact Hd|]. by intros h f [_ ?].
Qed.

(** A commit that succeeds leaves the object with the promised content; one
    that fails changes nothing but a damaged object, which it removes. *)
Lemma commit_spec c d s h r c' d' : commit sha c d s h = (r, c', d') ->
  match r with
  | Ok p => p = object_path h /\ valid_hash h = true /\ exists f,
      objects d' !! h = Some f /\ sha256_hex sha (f_bytes f) = h /\
      (objects d' = objects d \/ objects d !! h = None /\ objects d' = <[h := f]> (objects d)) /\
      c' = ContentCache (quota_bytes c) (<[h := len (f_bytes f)]> (sizes c)) (touch h (lru c)) (staged_seq c)
  | Err _ => c' = c /\
      (objects d' = objects d \/
       exists f, objects d !! h = Some f /\ sha256_hex sha (f_bytes f) <> h /\ objects d' = delete h (objects d))
  end.
Proof.
  unfold commit. destruct (valid_hash h) eqn:Hv; cbn [negb]; [|intros [= <- <- <-]; split; [done|by left]].
  destruct (tmp d !! s) as [f|]; [|intros [= <- <- <-]; split; [done|by left]].
  case_bool_decide as Ha; cbn [negb]; [|intros [= <- <- <-]; split; [done|by left]].
  destruct (objects d !! h) as [g|] eqn:Eo; cbn [drop_tmp put_object objects].
  - rewrite Eo. case_bool_decide as Hg; cbn [negb]; intros [= <- <- <-].
    + split_and!; [done..|]. exists g. split_and!; [done..|by left|done].
    + split; [done|]. right. by exists g.
  - rewrite lookup_insert_eq. rewrite bool_decide_eq_true_2 by done. cbn [negb]. intros [= <- <- <-].
    split_and!; [done..|]. exists f. cbn. rewrite lookup_insert_eq. split_and!; [done..|by right|done].
Qed.

(** What a successful commit found staged. *)
Lemma commit_staged c d s h p c' d' : commit sha c d s h = (Ok p, c', d') ->
  exists f, tmp d !! s = Some f /\ sha256_hex sha (f_bytes f) = h.
Proof.
  unfold commit. destruct (negb _); [by intros [=]|]. destruct (tmp d !! s) as [f|]; [|by intros [=]].
  case_bool_decide as Ha; cbn [negb]; [|by intros [=]]. intros _. by exists f.
Qed.

Lemma sound_same c d c' d' : sound c d -> objects d' = objects d -> sizes c' = sizes c -> lru c' = lru c -> sound c' d'.
Proof. intros [[Hn Hl Hv] Hs Hr Hc] Ho Hs' Hr'. split; [split|..]; rewrite ?Ho, ?Hs', ?Hr'; done. Qed.

Lemma sound_touch c d h n : sound c d -> is_Some (objects d !! h) ->
  sound (ContentCache (quota_bytes c) (sizes c) (touch h (lru c)) n) d.
Proof.
  intros [Ht Hs Hr Hc] Hh. split; [|done| |done].
  - apply tracked_touch; [done|]. by left.
  - intros k [Hk| ->]%elem_of_touch; [by apply Hr|done].
Qed.

Lemma sound_forget c d h : sound c d -> sound (forget h c) (drop_object h d).
Proof.
  intros [Ht Hs Hr Hc]. split; cbn [forget drop_object sizes lru objects].
  - by apply tracked_forget.
  - by rewrite fmap_delete, Hs.
  - intros k [Hk Hne]%elem_of_without. rewrite lookup_delete_ne by done. by apply Hr.
  - by apply map_Forall_delete.
Qed.

Lemma sound_commit c d s h r c' d' : sound c d -> commit sha c d s h = (r, c', d') -> sound c' d'.
Proof.
  intros H Hc%commit_spec. pose proof H as [Ht Hs Hr Hco]. destruct r as [p|e].
  - destruct Hc as (_ & Hv & f & Hf & Hsha & Ho & ->). split; cbn [sizes lru].
    + apply tracked_touch; [done|]. intros k [n Hk]. destruct (decide (k = h)) as [->|?]; [by right|].
      rewrite lookup_insert_ne in Hk by done. left. by eexists.
    + destruct Ho as [Ho|[Ho E]].
      * rewrite Ho in Hf |- *. rewrite Hs. rewrite insert_id; [done|]. by rewrite lookup_fmap, Hf.
      * by rewrite E, fmap_insert, Hs.
    + intros k [Hk| ->]%elem_of_touch; [|by eexists]. destruct Ho as [->|[_ ->]]; [by apply Hr|].
      destruct (decide (k = h)) as [->|?]; [by rewrite lookup_insert_eq|rewrite lookup_insert_ne by done; by apply Hr].
    + destruct Ho as [->|[_ ->]]; [done|]. by apply map_Forall_insert_2.
  - destruct Hc as (-> & [Ho|(f & Hf & Hbad & _)]); [by apply (sound_same _ _ _ _ H)|].
    destruct Hbad. by apply (Hco _ _ Hf).
Qed.

(** *** Verification and repair *)
Definition intact (d : disk) (h : text) : bool :=
  match objects d !! h with Some f => bool_decide (sha256_hex sha (f_bytes f) = h) | None => false end.

Lemma verify_intact d h : valid_hash h = true -> verify sha d h = Ok (intact d h).
Proof. unfold verify, intact. intros ->. cbn [negb]. by destruct (objects d !! h). Qed.

Lemma verify_all_spec c d : tracked c ->
  verify_all sha c d =
    Ok (HealthReport (length (List.filter (intact d) (map_to_list (sizes c)).*1))
          (sort_texts (List.filter (fun h => negb (intact d h)) (map_to_list (sizes c)).*1))).
Proof.
  intros [_ _ Hv].
  assert (HF : forall l n bad, Forall (fun h => valid_hash h = true) l ->
    try_fold (tally sha d) (n, bad) l =
      Ok ((n + length (List.filter (intact d) l))%nat, bad ++ List.filter (fun h => negb (intact d h)) l)).
  { induction l as [|h l IH]; intros n bad Hl; cbn [try_fold List.filter]; [by rewrite app_nil_r, Nat.add_0_r|].
    apply Forall_cons in Hl as [Hh Hl]. unfold tally at 1. rewrite verify_intact by done. cbn [rbind].
    destruct (intact d h); cbn [negb rbind length fst snd]; rewrite IH by done.
    - do 2 f_equal. lia.
    - by rewrite <- app_assoc. }
  unfold verify_all. rewrite HF; [done|]. apply Forall_forall. intros h Hh%elem_of_keys. by apply Hv.
Qed.

(** *** Every step keeps the index well formed, and the quiet ones keep it true *)
Lemma step_tracked s o : tracked s.1 -> tracked (cache_step s o).1.
Proof.
  destruct s as [c d]. cbn [fst]. intros H. pose proof H as [Hn Hl Hv].
  destruct o as [pid now payload|st h|h| |p| |h f]; cbn [cache_step].
  - by split.
  - destruct (commit sha c d st h) as [[r c'] d'] eqn:E. cbn [fst]. apply commit_spec in E. destruct r as [q|e].
    + destruct E as (_ & Hvh & f & _ & _ & _ & ->). apply tracked_touch; [done|]. intros k [n Hk].
      destruct (decide (k = h)) as [->|?]; [by right|]. rewrite lookup_insert_ne in Hk by done. left. by eexists.
    + by destruct E as [-> _].
  - unfold get. destruct (negb _); [done|]. destruct (objects d !! h); [|done]. apply tracked_touch; [done|]. by left.
  - unfold repair. destruct (verify_all sha c d) as [r|]; [|done]. cbn [fst].
    clear -H. revert c H. induction (corrupt r) as [|h l IH]; intros c H; [done|]. apply IH. by apply tracked_forget.
  - unfold evict_to_fit. pose proof (evict_loop_inv (fun c _ => tracked c) p (S (length (lru c)))
      (fun c _ h H => tracked_forget h c H) c d [] H) as Hev.
    by destruct (evict_loop _ _ _ _ _) as [[ev c'] d'].
  - apply open_tracked.
  - done.
Qed.

Lemma run_tracked s ops : tracked s.1 -> tracked (run cache_step s ops).1.
Proof. intros H. apply (run_invariant cache_step (fun s => tracked s.1)); [apply step_tracked|done]. Qed.

Lemma sound_valid c d : sound c d -> map_Forall (fun h f => valid_hash h = true /\ sha256_hex sha (f_bytes f) = h) (objects d).
Proof.
  intros [[_ _ Hv] Hs _ Hc] h f Hf. split; [|by apply (Hc _ _ Hf)]. apply Hv. rewrite Hs, lookup_fmap, Hf. by eexists.
Qed.

Lemma sound_intact c d h : sound c d -> intact d h = bool_decide (is_Some (sizes c !! h)).
Proof.
  intros [_ Hs _ Hc]. unfold intact. rewrite Hs, lookup_fmap. destruct (objects d !! h) as [f|] eqn:E; cbn.
  - apply bool_decide_eq_true_2. exact (Hc _ _ E).
  - done.
Qed.

Lemma sound_all_intact c d : sound c d -> List.filter (fun h => negb (intact d h)) (map_to_list (sizes c)).*1 = [].
Proof.
  intros H. destruct (List.filter _ _) as [|h l] eqn:E; [done|]. exfalso.
  assert (Hh : h ∈ List.filter (fun h => negb (intact d h)) (map_to_list (sizes c)).*1) by (rewrite E; left).
  apply elem_of_filterb in Hh as [Hk%elem_of_keys Hi]. rewrite (sound_intact _ _ _ H), bool_decide_eq_true_2 in Hi by done. done.
Qed.

Lemma step_sound s o : quiet o -> sound s.1 s.2 -> sound (cache_step s o).1 (cache_step s o).2.
Proof.
  destruct s as [c d]. cbn [fst snd]. intros Hq H.
  destruct o as [pid now payload|st h|h| |p| |h f]; cbn [cache_step].
  - by apply (sound_same _ _ _ _ H).
  - destruct (commit sha c d st h) as [[r c'] d'] eqn:E. by eapply sound_commit.
  - unfold get. destruct (negb _); [done|]. destruct (objects d !! h) eqn:E; [|done]. apply sound_touch; [done|by eexists].
  - unfold repair. rewrite verify_all_spec by apply H. rewrite (sound_all_intact _ _ H). done.
  - unfold evict_to_fit. pose proof (evict_loop_inv sound p (S (length (lru c))) sound_forget c d [] H) as Hev.
    by destruct (evict_loop _ _ _ _ _) as [[ev c'] d'].
  - apply open_sound. by eapply sound_valid.
  - done.
Qed.

Lemma run_sound s ops : Forall quiet ops -> sound s.1 s.2 -> sound (run cache_step s ops).1 (run cache_step s ops).2.
Proof.
  intros Hq H. by apply (run_invariant_ops cache_step quiet (fun s => sound s.1 s.2)); [intros; by apply step_sound|..].
Qed.

End facts.

(** ** What the cache promises *)
Definition well_named (sha : list Z -> list Z) (d : disk) : Prop :=
  map_Forall (fun h f => valid_hash h = true /\ sha256_hex sha (f_bytes f) = h) (objects d).

(** A stand-in digest for the witnesses, and a history that stores two objects. *)
Definition sum_sha (l : list Z) : list Z := repeat (sum_list l mod 256) 32.
Definition empty_disk : disk := Disk ∅ ∅.
Definition hash12 : text := sha256_hex sum_sha [1; 2].
Definition hash7 : text := sha256_hex sum_sha [7].
Definition two_objects : list cache_op :=
  [OStage 1 5 [1; 2]; OCommit (1, 1) hash12; OStage 1 6 [7]; OCommit (1, 2) hash7; OGet hash12].

(** C20: As long as only the cache writes below its directory, whatever the
    sequence of stagings (of any bytes), commits (under any names), lookups,
    repairs, evictions and restarts: every object it serves hashes to its name,
    its sizes are the sizes of the files, the recency list holds every object
    exactly once, and the health report finds nothing corrupt. *)
Theorem cache_integrity (sha : list Z -> list Z) (quota : Z) (d0 : disk) (ops : list cache_op) :
  well_named sha d0 -> Forall quiet ops ->
  let '(c, d) := run (cache_step sha) (open quota d0, d0) ops in
  (forall h p, (get c d h).1 = Some p -> p = object_path h /\ verify sha d h = Ok true) /\
  (forall h n, sizes c !! h = Some n <-> exists f, objects d !! h = Some f /\ n = len (f_bytes f)) /\
  NoDup (lru c) /\ (forall h, h ∈ lru c <-> is_Some (objects d !! h)) /\
  verify_all sha c d = Ok (HealthReport (object_count c) []).
Proof.
  intros H0 Hq. pose proof (run_sound sha (open quota d0, d0) ops Hq (open_sound sha quota d0 H0)) as H.
  destruct (run _ _ ops) as [c d]. cbn [fst snd] in H. pose proof H as [[Hn Hl Hv] Hs Hr Hc]. split_and!.
  - intros h p. unfold get. destruct (valid_hash h) eqn:Ev; cbn [negb]; [|done].
    destruct (objects d !! h) as [f|] eqn:E; cbn; [|done]. intros [= <-]. split; [done|].
    rewrite verify_intact by done. f_equal. unfold intact. rewrite E. by apply bool_decide_eq_true_2, Hc.
  - intros h n. by rewrite Hs, lookup_fmap, fmap_Some.
  - done.
  - intros h. split; [apply Hr|]. intros [f Hf]. apply Hl. rewrite Hs, lookup_fmap, Hf. by eexists.
  - rewrite verify_all_spec by done. rewrite (sound_all_intact _ _ _ H). unfold object_count.
    pose proof (List.filter_length (intact sha d) (map_to_list (sizes c)).*1) as Hlen.
    rewrite (sound_all_intact _ _ _ H) in Hlen. cbn in Hlen.
    rewrite Nat.add_0_r in Hlen. rewrite Hlen, length_fmap, length_map_to_list. done.
Qed.

Lemma cache_integrity_witness :
  let s := run (cache_step sum_sha) (open 2 empty_disk, empty_disk) two_objects in
  (get s.1 s.2 hash12).1 = Some (object_path hash12) /\ verify sum_sha s.2 hash12 = Ok true.
Proof.
  intros s. assert (Hg : (get s.1 s.2 hash12).1 = Some (object_path hash12)) by (vm_compute; reflexivity).
  split; [exact Hg|].
  pose proof (cache_integrity sum_sha 2 empty_disk two_objects (map_Forall_empty _)
    ltac:(by repeat constructor)) as H.
  fold s in H. rewrite (surjective_pairing s) in H. exact (proj2 (proj1 H _ _ Hg)).
Defined.

(** Whatever other programs did to the files, a commit that succeeds leaves
    an object with the promised content; [repair] removes exactly the tracked
    objects that no longer verify, touches no other file, and afterwards
    every tracked object verifies. *)
Theorem cache_repair (sha : list Z -> list Z) (quota : Z) (d0 : disk) (ops : list cache_op) :
  let '(c, d) := run (cache_step sha) (open quota d0, d0) ops in
  (forall st h p c' d', commit sha c d st h = (Ok p, c', d') -> verify sha d' h = Ok true) /\
  exists bad c' d', repair sha c d = (Ok bad, c', d') /\
    (forall h, h ∈ bad <-> is_Some (sizes c !! h) /\ verify sha d h = Ok false) /\
    (forall h n, sizes c' !! h = Some n <-> h ∉ bad /\ sizes c !! h = Some n) /\
    (forall h, objects d' !! h = if decide (h ∈ bad) then None else objects d !! h) /\
    (forall h, is_Some (sizes c' !! h) -> verify sha d' h = Ok true).
Proof.
  pose proof (run_tracked sha (open quota d0, d0) ops (open_tracked quota d0)) as H.
  destruct (run _ _ ops) as [c d]. cbn [fst] in H. split.
  { intros st h p c' d' (_ & Hv & f & Hf & Hsha & _)%commit_spec. rewrite verify_intact by done. f_equal.
    unfold intact. rewrite Hf. by apply bool_decide_eq_true_2. }
  unfold repair. rewrite verify_all_spec by done. cbn [corrupt]. set (bad := sort_texts _).
  assert (Hbad : forall h, h ∈ bad <-> is_Some (sizes c !! h) /\ verify sha d h = Ok false).
  { intros h. unfold bad. rewrite elem_of_sort_texts, elem_of_filterb, elem_of_keys, negb_true_iff.
    split; intros [Hh Hi]; (split; [done|]).
    - rewrite verify_intact by by apply (tr_valid _ H). by rewrite Hi.
    - rewrite verify_intact in Hi by by apply (tr_valid _ H). by injection Hi. }
  exists bad. do 2 eexists. refine (conj eq_refl (conj Hbad (conj (foldl_forget bad c) (conj (foldl_drop bad d) _)))).
  intros h [n [Hnb Hn]%foldl_forget]. assert (Hv : valid_hash h = true) by (apply (tr_valid _ H); by eexists).
  rewrite verify_intact by done. f_equal. unfold intact. rewrite foldl_drop, (decide_False (P := h ∈ bad)) by exact Hnb.
  apply not_false_iff_true. intros Hf. apply Hnb, Hbad. split; [by eexists|]. rewrite verify_intact by done. f_equal. unfold intact. exact Hf.
Qed.

Lemma cache_repair_witness :
  let s := run (cache_step sum_sha) (open 2 empty_disk, empty_disk)
    (two_objects ++ [Damage hash7 (Some (File [8] 9))]) in
  exists c' d', repair sum_sha s.1 s.2 = (Ok [hash7], c', d') /\ forall h, is_Some (sizes c' !! h) -> verify sum_sha d' h = Ok true.
Proof.
  intros s. pose proof (cache_repair sum_sha 2 empty_disk (two_objects ++ [Damage hash7 (Some (File [8] 9))])) as H.
  fold s in H. rewrite (surjective_pairing s) in H. destruct H as (_ & bad & c' & d' & Hr & _ & _ & _ & Hv).
  assert (E : (repair sum_sha s.1 s.2).1.1 = Ok [hash7]) by (vm_compute; reflexivity).
  exists c', d'. split; [|exact Hv]. rewrite Hr in E |- *. cbn in E. by rewrite E.
Defined.

(** Eviction always ends; it removes the shortest prefix of the unprotected
    objects, least recently used first, that brings the store within its quota
    (all of them when none is enough), never a protected one, and neither the
    index nor the directory loses anything else. *)
Theorem evict_lru (sha : list Z -> list Z) (quota : Z) (d0 : disk) (ops : list cache_op) (protected : list text) :
  let '(c, d) := run (cache_step sha) (open quota d0, d0) ops in
  let '(evicted, c', d') := evict_to_fit protected c d in
  evicted `prefix_of` unprotected protected c /\
  (size_bytes c' <= quota_bytes c \/ unprotected protected c' = []) /\
  (forall l, l `prefix_of` evicted -> l <> evicted -> quota_bytes c < size_bytes (forget_all l c)) /\
  (forall h n, sizes c' !! h = Some n <-> h ∉ evicted /\ sizes c !! h = Some n) /\
  (forall h, objects d' !! h = if decide (h ∈ evicted) then None else objects d !! h) /\
  Forall (fun h => h ∉ protected) evicted.
Proof.
  pose proof (run_tracked sha (open quota d0, d0) ops (open_tracked quota d0)) as H.
  destruct (run _ _ ops) as [c d]. cbn [fst] in H.
  assert (Hfuel : (length (unprotected protected c) < S (length (lru c)))%nat)
    by (pose proof (length_filterb_le (fun h => negb (bool_decide (h ∈ protected))) (lru c)); unfold unprotected; lia).
  destruct (evict_loop_spec protected _ c d [] H Hfuel) as (k & Hk & He & Hend & Hmin).
  unfold evict_to_fit. rewrite He. cbn [app]. set (u := unprotected protected c) in *. split_and!.
  - exists (drop k u). by rewrite take_drop.
  - done.
  - intros l [t Ht] Hne. assert (Hl : l = take (length l) u).
    { rewrite <- (take_drop k u), Ht, <- app_assoc. by rewrite take_app_length. }
    rewrite Hl. apply Hmin. apply (f_equal length) in Ht as Hlen. rewrite length_app, length_take in Hlen.
    destruct t as [|x t]; [by rewrite app_nil_r in Ht|]. cbn in Hlen. lia.
  - intros h n. apply foldl_forget.
  - intros h. apply foldl_drop.
  - apply Forall_take, Forall_forall. intros h [_ Hh%negb_true_iff%bool_decide_eq_false]%elem_of_filterb. done.
Qed.

Lemma evict_lru_witness :
  let s := run (cache_step sum_sha) (open 2 empty_disk, empty_disk) two_objects in
  let '(evicted, c', _) := evict_to_fit [] s.1 s.2 in
  evicted = [hash7] /\ evicted `prefix_of` unprotected [] s.1 /\ size_bytes c' = 2.
Proof.
  intros s. pose proof (evict_lru sum_sha 2 empty_disk two_objects []) as H.
  fold s in H. rewrite (surjective_pairing s) in H.
  assert (E1 : (evict_to_fit [] s.1 s.2).1.1 = [hash7]) by (vm_compute; reflexivity).
  assert (E2 : size_bytes (evict_to_fit [] s.1 s.2).1.2 = 2) by (vm_compute; reflexivity).
  destruct (evict_to_fit [] s.1 s.2) as [[evicted c'] d']. split_and!; [exact E1|apply H|exact E2].
Defined.
