(* ===== verification/Streaming.v ===== *)
(** The streaming engine of crates/ald-streaming/src/lib.rs: it drives the
    downloads of Download.v, the cache of Cache.v and the mount pipeline and
    residency handshake of Assets.v for one asset id. The join gate is its
    verdict. *)
From S2P Require Import Prelude RustStr Bytes Download Cache Assets.
Import Mounting.

Inductive stream_error :=
| UnknownAsset (id : string) | Duplicate (id : string)
| EDownload (e : download_error) | EMount (e : mount_error)
| EResidency (e : Residency.residency_error) | ECache (e : cache_error).

(** A stage is the state whose debug text the source shows. *)
Inductive asset_state :=
| Downloading (received total : Z)
| Stalled (received total : Z)
| Caching
| InMount (stage : mount_state)
| InResidency (stage : Residency.residency_state)
| Ready
| Failed (reason : string).

Record asset_meta := AssetMeta { a_hash : text; a_lane : lane; a_download : download; cached : bool }.

Record engine := Engine {
  formats : Formats.registry; datafiles : DataFiles.registry; lanes : lane_scheduler;
  planned : gmap string asset_meta; mounts : mounter; residency : Residency.tracker;
  dog : watchdog; job_seq : Z }.

Definition engine_new (w : watchdog) : engine :=
  Engine Formats.with_spec_seed DataFiles.with_spec_seed scheduler_new ∅ ∅ ∅ w 0.

Definition map_err {A E F} (f : E -> F) (r : result A E) : result A F :=
  match r with Ok a => Ok a | Err e => Err (f e) end.

Definition set_planned (e : engine) (p : gmap string asset_meta) : engine :=
  Engine (formats e) (datafiles e) (lanes e) p (mounts e) (residency e) (dog e) (job_seq e).
Definition set_mounts (e : engine) (m : mounter) : engine :=
  Engine (formats e) (datafiles e) (lanes e) (planned e) m (residency e) (dog e) (job_seq e).
Definition set_residency (e : engine) (r : Residency.tracker) : engine :=
  Engine (formats e) (datafiles e) (lanes e) (planned e) (mounts e) r (dog e) (job_seq e).

Definition add_asset (e : engine) (id : string) (f : text) (file_len chunk_len : Z) (hash : text)
    (deps : list string) (l : lane) (now : Z) : result unit stream_error * engine :=
  match planned e !! id with
  | Some _ => (Err (Duplicate id), e)
  | None =>
      match plan_new file_len chunk_len with
      | Err x => (Err (EDownload x), e)
      | Ok plan =>
          match queue (mounts e) id f (formats e) (Some (of_codes hash)) deps with
          | (Err x, m) => (Err (EMount x), set_mounts e m)
          | (Ok _, m) =>
              let job := wrap 64 (job_seq e + 1) in
              (Ok tt, Engine (formats e) (datafiles e) (enqueue (lanes e) l job)
                (<[id := AssetMeta hash l (download_new plan now) false]> (planned e)) m
                (residency e) (dog e) job)
          end
      end
  end.

Definition receive_chunk (e : engine) (id : string) (offset : Z) (data : list Z) (now : Z) :
    result unit stream_error * engine :=
  match planned e !! id with
  | None => (Err (UnknownAsset id), e)
  | Some m =>
      match receive (a_download m) offset data now with
      | Err x => (Err (EDownload x), e)
      | Ok d => (Ok tt, set_planned e (<[id := AssetMeta (a_hash m) (a_lane m) d (cached m)]> (planned e)))
      end
  end.

(** Sorted by id; ids are unique. *)
Definition poll_stalls (e : engine) (now : Z) : list (string * bool) :=
  merge_sort (fun a b => Is_true (text_leb (codes a.1) (codes b.1)))
    ((fun '(id, m) => (id, is_stalled (dog e) (last_progress_tick (a_download m)) now)) <$>
     List.filter (fun '(_, m) => negb (is_complete (a_download m))) (map_to_list (planned e))).

Section engine.
Context (sha : list Z -> list Z).

Definition finalize_download (e : engine) (c : content_cache) (d : disk) (pid now : Z) (id : string) :
    result unit stream_error * engine * content_cache * disk :=
  match planned e !! id with
  | None => (Err (UnknownAsset id), e, c, d)
  | Some m =>
      match assembled (a_download m) with
      | None => (Err (EDownload (OutOfBounds 0 0 (file_len (plan (a_download m))))), e, c, d)
      | Some bytes =>
          let '(st, c, d) := stage pid now c d bytes in
          match commit sha c d st (a_hash m) with
          | (Err x, c, d) => (Err (ECache x), e, c, d)
          | (Ok _, c, d) =>
              (Ok tt, set_planned e (<[id := AssetMeta (a_hash m) (a_lane m) (a_download m) true]> (planned e)), c, d)
          end
      end
  end.

Definition mount_verify (e : engine) (d : disk) (id : string) : result unit stream_error * engine :=
  match planned e !! id with
  | None => (Err (UnknownAsset id), e)
  | Some m =>
      match begin_verify (mounts e) id with
      | (Err x, mt) => (Err (EMount x), set_mounts e mt)
      | (Ok _, mt) =>
          let ok := match verify sha d (a_hash m) with Ok b => b | Err _ => false end in
          let '(r, mt) := finish_verify mt id ok ("cache verdict for " ++ of_codes (a_hash m)) in
          (map_err EMount r, set_mounts e mt)
      end
  end.
End engine.

Definition lift_mount (e : engine) (r : result unit mount_error * mounter) : result unit stream_error * engine :=
  (map_err EMount r.1, set_mounts e r.2).

Definition mount_check_deps (e : engine) (id : string) :=
  lift_mount e (check_dependencies (mounts e) id (fun d => bool_decide (is_Some (DataFiles.lookup (datafiles e) (codes d))))).
Definition mount_begin (e : engine) (id point : string) := lift_mount e (begin_mount (mounts e) id point).
Definition complete_mount (e : engine) (id : string) := lift_mount e (Mounting.complete_mount (mounts e) id).
Definition mount_register (e : engine) (id : string) := lift_mount e (register (mounts e) id).

Definition residency_request (e : engine) (id : string) (now timeout max : Z) (ans : Residency.commit_outcome) :
    result Residency.residency_state stream_error * engine :=
  let '(r, t, _) := Residency.request (residency e) id now timeout max ans in (map_err EResidency r, set_residency e t).
Definition residency_poll (e : engine) (id : string) (now : Z) (ans : Residency.commit_outcome) (confirm : bool) :
    result Residency.residency_state stream_error * engine :=
  let '(r, t, _) := Residency.poll (residency e) id now ans confirm in (map_err EResidency r, set_residency e t).

(** [asset_state] once the mount tracker has no failure to report. *)
Definition progress_state (e : engine) (id : string) (m : asset_meta) (now : Z) : asset_state :=
  let d := a_download m in
  if negb (is_complete d) then
    if is_stalled (dog e) (last_progress_tick d) now then Stalled (received_bytes d) (file_len (plan d))
    else Downloading (received_bytes d) (file_len (plan d))
  else if negb (cached m) then Caching
  else match state_of (mounts e) id with Some s => InMount s | None => Caching end.

Definition asset_state_of (e : engine) (id : string) (now : Z) : result asset_state stream_error :=
  match planned e !! id with
  | None => Err (UnknownAsset id)
  | Some m =>
      Ok match Residency.state_of (residency e) id with
      | Some Residency.Ready => Ready
      | Some (Residency.Failed why) => Failed why
      | Some Residency.Expired => Failed "residency expired"
      | Some Residency.Cancelled => Failed "residency cancelled"
      | Some s => InResidency s
      | None =>
          match state_of (mounts e) id with
          | Some (FailedRetryable why) | Some (FailedFatal why) => Failed why
          | Some Cancelled => Failed "mount cancelled"
          | _ => progress_state e id m now
          end
      end
  end.

Definition overall_progress (e : engine) : Z * Z :=
  (wrap 64 (map_sum (fun m => received_bytes (a_download m)) (planned e)),
   wrap 64 (map_sum (fun m => file_len (plan (a_download m))) (planned e))).

Definition join_ready (e : engine) (required : list string) (now : Z) : bool :=
  forallb (fun id => match asset_state_of e id now with Ok Ready => true | _ => false end) required.

Definition next_lane_job (e : engine) : option (lane * Z) * engine :=
  let '(l, job) := pop_next (lanes e) in
  (job, Engine (formats e) (datafiles e) l (planned e) (mounts e) (residency e) (dog e) (job_seq e)).

Definition lane_of (e : engine) (id : string) : option lane := a_lane <$> planned e !! id.

(** ** Histories

    [OnCache] is anything else that happens to the cache and its files,
    damage included. *)
Inductive stream_op :=
| AddAsset (id : string) (f : text) (file_len chunk_len : Z) (hash : text) (deps : list string) (l : lane) (now : Z)
| ReceiveChunk (id : string) (offset : Z) (data : list Z) (now : Z)
| Finalize (pid now : Z) (id : string)
| MountVerify (id : string)
| MountCheckDeps (id : string)
| MountBegin (id point : string)
| CompleteMount (id : string)
| MountRegister (id : string)
| ResidencyRequest (id : string) (now timeout max : Z) (ans : Residency.commit_outcome)
| ResidencyPoll (id : string) (now : Z) (ans : Residency.commit_outcome) (confirm : bool)
| NextLaneJob
| RegisterDataFile (n : text) (c : DataFiles.data_file_category) (s : DataFiles.entry_source) (note : string)
| OnCache (o : cache_op).

(** Arguments of the unsigned types are not negative. *)
Definition op_ok (o : stream_op) : Prop :=
  match o with
  | AddAsset _ _ n _ _ _ _ _ => fits 64 n
  | ReceiveChunk _ offset _ _ => 0 <= offset
  | _ => True
  end.

Abbreviation world := (engine * content_cache * disk)%type.

Section history.
Context (sha : list Z -> list Z).

Definition stream_step (s : world) (o : stream_op) : world :=
  let '(e, c, d) := s in
  match o with
  | AddAsset id f n k h deps l now => ((add_asset e id f n k h deps l now).2, c, d)
  | ReceiveChunk id off data now => ((receive_chunk e id off data now).2, c, d)
  | Finalize pid now id => let '(_, e, c, d) := finalize_download sha e c d pid now id in (e, c, d)
  | MountVerify id => ((mount_verify sha e d id).2, c, d)
  | MountCheckDeps id => ((mount_check_deps e id).2, c, d)
  | MountBegin id p => ((mount_begin e id p).2, c, d)
  | CompleteMount id => ((complete_mount e id).2, c, d)
  | MountRegister id => ((mount_register e id).2, c, d)
  | ResidencyRequest id now t m a => ((residency_request e id now t m a).2, c, d)
  | ResidencyPoll id now a b => ((residency_poll e id now a b).2, c, d)
  | NextLaneJob => ((next_lane_job e).2, c, d)
  | RegisterDataFile n k s nt =>
      (Engine (formats e) (DataFiles.register (datafiles e) n k s nt).2 (lanes e) (planned e) (mounts e)
         (residency e) (dog e) (job_seq e), c, d)
  | OnCache o => let '(c, d) := cache_step sha (c, d) o in (e, c, d)
  end.

(** [id]'s cache entry was re-hashed to [h] at some verification of the history. *)
Definition verified_before (s0 : world) (ops : list stream_op) (id : string) (h : text) : Prop :=
  exists before after_, ops = before ++ MountVerify id :: after_ /\ verify sha (run stream_step s0 before).2 h = Ok true.
(** The game confirmed [id] at some poll of the history. *)
Definition confirmed_before (ops : list stream_op) (id : string) : Prop :=
  exists now ans, ResidencyPoll id now ans true ∈ ops.

Definition past_verify (s : mount_state) : bool :=
  match s with Verified | DependenciesReady | MountPending | Mounted | Registered => true | _ => false end.
Definition past_deps (s : mount_state) : bool :=
  match s with DependenciesReady | MountPending | Mounted | Registered => true | _ => false end.
Definition resolved (e : engine) (x : string) : Prop := is_Some (DataFiles.lookup (datafiles e) (codes x)).

(** What a tracked asset and a mount record promise. *)
Definition meta_ok (m : asset_meta) : Prop :=
  download_ok (a_download m) /\
  (cached m = true -> valid_hash (a_hash m) = true /\
    exists bytes, assembled (a_download m) = Some bytes /\ sha256_hex sha bytes = a_hash m).
Definition record_ok (s0 : world) (ops : list stream_op) (e : engine) (id : string) (r : mount_record) : Prop :=
  (exists m, planned e !! id = Some m /\ expected_hash r = Some (of_codes (a_hash m)) /\
    (past_verify (state r) = true -> verified_before s0 ops id (a_hash m))) /\
  (past_deps (state r) = true -> Forall (resolved e) (dependencies r)).
Record engine_ok (s0 : world) (ops : list stream_op) (e : engine) : Prop := {
  eo_meta : map_Forall (fun _ m => meta_ok m) (planned e);
  eo_mount : map_Forall (record_ok s0 ops e) (mounts e);
  eo_residency : map_Forall (fun id r => Residency.state r = Residency.Ready -> confirmed_before ops id) (residency e) }.

Lemma verified_more s0 ops o id h : verified_before s0 ops id h -> verified_before s0 (ops ++ [o]) id h.
Proof. intros (b & a & -> & Hv). exists b, (a ++ [o]). by rewrite <- app_assoc. Qed.

Lemma confirmed_more ops o id : confirmed_before ops id -> confirmed_before (ops ++ [o]) id.
Proof. intros (now & ans & H). exists now, ans. apply elem_of_app. by left. Qed.

Lemma record_more s0 ops o e e' id r :
  planned e' !! id = planned e !! id -> (forall x, resolved e x -> resolved e' x) ->
  record_ok s0 ops e id r -> record_ok s0 (ops ++ [o]) e' id r.
Proof.
  intros Hp Hres [(m & Hm & Hh & Hv) Hd]. split.
  - exists m. rewrite Hp. split_and!; [done..|]. intros H. by apply verified_more, Hv.
  - intros H. eapply Forall_impl; [by apply Hd|]. exact Hres.
Qed.

(** A step that leaves the mounts and the residency alone. *)
Lemma keep_ok s0 ops o e e' :
  engine_ok s0 ops e -> mounts e' = mounts e -> residency e' = residency e ->
  (forall x, resolved e x -> resolved e' x) ->
  map_Forall (fun _ m => meta_ok m) (planned e') ->
  (forall id r, mounts e !! id = Some r -> forall m, planned e !! id = Some m ->
     exists m', planned e' !! id = Some m' /\ a_hash m' = a_hash m) ->
  engine_ok s0 (ops ++ [o]) e'.
Proof.
  intros [Hm Hr Hs] Em Er Hres Hm' Hp. split; [done| |].
  - rewrite Em. intros id r Hid. destruct (Hr id r Hid) as [(m & Hpm & Hh & Hv) Hd].
    destruct (Hp id r Hid m Hpm) as (m' & Hpm' & Ha). split.
    + exists m'. rewrite Ha. split_and!; [done..|]. intros H. by apply verified_more, Hv.
    + intros H. eapply Forall_impl; [by apply Hd|]. exact Hres.
  - rewrite Er. intros id r Hid H. by apply confirmed_more, (Hs id r Hid).
Qed.

Lemma advance_cases m id want op f r m' : advance m id want op f = (r, m') -> failed want = false -> want <> Registered ->
  m' = m \/ exists rec, m !! id = Some rec /\ state rec = want /\ m' = <[id := f rec]> m.
Proof.
  unfold advance. intros H Hw Hr. destruct (m !! id) as [rec|] eqn:E; [|left; by injection H].
  destruct (check _ _ _) as [[]|] eqn:Ec; [|left; by injection H].
  apply mount_check_ok in Ec; [|done..]. right. exists rec. by injection H.
Qed.

(** A mount step of [id] that keeps hash and dependencies and does not move past
    a gate. *)
Lemma mount_step_ok s0 ops o e id rec rec' :
  engine_ok s0 ops e -> mounts e !! id = Some rec ->
  expected_hash rec' = expected_hash rec -> dependencies rec' = dependencies rec ->
  (past_verify (state rec') = true -> past_verify (state rec) = true \/
     forall m, planned e !! id = Some m -> verified_before s0 (ops ++ [o]) id (a_hash m)) ->
  (past_deps (state rec') = true -> past_deps (state rec) = true \/ Forall (resolved e) (dependencies rec)) ->
  engine_ok s0 (ops ++ [o]) (set_mounts e (<[id := rec']> (mounts e))).
Proof.
  intros [Hm Hr Hs] Hid Hh Hd Hv Hdeps. split; [done| |].
  - cbn [mounts set_mounts]. apply map_Forall_insert_2.
    + destruct (Hr id rec Hid) as [(m & Hpm & Hhm & Hvm) Hdm]. split.
      * exists m. rewrite Hh. split_and!; [done..|]. intros [H|H]%Hv; [by apply verified_more, Hvm|by apply H].
      * rewrite Hd. intros [H|H]%Hdeps; [by apply Hdm|done].
    + eapply map_Forall_impl; [exact Hr|]. intros k r Hk. eapply record_more; [..|exact Hk]; done.
  - intros k r Hk H. by apply confirmed_more, (Hs k r Hk).
Qed.

Lemma poll_ready r now ans conf : Residency.state (Residency.poll_record r now ans conf).1 = Residency.Ready ->
  Residency.state r = Residency.Ready \/ conf = true.
Proof.
  unfold Residency.poll_record. destruct (Residency.terminal _) eqn:Et; [by left|].
  destruct (Residency.state r) eqn:Es; try done; cbn; [|by destruct conf; [right|repeat case_match; cbn; congruence]].
  repeat case_match; cbn; try congruence. by destruct ans.
Qed.

Lemma residency_step_ok s0 ops o e t' :
  engine_ok s0 ops e ->
  (forall id r, t' !! id = Some r -> Residency.state r = Residency.Ready ->
     (exists r0, residency e !! id = Some r0 /\ Residency.state r0 = Residency.Ready) \/ confirmed_before (ops ++ [o]) id) ->
  engine_ok s0 (ops ++ [o]) (set_residency e t').
Proof.
  intros [Hm Hr Hs] Ht. split; [done| |].
  - eapply map_Forall_impl; [exact Hr|]. intros k r Hk. eapply record_more; [..|exact Hk]; done.
  - intros id r Hid H. destruct (Ht id r Hid H) as [(r0 & Hr0 & H0)|]; [|done]. by apply confirmed_more, (Hs id r0).
Qed.

Lemma register_keeps r n k s nt x : is_Some (DataFiles.lookup r x) -> is_Some (DataFiles.lookup (DataFiles.register r n k s nt).2 x).
Proof.
  unfold DataFiles.lookup. destruct (DataFiles.normalize_name x) as [key|]; [|done]. intros Hx.
  unfold DataFiles.register. destruct (DataFiles.normalize_name n) as [key'|]; [|done].
  assert (Hins : forall v, is_Some (<[key' := v]> r !! key)).
  { intros v. destruct (decide (key = key')) as [->|Hne]; [by rewrite lookup_insert_eq|by rewrite lookup_insert_ne]. }
  destruct (r !! key'); [destruct (_ && _)|]; cbn; by try apply Hins.
Qed.

(** *** The steps of the mount pipeline *)
Lemma mount_advance_ok s0 ops o e id want op f :
  engine_ok s0 ops e -> failed want = false -> want <> Registered ->
  (forall rec, mounts e !! id = Some rec -> state rec = want ->
    expected_hash (f rec) = expected_hash rec /\ dependencies (f rec) = dependencies rec /\
    (past_verify (state (f rec)) = true -> past_verify want = true) /\
    (past_deps (state (f rec)) = true -> past_deps want = true \/ Forall (resolved e) (dependencies rec))) ->
  engine_ok s0 (ops ++ [o]) (set_mounts e (advance (mounts e) id want op f).2).
Proof.
  intros H Hw Hreg Hf. destruct (advance _ _ _ _ _) as [r m'] eqn:E. apply advance_cases in E; [|done..].
  cbn [snd]. destruct E as [->|(rec & Hid & Hst & ->)].
  - apply (keep_ok s0 ops o e); try done; [apply H|]. intros ? ? ? m ?. by exists m.
  - destruct (Hf rec Hid Hst) as (Hh & Hd & Hv & Hp). eapply mount_step_ok; [done..| |].
    + intros Hx. left. rewrite Hst. by apply Hv.
    + rewrite Hst. exact Hp.
Qed.

Lemma verify_step_ok s0 ops e c d id :
  engine_ok s0 ops e -> run stream_step s0 ops = (e, c, d) ->
  engine_ok s0 (ops ++ [MountVerify id]) (mount_verify sha e d id).2.
Proof.
  intros H Hrun. unfold mount_verify.
  assert (Hsame : engine_ok s0 (ops ++ [MountVerify id]) e).
  { apply (keep_ok s0 ops _ e); try done; [apply H|]. intros ? ? ? m ?. by exists m. }
  destruct (planned e !! id) as [m|] eqn:Em; [|done].
  unfold begin_verify. destruct (advance _ _ _ _ _) as [r m1] eqn:E1.
  apply advance_cases in E1 as H1; [|done..]. destruct r as [[]|x].
  2: { assert (m1 = mounts e) as ->; [|by destruct e]. revert E1. unfold advance.
    destruct (mounts e !! id); [destruct (check _ _ _)|]; congruence. }
  set (ok := match verify sha d (a_hash m) with Ok b => b | Err _ => false end).
  destruct (finish_verify m1 id ok _) as [r2 m2] eqn:E2. cbn [snd].
  unfold finish_verify in E2. apply advance_cases in E2 as H2; [|done..].
  destruct H1 as [->|(rec & Hid & Hst & ->)].
  - (* [begin_verify] is [Ok] only when it updates *)
    revert E1. unfold advance. destruct (mounts e !! id) as [rec|] eqn:Er; [|done].
    destruct (check _ _ _) as [[]|] eqn:Ec; [|done]. apply mount_check_ok in Ec; [|done..]. intros [= E1].
    exfalso. apply (f_equal (lookup id)) in E1. rewrite lookup_insert_eq, Er in E1.
    apply (f_equal (fmap state)) in E1. cbn in E1. rewrite Ec in E1. congruence.
  - destruct H2 as [->|(rec2 & Hid2 & Hst2 & ->)].
    + eapply mount_step_ok; [done..| |]; done.
    + rewrite lookup_insert_eq in Hid2. injection Hid2 as <-. rewrite insert_insert_eq. cbn.
      eapply mount_step_ok; [done..| |]; cbn; [|by destruct ok].
      intros Hp. right. intros m' Hm'. assert (m' = m) as -> by congruence. exists ops, []. split; [done|].
      rewrite Hrun. cbn. unfold ok in Hp. destruct (verify sha d (a_hash m)) as [[]|]; done.
Qed.

(** *** The steps that touch the downloads *)
Lemma add_step_ok s0 ops o e id f n k h deps l now :
  engine_ok s0 ops e -> fits 64 n -> engine_ok s0 (ops ++ [o]) (add_asset e id f n k h deps l now).2.
Proof.
  intros H Hn. assert (Hsame : engine_ok s0 (ops ++ [o]) e).
  { apply (keep_ok s0 ops o e); try done; [apply H|]. intros ? ? ? m ?. by exists m. }
  unfold add_asset. destruct (planned e !! id) eqn:Ep; [done|].
  destruct (plan_new n k) as [pl|] eqn:Epl; [|done].
  unfold queue. destruct (Formats.recognize _ _) as [fmt|]; [|by destruct e].
  destruct (mounts e !! id) eqn:Em; [by destruct e|]. cbn [snd].
  assert (Hpl : 0 < file_len pl < 2 ^ 64).
  { unfold plan_new in Epl. destruct (_ || _) eqn:E; [done|]. apply orb_false_iff in E as [E%Z.eqb_neq _].
    injection Epl as <-. cbn. unfold fits in Hn. lia. }
  destruct H as [Hm Hr Hs]. split; cbn [planned mounts residency].
  - apply map_Forall_insert_2; [|done]. split; [by apply download_new_ok|done].
  - apply map_Forall_insert_2.
    + split; [|done]. eexists. cbn [planned]. rewrite lookup_insert_eq. done.
    + intros id' r Hid. assert (id' <> id) by congruence. apply (record_more s0 ops o e); [cbn [planned]; by rewrite lookup_insert_ne|done|by apply Hr].
  - intros id' r Hid Hx. by apply confirmed_more, (Hs id' r).
Qed.

(** A complete download refuses every further byte. *)
Lemma receive_step_ok s0 ops o e id off data now :
  engine_ok s0 ops e -> 0 <= off -> engine_ok s0 (ops ++ [o]) (receive_chunk e id off data now).2.
Proof.
  intros H Ho. assert (Hsame : engine_ok s0 (ops ++ [o]) e).
  { apply (keep_ok s0 ops o e); try done; [apply H|]. intros ? ? ? m ?. by exists m. }
  unfold receive_chunk. destruct (planned e !! id) as [m|] eqn:Ep; [|done].
  destruct (receive _ _ _ _) as [d'|] eqn:Er; [|done]. cbn [snd].
  destruct (eo_meta _ _ _ H _ _ Ep) as [Hd Hc].
  destruct (receive_ok _ _ _ _ _ Hd Ho Er) as (Hd' & _ & Hnc & _).
  apply (keep_ok s0 ops o e); try done; cbn [planned set_planned].
  - apply map_Forall_insert_2; [|apply H]. split; [done|]. cbn [cached]. intros Hca.
    destruct (Hc Hca) as (_ & b & Hb & _). unfold assembled in Hb. by rewrite Hnc in Hb.
  - intros id' r _ m' Hm'. destruct (decide (id' = id)) as [->|Hne].
    + rewrite lookup_insert_eq. eexists. split; [done|]. cbn. congruence.
    + rewrite lookup_insert_ne by done. by exists m'.
Qed.

Lemma finalize_step_ok s0 ops o e c d pid now id :
  engine_ok s0 ops e -> engine_ok s0 (ops ++ [o]) (finalize_download sha e c d pid now id).1.1.2.
Proof.
  intros H. assert (Hsame : engine_ok s0 (ops ++ [o]) e).
  { apply (keep_ok s0 ops o e); try done; [apply H|]. intros ? ? ? m ?. by exists m. }
  unfold finalize_download. destruct (planned e !! id) as [m|] eqn:Ep; [|done].
  destruct (assembled _) as [b|] eqn:Ea; [|done]. cbn [stage].
  destruct (commit _ _ _ _ _) as [[[p|x] c'] d'] eqn:Ec; [|done]. cbn [fst snd].
  destruct (eo_meta _ _ _ H _ _ Ep) as [Hd _].
  apply commit_spec in Ec as Hsp. destruct Hsp as (_ & Hv & _).
  apply commit_staged in Ec as (g & Hg & Hsha). cbn in Hg. rewrite lookup_insert_eq in Hg. injection Hg as <-.
  apply (keep_ok s0 ops o e); try done; cbn [planned set_planned].
  - apply map_Forall_insert_2; [|apply H]. split; [done|]. intros _. split; [done|]. by exists b.
  - intros id' r _ m' Hm'. destruct (decide (id' = id)) as [->|Hne].
    + rewrite lookup_insert_eq. eexists. split; [done|]. cbn. congruence.
    + rewrite lookup_insert_ne by done. by exists m'.
Qed.

Lemma step_ok s0 ops o s :
  run stream_step s0 ops = s -> op_ok o -> engine_ok s0 ops s.1.1 -> engine_ok s0 (ops ++ [o]) (stream_step s o).1.1.
Proof.
  destruct s as [[e c] d]. cbn [fst]. intros Hrun Ho H.
  assert (Hsame : forall e', planned e' = planned e -> mounts e' = mounts e -> residency e' = residency e ->
    (forall x, resolved e x -> resolved e' x) -> engine_ok s0 (ops ++ [o]) e').
  { intros e' Ep Em Er Hres. apply (keep_ok s0 ops o e); try done; rewrite Ep; [apply H|]. intros ? ? ? m ?. by exists m. }
  destruct o as [id f n k h deps l now|id off data now|pid now id|id|id|id p|id|id|id now t m a|id now a b| |n k s nt|o];
    cbn [stream_step op_ok] in *.
  - by apply add_step_ok.
  - by apply receive_step_ok.
  - pose proof (finalize_step_ok s0 ops (Finalize pid now id) e c d pid now id H) as Hf.
    by destruct (finalize_download _ _ _ _ _ _ _) as [[[r e'] c'] d'].
  - by apply (verify_step_ok s0 ops e c d).
  - apply mount_advance_ok; [done..|]. intros rec _ Hst. cbn. split_and!; [done..| |].
    + by case_bool_decide.
    + case_bool_decide as Hmiss; [|done]. intros _. right. apply Forall_forall. intros x Hx.
      destruct (decide (resolved e x)) as [|Hn]; [done|]. exfalso.
      apply (not_elem_of_nil x). rewrite <- Hmiss. apply elem_of_filterb. split; [done|].
      apply negb_true_iff. by apply bool_decide_eq_false.
  - apply mount_advance_ok; [done..|]. intros rec _ Hst. cbn. split_and!; [done..|]. by left.
  - apply mount_advance_ok; [done..|]. intros rec _ Hst. cbn. split_and!; [done..|]. by left.
  - apply mount_advance_ok; [done..|]. intros rec _ Hst. cbn. split_and!; [done..|]. by left.
  - unfold residency_request, Residency.request. destruct (residency e !! id) eqn:Er.
    + cbn [snd]. apply Hsame; done.
    + cbn [snd]. apply residency_step_ok; [done|]. intros id' r. rewrite lookup_insert_Some.
      intros [[<- <-]|[_ Hr]] Hx; [|left; by exists r]. cbn in Hx. by destruct a.
  - unfold residency_poll, Residency.poll. destruct (residency e !! id) as [r|] eqn:Er; [|by apply Hsame].
    destruct (Residency.poll_record r now a b) as [r' calls] eqn:Epr. cbn [snd].
    apply residency_step_ok; [done|]. intros id' r2. rewrite lookup_insert_Some.
    intros [[<- <-]|[_ Hr]] Hx; [|left; by exists r2].
    pose proof (poll_ready r now a b) as Hp. rewrite Epr in Hp. destruct (Hp Hx) as [|Hb]; [left; by exists r|right].
    exists now, a. rewrite Hb. apply elem_of_app. right. by apply list_elem_of_singleton.
  - unfold next_lane_job. destruct (pop_next _) as [l job]. by apply Hsame.
  - apply Hsame; [done..|]. intros x. by apply register_keeps.
  - destruct (cache_step sha (c, d) o) as [c' d']. by apply Hsame.
Qed.

Lemma run_ok w c d ops : Forall op_ok ops ->
  engine_ok (engine_new w, c, d) ops (run stream_step (engine_new w, c, d) ops).1.1.
Proof.
  induction ops as [|o ops IH] using rev_ind; intros Hops; [split; apply map_Forall_empty|].
  apply Forall_app in Hops as [Hops [Ho _]%Forall_cons]. rewrite run_app. by apply step_ok; [..|apply IH].
Qed.
End history.

Lemma received_bounds d : download_ok d -> 0 <= received_bytes d <= file_len (plan d).
Proof. intros [_ _ Hc ->]. rewrite <- Hc. split; [unfold count_true; lia|]. apply count_true_le. Qed.

(** Whatever calls, bytes and damage the engine sees: an asset past the
    verify gate had its cache entry re-hashed to its expected hash at some
    verification; one past the dependency gate has every dependency registered;
    one marked cached assembled bytes with that hash; progress never exceeds the
    size; and when the join gate opens every required asset is tracked and
    the game confirmed it. *)
Theorem streaming_verified (sha : list Z -> list Z) (w : watchdog) (quota : Z) (d0 : disk) (ops : list stream_op) :
  Forall op_ok ops ->
  let s0 := (engine_new w, open quota d0, d0) in
  let e := (run (stream_step sha) s0 ops).1.1 in
  (forall id r, mounts e !! id = Some r -> past_verify (state r) = true ->
     exists m, planned e !! id = Some m /\ expected_hash r = Some (of_codes (a_hash m)) /\
       verified_before sha s0 ops id (a_hash m)) /\
  (forall id r, mounts e !! id = Some r -> past_deps (state r) = true -> Forall (resolved e) (dependencies r)) /\
  (forall id m, planned e !! id = Some m -> 0 <= received_bytes (a_download m) <= file_len (plan (a_download m)) /\
     (cached m = true -> exists bytes, assembled (a_download m) = Some bytes /\ sha256_hex sha bytes = a_hash m)) /\
  (forall required now, join_ready e required now = true ->
     Forall (fun id => is_Some (planned e !! id) /\ confirmed_before ops id) required).
Proof.
  intros Hops s0 e. destruct (run_ok sha w (open quota d0) d0 ops Hops) as [Hm Hr Hs].
  fold s0 in Hm, Hr, Hs. fold e in Hm, Hr, Hs. split; [|split; [|split]].
  - intros id r Hid Hp. destruct (Hr id r Hid) as [(m & Hpm & Hh & Hv) _]. exists m. split; [done|]. split; [done|]. by apply Hv.
  - intros id r Hid. apply (Hr id r Hid).
  - intros id m Hid. destruct (Hm id m Hid) as [Hd Hc]. split; [by apply received_bounds|]. by intros [_ ?]%Hc.
  - intros required now Hj. unfold join_ready in Hj. rewrite forallb_forall in Hj. apply Forall_forall.
    intros id Hid%list_elem_of_In%Hj. unfold asset_state_of in Hid. destruct (planned e !! id) as [m|]; [|done].
    split; [by eexists|]. unfold Residency.state_of in Hid. destruct (residency e !! id) as [r|] eqn:Er.
    + apply (Hs id r Er). cbn in Hid. by destruct (Residency.state r).
    + cbn in Hid. unfold progress_state in Hid. exfalso. revert Hid. repeat case_match; done.
Qed.

(** The engine with [id]'s mount record replaced. *)
Definition with_record (e : engine) (id : string) (r : mount_record) : engine :=
  set_mounts e (<[id := r]> (mounts e)).

Lemma with_record_id e id r : mounts e !! id = Some r -> with_record e id r = e.
Proof. intros H. unfold with_record. rewrite insert_id by done. by destruct e. Qed.

Lemma advance_at (m : mounter) id rec want op f : state rec = want -> terminal want = false ->
  advance (<[id := rec]> m) id want op f = (Ok tt, <[id := f rec]> m).
Proof.
  intros <- Ht. unfold advance. rewrite lookup_insert_eq. unfold check. rewrite Ht.
  assert (same_kind (state rec) (state rec) = true) as -> by by destruct (state rec).
  cbn. by rewrite insert_insert_eq.
Qed.

Lemma advance_record e id rec want op f : state rec = want -> terminal want = false ->
  lift_mount (with_record e id rec) (advance (mounts (with_record e id rec)) id want op f) =
    (Ok tt, with_record e id (f rec)).
Proof. intros Hs Ht. unfold with_record. cbn [mounts set_mounts]. by rewrite advance_at. Qed.

Lemma verify_record (sha : list Z -> list Z) e d id rec m : state rec = Queued -> planned e !! id = Some m ->
  verify sha d (a_hash m) = Ok true -> (mount_verify sha (with_record e id rec) d id).2 = with_record e id (with_state rec Verified).
Proof.
  intros Hs Hp Hv. unfold mount_verify, begin_verify, finish_verify, with_record. cbn [planned mounts set_mounts].
  rewrite Hp, Hv, advance_at by done. by rewrite advance_at.
Qed.

(** The calls of the per-asset flow once the last chunk is in. *)
Definition flow (pid now : Z) (id point : string) (timeout max : Z) : list stream_op :=
  [Finalize pid now id; MountVerify id; MountCheckDeps id; MountBegin id point; CompleteMount id; MountRegister id;
   ResidencyRequest id now timeout max Residency.Accepted; ResidencyPoll id now Residency.Accepted true].

(** The documented flow succeeds: an asset whose bytes are complete and hash
    to the expected value, with its dependencies registered and no damaged
    object of that name in the cache, is registered, cached and ready after it. *)
Theorem streaming_completes (sha : list Z -> list Z) (e : engine) (c : content_cache) (d : disk) (id point : string)
    (m : asset_meta) (r : mount_record) (bytes : list Z) (pid now timeout max now' : Z) :
  planned e !! id = Some m -> mounts e !! id = Some r -> state r = Queued -> residency e !! id = None ->
  assembled (a_download m) = Some bytes -> sha256_hex sha bytes = a_hash m -> valid_hash (a_hash m) = true ->
  Forall (resolved e) (dependencies r) ->
  (forall f, objects d !! a_hash m = Some f -> sha256_hex sha (f_bytes f) = a_hash m) ->
  let s := run (stream_step sha) (e, c, d) (flow pid now id point timeout max) in
  asset_state_of s.1.1 id now' = Ok Ready /\ state_of (mounts s.1.1) id = Some Registered /\
  verify sha s.2 (a_hash m) = Ok true /\ is_Some (sizes s.1.2 !! a_hash m).
Proof.
  intros Hp Hm Hq Hres Hb Hsha Hv Hdeps Hobj.
  assert (Hfin : exists c' d', finalize_download sha e c d pid now id =
    (Ok tt, set_planned e (<[id := AssetMeta (a_hash m) (a_lane m) (a_download m) true]> (planned e)), c', d') /\
    verify sha d' (a_hash m) = Ok true /\ is_Some (sizes c' !! a_hash m)).
  { unfold finalize_download. rewrite Hp, Hb. unfold stage.
    destruct (commit _ _ _ _ _) as [[[p|x] c'] d'] eqn:Ec.
    - apply commit_spec in Ec as (_ & _ & f & Hf & Hf' & _ & ->). eexists _, _. split; [done|]. split.
      + rewrite verify_intact by done. f_equal. unfold intact. rewrite Hf. by apply bool_decide_eq_true_2.
      + cbn. rewrite lookup_insert_eq. by eexists.
    - exfalso. revert Ec. unfold commit. rewrite Hv. cbn. rewrite lookup_insert_eq. cbn. rewrite Hsha.
      rewrite bool_decide_eq_true_2 by done. cbn.
      destruct (objects d !! a_hash m) as [f|] eqn:Eo; cbn.
      + rewrite Eo. by rewrite (Hobj f), bool_decide_eq_true_2.
      + rewrite lookup_insert_eq. cbn. by rewrite Hsha, bool_decide_eq_true_2. }
  destruct Hfin as (c' & d' & Hfin & Hver & Hsz).
  assert (Hmiss : List.filter (fun x => negb (bool_decide (is_Some (DataFiles.lookup (datafiles e) (codes x))))) (dependencies r) = []).
  { induction Hdeps as [|x l Hx _ IH]; [done|]. cbn. by rewrite bool_decide_eq_true_2. }
  set (e1 := set_planned e _) in Hfin. assert (Hp1 : exists m1, planned e1 !! id = Some m1 /\ a_hash m1 = a_hash m).
  { eexists. cbn. by rewrite lookup_insert_eq. }
  destruct Hp1 as (m1 & Hp1 & Hh1). rewrite <- Hh1 in *.
  set (r7 := MountRecord (asset_id r) (file_name r) (m_class r) (expected_hash r) (dependencies r) Registered (Some point)).
  assert (Hmounted : run (stream_step sha) (e, c, d) (take 6 (flow pid now id point timeout max)) = (with_record e1 id r7, c', d')).
  { unfold run, flow. cbn [foldl take]. unfold stream_step at 6. rewrite Hfin.
    rewrite <- (with_record_id e1 id r) by done. cbn [stream_step].
    rewrite (verify_record sha e1 d' id r m1) by done. cbn [stream_step].
    unfold mount_check_deps, check_dependencies.
    rewrite advance_record by done. cbn [snd dependencies with_state stream_step].
    change (datafiles (with_record e1 id _)) with (datafiles e). rewrite Hmiss, bool_decide_eq_true_2 by done.
    unfold mount_begin, begin_mount. rewrite advance_record by done. cbn [snd stream_step].
    unfold complete_mount, Mounting.complete_mount. rewrite advance_record by done. cbn [snd stream_step].
    unfold mount_register, register. rewrite advance_record by done. by rewrite (with_record_id e1 id r). }
  assert (Hsplit : flow pid now id point timeout max = take 6 (flow pid now id point timeout max) ++
    [ResidencyRequest id now timeout max Residency.Accepted; ResidencyPoll id now Residency.Accepted true]) by done.
  intros s. unfold s. rewrite Hsplit, run_app, Hmounted. unfold run. cbn [foldl stream_step].
  unfold residency_request, residency_poll, Residency.request, Residency.poll.
  change (residency (with_record e1 id r7)) with (residency e). rewrite Hres. cbn [snd residency set_residency].
  rewrite lookup_insert_eq. cbn [Residency.poll_record Residency.state Residency.after_commit Residency.terminal snd fst].
  split_and!; [|..|done|done].
  - unfold asset_state_of. change (planned (set_residency _ _)) with (planned e1). rewrite Hp1.
    unfold Residency.state_of. cbn [residency set_residency]. by rewrite lookup_insert_eq.
  - unfold state_of. cbn [mounts set_residency with_record set_mounts]. by rewrite lookup_insert_eq.
Qed.

(** ** Witnesses *)
Definition one_asset : list stream_op :=
  [AddAsset "a" (codes "car.ytd") 2 1 hash12 ["vehicles.meta"%string] JoinCritical 0; ReceiveChunk "a" 0 [1; 2] 1].
Definition world0 : world := (engine_new (watchdog_new 10), open 100 empty_disk, empty_disk).

Lemma streaming_verified_witness :
  let ops := one_asset ++ flow 1 2 "a" "p" 5 1 in
  verified_before sum_sha world0 ops "a" hash12 /\
  join_ready (run (stream_step sum_sha) world0 ops).1.1 ["a"%string] 3 = true /\ confirmed_before ops "a".
Proof.
  intros ops. assert (Hok : Forall op_ok ops) by (repeat constructor; done).
  destruct (streaming_verified sum_sha (watchdog_new 10) 100 empty_disk ops Hok) as (Hver & _ & _ & Hjoin).
  fold world0 in Hver, Hjoin.
  assert (Hj : join_ready (run (stream_step sum_sha) world0 ops).1.1 ["a"%string] 3 = true) by (vm_compute; reflexivity).
  split; [|split; [exact Hj|]].
  - assert (Hr : exists r, mounts (run (stream_step sum_sha) world0 ops).1.1 !! "a"%string = Some r /\ past_verify (state r) = true)
      by (eexists; split; vm_compute; reflexivity).
    destruct Hr as (r & Hr & Hp). destruct (Hver "a"%string r Hr Hp) as (m & Hm & _ & Hv).
    assert (Hh : a_hash <$> planned (run (stream_step sum_sha) world0 ops).1.1 !! "a"%string = Some hash12) by (vm_compute; reflexivity).
    rewrite Hm in Hh. injection Hh as <-. exact Hv.
  - pose proof (Hjoin _ _ Hj) as H. apply Forall_cons in H as [[_ H] _]. exact H.
Defined.

Lemma streaming_completes_witness :
  let s := run (stream_step sum_sha) world0 one_asset in
  asset_state_of (run (stream_step sum_sha) s (flow 1 2 "a" "p" 5 1)).1.1 "a" 3 = Ok Ready.
Proof.
  intros s. destruct s as [[e c] d] eqn:E.
  assert (Hm : exists m, planned e !! "a"%string = Some m /\ assembled (a_download m) = Some [1; 2] /\ a_hash m = hash12)
    by (injection E as <- _ _; eexists; split_and!; vm_compute; reflexivity).
  assert (Hr : exists r, mounts e !! "a"%string = Some r /\ state r = Queued /\ dependencies r = ["vehicles.meta"%string])
    by (injection E as <- _ _; eexists; split_and!; vm_compute; reflexivity).
  destruct Hm as (m & Hm & Ha & Hh), Hr as (r & Hr & Hq & Hd).
  refine (proj1 (streaming_completes sum_sha e c d "a" "p" m r [1; 2] 1 2 5 1 3 Hm Hr Hq _ Ha _ _ _ _)).
  - injection E as <- _ _. vm_compute; reflexivity.
  - rewrite Hh. reflexivity.
  - rewrite Hh. vm_compute; reflexivity.
  - rewrite Hd. constructor; [|constructor]. injection E as <- _ _. vm_compute. by eexists.
  - rewrite Hh. injection E as _ _ <-. intros f Hf. vm_compute in Hf. done.
Defined.

(** The residency calls do not look at the other trackers: an asset of which no
    byte arrived and nothing was mounted is ready once the game says so, and the
    join gate opens. A failed mount cannot be retried through the engine either. *)
Theorem ready_without_bytes :
  let e := (run (stream_step sum_sha) world0
    [AddAsset "a" (codes "car.ytd") 2 1 hash12 [] JoinCritical 0;
     ResidencyRequest "a" 0 5 1 Residency.Accepted; ResidencyPoll "a" 1 Residency.Accepted true]).1.1 in
  join_ready e ["a"%string] 1 = true /\ state_of (mounts e) "a" = Some Queued /\
  (received_bytes ∘ a_download) <$> planned e !! "a"%string = Some 0.
Proof. split_and!; vm_compute; reflexivity. Qed.
