(* ===== verification/Float64.v ===== *)
(** Non-negative binary64 numbers, as far as the sources read them from decimal
    text: [str::parse::<f64>], [fract], and the casts from and to [i64]. A finite
    number is [m * 2^e] with [m < 2^53]. *)
From S2P Require Import Prelude RustStr.

Inductive f64 := Inf | Fin (m e : Z).
#[global] Instance f64_eq_dec : EqDecision f64.
Proof. solve_decision. Defined.

(** [num / den] to the nearest integer, ties to even. *)
Definition round_even (num den : Z) : Z :=
  let q := num / den in
  let r := num mod den in
  if 2 * r <? den then q else if den <? 2 * r then q + 1 else if Z.even q then q else q + 1.

(** [num / den < 2^k]. *)
Definition below_pow (num den k : Z) : bool := num * 2 ^ Z.max 0 (- k) <? den * 2 ^ Z.max 0 k.

(** The nearest number to [num / den]; subnormals down to [2^-1074]. *)
Definition round_rat (num den : Z) : f64 :=
  if num =? 0 then Fin 0 0
  else
    let l := Z.log2 num - Z.log2 den in
    let l := if below_pow num den l then l - 1 else l in
    let e := Z.max (l - 52) (-1074) in
    let m := round_even (num * 2 ^ Z.max 0 (- e)) (den * 2 ^ Z.max 0 e) in
    let '(m, e) := if m =? 2 ^ 53 then (2 ^ 52, e + 1) else (m, e) in
    if 971 <? e then Inf else Fin m e.

(** [fract() == 0.0]; the fraction of infinity is not a number. *)
Definition fract_zero (x : f64) : bool :=
  match x with Inf => false | Fin m e => (0 <=? e) || (m mod 2 ^ (- e) =? 0) end.
Definition trunc (x : f64) : Z :=
  match x with Inf => 0 | Fin m e => if 0 <=? e then m * 2 ^ e else m / 2 ^ (- e) end.
(** [as i64] saturates. *)
Definition as_i64 (x : f64) : Z :=
  match x with Inf => 2 ^ 63 - 1 | Fin _ _ => Z.min (trunc x) (2 ^ 63 - 1) end.
(** [i64 as f64] of a non-negative integer. *)
Definition of_i64 (n : Z) : f64 := round_rat n 1.


(** The exponent part: nothing, or [e], a sign and digits. *)
Definition parse_exponent (l : text) : option Z :=
  match l with
  | [] => Some 0
  | c :: r =>
      if (c =? 101) || (c =? 69) then
        let '(neg, r) := match r with 45 :: r => (true, r) | 43 :: r => (false, r) | _ => (false, r) end in
        if bool_decide (r = []) || negb (forallb is_digit r) then None
        else Some (if neg : bool then - digits_val r else digits_val r)
      else None
  end.

(** [str::parse::<f64>] of a text without sign, [inf] and [nan]. *)
Definition parse_f64 (l : text) : option f64 :=
  let '(ip, r) := span is_digit l in
  let '(fp, r) := match r with 46 :: r => span is_digit r | _ => ([], r) end in
  if bool_decide (ip = []) && bool_decide (fp = []) then None
  else
    match parse_exponent r with
    | None => None
    | Some x =>
        let k := x - Z.of_nat (length fp) in
        Some (round_rat (digits_val (ip ++ fp) * 10 ^ Z.max 0 k) (10 ^ Z.max 0 (- k)))
    end.

(** ** Small integers are exact *)
Lemma round_even_exact q den : 0 < den -> round_even (q * den) den = q.
Proof.
  intros Hd. unfold round_even. rewrite Z.div_mul, Z.mod_mul by lia.
  by rewrite (proj2 (Z.ltb_lt (2 * 0) den)) by lia.
Qed.

Lemma round_small n : 0 < n < 2 ^ 53 -> exists m e, round_rat n 1 = Fin m e /\ e <= 0 /\ m = n * 2 ^ (- e).
Proof.
  intros Hn. unfold round_rat. rewrite (proj2 (Z.eqb_neq n 0)) by lia. change (Z.log2 1) with 0. rewrite Z.sub_0_r.
  assert (Hl : 2 ^ Z.log2 n <= n < 2 ^ Z.succ (Z.log2 n)) by (apply Z.log2_spec; lia).
  assert (Hl0 : 0 <= Z.log2 n) by apply Z.log2_nonneg.
  assert (Hl53 : Z.log2 n < 53) by (apply Z.log2_lt_pow2; lia).
  unfold below_pow. rewrite (Z.max_l 0 (- Z.log2 n)), (Z.max_r 0 (Z.log2 n)) by lia.
  rewrite (proj2 (Z.ltb_ge _ _)) by lia. rewrite (Z.max_l (Z.log2 n - 52)) by lia.
  set (e := Z.log2 n - 52). rewrite (Z.max_r 0 (- e)), (Z.max_l 0 e) by lia. change (1 * 2 ^ 0) with 1.
  pose proof (round_even_exact (n * 2 ^ (- e)) 1 ltac:(lia)) as Hr. rewrite Z.mul_1_r in Hr. rewrite Hr.
  assert (Hb : n * 2 ^ (- e) < 2 ^ 53).
  { replace (2 ^ 53) with (2 ^ Z.succ (Z.log2 n) * 2 ^ (- e)) by (rewrite <- Z.pow_add_r by lia; f_equal; lia).
    apply Z.mul_lt_mono_pos_r; [apply Z.pow_pos_nonneg; lia|lia]. }
  rewrite (proj2 (Z.eqb_neq _ _)) by lia. rewrite (proj2 (Z.ltb_ge 971 e)) by lia. exists (n * 2 ^ (- e)), e. split_and!; [done|lia|done].
Qed.

Lemma of_i64_exact n : 0 <= n < 2 ^ 53 -> fract_zero (of_i64 n) = true /\ trunc (of_i64 n) = n /\ as_i64 (of_i64 n) = n.
Proof.
  intros Hn. destruct (decide (n = 0)) as [->|Hne]; [done|]. unfold of_i64.
  destruct (round_small n ltac:(lia)) as (m & e & -> & He & ->). unfold as_i64, fract_zero, trunc.
  assert (Hp : 0 < 2 ^ (- e)) by (apply Z.pow_pos_nonneg; lia).
  destruct (Z.leb_spec 0 e).
  - assert (e = 0) as -> by lia. cbn. split_and!; lia.
  - rewrite Z.mod_mul, Z.div_mul by lia. split_and!; [done|done|lia].
Qed.

Lemma parse_f64_digits l : l <> [] -> forallb is_digit l = true -> parse_f64 l = Some (of_i64 (digits_val l)).
Proof.
  intros Hne Hd. unfold parse_f64. assert (span is_digit l = (l, [])) as ->.
  { clear Hne. induction l as [|c l IH]; [done|]. cbn in Hd |- *. apply andb_true_iff in Hd as [-> Hl]. by rewrite (IH Hl). }
  rewrite bool_decide_eq_false_2 by done. cbn [andb parse_exponent length]. change (Z.max 0 (0 - Z.of_nat 0)) with 0.
  change (Z.max 0 (- (0 - Z.of_nat 0))) with 0. change (10 ^ 0) with 1. by rewrite app_nil_r, Z.mul_1_r.
Qed.
