(* ===== verification/Fxmanifest.v ===== *)
(** The manifest parser of crates/ald-fxmanifest/src/lib.rs: the lexer, the
    table parser, the classification of directives and the normalized manifest.
    The TOML decoder of the second format is a parameter. *)
From S2P Require Import Prelude RustStr Float64.

(** ** Values and errors *)
Inductive manifest_value :=
| Nil | Bool_ (b : bool) | Int (n : Z) | Float (x : f64) | Str (s : text)
| List_ (l : list manifest_value)
| Table (l : list (text * manifest_value)).

Inductive tok :=
| TIdent (s : text) | TStr (s : text) | TNum (x : f64) | LBrace | RBrace | Assign | Comma.

(** The messages of the syntax errors, with what they quote. *)
Inductive message :=
| UnterminatedComment | UnterminatedString | UnterminatedEscape | NewlineInString | UnterminatedLongString
| UnexpectedByte (b : Z) | ExpectedDirective (t : tok) | UnexpectedEnd | BareIdent (i : text)
| UnexpectedToken (t : tok) | BareIdentInTable (i : text) | ExpectedCommaOrBrace | BadToml (e : text).

(** [OutOfFuel] is no error of the source; [parse_total] shows that it does not
    occur. *)
Inductive manifest_error :=
| Syntax (line : Z) (msg : message)
| InvalidValue (directive : text) (line : Z) (msg : string)
| MissingRequired (what : string)
| OutOfFuel.

(** ** Lexer: the bytes from the position on, and the line *)
Record lex := Lex { rest : text; line : Z }.

Definition peek_byte (l : lex) : option Z := head (rest l).
Definition next_line (b n : Z) : Z := if b =? 10 then n + 1 else n.
Definition bump (l : lex) : option Z * lex :=
  match rest l with [] => (None, l) | b :: r => (Some b, Lex r (next_line b (line l))) end.
(** [bump] over a prefix whose bytes satisfy [p]. *)
Definition take_while (p : Z -> bool) (l : lex) : text * lex :=
  let '(a, b) := span p (rest l) in (a, Lex b (foldl (fun n b => next_line b n) (line l) a)).

Definition is_space (b : Z) : bool := (b =? 32) || (b =? 9) || (b =? 13) || (b =? 10).

(** The body of a long comment; the brackets nest. *)
Fixpoint long_comment (s : text) (n depth : Z) : option lex * Z :=
  match s with
  | [] => (None, n)
  | b :: r =>
      let n := next_line b n in
      match r with
      | c :: r' =>
          if (b =? 93) && (c =? 93) then
            if depth =? 1 then (Some (Lex r' n), n) else long_comment r' n (depth - 1)
          else if (b =? 91) && (c =? 91) then long_comment r' n (depth + 1)
          else long_comment r n depth
      | [] => (None, n)
      end
  end.

Fixpoint skip_ws_and_comments (fuel : nat) (l : lex) : result lex manifest_error :=
  match fuel with
  | O => Err OutOfFuel
  | S fuel =>
      match rest l with
      | b :: r =>
          if is_space b then skip_ws_and_comments fuel (bump l).2
          else if (b =? 45) && starts_with [45; 91; 91] r then
            match long_comment (drop 3 r) (line l) 1 with
            | (Some l, _) => skip_ws_and_comments fuel l
            | (None, n) => Err (Syntax n UnterminatedComment)
            end
          else if (b =? 45) && starts_with [45] r then
            skip_ws_and_comments fuel (take_while (fun b => negb (b =? 10)) (Lex (drop 1 r) (line l))).2
          else Ok l
      | [] => Ok l
      end
  end.

(** [out.push(char::from(b))]: the UTF-8 encoding of a code point below 256. *)
Definition push_char (c : Z) : text := if c <? 128 then [c] else [192 + c / 64; 128 + c mod 64].

(** The character of an escape other than [\x]. *)
Definition escape_char (e : Z) : Z :=
  if e =? 110 then 10 else if e =? 116 then 9 else if e =? 114 then 13 else if e =? 97 then 7
  else if e =? 98 then 8 else if e =? 102 then 12 else if e =? 118 then 11 else e.

(** [at_] is the line the token starts on, [n] the current one. *)
Fixpoint read_string (quote at_ : Z) (s : text) (n : Z) (out : text) : result (text * lex) manifest_error :=
  match s with
  | [] => Err (Syntax at_ UnterminatedString)
  | b :: r =>
      if b =? quote then Ok (out, Lex r (next_line b n))
      else if b =? 92 then
        match r with
        | [] => Err (Syntax at_ UnterminatedEscape)
        | esc :: r =>
            let n := next_line esc n in
            if esc =? 120 then
              let digit b := default 0 (hex_val b) in
              match r with
              | h1 :: h2 :: r =>
                  read_string quote at_ r (next_line h2 (next_line h1 n)) (out ++ push_char (digit h1 * 16 + digit h2))
              | h1 :: r => read_string quote at_ r (next_line h1 n) (out ++ push_char (digit h1 * 16))
              | [] => read_string quote at_ r n (out ++ push_char 0)
              end
            else read_string quote at_ r n (out ++ push_char (escape_char esc))
        end
      else if b =? 10 then Err (Syntax at_ NewlineInString)
      else read_string quote at_ r n (out ++ push_char b)
  end.

Fixpoint long_string (at_ : Z) (s : text) (n : Z) (out : text) : result (text * lex) manifest_error :=
  match s with
  | [] => Err (Syntax at_ UnterminatedLongString)
  | b :: r =>
      let n := next_line b n in
      match r with
      | c :: r' =>
          if (b =? 93) && (c =? 93) then Ok (out, Lex r' n)
          else long_string at_ r n (out ++ push_char b)
      | [] => Err (Syntax at_ UnterminatedLongString)
      end
  end.

Definition number_byte (b : Z) : bool :=
  is_digit b || existsb (Z.eqb b) [46; 101; 69; 43; 45; 120; 88].
Definition read_number (l : lex) : f64 * lex :=
  let '(t, l) := take_while number_byte l in (default (Fin 0 0) (parse_f64 t), l).

Definition ident_byte (b : Z) : bool :=
  is_digit b || ((65 <=? b) && (b <=? 90)) || ((97 <=? b) && (b <=? 122)) || (b =? 95) || (b =? 46).
Definition read_ident (l : lex) : text * lex := take_while ident_byte l.

Definition BOOL_TRUE : text := codes "__bool_true__".
Definition BOOL_FALSE : text := codes "__bool_false__".
Definition NIL : text := codes "__nil__".

Definition next (l : lex) : result (option tok * lex) manifest_error :=
  let? l := skip_ws_and_comments (S (length (rest l))) l in
  match rest l with
  | [] => Ok (None, l)
  | b :: r =>
      let skip := (bump l).2 in
      if b =? 123 then Ok (Some LBrace, skip)
      else if b =? 125 then Ok (Some RBrace, skip)
      else if b =? 61 then Ok (Some Assign, skip)
      else if b =? 44 then Ok (Some Comma, skip)
      else if (b =? 39) || (b =? 34) then
        let? '(s, l) := read_string b (line l) r (line l) [] in Ok (Some (TStr s), l)
      else if (b =? 91) && bool_decide (head r = Some 91) then
        let? '(s, l) := long_string (line l) (tail r) (line l) [] in Ok (Some (TStr s), l)
      else if is_digit b then let '(x, l) := read_number l in Ok (Some (TNum x), l)
      else
        let '(id, l') := read_ident l in
        if (b =? 116) || (b =? 102) || (b =? 110) then
          Ok (Some (if verb_is id "true" then TStr BOOL_TRUE
                    else if verb_is id "false" then TStr BOOL_FALSE
                    else if verb_is id "nil" then TStr NIL else TIdent id), l')
        else if bool_decide (id = []) then Err (Syntax (line l) (UnexpectedByte b))
        else Ok (Some (TIdent id), l')
  end.

(** [to_string] of a [usize] or a non-negative [i64]. *)
Definition to_string (n : Z) : text := digits 20 n [].

(** ** Parser *)
Record parser := Parser { lx : lex; peeked : option tok }.
Definition parser_new (s : text) : parser := Parser (Lex s 1) None.

Definition peek (p : parser) : result (option tok * parser) manifest_error :=
  match peeked p with
  | Some t => Ok (Some t, p)
  | None => let? '(t, l) := next (lx p) in Ok (t, Parser l t)
  end.
Definition take (p : parser) : result (option tok * parser) manifest_error :=
  match peeked p with
  | Some t => Ok (Some t, Parser (lx p) None)
  | None => let? '(t, l) := next (lx p) in Ok (t, Parser l None)
  end.

Definition decode_literal (s : text) : manifest_value :=
  if bool_decide (s = BOOL_TRUE) then Bool_ true
  else if bool_decide (s = BOOL_FALSE) then Bool_ false
  else if bool_decide (s = NIL) then Nil else Str s.

Definition number (x : f64) : manifest_value :=
  if fract_zero x && (trunc x <=? 2 ^ 63) then Int (as_i64 x) else Float x.

Definition syntax {A} (p : parser) (m : message) : result A manifest_error := Err (Syntax (line (lx p)) m).

(** [parse_value], and [parse_table] from the turn of its loop with the entries
    so far and the next positional key. *)
Fixpoint parse_value (fuel : nat) (p : parser) : result (manifest_value * parser) manifest_error :=
  match fuel with
  | O => Err OutOfFuel
  | S fuel =>
      let? '(t, p) := take p in
      match t with
      | None => syntax p UnexpectedEnd
      | Some (TStr s) => Ok (decode_literal s, p)
      | Some (TNum x) => Ok (number x, p)
      | Some LBrace => parse_table fuel p [] 1
      | Some (TIdent i) => syntax p (BareIdent i)
      | Some other => syntax p (UnexpectedToken other)
      end
  end
with parse_table (fuel : nat) (p : parser) (map : list (text * manifest_value)) (next_key : Z) :
    result (manifest_value * parser) manifest_error :=
  match fuel with
  | O => Err OutOfFuel
  | S fuel =>
      let? '(t, p) := peek p in
      match t with
      | Some Comma => let? '(_, p) := take p in parse_table fuel p map next_key
      | Some RBrace => let? '(_, p) := take p in Ok (Table map, p)
      | _ =>
          let? '(map, next_key, p) :=
            match t with
            | Some (TIdent id) =>
                let? '(_, q) := take p in
                let? '(after, q) := peek q in
                match after with
                | Some Assign =>
                    let? '(_, q) := take q in
                    let? '(v, q) := parse_value fuel q in
                    Ok (map ++ [(id, v)], next_key, q)
                | _ => syntax p (BareIdentInTable id)
                end
            | _ =>
                let? '(v, q) := parse_value fuel p in
                Ok (map ++ [(to_string next_key, v)], next_key + 1, q)
            end in
          let? '(t, p) := peek p in
          match t with
          | Some Comma => let? '(_, p) := take p in parse_table fuel p map next_key
          | Some RBrace => let? '(_, p) := take p in Ok (Table map, p)
          | _ => syntax p ExpectedCommaOrBrace
          end
      end
  end.

(** ** The normalized manifest *)
Inductive directive_status := Supported | Translated | IgnoredWarn | Unsupported.
#[global] Instance directive_status_eq_dec : EqDecision directive_status.
Proof. solve_decision. Defined.

Definition status_str (s : directive_status) : string :=
  match s with
  | Supported => "SUPPORTED" | Translated => "TRANSLATED" | IgnoredWarn => "IGNORED_WITH_WARNING"
  | Unsupported => "UNSUPPORTED"
  end.

Record directive_record := DirectiveRecord { d_name : text; status : directive_status; d_line : Z; note : string }.
Record data_file := DataFile { kind : text; file : text }.
Record convar_var := ConvarVar {
  convar : text; v_name : option text; help : option text; default_ : option manifest_value;
  vmin : option f64; vmax : option f64; v_kind : option text }.
Record convar_category := ConvarCategory { c_name : text; vars : list convar_var }.

Record manifest := Manifest {
  fx_version : option text; resource_manifest_version : option text; game : list text;
  client_scripts : list text; server_scripts : list text; shared_scripts : list text; files : list text;
  ui_page : option text; exports : list text; server_exports : list text; dependencies : list text;
  provides : list text; this_is_a_map : bool; data_files : list data_file; before_level_meta : list text;
  after_level_meta : list text; replace_level_meta : list text; loadscreen : option text;
  loadscreen_manual_shutdown : bool; server_only : bool; lua54 : bool; node_version : option text;
  clr_disable_task_scheduler : bool; use_experimental_fxv2_oal : bool;
  convar_categories : list convar_category; escrow_ignore : bool;
  custom : list (text * manifest_value); directives : list directive_record }.

Definition manifest_default : manifest :=
  Manifest None None [] [] [] [] [] None [] [] [] [] false [] [] [] [] None false false false None false false [] false [] [].

(** Field updates. *)
Definition eta (m : manifest) : manifest :=
  Manifest (fx_version m) (resource_manifest_version m) (game m) (client_scripts m) (server_scripts m)
    (shared_scripts m) (files m) (ui_page m) (exports m) (server_exports m) (dependencies m)
    (provides m) (this_is_a_map m) (data_files m) (before_level_meta m) (after_level_meta m)
    (replace_level_meta m) (loadscreen m) (loadscreen_manual_shutdown m) (server_only m) (lua54 m)
    (node_version m) (clr_disable_task_scheduler m) (use_experimental_fxv2_oal m)
    (convar_categories m) (escrow_ignore m) (custom m) (directives m).
Definition with_fx_version : option text -> manifest -> manifest := ltac:(setter eta fx_version).
Definition with_resource_manifest_version : option text -> manifest -> manifest := ltac:(setter eta resource_manifest_version).
Definition with_game : list text -> manifest -> manifest := ltac:(setter eta game).
Definition with_client_scripts : list text -> manifest -> manifest := ltac:(setter eta client_scripts).
Definition with_server_scripts : list text -> manifest -> manifest := ltac:(setter eta server_scripts).
Definition with_shared_scripts : list text -> manifest -> manifest := ltac:(setter eta shared_scripts).
Definition with_files : list text -> manifest -> manifest := ltac:(setter eta files).
Definition with_ui_page : option text -> manifest -> manifest := ltac:(setter eta ui_page).
Definition with_exports : list text -> manifest -> manifest := ltac:(setter eta exports).
Definition with_server_exports : list text -> manifest -> manifest := ltac:(setter eta server_exports).
Definition with_dependencies : list text -> manifest -> manifest := ltac:(setter eta dependencies).
Definition with_provides : list text -> manifest -> manifest := ltac:(setter eta provides).
Definition with_this_is_a_map : bool -> manifest -> manifest := ltac:(setter eta this_is_a_map).
Definition with_data_files : list data_file -> manifest -> manifest := ltac:(setter eta data_files).
Definition with_before_level_meta : list text -> manifest -> manifest := ltac:(setter eta before_level_meta).
Definition with_after_level_meta : list text -> manifest -> manifest := ltac:(setter eta after_level_meta).
Definition with_replace_level_meta : list text -> manifest -> manifest := ltac:(setter eta replace_level_meta).
Definition with_loadscreen : option text -> manifest -> manifest := ltac:(setter eta loadscreen).
Definition with_loadscreen_manual_shutdown : bool -> manifest -> manifest := ltac:(setter eta loadscreen_manual_shutdown).
Definition with_server_only : bool -> manifest -> manifest := ltac:(setter eta server_only).
Definition with_lua54 : bool -> manifest -> manifest := ltac:(setter eta lua54).
Definition with_node_version : option text -> manifest -> manifest := ltac:(setter eta node_version).
Definition with_clr_disable_task_scheduler : bool -> manifest -> manifest := ltac:(setter eta clr_disable_task_scheduler).
Definition with_use_experimental_fxv2_oal : bool -> manifest -> manifest := ltac:(setter eta use_experimental_fxv2_oal).
Definition with_convar_categories : list convar_category -> manifest -> manifest := ltac:(setter eta convar_categories).
Definition with_escrow_ignore : bool -> manifest -> manifest := ltac:(setter eta escrow_ignore).
Definition with_custom : list (text * manifest_value) -> manifest -> manifest := ltac:(setter eta custom).
Definition with_directives : list directive_record -> manifest -> manifest := ltac:(setter eta directives).

(** ** Values as the directives read them *)
Definition as_str (v : manifest_value) : option text := match v with Str s => Some s | _ => None end.
Definition as_bool (v : manifest_value) : option bool := match v with Bool_ b => Some b | _ => None end.
Definition as_list (v : manifest_value) : option (list manifest_value) := match v with List_ l => Some l | _ => None end.

(** A table whose keys are "1", "2", ... in order is a sequence. *)
Fixpoint table_sequence (i : Z) (t : list (text * manifest_value)) : option (list manifest_value) :=
  match t with
  | [] => Some []
  | (k, v) :: t => if bool_decide (k = to_string i) then cons v <$> table_sequence (i + 1) t else None
  end.
Definition as_sequence (v : manifest_value) : option (list manifest_value) :=
  match v with List_ l => Some l | Table t => table_sequence 1 t | _ => None end.

Definition list_item (v : manifest_value) : result text string :=
  match v with
  | Str s => Ok s
  | Int n => Ok (to_string n)
  | Bool_ b => Ok (codes (if b then "true" else "false"))
  | _ => Err "list must contain only strings"%string
  end.
Definition coerce_string_list (v : manifest_value) : result (list text) string :=
  match as_str v with
  | Some s => Ok [s]
  | None =>
      let? seq := ok_or (as_sequence v) "expected a list of strings"%string in
      try_fold (fun out v => let? s := list_item v in Ok (out ++ [s])) [] seq
  end.

(** ** Directives *)
Definition SUPPORTED_NAMES : list string :=
  ["fx_version"; "resource_manifest_version"; "game"; "games"; "client_script"; "client_scripts";
   "server_script"; "server_scripts"; "shared_script"; "shared_scripts"; "file"; "files"; "ui_page";
   "export"; "exports"; "server_export"; "server_exports"; "dependency"; "dependencies"; "provide";
   "this_is_a_map"; "data_file"; "before_level_meta"; "after_level_meta"; "replace_level_meta";
   "loadscreen"; "loadscreen_manual_shutdown"; "server_only"; "lua54"; "node_version";
   "clr_disable_task_scheduler"; "use_experimental_fxv2_oal"; "convar_category"]%string.
Definition classify (name : text) : directive_status :=
  if one_of name SUPPORTED_NAMES then Supported
  else if one_of name ["fileserver_add"]%string then Translated
  else if one_of name ["fxasset_escrow"; "escrow_disable"; "lua54_disabled"; "author"; "description"; "repository";
    "version"; "license"]%string then IgnoredWarn
  else Unsupported.

Definition note_for (name : text) : string :=
  if verb_is name "fileserver_add" then "legacy file-server config; translated to Aldivine Streaming Engine / CDN origin"
  else if verb_is name "use_experimental_fxv2_oal" then "OAL compatibility profile activated only when implemented"
  else if verb_is name "convar_category" then "drives Aegis resource configuration UI"
  else "".

(** One key of a convar's table. *)
Definition convar_key (cv : convar_var) (kv : text * manifest_value) : convar_var :=
  let '(k, v) := kv in
  let num old := match v with Int n => Some (of_i64 n) | Float x => Some x | _ => old end in
  if verb_is k "convar" then
    ConvarVar (default [] (as_str v)) (v_name cv) (help cv) (default_ cv) (vmin cv) (vmax cv) (v_kind cv)
  else if verb_is k "name" then ConvarVar (convar cv) (as_str v) (help cv) (default_ cv) (vmin cv) (vmax cv) (v_kind cv)
  else if verb_is k "help" then ConvarVar (convar cv) (v_name cv) (as_str v) (default_ cv) (vmin cv) (vmax cv) (v_kind cv)
  else if verb_is k "default" then ConvarVar (convar cv) (v_name cv) (help cv) (Some v) (vmin cv) (vmax cv) (v_kind cv)
  else if verb_is k "min" then
    ConvarVar (convar cv) (v_name cv) (help cv) (default_ cv) (num (vmin cv)) (vmax cv) (v_kind cv)
  else if verb_is k "max" then
    ConvarVar (convar cv) (v_name cv) (help cv) (default_ cv) (vmin cv) (num (vmax cv)) (v_kind cv)
  else if one_of k ["type"; "kind"]%string then
    ConvarVar (convar cv) (v_name cv) (help cv) (default_ cv) (vmin cv) (vmax cv) (as_str v)
  else cv.

Definition convar_of (v : manifest_value) : result convar_var string :=
  match v with
  | Table t =>
      let cv := foldl convar_key (ConvarVar [] None None None None None None) t in
      if bool_decide (convar cv = []) then Err "convar entry missing `convar` key"%string else Ok cv
  | _ => Err "each convar var must be a table"%string
  end.

Definition parse_convar_category (v : manifest_value) : result convar_category string :=
  let? seq := ok_or (as_sequence v) "convar_category must be a table"%string in
  match seq with
  | n :: tbl :: _ =>
      let? name := ok_or (as_str n) "category name must be a string"%string in
      let? var_seq := ok_or (as_sequence tbl) "convar vars must be a list of tables"%string in
      let? vs := try_fold (fun out v => let? cv := convar_of v in Ok (out ++ [cv])) [] var_seq in
      Ok (ConvarCategory name vs)
  | _ => Err "convar_category needs a name and a var table"%string
  end.

Definition data_file_of (v : manifest_value) : result data_file string :=
  match v with
  | Table ((_, Str k) :: (_, Str f) :: _) => Ok (DataFile k f)
  | _ => Err "data_file requires { 'TYPE', 'file' }"%string
  end.

(** The error of a directive's value names the directive and its line. *)
Definition invalid {A} (name : text) (n : Z) (r : result A string) : result A manifest_error :=
  match r with Ok a => Ok a | Err m => Err (InvalidValue name n m) end.

(** The field a directive fills: the patterns of the match in [apply]. *)
Inductive field :=
| FxVersion | ManifestVersion | Game | ClientScripts | ServerScripts | SharedScripts | Files | UiPage 
| Exports | ServerExports | Dependencies | Provides | IsMap | DataFiles | BeforeMeta | AfterMeta 
| ReplaceMeta | Loadscreen | LoadscreenManual | ServerOnly | Lua54 | NodeVersion | ClrDisable | UseOal 
| ConvarCategories | EscrowIgnore.
#[global] Instance field_eq_dec : EqDecision field.
Proof. solve_decision. Defined.

Definition DIRECTIVES : list (string * field) :=
  [("fx_version", FxVersion); ("resource_manifest_version", ManifestVersion); ("game", Game);
   ("games", Game); ("client_script", ClientScripts); ("client_scripts", ClientScripts);
   ("server_script", ServerScripts); ("server_scripts", ServerScripts);
   ("shared_script", SharedScripts); ("shared_scripts", SharedScripts); ("file", Files);
   ("files", Files); ("ui_page", UiPage); ("export", Exports); ("exports", Exports);
   ("server_export", ServerExports); ("server_exports", ServerExports); ("dependency", Dependencies);
   ("dependencies", Dependencies); ("provide", Provides); ("this_is_a_map", IsMap);
   ("data_file", DataFiles); ("before_level_meta", BeforeMeta); ("after_level_meta", AfterMeta);
   ("replace_level_meta", ReplaceMeta); ("loadscreen", Loadscreen);
   ("loadscreen_manual_shutdown", LoadscreenManual); ("server_only", ServerOnly); ("lua54", Lua54);
   ("node_version", NodeVersion); ("clr_disable_task_scheduler", ClrDisable);
   ("use_experimental_fxv2_oal", UseOal); ("convar_category", ConvarCategories);
   ("escrow_ignore", EscrowIgnore)]%string.
Definition field_of (name : text) : option field := snd <$> List.find (fun d => verb_is name d.1) DIRECTIVES.

Definition apply (out : manifest) (name : text) (v : manifest_value) (n : Z) : result manifest manifest_error :=
  let out := with_directives (directives out ++ [DirectiveRecord name (classify name) n (note_for name)]) out in
  let strs get set := let? l := invalid name n (coerce_string_list v) in Ok (set (get out ++ l) out) in
  let scalar set := Ok (set (as_str v) out) in
  let flag set := Ok (set (default true (as_bool v)) out) in
  match field_of name with
  | Some FxVersion => scalar with_fx_version
  | Some ManifestVersion => scalar with_resource_manifest_version
  | Some Game => strs game with_game
  | Some ClientScripts => strs client_scripts with_client_scripts
  | Some ServerScripts => strs server_scripts with_server_scripts
  | Some SharedScripts => strs shared_scripts with_shared_scripts
  | Some Files => strs files with_files
  | Some UiPage => scalar with_ui_page
  | Some Exports => strs exports with_exports
  | Some ServerExports => strs server_exports with_server_exports
  | Some Dependencies => strs dependencies with_dependencies
  | Some Provides => strs provides with_provides
  | Some IsMap => flag with_this_is_a_map
  | Some DataFiles => let? d := invalid name n (data_file_of v) in Ok (with_data_files (data_files out ++ [d]) out)
  | Some BeforeMeta => strs before_level_meta with_before_level_meta
  | Some AfterMeta => strs after_level_meta with_after_level_meta
  | Some ReplaceMeta => strs replace_level_meta with_replace_level_meta
  | Some Loadscreen => scalar with_loadscreen
  | Some LoadscreenManual => flag with_loadscreen_manual_shutdown
  | Some ServerOnly => flag with_server_only
  | Some Lua54 => flag with_lua54
  | Some NodeVersion => scalar with_node_version
  | Some ClrDisable => flag with_clr_disable_task_scheduler
  | Some UseOal => flag with_use_experimental_fxv2_oal
  | Some ConvarCategories => 
      let? c := invalid name n (parse_convar_category v) in Ok (with_convar_categories (convar_categories out ++ [c]) out)
  | Some EscrowIgnore => flag with_escrow_ignore
  | None => Ok (with_custom (custom out ++ [(name, v)]) out)
  end.

(** ** The manifest *)

(** One turn of the loop of [parse_manifest]: the next directive, if any. *)
Definition statement := (text * manifest_value * Z)%type.
Definition parse_statement (fuel : nat) (p : parser) : result (option statement * parser) manifest_error :=
  let? '(t, p) := take p in
  match t with
  | None => Ok (None, p)
  | Some (TIdent name) =>
      let n := line (lx p) in
      let? '(a, p) := peek p in
      let? p := match a with Some Assign => let? '(_, p) := take p in Ok p | _ => Ok p end in
      let? '(v, p) := parse_value fuel p in
      match v with
      | Str s =>
          let? '(a, p) := peek p in
          match a with
          | Some LBrace =>
              let? '(tbl, p) := parse_value fuel p in
              Ok (Some (name, Table [(codes "1", v); (codes "2", tbl)], n), p)
          | _ => Ok (Some (name, v, n), p)
          end
      | _ => Ok (Some (name, v, n), p)
      end
  | Some other => syntax p (ExpectedDirective other)
  end.

Fixpoint parse_loop (fuel : nat) (inner : nat) (p : parser) (out : manifest) : result manifest manifest_error :=
  match fuel with
  | O => Err OutOfFuel
  | S fuel =>
      let? '(st, p) := parse_statement inner p in
      match st with
      | None => Ok out
      | Some (name, v, n) => let? out := apply out name v n in parse_loop fuel inner p out
      end
  end.

(** The fuel is one turn per byte, and two per byte for the nested values. *)
Definition parse_fxmanifest (src : text) : result manifest manifest_error :=
  let? out := parse_loop (S (length src)) (2 * length src + 4) (parser_new src) manifest_default in
  match fx_version out, resource_manifest_version out with
  | None, None => Err (MissingRequired "fx_version (or resource_manifest_version)")
  | _, _ => Ok out
  end.

(** [parse_ald_manifest]: the fields of its TOML format, as the decoder gives
    them. *)
Record raw_manifest := Raw {
  raw_fx_version : option text; raw_game : list text; raw_client : list text; raw_server : list text;
  raw_shared : list text; raw_files : list text; raw_ui_page : option text; raw_dependencies : list text;
  raw_provides : list text; raw_map : bool; raw_server_only : bool; raw_lua54 : bool }.

Definition parse_ald_manifest (toml : text -> result raw_manifest text) (src : text) : result manifest manifest_error :=
  match toml src with
  | Err e => Err (Syntax 1 (BadToml e))
  | Ok r =>
      let out := with_fx_version (raw_fx_version r) (with_game (raw_game r) (with_client_scripts (raw_client r)
        (with_server_scripts (raw_server r) (with_shared_scripts (raw_shared r) (with_files (raw_files r)
        (with_ui_page (raw_ui_page r) (with_dependencies (raw_dependencies r) (with_provides (raw_provides r)
        (with_this_is_a_map (raw_map r) (with_server_only (raw_server_only r)
        (with_lua54 (raw_lua54 r) manifest_default))))))))))) in
      match fx_version out with None => Err (MissingRequired "fx_version") | Some _ => Ok out end
  end.

Inductive side := Client | Server.
Definition scripts_for (m : manifest) (s : side) : list text :=
  match s with Client => client_scripts m | Server => server_scripts m end ++ shared_scripts m.

Definition all_files (m : manifest) : list text :=
  foldl (fun out f => if bool_decide (f ∈ out) then out else out ++ [f]) []
    (files m ++ (file <$> data_files m) ++ option_list (ui_page m) ++ client_scripts m ++ shared_scripts m ++
     server_scripts m ++ shared_scripts m).

Definition warning_of (d : directive_record) : list text :=
  let start := codes "line " ++ to_string (d_line d) ++ codes ": `" ++ d_name d in
  match status d with
  | IgnoredWarn => [start ++ codes "` is " ++ codes (status_str (status d)) ++ codes " — no runtime effect"]
  | Unsupported => [start ++ codes "` is UNSUPPORTED — recorded, not honored"]
  | Translated => [start ++ codes "` TRANSLATED to Aldivine equivalent"]
  | Supported => []
  end.
Definition warnings (m : manifest) : list text :=
  concat (warning_of <$> directives m) ++
  (if use_experimental_fxv2_oal m then [codes "use_experimental_fxv2_oal: OAL profile is PARTIAL — see docs"] else []).

(** ** Every parse ends *)

(** The result is no fuel error, and satisfies [P] if it is a value. *)
Definition ends {A} (r : result A manifest_error) (P : A -> Prop) : Prop :=
  match r with Ok x => P x | Err e => e <> OutOfFuel end.

Lemma ends_bind {A B} (r : result A manifest_error) (k : A -> result B manifest_error) (P : A -> Prop) (Q : B -> Prop) :
  ends r P -> (forall x, P x -> ends (k x) Q) -> ends (rbind r k) Q.
Proof. destruct r; cbn; auto. Qed.

Lemma ends_weaken {A} (r : result A manifest_error) (P Q : A -> Prop) : ends r P -> (forall x, P x -> Q x) -> ends r Q.
Proof. destruct r; cbn; auto. Qed.

Definition size_of (l : lex) : nat := length (rest l).

Lemma take_while_size p l : (size_of (take_while p l).2 <= size_of l)%nat.
Proof.
  unfold take_while, size_of. destruct (span p (rest l)) as [a b] eqn:E. apply span_spec in E as (-> & _ & _).
  cbn. rewrite length_app. lia.
Qed.

(** A token's run is not empty when its first byte is in the class. *)
Lemma take_while_progress p l b r : rest l = b :: r -> p b = true ->
  (take_while p l).1 <> [] /\ (size_of (take_while p l).2 < size_of l)%nat.
Proof.
  unfold take_while, size_of. intros -> Hb. cbn [span]. rewrite Hb. destruct (span p r) as [a b'] eqn:E.
  apply span_spec in E as (-> & _ & _). cbn. rewrite length_app. split; [done|lia].
Qed.

Lemma bump_shorter l b r : rest l = b :: r -> rest (bump l).2 = r.
Proof. unfold bump. by intros ->. Qed.

Lemma long_comment_size s : forall n d l, (long_comment s n d).1 = Some l -> (size_of l <= length s)%nat.
Proof.
  remember (length s) as k eqn:Hk. revert s Hk. induction k as [k IH] using lt_wf_ind. intros s -> n d l.
  destruct s as [|b [|c r]]; [done|done|]. cbn [long_comment].
  destruct (_ && _); [destruct (d =? 1)|destruct (_ && _)].
  - intros [= <-]. cbn. lia.
  - intros H. apply (IH (length r)) in H; [cbn; lia|cbn; lia|done].
  - intros H. apply (IH (length r)) in H; [cbn; lia|cbn; lia|done].
  - intros H. eapply (IH (length (c :: r)) ltac:(cbn; lia) (c :: r) eq_refl) in H. cbn in *. lia.
Qed.

Lemma skip_ends fuel : forall l, (size_of l < fuel)%nat ->
  ends (skip_ws_and_comments fuel l) (fun l' => (size_of l' <= size_of l)%nat).
Proof.
  induction fuel as [|fuel IH]; intros l Hl; [lia|]. cbn [skip_ws_and_comments].
  destruct (rest l) as [|b r] eqn:Er; [cbn; lia|].
  assert (Hs : size_of l = S (length r)) by (unfold size_of; by rewrite Er).
  assert (Hb : size_of (bump l).2 = length r) by (unfold size_of; by rewrite (bump_shorter l b r)).
  destruct (is_space b); [eapply ends_weaken; [apply IH; lia|cbn; intros; lia]|].
  destruct ((b =? 45) && starts_with [45; 91; 91] r).
  { destruct (long_comment (drop 3 r) (line l) 1) as [[l'|] n] eqn:Ec; [|done].
    pose proof (long_comment_size (drop 3 r) (line l) 1 l') as H. rewrite Ec in H. specialize (H eq_refl).
    rewrite length_drop in H. eapply ends_weaken; [apply IH; lia|cbn; intros; lia]. }
  destruct ((b =? 45) && starts_with [45] r); [|cbn; lia].
  set (l2 := (take_while _ _).2). pose proof (take_while_size (fun b => negb (b =? 10)) (Lex (drop 1 r) (line l))) as H.
  fold l2 in H. assert (Hd : (size_of (Lex (drop 1 r) (line l)) <= length r)%nat)
    by (unfold size_of; cbn [rest]; rewrite length_drop; lia).
  eapply ends_weaken; [apply IH; lia|cbn; intros; lia].
Qed.

Lemma read_string_ends q a s : forall n out, ends (read_string q a s n out) (fun x => (size_of x.2 <= length s)%nat).
Proof.
  remember (length s) as k eqn:Hk. revert s Hk. induction k as [k IH] using lt_wf_ind. intros s -> n out.
  destruct s as [|b r]; [done|]. cbn [read_string].
  assert (Hrec : forall s' n' out', (length s' < length (b :: r))%nat ->
    ends (read_string q a s' n' out') (fun x => (size_of x.2 <= length (b :: r))%nat)).
  { intros s' n' out' H. eapply ends_weaken; [by apply (IH (length s'))|]. cbn in H |- *. intros; lia. }
  destruct (b =? q); [cbn; lia|]. destruct (b =? 92).
  - destruct r as [|e r]; [done|]. destruct (e =? 120); [destruct r as [|h1 [|h2 r]]|]; apply Hrec; cbn; lia.
  - destruct (b =? 10); [done|]. apply Hrec. cbn. lia.
Qed.

Lemma long_string_ends a s : forall n out, ends (long_string a s n out) (fun x => (size_of x.2 <= length s)%nat).
Proof.
  induction s as [|b r IH]; intros n out; [done|]. cbn [long_string].
  destruct r as [|c r']; [done|]. destruct (_ && _); [cbn; lia|].
  eapply ends_weaken; [apply IH|]. cbn. intros; lia.
Qed.

Definition shrinks (n : nat) (x : option tok) (m : nat) : Prop :=
  match x with Some _ => (m < n)%nat | None => (m <= n)%nat end.

Lemma next_ends l : ends (next l) (fun x => shrinks (size_of l) x.1 (size_of x.2)).
Proof.
  unfold next. eapply ends_bind; [apply (skip_ends _ l); unfold size_of; lia|]. intros l1 H1. cbn beta in H1.
  destruct (rest l1) as [|b r] eqn:Er; [done|].
  assert (Hs : size_of l1 = S (length r)) by (unfold size_of; by rewrite Er).
  assert (Hb : size_of (bump l1).2 = length r) by (unfold size_of; by rewrite (bump_shorter l1 b r)).
  do 4 (destruct (_ =? _); [cbn; lia|]).
  destruct (_ || _).
  { eapply ends_bind; [apply read_string_ends|]. intros [s l2] H2. cbn in *. lia. }
  destruct (_ && _) eqn:Eb.
  { apply andb_true_iff in Eb as [_ Eb%bool_decide_eq_true]. destruct r as [|c r]; [done|].
    eapply ends_bind; [apply long_string_ends|]. intros [s l2] H2. cbn in *. lia. }
  destruct (is_digit b) eqn:Ed.
  { unfold read_number. pose proof (take_while_progress number_byte l1 b r Er) as H.
    destruct (take_while _ _) as [t l2]. cbn in H |- *. destruct H as [_ H]; [unfold number_byte; by rewrite Ed|]. lia. }
  destruct (read_ident l1) as [id l2] eqn:Ei.
  assert (Hle : (size_of l2 <= size_of l1)%nat).
  { pose proof (take_while_size ident_byte l1) as H. unfold read_ident in Ei. by rewrite Ei in H. }
  destruct (_ || _) eqn:Ec.
  - pose proof (take_while_progress ident_byte l1 b r Er) as H. unfold read_ident in Ei. rewrite Ei in H. cbn in H |- *.
    destruct H as [_ H]; [|lia]. unfold ident_byte, is_digit. clear -Ec. lia.
  - clear Eb. case_bool_decide as Hid; [done|]. cbn. destruct (ident_byte b) eqn:Ed2.
    + pose proof (take_while_progress ident_byte l1 b r Er Ed2) as H. unfold read_ident in Ei. rewrite Ei in H. cbn in H. lia.
    + destruct Hid. unfold read_ident, take_while in Ei. rewrite Er in Ei. cbn [span] in Ei. rewrite Ed2 in Ei. by injection Ei.
Qed.

(** What is left to read: the bytes, and a token read ahead. *)
Definition todo (p : parser) : nat := size_of (lx p) + (if peeked p then 1 else 0).

Lemma take_ends p : ends (take p) (fun x => shrinks (todo p) x.1 (todo x.2)).
Proof.
  unfold take, todo. destruct p as [l [t|]]; cbn [peeked lx]; [cbn; lia|].
  eapply ends_bind; [apply next_ends|]. intros [[t|] l'] H; cbn in *; lia.
Qed.

Lemma peek_ends p : ends (peek p) (fun x => (todo x.2 <= todo p)%nat /\ peeked x.2 = x.1).
Proof.
  unfold peek, todo. destruct p as [l [t|]]; cbn [peeked lx]; [cbn; split; [lia|done]|].
  eapply ends_bind; [apply next_ends|]. intros [[t|] l'] H; cbn in *; (split; [lia|done]).
Qed.

Lemma take_peeked p t : peeked p = Some t ->
  take p = Ok (Some t, Parser (lx p) None) /\ (todo (Parser (lx p) None) < todo p)%nat.
Proof. unfold take, todo. intros ->. cbn. split; [done|lia]. Qed.

(** The end of a table entry: a comma and the next turn, or the brace. *)
Lemma separator_ends (k : parser -> result (manifest_value * parser) manifest_error) map p n :
  (todo p < n)%nat -> (forall q, (todo q < todo p)%nat -> ends (k q) (fun x => (todo x.2 <= todo q)%nat)) ->
  ends (let? '(t, p) := peek p in
        match t with
        | Some Comma => let? '(_, p) := take p in k p
        | Some RBrace => let? '(_, p) := take p in Ok (Table map, p)
        | _ => syntax p ExpectedCommaOrBrace
        end) (fun x => (todo x.2 <= n)%nat).
Proof.
  intros Hp Hk. eapply ends_bind; [apply peek_ends|]. intros [t p1] [H1 H2]. cbn in H1, H2.
  destruct t as [t|]; [|done]. destruct (take_peeked _ _ H2) as [Et Hlt].
  destruct t; try done; rewrite Et; cbn [rbind].
  - cbn. lia.
  - eapply ends_weaken; [apply Hk; lia|]. cbn. intros; lia.
Qed.

Lemma parse_ends fuel :
  (forall p, (2 * todo p + 1 <= fuel)%nat -> ends (parse_value fuel p) (fun x => (todo x.2 < todo p)%nat)) /\
  (forall p map k, (2 * todo p + 2 <= fuel)%nat -> ends (parse_table fuel p map k) (fun x => (todo x.2 <= todo p)%nat)).
Proof.
  induction fuel as [|fuel [IHv IHt]]; [split; intros; lia|]. split.
  - intros p Hf. cbn [parse_value]. eapply ends_bind; [apply take_ends|]. intros [t p1] H1.
    destruct t as [t|]; [|done]. cbn in H1. destruct t; try done; try (cbn; lia).
    eapply ends_weaken; [apply IHt; lia|]. cbn. intros; lia.
  - intros p map k Hf. cbn [parse_table]. eapply ends_bind; [apply peek_ends|]. intros [t p1] [H1 H2]. cbn in H1, H2.
    assert (Hentry : forall (r : result (list (text * manifest_value) * Z * parser) manifest_error),
      ends r (fun x => (todo x.2 < todo p)%nat) ->
      ends (let? '(map, next_key, p) := r in
        let? '(t, p) := peek p in
        match t with
        | Some Comma => let? '(_, p) := take p in parse_table fuel p map next_key
        | Some RBrace => let? '(_, p) := take p in Ok (Table map, p)
        | _ => syntax p ExpectedCommaOrBrace
        end) (fun x => (todo x.2 <= todo p)%nat)).
    { intros r Hr. eapply ends_bind; [exact Hr|]. intros [[map' k'] p'] Hp'. cbn in Hp'.
      apply separator_ends; [done|]. intros q Hq. apply IHt. lia. }
    assert (Hvalue : ends (let? '(v, q) := parse_value fuel p1 in Ok (map ++ [(to_string k, v)], k + 1, q))
      (fun x => (todo x.2 < todo p)%nat)).
    { eapply ends_bind; [apply IHv; lia|]. intros [v q] Hq. cbn in *. lia. }
    destruct t as [t|]; [|by apply Hentry]. destruct (take_peeked _ _ H2) as [Et Hlt].
    destruct t; try (by apply Hentry).
    + apply Hentry. rewrite Et. cbn [rbind]. eapply ends_bind; [apply peek_ends|]. intros [a q] [Hq1 Hq2]. cbn in Hq1, Hq2.
      destruct a as [a|]; [|done]. destruct (take_peeked _ _ Hq2) as [Eq Hqlt]. destruct a; try done. rewrite Eq. cbn [rbind].
      eapply ends_bind; [apply IHv; lia|]. intros [v q'] Hq'. cbn in *. lia.
    + rewrite Et. cbn. lia.
    + rewrite Et. cbn [rbind]. eapply ends_weaken; [apply IHt; lia|]. cbn. intros; lia.
Qed.

Lemma statement_ends fuel p : (2 * todo p + 1 <= fuel)%nat ->
  ends (parse_statement fuel p) (fun x => match x.1 with Some _ => (todo x.2 < todo p)%nat | None => True end).
Proof.
  intros Hf. unfold parse_statement. eapply ends_bind; [apply take_ends|]. intros [t p1] H1. cbn in H1.
  destruct t as [t|]; [|done]. cbn in H1. destruct t; try done.
  eapply ends_bind; [apply peek_ends|]. intros [a p2] [H2 H2']. cbn in H2, H2'.
  eapply (ends_bind _ _ (fun q => (todo q <= todo p2)%nat)).
  { destruct a as [a|]; [|cbn; lia]. destruct (take_peeked _ _ H2') as [Et Hlt]. destruct a; cbn; try lia. rewrite Et. cbn. lia. }
  intros p3 H3. cbn beta in H3. eapply ends_bind; [apply parse_ends; lia|]. intros [v p4] H4. cbn in H4.
  destruct v; try (cbn; lia). eapply ends_bind; [apply peek_ends|]. intros [b p5] [H5 _]. cbn in H5.
  destruct b as [[]|]; try (cbn; lia). eapply ends_bind; [apply parse_ends; lia|]. intros [tbl p6] H6. cbn in *. lia.
Qed.

Lemma apply_ends out name v n : ends (apply out name v n) (fun _ => True).
Proof.
  unfold apply, invalid. repeat (case_match; try done); cbn; repeat case_match; done.
Qed.

Lemma loop_ends inner fuel : forall p out, (todo p < fuel)%nat -> (2 * todo p + 1 <= inner)%nat ->
  ends (parse_loop fuel inner p out) (fun _ => True).
Proof.
  induction fuel as [|fuel IH]; intros p out Hf Hi; [lia|]. cbn [parse_loop].
  eapply ends_bind; [by apply statement_ends|]. intros [st p1] H1. cbn in H1. destruct st as [[[name v] n]|]; [|done].
  eapply ends_bind; [apply apply_ends|]. intros out' _. apply IH; lia.
Qed.

Lemma parse_ends_never src : ends (parse_fxmanifest src) (fun _ => True).
Proof.
  unfold parse_fxmanifest. eapply ends_bind; [apply loop_ends; unfold todo, size_of; cbn; lia|].
  intros out _. destruct (fx_version out); [done|]. by destruct (resource_manifest_version out).
Qed.

(** ** What a manifest says *)

(** The statements alone, without their effect. *)
Fixpoint statements_loop (fuel inner : nat) (p : parser) : result (list statement) manifest_error :=
  match fuel with
  | O => Err OutOfFuel
  | S fuel =>
      let? '(st, p) := parse_statement inner p in
      match st with
      | None => Ok []
      | Some st => let? l := statements_loop fuel inner p in Ok (st :: l)
      end
  end.
Definition statements (src : text) : result (list statement) manifest_error :=
  statements_loop (S (length src)) (2 * length src + 4) (parser_new src).

Definition apply_statement (out : manifest) (st : statement) : result manifest manifest_error :=
  apply out st.1.1 st.1.2 st.2.

Lemma loop_statements fuel inner : forall p out m,
  parse_loop fuel inner p out = Ok m <->
  exists sts, statements_loop fuel inner p = Ok sts /\ try_fold apply_statement out sts = Ok m.
Proof.
  induction fuel as [|fuel IH]; intros p out m; cbn [parse_loop statements_loop]; [naive_solver|].
  destruct (parse_statement inner p) as [[[[[name v] n]|] p1]|e]; cbn [rbind]; [|naive_solver..].
  rewrite rbind_ok. setoid_rewrite IH. split.
  - intros (out' & Ha & sts & Hs & Hf). exists ((name, v, n) :: sts). rewrite Hs. cbn. split; [done|].
    unfold apply_statement at 1. cbn. by rewrite Ha.
  - intros (sts & (l & Hl & [= <-])%rbind_ok & Hf). cbn in Hf. apply rbind_ok in Hf as (out' & Ha & Hf).
    exists out'. split; [done|]. by exists l.
Qed.

(** The fields that collect strings, those that keep the last value, and the
    flags. *)
Definition list_fields : list (field * (manifest -> list text)) :=
  [(Game, game); (ClientScripts, client_scripts); (ServerScripts, server_scripts);
   (SharedScripts, shared_scripts); (Files, files); (Exports, exports); (ServerExports, server_exports);
   (Dependencies, dependencies); (Provides, provides); (BeforeMeta, before_level_meta);
   (AfterMeta, after_level_meta); (ReplaceMeta, replace_level_meta)].
Definition scalar_fields : list (field * (manifest -> option text)) :=
  [(FxVersion, fx_version); (ManifestVersion, resource_manifest_version); (UiPage, ui_page);
   (Loadscreen, loadscreen); (NodeVersion, node_version)].
Definition flag_fields : list (field * (manifest -> bool)) :=
  [(IsMap, this_is_a_map); (LoadscreenManual, loadscreen_manual_shutdown); (ServerOnly, server_only);
   (Lua54, lua54); (ClrDisable, clr_disable_task_scheduler); (UseOal, use_experimental_fxv2_oal);
   (EscrowIgnore, escrow_ignore)].

Definition record_of (st : statement) : directive_record :=
  DirectiveRecord st.1.1 (classify st.1.1) st.2 (note_for st.1.1).
Definition strings_of (v : manifest_value) : list text :=
  match coerce_string_list v with Ok l => l | Err _ => [] end.
Definition fills (f : field) (st : statement) : bool := bool_decide (field_of st.1.1 = Some f).

(** What one statement adds to every field. *)
Record effect (st : statement) (out out' : manifest) : Prop := {
  ef_directives : directives out' = directives out ++ [record_of st];
  ef_custom : custom out' = custom out ++ (if bool_decide (field_of st.1.1 = None) then [st.1] else []);
  ef_lists : Forall (fun f => f.2 out' = f.2 out ++ (if fills f.1 st then strings_of st.1.2 else [])) list_fields;
  ef_scalars : Forall (fun f => f.2 out' = if fills f.1 st then as_str st.1.2 else f.2 out) scalar_fields;
  ef_flags : Forall (fun f => f.2 out' = if fills f.1 st then default true (as_bool st.1.2) else f.2 out) flag_fields }.

Lemma apply_effect st out out' : apply_statement out st = Ok out' -> effect st out out'.
Proof.
  destruct st as [[name v] n]. unfold apply_statement, apply. cbn [fst snd]. intros Ha.
  destruct (field_of name) as [f|] eqn:Ef; [destruct f|];
    try (apply rbind_ok in Ha as (l & Hl & Ha); unfold invalid in Hl; destruct (coerce_string_list v) eqn:Ec || idtac);
    simplify_eq;
    (split; unfold fills, strings_of, list_fields, scalar_fields, flag_fields; cbn [fst snd]; rewrite ?Ef, ?Ec;
     repeat constructor; cbn; by rewrite ?app_nil_r).
Qed.

(** The last statement that fills [f], if there is one. *)
Definition last_of {A} (f : field) (g : manifest_value -> A) (init : A) (sts : list statement) : A :=
  foldl (fun acc st => if fills f st then g st.1.2 else acc) init sts.
Definition collected (f : field) (sts : list statement) : list text :=
  concat ((fun st => strings_of st.1.2) <$> List.filter (fills f) sts).

(** What a list of statements makes of a manifest. *)
Record meaning (sts : list statement) (out m : manifest) : Prop := {
  me_directives : directives m = directives out ++ (record_of <$> sts);
  me_custom : custom m = custom out ++ (fst <$> List.filter (fun st => bool_decide (field_of st.1.1 = None)) sts);
  me_lists : Forall (fun f => f.2 m = f.2 out ++ collected f.1 sts) list_fields;
  me_scalars : Forall (fun f => f.2 m = last_of f.1 as_str (f.2 out) sts) scalar_fields;
  me_flags : Forall (fun f => f.2 m = last_of f.1 (fun v => default true (as_bool v)) (f.2 out) sts) flag_fields }.

Lemma statements_meaning sts : forall out m, try_fold apply_statement out sts = Ok m -> meaning sts out m.
Proof.
  induction sts as [|st sts IH]; intros out m; cbn [try_fold].
  { intros [= <-]. split; [by rewrite app_nil_r|by rewrite app_nil_r|..]; apply Forall_forall; intros f _;
      unfold collected; cbn; by rewrite ?app_nil_r. }
  intros (out1 & [Hd Hc Hl Hs Hf]%apply_effect & [Hd' Hc' Hl' Hs' Hf']%IH)%rbind_ok. split.
  - rewrite Hd', Hd, <- app_assoc. done.
  - rewrite Hc', Hc, <- app_assoc. f_equal. cbn [List.filter]. by destruct (bool_decide (field_of st.1.1 = None)).
  - rewrite Forall_forall in Hl, Hl' |- *. intros f Hin. rewrite (Hl' f Hin), (Hl f Hin), <- app_assoc. f_equal.
    unfold collected. cbn. by destruct (fills f.1 st).
  - rewrite Forall_forall in Hs, Hs' |- *. intros f Hin. by rewrite (Hs' f Hin), (Hs f Hin).
  - rewrite Forall_forall in Hf, Hf' |- *. intros f Hin. by rewrite (Hf' f Hin), (Hf f Hin).
Qed.

(** C22: The parser ends on every input, and a manifest it accepts is the meaning
    of the file's statements: every directive is recorded with its class in
    source order, those it does not know are kept verbatim, the list fields hold
    the strings of all their directives, the others the last value; and one of
    the two version directives has set its field. *)
Theorem manifest_spec (src : text) :
  parse_fxmanifest src <> Err OutOfFuel /\
  forall m, parse_fxmanifest src = Ok m ->
    exists sts, statements src = Ok sts /\ meaning sts manifest_default m /\
      (is_Some (fx_version m) \/ is_Some (resource_manifest_version m)).
Proof.
  split.
  - pose proof (parse_ends_never src) as H. destruct (parse_fxmanifest src); [done|]. cbn in H. congruence.
  - intros m. unfold parse_fxmanifest. intros (out & Hl & Hm)%rbind_ok. apply loop_statements in Hl as (sts & Hs & Hf).
    apply statements_meaning in Hf.
    assert (out = m /\ (is_Some (fx_version m) \/ is_Some (resource_manifest_version m))) as [-> Hv].
    { destruct (fx_version out) eqn:E1; [|destruct (resource_manifest_version out) eqn:E2; [|done]];
        injection Hm as <-; rewrite ?E1, ?E2; eauto. }
    by exists sts.
Qed.

(** ** Printing and reading back

    The values a manifest can write, as Lua source has them: an entry of a
    table has a key or a position. *)
Inductive lua :=
| LStr (s : text) | LInt (n : Z) | LBool (b : bool) | LNil | LTable (l : list (option text * lua)).

Fixpoint number_entries (k : Z) (l : list (option text * manifest_value)) : list (text * manifest_value) :=
  match l with
  | [] => []
  | (Some key, v) :: l => (key, v) :: number_entries k l
  | (None, v) :: l => (to_string k, v) :: number_entries (k + 1) l
  end.

Fixpoint value_of (v : lua) : manifest_value :=
  match v with
  | LStr s => Str s | LInt n => Int n | LBool b => Bool_ b | LNil => Nil
  | LTable l => Table (number_entries 1 ((fun e => (e.1, value_of e.2)) <$> l))
  end.

Definition escape (c : Z) : text :=
  if (c =? 92) || (c =? 39) then [92; c] else if c =? 10 then [92; 110] else [c].
Definition quoted (s : text) : text := 39 :: concat (escape <$> s) ++ [39].

Definition key_text (k : option text) : text := match k with Some k => k ++ codes " = " | None => [] end.

Fixpoint render (v : lua) : text :=
  match v with
  | LStr s => quoted s
  | LInt n => to_string n
  | LBool b => codes (if b then "true" else "false")
  | LNil => codes "nil"
  | LTable l => codes "{ " ++ concat ((fun e => key_text e.1 ++ render e.2 ++ codes ", ") <$> l) ++ [125]
  end.

Definition ident_ok (k : text) : Prop :=
  match k with
  | [] => False
  | b :: _ => is_digit b = false /\ Forall (fun c => ident_byte c = true) k /\
      verb_is k "true" = false /\ verb_is k "false" = false /\ verb_is k "nil" = false
  end.

Definition string_ok (s : text) : Prop :=
  Forall (fun c => 0 <= c < 128) s /\ s <> BOOL_TRUE /\ s <> BOOL_FALSE /\ s <> NIL.

Fixpoint lua_ok (v : lua) : Prop :=
  match v with
  | LStr s => string_ok s
  | LInt n => 0 <= n < 2 ^ 53
  | LBool _ | LNil => True
  | LTable l => Forall id ((fun e => match e.1 with Some k => ident_ok k | None => True end /\ lua_ok e.2) <$> l)
  end.

(** Fuel that reading back a value takes; no more than its length. *)
Fixpoint cost (v : lua) : nat :=
  match v with LTable l => 2 + sum_list_with (fun e => S (cost e.2)) l | _ => 1 end.

(** *** Digits *)
Lemma to_string_spec n : 0 <= n < 2 ^ 53 -> to_string n <> [] /\ forallb is_digit (to_string n) = true /\ digits_val (to_string n) = n.
Proof.
  intros Hn. unfold to_string. destruct (digits_shape 19 n []) as (ds & Hne & Hd & Hall & Hv).
  { change (10 ^ Z.of_nat 20) with 100000000000000000000. lia. }
  rewrite Hd, app_nil_r. done.
Qed.

(** *** Tokens *)

(** What may follow an identifier or a number. *)
Definition stops (r : text) : Prop :=
  match r with [] => True | b :: _ => ident_byte b = false /\ number_byte b = false end.

Lemma next_space c r n : is_space c = true -> next (Lex (c :: r) n) = next (Lex r (next_line c n)).
Proof. intros Hc. unfold next. cbn [rest length]. cbn [skip_ws_and_comments rest]. by rewrite Hc. Qed.

Lemma skip_stays fuel b r n : is_space b = false -> b <> 45 ->
  skip_ws_and_comments (S fuel) (Lex (b :: r) n) = Ok (Lex (b :: r) n).
Proof. intros Hb Hm. cbn [skip_ws_and_comments rest]. rewrite Hb. by rewrite (proj2 (Z.eqb_neq b 45) Hm). Qed.

Lemma next_end n : next (Lex [] n) = Ok (None, Lex [] n).
Proof. done. Qed.

Lemma take_while_app p a r n : Forall (fun c => p c = true /\ c <> 10) a ->
  match r with [] => True | b :: _ => p b = false end -> take_while p (Lex (a ++ r) n) = (a, Lex r n).
Proof.
  intros Ha Hr. unfold take_while. cbn [rest line].
  rewrite span_app; [|by eapply Forall_impl; [exact Ha|intros ? []]|done]. f_equal. f_equal.
  clear Hr. induction Ha as [|c a [_ Hc] Ha IH]; [done|]. cbn. unfold next_line at 2.
  by rewrite (proj2 (Z.eqb_neq c 10) Hc).
Qed.

Lemma read_string_quoted at_ s r n : forall out, Forall (fun c => 0 <= c < 128) s ->
  read_string 39 at_ (concat (escape <$> s) ++ 39 :: r) n out = Ok (out ++ s, Lex r n).
Proof.
  induction s as [|c s IH]; intros out Hs; [cbn; by rewrite app_nil_r|].
  apply Forall_cons in Hs as [Hc Hs]. cbn [fmap list_fmap concat]. unfold escape at 1.
  assert (Hp : push_char c = [c]) by (unfold push_char; destruct (Z.ltb_spec c 128); [done|lia]).
  rewrite <- app_assoc.
  destruct (c =? 92) eqn:E1; [|destruct (c =? 39) eqn:E2; [|destruct (c =? 10) eqn:E3]]; bool_prop; subst; cbn [orb];
    try (cbn [app read_string Z.eqb Pos.eqb]; cbn; rewrite IH by done; by rewrite <- app_assoc).
  cbn [app read_string]. rewrite (proj2 (Z.eqb_neq c 39)), (proj2 (Z.eqb_neq c 92)), (proj2 (Z.eqb_neq c 10)) by done.
  rewrite IH by done. rewrite Hp, <- app_assoc. done.
Qed.

Lemma next_quoted s r n : Forall (fun c => 0 <= c < 128) s ->
  next (Lex (quoted s ++ r) n) = Ok (Some (TStr s), Lex r n).
Proof.
  intros Hs. unfold next, quoted. cbn [rest app length]. rewrite skip_stays by done. cbn [rbind rest Z.eqb Pos.eqb orb].
  rewrite <- app_assoc. cbn [app line]. by rewrite read_string_quoted.
Qed.

Lemma ident_byte_plain b : ident_byte b = true ->
  is_space b = false /\ b <> 45 /\ b <> 10 /\
  (b =? 123) || (b =? 125) || (b =? 61) || (b =? 44) || (b =? 39) || (b =? 34) || (b =? 91) = false.
Proof. unfold ident_byte, is_digit, is_space. intros. split_and!; lia. Qed.

Lemma stops_ident r : stops r -> match r with [] => True | b :: _ => ident_byte b = false end.
Proof. destruct r; [done|by intros []]. Qed.
Lemma stops_number r : stops r -> match r with [] => True | b :: _ => number_byte b = false end.
Proof. destruct r; [done|by intros []]. Qed.

(** The bytes of an identifier that does not start with a digit. *)
Lemma next_word b k r n : Forall (fun c => ident_byte c = true) (b :: k) -> is_digit b = false -> stops r ->
  next (Lex ((b :: k) ++ r) n) =
    Ok (Some (if (b =? 116) || (b =? 102) || (b =? 110) then
                if verb_is (b :: k) "true" then TStr BOOL_TRUE
                else if verb_is (b :: k) "false" then TStr BOOL_FALSE
                else if verb_is (b :: k) "nil" then TStr NIL else TIdent (b :: k)
              else TIdent (b :: k)), Lex r n).
Proof.
  intros Hk Hd Hr. assert (Hb := Forall_inv Hk). apply ident_byte_plain in Hb as (Hs & Hm & _ & Ht).
  apply orb_false_iff in Ht as [Ht H91]. apply orb_false_iff in Ht as [Ht H34]. apply orb_false_iff in Ht as [Ht H39].
  apply orb_false_iff in Ht as [Ht H44]. apply orb_false_iff in Ht as [Ht H61]. apply orb_false_iff in Ht as [H123 H125].
  unfold next. cbn [app rest length]. rewrite skip_stays by done. cbn [rbind rest].
  rewrite H123, H125, H61, H44, H39, H34, H91, Hd. cbn [orb andb]. unfold read_ident. rewrite app_comm_cons.
  rewrite take_while_app; [|eapply Forall_impl; [exact Hk|]; cbn; intros c Hc; split; [done|]; by apply ident_byte_plain in Hc as (_ & _ & ? & _)|by apply stops_ident].
  destruct (_ || (b =? 110)); [done|]. by rewrite bool_decide_eq_false_2 by done.
Qed.

Lemma next_ident k r n : ident_ok k -> stops r -> next (Lex (k ++ r) n) = Ok (Some (TIdent k), Lex r n).
Proof.
  destruct k as [|b k]; [done|]. intros (Hd & Hk & Ht & Hf & Hn) Hr. rewrite next_word by done. rewrite Ht, Hf, Hn.
  by destruct (_ || (b =? 110)).
Qed.

Lemma next_number v r n : 0 <= v < 2 ^ 53 -> stops r ->
  next (Lex (to_string v ++ r) n) = Ok (Some (TNum (of_i64 v)), Lex r n).
Proof.
  intros Hv Hr. destruct (to_string_spec v Hv) as (Hne & Hd & Hval).
  pose proof (parse_f64_digits _ Hne Hd) as Hp. rewrite Hval in Hp.
  destruct (to_string v) as [|b ds] eqn:Es; [done|]. assert (Hdb : is_digit b = true) by (cbn in Hd; by apply andb_true_iff in Hd as [? _]).
  unfold next. cbn [app rest length].
  rewrite skip_stays by (unfold is_space, is_digit in *; lia). cbn [rbind rest].
  assert (Hw : forall c, is_digit c = true -> number_byte c = true /\ c <> 10)
    by (intros c Hc; unfold number_byte; rewrite Hc; split; [done|unfold is_digit in Hc; lia]).
  assert (Hrange : 48 <= b <= 57) by (unfold is_digit in Hdb; lia).
  repeat match goal with |- context [b =? ?c] => rewrite (proj2 (Z.eqb_neq b c)) by lia end. cbn [orb andb].
  rewrite Hdb. unfold read_number. rewrite app_comm_cons. rewrite take_while_app; [by rewrite Hp| |by apply stops_number].
  rewrite List.forallb_forall in Hd. apply List.Forall_forall. auto.
Qed.

(** *** Values *)

(** The induction principle with the entries of a table. *)
Lemma lua_nested_ind (P : lua -> Prop) :
  (forall s, P (LStr s)) -> (forall n, P (LInt n)) -> (forall b, P (LBool b)) -> P LNil ->
  (forall l, Forall (fun e => P e.2) l -> P (LTable l)) -> forall v, P v.
Proof.
  intros Hs Hi Hb Hn Ht. fix IH 1. intros [s|n|b| |l]; [apply Hs|apply Hi|apply Hb|apply Hn|]. apply Ht.
  induction l as [|e l IHl]; constructor; [apply IH|exact IHl].
Qed.

Definition entry_text (e : option text * lua) : text := key_text e.1 ++ render e.2 ++ [44; 32].
Definition body (l : list (option text * lua)) : text := 32 :: concat (entry_text <$> l) ++ [125].

Lemma render_table l : render (LTable l) = 123 :: body l.
Proof. done. Qed.

Definition first_tok (v : lua) : tok :=
  match v with
  | LStr s => TStr s | LInt n => TNum (of_i64 n) | LBool b => TStr (if b then BOOL_TRUE else BOOL_FALSE)
  | LNil => TStr NIL | LTable _ => LBrace
  end.
Definition after_first (v : lua) : text := match v with LTable l => body l | _ => [] end.

Lemma next_first v r n : lua_ok v -> stops r ->
  next (Lex (render v ++ r) n) = Ok (Some (first_tok v), Lex (after_first v ++ r) n).
Proof.
  destruct v as [s|k|b| |l]; intros Hv Hr; cbn [first_tok after_first app].
  - apply next_quoted, Hv.
  - by apply next_number.
  - by destruct b; [apply (next_word 116 [114; 117; 101])|apply (next_word 102 [97; 108; 115; 101])];
      rewrite ?Forall_cons, ?Forall_nil.
  - by apply (next_word 110 [105; 108]); rewrite ?Forall_cons, ?Forall_nil.
  - by rewrite render_table.
Qed.

Lemma parse_value_peeked fuel l t l' : next l = Ok (Some t, l') ->
  parse_value fuel (Parser l None) = parse_value fuel (Parser l' (Some t)).
Proof. intros H. destruct fuel; [done|]. cbn [parse_value]. unfold take. cbn [peeked lx]. by rewrite H. Qed.

Lemma peek_next l t l' : next l = Ok (t, l') -> peek (Parser l None) = Ok (t, Parser l' t).
Proof. intros H. unfold peek. cbn [peeked lx]. by rewrite H. Qed.

(** Reading a value whose first token is already there. *)
Definition reads (v : lua) : Prop :=
  forall fuel r n, (cost v <= fuel)%nat -> stops r ->
    parse_value fuel (Parser (Lex (after_first v ++ r) n) (Some (first_tok v))) = Ok (value_of v, Parser (Lex r n) None).

Lemma reads_text v fuel r n : lua_ok v -> reads v -> (cost v <= fuel)%nat -> stops r ->
  parse_value fuel (Parser (Lex (32 :: render v ++ r) n) None) = Ok (value_of v, Parser (Lex r n) None).
Proof.
  intros Hv Hr Hf Hs. erewrite parse_value_peeked; [by apply Hr|]. rewrite next_space by done. by apply next_first.
Qed.

Lemma decode_string s : string_ok s -> decode_literal s = Str s.
Proof. intros (_ & ? & ? & ?). unfold decode_literal. by rewrite !bool_decide_eq_false_2 by done. Qed.

Lemma number_small n : 0 <= n < 2 ^ 53 -> number (of_i64 n) = Int n.
Proof.
  intros Hn. unfold number. destruct (of_i64_exact n Hn) as (-> & -> & ->).
  rewrite (proj2 (Z.leb_le n (2 ^ 63))); [done|]. change (2 ^ 53) with 9007199254740992 in Hn.
  change (2 ^ 63) with 9223372036854775808. lia.
Qed.

Definition entry_ok (e : option text * lua) : Prop :=
  match e.1 with Some k => ident_ok k | None => True end /\ lua_ok e.2.

(** The turn of the loop on one entry. *)
Lemma entry_read fuel e rest' acc k n : entry_ok e -> reads e.2 -> (cost e.2 <= fuel)%nat ->
  parse_table (S fuel) (Parser (Lex (32 :: entry_text e ++ rest') n) None) acc k =
  parse_table fuel (Parser (Lex (32 :: rest') n) None) (acc ++ number_entries k [(e.1, value_of e.2)])
    (match e.1 with Some _ => k | None => k + 1 end).
Proof.
  intros [Hk Hv] Hread Hf. destruct e as [[key|] v]; cbn [fst snd] in *; unfold entry_text, key_text; cbn [fst snd].
  - rewrite <- !app_assoc. change (codes " = ") with [32; 61; 32]. cbn [app parse_table].
    erewrite peek_next; [|rewrite next_space by done; by apply next_ident]. cbn [rbind take peeked lx].
    set (r := render v ++ _). rewrite (peek_next _ (Some Assign) (Lex (32 :: r) n)) by done. cbn [rbind take peeked lx].
    unfold r. rewrite reads_text by done. cbn [rbind]. erewrite peek_next; [|done]. done.
  - rewrite <- !app_assoc. cbn [app parse_table].
    erewrite peek_next; [|rewrite next_space by done; by apply next_first]. cbn [rbind].
    assert (Hfirst : match first_tok v with TIdent _ | Comma | RBrace => False | _ => True end) by by destruct v.
    destruct (first_tok v) eqn:Et; try done; rewrite <- Et, Hread by done; cbn [rbind]; (erewrite peek_next; [|done]); done.
Qed.

Lemma entries_read l : forall fuel acc k r n, Forall (fun e => entry_ok e /\ reads e.2) l ->
  (1 + sum_list_with (fun e => S (cost e.2)) l <= fuel)%nat ->
  parse_table fuel (Parser (Lex (body l ++ r) n) None) acc k =
    Ok (Table (acc ++ number_entries k ((fun e => (e.1, value_of e.2)) <$> l)), Parser (Lex r n) None).
Proof.
  unfold body. induction l as [|e l IH]; intros [|fuel] acc k r n Hl Hf; cbn [sum_list_with] in Hf; try lia.
  - cbn. by rewrite app_nil_r.
  - apply Forall_cons in Hl as [[He Hr] Hl]. cbn [fmap list_fmap concat app]. rewrite <- !app_assoc.
    rewrite entry_read by (try done; lia). rewrite app_assoc. change (32 :: ?x ++ r) with ((32 :: x) ++ r).
    rewrite IH by (try done; lia). rewrite <- app_assoc. by destruct e as [[key|] v].
Qed.

Lemma value_reads v : lua_ok v -> reads v.
Proof.
  induction v as [s|k|b| |l IH] using lua_nested_ind; intros Hv [|fuel] r n Hf Hs; cbn [cost] in Hf; try lia;
    cbn [parse_value take peeked lx rbind first_tok after_first app value_of].
  - by rewrite decode_string.
  - by rewrite number_small.
  - by destruct b.
  - done.
  - rewrite entries_read; [done| |lia]. cbn [lua_ok] in Hv. rewrite Forall_fmap in Hv.
    rewrite Forall_forall in IH, Hv |- *. intros e He. specialize (Hv e He). split; [done|]. apply IH; [done|]. apply Hv.
Qed.

(** *** Statements *)

(** A line of a manifest: the equals sign is optional. *)
Record entry := Entry { e_name : text; with_equals : bool; e_value : lua }.
Definition line_of (e : entry) : text :=
  e_name e ++ (if with_equals e then codes " = " else [32]) ++ render (e_value e) ++ [10].
Definition print_manifest (l : list entry) : text := concat (line_of <$> l).
Definition line_ok (e : entry) : Prop := ident_ok (e_name e) /\ lua_ok (e_value e).

Lemma statement_take fuel p q : take p = take q -> parse_statement fuel p = parse_statement fuel q.
Proof. unfold parse_statement. by intros ->. Qed.

Lemma take_space c r n : is_space c = true ->
  take (Parser (Lex (c :: r) n) None) = take (Parser (Lex r (next_line c n)) None).
Proof. intros Hc. unfold take. cbn [peeked lx]. by rewrite next_space. Qed.

(** What follows a line: the end of the file, or another name. *)
Lemma next_after l n : Forall line_ok l ->
  next (Lex (print_manifest l) n) = Ok (None, Lex [] n) /\ l = [] \/
  exists k l', next (Lex (print_manifest l) n) = Ok (Some (TIdent k), l').
Proof.
  destruct l as [|[k eq v] l]; intros Hl; [by left|right]. apply Forall_cons in Hl as [[Hk _] _]. cbn in Hk.
  unfold print_manifest. cbn [fmap list_fmap concat]. unfold line_of at 1. cbn [e_name with_equals e_value].
  rewrite <- !app_assoc. eexists _, _. apply next_ident; [done|by destruct eq].
Qed.

(** The parser after the value of a line: a string looks at the next token. *)
Lemma after_string l n : Forall line_ok l ->
  exists t q, peek (Parser (Lex (10 :: print_manifest l) n) None) = Ok (t, q) /\
    match t with Some LBrace => False | _ => True end /\ take q = take (Parser (Lex (print_manifest l) (n + 1)) None).
Proof.
  intros Hl. assert (Hn : next (Lex (10 :: print_manifest l) n) = next (Lex (print_manifest l) (n + 1))) by by apply next_space.
  destruct (next_after l (n + 1) Hl) as [[He _]|(k & l' & He)]; rewrite He in Hn;
    eexists _, _; (split; [by apply peek_next|split; [done|]]); unfold take; cbn [peeked lx]; rewrite He; done.
Qed.

(** The end of a statement, once its value is read. *)
Lemma statement_end fuel (name : text) v l n : Forall line_ok l ->
  exists q, match v with
    | Str s =>
        let? '(a, p) := peek (Parser (Lex (10 :: print_manifest l) n) None) in
        match a with
        | Some LBrace => let? '(tbl, p) := parse_value fuel p in Ok (Some (name, Table [(codes "1", v); (codes "2", tbl)], n), p)
        | _ => Ok (Some (name, v, n), p)
        end
    | _ => Ok (Some (name, v, n), Parser (Lex (10 :: print_manifest l) n) None)
    end = Ok (Some (name, v, n), q) /\ take q = take (Parser (Lex (print_manifest l) (n + 1)) None).
Proof.
  intros Hl. destruct v; try (eexists; split; [done|by apply take_space]).
  destruct (after_string l n Hl) as (t & q & -> & Ht & Hq). exists q. cbn [rbind]. split; [by destruct t as [[]|]|done].
Qed.

Lemma statement_read fuel e l n : line_ok e -> Forall line_ok l -> (cost (e_value e) <= fuel)%nat ->
  exists q, parse_statement fuel (Parser (Lex (line_of e ++ print_manifest l) n) None) =
      Ok (Some (e_name e, value_of (e_value e), n), q) /\
    take q = take (Parser (Lex (print_manifest l) (n + 1)) None).
Proof.
  destruct e as [k eq v]. intros [Hk Hv] Hl Hf. cbn [e_name with_equals e_value] in *.
  pose proof (value_reads v Hv) as Hread. unfold line_of. cbn [e_name with_equals e_value]. rewrite <- !app_assoc.
  destruct (statement_end fuel k (value_of v) l n Hl) as (q & Hend & Hq). exists q. split; [|done].
  unfold parse_statement. unfold take at 1. cbn [peeked lx]. rewrite next_ident by (try done; by destruct eq).
  cbn [rbind lx line]. change ([10] ++ print_manifest l) with (10 :: print_manifest l). destruct eq.
  - change (codes " = " ++ ?x) with (32 :: 61 :: 32 :: x).
    rewrite (peek_next _ (Some Assign) (Lex (32 :: render v ++ 10 :: print_manifest l) n)) by done.
    cbn [rbind take peeked lx]. rewrite reads_text by done. exact Hend.
  - change ([32] ++ ?x) with (32 :: x). erewrite peek_next; [|rewrite next_space by done; by apply next_first]. cbn [rbind].
    assert (Hfirst : match first_tok v with Assign => False | _ => True end) by by destruct v.
    destruct (first_tok v) eqn:Et; try done; cbn [rbind]; rewrite <- Et, Hread by done; exact Hend.
Qed.

Lemma statements_read inner l : forall fuel n p, Forall line_ok l -> Forall (fun e => cost (e_value e) <= inner)%nat l ->
  (length l < fuel)%nat -> take p = take (Parser (Lex (print_manifest l) n) None) ->
  statements_loop fuel inner p = Ok (imap (fun i e => (e_name e, value_of (e_value e), n + Z.of_nat i)) l).
Proof.
  induction l as [|e l IH]; intros [|fuel] n p Hl Hc Hf Hp; cbn [length] in Hf; try lia; cbn [statements_loop];
    rewrite (statement_take inner _ _ Hp).
  - done.
  - apply Forall_cons in Hl as [He Hl]. apply Forall_cons in Hc as [Hce Hc].
    change (print_manifest (e :: l)) with (line_of e ++ print_manifest l).
    destruct (statement_read inner e l n He Hl Hce) as (q & -> & Hq). cbn [rbind].
    rewrite (IH fuel (n + 1) q) by (try done; lia). cbn [rbind imap]. rewrite Z.add_0_r. do 2 f_equal.
    apply imap_ext. intros i e' _. cbn. f_equal. lia.
Qed.

(** The fuel: a value costs no more than its length. *)
Lemma cost_length v : (cost v <= length (render v))%nat.
Proof.
  induction v as [s|k|b| |l IH] using lua_nested_ind; cbn [cost].
  - unfold quoted, render. cbn. lia.
  - cbn [render]. unfold to_string. pose proof (digits_nonempty 19 k []) as H. destruct (digits 20 k []); [done|cbn; lia].
  - by destruct b; cbn; lia.
  - cbn. lia.
  - rewrite render_table. unfold body. cbn [length]. rewrite length_app. cbn [length].
    enough (sum_list_with (fun e => S (cost e.2)) l <= length (concat (entry_text <$> l)))%nat by lia.
    induction IH as [|e l He IH IHl]; [done|]. cbn [sum_list_with fmap list_fmap concat]. rewrite length_app.
    unfold entry_text at 1. rewrite !length_app. cbn [length]. lia.
Qed.

Lemma line_of_length e : (length (render (e_value e)) < length (line_of e))%nat.
Proof. unfold line_of. rewrite !length_app. cbn [length]. lia. Qed.

Lemma line_length l e : e ∈ l -> (length (render (e_value e)) <= length (print_manifest l))%nat.
Proof.
  unfold print_manifest. induction 1 as [e l|e e' l _ IH]; cbn [fmap list_fmap concat]; rewrite length_app; [|lia].
  pose proof (line_of_length e). lia.
Qed.

Lemma lines_length l : (length l <= length (print_manifest l))%nat.
Proof.
  unfold print_manifest. induction l as [|e l IH]; [done|]. cbn [fmap list_fmap concat length]. rewrite length_app.
  pose proof (line_of_length e). lia.
Qed.

(** C21: A printed manifest reads back: every line gives one statement, with its
    name, the value that was printed and its line number. The values are nested
    tables with positional and named entries, strings with their escapes,
    numbers, booleans and nil, with or without the equals sign. *)
Theorem manifest_roundtrip (l : list entry) :
  Forall line_ok l ->
  statements (print_manifest l) = Ok (imap (fun i e => (e_name e, value_of (e_value e), 1 + Z.of_nat i)) l).
Proof.
  intros Hl. apply statements_read; [done| | |done].
  - apply Forall_forall. intros e He. pose proof (cost_length (e_value e)).
    pose proof (line_length l e He). lia.
  - apply le_n_S, lines_length.
Qed.

Lemma manifest_spec_witness :
  let src := codes "fx_version 'cerulean' files { 'a', 'b' } lua54 'yes' mine = 3" in
  exists m, parse_fxmanifest src = Ok m /\
    exists sts, statements src = Ok sts /\ meaning sts manifest_default m /\
      (is_Some (fx_version m) \/ is_Some (resource_manifest_version m)).
Proof. eexists. split; [vm_compute; reflexivity|]. apply manifest_spec. vm_compute. reflexivity. Defined.

Lemma manifest_roundtrip_witness :
  let l := [Entry (codes "fx_version") false (LStr (codes "it's"));
            Entry (codes "my.key") true (LTable [(None, LInt 42); (Some (codes "x"), LTable []); (None, LBool true)])] in
  Forall line_ok l /\
  statements (print_manifest l) = Ok (imap (fun i e => (e_name e, value_of (e_value e), 1 + Z.of_nat i)) l).
Proof.
  cbv zeta. match goal with |- ?A /\ _ => assert (H : A) end.
  { repeat (apply Forall_cons; split); try apply Forall_nil; split; cbn; split_and?;
      repeat first [done|lia|apply Forall_cons; split|apply Forall_nil|split]. }
  split; [exact H|]. apply (manifest_roundtrip _ H).
Defined.

(** What the parser makes of inputs at the edge of its language: arithmetic and
    hexadecimal numbers are read as zero, a string may be taken for a boolean,
    the bytes of a UTF-8 sequence become one character each, the second form of
    [data_file] is refused, any string sets a flag, an inner bracket keeps a long
    comment open, and [escrow_ignore] is honoured though listed as unsupported. *)
Lemma manifest_gaps :
  statements (codes "a = 1+2") = Ok [(codes "a", Int 0, 1)] /\
  statements (codes "a = 0x10") = Ok [(codes "a", Int 0, 1)] /\
  statements (codes "a '__bool_true__'") = Ok [(codes "a", Bool_ true, 1)] /\
  statements (codes "a '" ++ [195; 169; 39]) = Ok [(codes "a", Str [195; 131; 194; 169], 1)] /\
  parse_fxmanifest (codes "fx_version 'x' data_file 'T' 'f'") =
    Err (InvalidValue (codes "data_file") 1 "data_file requires { 'TYPE', 'file' }") /\
  lua54 <$> (match parse_fxmanifest (codes "fx_version 'x' lua54 'no'") with Ok m => Some m | _ => None end) = Some true /\
  parse_fxmanifest (codes "--[[ [[ ]] fx_version 'x'") = Err (Syntax 1 UnterminatedComment) /\
  (match parse_fxmanifest (codes "fx_version 'x' escrow_ignore 'y'") with
   | Ok m => (escrow_ignore m, status <$> directives m) | _ => (false, []) end) = (true, [Supported; Unsupported]).
Proof. vm_compute. split_and!; reflexivity. Qed.
