(* ===== verification/Query.v ===== *)
(** The anonymous query endpoint of crates/ald-query/src/lib.rs: the probe
    codec, the rate limiter, the bounded response and the legacy views. The
    JSON serializer is a parameter; an [Instant] is a number of milliseconds. *)
From S2P Require Import Prelude RustStr Bytes.

(** ** Probe *)
Definition QUERY_MAGIC : list Z := [0x41; 0x4C; 0x44; 0x51].
Definition QUERY_VERSION : Z := 1.
Definition MAX_PLAYERS_IN_LIST : nat := 64.
Definition MAX_RESPONSE_BYTES : nat := 8192.

Record query_probe := QueryProbe { magic : list Z; version : Z; probe_nonce : Z }.

Inductive query_error :=
| BadLength (got want : nat) | BadMagic | UnsupportedVersion (v : Z) | TooLarge | Render (e : text)
| RateLimited | NotListed.

Definition probe_new (nonce : Z) : query_probe := QueryProbe QUERY_MAGIC QUERY_VERSION nonce.
Definition encode (p : query_probe) : list Z := magic p ++ [version p] ++ le_bytes 4 (probe_nonce p).
Definition decode (b : list Z) : result query_probe query_error :=
  if negb (bool_decide (length b = 9%nat)) then Err (BadLength (length b) 9)
  else if negb (bool_decide (take 4 b = QUERY_MAGIC)) then Err BadMagic
  else
    let v := default 0 (b !! 4%nat) in
    if negb (v =? QUERY_VERSION) then Err (UnsupportedVersion v)
    else Ok (QueryProbe (take 4 b) v (le_val (drop 5 b))).

(** ** Status *)
Record query_player := QueryPlayer { name : text; label : option text }.

Record server_status := ServerStatus {
  hostname : text; project_name : option text; project_desc : option text; protocol_version : Z;
  max_clients : Z; online : Z; tags : list text; locale : option text; game_build : option text;
  listed : bool; icon_b64 : option text; players : list query_player; extra : gmap text text;
  nonce : Z; health : text }.

Definition eta (s : server_status) : server_status :=
  ServerStatus (hostname s) (project_name s) (project_desc s) (protocol_version s) (max_clients s) (online s) (tags s)
    (locale s) (game_build s) (listed s) (icon_b64 s) (players s) (extra s) (nonce s) (health s).
Definition set_project_desc : option text -> server_status -> server_status := ltac:(setter eta project_desc).
Definition set_icon_b64 : option text -> server_status -> server_status := ltac:(setter eta icon_b64).
Definition set_players : list query_player -> server_status -> server_status := ltac:(setter eta players).
Definition set_extra : gmap text text -> server_status -> server_status := ltac:(setter eta extra).
Definition set_nonce : Z -> server_status -> server_status := ltac:(setter eta nonce).

(** What the legacy views hand to the serializer. *)
Inductive json := JNum (n : Z) | JStr (s : text) | JArr (l : list json) | JObj (l : list (text * json)).

Definition str_or_empty (o : option text) : json := JStr (default [] o).
Fixpoint join (sep : text) (l : list text) : text :=
  match l with [] => [] | [x] => x | x :: l => x ++ sep ++ join sep l end.

Definition legacy_info (s : server_status) : json :=
  JObj [(codes "sv_maxclients", JNum (max_clients s)); (codes "sv_hostname", JStr (hostname s));
        (codes "sv_projectName", str_or_empty (project_name s));
        (codes "sv_projectDesc", str_or_empty (project_desc s)); (codes "sv_tags", JStr (join [44] (tags s)));
        (codes "sv_locale", str_or_empty (locale s)); (codes "sv_gameBuild", str_or_empty (game_build s));
        (codes "icon", str_or_empty (icon_b64 s)); (codes "version", JNum (protocol_version s));
        (codes "health", JStr (health s))].
Definition legacy_row (p : query_player) : json :=
  JObj ((codes "name", JStr (name p)) :: match label p with Some l => [(codes "label", JStr l)] | None => [] end).
Definition legacy_players (s : server_status) : json :=
  JObj [(codes "players", JArr (legacy_row <$> take MAX_PLAYERS_IN_LIST (players s)))].
Definition legacy_dynamic (s : server_status) : json :=
  JObj [(codes "sv_maxclients", JNum (max_clients s)); (codes "clients", JNum (online s));
        (codes "gametype", str_or_empty (head (tags s))); (codes "mapname", str_or_empty (game_build s))].

(** ** Bounded response *)
Section response.
Context (to_json : server_status -> result text text).

Definition render (s : server_status) : result text query_error :=
  match to_json s with Ok t => Ok t | Err e => Err (Render e) end.
Definition fits_response (t : text) : bool := (length t <=? MAX_RESPONSE_BYTES)%nat.

(** What each turn of the loop that did not fit drops; the flags of the code
    record how many of them are done. *)
Definition SHEDDING : list (server_status -> server_status) := [set_icon_b64 None; set_players []; set_extra ∅].

Fixpoint native_loop (sheds : list (server_status -> server_status)) (cur : server_status) : result text query_error :=
  let? s := render cur in
  if fits_response s then Ok s
  else match sheds with
  | shed :: sheds => native_loop sheds (shed cur)
  | [] =>
      let cur := set_project_desc None cur in
      let? s := render cur in
      if fits_response s then render cur else Err TooLarge
  end.

Definition capped (s : server_status) : server_status :=
  if (MAX_PLAYERS_IN_LIST <? length (players s))%nat then set_players (take MAX_PLAYERS_IN_LIST (players s)) s else s.
Definition to_native_json (s : server_status) : result text query_error := native_loop SHEDDING (capped s).
End response.

(** ** Rate limiter *)
Section limiter.
Context {Addr : Type} `{Countable Addr}.

Record rate_limiter := RateLimiter { window : Z; max_per_window : Z; hits : gmap Addr (Z * Z) }.
Definition limiter_new (max_per_window window : Z) : rate_limiter := RateLimiter window max_per_window ∅.
Definition set_hits (l : rate_limiter) (h : gmap Addr (Z * Z)) : rate_limiter := RateLimiter (window l) (max_per_window l) h.

Definition check (l : rate_limiter) (now : Z) (src : Addr) : result unit query_error * rate_limiter :=
  match hits l !! src with
  | Some (start, count) =>
      if sat_sub now start <? window l then
        if max_per_window l <=? count then (Err RateLimited, l)
        else (Ok tt, set_hits l (<[src := (start, count + 1)]> (hits l)))
      else (Ok tt, set_hits l (<[src := (now, 1)]> (hits l)))
  | None => (Ok tt, set_hits l (<[src := (now, 1)]> (hits l)))
  end.

Definition gc (l : rate_limiter) (now : Z) : rate_limiter :=
  set_hits l (filter (fun h => sat_sub now h.2.1 < window l) (hits l)).
Definition tracked_sources (l : rate_limiter) : nat := size (hits l).

Definition handle_query_probe (to_json : server_status -> result text text) (status : server_status)
    (l : rate_limiter) (now : Z) (src : Addr) (bytes : list Z) : result text query_error * rate_limiter :=
  match decode bytes with
  | Err e => (Err e, l)
  | Ok probe =>
      match check l now src with
      | (Err e, l) => (Err e, l)
      | (Ok _, l) =>
          let view := set_nonce (probe_nonce probe) status in
          let view := if negb (listed view) then set_extra ∅ (set_project_desc None (set_players [] view)) else view in
          (to_native_json to_json view, l)
      end
  end.
End limiter.
Arguments rate_limiter Addr {_ _}.

(** ** The probe codec *)
Lemma decode_encode n : fits 32 n -> decode (encode (probe_new n)) = Ok (probe_new n).
Proof.
  intros Hn. pose proof (length_le_bytes 4 n) as Hl. pose proof (le_val_bytes 4 n Hn) as Hv.
  unfold decode, encode, probe_new. cbn [magic version probe_nonce]. rewrite !length_app, Hl.
  change (Ok (QueryProbe QUERY_MAGIC QUERY_VERSION (le_val (le_bytes 4 n))) = (Ok (probe_new n) : result _ query_error)).
  by rewrite Hv.
Qed.

(** Exactly the nine bytes of a probe are accepted. *)
Lemma decode_spec b p : byte_list b -> decode b = Ok p <-> fits 32 (probe_nonce p) /\ p = probe_new (probe_nonce p) /\ b = encode p.
Proof.
  intros Hb. split; [|intros (Hn & Hp & ->); rewrite Hp at 1; by rewrite decode_encode, <- Hp].
  unfold decode. destruct (bool_decide_reflect (length b = 9%nat)) as [Hl|]; [|done].
  destruct (bool_decide_reflect (take 4 b = QUERY_MAGIC)) as [Hm|]; [|done]. cbn [negb].
  destruct (default 0 (b !! 4%nat) =? QUERY_VERSION) eqn:Ev; [|done]. bool_prop. cbn [negb]. intros [= <-]. cbn [probe_nonce].
  assert (Hd : byte_list (drop 5 b)) by by apply Forall_drop.
  assert (Hld : length (drop 5 b) = 4%nat) by (rewrite length_drop; lia).
  pose proof (le_val_fits (drop 5 b) Hd) as Hr. rewrite Hld in Hr. split; [exact Hr|]. rewrite Ev, Hm. split; [done|].
  unfold encode. cbn [magic version probe_nonce]. pose proof (le_bytes_val (drop 5 b) Hd) as Hbv. rewrite Hld in Hbv. rewrite Hbv.
  rewrite <- (take_drop 4 b) at 1. rewrite Hm. f_equal.
  destruct (lookup_lt_is_Some_2 b 4 ltac:(lia)) as [v Hv]. rewrite Hv in Ev. cbn in Ev. subst v. by rewrite (drop_S b QUERY_VERSION 4).
Qed.

(** ** The response *)

(** The views the loop tries, from the full one to the last resort. *)
Definition views (s : server_status) : list server_status :=
  let v0 := capped s in let v1 := set_icon_b64 None v0 in let v2 := set_players [] v1 in let v3 := set_extra ∅ v2 in
  [v0; v1; v2; v3; set_project_desc None v3].

(** The first view that fits; a failure of the serializer ends the search. *)
Fixpoint first_fit (to_json : server_status -> result text text) (l : list server_status) : result text query_error :=
  match l with
  | [] => Err TooLarge
  | v :: l => let? t := render to_json v in if fits_response t then Ok t else first_fit to_json l
  end.

(** The fields no view drops. *)
Definition identity (s : server_status) : text * option text * Z * Z * Z * list text * option text * option text * bool * Z * text :=
  (hostname s, project_name s, protocol_version s, max_clients s, online s, tags s, locale s, game_build s, listed s, nonce s, health s).

Lemma native_first_fit to_json s : to_native_json to_json s = first_fit to_json (views s).
Proof.
  unfold to_native_json, views, SHEDDING. cbn [native_loop first_fit].
  repeat match goal with
  | |- rbind ?r _ = _ => destruct r eqn:?; cbn [rbind]; [|done]; destruct (fits_response _); try done
  end.
Qed.

Lemma first_fit_ok to_json l t : first_fit to_json l = Ok t ->
  (length t <= MAX_RESPONSE_BYTES)%nat /\ exists v, v ∈ l /\ to_json v = Ok t.
Proof.
  induction l as [|v l IH]; [done|]. cbn [first_fit]. unfold render. destruct (to_json v) as [u|] eqn:Eu; [|done]. cbn [rbind].
  destruct (fits_response u) eqn:Ef.
  - intros [= ->]. apply Nat.leb_le in Ef. split; [done|]. exists v. split; [left|done].
  - intros (Hl & w & Hw & Hj)%IH. split; [done|]. exists w. split; [by right|done].
Qed.

Lemma views_spec s v : v ∈ views s -> identity v = identity s /\ (length (players v) <= MAX_PLAYERS_IN_LIST)%nat /\
  players v `sublist_of` players s /\ extra v ⊆ extra s.
Proof.
  assert (Hc : identity (capped s) = identity s /\ (length (players (capped s)) <= MAX_PLAYERS_IN_LIST)%nat /\
    players (capped s) `sublist_of` players s /\ extra (capped s) ⊆ extra s).
  { unfold capped. destruct (Nat.ltb_spec MAX_PLAYERS_IN_LIST (length (players s))); cbn [set_players players extra]; split_and!;
      try done; try (rewrite length_take; lia). apply sublist_take. }
  destruct Hc as (Hi & Hl & Hp & He). unfold views. rewrite !elem_of_cons, elem_of_nil.
  intros [->|[->|[->|[->|[->|[]]]]]]; cbn; (split_and!; [exact Hi|try done; lia|try done; apply sublist_nil_l|try done; apply map_empty_subseteq]).
Qed.

(** C23: A probe is answered only when it is the exact nine bytes of the current
    version and its source is within its rate. The answer is at most 8192 bytes,
    the serialization of a view that echoes the nonce, keeps the identity and the
    counts and lists at most 64 players; for an unlisted server it does not
    depend on the players, the description and the extra fields. *)
Theorem query_response {Addr} `{Countable Addr} (to_json : server_status -> result text text) (s : server_status)
    (l l' : rate_limiter Addr) (now : Z) (src : Addr) (bytes t : list Z) :
  byte_list bytes -> handle_query_probe to_json s l now src bytes = (Ok t, l') ->
  (exists n, fits 32 n /\ bytes = encode (probe_new n) /\
    exists v, to_json v = Ok t /\ identity v = identity (set_nonce n s) /\ players v `sublist_of` players s /\
      (length (players v) <= MAX_PLAYERS_IN_LIST)%nat /\ (listed s = false -> players v = [] /\ project_desc v = None /\ extra v = ∅)) /\
  (length t <= MAX_RESPONSE_BYTES)%nat /\ check l now src = (Ok tt, l') /\
  (listed s = false -> forall s', listed s' = false -> identity s' = identity s -> icon_b64 s' = icon_b64 s ->
    handle_query_probe to_json s' l now src bytes = (Ok t, l')).
Proof.
  intros Hb. unfold handle_query_probe. destruct (decode bytes) as [p|] eqn:Ed; [|done].
  apply decode_spec in Ed as (Hn & Hp & He); [|done]. destruct (check l now src) as [[[]|] l1] eqn:Ec; [|done].
  rewrite native_first_fit. set (view := if negb _ then _ else _). 
  destruct (first_fit to_json (views view)) as [u|] eqn:Ht; [|done]. intros [= -> <-].
  pose proof (first_fit_ok _ _ _ Ht) as (Hlen & v & Hv & Hj). pose proof (views_spec _ _ Hv) as (Hi & Hmax & Hpl & Hex).
  split_and!; [|done|done|].
  - exists (probe_nonce p). rewrite <- Hp. split_and!; [done|done|]. exists v. split; [done|].
    assert (Hview : identity view = identity (set_nonce (probe_nonce p) s) /\ players view `sublist_of` players s).
    { unfold view. cbn [set_nonce listed]. destruct (listed s) eqn:El; cbn; rewrite ?El; (split; [done|]); [done|apply sublist_nil_l]. }
    destruct Hview as [Hvi Hvp]. split_and!; [by rewrite Hi|by etrans|done|]. intros Hun.
    assert (Hempty : players view = [] /\ project_desc view = None /\ extra view = ∅).
    { unfold view. cbn [set_nonce listed]. rewrite Hun. done. }
    destruct Hempty as (Hp0 & Hd0 & He0). rewrite Hp0 in Hpl. rewrite He0 in Hex. split_and!.
    + by apply sublist_nil_r in Hpl.
    + unfold views, capped in Hv. rewrite Hp0 in Hv. cbn in Hv. rewrite !elem_of_cons, elem_of_nil in Hv.
      destruct Hv as [->|[->|[->|[->|[->|[]]]]]]; done.
    + by apply map_subseteq_empty in Hex || (apply map_empty; intros i; eapply lookup_weaken_None; [apply lookup_empty|exact Hex]).
  - intros Hun s' Hun' Hid Hicon. rewrite native_first_fit.
    assert (Hsame : (if negb (listed (set_nonce (probe_nonce p) s')) then
        set_extra ∅ (set_project_desc None (set_players [] (set_nonce (probe_nonce p) s'))) else set_nonce (probe_nonce p) s') = view).
    { unfold view. cbn [set_nonce listed]. rewrite Hun, Hun'. cbn [negb]. unfold identity in Hid. destruct s, s'. cbn in *. by simplify_eq. }
    by rewrite Hsame, Ht.
Qed.

(** ** The rate *)
Section rate.
Context {Addr : Type} `{Countable Addr}.

Inductive limiter_op := Check_ (src : Addr) (now : Z) | Gc (now : Z).
Definition time_of (o : limiter_op) : Z := match o with Check_ _ now | Gc now => now end.
Definition limiter_step (l : rate_limiter Addr) (o : limiter_op) : rate_limiter Addr :=
  match o with Check_ src now => (check l now src).2 | Gc now => gc l now end.

(** The times at which a source was let through. *)
Definition admitted (src : Addr) (l : rate_limiter Addr) (o : limiter_op) : list Z :=
  match o with
  | Check_ s now => if bool_decide (s = src) && is_ok (check l now s).1 then [now] else []
  | Gc _ => []
  end.
Fixpoint accepted (src : Addr) (l : rate_limiter Addr) (ops : list limiter_op) : list Z :=
  match ops with [] => [] | o :: ops => admitted src l o ++ accepted src (limiter_step l o) ops end.

(** The clock does not go back. *)
Fixpoint clock (now : Z) (ops : list limiter_op) : Prop :=
  match ops with [] => True | o :: ops => now <= time_of o /\ clock (time_of o) ops end.

Definition within (w t : Z) (times : list Z) : Z :=
  Z.of_nat (length (List.filter (fun a => (t <=? a) && (a <? t + w)) times)).

Lemma within_app w t a b : within w t (a ++ b) = within w t a + within w t b.
Proof. unfold within. rewrite List.filter_app, length_app. lia. Qed.
Lemma within_le w t a : 0 <= within w t a <= Z.of_nat (length a).
Proof. unfold within. pose proof (length_filterb_le (fun a => (t <=? a) && (a <? t + w)) a). lia. Qed.
Lemma within_before w t a : Forall (fun x => x < t) a -> within w t a = 0.
Proof.
  induction 1 as [|x a Hx Ha IH]; [done|]. unfold within in *. cbn [List.filter].
  by rewrite (proj2 (Z.leb_gt t x)).
Qed.
Lemma within_one w t x : within w t [x] = if (t <=? x) && (x <? t + w) then 1 else 0.
Proof. unfold within. cbn [List.filter]. by destruct (_ && _). Qed.

(** What the bucket of a source says of the times it was let through: those
    before its window, and the [count] ones of the window. *)
Definition bucket_inv (w M : Z) (times : list Z) (b : option (Z * Z)) (now : Z) : Prop :=
  Forall (fun a => a <= now) times /\ (forall t, within w t times <= 2 * M) /\
  match b with
  | None => forall t, now < t + w -> within w t times <= M
  | Some (start, count) =>
      start <= now /\ 1 <= count <= M /\
      exists old cur, times = old ++ cur /\ Z.of_nat (length cur) = count /\
        Forall (fun a => a <= start) old /\ forall t, start < t + w -> within w t old <= M
  end.

Lemma bucket_later w M times b now now' : now <= now' -> bucket_inv w M times b now -> bucket_inv w M times b now'.
Proof.
  intros Hn (Ht & Hw & Hb). split; [|split; [done|]].
  - eapply Forall_impl; [exact Ht|]. cbn. lia.
  - destruct b as [[start count]|]; [|intros t Hlt; apply Hb; lia]. destruct Hb as (? & ? & ?). split_and!; [lia|lia|lia|done].
Qed.

(** Once its window is over, a bucket counts for at most one window more. *)
Lemma bucket_over w M times b now :
  bucket_inv w M times b now -> (match b with Some (start, _) => w <= sat_sub now start | None => True end) -> 0 <= w ->
  forall t, now < t + w -> within w t times <= M.
Proof.
  intros (Ht & Hw & Hb) Ho H0 t Hlt. destruct b as [[start count]|]; [|by apply Hb].
  destruct Hb as (Hs & Hc & old & cur & -> & Hl & Hold & Hm). unfold sat_sub in Ho.
  rewrite within_app, (within_before w t old).
  - pose proof (within_le w t cur). lia.
  - eapply Forall_impl; [exact Hold|]. cbn. lia.
Qed.

Lemma bucket_open w M times b now : 1 <= M -> 0 <= w ->
  bucket_inv w M times b now -> (match b with Some (start, _) => w <= sat_sub now start | None => True end) ->
  bucket_inv w M (times ++ [now]) (Some (now, 1)) now.
Proof.
  intros HM H0 Hb Ho. pose proof (bucket_over w M times b now Hb Ho H0) as Hover. destruct Hb as (Ht & Hw & _). split; [|split].
  - apply Forall_app. split; [done|]. by repeat constructor.
  - intros t. rewrite within_app, within_one. destruct ((t <=? now) && (now <? t + w)) eqn:E.
    + specialize (Hover t ltac:(lia)). lia.
    + specialize (Hw t). lia.
  - split_and!; [lia|lia|lia|]. exists times, [now]. split_and!; [done|done|done|]. intros t Hlt. apply Hover. lia.
Qed.

Lemma bucket_count w M times start count now : 0 <= w -> count < M ->
  bucket_inv w M times (Some (start, count)) now -> bucket_inv w M (times ++ [now]) (Some (start, count + 1)) now.
Proof.
  intros H0 Hlt (Ht & Hw & Hs & Hc & old & cur & -> & Hl & Hold & Hm). split; [|split].
  - apply Forall_app. split; [done|]. by repeat constructor.
  - intros t. rewrite within_app, within_one. destruct ((t <=? now) && (now <? t + w)) eqn:E.
    + rewrite within_app. specialize (Hm t ltac:(lia)). pose proof (within_le w t cur). lia.
    + specialize (Hw t). lia.
  - split_and!; [lia|lia|lia|]. exists old, (cur ++ [now]). rewrite length_app. cbn [length]. split_and!; [by rewrite app_assoc|lia|done|done].
Qed.

Definition limiter_inv (src : Addr) (times : list Z) (l : rate_limiter Addr) (now : Z) : Prop :=
  bucket_inv (window l) (Z.max 1 (max_per_window l)) times (hits l !! src) now.

Lemma limiter_step_inv src times l now o : 0 <= window l -> now <= time_of o -> limiter_inv src times l now ->
  limiter_inv src (times ++ admitted src l o) (limiter_step l o) (time_of o) /\
  window (limiter_step l o) = window l /\ max_per_window (limiter_step l o) = max_per_window l.
Proof.
  intros H0 Hn Hi. unfold limiter_inv in *. apply (bucket_later _ _ _ _ _ _ Hn) in Hi. destruct o as [s t|t]; cbn [time_of] in *.
  - unfold limiter_step, admitted, check.
    destruct (decide (s = src)) as [->|Hne].
    + rewrite bool_decide_eq_true_2 by done. destruct (hits l !! src) as [[start count]|] eqn:Eh.
      * destruct (Z.ltb_spec (sat_sub t start) (window l)); [destruct (Z.leb_spec (max_per_window l) count)|];
          cbn [fst snd is_ok andb]; rewrite ?app_nil_r; split_and!; try done; cbn [set_hits hits window max_per_window].
        -- by rewrite Eh.
        -- rewrite lookup_insert_eq. apply bucket_count; [done|lia|done].
        -- rewrite lookup_insert_eq. eapply bucket_open; [lia|done|exact Hi|done].
      * cbn. rewrite lookup_insert_eq. split_and!; [|done|done]. eapply bucket_open; [lia|done|exact Hi|done].
    + rewrite bool_decide_eq_false_2 by done. cbn [andb]. rewrite app_nil_r.
      destruct (hits l !! s) as [[start count]|]; [destruct (_ <? _); [destruct (_ <=? _)|]|]; cbn;
        rewrite ?lookup_insert_ne by done; by split_and!.
  - cbn. rewrite app_nil_r, map_lookup_filter. split_and!; [|done|done]. destruct (hits l !! src) as [[start count]|] eqn:Eh; cbn; [|done].
    destruct (decide (sat_sub t start < window l)); [by rewrite option_guard_True|].
    rewrite option_guard_False by done. pose proof (bucket_over _ _ _ _ _ Hi) as Hover. destruct Hi as (Ht & Hw & _).
    cbn. split; [done|split; [done|]]. apply Hover; [lia|done].
Qed.

(** C24: however probes of any sources and collections interleave, a source is
    let through at most twice its limit in any period as long as the window, or
    twice when the limit is zero. *)
Theorem query_rate_bound (src : Addr) (max w t : Z) (ops : list limiter_op) (start : Z) :
  0 <= w -> clock start ops ->
  within w t (accepted src (limiter_new max w) ops) <= 2 * Z.max 1 max.
Proof.
  intros H0 Hc.
  assert (Hg : forall ops l times now, 0 <= window l -> clock now ops -> limiter_inv src times l now ->
    within (window l) t (times ++ accepted src l ops) <= 2 * Z.max 1 (max_per_window l)).
  { clear. induction ops as [|o ops IH]; intros l times now H0 Hc Hi; cbn [accepted].
    - rewrite app_nil_r. apply Hi.
    - destruct Hc as [Hn Hc]. destruct (limiter_step_inv src times l now o H0 Hn Hi) as (Hi' & Hw & Hm).
      rewrite app_assoc, <- Hw, <- Hm. eapply IH; [lia|exact Hc|exact Hi']. }
  apply (Hg ops (limiter_new max w) [] start); [done|done|].
  unfold limiter_inv. cbn [limiter_new hits window max_per_window]. rewrite lookup_empty.
  split; [apply Forall_nil_2|]. split; intros t'; change (within w t' []) with 0; lia.
Qed.
End rate.

Lemma query_rate_bound_witness :
  let ops := [Check_ 1 0; Check_ 1 1; Check_ 2 1; Check_ 1 2; Gc 5; Check_ 1 10; Check_ 1 11; Check_ 1 12] in
  0 <= 10 /\ clock 0 ops /\ accepted 1 (limiter_new 2 10) ops = [0; 1; 10; 11] /\
  within 10 1 (accepted 1 (limiter_new 2 10) ops) <= 2 * Z.max 1 2.
Proof.
  split; [lia|]. split; [cbn; lia|]. split; [vm_compute; reflexivity|].
  apply (query_rate_bound 1 2 10 1 _ 0); [lia|cbn; lia].
Defined.

Lemma query_response_witness :
  let s := ServerStatus (codes "city") None (Some (codes "private")) 1 48 1 [] None None false None
             [QueryPlayer (codes "Alice") None] ∅ 0 (codes "ok") in
  let json v := Ok (concat (name <$> players v) ++ default [] (project_desc v) ++ hostname v) in
  let bytes := encode (probe_new 7) in
  handle_query_probe json s (limiter_new 5 1000) 3 (1%Z) bytes = (Ok (codes "city"), RateLimiter 1000 5 {[1%Z := (3, 1)]}) /\
  (forall s', listed s' = false -> identity s' = identity s -> icon_b64 s' = icon_b64 s ->
    handle_query_probe json s' (limiter_new 5 1000) 3 (1%Z) bytes = (Ok (codes "city"), RateLimiter 1000 5 {[1%Z := (3, 1)]})).
Proof.
  intros s json bytes. assert (H : handle_query_probe json s (limiter_new 5 1000) 3 (1%Z) bytes =
    (Ok (codes "city"), RateLimiter 1000 5 {[1%Z := (3, 1)]})) by (vm_compute; reflexivity).
  split; [exact H|].
  apply (query_response json s (limiter_new 5 1000) (RateLimiter 1000 5 {[1%Z := (3, 1)]}) 3 (1%Z) bytes (codes "city")); [|exact H|reflexivity].
  by_decide.
Defined.

(** At the edges: a limit of zero still lets one probe through per window, and
    an unlisted server is answered with its icon; an answer that is too long loses
    the icon before the players. *)
Lemma query_gaps :
  (check (limiter_new 0 1000) 5 (1%Z)).1 = Ok tt /\
  (forall to_json s, listed s = false -> exists s', handle_query_probe to_json s (limiter_new 5 1000) 3 (1%Z) (encode (probe_new 7)) =
     (to_native_json to_json s', RateLimiter 1000 5 {[1%Z := (3, 1)]}) /\ icon_b64 s' = icon_b64 s) /\
  head SHEDDING = Some (set_icon_b64 None).
Proof.
  split; [done|]. split; [|done]. intros to_json s Hs. unfold handle_query_probe. rewrite decode_encode by done. cbn.
  rewrite Hs. eexists. split; [reflexivity|done].
Qed.
