(* ===== verification/Negotiation.v ===== *)
(** The connect-time negotiation of crates/ald-negotiation/src/lib.rs: the
    protocol range, the features and the shared capabilities. *)
From S2P Require Import Prelude RustStr Handshake.

(** ** Data *)
Record feature_id := FeatureId { namespace : text; name : text; version : Z }.
#[global] Instance feature_id_eq_dec : EqDecision feature_id.
Proof. solve_decision. Defined.

Definition key (f : feature_id) : text := namespace f ++ [58] ++ name f ++ [64] ++ decimal (version f).
Definition same_feature (a b : feature_id) : bool := bool_decide (namespace a = namespace b) && bool_decide (name a = name b).

Record hello := Hello {
  impl_name : text; impl_version : text; protocol_max : Z; protocol_min : Z;
  features_of : list feature_id; capabilities : list text }.
Definition hello_new (impl_name impl_version : text) : hello := Hello impl_name impl_version PROTOCOL_VERSION 1 [] [].
Definition with_feature (h : hello) (f : feature_id) : hello :=
  Hello (impl_name h) (impl_version h) (protocol_max h) (protocol_min h) (features_of h ++ [f]) (capabilities h).
Definition with_capability (h : hello) (c : text) : hello :=
  Hello (impl_name h) (impl_version h) (protocol_max h) (protocol_min h) (features_of h) (capabilities h ++ [c]).
Definition has_capability (h : hello) (c : text) : bool := existsb (fun x => bool_decide (x = c)) (capabilities h).

Inductive feature_outcome :=
| Selected (f : feature_id) | ClientOnlyUnsupported (f : feature_id) | RequiresClientUpdate (f : feature_id)
| RequiresServerUpdate (f : feature_id) | DisabledByPolicy (f : feature_id).
#[global] Instance feature_outcome_eq_dec : EqDecision feature_outcome.
Proof. solve_decision. Defined.

Inductive upgrade_action :=
| UpdateClient (channel min_version : text) | UpdateServer (channel min_version : text)
| UnsupportedCombination | NoAction.

Inductive protocol_negotiation :=
| Agreed (version : Z)
| ClientTooOld (client_version server_min server_max : Z) (action : upgrade_action)
| ServerTooOld (client_version server_max : Z) (action : upgrade_action)
| Incompatible (reason : string) (action : upgrade_action).

Record negotiated_set := NegotiatedSet {
  protocol : protocol_negotiation; features : gmap text feature_outcome; shared_capabilities : list text;
  allowed : bool; summary : text }.

Record negotiation_policy := Policy {
  server_protocol_min : Z; server_protocol_max : Z; server_features : list feature_id;
  server_capabilities : list text; disabled : list text; strict_required_features : list feature_id;
  client_channel : text; client_min_version : text; server_channel : text; server_min_version : text }.
Definition policy_default : negotiation_policy :=
  Policy 1 PROTOCOL_VERSION [] [] [] [] (codes "stable") (codes "1.0.0") (codes "stable") (codes "1.0.0").

Inductive negotiation_error :=
| ErrClientTooOld (client_version server_min server_max : Z) | ErrServerTooOld (client_version server_max : Z)
| ErrIncompatible (reason : string) | RequiredFeatureMissing (f : feature_id) | Malformed (m : text).

(** ** Operations *)
Definition negotiate_protocol (policy : negotiation_policy) (client : hello) : result protocol_negotiation negotiation_error :=
  if protocol_max client <? server_protocol_min policy then
    Ok (ClientTooOld (protocol_max client) (server_protocol_min policy) (server_protocol_max policy)
          (UpdateClient (client_channel policy) (client_min_version policy)))
  else if server_protocol_max policy <? protocol_min client then
    Ok (ServerTooOld (protocol_min client) (server_protocol_max policy)
          (UpdateServer (server_channel policy) (server_min_version policy)))
  else
    let common := Z.min (server_protocol_max policy) (protocol_max client) in
    if common <? Z.min (server_protocol_min policy) (protocol_max client) then
      Ok (Incompatible "no overlapping protocol version range" UnsupportedCombination)
    else Ok (Agreed common).

Definition is_disabled (policy : negotiation_policy) (cf : feature_id) : bool :=
  existsb (fun d => bool_decide (d = key cf) || bool_decide (d = namespace cf ++ [58] ++ name cf)) (disabled policy).

Definition update_problem (cf : feature_id) : text := codes "feature " ++ key cf ++ codes " needs server update".

(** One feature the client asks about. *)
Definition request_step (policy : negotiation_policy) (st : gmap text feature_outcome * list text) (cf : feature_id) :
    gmap text feature_outcome * list text :=
  let '(features, problems) := st in
  if is_disabled policy cf then (<[key cf := DisabledByPolicy cf]> features, problems)
  else match List.find (fun sf => same_feature sf cf) (server_features policy) with
  | None => (<[key cf := ClientOnlyUnsupported cf]> features, problems)
  | Some sf =>
      if version cf <=? version sf then (<[key cf := Selected cf]> features, problems)
      else (<[key cf := RequiresServerUpdate sf]> features, problems ++ [update_problem cf])
  end.

(** One feature the server offers. *)
Definition offer_step (policy : negotiation_policy) (client : hello) (features : gmap text feature_outcome) (sf : feature_id) :
    result (gmap text feature_outcome) negotiation_error :=
  if negb (existsb (fun cf => same_feature cf sf) (features_of client)) then
    if existsb (fun r => same_feature r sf) (strict_required_features policy) then Err (RequiredFeatureMissing sf)
    else Ok (<[key sf := RequiresClientUpdate sf]> features)
  else Ok features.

(** [Vec::dedup]. *)
Fixpoint dedup (l : list text) : list text :=
  match l with
  | x :: ((y :: _) as l') => if bool_decide (x = y) then dedup l' else x :: dedup l'
  | _ => l
  end.

Definition shared_of (policy : negotiation_policy) (client : hello) : list text :=
  let names := server_capabilities policy ++ (name <$> server_features policy) in
  dedup (merge_sort (fun a b => Is_true (text_leb a b)) (List.filter (fun c => bool_decide (c ∈ names)) (capabilities client))).

Definition is_selected (o : feature_outcome) : bool := match o with Selected _ => true | _ => false end.

Definition negotiate (policy : negotiation_policy) (client : hello) : result negotiated_set negotiation_error :=
  let? protocol := negotiate_protocol policy client in
  let '(features, problems) := foldl (request_step policy) (∅, []) (features_of client) in
  let? features := try_fold (offer_step policy client) features (server_features policy) in
  let shared := shared_of policy client in
  let allowed := match protocol with Agreed _ => bool_decide (problems = []) | _ => false end in
  let summary :=
    if allowed then
      codes "protocol v" ++ decimal PROTOCOL_VERSION ++ codes " agreed; " ++
      decimal (Z.of_nat (length (List.filter (fun e => is_selected e.2) (map_to_list features)))) ++
      codes " features selected; " ++ decimal (Z.of_nat (length shared)) ++ codes " shared capabilities"
    else
      codes "negotiation failed: " ++ decimal (Z.of_nat (length problems)) ++ codes " problems; first: " ++
      default [] (head problems) in
  Ok (NegotiatedSet protocol features shared allowed summary).

(** ** The protocol version *)

(** The two ranges have a common version. *)
Definition overlap (policy : negotiation_policy) (client : hello) : Prop :=
  server_protocol_min policy <= protocol_max client /\ protocol_min client <= server_protocol_max policy.

Lemma negotiate_protocol_cases policy client : server_protocol_min policy <= server_protocol_max policy ->
  negotiate_protocol policy client =
    Ok (if protocol_max client <? server_protocol_min policy then
          ClientTooOld (protocol_max client) (server_protocol_min policy) (server_protocol_max policy)
            (UpdateClient (client_channel policy) (client_min_version policy))
        else if server_protocol_max policy <? protocol_min client then
          ServerTooOld (protocol_min client) (server_protocol_max policy)
            (UpdateServer (server_channel policy) (server_min_version policy))
        else Agreed (Z.min (server_protocol_max policy) (protocol_max client))).
Proof.
  intros Hp. unfold negotiate_protocol. destruct (Z.ltb_spec (protocol_max client) (server_protocol_min policy)); [done|].
  destruct (_ <? _); [done|]. by rewrite (proj2 (Z.ltb_ge _ _)) by lia.
Qed.

Lemma agreed_spec policy client v : server_protocol_min policy <= server_protocol_max policy ->
  negotiate_protocol policy client = Ok (Agreed v) <->
  overlap policy client /\ v = Z.min (server_protocol_max policy) (protocol_max client).
Proof.
  intros Hp. rewrite negotiate_protocol_cases by done. unfold overlap.
  destruct (Z.ltb_spec (protocol_max client) (server_protocol_min policy)); [split; [done|lia]|].
  destruct (Z.ltb_spec (server_protocol_max policy) (protocol_min client)); [split; [done|lia]|].
  split; [intros [= <-]; lia|]. by intros [_ ->].
Qed.

(** ** The features *)

(** The outcome of a requested feature. *)
Definition needs_update (policy : negotiation_policy) (cf : feature_id) : bool :=
  negb (is_disabled policy cf) &&
  match List.find (fun sf => same_feature sf cf) (server_features policy) with
  | Some sf => version sf <? version cf
  | None => false
  end.
Definition outcome (policy : negotiation_policy) (cf : feature_id) : feature_outcome :=
  if is_disabled policy cf then DisabledByPolicy cf
  else match List.find (fun sf => same_feature sf cf) (server_features policy) with
  | None => ClientOnlyUnsupported cf
  | Some sf => if version cf <=? version sf then Selected cf else RequiresServerUpdate sf
  end.

Lemma request_step_outcome policy st cf :
  request_step policy st cf =
    (<[key cf := outcome policy cf]> st.1, st.2 ++ if needs_update policy cf then [update_problem cf] else []).
Proof.
  destruct st as [m ps]. unfold request_step, outcome, needs_update. cbn [fst snd].
  destruct (is_disabled policy cf); [by rewrite app_nil_r|]. destruct (List.find _ _) as [sf|]; [|by rewrite app_nil_r].
  destruct (Z.leb_spec (version cf) (version sf)); cbn [negb andb].
  - rewrite (proj2 (Z.ltb_ge _ _)) by lia. by rewrite app_nil_r.
  - by rewrite (proj2 (Z.ltb_lt _ _)) by lia.
Qed.

Lemma requests_spec policy l : forall st,
  let st' := foldl (request_step policy) st l in
  st'.2 = st.2 ++ (update_problem <$> List.filter (needs_update policy) l) /\
  (forall k o, st'.1 !! k = Some o -> st.1 !! k = Some o \/ exists cf, cf ∈ l /\ k = key cf /\ o = outcome policy cf) /\
  (forall k, is_Some (st.1 !! k) \/ (exists cf, cf ∈ l /\ k = key cf) -> is_Some (st'.1 !! k)).
Proof.
  induction l as [|cf l IH]; intros st; cbn zeta; cbn [foldl List.filter].
  - split_and!; [by rewrite app_nil_r|by left|intros k [?|(cf & Hcf & _)]; [done|set_solver]].
  - rewrite request_step_outcome. destruct (IH (<[key cf := outcome policy cf]> st.1, st.2 ++ if needs_update policy cf then [update_problem cf] else []))
      as (Hp & Hm & Hs). cbn [fst snd] in Hp, Hm, Hs. split_and!.
    + rewrite Hp, <- app_assoc. by destruct (needs_update policy cf).
    + intros k o [H|(cf' & Hin & Hk & Ho)]%Hm; [|right; exists cf'; split_and!; [by right|done..]].
      apply lookup_insert_Some in H as [[<- <-]|[_ H]]; [right; exists cf; split_and!; [left|done..]|by left].
    + intros k Hk. apply Hs. destruct (decide (k = key cf)) as [->|Hne]; [left; by rewrite lookup_insert_eq|].
      rewrite lookup_insert_ne by done. destruct Hk as [?|(cf' & Hin & Hk)]; [by left|].
      apply elem_of_cons in Hin as [->|Hin]; [done|]. right. by exists cf'.
Qed.

Definition requested (client : hello) (sf : feature_id) : bool := existsb (fun cf => same_feature cf sf) (features_of client).
Definition required (policy : negotiation_policy) (sf : feature_id) : bool :=
  existsb (fun r => same_feature r sf) (strict_required_features policy).

Lemma offers_spec policy client l : forall m r, try_fold (offer_step policy client) m l = r ->
  match r with
  | Ok m' =>
      Forall (fun sf => requested client sf || negb (required policy sf) = true) l /\
      (forall k o, m' !! k = Some o -> m !! k = Some o \/
        exists sf, sf ∈ l /\ requested client sf = false /\ k = key sf /\ o = RequiresClientUpdate sf) /\
      (forall k, is_Some (m !! k) \/ (exists sf, sf ∈ l /\ requested client sf = false /\ k = key sf) -> is_Some (m' !! k))
  | Err e => exists sf, List.find (fun sf => negb (requested client sf) && required policy sf) l = Some sf /\ e = RequiredFeatureMissing sf
  end.
Proof.
  induction l as [|sf l IH]; intros m r; cbn [try_fold].
  - intros <-. split_and!; [constructor|by left|intros k [?|(sf & Hsf & _)]; [done|set_solver]].
  - unfold offer_step at 1. fold (requested client sf). fold (required policy sf). cbn [List.find].
    destruct (requested client sf) eqn:Er; cbn [negb andb rbind].
    + intros Hr. apply IH in Hr. destruct r as [m'|e]; [|done]. destruct Hr as (Hf & Hm & Hs). split_and!.
      * constructor; [by rewrite Er|done].
      * intros k o [?|(sf' & Hin & H)]%Hm; [by left|]. right. exists sf'. split; [by right|done].
      * intros k [?|(sf' & Hin & Hn & Hk)]; [apply Hs; by left|]. apply elem_of_cons in Hin as [->|Hin]; [congruence|].
        apply Hs. right. by exists sf'.
    + destruct (required policy sf) eqn:Eq; cbn [rbind]; [intros <-; by exists sf|].
      intros Hr. apply IH in Hr. destruct r as [m'|e]; [|done]. destruct Hr as (Hf & Hm & Hs). split_and!.
      * constructor; [by rewrite Er, Eq|done].
      * intros k o [H|(sf' & Hin & H)]%Hm; [|right; exists sf'; split; [by right|done]].
        apply lookup_insert_Some in H as [[<- <-]|[_ H]]; [right; exists sf; split_and!; [left|done..]|by left].
      * intros k Hk. apply Hs. destruct (decide (k = key sf)) as [->|Hne]; [left; by rewrite lookup_insert_eq|].
        rewrite lookup_insert_ne by done. destruct Hk as [?|(sf' & Hin & Hn & Hk)]; [by left|].
        apply elem_of_cons in Hin as [->|Hin]; [done|]. right. by exists sf'.
Qed.

(** ** The capabilities *)
Lemma dedup_cons a b l : dedup (a :: b :: l) = if bool_decide (a = b) then dedup (b :: l) else a :: dedup (b :: l).
Proof. done. Qed.

Lemma elem_of_dedup l x : x ∈ dedup l <-> x ∈ l.
Proof.
  induction l as [|a l IH]; [done|]. destruct l as [|b l]; [done|]. rewrite dedup_cons.
  destruct (bool_decide_reflect (a = b)) as [->|].
  - rewrite IH. set_solver.
  - rewrite !(elem_of_cons _ x a), IH. done.
Qed.

(** In a sorted list, duplicates are adjacent. *)
Lemma dedup_NoDup l : StronglySorted (fun a b => Is_true (text_leb a b)) l -> NoDup (dedup l).
Proof.
  induction 1 as [|a l Hl IH Ha]; [constructor|]. destruct l as [|b l]; [cbn; by apply NoDup_singleton|].
  rewrite dedup_cons. destruct (bool_decide_reflect (a = b)) as [->|Hne]; [done|].
  constructor; [|done]. rewrite elem_of_dedup. intros Hin. apply Hne.
  pose proof (Forall_inv Ha) as Hab. apply text_leb_antisym; [by apply Is_true_true|].
  apply elem_of_cons in Hin as [->|Hin]; [by destruct (text_leb_total b b)|].
  apply StronglySorted_inv in Hl as [_ Hb]. rewrite Forall_forall in Hb. apply Is_true_true, Hb, Hin.
Qed.

Lemma shared_spec policy client :
  NoDup (shared_of policy client) /\
  forall c, c ∈ shared_of policy client <->
    c ∈ capabilities client /\ (c ∈ server_capabilities policy \/ exists f, f ∈ server_features policy /\ c = name f).
Proof.
  assert (Ht : Transitive (fun a b => Is_true (text_leb a b))) by (intros a b c; rewrite !Is_true_true; apply text_leb_trans).
  assert (Hto : Total (fun a b => Is_true (text_leb a b))) by (intros a b; rewrite !Is_true_true; apply text_leb_total).
  unfold shared_of. split; [apply dedup_NoDup, StronglySorted_merge_sort; done|].
  intros c. rewrite elem_of_dedup, merge_sort_Permutation, elem_of_filterb, bool_decide_eq_true, elem_of_app, list_elem_of_fmap.
  naive_solver.
Qed.

(** The negotiation is the server's: with an ordered range, it agrees on a
    version exactly when the ranges overlap, and then on the highest the client's
    maximum allows; the connection is allowed exactly when a version is agreed
    and no requested feature, unless disabled, is newer than the server's; each
    entry of the result is the outcome of a feature that was asked for or offered,
    and each of those has one; a strictly required feature the server offers is
    requested; and the shared capabilities are the common ones, each once. *)
Theorem negotiate_spec (policy : negotiation_policy) (client : hello) (s : negotiated_set) :
  server_protocol_min policy <= server_protocol_max policy ->
  negotiate policy client = Ok s ->
  (forall v, protocol s = Agreed v <-> overlap policy client /\ v = Z.min (server_protocol_max policy) (protocol_max client)) /\
  (allowed s = true <-> overlap policy client /\ forall cf, cf ∈ features_of client -> needs_update policy cf = false) /\
  (forall k o, features s !! k = Some o ->
     (exists cf, cf ∈ features_of client /\ k = key cf /\ o = outcome policy cf) \/
     (exists sf, sf ∈ server_features policy /\ requested client sf = false /\ k = key sf /\ o = RequiresClientUpdate sf)) /\
  (forall f, f ∈ features_of client \/ (f ∈ server_features policy /\ requested client f = false) -> is_Some (features s !! key f)) /\
  (forall sf, sf ∈ server_features policy -> required policy sf = true -> requested client sf = true) /\
  NoDup (shared_capabilities s) /\
  (forall c, c ∈ shared_capabilities s <->
     c ∈ capabilities client /\ (c ∈ server_capabilities policy \/ exists f, f ∈ server_features policy /\ c = name f)).
Proof.
  intros Hp. unfold negotiate. intros (p & Hpr & Hn)%rbind_ok.
  destruct (requests_spec policy (features_of client) (∅, [])) as (Hps & Hm & Hs).
  destruct (foldl _ _ _) as [m ps]. cbn [fst snd app] in *. apply rbind_ok in Hn as (m' & Ho & [= <-]).
  destruct (offers_spec _ _ _ _ _ Ho) as (Hr & Hm' & Hs'). clear Ho. cbn [protocol allowed features shared_capabilities].
  assert (Hag : forall v, p = Agreed v <-> overlap policy client /\ v = Z.min (server_protocol_max policy) (protocol_max client)).
  { intros v. rewrite <- agreed_spec, Hpr by done. naive_solver. }
  destruct (shared_spec policy client) as [Hd Hsh]. split; [done|]. split; [|split; [|split; [|split; [|done]]]].
  - assert (Hprob : ps = [] <-> forall cf, cf ∈ features_of client -> needs_update policy cf = false).
    { rewrite Hps. split.
      - intros H cf Hin. destruct (needs_update policy cf) eqn:E; [|done].
        apply fmap_nil_inv in H. assert (cf ∈ List.filter (needs_update policy) (features_of client)) by by apply elem_of_filterb.
        rewrite H in *. set_solver.
      - intros H. destruct (List.filter _ _) as [|cf l] eqn:E; [done|].
        assert (cf ∈ List.filter (needs_update policy) (features_of client)) as [Hin Hn]%elem_of_filterb by (rewrite E; left).
        by rewrite H in Hn. }
    rewrite <- Hprob. destruct p as [v| | |]; [rewrite bool_decide_eq_true; destruct (proj1 (Hag v) eq_refl); tauto|..];
      (split; [done|]; intros [Hov _]; by specialize (proj2 (Hag _) (conj Hov eq_refl))).
  - intros k o [H|(sf & ? & ? & ? & ?)]%Hm'; [|right; by exists sf]. apply Hm in H as [H|?]; [done|by left].
  - intros f [Hf|[Hf Hn]]; apply Hs'; [left; apply Hs; right; by exists f|right; by exists f].
  - intros sf Hin Hq. rewrite Forall_forall in Hr. specialize (Hr sf Hin). rewrite Hq in Hr. by destruct (requested client sf).
Qed.

Definition sample_policy : negotiation_policy :=
  Policy 1 5 [FeatureId (codes "ald") (codes "bags") 2; FeatureId (codes "ald") (codes "dui") 1] [codes "opus"]
    [codes "ald:dui"] [FeatureId (codes "ald") (codes "bags") 1] [] [] [] [].
Definition sample_client : hello :=
  Hello [] [] 3 1 [FeatureId (codes "ald") (codes "bags") 2; FeatureId (codes "ald") (codes "dui") 9] [codes "opus"; codes "dui"; codes "opus"].

Lemma negotiate_spec_witness :
  exists s, negotiate sample_policy sample_client = Ok s /\ protocol s = Agreed 3 /\ allowed s = true /\
    shared_capabilities s = [codes "dui"; codes "opus"] /\ NoDup (shared_capabilities s) /\
    forall f, f ∈ features_of sample_client \/ (f ∈ server_features sample_policy /\ requested sample_client f = false) ->
      is_Some (features s !! key f).
Proof.
  eexists. split; [vm_compute; reflexivity|]. do 3 (split; [reflexivity|]).
  match goal with |- NoDup (shared_capabilities ?s) /\ _ =>
    destruct (negotiate_spec sample_policy sample_client s) as (_ & _ & _ & Hf & _ & Hd & _) end;
    [vm_compute; congruence|vm_compute; reflexivity|]. split; [exact Hd|exact Hf].
Defined.

(** Keys tell features apart when a namespace has no colon and a name no at
    sign. *)
Lemma key_inj a b :
  58 ∉ namespace a -> 58 ∉ namespace b -> 64 ∉ name a -> 64 ∉ name b -> fits 32 (version a) -> fits 32 (version b) ->
  key a = key b -> a = b.
Proof.
  intros Hna Hnb Ha Hb Hva Hvb. unfold key. cbn [app]. intros Hk.
  assert (H1 := f_equal (split_once 58) Hk). rewrite !split_once_first in H1 by done. injection H1 as Hns Hrest.
  assert (H2 := f_equal (split_once 64) Hrest). rewrite !split_once_first in H2 by done. injection H2 as Hnm Hv.
  assert (Hd : forall v, fits 32 v -> digits_val (decimal v) = v).
  { intros v Hf. unfold decimal. destruct (digits_shape 9 v []) as (ds & _ & -> & _ & Hds).
    - unfold fits in Hf. change (2 ^ 32) with 4294967296 in Hf. change (10 ^ Z.of_nat 10) with 10000000000. lia.
    - by rewrite app_nil_r. }
  destruct a as [na ma va], b as [nb mb vb]. cbn [namespace name version] in *.
  rewrite <- (Hd va), <- (Hd vb), Hv by done. by subst.
Qed.

(** At the edges: only the first offer of a feature counts; the summary prints
    the newest version, not the agreed one; a strict feature the server does not
    offer is not enforced; a client whose range is empty is agreed a version below
    its minimum; and two features may share a key. *)
Lemma negotiation_gaps :
  (let p := Policy 1 1 [FeatureId [97] [98] 1; FeatureId [97] [98] 3] [] [] [] [] [] [] [] in
   let c := Hello [] [] 1 1 [FeatureId [97] [98] 2] [] in
   allowed <$> (match negotiate p c with Ok s => Some s | Err _ => None end) = Some false) /\
  (let p := Policy 1 5 [] [] [] [FeatureId [97] [98] 1] [] [] [] [] in
   let c := Hello [] [] 2 3 [] [] in
   match negotiate p c with
   | Ok s => (allowed s, protocol s, summary s)
   | Err _ => (false, Incompatible EmptyString NoAction, [])
   end = (true, Agreed 2, codes "protocol v1 agreed; 0 features selected; 0 shared capabilities")) /\
  key (FeatureId (codes "a:b") (codes "c") 1) = key (FeatureId (codes "a") (codes "b:c") 1).
Proof. split_and!; vm_compute; reflexivity. Qed.
