(* ===== verification/Access.v ===== *)
(** Who may do what: the roles of crates/ald-permissions/src/lib.rs, the event
    bus of crates/ald-events/src/lib.rs, the request registry of
    crates/ald-rpc/src/lib.rs and the entitlements of
    crates/ald-entitlement/src/lib.rs. *)
From S2P Require Import Prelude RustStr.

Module Permissions.
Inductive role := Owner | SuperAdmin | Admin | Moderator | Developer | Support | ReadOnly.
#[global] Instance role_eq_dec : EqDecision role.
Proof. solve_decision. Defined.
Definition ROLES : list role := [Owner; SuperAdmin; Admin; Moderator; Developer; Support; ReadOnly].
#[global] Instance role_countable : Countable role.
Proof.
  refine (inj_countable' (fun r => match r with Owner => 0%nat | SuperAdmin => 1%nat | Admin => 2%nat | Moderator => 3%nat
    | Developer => 4%nat | Support => 5%nat | ReadOnly => 6%nat end) (fun n => default Owner (ROLES !! n)) _). by intros [].
Defined.

Definition name (r : role) : string :=
  match r with
  | Owner => "Owner" | SuperAdmin => "SuperAdmin" | Admin => "Admin" | Moderator => "Moderator"
  | Developer => "Developer" | Support => "Support" | ReadOnly => "ReadOnly"
  end.

Definition default_permissions (r : role) : list string :=
  match r with
  | Owner => ["*"]
  | SuperAdmin => ["players.read"; "players.kick"; "players.ban"; "players.identity.read"; "players.identity.device.read";
      "players.identity.network.read"; "resources.*"; "server.*"; "console.execute"; "deployment.*"; "audit.read"; "config.edit"]
  | Admin => ["players.read"; "players.kick"; "players.ban"; "players.identity.read"; "resources.restart";
      "resources.configure"; "server.restart"; "console.execute"; "audit.read"]
  | Moderator => ["players.read"; "players.kick"; "players.identity.read"]
  | Developer => ["players.read"; "resources.restart"; "resources.configure"; "server.restart"; "console.execute"; "audit.read"]
  | Support => ["players.read"; "players.identity.read"; "audit.read"]
  | ReadOnly => ["players.read"; "audit.read"]
  end%string.

Record access_control := AccessControl {
  role_permissions : gmap role (gset text); assignments : gmap text role; grants : gmap text (gset text) }.

Definition default_set (r : role) : gset text := list_to_set (codes <$> default_permissions r).
Definition access_new : access_control :=
  AccessControl (foldl (fun m r => <[r := default_set r]> m) ∅ ROLES) ∅ ∅.

Definition assign (ac : access_control) (principal : text) (r : role) : access_control :=
  AccessControl (role_permissions ac) (<[principal := r]> (assignments ac)) (grants ac).
Definition unassign (ac : access_control) (principal : text) : access_control :=
  AccessControl (role_permissions ac) (delete principal (assignments ac)) (grants ac).
Definition grant (ac : access_control) (principal permission : text) : access_control :=
  AccessControl (role_permissions ac) (assignments ac)
    (<[principal := {[permission]} ∪ default ∅ (grants ac !! principal)]> (grants ac)).

(** The closure [allowed] of [check]. *)
Definition allowed (permission p : text) : bool :=
  verb_is p "*" || bool_decide (p = permission) ||
  match split_once 46 permission with Some (scope, _) => bool_decide (p = scope ++ codes ".*") | None => false end.

Definition check (ac : access_control) (principal permission : text) : bool :=
  match assignments ac !! principal with
  | None => false
  | Some r =>
      let any (perms : option (gset text)) :=
        match perms with Some ps => existsb (allowed permission) (elements ps) | None => false end in
      any (role_permissions ac !! r) || any (grants ac !! principal)
  end.

(** *** What a check means *)

(** A pattern covers a permission: everything, the permission itself, or all of
    its first scope. *)
Definition covers (p permission : text) : Prop :=
  p = codes "*" \/ p = permission \/
  exists scope rest, 46 ∉ scope /\ permission = scope ++ 46 :: rest /\ p = scope ++ codes ".*".

Lemma split_once_some c l a b : split_once c l = Some (a, b) -> c ∉ a /\ l = a ++ c :: b.
Proof.
  revert a. induction l as [|x l IH]; intros a; [done|]. cbn. destruct (Z.eqb_spec x c) as [->|Hne].
  - intros [= <- <-]. split; [set_solver|done].
  - destruct (split_once c l) as [[a' b']|]; [|done]. intros [= <- <-]. destruct (IH a' eq_refl) as [H ->].
    split; [set_solver|done].
Qed.

Lemma allowed_spec permission p : allowed permission p = true <-> covers p permission.
Proof.
  unfold allowed, covers, verb_is. rewrite !orb_true_iff, !bool_decide_eq_true. split.
  - intros [[?|?]|H]; [by left|by right; left|right; right].
    destruct (split_once 46 permission) as [[a b]|] eqn:E; [|done]. apply bool_decide_eq_true in H.
    apply split_once_some in E as [? ?]. by exists a, b.
  - intros [?|[?|(scope & rest & Hs & -> & ->)]]; [by left; left|by left; right|right].
    rewrite split_once_first by done. by apply bool_decide_eq_true.
Qed.

(** *** Histories *)
Inductive op := Assign (principal : text) (r : role) | Unassign (principal : text) | Grant (principal permission : text).
Definition step (ac : access_control) (o : op) : access_control :=
  match o with Assign p r => assign ac p r | Unassign p => unassign ac p | Grant p q => grant ac p q end.

(** The role of the last assignment that was not taken back; the permissions
    ever granted. *)
Definition role_after (principal : text) (hist : list op) : option role :=
  foldl (fun r o => match o with
    | Assign p q => if bool_decide (p = principal) then Some q else r
    | Unassign p => if bool_decide (p = principal) then None else r
    | Grant _ _ => r
    end) None hist.
Definition granted (principal permission : text) (hist : list op) : Prop := Grant principal permission ∈ hist.

Lemma role_permissions_new r : role_permissions access_new !! r = Some (default_set r).
Proof. by destruct r. Qed.

Lemma access_state hist :
  let ac := run step access_new hist in
  role_permissions ac = role_permissions access_new /\
  (forall p, assignments ac !! p = role_after p hist) /\
  (forall p q, q ∈ default ∅ (grants ac !! p) <-> granted p q hist).
Proof.
  cbn zeta. induction hist as [|o hist (Hr & Ha & Hg)] using rev_ind.
  { split_and!; [done|done|]. intros p q. unfold granted. cbn. rewrite lookup_empty. cbn. split; [set_solver|by intros ?%elem_of_nil]. }
  rewrite run_app. set (ac := run step access_new hist) in *. cbn [run foldl].
  unfold role_after, granted in *. split; [by destruct o|]. split.
  - intros p. rewrite foldl_app. cbn [foldl]. destruct o as [p' r|p'|p' q]; cbn; [| |apply Ha].
    + destruct (bool_decide_reflect (p' = p)) as [->|]; by rewrite ?lookup_insert_eq, ?lookup_insert_ne.
    + destruct (bool_decide_reflect (p' = p)) as [->|]; by rewrite ?lookup_delete_eq, ?lookup_delete_ne.
  - intros p q. rewrite elem_of_app, list_elem_of_singleton, <- Hg. destruct o as [p' r|p'|p' q']; cbn [step assign unassign grant grants].
    + naive_solver.
    + naive_solver.
    + destruct (decide (p' = p)) as [->|Hne]; [rewrite lookup_insert_eq; cbn; set_solver|].
      rewrite lookup_insert_ne by done. naive_solver.
Qed.

(** C25: A check succeeds exactly when the principal has a role and the role's
    default permissions, or a permission granted to the principal, cover what is
    asked: by the wildcard, literally, or by the wildcard of its first scope. *)
Theorem access_history (hist : list op) (principal permission : text) :
  check (run step access_new hist) principal permission = true <->
  exists r, role_after principal hist = Some r /\
    exists p, covers p permission /\ (p ∈ codes <$> default_permissions r \/ granted principal p hist).
Proof.
  destruct (access_state hist) as (Hr & Ha & Hg). unfold check. rewrite Ha.
  destruct (role_after principal hist) as [r|]; [|split; [done|by intros (? & ? & _)]].
  rewrite Hr, role_permissions_new, orb_true_iff, existsb_elem. split.
  - intros [(p & Hp & Hc)|H].
    + exists r. split; [done|]. exists p. rewrite <- allowed_spec. split; [done|]. left. unfold default_set in Hp. set_solver.
    + destruct (grants _ !! principal) as [ps|] eqn:E; [|done]. apply existsb_elem in H as (p & Hp & Hc).
      exists r. split; [done|]. exists p. rewrite <- allowed_spec. split; [done|]. right. apply Hg. rewrite E. cbn. set_solver.
  - intros (r' & [= <-] & p & Hc & [Hd|Hgr]); rewrite <- allowed_spec in Hc.
    + left. exists p. split; [|done]. unfold default_set. set_solver.
    + right. apply Hg in Hgr. destruct (grants _ !! principal) as [ps|]; cbn in Hgr; [|set_solver].
      apply existsb_elem. exists p. split; [set_solver|done].
Qed.

(** The roles are ordered: what a role may do by default, the roles above it may
    do. *)
Definition role_allows (r : role) (permission : text) : bool := existsb (allowed permission) (codes <$> default_permissions r).
Definition below : list (role * role) :=
  [(ReadOnly, Support); (ReadOnly, Developer); (Support, Admin); (Moderator, Admin); (Developer, Admin); (Admin, SuperAdmin); (SuperAdmin, Owner)].

(** Without a wildcard at its end, a pattern covers only itself. *)
Lemma plain_covers p permission : p <> codes "*" -> last p <> Some 42 -> covers p permission -> permission = p.
Proof.
  intros Hs Hl [?|[->|(scope & rest & _ & -> & ->)]]; [done|done|]. destruct Hl. change (codes ".*") with ([46] ++ [42]).
  by rewrite app_assoc, last_snoc.
Qed.

Lemma owner_allows permission : role_allows Owner permission = true.
Proof. done. Qed.

Lemma role_order lower upper permission :
  (lower, upper) ∈ below -> role_allows lower permission = true -> role_allows upper permission = true.
Proof.
  intros Hb Hl. destruct (decide (upper = Owner)) as [->|Ho]; [apply owner_allows|].
  apply existsb_elem in Hl as (p & Hp & Hc). apply allowed_spec in Hc.
  assert (Hplain : Forall (fun p => p <> codes "*" /\ last p <> Some 42) (codes <$> default_permissions lower)).
  { unfold below in Hb. rewrite !elem_of_cons, elem_of_nil in Hb. destruct Hb as [Hb|[Hb|[Hb|[Hb|[Hb|[Hb|[Hb|[]]]]]]]]; injection Hb as -> ->; try done; by_decide. }
  rewrite Forall_forall in Hplain. destruct (Hplain p Hp) as [Hs Hw]. apply plain_covers in Hc as ->; [|done|done].
  assert (Hall : Forall (fun p => role_allows upper p = true) (codes <$> default_permissions lower)).
  { unfold below in Hb. rewrite !elem_of_cons, elem_of_nil in Hb. destruct Hb as [Hb|[Hb|[Hb|[Hb|[Hb|[Hb|[Hb|[]]]]]]]]; injection Hb as -> ->; by_decide. }
  rewrite Forall_forall in Hall. by apply Hall.
Qed.
End Permissions.

Module Events.
Inductive handler_priority := Low | Normal | High | Critical.
#[global] Instance handler_priority_eq_dec : EqDecision handler_priority.
Proof. solve_decision. Defined.
Definition rank (p : handler_priority) : Z := match p with Low => 0 | Normal => 1 | High => 2 | Critical => 3 end.

Definition PROTECTED_NAMESPACES : list string := ["ald"; "framework"; "server"; "internal"]%string.
Inductive event_error := CapabilityDenied (namespace : text) | Failed (message : text).

(** A handler closure is a name of type [H]; what calling it does to the bus and
    to the rest of the program, of type [W], is the parameter [invoke]. *)
Section bus.
Context {H V W : Type}.

Record event_handler := EventHandler { resource : text; priority : handler_priority; handler : H }.
Abbreviation event_bus := (gmap text (list event_handler)).
Definition bus_new : event_bus := ∅.

Definition protected (event resource : text) : option text :=
  match split_once 58 event with
  | Some (ns, _) => if one_of ns PROTECTED_NAMESPACES && negb (starts_with (codes "core/") resource) then Some ns else None
  | None => None
  end.

Definition register (bus : event_bus) (event : text) (h : event_handler) : result event_bus event_error :=
  match protected event (resource h) with
  | Some ns => Err (CapabilityDenied ns)
  | None => Ok (<[event := sort_by (fun h => - rank (priority h)) (default [] (bus !! event) ++ [h])]> bus)
  end.

Definition unregister_resource (bus : event_bus) (r : text) : event_bus :=
  List.filter (fun h => negb (bool_decide (resource h = r))) <$> bus.

Context (invoke : H -> text -> V -> event_bus * W -> result unit event_error * (event_bus * W)).

Fixpoint call_all (hs : list H) (event : text) (data : V) (st : event_bus * W) (count : Z) :
    result Z event_error * (event_bus * W) :=
  match hs with
  | [] => (Ok count, st)
  | h :: hs =>
      match invoke h event data st with
      | (Err e, st) => (Err e, st)
      | (Ok _, st) => call_all hs event data st (count + 1)
      end
  end.
Definition dispatch (event : text) (data : V) (st : event_bus * W) : result Z event_error * (event_bus * W) :=
  call_all (handler <$> default [] (st.1 !! event)) event data st 0.
End bus.
Arguments event_handler H : clear implicits.
Abbreviation event_bus H := (gmap text (list (event_handler H))).

(** *** The order of the handlers *)
Section order.
Context {H : Type}.
Abbreviation neg_rank := (fun h : event_handler H => - rank (priority h)).

Definition of_priority (p : handler_priority) (h : event_handler H) : bool := bool_decide (priority h = p).

(** By priority, and for each priority by registration. *)
Definition in_priority_order (l : list (event_handler H)) : list (event_handler H) :=
  List.filter (of_priority Critical) l ++ List.filter (of_priority High) l ++
  List.filter (of_priority Normal) l ++ List.filter (of_priority Low) l.

Lemma insert_by_app x a b : Forall (fun y => neg_rank y < neg_rank x) a ->
  insert_by neg_rank x (a ++ b) = a ++ insert_by neg_rank x b.
Proof.
  induction 1 as [|y a Hy Ha IH]; [done|]. cbn [app insert_by]. rewrite (proj2 (Z.leb_gt _ _)) by lia. by rewrite IH.
Qed.

Lemma insert_by_here x b : Forall (fun y => neg_rank x <= neg_rank y) b -> insert_by neg_rank x b = x :: b.
Proof. destruct 1 as [|y b Hy _]; [done|]. cbn [insert_by]. by rewrite (proj2 (Z.leb_le _ _)). Qed.

Lemma of_priority_all p l : Forall (fun h => priority h = p) (List.filter (of_priority p) l).
Proof. apply Forall_forall. intros h [_ Hh]%elem_of_filterb. by apply bool_decide_eq_true in Hh. Qed.

Lemma of_priority_cons p x l :
  List.filter (of_priority p) (x :: l) = (if bool_decide (priority x = p) then [x] else []) ++ List.filter (of_priority p) l.
Proof. cbn [List.filter]. change (of_priority p x) with (bool_decide (priority x = p)). by destruct (bool_decide _). Qed.

Lemma sort_in_priority_order l : sort_by neg_rank l = in_priority_order l.
Proof.
  induction l as [|x l IH]; [done|]. cbn [sort_by foldr]. change (foldr _ [] l) with (sort_by neg_rank l). rewrite IH. clear IH.
  unfold in_priority_order. rewrite !of_priority_cons.
  pose proof (of_priority_all Critical l) as H3. pose proof (of_priority_all High l) as H2.
  pose proof (of_priority_all Normal l) as H1. pose proof (of_priority_all Low l) as H0.
  generalize dependent (List.filter (of_priority Critical) l). generalize dependent (List.filter (of_priority High) l).
  generalize dependent (List.filter (of_priority Normal) l). generalize dependent (List.filter (of_priority Low) l).
  intros w Hw n Hn h Hh c Hc.
  assert (Hbefore : forall q a, Forall (fun y : event_handler H => priority y = q) a -> rank (priority x) < rank q ->
    Forall (fun y => neg_rank y < neg_rank x) a).
  { intros q a Ha Hlt. eapply Forall_impl; [exact Ha|]. cbn. intros y ->. lia. }
  assert (Hafter : forall q a, Forall (fun y : event_handler H => priority y = q) a -> rank q <= rank (priority x) ->
    Forall (fun y => neg_rank x <= neg_rank y) a).
  { intros q a Ha Hlt. eapply Forall_impl; [exact Ha|]. cbn. intros y ->. lia. }
  destruct (priority x) eqn:Ep;
    rewrite ?(insert_by_app x c), ?(insert_by_app x h), ?(insert_by_app x n) by (eapply Hbefore; [eassumption|cbn; lia]);
    rewrite insert_by_here by (repeat apply Forall_app_2; eapply Hafter; (eassumption || (cbn; lia))); cbn;
    by rewrite <- ?app_assoc.
Qed.

Lemma in_order_filter (f : event_handler H -> bool) l :
  List.filter f (in_priority_order l) = in_priority_order (List.filter f l).
Proof.
  unfold in_priority_order. rewrite !List.filter_app.
  assert (Hc : forall p, List.filter f (List.filter (of_priority p) l) = List.filter (of_priority p) (List.filter f l)).
  { intros p. induction l as [|x l' IH]; [done|]. cbn [List.filter].
    destruct (of_priority p x) eqn:Ep, (f x) eqn:Ef; cbn [List.filter]; rewrite ?Ep, ?Ef, IH; done. }
  by rewrite !Hc.
Qed.

Lemma in_order_twice l h : in_priority_order (in_priority_order l ++ [h]) = in_priority_order (l ++ [h]).
Proof.
  assert (Hs : forall p, List.filter (of_priority p) (in_priority_order l) = List.filter (of_priority p) l).
  { intros p. rewrite in_order_filter. unfold in_priority_order.
    assert (Hq : forall q, List.filter (of_priority q) (List.filter (of_priority p) l) = if decide (p = q) then List.filter (of_priority p) l else []).
    { intros q. pose proof (of_priority_all p l) as Hall. induction Hall as [|x a Hx Ha IH]; [by destruct (decide _)|].
      rewrite of_priority_cons, IH, Hx. by destruct (decide (p = q)) as [->|]; [rewrite bool_decide_eq_true_2|rewrite bool_decide_eq_false_2]. }
    rewrite !Hq. by destruct p; cbn; rewrite ?app_nil_r. }
  unfold in_priority_order at 1. rewrite !List.filter_app, !Hs. unfold in_priority_order. by rewrite !List.filter_app.
Qed.

(** *** Histories *)
Inductive bus_op := Register (event : text) (h : event_handler H) | Unregister (resource : text).
Definition bus_step (b : event_bus H) (o : bus_op) : event_bus H :=
  match o with
  | Register event h => match register b event h with Ok b => b | Err _ => b end
  | Unregister r => unregister_resource b r
  end.

(** The handlers of an event that were let in and whose resource was not removed
    since, in the order of their registration. *)
Definition registered (event : text) (hist : list bus_op) : list (event_handler H) :=
  foldl (fun l o => match o with
    | Register e h => if bool_decide (e = event) && bool_decide (protected event (resource h) = None) then l ++ [h] else l
    | Unregister r => List.filter (fun h => negb (bool_decide (resource h = r))) l
    end) [] hist.

Lemma bus_state event hist : default [] (run bus_step bus_new hist !! event) = in_priority_order (registered event hist).
Proof.
  induction hist as [|o hist IH] using rev_ind; [done|].
  rewrite run_app. set (b := run bus_step bus_new hist) in *. unfold registered. rewrite foldl_app.
  fold (registered event hist). cbn [run foldl]. destruct o as [e h|r]; cbn [bus_step].
  - unfold register. destruct (bool_decide_reflect (e = event)) as [->|Hne]; cbn [andb].
    + destruct (protected event (resource h)) as [ns|]; [by rewrite bool_decide_eq_false_2|].
      rewrite bool_decide_eq_true_2 by done. cbn beta iota. rewrite lookup_insert_eq. cbn [default]. by rewrite sort_in_priority_order, IH, in_order_twice.
    + destruct (protected e (resource h)); [done|]. cbn beta iota. by rewrite lookup_insert_ne.
  - unfold unregister_resource. rewrite lookup_fmap, <- in_order_filter, <- IH. by destruct (b !! event).
Qed.

Lemma registered_admitted event hist : Forall (fun h => protected event (resource h) = None) (registered event hist).
Proof.
  induction hist as [|o hist IH] using rev_ind; [constructor|]. unfold registered. rewrite foldl_app. fold (registered event hist).
  cbn [foldl]. destruct o as [e h|r].
  - destruct (bool_decide_reflect (e = event)); cbn [andb]; [|done]. destruct (bool_decide_reflect (protected event (resource h) = None)); [|done].
    apply Forall_app. split; [done|]. by repeat constructor.
  - eapply Forall_sublist; [apply filterb_sublist|done].
Qed.

Lemma elem_of_priority_order h l : h ∈ in_priority_order l -> h ∈ l.
Proof. unfold in_priority_order. rewrite !elem_of_app, !elem_of_filterb. tauto. Qed.

Section deliver.
Context {V W : Type} (invoke : H -> text -> V -> event_bus H * W -> result unit event_error * (event_bus H * W)).

(** Calling [hs] one after the other, each with success. *)
Fixpoint delivered (event : text) (data : V) (hs : list H) (st st' : event_bus H * W) : Prop :=
  match hs with
  | [] => st' = st
  | h :: hs => exists st1, invoke h event data st = (Ok tt, st1) /\ delivered event data hs st1 st'
  end.

Lemma call_all_spec event data hs : forall st n r st', call_all invoke hs event data st n = (r, st') ->
  match r with
  | Ok m => m = n + Z.of_nat (length hs) /\ delivered event data hs st st'
  | Err e => exists before h after st1, hs = before ++ h :: after /\ delivered event data before st st1 /\
      invoke h event data st1 = (Err e, st')
  end.
Proof.
  induction hs as [|h hs IH]; intros st n r st'; cbn [call_all].
  - intros [= <- <-]. cbn. split; [lia|done].
  - destruct (invoke h event data st) as [[[]|e] st1] eqn:Ei.
    + intros Hc. apply IH in Hc. destruct r as [m|e].
      * destruct Hc as [-> Hd]. cbn [length]. split; [lia|]. by exists st1.
      * destruct Hc as (before & h' & after & st2 & -> & Hd & Hi). exists (h :: before), h', after, st2.
        split; [done|]. split; [|done]. by exists st1.
    + intros [= <- <-]. by exists [], h, hs, st.
Qed.

(** After any registrations and removals, a dispatch calls the handlers that
    are registered for the event at that moment, by priority and then in the order
    of registration, whatever they do to the bus meanwhile: all of them, and it
    returns their number, or up to the first that fails, whose error it returns.
    Only core resources handle the events of a protected namespace. *)
Theorem event_delivery (hist : list bus_op) (event : text) (data : V) (w : W) (r : result Z event_error) (st' : event_bus H * W) :
  let hs := in_priority_order (registered event hist) in
  dispatch invoke event data (run bus_step bus_new hist, w) = (r, st') ->
  match r with
  | Ok n => n = Z.of_nat (length hs) /\ delivered event data (handler <$> hs) (run bus_step bus_new hist, w) st'
  | Err e => exists before h after st1, hs = before ++ h :: after /\
      delivered event data (handler <$> before) (run bus_step bus_new hist, w) st1 /\ invoke (handler h) event data st1 = (Err e, st')
  end /\
  forall ns rest h, 58 ∉ ns -> event = ns ++ 58 :: rest -> one_of ns PROTECTED_NAMESPACES = true -> h ∈ hs ->
    starts_with (codes "core/") (resource h) = true.
Proof.
  cbn zeta. unfold dispatch. cbn [fst]. rewrite bus_state. intros Hc. split.
  - apply call_all_spec in Hc. destruct r as [n|e]; [by rewrite length_fmap in Hc|].
    destruct Hc as (before & h & after & st1 & Hs & Hd & Hi). apply fmap_app_inv in Hs as (b' & r' & -> & Hr & Hs).
    destruct r' as [|h' a']; [done|]. injection Hr as -> ->. exists b', h', a', st1. split; [by rewrite Hs|done].
  - intros ns rest h Hns -> Hp Hh. apply elem_of_priority_order in Hh. pose proof (registered_admitted (ns ++ 58 :: rest) hist) as Ha.
    rewrite Forall_forall in Ha. specialize (Ha h Hh). unfold protected in Ha. rewrite split_once_first, Hp in Ha by done.
    by destruct (starts_with _ _).
Qed.
End deliver.
End order.

(** Two handlers of a namespace that core owns; the second fails, and the first
    removes it from the bus while the event is delivered. *)
Lemma event_delivery_witness :
  let hist := [Register (codes "server:stop") (EventHandler (codes "core/b") Low 2); Register (codes "server:stop") (EventHandler (codes "core/a") High 1);
               Register (codes "server:stop") (EventHandler (codes "evil") Critical 9)] in
  let invoke (h : Z) (e : text) (d : unit) (st : event_bus Z * list Z) :=
    (if h =? 2 then Err (Failed []) else Ok tt, (unregister_resource st.1 (codes "core/b"), st.2 ++ [h])) in
  exists st', dispatch invoke (codes "server:stop") tt (run bus_step bus_new hist, []) = (Err (Failed []), st') /\ st'.2 = [1; 2] /\
    exists before h after st1, in_priority_order (registered (codes "server:stop") hist) = before ++ h :: after /\
      delivered invoke (codes "server:stop") tt (handler <$> before) (run bus_step bus_new hist, []) st1 /\
      invoke (handler h) (codes "server:stop") tt st1 = (Err (Failed []), st').
Proof.
  intros hist invoke. set (d := dispatch invoke (codes "server:stop") tt (run bus_step bus_new hist, [])).
  assert (Hr : d.1 = Err (Failed [])) by (vm_compute; reflexivity). assert (Hl : d.2.2 = [1; 2]) by (vm_compute; reflexivity).
  destruct d as [r st'] eqn:E. cbn [fst snd] in Hr, Hl. subst r. exists st'. split; [done|]. split; [done|].
  destruct (event_delivery invoke hist (codes "server:stop") tt [] (Err (Failed [])) st' E) as [H _]. exact H.
Defined.
End Events.

Module Rpc.
Inductive rpc_direction := ClientToServer | ServerToClient | ResourceToResource.

Section rpc.
Context {V : Type}.

Record rpc_request := RpcRequest {
  id : Z; method : text; payload : V; direction : rpc_direction; owner : text; created : Z }.
Record rpc_response := RpcResponse { resp_id : Z; ok : bool; error : option text; data : option V }.
Definition success (id : Z) (data : V) : rpc_response := RpcResponse id true None (Some data).
Definition failure (id : Z) (error : text) : rpc_response := RpcResponse id false (Some error) None.

(** An [Instant] is a number of milliseconds; [timeouts] are the durations. *)
Record rpc_registry := RpcRegistry { pending : gmap Z rpc_request; next_id : Z; timeouts : list (Z * Z) }.
Definition registry_new : rpc_registry := RpcRegistry ∅ 0 [].

Definition new_request (g : rpc_registry) (method : text) (payload : V) (direction : rpc_direction) (owner : text) (now : Z) :
    rpc_request * rpc_registry :=
  let n := wrap 64 (next_id g + 1) in
  (RpcRequest n method payload direction owner now, RpcRegistry (pending g) n (timeouts g)).

Definition track (g : rpc_registry) (req : rpc_request) (timeout : Z) : rpc_registry :=
  RpcRegistry (<[id req := req]> (pending g)) (next_id g) (timeouts g ++ [(timeout, id req)]).

Definition resolve (g : rpc_registry) (resp : rpc_response) : option rpc_request * rpc_registry :=
  (pending g !! resp_id resp, RpcRegistry (delete (resp_id resp) (pending g)) (next_id g) (timeouts g)).

(** The closure of [retain]: what is kept and what has expired. *)
Fixpoint sweep (pending : gmap Z rpc_request) (now : Z) (l : list (Z * Z)) : list (Z * Z) * list Z :=
  match l with
  | [] => ([], [])
  | (dur, i) :: l =>
      let '(kept, expired) := sweep pending now l in
      match pending !! i with
      | Some req => if dur <=? sat_sub now (created req) then (kept, i :: expired) else ((dur, i) :: kept, expired)
      | None => (kept, expired)
      end
  end.

Definition expire (g : rpc_registry) (now : Z) : list Z * rpc_registry :=
  let '(kept, expired) := sweep (pending g) now (timeouts g) in
  (expired, RpcRegistry (foldl (fun m i => delete i m) (pending g) expired) (next_id g) kept).

Definition pending_count (g : rpc_registry) : nat := size (pending g).

(** *** No request stays unresolved *)
Inductive op :=
| NewRequest (method : text) (payload : V) (direction : rpc_direction) (owner : text) (now : Z)
| Track (req : rpc_request) (timeout : Z) | Resolve (resp : rpc_response) | Expire (now : Z).
Definition step (g : rpc_registry) (o : op) : rpc_registry :=
  match o with
  | NewRequest m p d o now => (new_request g m p d o now).2
  | Track req t => track g req t
  | Resolve r => (resolve g r).2
  | Expire now => (expire g now).2
  end.

(** Every pending request has a timeout, and is kept under its own id. *)
Definition covered (g : rpc_registry) : Prop :=
  forall i req, pending g !! i = Some req -> id req = i /\ exists d, (d, i) ∈ timeouts g.

Definition due (g : rpc_registry) (now d i : Z) : Prop :=
  exists req, pending g !! i = Some req /\ d <= sat_sub now (created req).

Lemma sweep_cons m now d j l :
  sweep m now ((d, j) :: l) =
    (match m !! j with Some req => if d <=? sat_sub now (created req) then [] else [(d, j)] | None => [] end ++ (sweep m now l).1,
     match m !! j with Some req => if d <=? sat_sub now (created req) then [j] else [] | None => [] end ++ (sweep m now l).2).
Proof. cbn [sweep]. destruct (sweep m now l) as [kept ex]. destruct (m !! j) as [req|]; [|done]. by destruct (_ <=? _). Qed.

Lemma sweep_spec m now l :
  (forall i, i ∈ (sweep m now l).2 <-> exists d req, (d, i) ∈ l /\ m !! i = Some req /\ d <= sat_sub now (created req)) /\
  (forall d i, (d, i) ∈ (sweep m now l).1 <-> (d, i) ∈ l /\ exists req, m !! i = Some req /\ sat_sub now (created req) < d).
Proof.
  induction l as [|[dur j] l [IHe IHk]]; [cbn; split; intros; set_solver|]. rewrite sweep_cons. cbn [fst snd].
  split; [intros i; rewrite elem_of_app, IHe|intros d i; rewrite elem_of_app, IHk]; clear IHe IHk; split.
  - intros [H|(d & req & Hin & H)]; [|exists d, req; split; [by right|done]].
    destruct (m !! j) as [req|] eqn:Em; [|set_solver]. destruct (Z.leb_spec dur (sat_sub now (created req))); [|set_solver].
    apply list_elem_of_singleton in H as ->. exists dur, req. split; [left|done].
  - intros (d & req & [[= -> ->]|Hin]%elem_of_cons & Hm & Hle); [|right; by exists d, req].
    left. rewrite Hm, (proj2 (Z.leb_le _ _)) by done. left.
  - intros [H|[Hin H]]; [|split; [by right|done]].
    destruct (m !! j) as [req|] eqn:Em; [|set_solver]. destruct (Z.leb_spec dur (sat_sub now (created req))); [set_solver|].
    apply list_elem_of_singleton in H as [= -> ->]. split; [left|]. by exists req.
  - intros ([[= -> ->]|Hin]%elem_of_cons & req & Hm & Hlt); [|right; split; [done|by exists req]].
    left. rewrite Hm, (proj2 (Z.leb_gt _ _)) by done. left.
Qed.

Lemma delete_all l : forall (m : gmap Z rpc_request) i, foldl (fun m i => delete i m) m l !! i = if decide (i ∈ l) then None else m !! i.
Proof.
  induction l as [|j l IH]; intros m i; [done|]. cbn [foldl]. rewrite IH. destruct (decide (i ∈ l)), (decide (i ∈ j :: l)); try done; try set_solver.
  - assert (i = j) as -> by set_solver. by rewrite lookup_delete_eq.
  - by rewrite lookup_delete_ne by set_solver.
Qed.

Lemma expire_spec g now :
  let '(expired, g') := expire g now in
  (forall i, i ∈ expired <-> exists d, (d, i) ∈ timeouts g /\ due g now d i) /\
  (forall i, pending g' !! i = if decide (i ∈ expired) then None else pending g !! i) /\
  (forall d i, (d, i) ∈ timeouts g' <-> (d, i) ∈ timeouts g /\ exists req, pending g !! i = Some req /\ sat_sub now (created req) < d).
Proof.
  unfold expire. pose proof (sweep_spec (pending g) now (timeouts g)) as [He Hk]. destruct (sweep _ _ _) as [kept expired].
  cbn [fst snd pending timeouts] in *. split_and!; [|by intros; apply delete_all|done].
  intros i. rewrite He. unfold due. naive_solver.
Qed.

Lemma covered_step g o : covered g -> covered (step g o).
Proof.
  unfold covered. intros Hc. destruct o as [m p d w now|req t|r|now]; cbn [step].
  - exact Hc.
  - cbn. intros i q. destruct (decide (i = id req)) as [->|Hne].
    + rewrite lookup_insert_eq. intros [= <-]. split; [done|]. exists t. set_solver.
    + rewrite lookup_insert_ne by done. intros [? [d Hd]]%Hc. split; [done|]. exists d. set_solver.
  - cbn. intros i q [_ H]%lookup_delete_Some. by apply Hc.
  - pose proof (expire_spec g now) as H. destruct (expire g now) as [ex g']. destruct H as (He & Hp & Hk). cbn [snd].
    intros i q. rewrite Hp. destruct (decide (i ∈ ex)) as [|Hn]; [done|]. intros Hq. destruct (Hc i q Hq) as [Hid [d Hd]].
    split; [done|]. exists d. apply Hk. split; [done|]. exists q. split; [done|].
    apply Z.nle_gt. intros Hle. apply Hn, He. exists d. split; [done|]. by exists q.
Qed.

(** C26: After any requests, answers and sweeps, [expire] reports exactly the
    pending requests with a timeout that is over and forgets them; every other
    pending request keeps a timeout that is not over, so a sweep that comes late
    enough for all timeouts reports every pending request and leaves none. *)
Theorem rpc_no_unresolved (ops : list op) (now : Z) :
  let g := run step registry_new ops in
  let '(expired, g') := expire g now in
  (forall i, i ∈ expired <-> exists d, (d, i) ∈ timeouts g /\ due g now d i) /\
  (forall i, pending g' !! i = if decide (i ∈ expired) then None else pending g !! i) /\
  (forall i req, pending g' !! i = Some req -> exists d, (d, i) ∈ timeouts g' /\ now - created req < d) /\
  ((forall d i req, (d, i) ∈ timeouts g -> pending g !! i = Some req -> created req + d <= now /\ 0 <= d /\ created req <= now) ->
   pending g' = ∅ /\ forall i, is_Some (pending g !! i) -> i ∈ expired).
Proof.
  cbn zeta. set (g := run step registry_new ops).
  assert (Hc : covered g) by (apply (run_invariant step covered); [by intros; apply covered_step|intros i req; cbn [pending registry_new]; by rewrite lookup_empty]).
  pose proof (expire_spec g now) as H. pose proof (covered_step g (Expire now) Hc) as Hc'. cbn [step] in Hc'.
  destruct (expire g now) as [ex g']. cbn [snd] in Hc'. destruct H as (He & Hp & Hk). split; [done|]. split; [done|]. split.
  - intros i req Hi. destruct (Hc' i req Hi) as [_ [d Hd]]. exists d. split; [done|]. apply Hk in Hd as [_ (q & Hq & Hlt)].
    rewrite Hp in Hi. destruct (decide (i ∈ ex)); [done|]. rewrite Hq in Hi. injection Hi as ->. unfold sat_sub in Hlt. lia.
  - intros Hall. assert (Hex : forall i, is_Some (pending g !! i) -> i ∈ ex).
    { intros i [q Hq]. destruct (Hc i q Hq) as [_ [d Hd]]. apply He. exists d. split; [done|]. exists q. split; [done|].
      destruct (Hall d i q Hd Hq). unfold sat_sub. lia. }
    split; [|done]. apply map_empty. intros i. rewrite Hp. destruct (decide (i ∈ ex)) as [|Hn]; [done|].
    destruct (pending g !! i) eqn:E; [|done]. destruct Hn. by apply Hex.
Qed.
End rpc.

Lemma rpc_no_unresolved_witness :
  let ops := [NewRequest (codes "ping") 7 ClientToServer [] 0; Track (RpcRequest 1 (codes "ping") 7 ClientToServer [] 0) 5;
              Track (RpcRequest 2 (codes "slow") 7 ServerToClient [] 0) 50; Expire 10; Resolve (success 9 7)] in
  size (pending (run step registry_new ops)) = 1%nat /\
  pending (expire (run step registry_new ops) 60).2 = ∅.
Proof.
  cbv zeta. set (g := run step registry_new _). split; [vm_compute; reflexivity|].
  match goal with g := run step registry_new ?ops |- _ => pose proof (rpc_no_unresolved ops 60) as H end. cbv zeta in H. fold g in H.
  destruct (expire g 60) as [ex g']. apply H.
  intros d i req Hd Hi. assert (Ht : timeouts g = [(50, 2)]) by (vm_compute; reflexivity). rewrite Ht in Hd.
  apply list_elem_of_singleton in Hd as [= -> ->]. assert (Hr : created <$> pending g !! 2 = Some 0) by (vm_compute; reflexivity).
  rewrite Hi in Hr. injection Hr as ->. lia.
Defined.
End Rpc.

Module Entitlement.
Inductive package_model := Free_ | Paid | Subscription | Private_ | DeveloperModel | Beta | InviteOnly.
#[global] Instance package_model_eq_dec : EqDecision package_model.
Proof. solve_decision. Defined.
Definition model_str (m : package_model) : string :=
  match m with
  | Free_ => "FREE" | Paid => "PAID" | Subscription => "SUBSCRIPTION" | Private_ => "PRIVATE"
  | DeveloperModel => "DEVELOPER" | Beta => "BETA" | InviteOnly => "INVITE_ONLY"
  end.

Inductive package_policy := OpenPolicy | Signed | Protected | PrivatePolicy.
#[global] Instance package_policy_eq_dec : EqDecision package_policy.
Proof. solve_decision. Defined.

Inductive entitlement_state :=
| Free | Authorized | NotAuthorized | Expired (since_epoch : Z) | ExternalProvider (provider : text)
| FivemEscrowUnsupported | Unknown.

Record grant_rec := Grant {
  g_package_id : text; g_model : package_model; expires_at : option Z; license_token : option text }.
Record package := Package {
  package_id : text; publisher_id : text; p_name : text; version : text; model : package_model;
  policy : package_policy; requires_entitlement : bool; publisher_key_hex : option text }.
Record server_license := ServerLicense { server_id : text; project_id : text; issued_at : Z; signature_hex : text }.

Record service := Service {
  packages : gmap text package; grants : gmap (text * text) grant_rec; servers : gmap text server_license }.
Definition service_new : service := Service ∅ ∅ ∅.

Definition register_server (s : service) (l : server_license) : service :=
  Service (packages s) (grants s) (<[server_id l := l]> (servers s)).
Definition register_package (s : service) (p : package) : service :=
  Service (<[package_id p := p]> (packages s)) (grants s) (servers s).
Definition grant (s : service) (server : text) (g : grant_rec) : service :=
  Service (packages s) (<[(server, g_package_id g) := g]> (grants s)) (servers s).
Definition revoke (s : service) (server package_id : text) : service :=
  Service (packages s) (delete (server, package_id) (grants s)) (servers s).

Definition check (s : service) (server package_id : text) (signature_ok : bool) (now_epoch : Z) : entitlement_state :=
  match packages s !! package_id with
  | None => Unknown
  | Some pkg =>
      if bool_decide (model pkg = Free_) && negb (requires_entitlement pkg) then
        if bool_decide (policy pkg = Signed) && negb signature_ok then NotAuthorized else Free
      else match grants s !! (server, package_id) with
      | None => NotAuthorized
      | Some g =>
          let last :=
            if (bool_decide (policy pkg = Signed) || bool_decide (policy pkg = Protected)) && negb signature_ok
            then NotAuthorized else Authorized in
          match expires_at g with
          | Some exp => if exp <=? now_epoch then Expired exp else last
          | None => last
          end
      end
  end.

Definition package_of (s : service) (id : text) : option package := packages s !! id.
Definition grant_for (s : service) (server id : text) : option grant_rec := grants s !! (server, id).
(** In the order of the hash map, which is not specified. *)
Definition grants_for_server (s : service) (server : text) : list (grant_rec * package) :=
  omap (fun e => if bool_decide (e.1.1 = server) then pair e.2 <$> packages s !! g_package_id e.2 else None) (map_to_list (grants s)).

Inductive protection_class := OpenSource | SourceAvailable | PlainResource | VendorLicensed | FivemEscrow | UnknownProtection.
Inductive runnability := Runnable | NeedsEntitlement | BlockedExternal | NeedsReview.
Definition class_str (c : protection_class) : string :=
  match c with
  | OpenSource => "OPEN_SOURCE" | SourceAvailable => "SOURCE_AVAILABLE" | PlainResource => "PLAIN_RESOURCE"
  | VendorLicensed => "VENDOR_LICENSED" | FivemEscrow => "FIVEM_ESCROW" | UnknownProtection => "UNKNOWN_PROTECTION"
  end.
Definition runnable (c : protection_class) : runnability :=
  match c with
  | OpenSource | SourceAvailable | PlainResource => Runnable
  | VendorLicensed => NeedsEntitlement | FivemEscrow => BlockedExternal | UnknownProtection => NeedsReview
  end.

(** *** Histories *)
Inductive op :=
| RegisterServer (l : server_license) | RegisterPackage (p : package)
| GrantTo (server : text) (g : grant_rec) | Revoke (server package_id : text).
Definition step (s : service) (o : op) : service :=
  match o with
  | RegisterServer l => register_server s l | RegisterPackage p => register_package s p
  | GrantTo server g => grant s server g | Revoke server id => revoke s server id
  end.

(** The last registration of a package, and the last grant not revoked since. *)
Definition package_after (id : text) (hist : list op) : option package :=
  foldl (fun r o => match o with RegisterPackage p => if bool_decide (package_id p = id) then Some p else r | _ => r end) None hist.
Definition grant_after (server id : text) (hist : list op) : option grant_rec :=
  foldl (fun r o => match o with
    | GrantTo sv g => if bool_decide (sv = server /\ g_package_id g = id) then Some g else r
    | Revoke sv i => if bool_decide (sv = server /\ i = id) then None else r
    | _ => r
    end) None hist.

Lemma service_state hist :
  let s := run step service_new hist in
  (forall id, packages s !! id = package_after id hist) /\ (forall server id, grants s !! (server, id) = grant_after server id hist).
Proof.
  cbn zeta. induction hist as [|o hist [Hp Hg]] using rev_ind; [done|]. rewrite run_app. set (s := run step service_new hist) in *.
  unfold package_after, grant_after in *. setoid_rewrite foldl_app. cbn [run foldl]. split.
  - intros id. destruct o as [l|p|sv g|sv i]; cbn [step register_server register_package grant revoke packages]; try apply Hp.
    destruct (bool_decide_reflect (package_id p = id)) as [<-|]; by rewrite ?lookup_insert_eq, ?lookup_insert_ne.
  - intros server id. destruct o as [l|p|sv g|sv i]; cbn [step register_server register_package grant revoke grants]; try apply Hg.
    + destruct (bool_decide_reflect (sv = server /\ g_package_id g = id)) as [[-> ->]|Hne]; [by rewrite lookup_insert_eq|].
      rewrite lookup_insert_ne; [done|]. intros [= ? ?]. by apply Hne.
    + destruct (bool_decide_reflect (sv = server /\ i = id)) as [[-> ->]|Hne]; [by rewrite lookup_delete_eq|].
      rewrite lookup_delete_ne; [done|]. intros [= -> ->]. by apply Hne.
Qed.

(** A package that asks for no grant. *)
Definition open_to_all (p : package) : bool := bool_decide (model p = Free_) && negb (requires_entitlement p).

Definition over (g : grant_rec) (now : Z) : bool := match expires_at g with Some e => e <=? now | None => false end.
Definition unsigned (p : package) (signature_ok : bool) : bool :=
  (bool_decide (policy p = Signed) || bool_decide (policy p = Protected)) && negb signature_ok.

Lemma check_cases s server id ok now :
  check s server id ok now =
    match packages s !! id with
    | None => Unknown
    | Some p =>
        if open_to_all p then if bool_decide (policy p = Signed) && negb ok then NotAuthorized else Free
        else match grants s !! (server, id) with
        | None => NotAuthorized
        | Some g => if over g now then Expired (default 0 (expires_at g)) else if unsigned p ok then NotAuthorized else Authorized
        end
    end.
Proof.
  unfold check, over, unsigned, open_to_all. destruct (packages s !! id) as [p|]; [|done]. destruct (_ && _); [done|].
  destruct (grants s !! _) as [g|]; [|done]. destruct (expires_at g); [|done]. by destruct (_ <=? _).
Qed.

Lemma over_spec g now : over g now = false <-> forall e, expires_at g = Some e -> now < e.
Proof.
  unfold over. destruct (expires_at g) as [x|]; [|split; [done|done]]. rewrite Z.leb_gt. split; [by intros ? ? [= <-]|auto].
Qed.

Lemma unsigned_spec p ok : unsigned p ok = false <-> (policy p = Signed \/ policy p = Protected -> ok = true).
Proof. unfold unsigned. destruct (policy p), ok; cbn; split; try done; intuition congruence. Qed.

(** Each outcome against its condition. *)
Ltac by_outcome :=
  split_and!; try naive_solver;
  try (split; [done|]; intros; repeat match goal with H : exists _, _ |- _ => destruct H | H : _ /\ _ |- _ => destruct H end;
       simplify_eq; congruence).

(** A server may run a package, after any registrations, grants and
    revocations, exactly when the package is free and asks for no entitlement, or
    the server's last grant of it is not revoked and not over; a signed package
    also needs a good signature, and so does a protected one that needs a grant. An
    end once reached is reported at every later time. *)
Theorem entitlement_history (hist : list op) (server id : text) (signature_ok : bool) (now : Z) :
  let s := run step service_new hist in
  let r := check s server id signature_ok now in
  (r = Unknown <-> package_after id hist = None) /\
  (r = Free <-> exists p, package_after id hist = Some p /\ open_to_all p = true /\ (policy p = Signed -> signature_ok = true)) /\
  (r = Authorized <-> exists p g, package_after id hist = Some p /\ open_to_all p = false /\ grant_after server id hist = Some g /\
     (forall e, expires_at g = Some e -> now < e) /\ (policy p = Signed \/ policy p = Protected -> signature_ok = true)) /\
  (forall e, r = Expired e -> e <= now /\ forall later ok, now <= later -> check s server id ok later = Expired e) /\
  r <> FivemEscrowUnsupported /\ forall provider, r <> ExternalProvider provider.
Proof.
  cbn zeta. destruct (service_state hist) as [Hp Hg]. set (s := run step service_new hist) in *. clearbody s.
  setoid_rewrite check_cases. rewrite Hp, Hg. destruct (package_after id hist) as [p|]; [|split_and!; naive_solver].
  setoid_rewrite <- unsigned_spec. setoid_rewrite <- over_spec. destruct (open_to_all p) eqn:Eo.
  - assert (Hsig : bool_decide (policy p = Signed) && negb signature_ok = false <-> (policy p = Signed -> signature_ok = true))
      by (destruct (policy p), signature_ok; cbn; naive_solver).
    destruct (_ && _); by_outcome.
  - destruct (grant_after server id hist) as [g|]; [|by_outcome].
    destruct (over g now) eqn:Ho; [|destruct (unsigned p signature_ok) eqn:Hu; by_outcome].
    by_outcome. intros e [= <-]. unfold over in *. destruct (expires_at g) as [e|]; [|done]. cbn. bool_prop.
    split; [done|]. intros later ok Hl. by rewrite (proj2 (Z.leb_le _ _)) by lia.
Qed.

Lemma entitlement_history_witness :
  let hist := [RegisterPackage (Package [112] [] [] [] Paid Signed true None); GrantTo [115] (Grant [112] Paid (Some 500) None)] in
  check (run step service_new hist) [115] [112] true 400 = Authorized /\
  forall later ok, 600 <= later -> check (run step service_new hist) [115] [112] ok later = Expired 500.
Proof.
  cbv zeta. match goal with |- context [run step service_new ?h] =>
    destruct (entitlement_history h [115] [112] true 600) as (_ & _ & _ & He & _) end.
  split; [vm_compute; reflexivity|]. apply (He 500). vm_compute. reflexivity.
Defined.

(** A protected package that is free and asks for no entitlement runs with a bad
    signature, and a private one on any server. *)
Lemma entitlement_gaps :
  let pkg pol := Package [112] [] [] [] Free_ pol false None in
  check (run step service_new [RegisterPackage (pkg Protected)]) [115] [112] false 0 = Free /\
  check (run step service_new [RegisterPackage (pkg PrivatePolicy)]) [115] [112] false 0 = Free.
Proof. done. Qed.
End Entitlement.
