(* ===== verification/Database.v ===== *)
(** The database layer of crates/ald-database/src: queries with bound
    parameters (lib.rs), transactions (transaction.rs) and the migration runner
    (migrations.rs). The database that executes them is not part of the program. *)
From S2P Require Import Prelude RustStr.

(** ** Queries *)
Inductive param := Text (s : text) | Int (n : Z) | Bool_ (b : bool) | Null.
Record query := Query { sql : text; params : list param }.
Inductive ald_error := Config (m : string) | InvalidArgument (m : text).

Definition raw (sql : text) : query := Query sql [].
Definition bind (q : query) (p : param) : query := Query (sql q) (params q ++ [p]).
Definition placeholders (q : query) : nat := length (List.filter (fun c => c =? 63) (sql q)).
Definition validate_placeholders (q : query) : result unit ald_error :=
  if negb (bool_decide (placeholders q = length (params q))) then
    Err (InvalidArgument (codes "placeholder count " ++ decimal (Z.of_nat (placeholders q)) ++ codes " != param count " ++
           decimal (Z.of_nat (length (params q)))))
  else Ok tt.

Record db_config := DbConfig { url : text; max_pool_size : Z; connection_timeout_secs : Z }.
Definition config_default : db_config := DbConfig (codes "sqlite::memory:") 16 30.
Definition validate (c : db_config) : result unit ald_error :=
  if bool_decide (trim_text (url c) = []) then Err (Config "db.url required")
  else if max_pool_size c =? 0 then Err (Config "db.max_pool_size must be >= 1")
  else Ok tt.

(** ** Transactions *)
Module Tx.
Inductive outcome := Committed | RolledBack | Failed (m : text).
Inductive tx_state := Open | TxCommitted | TxRolledBack.
#[global] Instance tx_state_eq_dec : EqDecision tx_state.
Proof. solve_decision. Defined.

(** Durations and instants are numbers of milliseconds. *)
Record transaction := Transaction {
  statements : list query; started : Z; state : tx_state; timings : list (text * Z); slow_threshold : Z }.

Definition with_slow_threshold (now threshold : Z) : transaction := Transaction [] now Open [] threshold.
Definition tx_new (now : Z) : transaction := with_slow_threshold now 500.

Definition statement (t : transaction) (q : query) : result transaction ald_error :=
  match state t with
  | Open =>
      let? _ := validate_placeholders q in
      Ok (Transaction (statements t ++ [q]) (started t) (state t) (timings t) (slow_threshold t))
  | _ => Err (InvalidArgument (codes "cannot add a statement to a finished transaction"))
  end.
Definition statement_count (t : transaction) : nat := length (statements t).

Definition finish (t : transaction) (s : tx_state) : transaction :=
  Transaction (statements t) (started t) s (timings t) (slow_threshold t).
(** [commit] and [rollback] consume the transaction; the state it is dropped in
    is returned with the outcome. *)
Definition commit (t : transaction) : result outcome ald_error * transaction :=
  match state t with
  | Open =>
      if bool_decide (statements t = []) then
        (Err (InvalidArgument (codes "committing an empty transaction is not allowed")), t)
      else (Ok Committed, finish t TxCommitted)
  | _ => (Err (InvalidArgument (codes "transaction already finished")), t)
  end.
Definition rollback (t : transaction) : result outcome ald_error * transaction :=
  match state t with
  | Open => (Ok RolledBack, finish t TxRolledBack)
  | _ => (Err (InvalidArgument (codes "transaction already finished")), t)
  end.
Definition drop_tx (t : transaction) : transaction :=
  if bool_decide (state t = Open) then finish t TxRolledBack else t.

Definition record_timing (t : transaction) (summary : text) (duration : Z) : transaction :=
  Transaction (statements t) (started t) (state t) (timings t ++ [(summary, duration)]) (slow_threshold t).
Definition slow_queries (t : transaction) : list (text * Z) :=
  List.filter (fun e => slow_threshold t <? e.2) (timings t).
Definition elapsed (t : transaction) (now : Z) : Z := sat_sub now (started t).

Definition money_transfer_tx (now : Z) (source target : text) (amount : Z) (currency : text) : result transaction ald_error :=
  if amount <=? 0 then Err (InvalidArgument (codes "transfer amount must be positive"))
  else if bool_decide (source = target) then Err (InvalidArgument (codes "cannot transfer to the same account"))
  else
    let? t := statement (tx_new now)
      (bind (raw (codes "SELECT balance FROM accounts WHERE account_id = ? FOR UPDATE")) (Text source)) in
    let? t := statement t
      (bind (bind (raw (codes "UPDATE accounts SET balance = balance - ? WHERE account_id = ?")) (Int amount)) (Text source)) in
    let? t := statement t
      (bind (bind (raw (codes "UPDATE accounts SET balance = balance + ? WHERE account_id = ?")) (Int amount)) (Text target)) in
    statement t
      (bind (bind (bind (bind (raw (codes "INSERT INTO ledger (source, target, amount, currency) VALUES (?, ?, ?, ?)"))
         (Text source)) (Text target)) (Int amount)) (Text currency)).
End Tx.

(** ** Migrations *)
Module Migrations.
Record migration := Migration { version : Z; description : text; up : text }.
Record applied_migration := Applied { a_version : Z; a_description : text; a_checksum : text }.
Record report := Report { applied : list Z; skipped : list Z; drift : list Z }.

(** FNV-1a on 64 bits. *)
Definition FNV_OFFSET : Z := 0xcbf29ce484222325.
Definition FNV_PRIME : Z := 0x100000001b3.
Definition fnv_step (h b : Z) : Z := wrap 64 (Z.lxor h b * FNV_PRIME).
Definition feed (h : Z) (bytes : text) : Z := foldl fnv_step h bytes.

(** [to_string] of a [u64] and the lower-case digits of [{:016x}]. *)
Definition to_string (n : Z) : text := digits 20 n [].
Fixpoint hex_digits (n : nat) (z : Z) : text :=
  match n with O => [] | S n => hex_digits n (z / 16) ++ [hex_digit (z mod 16)] end.

Definition checksum_of (version : Z) (description up : text) : Z :=
  feed (feed (feed (feed (feed FNV_OFFSET (to_string version)) [0]) description) [0]) up.
Definition checksum (m : migration) : text := hex_digits 16 (checksum_of (version m) (description m) (up m)).

Fixpoint first_duplicate (seen : gset Z) (l : list migration) : option Z :=
  match l with
  | [] => None
  | m :: l => if bool_decide (version m ∈ seen) then Some (version m) else first_duplicate ({[version m]} ∪ seen) l
  end.
Definition migrator_new (l : list migration) : result (list migration) ald_error :=
  match first_duplicate ∅ l with
  | Some v => Err (InvalidArgument (codes "duplicate migration version " ++ to_string v))
  | None => Ok (sort_by version l)
  end.
Definition count (l : list migration) : nat := length l.

(** [collect] into a hash map: the last record of a version wins. *)
Definition by_version (h : list applied_migration) : gmap Z applied_migration :=
  foldl (fun m a => <[a_version a := a]> m) ∅ h.

Definition plan_step (h : gmap Z applied_migration) (r : report) (m : migration) : report :=
  match h !! version m with
  | None => Report (applied r ++ [version m]) (skipped r) (drift r)
  | Some record =>
      if negb (bool_decide (a_checksum record = checksum m)) then Report (applied r) (skipped r) (drift r ++ [version m])
      else Report (applied r) (skipped r ++ [version m]) (drift r)
  end.
(** The second loop of [plan] has an empty body. *)
Definition plan (migrations : list migration) (h : list applied_migration) : result report ald_error :=
  Ok (foldl (plan_step (by_version h)) (Report [] [] []) migrations).

Definition INSERT : text := codes "INSERT INTO schema_history (version, description, checksum) VALUES (?, ?, ?)".
Definition find_version (migrations : list migration) (v : Z) : option migration :=
  foldl (fun r m => if version m =? v then Some m else r) None migrations.
Definition bookkeeping (v : Z) (m : migration) : query :=
  bind (bind (bind (raw INSERT) (Int (swrap 64 v))) (Text (description m))) (Text (checksum m)).
Definition statements_for (migrations : list migration) (r : report) : result (list query) ald_error :=
  try_fold (fun out v =>
    let? m := ok_or (find_version migrations v) (InvalidArgument (codes "unknown migration " ++ to_string v)) in
    Ok (out ++ [raw (up m); bookkeeping v m])) [] (applied r).
End Migrations.

(** ** What a transaction holds *)
Lemma placeholders_ok q : validate_placeholders q = Ok tt <-> placeholders q = length (params q).
Proof. unfold validate_placeholders. destruct (bool_decide_reflect (placeholders q = length (params q))); done. Qed.

(** Statements are added in order, and every one has a value per placeholder. *)
Lemma statements_added qs : forall t t', try_fold Tx.statement t qs = Ok t' ->
  Tx.statements t' = Tx.statements t ++ qs /\ Forall (fun q => placeholders q = length (params q)) qs /\ Tx.state t' = Tx.state t.
Proof.
  induction qs as [|q qs IH]; intros t t'; cbn [try_fold].
  - intros [= <-]. rewrite app_nil_r. done.
  - intros (t1 & Hs & (H1 & H2 & H3)%IH)%rbind_ok. unfold Tx.statement in Hs. destruct (Tx.state t) eqn:Et; [|done..].
    apply rbind_ok in Hs as ([] & Hv%placeholders_ok & [= <-]). cbn in *. rewrite H1, <- app_assoc. split_and!; [done|by constructor|congruence].
Qed.

(** A transfer locks, debits, credits and records, in this order. *)
Lemma money_transfer_spec now source target amount currency :
  (exists t, Tx.money_transfer_tx now source target amount currency = Ok t /\ (Tx.commit t).1 = Ok Tx.Committed /\
     params <$> Tx.statements t =
       [[Text source]; [Int amount; Text source]; [Int amount; Text target]; [Text source; Text target; Int amount; Text currency]] /\
     Forall (fun q => placeholders q = length (params q)) (Tx.statements t)) <-> 0 < amount /\ source <> target.
Proof.
  unfold Tx.money_transfer_tx. destruct (Z.leb_spec amount 0); [split; [by intros (? & ? & _)|lia]|].
  destruct (bool_decide_reflect (source = target)) as [->|Hne]; [split; [by intros (? & ? & _)|tauto]|].
  split; [done|]. intros _. eexists. split; [vm_compute; reflexivity|]. split; [done|]. split; [done|]. repeat constructor.
Qed.

(** ** The checksum detects an edit *)
Module Drift.
Import Migrations.

Definition FNV_INVERSE : Z := 14886173955864302971.
Lemma fnv_inverse : wrap 64 (FNV_PRIME * FNV_INVERSE) = 1.
Proof. reflexivity. Qed.

Lemma mul_prime_inj a b : fits 64 a -> fits 64 b -> wrap 64 (a * FNV_PRIME) = wrap 64 (b * FNV_PRIME) -> a = b.
Proof. intros Ha Hb. by apply (mul_inv_inj 64 _ FNV_INVERSE). Qed.

Lemma fnv_step_fits h b : fits 64 (fnv_step h b).
Proof. by apply wrap_fits. Qed.

Lemma fnv_step_inj h h' b b' : fits 64 h -> fits 64 h' -> fits 8 b -> fits 8 b' ->
  fnv_step h b = fnv_step h' b' -> Z.lxor h b = Z.lxor h' b'.
Proof.
  intros Hh Hh' Hb Hb' H. assert (Hw : forall x, fits 8 x -> fits 64 x).
  { unfold fits. intros x. change (2 ^ 8) with 256. change (2 ^ 64) with 18446744073709551616. lia. }
  apply mul_prime_inj; [by apply lxor_fits; auto..|exact H].
Qed.

Lemma feed_fits l : forall h, fits 64 h -> fits 64 (feed h l).
Proof. induction l as [|b l IH]; intros h Hh; [done|]. cbn. apply IH, fnv_step_fits. Qed.

Lemma feed_inj l : Forall (fits 8) l -> forall h h', fits 64 h -> fits 64 h' -> feed h l = feed h' l -> h = h'.
Proof.
  induction 1 as [|b l Hb Hl IH]; intros h h' Hh Hh' H; [done|]. cbn in H. apply IH in H; [|apply fnv_step_fits..].
  apply fnv_step_inj in H; [|done..]. by apply lxor_cancel in H.
Qed.

Lemma hex_digits_inj n : forall a b, 0 <= a < 16 ^ Z.of_nat n -> 0 <= b < 16 ^ Z.of_nat n -> hex_digits n a = hex_digits n b -> a = b.
Proof.
  induction n as [|n IH]; intros a b Ha Hb; cbn [hex_digits]; [change (16 ^ Z.of_nat 0) with 1 in *; lia|].
  intros H. apply app_inj_2 in H as [H1 H2]; [|done]. injection H2 as H2.
  pose proof (Z.mod_pos_bound a 16 ltac:(lia)). pose proof (Z.mod_pos_bound b 16 ltac:(lia)).
  apply hex_digit_inj in H2; [|done..]. rewrite Nat2Z.inj_succ, Z.pow_succ_r in Ha, Hb by lia.
  apply IH in H1; [|split; [apply Z.div_pos; lia|apply Z.div_lt_upper_bound; lia]..].
  rewrite (Z.div_mod a 16), (Z.div_mod b 16), H1, H2 by lia. done.
Qed.

(** A byte of a migration changed after it was applied, in its statements
    or in its description, is drift: the checksum of the edited file differs from
    the recorded one, so the plan neither skips the migration nor applies it. *)
Theorem drift_detected (m m' : migration) (before after : text) (x y : Z) (h : list applied_migration) :
  Forall (fits 8) (before ++ x :: after) -> fits 8 y -> Forall (fits 8) (up m) -> x <> y -> version m' = version m ->
  (up m = before ++ x :: after /\ up m' = before ++ y :: after /\ description m' = description m) \/
  (description m = before ++ x :: after /\ description m' = before ++ y :: after /\ up m' = up m) ->
  by_version h !! version m = Some (Applied (version m) (description m) (checksum m)) ->
  checksum m' <> checksum m /\
  forall l, migrator_new [m'] = Ok l -> plan l h = Ok (Report [] [] [version m]).
Proof.
  intros Hb Hy Hup Hxy Hv Hedit Hrec.
  assert (Hstep : forall h, fits 64 h -> feed h (before ++ y :: after) <> feed h (before ++ x :: after)).
  { apply Forall_app in Hb as [Hbe Hb]. apply Forall_cons in Hb as [Hx Ha].
    intros s Hs H. unfold feed in H. rewrite !foldl_app in H. cbn [foldl] in H.
    apply (feed_inj after Ha) in H; [|apply fnv_step_fits..].
    apply fnv_step_inj in H; [|by apply feed_fits..|done|done].
    rewrite (Z.lxor_comm _ y), (Z.lxor_comm _ x) in H. by apply lxor_cancel in H. }
  assert (Hne : checksum_of (version m') (description m') (up m') <> checksum_of (version m) (description m) (up m)).
  { unfold checksum_of. rewrite Hv. destruct Hedit as [(-> & -> & ->)|(-> & -> & ->)].
    - apply Hstep. repeat apply feed_fits. done.
    - intros H. apply (feed_inj _ Hup) in H; [|by repeat apply feed_fits..].
      apply (feed_inj [0]) in H; [|by repeat constructor|by repeat apply feed_fits..].
      revert H. apply Hstep. by repeat apply feed_fits. }
  assert (Hck : checksum m' <> checksum m).
  { intros H. apply Hne, (hex_digits_inj 16); [..|exact H]; change (16 ^ Z.of_nat 16) with (2 ^ 64); unfold checksum_of; by repeat apply feed_fits. }
  split; [done|]. intros l Hl. assert (l = [m']) as ->.
  { unfold migrator_new in Hl. cbn [first_duplicate] in Hl. rewrite bool_decide_eq_false_2 in Hl by set_solver. by injection Hl. }
  unfold plan. cbn [foldl]. unfold plan_step.
  rewrite Hv, Hrec. cbn [a_checksum]. by rewrite bool_decide_eq_false_2 by (intros ?; by apply Hck).
Qed.

Lemma drift_detected_witness :
  let m := Migration 7 [97] (codes "CREATE TABLE a;") in
  let m' := Migration 7 [97] (codes "CREATE TABLE b;") in
  let h := [Applied 7 [97] (checksum m)] in
  checksum m' <> checksum m /\ forall l, migrator_new [m'] = Ok l -> plan l h = Ok (Report [] [] [7]).
Proof.
  intros m m' h. apply (drift_detected m m' (codes "CREATE TABLE ") (codes ";") 97 98 h); try by_decide; try done.
Defined.
End Drift.

(** ** Resuming *)
Module Resume.
Import Migrations.

(** What the statements leave in the history table: the row of each INSERT. *)
Definition record_of (q : query) : option applied_migration :=
  if bool_decide (sql q = INSERT) then
    match params q with [Int v; Text d; Text c] => Some (Applied (wrap 64 v) d c) | _ => None end
  else None.
Definition recorded (qs : list query) : list applied_migration := omap record_of qs.

Definition absent (h : gmap Z applied_migration) (m : migration) : bool := bool_decide (h !! version m = None).
Definition drifted (h : gmap Z applied_migration) (m : migration) : bool :=
  match h !! version m with Some a => negb (bool_decide (a_checksum a = checksum m)) | None => false end.
Definition current (h : gmap Z applied_migration) (m : migration) : bool :=
  match h !! version m with Some a => bool_decide (a_checksum a = checksum m) | None => false end.

Lemma plan_filters h l : forall r, foldl (plan_step h) r l =
  Report (applied r ++ (version <$> List.filter (absent h) l)) (skipped r ++ (version <$> List.filter (current h) l))
    (drift r ++ (version <$> List.filter (drifted h) l)).
Proof.
  induction l as [|m l IH]; intros r; [cbn; rewrite !app_nil_r; by destruct r|]. cbn [foldl]. rewrite IH. cbn [List.filter].
  assert (Ha : absent h m = bool_decide (h !! version m = None)) by done.
  assert (Hc : current h m = match h !! version m with Some a => bool_decide (a_checksum a = checksum m) | None => false end) by done.
  assert (Hd : drifted h m = match h !! version m with Some a => negb (bool_decide (a_checksum a = checksum m)) | None => false end) by done.
  rewrite Ha, Hc, Hd. clear Ha Hc Hd. unfold plan_step. destruct (h !! version m) as [a|].
  - rewrite (bool_decide_eq_false_2 (Some a = None)) by done. by destruct (bool_decide (a_checksum a = checksum m)); cbn; rewrite <- ?app_assoc.
  - rewrite bool_decide_eq_true_2 by done. cbn. by rewrite <- app_assoc.
Qed.

Lemma by_version_app h h' : by_version (h ++ h') = foldl (fun m a => <[a_version a := a]> m) (by_version h) h'.
Proof. unfold by_version. apply foldl_app. Qed.

Lemma by_version_lookup h' : forall (m : gmap Z applied_migration) v, NoDup (a_version <$> h') ->
  foldl (fun m a => <[a_version a := a]> m) m h' !! v =
    match List.find (fun a => a_version a =? v) h' with Some a => Some a | None => m !! v end.
Proof.
  induction h' as [|a h' IH]; intros m v Hd; [done|]. cbn [foldl List.find]. apply NoDup_cons in Hd as [Hn Hd]. rewrite IH by done.
  destruct (Z.eqb_spec (a_version a) v) as [<-|Hne]; [|by rewrite lookup_insert_ne].
  destruct (List.find _ h') as [b|] eqn:E; [|by rewrite lookup_insert_eq].
  apply find_Some_elem in E as [Hin Hb]. apply Z.eqb_eq in Hb. destruct Hn. apply list_elem_of_fmap. exists b. split; [lia|done].
Qed.

(** A migrator holds each version once, in ascending order. *)
Lemma first_duplicate_none l : forall seen, first_duplicate seen l = None <->
  NoDup (version <$> l) /\ Forall (fun m => version m ∉ seen) l.
Proof.
  induction l as [|m l IH]; intros seen; cbn [first_duplicate fmap list_fmap].
  - split; [intros _; split; [apply NoDup_nil_2|apply Forall_nil_2]|done].
  - destruct (bool_decide_reflect (version m ∈ seen)) as [Hin|Hin].
    + split; [done|]. intros [_ Hf]. by apply Forall_cons in Hf as [? _].
    + rewrite IH, NoDup_cons, Forall_cons. rewrite !Forall_forall. setoid_rewrite list_elem_of_fmap. set_solver.
Qed.

Lemma migrator_spec l ms : migrator_new l = Ok ms <-> NoDup (version <$> l) /\ ms = sort_by version l.
Proof.
  unfold migrator_new. destruct (first_duplicate ∅ l) as [v|] eqn:E.
  - split; [done|]. intros [Hd _]. assert (first_duplicate ∅ l = None) by (apply first_duplicate_none; split; [done|]; apply Forall_forall; set_solver).
    congruence.
  - apply first_duplicate_none in E as [Hd _]. split; [by intros [= <-]|by intros [_ ->]].
Qed.

Lemma find_version_unique ms m : NoDup (version <$> ms) -> m ∈ ms -> find_version ms (version m) = Some m.
Proof.
  unfold find_version. assert (Hg : forall l r, (forall m', m' ∈ l -> version m' <> version m) ->
    foldl (fun r m' => if version m' =? version m then Some m' else r) r l = r).
  { induction l as [|a l IH]; intros r Hl; [done|]. cbn [foldl]. rewrite (proj2 (Z.eqb_neq _ _)) by (apply Hl; left). apply IH. intros; apply Hl; by right. }
  intros Hd Hin. apply list_elem_of_split in Hin as (l1 & l2 & ->). rewrite foldl_app. cbn [foldl]. rewrite Z.eqb_refl. apply Hg.
  intros m' Hm' He. rewrite fmap_app in Hd. cbn in Hd. apply NoDup_app in Hd as (_ & _ & Hd). apply NoDup_cons in Hd as [Hn _].
  apply Hn. rewrite <- He. apply list_elem_of_fmap. by exists m'.
Qed.

Definition steps_of (m : migration) : list query := [raw (up m); bookkeeping (version m) m].

Lemma statements_spec ms r l : NoDup (version <$> ms) -> (forall m, m ∈ l -> m ∈ ms) -> applied r = version <$> l ->
  statements_for ms r = Ok (concat (steps_of <$> l)).
Proof.
  intros Hd Hl Ha. unfold statements_for. rewrite Ha. clear Ha.
  assert (Hg : forall out, try_fold (fun out v =>
      let? m := ok_or (find_version ms v) (InvalidArgument (codes "unknown migration " ++ to_string v)) in
      Ok (out ++ [raw (up m); bookkeeping v m])) out (version <$> l) = Ok (out ++ concat (steps_of <$> l))); [|apply Hg].
  induction l as [|m l IH]; intros out; [cbn; by rewrite app_nil_r|]. cbn [fmap list_fmap try_fold concat].
  rewrite (find_version_unique ms m) by (try done; apply Hl; left). cbn [ok_or rbind]. rewrite IH by (intros; apply Hl; by right).
  by rewrite <- app_assoc.
Qed.

Definition row (m : migration) : applied_migration := Applied (version m) (description m) (checksum m).

Lemma recorded_steps l : Forall (fun m => fits 63 (version m)) l -> forall n,
  recorded (take n (concat (steps_of <$> l))) = row <$> take (n / 2) l.
Proof.
  induction 1 as [|m l Hm Hl IH]; intros n; [cbn [fmap list_fmap concat]; by rewrite !take_nil|].
  assert (Hraw : record_of (raw (up m)) = None) by (unfold record_of, raw; cbn [sql params]; by destruct (bool_decide _)).
  assert (Hbook : record_of (bookkeeping (version m) m) = Some (row m)).
  { unfold record_of, bookkeeping, bind, raw, row. cbn [sql params app]. rewrite bool_decide_eq_true_2 by done.
    unfold fits in Hm. do 2 f_equal. change (2 ^ 63) with 9223372036854775808 in Hm. rewrite swrap_small.
    - apply wrap_small. unfold fits. change (2 ^ 64) with 18446744073709551616. lia.
    - lia.
    - change (2 ^ (64 - 1)) with 9223372036854775808. lia. }
  destruct n as [|[|n]]; [done|cbn; unfold recorded; cbn; by rewrite Hraw|].
  change (S (S n)) with (2 + n)%nat. rewrite (Nat.add_comm 2 n). replace ((n + 2) / 2)%nat with (S (n / 2)) by (change (n + 2)%nat with (n + 1 * 2)%nat; rewrite Nat.div_add by done; lia).
  rewrite (Nat.add_comm n 2). cbn [fmap list_fmap concat steps_of app take Nat.add]. unfold recorded in *. cbn [omap list_omap].
  rewrite Hraw, Hbook. by rewrite IH.
Qed.

(** Removing the first [k] of a list without duplicates. *)
Lemma filter_not_taken k (l : list migration) : NoDup (version <$> l) ->
  List.filter (fun m => negb (bool_decide (version m ∈ version <$> take k l))) l = drop k l.
Proof.
  revert k. induction l as [|m l IH]; intros k Hd; [by rewrite drop_nil|]. cbn [fmap list_fmap] in Hd. apply NoDup_cons in Hd as [Hn Hd].
  assert (Hout : forall k, version m ∉ version <$> take k l).
  { intros k' Hin. apply Hn. apply list_elem_of_fmap in Hin as (m' & -> & Hm'). apply list_elem_of_fmap. exists m'. split; [done|].
    rewrite <- (take_drop k' l). apply elem_of_app. by left. }
  destruct k as [|k]; cbn [take drop fmap list_fmap List.filter].
  - rewrite bool_decide_eq_false_2 by set_solver. cbn [negb]. f_equal. rewrite <- (drop_0 l) at 2. rewrite <- (IH 0%nat Hd). by rewrite take_0.
  - rewrite bool_decide_eq_true_2 by left. cbn [negb]. rewrite <- (IH k Hd). apply List.filter_ext_in. intros m' Hm'. f_equal. apply bool_decide_ext.
    rewrite elem_of_cons. split; [intros [He|?]; [|done]|by right]. destruct Hn. rewrite <- He. apply list_elem_of_fmap. exists m'. split; [done|by apply list_elem_of_In].
Qed.
Lemma rows_versions (l : list migration) : a_version <$> (row <$> l) = version <$> l.
Proof. by rewrite <- list_fmap_compose. Qed.

Lemma NoDup_filter_versions f l : NoDup (version <$> l) -> NoDup (version <$> List.filter f l).
Proof. intros Hd. eapply sublist_NoDup; [exact Hd|]. apply fmap_filterb_sublist. Qed.

Lemma NoDup_take_versions k (l : list migration) : NoDup (version <$> l) -> NoDup (version <$> take k l).
Proof. intros Hd. eapply sublist_NoDup; [exact Hd|]. apply fmap_sublist, sublist_take. Qed.

(** The history after the rows of [a] are recorded. *)
Lemma find_row v (a : list migration) : NoDup (version <$> a) ->
  List.find (fun b => a_version b =? v) (row <$> a) = row <$> List.find (fun m => version m =? v) a.
Proof. intros _. induction a as [|m a IH]; [done|]. cbn. by destruct (version m =? v). Qed.

Lemma absent_after h (a : list migration) m : NoDup (version <$> a) ->
  absent (by_version (h ++ (row <$> a))) m = absent (by_version h) m && negb (bool_decide (version m ∈ version <$> a)).
Proof.
  intros Hd. unfold absent. rewrite by_version_app, by_version_lookup, find_row by (try rewrite rows_versions; done).
  destruct (List.find _ a) as [m'|] eqn:E; cbn [fmap option_fmap option_map].
  - apply find_Some_elem in E as [Hin Hv%Z.eqb_eq]. rewrite (bool_decide_eq_false_2 (Some _ = None)) by done.
    rewrite (bool_decide_eq_true_2 (version m ∈ _)); [by rewrite andb_false_r|]. apply list_elem_of_fmap. by exists m'.
  - rewrite (bool_decide_eq_false_2 (version m ∈ _)); [by rewrite andb_true_r|]. intros (m' & He & Hin)%list_elem_of_fmap.
    apply find_None_Forall in E. rewrite Forall_forall in E. specialize (E m' Hin). cbn in E. rewrite He, Z.eqb_refl in E. done.
Qed.

Lemma drifted_after h (a ms : list migration) m : NoDup (version <$> ms) -> NoDup (version <$> a) -> (forall x, x ∈ a -> x ∈ ms /\ absent (by_version h) x = true) ->
  m ∈ ms -> drifted (by_version (h ++ (row <$> a))) m = drifted (by_version h) m.
Proof.
  intros Hms Hd Ha Hm. unfold drifted. rewrite by_version_app, by_version_lookup, find_row by (try rewrite rows_versions; done).
  destruct (List.find _ a) as [m'|] eqn:E; cbn [fmap option_fmap option_map]; [|done].
  apply find_Some_elem in E as [Hin Hv%Z.eqb_eq]. destruct (Ha m' Hin) as [Hin' Habs].
  assert (m' = m) as ->.
  { pose proof (find_version_unique ms m' Hms Hin') as H1. rewrite Hv, (find_version_unique ms m Hms Hm) in H1. by injection H1. }
  cbn [row a_checksum]. rewrite bool_decide_eq_true_2 by done. unfold absent in Habs. apply bool_decide_eq_true in Habs. by rewrite Habs.
Qed.

Lemma filter_conj {A} (f g : A -> bool) l : List.filter (fun x => f x && g x) l = List.filter g (List.filter f l).
Proof. induction l as [|x l IH]; [done|]. cbn. destruct (f x); cbn; [destruct (g x)|]; by rewrite ?IH. Qed.

Lemma sorted_versions (l : list migration) : NoDup (version <$> l) -> StronglySorted Z.lt (version <$> sort_by version l).
Proof.
  intros Hd. assert (Hd' : NoDup (version <$> sort_by version l)) by by rewrite sort_by_perm.
  pose proof (sort_by_sorted version l) as Hs. induction Hs as [|m ms Hs IH Hm]; [constructor|].
  cbn [fmap list_fmap] in *. apply NoDup_cons in Hd' as [Hn Hd']. constructor; [by apply IH|].
  apply Forall_fmap. rewrite Forall_forall in Hm |- *. intros m' Hin. specialize (Hm m' Hin). unfold key_le in Hm. cbn.
  assert (version m <> version m'); [|lia]. intros He. apply Hn. rewrite He. apply list_elem_of_fmap. by exists m'.
Qed.

(** C27: Migrations of distinct versions are planned in ascending order, those
    that the history does not name; and a run that stops after any number of its
    statements resumes with exactly the migrations whose row was not written, with
    no drift of its own. *)
Theorem migrations_resume (l : list migration) (h : list applied_migration) (n : nat) :
  NoDup (version <$> l) -> Forall (fun m => fits 63 (version m)) l ->
  exists ms r qs r', migrator_new l = Ok ms /\ ms ≡ₚ l /\ plan ms h = Ok r /\ statements_for ms r = Ok qs /\
    StronglySorted Z.lt (applied r) /\
    (forall m, m ∈ l -> version m ∈ applied r <-> by_version h !! version m = None) /\
    length qs = (2 * length (applied r))%nat /\
    plan ms (h ++ recorded (take n qs)) = Ok r' /\ applied r' = drop (n / 2) (applied r) /\ drift r' = drift r.
Proof.
  intros Hd Hfit. set (ms := sort_by version l). assert (Hperm : ms ≡ₚ l) by apply sort_by_perm.
  assert (Hms : NoDup (version <$> ms)) by by rewrite Hperm.
  set (a := List.filter (absent (by_version h)) ms). assert (Hsub : forall m, m ∈ a -> m ∈ ms /\ absent (by_version h) m = true)
    by (intros m Hm; by apply elem_of_filterb).
  assert (Hfa : Forall (fun m => fits 63 (version m)) a).
  { apply Forall_forall. intros m [Hm _]%Hsub. rewrite Hperm in Hm. rewrite Forall_forall in Hfit. auto. }
  pose proof (plan_filters (by_version h) ms (Report [] [] [])) as Hplan. cbn [applied skipped drift app] in Hplan. fold a in Hplan.
  eexists ms, _, (concat (steps_of <$> a)), _. split; [by apply migrator_spec|]. split; [done|]. unfold plan. rewrite Hplan. split; [done|].
  split; [by apply statements_spec; [done|intros m [? _]%Hsub|done]|]. cbn [applied drift]. split.
  { eapply sorted_sublist; [apply fmap_filterb_sublist|by apply sorted_versions]. }
  split; [|split; [|split; [reflexivity|]]].
  - intros m Hm. rewrite <- Hperm in Hm. rewrite list_elem_of_fmap. split.
    + intros (m' & Hv & [_ Habs]%Hsub). rewrite Hv. by apply bool_decide_eq_true in Habs.
    + intros Hn. exists m. split; [done|]. apply elem_of_filterb. split; [done|]. by apply bool_decide_eq_true.
  - rewrite length_fmap. clear. induction a as [|m a IH]; [done|]. cbn [fmap list_fmap concat]. rewrite length_app, IH. cbn. lia.
  - rewrite recorded_steps by done. set (b := take (n / 2) a). rewrite plan_filters. cbn [applied drift app].
    assert (Hb : NoDup (version <$> b)) by by apply NoDup_take_versions, NoDup_filter_versions.
    assert (Hsubb : forall x, x ∈ b -> x ∈ ms /\ absent (by_version h) x = true).
    { intros x Hx. apply Hsub. rewrite <- (take_drop (n / 2) a). apply elem_of_app. by left. }
    split.
    + rewrite (List.filter_ext _ (fun m => absent (by_version h) m && negb (bool_decide (version m ∈ version <$> b))))
        by (intros m; by apply absent_after).
      rewrite filter_conj. fold a. unfold b. rewrite filter_not_taken by by apply NoDup_filter_versions. by rewrite fmap_drop.
    + f_equal. apply List.filter_ext_in. intros m Hm%list_elem_of_In. by apply (drifted_after h b ms m).
Qed.

Lemma migrations_resume_witness :
  let l := [Migration 2 [98] [50]; Migration 1 [97] [49]; Migration 3 [99] [51]] in
  let h := [row (Migration 1 [97] [49])] in
  NoDup (version <$> l) /\ Forall (fun m => fits 63 (version m)) l /\
  exists ms r qs r', migrator_new l = Ok ms /\ ms ≡ₚ l /\ plan ms h = Ok r /\ statements_for ms r = Ok qs /\
    StronglySorted Z.lt (applied r) /\ (forall m, m ∈ l -> version m ∈ applied r <-> by_version h !! version m = None) /\
    length qs = (2 * length (applied r))%nat /\
    plan ms (h ++ recorded (take 3 qs)) = Ok r' /\ applied r' = drop (3 / 2) (applied r) /\ drift r' = drift r.
Proof.
  cbv zeta. split; [by_decide|]. split; [by_decide|]. apply migrations_resume; by_decide.
Defined.

(** A gap in the history is not an error, and the missing migration is applied
    after a later one; two migrations that move a NUL between their description
    and their statements have one checksum; and a version above 2^63 - 1 is
    recorded as a negative number. *)
Lemma migration_gaps :
  (let m v := Migration v [97] [49] in
   plan [m 1; m 2; m 3] [row (m 1); row (m 3)] = Ok (Report [2] [1; 3] [])) /\
  checksum (Migration 1 [97; 0; 98] [99]) = checksum (Migration 1 [97] [98; 0; 99]) /\
  params (bookkeeping (2 ^ 63) (Migration (2 ^ 63) [] [])) =
    [Int (- 2 ^ 63); Text []; Text (checksum (Migration (2 ^ 63) [] []))].
Proof. split_and!; vm_compute; reflexivity. Qed.
End Resume.
