(* ===== verification/Spatial.v ===== *)
(** The uniform grid and the interest tiers of crates/ald-ecs/src/spatial.rs.
    The arithmetic of [f32] is a parameter: its operations are a class, and no
    law of theirs is used except where it is named. *)
From S2P Require Import Prelude.

(** ** f32 *)
Class Float32 (F : Type) := {
  fadd : F -> F -> F; fsub : F -> F -> F; fmul : F -> F -> F; fdiv : F -> F -> F; fsqrt : F -> F;
  fle : F -> F -> bool; feq : F -> F -> bool; fmax : F -> F -> F;
  floor_i32 : F -> Z;  (** [floor() as i32] *)
  of_int : Z -> F      (** integer literals and [as f32] *) }.

Section spatial.
Context {F : Type} `{Float32 F}.

Record vec3 := Vec3 { x : F; y : F; z : F }.
Definition vec_eqb (a b : vec3) : bool := feq (x a) (x b) && feq (y a) (y b) && feq (z a) (z b).

Definition horizontal_distance (a b : vec3) : F :=
  let dx := fsub (x a) (x b) in
  let dy := fsub (y a) (y b) in
  fsqrt (fadd (fmul dx dx) (fmul dy dy)).

Definition CELL : F := of_int 64.
Definition RADIUS_NEAR : F := of_int 128.
Definition RADIUS_MEDIUM : F := of_int 384.
Definition RADIUS_FAR : F := of_int 1024.

Inductive interest := High | Medium | Low | NoInterest.
#[global] Instance interest_eq_dec : EqDecision interest.
Proof. solve_decision. Defined.
(** In seconds. *)
Definition update_interval (t : interest) : option F :=
  match t with
  | High => Some (fdiv (of_int 1) (of_int 20)) | Medium => Some (fdiv (of_int 1) (of_int 10))
  | Low => Some (fdiv (of_int 1) (of_int 2)) | NoInterest => None
  end.

(** ** The grid *)
Abbreviation cell_key := (Z * Z)%type.
Definition cell_of (p : vec3) : cell_key := (floor_i32 (fdiv (x p) CELL), floor_i32 (fdiv (y p) CELL)).

Record spatial_grid := Grid { cells : gmap cell_key (list Z); positions : gmap Z vec3 }.
Definition grid_new : spatial_grid := Grid ∅ ∅.

(** [retain] of the other entities, and the removal of an empty cell. *)
Definition leave_cell (cells : gmap cell_key (list Z)) (k : cell_key) (e : Z) : gmap cell_key (list Z) :=
  match cells !! k with
  | Some l =>
      let l := List.filter (fun e' => negb (e' =? e)) l in
      if bool_decide (l = []) then delete k cells else <[k := l]> cells
  | None => cells
  end.
Definition enter_cell (cells : gmap cell_key (list Z)) (k : cell_key) (e : Z) : gmap cell_key (list Z) :=
  <[k := default [] (cells !! k) ++ [e]]> cells.

Definition upsert (g : spatial_grid) (e : Z) (p : vec3) : spatial_grid :=
  let key := cell_of p in
  match positions g !! e with
  | Some old =>
      let old_key := cell_of old in
      if bool_decide (old_key = key) then Grid (cells g) (<[e := p]> (positions g))
      else Grid (enter_cell (leave_cell (cells g) old_key e) key e) (<[e := p]> (positions g))
  | None => Grid (enter_cell (cells g) key e) (<[e := p]> (positions g))
  end.

Definition remove (g : spatial_grid) (e : Z) : spatial_grid :=
  match positions g !! e with
  | Some p => Grid (leave_cell (cells g) (cell_of p) e) (delete e (positions g))
  | None => g
  end.

(** [for c in a..=b]. *)
Definition inclusive (a b : Z) : list Z := seqZ a (b - a + 1).

Definition within (g : spatial_grid) (center : vec3) (radius : F) (e : Z) : bool :=
  match positions g !! e with Some p => fle (horizontal_distance p center) radius | None => false end.

Definition min_cell (center : vec3) (radius : F) : cell_key :=
  cell_of (Vec3 (fsub (x center) radius) (fsub (y center) radius) (z center)).
Definition max_cell (center : vec3) (radius : F) : cell_key :=
  cell_of (Vec3 (fadd (x center) radius) (fadd (y center) radius) (z center)).

Definition query_radius (g : spatial_grid) (center : vec3) (radius : F) : list Z :=
  let lo := min_cell center radius in
  let hi := max_cell center radius in
  cx ← inclusive lo.1 hi.1; cy ← inclusive lo.2 hi.2;
  List.filter (within g center radius) (default [] (cells g !! (cx, cy))).

Definition len (g : spatial_grid) : nat := size (positions g).
Definition is_empty (g : spatial_grid) : bool := bool_decide (positions g = ∅).
Definition position (g : spatial_grid) (e : Z) : option vec3 := positions g !! e.
Definition occupied_cells (g : spatial_grid) : nat := size (cells g).

Definition interest_tier (observer p : vec3) : interest :=
  let d := horizontal_distance observer p in
  if fle d RADIUS_NEAR then High else if fle d RADIUS_MEDIUM then Medium else if fle d RADIUS_FAR then Low else NoInterest.

Definition replication_set (g : spatial_grid) (observer : vec3) : list (Z * interest) :=
  omap (fun e => p ← position g e; if vec_eqb p observer then None else Some (e, interest_tier observer p))
    (query_radius g observer RADIUS_FAR).

(** ** The index is exact *)
Inductive op := Upsert (e : Z) (p : vec3) | Remove (e : Z).
Definition step (g : spatial_grid) (o : op) : spatial_grid :=
  match o with Upsert e p => upsert g e p | Remove e => remove g e end.

(** Where an entity was last put, if it was not removed since. *)
Definition position_after (e : Z) (hist : list op) : option vec3 :=
  foldl (fun r o => match o with
    | Upsert e' p => if e' =? e then Some p else r
    | Remove e' => if e' =? e then None else r
    end) None hist.

(** Every entity is in the cell of its position and in no other, once; there is
    no empty cell. *)
Record grid_ok (g : spatial_grid) : Prop := {
  ok_cell : forall k l, cells g !! k = Some l -> l <> [] /\ NoDup l /\
    forall e, e ∈ l -> exists p, positions g !! e = Some p /\ cell_of p = k;
  ok_position : forall e p, positions g !! e = Some p -> exists l, cells g !! cell_of p = Some l /\ e ∈ l }.

Lemma leave_cell_lookup cs k e k' :
  leave_cell cs k e !! k' =
    if decide (k' = k) then
      match List.filter (fun e' => negb (e' =? e)) (default [] (cs !! k)) with [] => None | l => Some l end
    else cs !! k'.
Proof.
  unfold leave_cell. destruct (cs !! k) as [l|] eqn:E; cbn [default id]; [|destruct (decide (k' = k)) as [->|]; [by rewrite E|done]].
  destruct (List.filter _ l) as [|a l'] eqn:Ef.
  - rewrite bool_decide_eq_true_2 by done. destruct (decide (k' = k)) as [->|]; by rewrite ?lookup_delete_eq, ?lookup_delete_ne.
  - rewrite bool_decide_eq_false_2 by done. destruct (decide (k' = k)) as [->|]; by rewrite ?lookup_insert_eq, ?lookup_insert_ne.
Qed.

Lemma elem_of_others e e' l : e' ∈ List.filter (fun a => negb (a =? e)) l <-> e' ∈ l /\ e' <> e.
Proof. rewrite elem_of_filterb, negb_true_iff, Z.eqb_neq. done. Qed.

Lemma NoDup_others f (l : list Z) : NoDup l -> NoDup (List.filter f l).
Proof. intros Hd. eapply sublist_NoDup; [exact Hd|]. apply filterb_sublist. Qed.

(** An entity leaves its cell and its position. *)
Lemma remove_ok g e p : grid_ok g -> positions g !! e = Some p ->
  grid_ok (Grid (leave_cell (cells g) (cell_of p) e) (delete e (positions g))).
Proof.
  intros [Hc Hp] He. split; cbn [cells positions].
  - intros k l. rewrite leave_cell_lookup. destruct (decide (k = cell_of p)) as [->|Hk].
    + destruct (cells g !! cell_of p) as [l0|] eqn:E; [|done]. cbn [default id]. destruct (Hc _ _ E) as (_ & Hd & Hin).
      destruct (List.filter _ l0) as [|a l'] eqn:Ef; [done|]. intros [= <-]. split; [done|]. rewrite <- Ef. split; [by apply NoDup_others|].
      intros e' [H1 H2]%elem_of_others. rewrite lookup_delete_ne by done. by apply Hin.
    + intros E. destruct (Hc _ _ E) as (Hn & Hd & Hin). split_and!; [done|done|]. intros e' He'. destruct (Hin e' He') as (q & Hq & Hk').
      exists q. rewrite lookup_delete_ne; [done|]. intros ->. congruence.
  - intros e' q [Hne Hq]%lookup_delete_Some. destruct (Hp e' q Hq) as (l & Hl & Hin). rewrite leave_cell_lookup.
    destruct (decide (cell_of q = cell_of p)) as [Heq|]; [|by exists l]. rewrite <- Heq, Hl. cbn [default id].
    assert (Hin' : e' ∈ List.filter (fun a => negb (a =? e)) l) by by apply elem_of_others.
    destruct (List.filter _ l) as [|a l'] eqn:Ef; [by apply elem_of_nil in Hin'|]. exists (a :: l'). done.
Qed.

(** A new entity enters a cell. *)
Lemma enter_ok g e p : grid_ok g -> positions g !! e = None ->
  grid_ok (Grid (enter_cell (cells g) (cell_of p) e) (<[e := p]> (positions g))).
Proof.
  intros [Hc Hp] He. unfold enter_cell.
  assert (Hout : forall k l, cells g !! k = Some l -> e ∉ l).
  { intros k l Hl Hin. destruct (Hc k l Hl) as (_ & _ & H0). destruct (H0 e Hin) as (q & Hq & _). congruence. }
  split; cbn [cells positions].
  - intros k l. destruct (decide (k = cell_of p)) as [->|Hk].
    + rewrite lookup_insert_eq. intros [= <-]. split; [by destruct (default _ _)|].
      destruct (cells g !! cell_of p) as [l0|] eqn:E; cbn [default id].
      * destruct (Hc _ _ E) as (_ & Hd & Hin). split.
        -- apply NoDup_app. split; [done|]. split; [|by apply NoDup_singleton]. intros a Ha ->%list_elem_of_singleton. by eapply Hout.
        -- intros e'. rewrite elem_of_app, list_elem_of_singleton. intros [Ha| ->]; [|exists p; by rewrite lookup_insert_eq].
           rewrite lookup_insert_ne; [by apply Hin|]. intros ->. by eapply Hout.
      * split; [by apply NoDup_singleton|]. intros e' ->%list_elem_of_singleton. exists p. by rewrite lookup_insert_eq.
    + rewrite lookup_insert_ne by done. intros E. destruct (Hc _ _ E) as (Hn & Hd & Hin). split_and!; [done|done|].
      intros e' Ha. rewrite lookup_insert_ne; [by apply Hin|]. intros ->. by eapply Hout.
  - intros e' q. destruct (decide (e' = e)) as [->|Hne].
    + rewrite lookup_insert_eq. intros [= <-]. eexists. rewrite lookup_insert_eq. split; [done|]. apply elem_of_app. right. by apply list_elem_of_singleton.
    + rewrite lookup_insert_ne by done. intros Hq. destruct (Hp e' q Hq) as (l & Hl & Hin). destruct (decide (cell_of q = cell_of p)) as [Heq|].
      * eexists. rewrite Heq, lookup_insert_eq. split; [done|]. rewrite <- Heq, Hl. apply elem_of_app. by left.
      * exists l. by rewrite lookup_insert_ne.
Qed.

Lemma grid_step_ok g o : grid_ok g -> grid_ok (step g o).
Proof.
  intros Hg. destruct o as [e p|e]; cbn [step].
  - unfold upsert. destruct (positions g !! e) as [old|] eqn:E; [|by apply enter_ok]. destruct (bool_decide_reflect (cell_of old = cell_of p)) as [Heq|Hne].
    + destruct Hg as [Hc Hp]. split; cbn [cells positions].
      * intros k l Hl. destruct (Hc k l Hl) as (Hn & Hd & Hin). split_and!; [done|done|]. intros e' He'. destruct (Hin e' He') as (q & Hq & Hk).
        destruct (decide (e' = e)) as [->|]; [exists p; rewrite lookup_insert_eq; split; [done|congruence]|exists q; by rewrite lookup_insert_ne].
      * intros e' q. destruct (decide (e' = e)) as [->|]; [|rewrite lookup_insert_ne by done; apply Hp].
        rewrite lookup_insert_eq. intros [= <-]. rewrite <- Heq. by apply Hp.
    + pose proof (enter_ok _ e p (remove_ok g e old Hg E)) as H0. cbn [cells positions] in H0. rewrite lookup_delete_eq in H0.
      specialize (H0 eq_refl). by rewrite insert_delete_eq in H0.
  - unfold remove. destruct (positions g !! e) eqn:E; [by apply remove_ok|done].
Qed.

Lemma position_state e hist : positions (run step grid_new hist) !! e = position_after e hist.
Proof.
  induction hist as [|o hist IH] using rev_ind; [done|]. rewrite run_app. set (g := run step grid_new hist) in *.
  unfold position_after. rewrite foldl_app. fold (position_after e hist). cbn [run foldl]. destruct o as [e' p|e']; cbn [step].
  - unfold upsert. destruct (positions g !! e'); [destruct (bool_decide _)|]; cbn [positions];
      (destruct (Z.eqb_spec e' e) as [->|]; by rewrite ?lookup_insert_eq, ?lookup_insert_ne).
  - unfold remove. destruct (positions g !! e') as [p|] eqn:E; cbn [positions].
    + destruct (Z.eqb_spec e' e) as [->|]; by rewrite ?lookup_delete_eq, ?lookup_delete_ne.
    + destruct (Z.eqb_spec e' e) as [->|]; [congruence|done].
Qed.

Lemma grid_new_ok : grid_ok grid_new.
Proof. split; cbn; intros ? ?; by rewrite lookup_empty. Qed.

Lemma elem_of_inclusive a b c : c ∈ inclusive a b <-> a <= c <= b.
Proof. unfold inclusive. rewrite elem_of_seqZ. lia. Qed.

(** The cell lies in the scanned rectangle. *)
Definition scanned (center : vec3) (radius : F) (k : cell_key) : Prop :=
  (min_cell center radius).1 <= k.1 <= (max_cell center radius).1 /\ (min_cell center radius).2 <= k.2 <= (max_cell center radius).2.

Lemma query_spec g center radius e : grid_ok g ->
  e ∈ query_radius g center radius <->
  exists p, positions g !! e = Some p /\ fle (horizontal_distance p center) radius = true /\ scanned center radius (cell_of p).
Proof.
  intros [Hc Hp]. unfold query_radius, scanned. rewrite list_elem_of_bind. setoid_rewrite list_elem_of_bind.
  setoid_rewrite elem_of_inclusive. setoid_rewrite elem_of_filterb. unfold within. split.
  - intros (cx & (cy & (Hin & Hw) & Hy) & Hx). destruct (cells g !! (cx, cy)) as [l|] eqn:E; [|by apply elem_of_nil in Hin].
    destruct (Hc _ _ E) as (_ & _ & H0). destruct (H0 e Hin) as (p & Hpe & Hk). rewrite Hpe in Hw. exists p. by rewrite Hk.
  - intros (p & Hpe & Hd & Hx & Hy). destruct (Hp e p Hpe) as (l & Hl & Hin). exists (cell_of p).1. split; [|done].
    exists (cell_of p).2. split; [|done]. rewrite <- surjective_pairing, Hl, Hpe. done.
Qed.

(** Cells are disjoint, so no entity is found twice. *)
Lemma NoDup_bind {A B} (f : A -> list B) l : NoDup l -> (forall a, a ∈ l -> NoDup (f a)) ->
  (forall a b c, a ∈ l -> b ∈ l -> c ∈ f a -> c ∈ f b -> a = b) -> NoDup (l ≫= f).
Proof.
  induction 1 as [|a l Ha Hl IH]; intros Hf Hd; [constructor|]. cbn. apply NoDup_app. split; [apply Hf; left|]. split.
  - intros c Hc (b & Hb & Hin)%list_elem_of_bind. apply Ha. rewrite (Hd a b c); [done|left|by right|done|done].
  - apply IH; [intros; apply Hf; by right|]. intros b b' c ? ?. apply Hd; by right.
Qed.

Lemma query_NoDup g center radius : grid_ok g -> NoDup (query_radius g center radius).
Proof.
  intros [Hc Hp].
  assert (Hone : forall k k' e, e ∈ default [] (cells g !! k) -> e ∈ default [] (cells g !! k') -> k = k').
  { intros k k' e H1 H2. destruct (cells g !! k) as [l|] eqn:E1; [|by apply elem_of_nil in H1].
    destruct (cells g !! k') as [l'|] eqn:E2; [|by apply elem_of_nil in H2].
    destruct (Hc _ _ E1) as (_ & _ & Ha), (Hc _ _ E2) as (_ & _ & Hb). destruct (Ha e H1) as (p & Hpe & <-), (Hb e H2) as (q & Hqe & <-). congruence. }
  unfold query_radius. apply NoDup_bind; [apply NoDup_seqZ| |].
  - intros cx _. apply NoDup_bind; [apply NoDup_seqZ| |].
    + intros cy _. apply NoDup_others. destruct (cells g !! (cx, cy)) as [l|] eqn:E; [by apply (Hc _ _ E)|constructor].
    + intros cy cy' e _ _ [H1 _]%elem_of_filterb [H2 _]%elem_of_filterb. by specialize (Hone _ _ _ H1 H2) as [= ?].
  - intros cx cx' e _ _ (cy & [H1 _]%elem_of_filterb & _)%list_elem_of_bind (cy' & [H2 _]%elem_of_filterb & _)%list_elem_of_bind.
    by specialize (Hone _ _ _ H1 H2) as [= ? ?].
Qed.

(** After any moves and removals, a query returns, each once, exactly the
    entities whose last position is within the radius and whose cell the scan
    covers; and the replication set of an observer tags each of them, other than
    those at the observer's own position, with the tier of its distance. *)
Theorem grid_query (hist : list op) (center : vec3) (radius : F) :
  let g := run step grid_new hist in
  NoDup (query_radius g center radius) /\
  (forall e, e ∈ query_radius g center radius <->
     exists p, position_after e hist = Some p /\ fle (horizontal_distance p center) radius = true /\ scanned center radius (cell_of p)) /\
  (forall e t, (e, t) ∈ replication_set g center <->
     exists p, position_after e hist = Some p /\ fle (horizontal_distance p center) RADIUS_FAR = true /\
       scanned center RADIUS_FAR (cell_of p) /\ vec_eqb p center = false /\ t = interest_tier center p).
Proof.
  cbn zeta. set (g := run step grid_new hist). assert (Hok : grid_ok g) by (apply (run_invariant step grid_ok); [intros; by apply grid_step_ok|apply grid_new_ok]).
  split; [by apply query_NoDup|]. split.
  - intros e. rewrite query_spec by done. unfold g. by rewrite position_state.
  - intros e t. unfold replication_set. rewrite list_elem_of_omap. split.
    + intros (e' & He' & Ht). apply query_spec in He' as (p & Hp & Hd & Hs); [|done]. unfold position in Ht. rewrite Hp in Ht. cbn in Ht.
      destruct (vec_eqb p center) eqn:Ev; [done|]. injection Ht as -> <-. exists p. rewrite <- position_state. done.
    + intros (p & Hp & Hd & Hs & Hv & ->). rewrite <- position_state in Hp. fold g in Hp. exists e. split; [apply query_spec; [done|by exists p]|].
      unfold position. rewrite Hp. cbn. by rewrite Hv.
Qed.

(** Where distances and cells fit together, as in exact arithmetic, the scan
    misses nothing. *)
Lemma query_complete (hist : list op) (center : vec3) (radius : F) (e : Z) :
  (forall p, fle (horizontal_distance p center) radius = true -> scanned center radius (cell_of p)) ->
  e ∈ query_radius (run step grid_new hist) center radius <->
  exists p, position_after e hist = Some p /\ fle (horizontal_distance p center) radius = true.
Proof.
  intros Hcover. rewrite query_spec by (apply (run_invariant step grid_ok); [intros; by apply grid_step_ok|apply grid_new_ok]).
  setoid_rewrite position_state. split; intros (p & Hp & Hd); exists p; naive_solver.
Qed.
End spatial.
Arguments vec3 F : clear implicits.

(** Whole units instead of [f32]: the scan covers the query circle. *)
Definition whole_units : Float32 Z := {|
  fadd := Z.add; fsub := Z.sub; fmul := Z.mul; fdiv := Z.div; fsqrt := Z.sqrt; fle := Z.leb; feq := Z.eqb; fmax := Z.max;
  floor_i32 := fun n => n; of_int := fun n => n |}.

Lemma whole_units_cover (center p : vec3 Z) (radius : Z) :
  @fle Z whole_units (@horizontal_distance Z whole_units p center) radius = true -> @scanned Z whole_units center radius (@cell_of Z whole_units p).
Proof.
  unfold scanned, min_cell, max_cell, cell_of, horizontal_distance, CELL. cbn. intros Hd%Z.leb_le.
  set (dx := x p - x center) in *. set (dy := y p - y center) in *.
  assert (Hpos : 0 <= dx * dx + dy * dy) by nia. pose proof (Z.sqrt_spec _ Hpos) as [_ Hs]. pose proof (Z.sqrt_nonneg (dx * dx + dy * dy)) as H0.
  assert (- radius <= dx <= radius) by nia. assert (- radius <= dy <= radius) by nia.
  repeat split; apply Z.div_le_mono; lia.
Qed.
