(* ===== verification/Timeline.v ===== *)
(** Time and state on the wire: the clock estimates of
    crates/ald-timesync/src/lib.rs, the replay debugger of
    crates/ald-replay/src/lib.rs, the position history of
    crates/ald-lagcomp/src/lib.rs and the tracker of
    crates/ald-replication/src/lib.rs. *)
From S2P Require Import Prelude Spatial.

Module TimeSync.
(** Milliseconds in an [i64], with its wrap-around. *)
Abbreviation i64 := (swrap 64).

Record time_sample := TimeSample { t0 : Z; t1 : Z; t2 : Z }.
Definition server_reply (t0 now : Z) : time_sample := TimeSample t0 now now.

Record sync_result := SyncResult { offset : Z; rtt : Z; jitter : Z }.
Definition from_sample (s : time_sample) (t3 : Z) : sync_result :=
  let r := i64 (i64 (t3 - t0 s) - i64 (t2 s - t1 s)) in
  let r := Z.max r 0 in
  SyncResult (Z.quot (i64 (i64 (t1 s - t0 s) + i64 (t2 s - t3))) 2) r 0.

(** [anchor] and the readings of the monotonic clock are in milliseconds. *)
Record server_clock := ServerClock { anchor : Z; epoch : Z }.
Definition tick_ms (c : server_clock) (now : Z) : Z := wrap 64 (sat_sub now (anchor c)).
Definition now_ms (c : server_clock) (now : Z) : Z := i64 (epoch c + i64 (sat_sub now (anchor c))).

Record clock_estimator := Estimator { samples : list sync_result; capacity : nat }.
Definition estimator_new (capacity : nat) : clock_estimator := Estimator [] (Nat.max capacity 1).

(** [max_by_key] returns the last of equal elements, [min_by_key] the first. *)
Fixpoint max_by_key (i : nat) (l : list sync_result) (best : option (nat * Z)) : option (nat * Z) :=
  match l with
  | [] => best
  | s :: l => max_by_key (S i) l (match best with Some (_, k) => if k <=? rtt s then Some (i, rtt s) else best | None => Some (i, rtt s) end)
  end.
Definition worst (l : list sync_result) : option nat := fst <$> max_by_key 0 l None.
Fixpoint min_by_key (l : list sync_result) (best : option sync_result) : option sync_result :=
  match l with
  | [] => best
  | s :: l => min_by_key l (match best with Some b => if rtt s <? rtt b then Some s else best | None => Some s end)
  end.

Definition push (e : clock_estimator) (r : sync_result) : clock_estimator :=
  let l :=
    if (capacity e <=? length (samples e))%nat then
      match worst (samples e) with Some i => delete i (samples e) | None => samples e end
    else samples e in
  Estimator (l ++ [r]) (capacity e).

Definition offset_ms (e : clock_estimator) : option Z := offset <$> min_by_key (samples e) None.
Definition i64_min : Z := - 2 ^ 63.
Definition i64_max : Z := 2 ^ 63 - 1.
Definition jitter_ms (e : clock_estimator) : Z :=
  match samples e with
  | [] | [_] => 0
  | l =>
      let lo := foldl (fun m s => Z.min m (offset s)) i64_max l in
      let hi := foldl (fun m s => Z.max m (offset s)) i64_min l in
      i64 (Z.abs (i64 (hi - lo)))
  end.
Definition rtt_ms (e : clock_estimator) : Z :=
  if bool_decide (samples e = []) then 0
  else Z.quot (foldl (fun m s => i64 (m + rtt s)) 0 (samples e)) (Z.of_nat (length (samples e))).
Definition len (e : clock_estimator) : nat := length (samples e).

Definition MIN_DELAY : Z := 60.
Definition MAX_DELAY : Z := 400.
Definition interpolation_delay_ms (rtt_ms jitter_ms : Z) : Z :=
  let jitter_guard := Z.max jitter_ms 0 in
  let base := Z.max (Z.quot rtt_ms 2) 0 in
  Z.min (i64 (i64 (MIN_DELAY + base) + jitter_guard)) MAX_DELAY.

Definition MAX_LEAD_MS : Z := 5000.
Inductive timesync_error := StaleClaim (lag_ms allowed_lag_ms : Z) | FutureClaim (lead_ms : Z) | NoSamples.
Definition validate_client_time_claim (server_now client_claim allowed_lag_ms : Z) : result unit timesync_error :=
  let lag := i64 (server_now - client_claim) in
  if allowed_lag_ms <? lag then Err (StaleClaim lag allowed_lag_ms)
  else if lag <? - MAX_LEAD_MS then Err (FutureClaim (i64 (- lag)))
  else Ok tt.

Record diagnostics := Diagnostics {
  tick_epoch_ms : Z; server_now_ms : Z; rtt_p50_ms : Z; d_jitter_ms : Z; d_interpolation_delay_ms : Z; sample_count : nat }.
Definition from_estimator (c : server_clock) (e : clock_estimator) (now : Z) : diagnostics :=
  Diagnostics (tick_ms c now) (now_ms c now) (rtt_ms e) (jitter_ms e) (interpolation_delay_ms (rtt_ms e) (jitter_ms e)) (len e).

(** *** An exchange *)

(** The range in which the sums of an exchange do not overflow: clocks within
    292 years of each other. *)
Definition small (t : Z) : Prop := - 2 ^ 60 <= t < 2 ^ 60.

Lemma i64_small t : -9223372036854775808 <= t < 9223372036854775808 -> i64 t = t.
Proof. intros Ht. apply swrap_small; [lia|exact Ht]. Qed.

Lemma i64_above t : 9223372036854775808 <= t < 18446744073709551616 -> i64 t = t - 18446744073709551616.
Proof.
  intros Ht. unfold swrap. change (2 ^ 64) with 18446744073709551616. change (2 ^ (64 - 1)) with 9223372036854775808.
  rewrite Z.mod_small by lia. by rewrite decide_False by lia.
Qed.

(** An exchange in which the request takes [out] and the reply [back]
    milliseconds, the server holds it for [hold], and the server's clock is
    [ahead] of the client's. *)
Definition exchange (sent out hold back ahead : Z) : sync_result :=
  from_sample (TimeSample sent (sent + out + ahead) (sent + out + hold + ahead)) (sent + out + hold + back).

Lemma exchange_value sent out hold back ahead :
  small sent -> small ahead -> 0 <= out < 2 ^ 60 -> 0 <= hold < 2 ^ 60 -> 0 <= back < 2 ^ 60 ->
  rtt (exchange sent out hold back ahead) = out + back /\
  offset (exchange sent out hold back ahead) = Z.quot (2 * ahead + out - back) 2.
Proof.
  unfold small, exchange, from_sample. change (2 ^ 60) with 1152921504606846976. intros Hs Ha Ho Hh Hb. cbn [t0 t1 t2 rtt offset].
  rewrite (i64_small (sent + out + hold + back - sent)), (i64_small (sent + out + hold + ahead - (sent + out + ahead))),
    (i64_small (sent + out + ahead - sent)), (i64_small (sent + out + hold + ahead - (sent + out + hold + back))) by lia.
  rewrite !i64_small by lia. split; [lia|f_equal; lia].
Qed.

(** *** The estimator *)
Lemma max_by_key_spec l : forall i best j k, max_by_key i l best = Some (j, k) ->
  (best = Some (j, k) \/ exists n s, j = (i + n)%nat /\ l !! n = Some s /\ rtt s = k) /\
  (forall s, s ∈ l -> rtt s <= k) /\ (forall b kb, best = Some (b, kb) -> kb <= k).
Proof.
  induction l as [|s l IH]; intros i best j k; cbn [max_by_key].
  - intros ->. split_and!; [by left|by intros s ?%elem_of_nil|by intros b kb [= _ ->]].
  - intros H. apply IH in H as (Hw & Hle & Hb). split_and!.
    + destruct Hw as [Hw|(n & s' & -> & Hn & Hk)]; [|right; exists (S n), s'; split_and!; [lia|done|done]].
      destruct best as [[b kb]|]; [destruct (kb <=? rtt s)|]; try (by left); right; exists 0%nat, s; injection Hw as <- <-; split_and!; (lia || done).
    + intros s' [->|Hs']%elem_of_cons; [|by apply Hle]. destruct best as [[b kb]|]; [|by eapply Hb].
      destruct (Z.leb_spec kb (rtt s)); [by eapply Hb|]. specialize (Hb _ _ eq_refl). lia.
    + intros b kb ->. destruct (Z.leb_spec kb (rtt s)); [|by eapply Hb]. specialize (Hb _ _ eq_refl). lia.
Qed.

Lemma max_by_key_some l : forall i best, is_Some best \/ l <> [] -> is_Some (max_by_key i l best).
Proof.
  induction l as [|s l IH]; intros i best Hb; cbn [max_by_key]; [destruct Hb; done|]. apply IH. left.
  destruct best as [[b k]|]; [destruct (_ <=? _)|]; eauto.
Qed.

Lemma worst_spec l : l <> [] -> exists i s, worst l = Some i /\ l !! i = Some s /\ forall s', s' ∈ l -> rtt s' <= rtt s.
Proof.
  intros Hl. destruct (max_by_key_some l 0 None ltac:(by right)) as [[j k] E]. unfold worst. rewrite E.
  destruct (max_by_key_spec _ _ _ _ _ E) as ([?|(n & s & -> & Hn & <-)] & Hle & _); [done|]. exists n, s. done.
Qed.

Lemma min_by_key_spec l : forall best b, min_by_key l best = Some b ->
  (best = Some b \/ b ∈ l) /\ (forall s, s ∈ l -> rtt b <= rtt s) /\ (forall b', best = Some b' -> rtt b <= rtt b').
Proof.
  induction l as [|s l IH]; intros best b; cbn [min_by_key].
  - intros ->. split_and!; [by left|by intros s ?%elem_of_nil|by intros b' [= ->]].
  - intros H. apply IH in H as (Hw & Hle & Hb). split_and!.
    + destruct Hw as [Hw|Hw]; [|right; by right]. destruct best as [b'|]; [destruct (rtt s <? rtt b')|]; [|by left|];
        injection Hw as ->; right; left.
    + intros s' [->|Hs']%elem_of_cons; [|by apply Hle]. destruct best as [b'|]; [|by apply Hb].
      destruct (Z.ltb_spec (rtt s) (rtt b')); [by apply Hb|]. specialize (Hb _ eq_refl). lia.
    + intros b' ->. destruct (Z.ltb_spec (rtt s) (rtt b')); [|by apply Hb]. specialize (Hb _ eq_refl). lia.
Qed.

(** The estimator keeps at most [capacity] samples, all pushed, and if it may
    keep two, one with the least round trip of all. *)
Definition estimator_inv (pushed : list sync_result) (e : clock_estimator) : Prop :=
  (length (samples e) <= capacity e)%nat /\ (forall s, s ∈ samples e -> s ∈ pushed) /\
  ((2 <= capacity e)%nat -> forall s, s ∈ pushed -> exists s', s' ∈ samples e /\ rtt s' <= rtt s).

Lemma push_inv pushed e r : (1 <= capacity e)%nat -> estimator_inv pushed e -> estimator_inv (pushed ++ [r]) (push e r).
Proof.
  intros Hc (Hl & Hin & Hmin). unfold push. destruct (Nat.leb_spec (capacity e) (length (samples e))) as [Hfull|Hroom].
  - destruct (worst_spec (samples e)) as (i & w & -> & Hi & Hw); [by intros E; rewrite E in Hfull; cbn in Hfull; lia|].
    assert (Hdel : length (delete i (samples e)) = pred (length (samples e))).
    { rewrite length_delete by (by eexists). lia. }
    split; [cbn; rewrite length_app, Hdel; cbn; lia|]. split; cbn [samples capacity].
    + intros s [Hs| ->%list_elem_of_singleton]%elem_of_app; apply elem_of_app; [left|right; by left].
      apply Hin. eapply elem_of_submseteq; [exact Hs|]. apply sublist_submseteq, sublist_delete.
    + intros H2 s [Hs| ->%list_elem_of_singleton]%elem_of_app.
      * destruct (Hmin H2 s Hs) as (s' & Hs' & Hle). pose proof (delete_Permutation_cons _ _ _ Hi) as Hp. rewrite Hp in Hs'.
        apply elem_of_cons in Hs' as [->|Hs']; [|exists s'; split; [apply elem_of_app; by left|done]].
        destruct (delete i (samples e)) as [|s2 l'] eqn:Ed; [cbn in Hdel; lia|]. exists s2. split; [apply elem_of_app; left; left|].
        assert (s2 ∈ samples e) by (rewrite Hp; right; left). specialize (Hw s2 H). lia.
      * exists r. split; [apply elem_of_app; right; by left|lia].
  - split; [cbn; rewrite length_app; cbn; lia|]. split; cbn [samples capacity].
    + intros s [Hs|Hs]%elem_of_app; apply elem_of_app; [left; by apply Hin|by right].
    + intros H2 s [Hs|Hs]%elem_of_app; [|exists s; split; [apply elem_of_app; by right|lia]].
      destruct (Hmin H2 s Hs) as (s' & ? & ?). exists s'. split; [apply elem_of_app; by left|done].
Qed.

Lemma run_inv cap rs : estimator_inv rs (run push (estimator_new cap) rs) /\ capacity (run push (estimator_new cap) rs) = Nat.max cap 1.
Proof.
  induction rs as [|r rs [IH Hc]] using rev_ind; [split; [split; [cbn; lia|split; [done|by intros _ s ?%elem_of_nil]]|done]|].
  rewrite run_app. cbn [run foldl] in *. split; [|exact Hc]. apply push_inv; [rewrite Hc; lia|exact IH].
Qed.

(** After any exchanges with a clock that is [ahead] of the client's, an
    estimator of two samples or more estimates it with an error of at most half of
    the least round trip that was ever observed, rounded up; it keeps at most its
    capacity; and a client's claim is believed exactly when it is within the
    allowed lag and lead, whatever value it has. *)
Theorem clock_estimate (cap : nat) (exchanges : list (Z * Z * Z * Z)) (ahead : Z) :
  (2 <= cap)%nat -> exchanges <> [] -> small ahead ->
  Forall (fun '(sent, out, hold, back) => small sent /\ 0 <= out < 2 ^ 60 /\ 0 <= hold < 2 ^ 60 /\ 0 <= back < 2 ^ 60) exchanges ->
  let rs := (fun '(sent, out, hold, back) => exchange sent out hold back ahead) <$> exchanges in
  let e := run push (estimator_new cap) rs in
  (len e <= cap)%nat /\
  (exists o, offset_ms e = Some o /\
     Forall (fun '(_, out, _, back) => 2 * Z.abs (o - ahead) <= out + back + 1) exchanges) /\
  forall server_now claim allowed, fits 62 server_now -> - 2 ^ 63 <= claim < 2 ^ 63 -> 0 <= allowed < 2 ^ 63 ->
    validate_client_time_claim server_now claim allowed = Ok tt <-> server_now - allowed <= claim <= server_now + MAX_LEAD_MS.
Proof.
  intros Hcap Hne Ha Hex. cbn zeta. set (rs := _ <$> exchanges). destruct (run_inv cap rs) as [(Hl & Hin & Hmin) Hc].
  set (e := run push (estimator_new cap) rs) in *. split; [unfold len; lia|]. split.
  - destruct (min_by_key (samples e) None) as [b|] eqn:Eb.
    2:{ destruct exchanges as [|ex exs]; [done|]. destruct (Hmin ltac:(lia) _ ltac:(left)) as (s' & Hs' & _).
        assert (Hsome : forall l best, is_Some best \/ l <> [] -> is_Some (min_by_key l best)).
        { induction l as [|s l IH]; intros best Hb; cbn; [destruct Hb; done|]. apply IH. left. destruct best; [destruct (_ <? _)|]; eauto. }
        destruct (Hsome (samples e) None) as [? ?]; [right; by destruct (samples e); [apply elem_of_nil in Hs'|]|congruence]. }
    apply min_by_key_spec in Eb as Hb. destruct Hb as ([?|Hb] & Hle & _); [done|]. exists (offset b). split; [unfold offset_ms; by rewrite Eb|].
    assert (Herr : 2 * Z.abs (offset b - ahead) <= rtt b + 1).
    { apply Hin, list_elem_of_fmap in Hb as ([[[sent out] hold] back] & -> & Hx). rewrite Forall_forall in Hex. specialize (Hex _ Hx). cbn in Hex.
      destruct (exchange_value sent out hold back ahead) as [-> ->]; try tauto. pose proof (Z.quot_rem' (2 * ahead + out - back) 2) as Hq.
      pose proof (Z.rem_bound_abs (2 * ahead + out - back) 2 ltac:(lia)). lia. }
    apply Forall_forall. intros [[[sent out] hold] back] Hx.
    destruct (Hmin ltac:(lia) (exchange sent out hold back ahead)) as (s' & Hs' & Hle').
    { apply list_elem_of_fmap. exists (sent, out, hold, back). done. }
    rewrite Forall_forall in Hex. specialize (Hex _ Hx). cbn in Hex. destruct (exchange_value sent out hold back ahead) as [Hr _]; try tauto.
    specialize (Hle s' Hs'). lia.
  - intros server_now claim allowed Hs Hcl Hal. unfold validate_client_time_claim, MAX_LEAD_MS. unfold fits in Hs.
    change (2 ^ 62) with 4611686018427387904 in Hs.
    change (2 ^ 63) with 9223372036854775808 in *.
    destruct (Z.lt_ge_cases (server_now - claim) 9223372036854775808) as [Hlt|Hge].
    + rewrite i64_small by lia. destruct (Z.ltb_spec allowed (server_now - claim)); [split; [done|lia]|].
      destruct (Z.ltb_spec (server_now - claim) (Z.opp 5000)); split; (done || (intros; lia)).
    + rewrite i64_above by lia. rewrite (proj2 (Z.ltb_ge allowed _)), (proj2 (Z.ltb_lt _ (Z.opp 5000))) by lia. split; [done|lia].
Qed.

Lemma clock_estimate_witness :
  let exchanges := [(1000, 50, 10, 60, 0); (7000, 300, 10, 20, 0)] in
  let ex := (fun '(a, b, c, d, _) => (a, b, c, d)) <$> exchanges in
  let e := run push (estimator_new 4) ((fun '(sent, out, hold, back) => exchange sent out hold back 1234) <$> ex) in
  offset_ms e = Some 1229 /\
  exists o, offset_ms e = Some o /\ Forall (fun '(_, out, _, back) => 2 * Z.abs (o - 1234) <= out + back + 1) ex.
Proof.
  cbv zeta. split; [vm_compute; reflexivity|].
  destruct (clock_estimate 4 ((fun '(a, b, c, d, _) => (a, b, c, d)) <$> [(1000, 50, 10, 60, 0); (7000, 300, 10, 20, 0)]) 1234) as (_ & He & _).
  - lia.
  - done.
  - by_decide.
  - unfold small. cbn. repeat constructor; change (2 ^ 60) with 1152921504606846976; lia.
  - exact He.
Defined.

(** The estimate is how far the server is ahead of the client, and old samples
    with short round trips stay for ever. *)
Lemma timesync_gaps :
  offset (exchange 0 50 0 50 1000) = 1000 /\
  (let best := SyncResult 7 10 0 in
   forall r, 10 < r -> best ∈ samples (run push (estimator_new 2) [best; SyncResult 0 r 0; SyncResult 0 r 0; SyncResult 0 r 0])).
Proof.
  split; [reflexivity|]. intros best r Hr. cbn. unfold push. cbn. unfold worst. cbn.
  rewrite (proj2 (Z.leb_le 10 r)) by lia. cbn. unfold worst. cbn. rewrite (proj2 (Z.leb_le 10 r)) by lia. cbn. left.
Qed.
End TimeSync.

Module Replay.
Inductive event_kind :=
| EventTrigger (event_name : string) | NativeInvocation (native_hash : Z) | StateBagUpdate (key value : string)
| EntitySpawn (entity_id : Z) (model : string) | EntityDespawn (entity_id : Z) | ResourceLifecycle (action : string).
Record replay_event := ReplayEvent { tick : Z; resource : string; kind : event_kind; payload : string }.
Record recording := Recording { session_id : string; max_tick : Z; events : list replay_event }.
Definition recording_new (session_id : string) : recording := Recording session_id 0 [].
Definition record_event (r : recording) (e : replay_event) : recording :=
  Recording (session_id r) (if max_tick r <? tick e then tick e else max_tick r) (events r ++ [e]).

Inductive pause_reason := TickBreakpoint (t : Z) | EventBreakpoint (name : string) | StepCompleted | EndOfRecording.
Inductive replay_error := SeekOutOfBounds (target max : Z).

Record debugger := Debugger {
  rec : recording; current_index : nat; current_tick : Z; tick_breakpoints : gset Z; event_breakpoints : gset string;
  live_entities : gmap Z string }.
Definition debugger_new (r : recording) : debugger := Debugger r 0 0 ∅ ∅ ∅.
Definition add_tick_breakpoint (d : debugger) (t : Z) : debugger :=
  Debugger (rec d) (current_index d) (current_tick d) ({[t]} ∪ tick_breakpoints d) (event_breakpoints d) (live_entities d).
Definition add_event_breakpoint (d : debugger) (name : string) : debugger :=
  Debugger (rec d) (current_index d) (current_tick d) (tick_breakpoints d) ({[name]} ∪ event_breakpoints d) (live_entities d).

Definition apply_event_state (live : gmap Z string) (k : event_kind) : gmap Z string :=
  match k with
  | EntitySpawn id model => <[id := model]> live
  | EntityDespawn id => delete id live
  | _ => live
  end.

(** At a position and tick, with these entities. *)
Definition at_ (d : debugger) (i : nat) (t : Z) (live : gmap Z string) : debugger :=
  Debugger (rec d) i t (tick_breakpoints d) (event_breakpoints d) live.

Definition step (d : debugger) : option replay_event * debugger :=
  match events (rec d) !! current_index d with
  | None => (None, d)
  | Some e => (Some e, at_ d (S (current_index d)) (tick e) (apply_event_state (live_entities d) (kind e)))
  end.

(** [continue_exec] over the events from the current one on. *)
Fixpoint continue_loop (l : list replay_event) (d : debugger) : pause_reason * debugger :=
  match l with
  | [] => (EndOfRecording, d)
  | e :: l =>
      let d := at_ d (current_index d) (tick e) (live_entities d) in
      if bool_decide (tick e ∈ tick_breakpoints d) then (TickBreakpoint (tick e), d)
      else match kind e with
      | EventTrigger name =>
          if bool_decide (name ∈ event_breakpoints d) then (EventBreakpoint name, d)
          else continue_loop l (at_ d (S (current_index d)) (tick e) (apply_event_state (live_entities d) (kind e)))
      | k => continue_loop l (at_ d (S (current_index d)) (tick e) (apply_event_state (live_entities d) k))
      end
  end.
Definition continue_exec (d : debugger) : pause_reason * debugger :=
  continue_loop (drop (current_index d) (events (rec d))) d.

Fixpoint seek_loop (l : list replay_event) (target : Z) (d : debugger) : debugger :=
  match l with
  | [] => d
  | e :: l =>
      if target <? tick e then d
      else seek_loop l target (at_ d (S (current_index d)) (tick e) (apply_event_state (live_entities d) (kind e)))
  end.
Definition seek (d : debugger) (target : Z) : result unit replay_error * debugger :=
  if (max_tick (rec d) <? target) && negb (bool_decide (events (rec d) = [])) then
    (Err (SeekOutOfBounds target (max_tick (rec d))), d)
  else (Ok tt, seek_loop (events (rec d)) target (at_ d 0 0 ∅)).

(** *** The state is a function of the position *)
Definition entities_after (l : list replay_event) : gmap Z string := foldl (fun m e => apply_event_state m (kind e)) ∅ l.

Inductive op := Step | Continue | Seek (t : Z) | BreakTick (t : Z) | BreakEvent (name : string).
Definition run_op (d : debugger) (o : op) : debugger :=
  match o with
  | Step => (step d).2 | Continue => (continue_exec d).2 | Seek t => (seek d t).2
  | BreakTick t => add_tick_breakpoint d t | BreakEvent n => add_event_breakpoint d n
  end.

Definition consistent (d : debugger) : Prop :=
  (current_index d <= length (events (rec d)))%nat /\ live_entities d = entities_after (take (current_index d) (events (rec d))).

Lemma consistent_next d e t : consistent d -> events (rec d) !! current_index d = Some e ->
  consistent (at_ d (S (current_index d)) t (apply_event_state (live_entities d) (kind e))).
Proof.
  intros [Hi Hl] He. split; cbn.
  - apply lookup_lt_Some in He. lia.
  - rewrite (take_S_r _ _ e He), Hl. unfold entities_after. by rewrite foldl_app.
Qed.

Lemma continue_ok l : forall d, l = drop (current_index d) (events (rec d)) -> consistent d ->
  consistent (continue_loop l d).2 /\ rec (continue_loop l d).2 = rec d /\ (current_index d <= current_index (continue_loop l d).2)%nat /\
  match (continue_loop l d).1 with
  | EndOfRecording => current_index (continue_loop l d).2 = length (events (rec d))
  | TickBreakpoint t => t ∈ tick_breakpoints d /\ tick <$> events (rec d) !! current_index (continue_loop l d).2 = Some t
  | EventBreakpoint n => n ∈ event_breakpoints d /\ kind <$> events (rec d) !! current_index (continue_loop l d).2 = Some (EventTrigger n)
  | StepCompleted => False
  end.
Proof.
  induction l as [|e l IH]; intros d Hl Hd; cbn [continue_loop].
  - split_and!; [done|done|done|]. symmetry in Hl. apply (f_equal length) in Hl. rewrite length_drop in Hl. cbn in Hl. destruct Hd. cbn. lia.
  - assert (He : events (rec d) !! current_index d = Some e).
    { rewrite <- (Nat.add_0_r (current_index d)), <- lookup_drop, <- Hl. done. }
    assert (Hnext : l = drop (S (current_index d)) (events (rec d))).
    { rewrite <- (drop_S _ _ _ He) in Hl || (rewrite (drop_S _ _ _ He) in Hl). by injection Hl. }
    pose proof (consistent_next d e (tick e) Hd He) as Hc.
    assert (Hrec : forall k, kind e = k -> let d' := at_ d (S (current_index d)) (tick e) (apply_event_state (live_entities d) k) in
      consistent (continue_loop l d').2 /\ rec (continue_loop l d').2 = rec d /\ (current_index d <= current_index (continue_loop l d').2)%nat /\
      match (continue_loop l d').1 with
      | EndOfRecording => current_index (continue_loop l d').2 = length (events (rec d))
      | TickBreakpoint t => t ∈ tick_breakpoints d /\ tick <$> events (rec d) !! current_index (continue_loop l d').2 = Some t
      | EventBreakpoint n => n ∈ event_breakpoints d /\ kind <$> events (rec d) !! current_index (continue_loop l d').2 = Some (EventTrigger n)
      | StepCompleted => False
      end).
    { intros k <- d'. destruct (IH d' Hnext Hc) as (H1 & H2 & H3 & H4). split_and!; [done|done|cbn in H3; lia|done]. }
    cbn [at_ tick_breakpoints event_breakpoints current_index live_entities].
    destruct (bool_decide_reflect (tick e ∈ tick_breakpoints d)).
    { cbn. split_and!; [|done|done|done|by rewrite He]. exact Hd. }
    destruct (kind e) as [name| | | | |] eqn:Ek; try (by apply (Hrec _ eq_refl)).
    destruct (bool_decide_reflect (name ∈ event_breakpoints d)); [|by apply (Hrec _ eq_refl)].
    cbn. split_and!; [exact Hd|done|done|done|]. rewrite He. cbn. by rewrite Ek.
Qed.

(** The events at the front whose tick is not above the target. *)
Fixpoint up_to (target : Z) (l : list replay_event) : list replay_event :=
  match l with [] => [] | e :: l => if target <? tick e then [] else e :: up_to target l end.

Lemma seek_spec target l : forall d,
  current_index (seek_loop l target d) = (current_index d + length (up_to target l))%nat /\
  live_entities (seek_loop l target d) = foldl (fun m e => apply_event_state m (kind e)) (live_entities d) (up_to target l) /\
  rec (seek_loop l target d) = rec d.
Proof.
  induction l as [|e l IH]; intros d; cbn [seek_loop up_to]; [cbn; split_and!; [lia|done|done]|].
  destruct (target <? tick e); [cbn; split_and!; [lia|done|done]|]. destruct (IH (at_ d (S (current_index d)) (tick e) (apply_event_state (live_entities d) (kind e)))) as (-> & -> & ->).
  cbn. split_and!; [lia|done|done].
Qed.

Lemma up_to_prefix target l : up_to target l = take (length (up_to target l)) l.
Proof. induction l as [|e l IH]; [done|]. cbn. destruct (_ <? _); [done|]. cbn. by f_equal. Qed.

Lemma up_to_length target l : (length (up_to target l) <= length l)%nat.
Proof. induction l as [|e l IH]; [done|]. cbn. destruct (_ <? _); cbn; lia. Qed.

Lemma up_to_sorted target l : StronglySorted (fun a b => tick a <= tick b) l ->
  up_to target l = List.filter (fun e => tick e <=? target) l.
Proof.
  induction 1 as [|e l Hl IH He]; [done|]. cbn. destruct (Z.ltb_spec target (tick e)), (Z.leb_spec (tick e) target); try lia.
  - clear -He H. induction He as [|e' l He' _ IH]; [done|]. cbn. by rewrite (proj2 (Z.leb_gt _ _)) by lia.
  - by f_equal.
Qed.

Lemma run_op_ok d o : consistent d -> consistent (run_op d o) /\ rec (run_op d o) = rec d.
Proof.
  intros Hd. destruct o as [| |t|t|n]; cbn [run_op].
  - unfold step. destruct (events (rec d) !! current_index d) eqn:E; [|done]. split; [by apply consistent_next|done].
  - unfold continue_exec. destruct (continue_ok _ d eq_refl Hd) as (H1 & H2 & _). done.
  - unfold seek. destruct (_ && _); [done|]. cbn [snd]. destruct (seek_spec t (events (rec d)) (at_ d 0 0 ∅)) as (Hi & Hl & Hr). split; [|done].
    split; rewrite Hi, ?Hl, Hr; cbn; [apply up_to_length|]. by rewrite <- up_to_prefix.
  - exact (conj Hd eq_refl).
  - exact (conj Hd eq_refl).
Qed.

(** Whatever steps, runs, jumps and breakpoints came before, the entities
    shown are those of the events before the position; a jump to a tick of the
    recording puts the position after the leading events up to that tick, all the
    events up to it if the recording is in order; and a run stops at the end, or
    before an event that a breakpoint names. *)
Theorem replay_deterministic (r : recording) (ops : list op) :
  let d := run run_op (debugger_new r) ops in
  live_entities d = entities_after (take (current_index d) (events r)) /\
  (forall t, t <= max_tick r \/ events r = [] -> exists d', seek d t = (Ok tt, d') /\
     take (current_index d') (events r) = up_to t (events r) /\ live_entities d' = entities_after (up_to t (events r)) /\
     (StronglySorted (fun a b => tick a <= tick b) (events r) -> up_to t (events r) = List.filter (fun e => tick e <=? t) (events r))) /\
  (forall why d', continue_exec d = (why, d') -> (current_index d <= current_index d')%nat /\
     match why with
     | EndOfRecording => current_index d' = length (events r)
     | TickBreakpoint t => tick <$> events r !! current_index d' = Some t
     | EventBreakpoint n => kind <$> events r !! current_index d' = Some (EventTrigger n)
     | StepCompleted => False
     end).
Proof.
  cbn zeta. assert (Hd : consistent (run run_op (debugger_new r) ops) /\ rec (run run_op (debugger_new r) ops) = r).
  { apply (run_invariant run_op (fun d => consistent d /\ rec d = r)).
    - intros d o [Hc Hr]. destruct (run_op_ok d o Hc) as [H1 H2]. by rewrite H2.
    - split; [split; [cbn; lia|done]|done]. }
  set (d := run run_op (debugger_new r) ops) in *. clearbody d. destruct Hd as [Hc Hr]. split; [rewrite <- Hr; apply Hc|]. split.
  - intros t Ht. unfold seek. rewrite Hr. assert ((max_tick r <? t) && negb (bool_decide (events r = [])) = false) as ->.
    { destruct Ht as [Ht|Ht]; [rewrite (proj2 (Z.ltb_ge _ _)) by lia; done|]. rewrite bool_decide_eq_true_2 by done. by rewrite andb_false_r. }
    eexists. split; [done|]. destruct (seek_spec t (events r) (at_ d 0 0 ∅)) as (-> & -> & _). cbn.
    split_and!; [by rewrite <- up_to_prefix|done|apply up_to_sorted].
  - intros why d' Hw. unfold continue_exec in Hw. destruct (continue_ok _ d eq_refl Hc) as (_ & _ & Hi & Hm). rewrite Hw, Hr in Hm. rewrite Hw in Hi.
    split; [done|]. cbn [fst snd] in Hm. destruct why; tauto.
Qed.

Lemma replay_deterministic_witness :
  let ev t k := ReplayEvent t "r" k "" in
  let r := foldl record_event (recording_new "s") [ev 1 (EntitySpawn 10 "adder"); ev 2 (EventTrigger "chat"); ev 5 (EntitySpawn 11 "bus"); ev 9 (EntityDespawn 10)] in
  let d := run run_op (debugger_new r) [Step; BreakEvent "chat"; Continue; Step; Step; Continue] in
  live_entities d = {[11 := "bus"%string]} /\
  exists d', seek d 5 = (Ok tt, d') /\ live_entities d' = entities_after (up_to 5 (events r)).
Proof.
  cbv zeta. split; [by_decide|].
  match goal with |- context [run run_op (debugger_new ?r) ?ops] => destruct (replay_deterministic r ops) as (_ & Hs & _) end.
  destruct (Hs 5) as (d' & H1 & _ & H3 & _); [left; vm_compute; congruence|]. exists d'. split; [exact H1|exact H3].
Defined.

(** A run that stopped at a breakpoint stops there again. *)
Lemma continue_stuck d why d' : continue_exec d = (why, d') -> why <> EndOfRecording -> consistent d -> continue_exec d' = (why, d').
Proof.
  assert (Hg : forall l d why d', continue_loop l d = (why, d') -> why <> EndOfRecording -> l = drop (current_index d) (events (rec d)) ->
    continue_loop (drop (current_index d') (events (rec d'))) d' = (why, d')).
  { clear. induction l as [|e l IH]; intros d why d' Hw Hn Hl; cbn [continue_loop] in Hw; [by injection Hw as <- <-|].
    assert (He : events (rec d) !! current_index d = Some e) by (rewrite <- (Nat.add_0_r (current_index d)), <- lookup_drop, <- Hl; done).
    assert (Hnext : l = drop (S (current_index d)) (events (rec d))).
    { rewrite (drop_S _ _ _ He) in Hl. by injection Hl. }
    cbn [at_ tick_breakpoints event_breakpoints current_index live_entities] in Hw.
    destruct (bool_decide (tick e ∈ tick_breakpoints d)) eqn:Eb.
    { injection Hw as <- <-. cbn [current_index rec at_]. rewrite <- Hl. cbn [continue_loop at_ tick_breakpoints]. by rewrite Eb. }
    destruct (kind e) as [name| | | | |] eqn:Ek; try (by eapply IH).
    destruct (bool_decide (name ∈ event_breakpoints d)) eqn:Ee; [|by eapply IH].
    injection Hw as <- <-. cbn [current_index rec at_]. rewrite <- Hl. cbn [continue_loop at_ tick_breakpoints event_breakpoints]. by rewrite Eb, Ek, Ee. }
  intros Hw Hn _. unfold continue_exec in *. by eapply Hg.
Qed.
End Replay.

Module LagComp.
Section lagcomp.
Context {F : Type} `{Float32 F}.

Definition DEFAULT_HISTORY_TICKS : nat := 64.
Inductive lag_error := FromFuture (claim server : Z) | TooOld (claim server age max : Z) | NoSample (entity tick : Z).

(** A [BTreeMap] from ticks to positions is the list of its entries in order. *)
Record history_buffer := History { capacity_ticks : nat; samples : gmap Z (list (Z * vec3 F)) }.
Definition history_new (capacity : nat) : history_buffer := History (Nat.max capacity 2) ∅.

Fixpoint insert_tick (t : Z) (p : vec3 F) (l : list (Z * vec3 F)) : list (Z * vec3 F) :=
  match l with
  | [] => [(t, p)]
  | (t', p') :: l' => if t <? t' then (t, p) :: l else if t =? t' then (t, p) :: l' else (t', p') :: insert_tick t p l'
  end.

(** The loop of [pop_first] ends at the capacity. *)
Definition newest (n : nat) (l : list (Z * vec3 F)) : list (Z * vec3 F) := drop (length l - n) l.

Definition record (h : history_buffer) (entity tick : Z) (pos : vec3 F) : history_buffer :=
  History (capacity_ticks h)
    (<[entity := newest (capacity_ticks h) (insert_tick tick pos (default [] (samples h !! entity)))]> (samples h)).

Definition lerp (a b f : F) : F := fadd a (fmul (fsub b a) f).

Definition at_tick (h : history_buffer) (entity tick : Z) : option (vec3 F) :=
  entry ← samples h !! entity;
  match List.find (fun e => e.1 =? tick) entry with
  | Some e => Some e.2
  | None =>
      before ← last (List.filter (fun e => e.1 <? tick) entry);
      after ← head (List.filter (fun e => tick <=? e.1) entry);
      let '(t0, p0) := before in
      let '(t1, p1) := after in
      if t1 =? t0 then Some p0
      else
        let f := fdiv (of_int (tick - t0)) (of_int (t1 - t0)) in
        Some (Vec3 (lerp (x p0) (x p1) f) (lerp (y p0) (y p1) f) (lerp (z p0) (z p1) f))
  end.

Definition forget (h : history_buffer) (entity : Z) : bool * history_buffer :=
  (bool_decide (is_Some (samples h !! entity)), History (capacity_ticks h) (delete entity (samples h))).
Definition tracked_entities (h : history_buffer) : nat := size (samples h).

Definition rewind_allowed (server_tick claim_tick max_rewind_ticks : Z) : result unit lag_error :=
  if server_tick <? claim_tick then Err (FromFuture claim_tick server_tick)
  else
    let age := server_tick - claim_tick in
    if max_rewind_ticks <? age then Err (TooOld claim_tick server_tick age max_rewind_ticks) else Ok tt.

Definition hit_landed (aimed target : vec3 F) (radius : F) : bool :=
  fle (horizontal_distance aimed target) (fmax radius (of_int 0)).

(** *** The history of an entity *)
Inductive op := Record_ (entity tick : Z) (pos : vec3 F) | Forget (entity : Z).
Definition step (h : history_buffer) (o : op) : history_buffer :=
  match o with Record_ e t p => record h e t p | Forget e => (forget h e).2 end.

(** Every tick recorded since the entity was last forgotten, with the position
    written last. *)
Definition recorded (entity : Z) (hist : list op) : option (list (Z * vec3 F)) :=
  foldl (fun l o => match o with
    | Record_ e t p => if e =? entity then Some (insert_tick t p (default [] l)) else l
    | Forget e => if e =? entity then None else l
    end) None hist.

Definition before_all (t : Z) (l : list (Z * vec3 F)) : Prop := Forall (fun e => t < e.1) l.
Definition ascending (l : list (Z * vec3 F)) : Prop := StronglySorted (fun a b => a.1 < b.1) l.

Lemma insert_tick_elem t p l e : e ∈ insert_tick t p l -> e = (t, p) \/ (e ∈ l /\ (e.1 <> t \/ ~ ascending l)).
Proof.
  induction l as [|[t' p'] l IH]; cbn [insert_tick]; [intros ->%list_elem_of_singleton; by left|].
  destruct (Z.ltb_spec t t'); [|destruct (Z.eqb_spec t t') as [->|Hne]].
  - intros [->|[->|Hin]%elem_of_cons]%elem_of_cons; [by left|right; split; [left|left; cbn; lia]|].
    right. split; [by right|]. destruct (decide (e.1 = t)) as [He|]; [|by left]. right. intros [_ Ha]%StronglySorted_inv.
    rewrite Forall_forall in Ha. specialize (Ha e Hin). cbn in Ha. lia.
  - intros [->|Hin]%elem_of_cons; [by left|]. right. split; [by right|]. destruct (decide (e.1 = t')) as [He|]; [|by left].
    right. intros [_ Ha]%StronglySorted_inv. rewrite Forall_forall in Ha. specialize (Ha e Hin). cbn in Ha. lia.
  - intros [->|[->|[Hin [?|Hn]]]%IH]%elem_of_cons; [right; split; [left|left; cbn; lia]|by left|right; split; [by right|by left]|].
    right. split; [by right|]. right. intros [Ha _]%StronglySorted_inv. done.
Qed.

Lemma insert_tick_ascending t p l : ascending l -> ascending (insert_tick t p l).
Proof.
  unfold ascending. induction 1 as [|[t' p'] l Hl IH Ha]; cbn [insert_tick]; [repeat constructor|].
  destruct (Z.ltb_spec t t'); [|destruct (Z.eqb_spec t t') as [->|Hne]].
  - constructor; [by constructor|]. constructor; [done|]. eapply Forall_impl; [exact Ha|]. cbn. intros; lia.
  - by constructor.
  - constructor; [done|]. apply Forall_forall. intros e He. apply insert_tick_elem in He as [->|[He _]]; [cbn; lia|].
    rewrite Forall_forall in Ha. by apply Ha.
Qed.

(** Inserting into the newest entries is inserting into all, then dropping. *)
Lemma insert_tick_after t p a b : Forall (fun e => e.1 < t) a -> insert_tick t p (a ++ b) = a ++ insert_tick t p b.
Proof.
  induction 1 as [|[t' p'] a Ht Ha IH]; [done|]. cbn [app insert_tick]. cbn in Ht.
  rewrite (proj2 (Z.ltb_ge t t')), (proj2 (Z.eqb_neq t t')) by lia. by rewrite IH.
Qed.

Lemma insert_tick_before t p a b e0 : e0 ∈ a -> t <= e0.1 -> ascending a -> exists a', insert_tick t p (a ++ b) = a' ++ b.
Proof.
  intros He Ht Ha. induction Ha as [|[t' p'] a Hl IH Hall]; [by apply elem_of_nil in He|]. cbn [app insert_tick].
  destruct (Z.ltb_spec t t'); [by exists ((t, p) :: (t', p') :: a)|]. destruct (Z.eqb_spec t t') as [->|Hne]; [by exists ((t', p) :: a)|].
  apply elem_of_cons in He as [->|He]; [cbn in Ht; lia|]. destruct (IH He) as [a' ->]. by exists ((t', p') :: a').
Qed.

Lemma insert_tick_length t p l : (length l <= length (insert_tick t p l) <= S (length l))%nat.
Proof. induction l as [|[t' p'] l IH]; cbn [insert_tick]; [cbn; lia|]. destruct (_ <? _); [cbn; lia|]. destruct (_ =? _); cbn; lia. Qed.

Lemma newest_insert n t p l : ascending l -> newest n (insert_tick t p (newest n l)) = newest n (insert_tick t p l).
Proof.
  intros Hl. unfold newest. set (k := (length l - n)%nat). destruct (decide (k = 0%nat)) as [Hk|Hk]; [by rewrite Hk, drop_0|].
  assert (Hln : (n < length l)%nat) by lia. set (a := take k l). set (b := drop k l).
  assert (Hab : l = a ++ b) by (symmetry; apply take_drop). assert (Hlb : length b = n) by (unfold b; rewrite length_drop; lia).
  assert (Hla : length a = k) by (unfold a; rewrite length_take; lia).
  assert (Hasc : ascending a /\ Forall (fun e => Forall (fun e' => e.1 < e'.1) b) a).
  { unfold ascending in *. rewrite Hab in Hl. clear -Hl. induction a as [|e a IH]; [split; constructor|].
    apply StronglySorted_inv in Hl as [Hl He]. apply Forall_app in He as [Hea Heb]. destruct (IH Hl). split; by constructor. }
  destruct Hasc as [Ha Hcross].
  destruct (decide (Exists (fun e => t <= e.1) a)) as [Hex|Hno].
  - apply Exists_exists in Hex as (e0 & He0 & Ht). destruct (insert_tick_before t p a b e0 He0 Ht Ha) as [a' Ha']. rewrite Hab, Ha', length_app.
    rewrite Forall_forall in Hcross. specialize (Hcross e0 He0).
    replace (length a' + length b - n)%nat with (length a' + 0)%nat by lia. rewrite drop_app_add. cbn [drop].
    destruct b as [|[tb pb] b']; [cbn in Hlb; by rewrite <- Hlb|].
    apply Forall_cons in Hcross as [Hc _]. cbn in Hc. cbn [insert_tick]. rewrite (proj2 (Z.ltb_lt t tb)) by lia.
    cbn [length] in Hlb |- *. by replace (S (S (length b')) - n)%nat with 1%nat by lia.
  - assert (Hall : Forall (fun e => e.1 < t) a).
    { apply Forall_forall. intros e He. apply Z.nle_gt. intros Hle. apply Hno. apply Exists_exists. by exists e. }
    assert (He : insert_tick t p l = a ++ insert_tick t p b) by (transitivity (insert_tick t p (a ++ b)); [by f_equal|by apply insert_tick_after]).
    rewrite He, length_app.
    pose proof (insert_tick_length t p b). replace (length a + length (insert_tick t p b) - n)%nat with (length a + (length (insert_tick t p b) - n))%nat by lia.
    by rewrite drop_app_add.
Qed.

Lemma history_state cap hist :
  let h := run step (history_new cap) hist in
  capacity_ticks h = Nat.max cap 2 /\
  forall e, samples h !! e = newest (Nat.max cap 2) <$> recorded e hist /\ (forall l, recorded e hist = Some l -> ascending l /\ l <> []).
Proof.
  cbn zeta. induction hist as [|o hist [Hc IH]] using rev_ind; [done|]. rewrite run_app. set (h := run step (history_new cap) hist) in *.
  cbn [run foldl]. split; [by destruct o|]. intros e. unfold recorded. rewrite foldl_app. fold (recorded e hist). cbn [foldl].
  destruct (IH e) as [Hs Ha]. destruct o as [e' t p|e']; cbn [step record forget samples snd].
  - destruct (Z.eqb_spec e' e) as [->|Hne]; [|by rewrite lookup_insert_ne]. rewrite lookup_insert_eq, Hs, Hc. cbn [fmap option_fmap option_map].
    destruct (recorded e hist) as [l|]; cbn [default id fmap option_fmap option_map].
    + destruct (Ha l eq_refl) as [Hl _]. split; [by rewrite newest_insert|]. intros l' [= <-]. split; [by apply insert_tick_ascending|].
      intros E. pose proof (insert_tick_length t p l) as Hlen. destruct l as [|[t' p'] l]; [done|]. rewrite E in Hlen. cbn in Hlen. lia.
    + split; [done|]. intros l' [= <-]. split; [repeat constructor|done].
  - destruct (Z.eqb_spec e' e) as [->|Hne]; [by rewrite lookup_delete_eq|by rewrite lookup_delete_ne].
Qed.

(** The position written last at a tick since the entity was last forgotten. *)
Definition written (entity t : Z) (hist : list op) : option (vec3 F) :=
  foldl (fun v o => match o with
    | Record_ e t' p => if (e =? entity) && (t' =? t) then Some p else v
    | Forget e => if e =? entity then None else v
    end) None hist.

Lemma find_insert_tick t p t' l :
  ascending l -> List.find (fun e => e.1 =? t') (insert_tick t p l) = if t =? t' then Some (t, p) else List.find (fun e => e.1 =? t') l.
Proof.
  induction 1 as [|[t0 p0] l Hl IH Ha]; cbn [insert_tick].
  - cbn. by destruct (t =? t').
  - destruct (Z.ltb_spec t t0); [|destruct (Z.eqb_spec t t0) as [->|Hne]]; cbn; [by destruct (t =? t')|by destruct (t0 =? t')|].
    rewrite IH. destruct (Z.eqb_spec t0 t'), (Z.eqb_spec t t'); (done || lia).
Qed.

Lemma recorded_written hist e t :
  (snd <$> (l ← recorded e hist; List.find (fun e => e.1 =? t) l)) = written e t hist.
Proof.
  induction hist as [|o hist IH] using rev_ind; [done|]. unfold recorded, written in *. rewrite !foldl_app. cbn [foldl]. rewrite <- IH.
  destruct o as [e' t' p|e'].
  - destruct (Z.eqb_spec e' e) as [->|Hne]; cbn [andb]; [|done]. cbn [mbind option_bind]. rewrite find_insert_tick.
    + destruct (t' =? t); [done|]. fold (recorded e hist). by destruct (recorded e hist).
    + fold (recorded e hist). destruct (history_state 0 hist) as [_ Hst]. destruct (Hst e) as [_ Ha]. destruct (recorded e hist); [by apply Ha|constructor].
  - by destruct (e' =? e).
Qed.

Lemma newest_suffix n l : exists a, l = a ++ newest n l.
Proof. exists (take (length l - n) l). symmetry. apply take_drop. Qed.

Lemma find_ascending t p l : ascending l -> (t, p) ∈ l -> List.find (fun e => e.1 =? t) l = Some (t, p).
Proof.
  intros Hal Hin. induction Hal as [|[t' p'] l Hl IH Hall]; [by apply elem_of_nil in Hin|]. cbn.
  apply elem_of_cons in Hin as [[= -> ->]|Hin]; [by rewrite Z.eqb_refl|]. rewrite Forall_forall in Hall. specialize (Hall _ Hin). cbn in Hall.
  rewrite (proj2 (Z.eqb_neq t' t)) by lia. by apply IH.
Qed.

Lemma last_filter_some (f : Z * vec3 F -> bool) l : is_Some (last (List.filter f l)) <-> exists e, e ∈ l /\ f e = true.
Proof.
  split.
  - intros [e He]. apply last_Some in He as [l' He]. exists e. apply elem_of_filterb. rewrite He. apply elem_of_app. right. by left.
  - intros (e & He). apply elem_of_filterb in He. destruct (List.filter f l) as [|e' l'] using rev_ind; [by apply elem_of_nil in He|]. rewrite last_snoc. by eexists.
Qed.
Lemma head_filter_some (f : Z * vec3 F -> bool) l : is_Some (head (List.filter f l)) <-> exists e, e ∈ l /\ f e = true.
Proof.
  split.
  - intros [e He]. exists e. apply elem_of_filterb. destruct (List.filter f l); [done|]. injection He as ->. left.
  - intros (e & He). apply elem_of_filterb in He. destruct (List.filter f l); [by apply elem_of_nil in He|]. by eexists.
Qed.

(** After any records and removals, an entity keeps the newest ticks it was
    recorded at, as many as the capacity, each with the position written last,
    late records included; a position is given for a kept tick and between two kept
    ticks, and for no other; and a claim is allowed exactly when it is neither in
    the future nor further back than the limit. *)
Theorem lag_history (cap : nat) (hist : list op) (e : Z) :
  let h := run step (history_new cap) hist in
  samples h !! e = newest (Nat.max cap 2) <$> recorded e hist /\
  (forall l, samples h !! e = Some l -> ascending l /\ (length l <= Nat.max cap 2)%nat /\
     (forall t p, (t, p) ∈ l -> at_tick h e t = Some p /\ written e t hist = Some p) /\
     (forall t, is_Some (at_tick h e t) <-> exists a b, a ∈ l /\ b ∈ l /\ a.1 <= t <= b.1)) /\
  (samples h !! e = None -> forall t, at_tick h e t = None) /\
  (forall server claim limit, rewind_allowed server claim limit = Ok tt <-> server - limit <= claim <= server).
Proof.
  cbn zeta. destruct (history_state cap hist) as [_ Hst]. destruct (Hst e) as [Hs Ha]. set (h := run step (history_new cap) hist) in *. clearbody h.
  split; [done|]. split; [|split].
  - intros l Hl. rewrite Hl in Hs. destruct (recorded e hist) as [full|] eqn:Hrec; [|done]. injection Hs as ->. destruct (Ha full eq_refl) as [Hasc _].
    set (l := newest (Nat.max cap 2) full) in *.
    assert (Hal : ascending l).
    { destruct (newest_suffix (Nat.max cap 2) full) as [a Hf]. fold l in Hf. rewrite Hf in Hasc. clear -Hasc. unfold ascending in *.
      induction a as [|x0 a IH]; [done|]. by apply StronglySorted_inv in Hasc as [? _]; auto. }
    split; [done|]. split; [unfold l, newest; rewrite length_drop; lia|].
    pose proof (fun t p => find_ascending t p l Hal) as Hfind.
    split.
    + intros t p Hin. split; [unfold at_tick; rewrite Hl; cbn; by rewrite (Hfind t p Hin)|]. rewrite <- recorded_written, Hrec. cbn.
      rewrite (find_ascending t p full); [done|done|]. destruct (newest_suffix (Nat.max cap 2) full) as [a Hf]. rewrite Hf. apply elem_of_app. by right.
    + intros t. unfold at_tick. rewrite Hl. cbn [mbind option_bind]. destruct (List.find _ l) as [[t' p']|] eqn:Ef.
      * apply find_Some_elem in Ef as [Hin Ht%Z.eqb_eq]. cbn in Ht. subst t'. split; [|by eexists]. intros _. exists (t, p'), (t, p'). cbn. split_and!; (done || lia).
      * split.
        -- intros Hsome. destruct (last (List.filter (fun e => e.1 <? t) l)) as [a|] eqn:El; [|by destruct Hsome].
           destruct (head (List.filter (fun e => t <=? e.1) l)) as [b|] eqn:Eh; [|by destruct Hsome].
           apply last_Some in El as [l1 El]. assert (Hina : a ∈ List.filter (fun e => e.1 <? t) l) by (rewrite El; apply elem_of_app; right; by left).
           apply elem_of_filterb in Hina as [Hina Hlt]. assert (Hinb : b ∈ List.filter (fun e => t <=? e.1) l) by (destruct (List.filter (fun e => t <=? e.1) l); [done|]; injection Eh as ->; left).
           apply elem_of_filterb in Hinb as [Hinb Hge]. exists a, b. split_and!; [done|done|lia|lia].
        -- intros (a & b & Hina & Hinb & Hab). apply find_None_Forall in Ef. rewrite Forall_forall in Ef.
           pose proof (Ef a Hina) as Hna. cbn in Hna. apply Z.eqb_neq in Hna.
           destruct (proj2 (last_filter_some (fun e => e.1 <? t) l)) as [[t0 p0] ->]; [exists a; split; [done|lia]|].
           destruct (proj2 (head_filter_some (fun e => t <=? e.1) l)) as [[t1 p1] ->]; [exists b; split; [done|lia]|].
           cbn. destruct (t1 =? t0); by eexists.
  - intros Hn t. unfold at_tick. by rewrite Hn.
  - intros server claim limit. unfold rewind_allowed. destruct (Z.ltb_spec server claim); [split; [done|lia]|].
    destruct (Z.ltb_spec limit (server - claim)); split; (done || (intros; lia)).
Qed.
End lagcomp.

#[local] Existing Instance whole_units.
(** A late tick is kept with the two newest, and between two ticks the position
    is interpolated. *)
Lemma lag_history_witness :
  let hist := [Record_ 7 10 (Vec3 0 0 0); Record_ 7 30 (Vec3 20 40 0); Record_ 7 20 (Vec3 10 0 0)] in
  let h := run step (history_new 2) hist in
  samples h !! 7 = Some [(20, Vec3 10 0 0); (30, Vec3 20 40 0)] /\
  at_tick h 7 20 = Some (Vec3 10 0 0) /\ at_tick h 7 15 = None.
Proof.
  cbn zeta. set (hist := [_; _; _]). pose proof (lag_history 2 hist 7) as (Hs & Hk & _). cbn zeta in Hs, Hk.
  assert (E : samples (run step (history_new 2) hist) !! 7 = Some [(20, Vec3 10 0 0); (30, Vec3 20 40 0)]) by (rewrite Hs; vm_compute; reflexivity).
  split; [done|]. destruct (Hk _ E) as (_ & _ & Hat & Hsome). split; [apply Hat; left|].
  destruct (at_tick _ 7 15) eqn:Ea; [|done]. exfalso. destruct (proj1 (Hsome 15)) as (a & b & Ha & _ & Hle); [by rewrite Ea|].
  repeat (apply elem_of_cons in Ha as [->|Ha]; [cbn in Hle; lia|]). by apply elem_of_nil in Ha.
Defined.
End LagComp.

Module Replication.
Section replication.
Context {F : Type} `{Float32 F}.

Record delta := Delta { entity : Z; component : string; data : list Z }.
Record baseline := Baseline { tick : Z; fields : gmap string (list Z) }.
Record replication_stats := Stats {
  packets_sent : Z; bytes_sent : Z; deltas_sent : Z; snapshots_sent : Z; dropped_updates : Z; queued : nat }.
(** [last_sent] is in nanoseconds. *)
Record tracker := Tracker { base : baseline; pending : list delta; tier : interest; last_sent : option Z; stats : replication_stats }.
Inductive packet := PSnapshot (tick : Z) (fields : gmap string (list Z)) | PDelta (deltas : list delta).

Definition tracker_new (initial_tick : Z) : tracker := Tracker (Baseline initial_tick ∅) [] Medium None (Stats 0 0 0 0 0 0).

Definition same_field (a b : delta) : bool := (entity a =? entity b) && bool_decide (component a = component b).
(** [find] and the write through it, or [push_back]. *)
Fixpoint put (d : delta) (l : list delta) : list delta :=
  match l with
  | [] => [d]
  | d' :: l' => if same_field d' d then d :: l' else d' :: put d l'
  end.
Definition record (t : tracker) (d : delta) : tracker := Tracker (base t) (put d (pending t)) (tier t) (last_sent t) (stats t).

Definition set_queued (s : replication_stats) (n : nat) : replication_stats :=
  Stats (packets_sent s) (bytes_sent s) (deltas_sent s) (snapshots_sent s) (dropped_updates s) n.
Definition acknowledge (t : tracker) (tk : Z) : tracker :=
  Tracker (Baseline tk (fields (base t))) (pending t) (tier t) (last_sent t) (set_queued (stats t) (length (pending t))).

Definition set_tier (t : tracker) (i : interest) : tracker := Tracker (base t) (pending t) i (last_sent t) (stats t).

Definition as_secs_f32 (nanos : Z) : F :=
  fadd (of_int (nanos / 1000000000)) (fdiv (of_int (nanos mod 1000000000)) (of_int 1000000000)).
Definition due (t : tracker) (now : Z) : bool :=
  match update_interval (tier t) with
  | None => false
  | Some interval => match last_sent t with None => true | Some s => fle interval (as_secs_f32 (sat_sub now s)) end
  end.

Definition merge (fs : gmap string (list Z)) (ds : list delta) : gmap string (list Z) :=
  foldl (fun fs d => <[component d := data d]> fs) fs ds.
Definition size_of (l : list (list Z)) : Z := foldr (fun v n => Z.of_nat (length v) + n) 0 l.

Definition flush (t : tracker) (now : Z) (force_snapshot : bool) : packet * tracker :=
  let s := stats t in
  if force_snapshot then
    let fs := merge (fields (base t)) (pending t) in
    let size := size_of (map_to_list fs).*2 in
    let s' := Stats (wrap 64 (packets_sent s + 1)) (wrap 64 (bytes_sent s + size)) (deltas_sent s)
                    (wrap 64 (snapshots_sent s + 1)) (dropped_updates s) 0 in
    (PSnapshot (tick (base t)) fs, Tracker (Baseline (tick (base t)) fs) [] (tier t) (Some now) s')
  else
    let ds := pending t in
    let s' := Stats (if bool_decide (ds = []) then packets_sent s else wrap 64 (packets_sent s + 1))
                    (wrap 64 (bytes_sent s + size_of (data <$> ds))) (wrap 64 (deltas_sent s + Z.of_nat (length ds)))
                    (snapshots_sent s) (dropped_updates s) 0 in
    (PDelta ds, Tracker (base t) [] (tier t) (Some now) s').

Definition drop_oldest (t : tracker) : tracker :=
  match pending t with
  | [] => t
  | _ :: l => let s := stats t in
      Tracker (base t) l (tier t) (last_sent t)
        (Stats (packets_sent s) (bytes_sent s) (deltas_sent s) (snapshots_sent s) (wrap 64 (dropped_updates s + 1)) (length l))
  end.
Fixpoint cap_loop (fuel : nat) (t : tracker) (max : nat) : tracker :=
  match fuel with
  | O => t
  | S fuel => if (max <? length (pending t))%nat then cap_loop fuel (drop_oldest t) max else t
  end.
Definition cap (t : tracker) (max : nat) : tracker := cap_loop (length (pending t)) t max.

(** *** What the client ends up with *)
Inductive op := Record_ (d : delta) | Flush (now : Z) (snapshot : bool) | Ack (tk : Z) | SetTier (i : interest) | Cap (max : nat).

(** A receiver, for the statements only, since the repository has no code that
    applies these packets: a delta writes fields, a snapshot of entity [e]
    replaces its fields. *)
Abbreviation view := (gmap (Z * string) (list Z)).
Definition write (v : view) (d : delta) : view := <[(entity d, component d) := data d]> v.
Definition receive (e : Z) (v : view) (p : packet) : view :=
  match p with
  | PDelta ds => foldl write v ds
  | PSnapshot _ fs => kmap (pair e) fs
  end.
Definition step (e : Z) (s : tracker * view) (o : op) : tracker * view :=
  let '(t, v) := s in
  match o with
  | Record_ d => (record t d, v)
  | Flush now snap => let '(p, t) := flush t now snap in (t, receive e v p)
  | Ack tk => (acknowledge t tk, v)
  | SetTier i => (set_tier t i, v)
  | Cap max => (cap t max, v)
  end.
Definition recorded (hist : list op) : view :=
  foldl (fun v o => match o with Record_ d => write v d | _ => v end) ∅ hist.

Definition key (d : delta) : Z * string := (entity d, component d).
Lemma same_field_spec a b : reflect (key a = key b) (same_field a b).
Proof.
  unfold same_field, key. destruct (Z.eqb_spec (entity a) (entity b)) as [->|Hn]; cbn; [|constructor; congruence].
  destruct (bool_decide_reflect (component a = component b)) as [->|Hn]; constructor; congruence.
Qed.

Lemma put_keys d l : NoDup (key <$> l) -> NoDup (key <$> put d l) /\ forall k, k ∈ key <$> put d l <-> k = key d \/ k ∈ key <$> l.
Proof.
  induction l as [|d' l IH]; cbn [put fmap list_fmap]; intros Hnd.
  - split; [apply NoDup_singleton|]. intros k. rewrite list_elem_of_singleton, elem_of_nil. tauto.
  - apply NoDup_cons in Hnd as [Hni Hnd]. destruct (IH Hnd) as [IH1 IH2].
    destruct (same_field_spec d' d) as [He|Hne]; cbn [fmap list_fmap].
    + rewrite <- He. split; [by constructor|]. intros k. rewrite !elem_of_cons. tauto.
    + split; [apply NoDup_cons; split; [|done]; rewrite IH2; intros [|]; done|]. intros k. rewrite !elem_of_cons, IH2. tauto.
Qed.

Lemma write_fresh d l v : key d ∉ key <$> l -> foldl write (write v d) l = write (foldl write v l) d.
Proof.
  revert v. induction l as [|d' l IH]; intros v Hn; [done|]. cbn [foldl fmap list_fmap] in *. apply not_elem_of_cons in Hn as [Hne Hn].
  rewrite <- IH by done. f_equal. by apply insert_insert_ne.
Qed.
Lemma write_put d l v : NoDup (key <$> l) -> foldl write v (put d l) = write (foldl write v l) d.
Proof.
  revert v. induction l as [|d' l IH]; intros v Hnd; [done|]. cbn [put foldl fmap list_fmap] in *. apply NoDup_cons in Hnd as [Hni Hnd].
  destruct (same_field_spec d' d) as [He|Hne]; cbn [foldl]; [|by apply IH]. rewrite He in Hni. rewrite !write_fresh by congruence.
  unfold write, key in *. rewrite He. by rewrite insert_insert_eq.
Qed.

#[export] Instance pair_inj e : Inj eq eq (@pair Z string e).
Proof. by intros a b [= ->]. Qed.
Lemma merge_writes e fs ds :
  Forall (fun d => entity d = e) ds -> kmap (M2 := gmap (Z * string)) (pair e) (merge fs ds) = foldl write (kmap (pair e) fs) ds.
Proof.
  unfold merge. intros Hall. revert fs. induction Hall as [|d ds He Hall IH]; intros fs; [done|]. cbn [foldl]. rewrite IH. f_equal.
  unfold write. rewrite He. apply (kmap_insert (M2 := gmap (Z * string)) (pair e)).
Qed.

Lemma put_forall (P : delta -> Prop) d l : P d -> Forall P l -> Forall P (put d l).
Proof. intros Hd. induction 1 as [|d' l Hd' Hl IH]; cbn [put]; [by repeat constructor|]. destruct (same_field d' d); by constructor. Qed.

(** Every flush is of one kind, nothing is dropped, and snapshots are of one entity. *)
Definition uses (e : Z) (snap : bool) (o : op) : Prop :=
  match o with Record_ d => snap = true -> entity d = e | Flush _ b => b = snap | Cap _ => False | _ => True end.

Definition synced (e : Z) (snap : bool) (s : tracker * view) (rec : view) : Prop :=
  NoDup (key <$> pending s.1) /\ (snap = true -> Forall (fun d => entity d = e) (pending s.1)) /\
  foldl write (if snap then kmap (pair e) (fields (base s.1)) else s.2) (pending s.1) = rec.

Lemma synced_run e snap tk hist : Forall (uses e snap) hist -> synced e snap (run (step e) (tracker_new tk, ∅) hist) (recorded hist).
Proof.
  induction hist as [|o hist IH] using rev_ind; intros Hall.
  - split; [constructor|]. split; [constructor|]. cbn. destruct snap; [|done]. apply kmap_empty.
  - apply Forall_app in Hall as [Hall [Ho _]%Forall_cons]. unfold recorded. rewrite run_app, foldl_app. fold (recorded hist).
    destruct (run (step e) (tracker_new tk, ∅) hist) as [t v]. destruct (IH Hall) as (Hnd & He & Hv). cbn [run foldl fst snd] in *.
    destruct o as [d|now b|tk'|i|mx]; cbn [step].
    + split; [by apply put_keys|]. split; [intros Hs; apply put_forall; auto|]. cbn [fst snd record pending base]. by rewrite write_put, Hv.
    + cbn in Ho. subst b. destruct snap; (split; [constructor|]); (split; [constructor|]); cbn; [|done].
      rewrite merge_writes by auto. done.
    + done.
    + done.
    + done.
Qed.

Lemma cap_loop_spec fuel t max :
  (length (pending t) <= max + fuel)%nat ->
  pending (cap_loop fuel t max) = drop (length (pending t) - max) (pending t) /\ base (cap_loop fuel t max) = base t /\
  dropped_updates (stats (cap_loop fuel t max)) mod 2 ^ 64 = (dropped_updates (stats t) + Z.of_nat (length (pending t) - max)) mod 2 ^ 64.
Proof.
  revert t. induction fuel as [|fuel IH]; intros t Hf; cbn [cap_loop].
  - replace (length (pending t) - max)%nat with 0%nat by lia. by rewrite drop_0, Z.add_0_r.
  - destruct (Nat.ltb_spec max (length (pending t))) as [Hlt|Hge].
    + destruct (pending t) as [|d l] eqn:Ep; [cbn in Hlt; lia|].
      assert (Ed : pending (drop_oldest t) = l) by (unfold drop_oldest; by rewrite Ep).
      destruct (IH (drop_oldest t)) as (H1 & H2 & H3); [rewrite Ed; cbn in Hf; lia|]. rewrite Ed in H1, H3. cbn [length] in *.
      replace (S (length l) - max)%nat with (S (length l - max)) by lia. split; [done|]. unfold drop_oldest in H2, H3 |- *. rewrite Ep in H2, H3 |- *.
      split; [done|]. rewrite H3. cbn [dropped_updates stats]. unfold wrap. rewrite Zplus_mod_idemp_l. f_equal. lia.
    + replace (length (pending t) - max)%nat with 0%nat by lia. by rewrite drop_0, Z.add_0_r.
Qed.

Lemma put_order d l : key <$> put d l = if decide (key d ∈ key <$> l) then key <$> l else (key <$> l) ++ [key d].
Proof.
  induction l as [|d' l IH]; cbn [put fmap list_fmap]; [done|].
  destruct (same_field_spec d' d) as [He|Hne]; cbn [fmap list_fmap].
  - rewrite decide_True by (rewrite He; left). by rewrite He.
  - rewrite IH. destruct (decide (key d ∈ key <$> l)) as [Hin|Hni].
    + rewrite decide_True by (by right). done.
    + rewrite decide_False; [done|]. rewrite elem_of_cons. intros [E|E]; congruence.
Qed.

(** C28: However updates, acknowledgements and tier changes interleave with flushes
    that are all deltas, or all snapshots of one entity, a receiver that applies
    the packets holds after the next flush exactly the last recorded value of
    every field. Recording a field that is queued keeps its place in the queue,
    so the queue is in the order of the fields' first recordings since the
    flush; [cap] drops from the front of that order and counts what it drops. *)
Theorem replication_delivers (e tk now : Z) (snap : bool) (hist : list op) :
  (Forall (uses e snap) hist -> (run (step e) (tracker_new tk, ∅) (hist ++ [Flush now snap])).2 = recorded hist) /\
  (forall t d, key <$> pending (record t d) =
    if decide (key d ∈ key <$> pending t) then key <$> pending t else (key <$> pending t) ++ [key d]) /\
  (forall t max, pending (cap t max) = drop (length (pending t) - max) (pending t) /\ dropped_updates (stats (cap t max)) mod 2 ^ 64 = (dropped_updates (stats t) + Z.of_nat (length (pending t) - max)) mod 2 ^ 64).
Proof.
  split; [|split; [intros t d; apply put_order|]].
  - intros Hall. pose proof (synced_run e snap tk hist Hall) as (Hnd & He & Hv). rewrite run_app.
    destruct (run (step e) (tracker_new tk, ∅) hist) as [t v]. cbn [fst snd] in *. destruct snap; cbn; [|done]. by rewrite merge_writes by auto.
  - intros t max. destruct (cap_loop_spec (length (pending t)) t max) as (H1 & _ & H3); [lia|]. done.
Qed.

(** The front of the queue is not the oldest update: the newest value of a field
    recorded early is dropped before an older value of another field. *)
Lemma cap_drops_newest :
  let t := foldl record (tracker_new 0) [Delta 1 "a" [1]; Delta 1 "b" [2]; Delta 1 "a" [3]] in
  pending t = [Delta 1 "a" [3]; Delta 1 "b" [2]] /\ pending (cap t 1) = [Delta 1 "b" [2]].
Proof. split; vm_compute; reflexivity. Qed.

(** A delta flush does not reach the baseline: the next snapshot takes the client
    back to an older value. *)
Lemma snapshot_reverts :
  let one := Record_ (Delta 1 "pos" [1]) in
  let two := Record_ (Delta 1 "pos" [2]) in
  let hist := [one; Flush 0 true; two; Flush 1 false] in
  (run (step 1) (tracker_new 0, ∅) hist).2 !! (1, "pos"%string) = Some [2] /\
  (run (step 1) (tracker_new 0, ∅) (hist ++ [Flush 2 true])).2 !! (1, "pos"%string) = Some [1].
Proof. split; vm_compute; reflexivity. Qed.

(** An acknowledgement confirms nothing and what was sent is not kept: a lost
    delta packet is never sent again. *)
Lemma nothing_resent (e : Z) (hist : list op) (s : tracker * view) :
  Forall (fun o => match o with Record_ _ => False | Flush _ b => b = false | _ => True end) hist -> pending s.1 = [] ->
  (run (step e) s hist).2 = s.2.
Proof.
  intros Hall. revert s. induction Hall as [|o hist Ho Hall IH]; intros [t v] Hp; [done|]. cbn [run foldl].
  cbn in Hp. destruct o as [d|n b|tk'|i|mx]; [done|cbn in Ho; subst b| | |]; cbn [step flush]; rewrite (IH _); cbn; rewrite ?Hp; try done.
  unfold cap. by rewrite Hp.
Qed.
End replication.

Lemma replication_delivers_witness :
  let hist := [Record_ (Delta 1 "pos" [1]); Record_ (Delta 2 "pos" [5]); Flush 0 false; Ack 3; Record_ (Delta 1 "pos" [2])] in
  Forall (uses 1 false) hist /\ (run (step 1) (tracker_new 0, ∅) (hist ++ [Flush 9 false])).2 = recorded hist.
Proof.
  cbn zeta. split; [by repeat constructor|]. apply (replication_delivers 1 0 9 false). by repeat constructor.
Defined.
End Replication.
