(* ===== verification/Cfxlua.v ===== *)
(** The CfxLua frontend of crates/ald-cfxlua-compat/src/lib.rs: vectors (module
    [Vectors]), hashes and the backtick rewriting ([Hash]), the JSON and msgpack
    globals ([Bridge]) and promises ([Promise]). The Lua engine is not under src/;
    its tables are lists of entries in the order of [pairs], without metatables. *)
From S2P Require Import Prelude RustStr Spatial Bytes Msgpack.

Module Vectors.
Section vectors.
Context {F : Type} `{Float32 F}.
(** [fract() == 0], [as i64] and the display of an [f32]. *)
Class FloatText := { is_whole : F -> bool; as_i64 : F -> Z; display : F -> string }.
Context `{FloatText}.

Record cfx_vec := CfxVec { arity : Z; x : F; y : F; z : F; w : F }.
Inductive cfx_lua_error := VectorArity (expected got : Z).
Definition zero : F := of_int 0.
Definition v2 (x y : F) : cfx_vec := CfxVec 2 x y zero zero.
Definition v3 (x y z : F) : cfx_vec := CfxVec 3 x y z zero.
Definition v4 (x y z w : F) : cfx_vec := CfxVec 4 x y z w.
Definition quat (x y z w : F) : cfx_vec := CfxVec 4 x y z w.

Definition same_arity (a b : cfx_vec) : result unit cfx_lua_error :=
  if negb (arity a =? arity b) then Err (VectorArity (arity a) (arity b)) else Ok tt.
Definition add (a b : cfx_vec) : result cfx_vec cfx_lua_error :=
  let? _ := same_arity a b in
  Ok (CfxVec (arity a) (fadd (x a) (x b)) (fadd (y a) (y b)) (fadd (z a) (z b)) (fadd (w a) (w b))).
Definition sub (a b : cfx_vec) : result cfx_vec cfx_lua_error :=
  let? _ := same_arity a b in
  Ok (CfxVec (arity a) (fsub (x a) (x b)) (fsub (y a) (y b)) (fsub (z a) (z b)) (fsub (w a) (w b))).
Definition mul (a b : cfx_vec) : result cfx_vec cfx_lua_error :=
  let? _ := same_arity a b in
  Ok (CfxVec (arity a) (fmul (x a) (x b)) (fmul (y a) (y b)) (fmul (z a) (z b)) (fmul (w a) (w b))).
Definition scale (a : cfx_vec) (s : F) : cfx_vec :=
  CfxVec (arity a) (fmul (x a) s) (fmul (y a) s) (fmul (z a) s) (fmul (w a) s).
Definition dot_sum (a b : cfx_vec) : F :=
  fadd (fadd (fadd (fmul (x a) (x b)) (fmul (y a) (y b))) (fmul (z a) (z b))) (fmul (w a) (w b)).
Definition dot (a b : cfx_vec) : result F cfx_lua_error := let? _ := same_arity a b in Ok (dot_sum a b).
Definition cross (a b : cfx_vec) : result cfx_vec cfx_lua_error :=
  if (arity a <? 3) || (arity b <? 3) then Err (VectorArity 3 (Z.min (arity a) (arity b)))
  else Ok (v3 (fsub (fmul (y a) (z b)) (fmul (z a) (y b)))
              (fsub (fmul (z a) (x b)) (fmul (x a) (z b)))
              (fsub (fmul (x a) (y b)) (fmul (y a) (x b)))).
Definition length (a : cfx_vec) : F := fsqrt (dot_sum a a).
Definition normalize (a : cfx_vec) : cfx_vec :=
  let l := length a in if feq l zero then a else scale a (fdiv (of_int 1) l).

(** The fields of a Lua table that the conversions read, [None] when the field is
    absent or of another type; [meta] tells a metatable. *)
Record vec_table := VecTable { tx : option F; ty : option F; tz : option F; tw : option F; tarity : option Z; meta : bool }.
Definition table_to_vec (t : vec_table) : cfx_vec :=
  CfxVec (default 3 (tarity t)) (default zero (tx t)) (default zero (ty t)) (default zero (tz t)) (default zero (tw t)).
Definition vec_to_table (v : cfx_vec) : vec_table :=
  VecTable (Some (x v)) (Some (y v)) (if 3 <=? arity v then Some (z v) else None) (if 4 <=? arity v then Some (w v) else None)
    (Some (arity v)) false.

(** A Lua value as an operand. *)
Inductive operand := OTable (t : vec_table) | ONumber (n : F) | OOther.
Definition value_to_vec (v : operand) : option cfx_vec := match v with OTable t => Some (table_to_vec t) | _ => None end.
Definition value_to_f32 (v : operand) : option F := match v with ONumber n => Some n | _ => None end.

(** The constructors [vector2], [vector3], [vector4], [quat] and [quaternion]. *)
Definition construct (arity : Z) (args : list operand) : vec_table :=
  let nums := (fun v => default zero (value_to_f32 v)) <$> args in
  let nth i := default zero (nums !! i) in
  let v := if arity =? 2 then v2 (nth 0%nat) (nth 1%nat)
           else if arity =? 3 then v3 (nth 0%nat) (nth 1%nat) (nth 2%nat)
           else v4 (nth 0%nat) (nth 1%nat) (nth 2%nat) (nth 3%nat) in
  let t := vec_to_table v in
  VecTable (tx t) (ty t) (tz t) (tw t) (tarity t) true.

(** The metamethods; [None] is the error of the multiplication. *)
Definition meta_add (a b : vec_table) : result vec_table cfx_lua_error :=
  let? r := add (table_to_vec a) (table_to_vec b) in Ok (vec_to_table r).
Definition meta_sub (a b : vec_table) : result vec_table cfx_lua_error :=
  let? r := sub (table_to_vec a) (table_to_vec b) in Ok (vec_to_table r).
Definition meta_mul (a b : operand) : option (result vec_table cfx_lua_error) :=
  match value_to_vec a, value_to_vec b, value_to_f32 a, value_to_f32 b with
  | Some av, Some bv, _, _ => Some (let? r := mul av bv in Ok (vec_to_table r))
  | Some av, None, _, Some n => Some (Ok (vec_to_table (scale av n)))
  | None, Some bv, Some n, _ => Some (Ok (vec_to_table (scale bv n)))
  | _, _, _, _ => None
  end.
Definition vec_eqb (a b : cfx_vec) : bool :=
  (arity a =? arity b) && feq (x a) (x b) && feq (y a) (y b) && feq (z a) (z b) && feq (w a) (w b).
Definition meta_eq (a b : vec_table) : bool := vec_eqb (table_to_vec a) (table_to_vec b).

Definition fmt_f (f : F) : text :=
  if is_whole f then decimal_i64 (as_i64 f) else codes (display f).
Definition format_vec (v : cfx_vec) : text :=
  let sep := codes ", " in
  if arity v =? 2 then codes "vector2(" ++ fmt_f (x v) ++ sep ++ fmt_f (y v) ++ codes ")"
  else if arity v =? 3 then codes "vector3(" ++ fmt_f (x v) ++ sep ++ fmt_f (y v) ++ sep ++ fmt_f (z v) ++ codes ")"
  else codes "vector4(" ++ fmt_f (x v) ++ sep ++ fmt_f (y v) ++ sep ++ fmt_f (z v) ++ sep ++ fmt_f (w v) ++ codes ")".

(** A constructed vector is read back from its table, the operators act on the
    fields, and vectors of different arity are refused. *)
Lemma construct_read n args : n = 2 \/ n = 3 \/ n = 4 ->
  let nth i := default zero (args !! i) in
  table_to_vec (construct n (ONumber <$> args)) =
  CfxVec n (nth 0%nat) (nth 1%nat) (if n =? 2 then zero else nth 2%nat) (if n =? 4 then nth 3%nat else zero).
Proof.
  intros Hn. cbn zeta. unfold construct. replace ((fun v => default zero (value_to_f32 v)) <$> (ONumber <$> args)) with args.
  - by destruct Hn as [-> | [-> | ->] ].
  - rewrite <- list_fmap_compose. symmetry. etrans; [|apply list_fmap_id]. done.
Qed.
Lemma arity_refused a b : arity a <> arity b -> add a b = Err (VectorArity (arity a) (arity b)) /\ sub a b = Err (VectorArity (arity a) (arity b)) /\
  mul a b = Err (VectorArity (arity a) (arity b)) /\ dot a b = Err (VectorArity (arity a) (arity b)).
Proof. intros Hn. unfold add, sub, mul, dot, same_arity. by rewrite (proj2 (Z.eqb_neq _ _)) by done. Qed.

(** The result of an operator has no metatable, so it cannot be an operand again
    on its own. *)
Lemma result_without_meta a b r : meta_add a b = Ok r \/ meta_sub a b = Ok r -> meta r = false.
Proof. unfold meta_add, meta_sub, add, sub, same_arity. intros [Hr|Hr]; destruct (negb _); by simplify_eq/=. Qed.
End vectors.
End Vectors.

Module Hash.
Definition joaat_step (hash b : Z) : Z :=
  let hash := wrap 32 (hash + b) in
  let hash := wrap 32 (hash + wrap 32 (Z.shiftl hash 10)) in
  Z.lxor hash (Z.shiftr hash 6).
Definition joaat_end (hash : Z) : Z :=
  let hash := wrap 32 (hash + wrap 32 (Z.shiftl hash 3)) in
  let hash := Z.lxor hash (Z.shiftr hash 11) in
  wrap 32 (hash + wrap 32 (Z.shiftl hash 15)).
Definition joaat (bytes : text) : Z := joaat_end (foldl joaat_step 0 bytes).

Definition is_alpha (b : Z) : bool := ((65 <=? b) && (b <=? 90)) || ((97 <=? b) && (b <=? 122)).
Definition ident_head (b : Z) : bool := is_alpha b || (b =? 95).
Definition ident_byte (b : Z) : bool := is_alpha b || is_digit b || (b =? 95).
Definition is_valid_ident (s : text) : bool :=
  match s with [] => false | b :: _ => ident_head b && forallb ident_byte s end.

Definition is_quote (b : option Z) : bool := match b with Some b => (b =? 34) || (b =? 39) | None => false end.
Definition call (name : text) : text := codes "joaat(" ++ [34] ++ name ++ [34] ++ codes ")".

(** [prev] is the byte before the position; each turn takes a byte. *)
Fixpoint rewrite_loop (fuel : nat) (prev : option Z) (src : text) : text :=
  match fuel, src with
  | O, _ | _, [] => []
  | S fuel, c :: src' =>
      if negb (c =? 96) then c :: rewrite_loop fuel (Some c) src'
      else if is_quote prev then c :: rewrite_loop fuel (Some c) src'
      else
        match span (fun b => negb (b =? 96)) src' with
        | (name, []) => 96 :: name
        | (name, _ :: rest) =>
            if is_valid_ident name then call name ++ rewrite_loop fuel (Some 96) rest
            else 96 :: name ++ 96 :: rewrite_loop fuel (Some 96) rest
        end
  end.
Definition rewrite_backticks (src : text) : text := rewrite_loop (length src) None src.

(** *** Properties *)
Lemma testbit_high w a n : 0 <= a < 2 ^ w -> 0 <= w <= n -> Z.testbit a n = false.
Proof.
  intros Ha Hn. destruct (decide (a = 0)) as [->|]; [apply Z.bits_0|]. apply Z.bits_above_log2; [lia|].
  apply Z.log2_lt_pow2; [lia|]. apply (Z.lt_le_trans _ (2 ^ w)); [lia|]. apply Z.pow_le_mono_r; lia.
Qed.

Lemma shift_xor_inj w k a b : 0 < k -> fits w a -> fits w b -> 0 <= w ->
  Z.lxor a (Z.shiftr a k) = Z.lxor b (Z.shiftr b k) -> a = b.
Proof.
  intros Hk Ha Hb Hw H. assert (Hbit : forall (m : nat) n, 0 <= n -> w - Z.of_nat m <= n -> Z.testbit a n = Z.testbit b n).
  { induction m as [|m IH]; intros n Hn Hle.
    - unfold fits in *. by rewrite !(testbit_high w) by (done || lia).
    - destruct (decide (w - Z.of_nat m <= n)); [by apply IH|]. pose proof (f_equal (fun z => Z.testbit z n) H) as Hn'. cbn in Hn'.
      rewrite !Z.lxor_spec, !Z.shiftr_spec in Hn' by lia. rewrite (IH (n + k)) in Hn' by lia.
      by destruct (Z.testbit a n), (Z.testbit b n), (Z.testbit b (n + k)). }
  apply Z.bits_inj'. intros n Hn. apply (Hbit (Z.to_nat w)); lia.
Qed.

Lemma shift_add k a : 0 <= k -> wrap 32 (a + wrap 32 (Z.shiftl a k)) = wrap 32 (a * (1 + 2 ^ k)).
Proof. intros. rewrite wrap_add_r, Z.shiftl_mul_pow2 by done. f_equal. lia. Qed.

Lemma shift_add_inj k q a b : 0 <= k -> wrap 32 ((1 + 2 ^ k) * q) = 1 -> fits 32 a -> fits 32 b ->
  wrap 32 (a + wrap 32 (Z.shiftl a k)) = wrap 32 (b + wrap 32 (Z.shiftl b k)) -> a = b.
Proof. intros Hk Hq Ha Hb. rewrite !shift_add by done. by apply (mul_inv_inj 32 _ q). Qed.

Lemma xor_shift_fits k a : 0 <= k -> fits 32 a -> fits 32 (Z.lxor a (Z.shiftr a k)).
Proof.
  intros Hk Ha. apply lxor_fits; [done|done|]. unfold fits in *. rewrite Z.shiftr_div_pow2 by done. split; [apply Z.div_pos; lia|].
  apply Z.div_lt_upper_bound; [lia|]. pose proof (Z.pow_pos_nonneg 2 k ltac:(lia) Hk). nia.
Qed.
#[local] Hint Resolve wrap_fits xor_shift_fits : core.

Lemma joaat_step_fits h b : fits 32 (joaat_step h b).
Proof. apply xor_shift_fits; [done|]. by apply wrap_fits. Qed.
Lemma joaat_step_inj h h' b b' : joaat_step h b = joaat_step h' b' -> wrap 32 (h + b) = wrap 32 (h' + b').
Proof.
  unfold joaat_step. intros H. apply (shift_xor_inj 32) in H; [|lia|by apply wrap_fits..|lia].
  apply (shift_add_inj 10 3222273025) in H; [done|done|reflexivity|by apply wrap_fits..].
Qed.
Lemma joaat_end_inj h h' : fits 32 h -> fits 32 h' -> joaat_end h = joaat_end h' -> h = h'.
Proof.
  unfold joaat_end. intros Hh Hh' H. apply (shift_add_inj 15 1073709057) in H; [|done|reflexivity|by apply xor_shift_fits, wrap_fits..].
  apply (shift_xor_inj 32) in H; [|lia|by apply wrap_fits..|lia]. by apply (shift_add_inj 3 954437177) in H.
Qed.

Lemma wrap_add_inj a b c : fits 32 a -> fits 32 b -> wrap 32 (a + c) = wrap 32 (b + c) -> a = b.
Proof.
  intros Ha Hb H. rewrite <- (wrap_small 32 a Ha), <- (wrap_small 32 b Hb).
  replace a with (a + c - c) by lia. replace b with (b + c - c) by lia. by rewrite <- wrap_sub_l, H, wrap_sub_l.
Qed.

Lemma joaat_feed_fits l h : fits 32 h -> fits 32 (foldl joaat_step h l).
Proof. revert h. induction l as [|b l IH]; intros h Hh; [done|]. apply IH, joaat_step_fits. Qed.
Lemma joaat_feed_inj l h h' : fits 32 h -> fits 32 h' -> foldl joaat_step h l = foldl joaat_step h' l -> h = h'.
Proof.
  revert h h'. induction l as [|b l IH]; intros h h' Hh Hh' H; [done|]. cbn in H. apply IH in H; [|apply joaat_step_fits..].
  apply joaat_step_inj in H. by apply wrap_add_inj in H.
Qed.

Lemma joaat_one_byte a b b' c : fits 8 b -> fits 8 b' -> joaat (a ++ b :: c) = joaat (a ++ b' :: c) -> b = b'.
Proof.
  intros Hb Hb' H. assert (H8 : forall v, fits 8 v -> fits 32 v) by (unfold fits; intros v; change (2 ^ 8) with 256; change (2 ^ 32) with 4294967296; lia).
  unfold joaat in H. apply joaat_end_inj in H; [|apply joaat_feed_fits; done..]. rewrite !foldl_app in H. cbn in H.
  apply joaat_feed_inj in H; [|apply joaat_step_fits..]. apply joaat_step_inj in H. rewrite !(Z.add_comm (foldl _ _ _)) in H.
  by apply wrap_add_inj in H; [|apply H8..].
Qed.

(** *** The rewriting *)
Abbreviation tick := 96 (only parsing).
Definition not_tick (b : Z) : bool := negb (b =? 96).

Lemma rewrite_fuel f f' prev l : (length l <= f)%nat -> (length l <= f')%nat -> rewrite_loop f prev l = rewrite_loop f' prev l.
Proof.
  revert f' prev l. induction f as [|f IH]; intros f' prev l Hf Hf'; [destruct l; [by destruct f'|cbn in Hf; lia]|].
  destruct l as [|c l]; [by destruct f'|]. destruct f' as [|f']; [cbn in Hf'; lia|]. cbn [length] in *. cbn [rewrite_loop].
  destruct (negb (c =? 96)); [by rewrite (IH f') by lia|]. destruct (is_quote prev); [by rewrite (IH f') by lia|].
  destruct (span _ l) as [name rest] eqn:Es. apply span_spec in Es as (-> & _ & _). destruct rest as [|d rest]; [done|].
  rewrite length_app in *. cbn [length] in *. by rewrite (IH f') by lia.
Qed.

(** The loop with enough turns. *)
Definition rewrite (prev : option Z) (l : text) : text := rewrite_loop (length l) prev l.

Lemma rewrite_plain prev c l : c <> tick -> rewrite prev (c :: l) = c :: rewrite (Some c) l.
Proof. intros Hc. unfold rewrite. cbn [length rewrite_loop]. by rewrite (proj2 (Z.eqb_neq c 96)). Qed.
Lemma rewrite_quoted prev l : is_quote prev = true -> rewrite prev (tick :: l) = tick :: rewrite (Some tick) l.
Proof. intros Hq. unfold rewrite. cbn [length rewrite_loop]. by rewrite Hq. Qed.
Lemma rewrite_open prev name : is_quote prev = false -> Forall (fun c => not_tick c = true) name -> rewrite prev (tick :: name) = tick :: name.
Proof.
  intros Hq Hn. unfold rewrite. cbn [length rewrite_loop negb Z.eqb Pos.eqb]. rewrite Hq. change (fun b => negb (b =? 96)) with not_tick.
  assert (span not_tick name = (name, [])) as -> by (rewrite <- (app_nil_r name) at 1; by apply span_app). done.
Qed.
Lemma rewrite_closed prev name rest : is_quote prev = false -> Forall (fun c => not_tick c = true) name ->
  rewrite prev (tick :: name ++ tick :: rest) =
  (if is_valid_ident name then call name else tick :: name ++ [tick]) ++ rewrite (Some tick) rest.
Proof.
  intros Hq Hn. unfold rewrite. cbn [length rewrite_loop negb Z.eqb Pos.eqb]. rewrite Hq. change (fun b => negb (b =? 96)) with not_tick.
  rewrite span_app by done. rewrite (rewrite_fuel _ (length rest)) by (rewrite ?length_app; cbn; lia).
  destruct (is_valid_ident name); [done|]. cbn. by rewrite <- app_assoc.
Qed.

Lemma rewrite_app prev a l : Forall (fun c => not_tick c = true) a -> rewrite prev (a ++ l) = a ++ rewrite (if a then prev else last a) l.
Proof.
  intros Ha. revert prev. induction Ha as [|c a Hc Ha IH]; intros prev; [done|]. cbn [app]. rewrite rewrite_plain.
  - rewrite IH. by destruct a.
  - unfold not_tick in Hc. by apply negb_true_iff, Z.eqb_neq in Hc.
Qed.

Lemma ident_no_tick name : is_valid_ident name = true -> Forall (fun c => not_tick c = true) name.
Proof.
  destruct name as [|b name]; [done|]. intros [_ Hall]%andb_true_iff. apply Is_true_true, forallb_True in Hall.
  eapply Forall_impl; [exact Hall|]. intros c Hc%Is_true_true. cbn beta in Hc. unfold not_tick. apply negb_true_iff, Z.eqb_neq. intros ->. by cbn in Hc.
Qed.
Lemma call_no_tick name : is_valid_ident name = true -> Forall (fun c => not_tick c = true) (call name).
Proof.
  intros H%ident_no_tick. unfold call. rewrite !Forall_app. split; [by repeat constructor|]. split; [by repeat constructor|]. split; [done|].
  split; by repeat constructor.
Qed.

(** A second pass finds nothing to rewrite. *)
Lemma rewrite_twice n l prev prev' : (length l <= n)%nat -> is_quote prev = is_quote prev' -> rewrite prev' (rewrite prev l) = rewrite prev l.
Proof.
  revert l prev prev'. induction n as [|n IH]; intros l prev prev' Hn Hq; (destruct l as [|c l]; [done|cbn in Hn]); [lia|].
  destruct (decide (c = tick)) as [->|Hc]; [|by rewrite !rewrite_plain, IH by (done || lia)].
  destruct (is_quote prev) eqn:Eq; [by rewrite !rewrite_quoted, IH by (done || lia)|].
  destruct (span not_tick l) as [name rest] eqn:Es. apply span_spec in Es as (-> & Hname & Hrest). destruct rest as [|d rest].
  - rewrite app_nil_r. by rewrite !rewrite_open.
  - assert (d = tick) as -> by (by apply negb_false_iff, Z.eqb_eq in Hrest). rewrite length_app in Hn. cbn in Hn.
    rewrite rewrite_closed by done. destruct (is_valid_ident name) eqn:Ev.
    + rewrite rewrite_app by (by apply call_no_tick). f_equal. apply IH; [lia|]. change (false = is_quote (last (call name))).
      unfold call. change (codes ")") with [41]. by rewrite !app_assoc, last_snoc.
    + cbn [app]. rewrite <- app_assoc. cbn [app]. rewrite rewrite_closed, Ev by done. cbn [app]. rewrite <- app_assoc. cbn [app].
      by rewrite IH by (done || lia).
Qed.

(** Rewriting leaves a source without backticks as it is, replaces an
    identifier in backticks by the call that hashes it, and is idempotent; two
    names that differ in one byte never hash to the same value. *)
Theorem backticks_rewritten (src : text) :
  (tick ∉ src -> rewrite_backticks src = src) /\
  rewrite_backticks (rewrite_backticks src) = rewrite_backticks src /\
  (forall before name rest, src = before ++ tick :: name ++ tick :: rest ->
     tick ∉ before -> is_quote (last before) = false -> is_valid_ident name = true ->
     exists rest', rewrite_backticks src = before ++ call name ++ rest') /\
  (forall a b b' c, fits 8 b -> fits 8 b' -> b <> b' -> joaat (a ++ b :: c) <> joaat (a ++ b' :: c)).
Proof.
  assert (Hno : forall l, tick ∉ l -> Forall (fun c => not_tick c = true) l).
  { intros l Hl. apply Forall_forall. intros c Hc. apply negb_true_iff, Z.eqb_neq. by intros ->. }
  change (rewrite_backticks src) with (rewrite None src). split; [|split; [|split]].
  - intros Hsrc. rewrite <- (app_nil_r src). rewrite rewrite_app by auto. by destruct src.
  - by apply (rewrite_twice (length src)).
  - intros before name rest -> Hb Hq Hv. exists (rewrite (Some tick) rest). rewrite rewrite_app by auto.
    rewrite rewrite_closed; [by rewrite Hv|by destruct before|by apply ident_no_tick].
  - intros a b b' c Hb Hb' Hne H. by apply Hne, (joaat_one_byte a b b' c).
Qed.

Lemma backticks_rewritten_witness :
  rewrite_backticks (codes "local h = `adder`") = codes "local h = " ++ call (codes "adder") /\
  joaat (codes "adder") = 0xb779a091 /\ joaat (codes "adder") <> joaat (codes "adden").
Proof.
  destruct (backticks_rewritten (codes "local h = `adder`")) as (_ & _ & H & _).
  destruct (H (codes "local h = ") (codes "adder") [] eq_refl) as [rest _]; [by_decide|reflexivity|reflexivity|].
  split; [reflexivity|]. split; [reflexivity|].
  apply (backticks_rewritten [] ) with (a := codes "adde") (b := 114) (b' := 110) (c := []); [done|done|done].
Defined.

(** Only a backtick right after a quote is left alone: further inside a string
    the text changes, and a double-quoted string is broken. *)
Lemma rewrites_inside_strings :
  rewrite_backticks (codes "s = 'an `adder`'") = codes "s = 'an joaat(" ++ [34] ++ codes "adder" ++ [34] ++ codes ")'".
Proof. reflexivity. Qed.
End Hash.

Module Bridge.
Section bridge.
(** The text of a JSON number that is not an integer. *)
Context (float_text : Z -> text).

Definition i64_max : Z := 2 ^ 63 - 1.
(** A [serde_json::Value]: an integer of [i64] or [u64], the bits of a finite
    [f64], objects in key order. *)
Inductive json := JNull | JBool (b : bool) | JInt (n : Z) | JFloat (bits : Z) | JStr (s : text) | JArr (l : list json) | JObj (l : list (text * json)).

Definition finite (bits : Z) : bool := negb (Z.land (Z.shiftr bits 52) 2047 =? 2047).
Definition of_float (bits : Z) : json := if finite bits then JFloat bits else JNull.
(** [as f64] of an integer above [i64::MAX]: 53 bits, ties to even. *)
Definition big_as_f64 (n : Z) : Z :=
  let q := n / 2048 in
  let r := n mod 2048 in
  let q := if (1024 <? r) || ((r =? 1024) && Z.odd q) then q + 1 else q in
  1086 * 2 ^ 52 + (q - 2 ^ 52).

Fixpoint map_insert {A} (k : text) (v : A) (l : list (text * A)) : list (text * A) :=
  match l with
  | [] => [(k, v)]
  | (k', v') :: l' => if bool_decide (k = k') then (k, v) :: l' else if text_leb k k' then (k, v) :: l else (k', v') :: map_insert k v l'
  end.

(** *** The msgpack bridge *)
Definition write_i64 (i : Z) : list Z :=
  if (0 <=? i) && (i <=? 127) then [wrap 8 i]
  else if (- (32) <=? i) && (i <=? - (1)) then [wrap 8 i]
  else if (0 <=? i) && (i <=? 0xff) then [0xcc; wrap 8 i]
  else if 0 <=? i then [0xcd; wrap 8 (Z.shiftr i 8); wrap 8 i]
  else [0xd0; wrap 8 i].
Definition write_str (b : text) : list Z :=
  let n := len b in
  (if n <=? 31 then [Z.lor 0xa0 (wrap 8 n)]
   else if n <=? 0xff then [0xd9; wrap 8 n]
   else [0xda; wrap 8 (Z.shiftr n 8); wrap 8 n]) ++ b.
Definition head (small big : Z) (n : Z) : list Z :=
  if n <=? 15 then [Z.lor small (wrap 8 n)] else [big; wrap 8 (Z.shiftr n 8); wrap 8 n].

Fixpoint write (v : json) : list Z :=
  match v with
  | JNull => [0xc0]
  | JBool b => [if b then 0xc3 else 0xc2]
  | JInt n => if n <=? i64_max then write_i64 n else 0xcb :: be_bytes 8 (big_as_f64 n)
  | JFloat f => 0xcb :: be_bytes 8 f
  | JStr s => write_str s
  | JArr l => head 0x90 0xdc (len l) ++ concat (List.map write l)
  | JObj l => head 0x80 0xde (len l) ++ concat (List.map (fun '(k, v) => write_str k ++ write v) l)
  end.
Definition json_to_msgpack (v : json) : list Z := write v.

(** [None] is running out of fuel; a reader takes the bytes from the position. *)
Definition reply (A : Type) := option (result (A * list Z) string).
Definition obind {A B} (r : reply A) (k : A -> list Z -> reply B) : reply B :=
  match r with Some (Ok (a, c)) => k a c | Some (Err e) => Some (Err e) | None => None end.
Definition ret {A} (a : A) (c : list Z) : reply A := Some (Ok (a, c)).
Definition bad {A} (e : string) : reply A := Some (Err e).

Definition read_uint (n : nat) (c : list Z) : reply Z :=
  if (length c <? n)%nat then bad "truncated" else ret (be_val (take n c)) (drop n c).
Definition read_str (c : list Z) (n : Z) : reply json :=
  if len c <? n then bad "truncated msgpack string"
  else
    let s := take (Z.to_nat n) c in
    if utf8_valid s then ret (JStr s) (drop (Z.to_nat n) c) else bad "invalid utf-8".
(** A length byte is read without a check of its own. *)
Definition read_len8 (c : list Z) : reply Z := read_uint 1 c.

Definition key_text (k : json) : result text string :=
  match k with
  | JStr s => Ok s
  | JInt n => Ok (decimal_i64 n)
  | JFloat f => Ok (float_text f)
  | _ => Err "msgpack map key must be string or number"
  end.

Definition number (f : Z -> Z) (r : reply Z) : reply json := obind r (fun n c => ret (JInt (f n)) c).
Definition float (f : Z -> Z) (r : reply Z) : reply json := obind r (fun n c => ret (of_float (f n)) c).

(** The value whose type byte is [t]; [arr] and [map] read that many items. *)
Definition tagged (arr map : Z -> list Z -> reply json) (t : Z) (c : list Z) : reply json :=
  match t with
  | 0xc0 => ret JNull c
  | 0xc2 => ret (JBool false) c
  | 0xc3 => ret (JBool true) c
  | 0xca => float f32_to_f64 (read_uint 4 c)
  | 0xcb => float id (read_uint 8 c)
  | 0xcc => match c with [] => bad "truncated" | n :: _ => ret (JInt n) c end
  | 0xcd => number id (read_uint 2 c)
  | 0xce => number id (read_uint 4 c)
  | 0xcf => number id (read_uint 8 c)
  | 0xd0 => number (swrap 8) (read_uint 1 c)
  | 0xd1 => number (swrap 16) (read_uint 2 c)
  | 0xd2 => number (swrap 32) (read_uint 4 c)
  | 0xd3 => number (swrap 64) (read_uint 8 c)
  | 0xd9 => obind (read_len8 c) (fun n c => read_str c n)
  | 0xda => obind (read_uint 2 c) (fun n c => read_str c n)
  | 0xdb => obind (read_uint 4 c) (fun n c => read_str c n)
  | 0xdc => obind (read_uint 2 c) arr
  | 0xdd => obind (read_uint 4 c) arr
  | 0xde => obind (read_uint 2 c) map
  | 0xdf => obind (read_uint 4 c) map
  | _ =>
      if t <=? 0x7f then ret (JInt t) c
      else if 0xe0 <=? t then ret (JInt (swrap 8 t)) c
      else if (0xa0 <=? t) && (t <=? 0xbf) then read_str c (Z.land t 0x1f)
      else if (0x90 <=? t) && (t <=? 0x9f) then arr (Z.land t 0x0f) c
      else if (0x80 <=? t) && (t <=? 0x8f) then map (Z.land t 0x0f) c
      else bad "unsupported msgpack type byte"
  end.

Fixpoint read (fuel : nat) (b : list Z) : reply json :=
  match fuel, b with
  | O, _ => None
  | _, [] => bad "truncated msgpack"
  | S fuel, t :: c =>
      tagged (fun n c => obind (read_arr fuel n c) (fun l c => ret (JArr l) c))
             (fun n c => obind (read_map fuel n [] c) (fun l c => ret (JObj l) c)) t c
  end
with read_arr (fuel : nat) (n : Z) (c : list Z) : reply (list json) :=
  if n <=? 0 then ret [] c
  else
    match fuel with
    | O => None
    | S fuel => obind (read fuel c) (fun v c => obind (read_arr fuel (n - 1) c) (fun l c => ret (v :: l) c))
    end
with read_map (fuel : nat) (n : Z) (m : list (text * json)) (c : list Z) : reply (list (text * json)) :=
  if n <=? 0 then ret m c
  else
    match fuel with
    | O => None
    | S fuel =>
        obind (read fuel c) (fun k c => obind (read fuel c) (fun v c =>
          match key_text k with
          | Err e => bad e
          | Ok key => read_map fuel (n - 1) (map_insert key v m) c
          end))
    end.

(** A value takes at least one byte and two turns. *)
Definition msgpack_to_json (b : list Z) : option (result json string) :=
  match read (S (S (2 * length b))) b with
  | Some (Ok (v, _)) => Some (Ok v)
  | Some (Err e) => Some (Err e)
  | None => None
  end.

(** *** Lua values *)
Inductive lua := LNil | LBool (b : bool) | LInt (n : Z) | LNum (bits : Z) | LStr (s : text) | LTable (l : list (lua * lua)) | LOther.
Inductive encode_error := NotFinite | NotUtf8 | BadKey.

(** The largest index when every key is a positive integer. *)
Fixpoint array_shape {A} (l : list (lua * A)) (max_i : Z) : option Z :=
  match l with
  | [] => Some max_i
  | (LInt i, _) :: l => if 1 <=? i then array_shape l (Z.max max_i i) else None
  | (LNil, _) :: l => array_shape l max_i
  | _ => None
  end.
Definition is_index {A} (i : Z) (e : lua * A) : bool := match e.1 with LInt j => i =? j | _ => false end.
Definition object_key (k : lua) : result text encode_error :=
  match k with
  | LStr s => if utf8_valid s then Ok s else Err NotUtf8
  | LInt n => Ok (decimal_i64 n)
  | _ => Err BadKey
  end.
(** [from 1 to n], an index at a time. *)
Fixpoint try_map {A B E} (f : A -> result B E) (l : list A) : result (list B) E :=
  match l with [] => Ok [] | x :: l => let? y := f x in let? ys := try_map f l in Ok (y :: ys) end.

(** The entries of a table are converted where they are used. *)
Fixpoint lua_value_to_json (v : lua) : result json encode_error :=
  match v with
  | LNil => Ok JNull
  | LBool b => Ok (JBool b)
  | LInt n => Ok (JInt n)
  | LNum f => if finite f then Ok (JFloat f) else Err NotFinite
  | LStr s => if utf8_valid s then Ok (JStr s) else Err NotUtf8
  | LTable t =>
      let t := List.map (fun '(k, v) => (k, lua_value_to_json v)) t in
      match array_shape t 0 with
      | Some max_i =>
          if 0 <? max_i then
            let? l := try_map (fun i => default (Ok JNull) (snd <$> List.find (is_index i) t)) (seqZ 1 max_i) in Ok (JArr l)
          else let? m := try_fold (fun m '(k, r) => let? k := object_key k in let? v := r in Ok (map_insert k v m)) [] t in Ok (JObj m)
      | None => let? m := try_fold (fun m '(k, r) => let? k := object_key k in let? v := r in Ok (map_insert k v m)) [] t in Ok (JObj m)
      end
  | LOther => Ok JNull
  end.

Definition same_key (a b : lua) : bool :=
  match a, b with LInt i, LInt j => i =? j | LStr s, LStr t => bool_decide (s = t) | _, _ => false end.
(** [Table::set]: a nil removes the key. *)
Fixpoint table_set (k v : lua) (t : list (lua * lua)) : list (lua * lua) :=
  match t with
  | [] => match v with LNil => [] | _ => [(k, v)] end
  | e :: t => if same_key e.1 k then match v with LNil => t | _ => (k, v) :: t end else e :: table_set k v t
  end.

Fixpoint json_to_lua_value (j : json) : lua :=
  match j with
  | JNull => LNil
  | JBool b => LBool b
  | JInt n => if n <=? i64_max then LInt n else LNum (big_as_f64 n)
  | JFloat f => LNum f
  | JStr s => LStr s
  | JArr l => LTable (snd (foldl (fun '(i, t) v => (i + 1, table_set (LInt (i + 1)) v t)) (0, []) (List.map json_to_lua_value l)))
  | JObj l => LTable (foldl (fun t '(k, v) => table_set (LStr k) v t) [] (List.map (fun '(k, v) => (k, json_to_lua_value v)) l))
  end.

(** The [msgpack] global. *)
Definition pack (v : lua) : result (list Z) encode_error := let? j := lua_value_to_json v in Ok (json_to_msgpack j).
Definition unpack (b : list Z) : option (result lua string) :=
  match msgpack_to_json b with
  | Some (Ok j) => Some (Ok (json_to_lua_value j))
  | Some (Err e) => Some (Err e)
  | None => None
  end.

(** *** The reader answers *)
Definition answers {A} (r : reply A) (n : nat) : Prop :=
  exists p, r = Some p /\ forall v c, p = Ok (v, c) -> (length c <= n)%nat.
Lemma answers_ret {A} (a : A) c n : (length c <= n)%nat -> answers (ret a c) n.
Proof. intros H. eexists. split; [done|]. by intros v c' [= <- <-]. Qed.
Lemma answers_bad {A} e n : answers (@bad A e) n.
Proof. by eexists. Qed.
Lemma answers_obind {A B} (r : reply A) (k : A -> list Z -> reply B) n m :
  answers r n -> (forall v c, (length c <= n)%nat -> answers (k v c) m) -> answers (obind r k) m.
Proof. intros (p & -> & Hp) Hk. destruct p as [[v c]|e]; [apply Hk; by apply (Hp v)|apply answers_bad]. Qed.
Lemma answers_uint k c n : (length c <= n)%nat -> answers (read_uint k c) n.
Proof. intros H. unfold read_uint. destruct (_ <? k)%nat; [apply answers_bad|]. apply answers_ret. rewrite length_drop. lia. Qed.
Lemma answers_str c z n : (length c <= n)%nat -> answers (read_str c z) n.
Proof.
  intros H. unfold read_str. destruct (len c <? z); [apply answers_bad|]. destruct (utf8_valid _); [|apply answers_bad].
  apply answers_ret. rewrite length_drop. lia.
Qed.
#[local] Hint Resolve answers_ret answers_bad answers_uint answers_str : core.
#[local] Hint Extern 4 (answers (obind _ _) _) => eapply answers_obind : core.

Lemma tagged_answers (arr map : Z -> list Z -> reply json) t c :
  (forall n c', (length c' <= length c)%nat -> answers (arr n c') (length c)) ->
  (forall n c', (length c' <= length c)%nat -> answers (map n c') (length c)) -> answers (tagged arr map t c) (length c).
Proof.
  intros Harr Hmap. unfold tagged, number, float, read_len8. repeat case_match; subst; eauto.
Qed.

Lemma read_answers fuel :
  (forall b, (2 * length b + 1 <= fuel)%nat -> answers (read fuel b) (pred (length b))) /\
  (forall n c, (2 * length c + 2 <= fuel)%nat -> answers (read_arr fuel n c) (length c)) /\
  (forall n m c, (2 * length c + 2 <= fuel)%nat -> answers (read_map fuel n m c) (length c)).
Proof.
  induction fuel as [|f (IHr & IHa & IHm)]; [by split; [|split]; intros; lia|].
  assert (Hmono : forall {A} (r : reply A) k k', answers r k -> (k <= k')%nat -> answers r k').
  { intros A r k k' (p & -> & Hp) Hle. exists p. split; [done|]. intros v c Hv. specialize (Hp v c Hv). lia. }
  split; [|split].
  - intros [|t c] Hf; [by eexists|]. cbn [length pred] in *. cbn [read].
    apply tagged_answers; intros n c' Hc; (eapply answers_obind; [(apply IHa || apply IHm); lia|]); intros; apply answers_ret; lia.
  - intros n c Hf. cbn [read_arr]. destruct (n <=? 0); [auto|]. destruct c as [|t c]; [destruct f; [lia|by eexists]|].
    cbn [length] in *. eapply answers_obind; [apply IHr; cbn; lia|]. cbn [length pred]. intros v c1 Hc1.
    eapply answers_obind; [apply IHa; lia|]. intros l c2 Hc2. apply answers_ret. lia.
  - intros n m c Hf. cbn [read_map]. destruct (n <=? 0); [auto|]. destruct c as [|t c]; [destruct f; [lia|by eexists]|].
    cbn [length] in *. eapply answers_obind; [apply IHr; cbn; lia|]. cbn [length pred]. intros k c1 Hc1.
    destruct (decide (c1 = [])) as [->|Hne]; [destruct f; [lia|by eexists]|].
    assert (1 <= length c1)%nat by (destruct c1; [done|cbn; lia]).
    eapply answers_obind; [apply IHr; lia|]. intros v c2 Hc2.
    destruct (key_text k); [|auto]. eapply Hmono; [apply IHm; lia|lia].
Qed.

(** *** What was written is read back *)
Section json_induction.
Context (P : json -> Prop).
Hypothesis (HNull : P JNull) (HBool : forall b, P (JBool b)) (HInt : forall n, P (JInt n)) (HFloat : forall f, P (JFloat f))
  (HStr : forall s, P (JStr s)) (HArr : forall l, Forall P l -> P (JArr l)) (HObj : forall l, Forall (fun e => P e.2) l -> P (JObj l)).
Fixpoint json_ind' (j : json) : P j :=
  match j with
  | JNull => HNull | JBool b => HBool b | JInt n => HInt n | JFloat f => HFloat f | JStr s => HStr s
  | JArr l => HArr l ((fix go l : Forall P l := match l with [] => Forall_nil_2 _ | x :: l => Forall_cons_2 _ _ _ (json_ind' x) (go l) end) l)
  | JObj l => HObj l ((fix go l : Forall (fun e => P e.2) l := match l with [] => Forall_nil_2 _ | x :: l => Forall_cons_2 _ _ _ (json_ind' x.2) (go l) end) l)
  end.
End json_induction.

Definition text_lt (a b : text) : Prop := a <> b /\ text_leb a b = true.
Definition ascending {A} (l : list (text * A)) : Prop := StronglySorted (fun a b => text_lt a.1 b.1) l.

(** The values whose bytes are read back: integers from -128 to 65535 without
    128 to 255, texts and containers of at most 65535. *)
Fixpoint wire_ok (j : json) : Prop :=
  match j with
  | JNull | JBool _ => True
  | JInt n => -128 <= n < 65536 /\ ~ 128 <= n < 256
  | JFloat f => fits 64 f /\ finite f = true
  | JStr s => utf8_valid s = true /\ len s < 65536
  | JArr l => len l < 65536 /\ foldr (fun j P => wire_ok j /\ P) True l
  | JObj l => len l < 65536 /\ ascending l /\ foldr (fun e P => (utf8_valid e.1 = true /\ len e.1 < 65536) /\ wire_ok e.2 /\ P) True l
  end.

Lemma map_insert_last {A} k (v : A) l : Forall (fun e => text_lt e.1 k) l -> map_insert k v l = l ++ [(k, v)].
Proof.
  induction 1 as [|[k' v'] l [Hne Hle] Hl IH]; [done|]. cbn in *. rewrite bool_decide_eq_false_2 by congruence.
  destruct (text_leb k k') eqn:E; [|by rewrite IH]. by destruct Hne; apply text_leb_antisym.
Qed.

Lemma obind_ret {A B} (a : A) c (k : A -> list Z -> reply B) : obind (ret a c) k = k a c.
Proof. done. Qed.
Lemma be2 n c : [wrap 8 (Z.shiftr n 8); wrap 8 n] ++ c = be_bytes 2 n ++ c.
Proof. f_equal. unfold be_bytes. cbn. unfold wrap. rewrite Z.shiftr_div_pow2 by lia. done. Qed.
Lemma read_uint_app k n c : fits (8 * Z.of_nat k) n -> read_uint k (be_bytes k n ++ c) = ret n c.
Proof.
  intros Hn. unfold read_uint. rewrite length_app, length_be_bytes, (proj2 (Nat.ltb_ge (k + length c) k)) by lia.
  rewrite take_app_length', drop_app_length' by by rewrite length_be_bytes. by rewrite be_val_bytes.
Qed.
Lemma read_uint1 n c : fits 8 n -> read_uint 1 (n :: c) = ret n c.
Proof.
  intros Hn. change (n :: c) with ([n] ++ c). assert (be_bytes 1 n = [n]) as <-; [|by apply (read_uint_app 1)].
  unfold be_bytes. cbn. f_equal. apply Z.mod_small. by apply fits8_iff.
Qed.
Lemma bridge_str_app s c : utf8_valid s = true -> read_str (s ++ c) (len s) = ret (JStr s) c.
Proof. intros Hs. unfold read_str. rewrite len_app, (proj2 (Z.ltb_ge _ _)) by (pose proof (len_nonneg c); lia). by rewrite take_len, drop_len, Hs. Qed.

Section tags.
Context (arr map : Z -> list Z -> reply json) (c : list Z).
Notation T := (tagged arr map).
Lemma tag_int n : 0 <= n <= 127 -> T (wrap 8 n) c = ret (JInt n) c.
Proof. intros Hn. enum 0 128%nat n. Qed.
Lemma tag_neg n : - 32 <= n <= - 1 -> T (wrap 8 n) c = ret (JInt n) c.
Proof. intros Hn. enum (- 32) 32%nat n. Qed.
Lemma tag_str n : 0 <= n <= 31 -> T (Z.lor 0xa0 (wrap 8 n)) c = read_str c n.
Proof. intros Hn. enum 0 32%nat n. Qed.
Lemma tag_arr n : 0 <= n <= 15 -> T (Z.lor 0x90 (wrap 8 n)) c = arr n c.
Proof. intros Hn. enum 0 16%nat n. Qed.
Lemma tag_map n : 0 <= n <= 15 -> T (Z.lor 0x80 (wrap 8 n)) c = map n c.
Proof. intros Hn. enum 0 16%nat n. Qed.
End tags.

Lemma fits16 n : 0 <= n < 65536 -> fits (8 * Z.of_nat 2) n.
Proof. unfold fits. change (2 ^ (8 * Z.of_nat 2)) with 65536. done. Qed.
Lemma read_head_arr f n c : 0 <= n < 65536 ->
  read (S f) (head 0x90 0xdc n ++ c) = obind (read_arr f n c) (fun l c => ret (JArr l) c).
Proof.
  intros Hn. unfold head. destruct (Z.leb_spec n 15).
  - cbn [app read]. rewrite tag_arr by lia. done.
  - cbn [app read]. cbn [tagged]. pose proof (be2 n c) as E. cbn [app] in E. rewrite E, read_uint_app by by apply fits16. done.
Qed.
Lemma read_head_map f n c : 0 <= n < 65536 ->
  read (S f) (head 0x80 0xde n ++ c) = obind (read_map f n [] c) (fun l c => ret (JObj l) c).
Proof.
  intros Hn. unfold head. destruct (Z.leb_spec n 15).
  - cbn [app read]. rewrite tag_map by lia. done.
  - cbn [app read]. cbn [tagged]. pose proof (be2 n c) as E. cbn [app] in E. rewrite E, read_uint_app by by apply fits16. done.
Qed.
Lemma bridge_write_str f s c : utf8_valid s = true -> len s < 65536 -> read (S f) (write_str s ++ c) = ret (JStr s) c.
Proof.
  intros Hs Hl. pose proof (len_nonneg s) as H0. unfold write_str. destruct (Z.leb_spec (len s) 31); [|destruct (Z.leb_spec (len s) 255)].
  - cbn [app read]. rewrite tag_str by lia. by apply bridge_str_app.
  - cbn [app read tagged]. rewrite wrap_small by (unfold fits; change (2 ^ 8) with 256; lia). unfold read_len8.
    rewrite read_uint1 by (unfold fits; change (2 ^ 8) with 256; lia). by apply bridge_str_app.
  - cbn [app read tagged]. pose proof (be2 (len s) (s ++ c)) as E. cbn [app] in E. rewrite E, read_uint_app by (apply fits16; lia). by apply bridge_str_app.
Qed.
Lemma read_write_i64 f n c : -128 <= n < 65536 -> ~ 128 <= n < 256 -> read (S f) (write_i64 n ++ c) = ret (JInt n) c.
Proof.
  intros Hn Hx. unfold write_i64.
  destruct (Z.leb_spec 0 n), (Z.leb_spec n 127); cbn [andb]; try lia; [by apply (tag_int _ _ c)| |].
  - rewrite (proj2 (Z.leb_gt n (- (1)))), andb_false_r by lia. rewrite (proj2 (Z.leb_gt n 0xff)) by lia.
    cbn [app read tagged]. pose proof (be2 n c) as E. cbn [app] in E. rewrite E. unfold number. by rewrite read_uint_app by (apply fits16; lia).
  - rewrite (proj2 (Z.leb_le n (- (1)))) by lia. destruct (Z.leb_spec (- (32)) n); cbn [andb]; [apply (tag_neg _ _ c); lia|].
    cbn [app read tagged]. unfold number. rewrite read_uint1 by (by apply wrap_fits). change (ret (JInt (swrap 8 (wrap 8 n))) c = ret (JInt n) c). by rewrite swrap_wrap by lia.
Qed.

Lemma write_ne j : (1 <= length (write j))%nat.
Proof.
  destruct j as [| | n| |s|l|l]; cbn [write]; try (cbn; lia).
  - unfold write_i64. repeat case_match; cbn; lia.
  - unfold write_str. rewrite length_app. repeat case_match; cbn; lia.
  - unfold head. rewrite length_app. repeat case_match; cbn; lia.
  - unfold head. rewrite length_app. repeat case_match; cbn; lia.
Qed.
Lemma write_str_ne s : (1 <= length (write_str s))%nat.
Proof. unfold write_str. rewrite length_app. repeat case_match; cbn; lia. Qed.

Definition reads (j : json) : Prop := forall c f, (2 * length (write j) + 1 <= f)%nat -> read f (write j ++ c) = ret j c.

Lemma read_items l : Forall reads l -> forall c f, (2 * length (concat (List.map write l)) + 2 <= f)%nat ->
  read_arr f (len l) (concat (List.map write l) ++ c) = ret l c.
Proof.
  induction 1 as [|j l Hj Hl IH]; intros c f Hf; [by destruct f|]. rewrite len_cons. cbn [List.map concat] in *. rewrite length_app in Hf.
  pose proof (len_nonneg l). pose proof (write_ne j). destruct f as [|f]; [lia|]. cbn [read_arr].
  rewrite (proj2 (Z.leb_gt (1 + len l) 0)) by lia. rewrite <- app_assoc, Hj, obind_ret by lia.
  replace (1 + len l - 1) with (len l) by lia. by rewrite IH by lia.
Qed.

Definition entry (e : text * json) : list Z := let '(k, v) := e in write_str k ++ write v.
Lemma read_entries l : Forall (fun e => utf8_valid e.1 = true /\ len e.1 < 65536) l -> Forall (fun e => reads e.2) l ->
  forall m c f, ascending (m ++ l) -> (2 * length (concat (List.map entry l)) + 2 <= f)%nat ->
  read_map f (len l) m (concat (List.map entry l) ++ c) = ret (m ++ l) c.
Proof.
  intros Hk. induction Hk as [|[k v] l [Hu Hs] Hk IH]; intros Hl m c f Hm Hf; [rewrite app_nil_r; by destruct f|].
  apply Forall_cons in Hl as [Hv Hl]. cbn [fst snd] in *. rewrite len_cons. cbn [List.map concat entry] in *. rewrite !length_app in Hf.
  pose proof (len_nonneg l). pose proof (write_ne v). pose proof (write_str_ne k). destruct f as [|f]; [lia|]. cbn [read_map]. destruct f as [|f]; [lia|].
  rewrite (proj2 (Z.leb_gt (1 + len l) 0)) by lia. rewrite <- !app_assoc, bridge_write_str, obind_ret by done.
  rewrite Hv, obind_ret by lia. cbn [key_text]. replace (1 + len l - 1) with (len l) by lia.
  rewrite map_insert_last, IH; [by rewrite <- app_assoc|done| |lia|].
  - by rewrite <- app_assoc.
  - unfold ascending in Hm. clear -Hm. induction m as [|e m IHm]; [constructor|]. cbn in Hm. apply StronglySorted_inv in Hm as [Hm He].
    constructor; [|by apply IHm]. rewrite Forall_forall in He. apply (He (k, v)). apply elem_of_app. right. left.
Qed.

Lemma wire_ok_reads j : wire_ok j -> reads j.
Proof.
  induction j as [|b|n|f|s|l IH|l IH] using json_ind'; intros Hok c fuel Hf; (destruct fuel as [|fuel]; [lia|]).
  - done.
  - by destruct b.
  - destruct Hok as [Hn Hx]. cbn [write]. rewrite (proj2 (Z.leb_le n i64_max)) by (unfold i64_max; lia). by apply read_write_i64.
  - destruct Hok as [Hf64 Hfin]. cbn [write app read tagged]. rewrite (read_uint_app 8) by done. cbn. unfold of_float, id. by rewrite Hfin.
  - destruct Hok. by apply bridge_write_str.
  - destruct Hok as [Hl Hok]. cbn [write] in *. rewrite length_app in Hf. pose proof (len_nonneg l).
    assert (1 <= length (head 0x90 0xdc (len l)))%nat by (unfold head; case_match; cbn; lia).
    rewrite <- app_assoc, read_head_arr by lia. rewrite read_items; [done| |lia].
    clear -IH Hok. induction IH as [|j l Hj Hl IHl]; [constructor|]. destruct Hok. constructor; auto.
  - destruct Hok as (Hl & Ha & Hok). cbn [write] in *. change (fun '(k, v) => write_str k ++ write v) with entry in *.
    rewrite length_app in Hf. pose proof (len_nonneg l).
    assert (1 <= length (head 0x80 0xde (len l)))%nat by (unfold head; case_match; cbn; lia).
    assert (Hall : Forall (fun e => utf8_valid e.1 = true /\ len e.1 < 65536) l /\ Forall (fun e => reads e.2) l).
    { clear -IH Hok. induction IH as [|e l He Hl IHl]; [done|]. destruct Hok as (Hk & Hv & Hok). destruct (IHl Hok). split; constructor; auto. }
    destruct Hall. rewrite <- app_assoc, read_head_map by lia. rewrite (read_entries l) with (m := []); [done|done|done|done|lia].
Qed.

(** *** Through a Lua table and back *)
(** The values a Lua table keeps: integers of [i64], no null in an object or at the
    end of an array, and no empty array. *)
Fixpoint lua_ok (j : json) : Prop :=
  match j with
  | JNull | JBool _ => True
  | JInt n => - 2 ^ 63 <= n <= i64_max
  | JFloat f => finite f = true
  | JStr s => utf8_valid s = true
  | JArr l => (l <> [] /\ last l <> Some JNull) /\ foldr (fun j P => lua_ok j /\ P) True l
  | JObj l => ascending l /\ foldr (fun e P => (utf8_valid e.1 = true /\ e.2 <> JNull) /\ lua_ok e.2 /\ P) True l
  end.
Definition restored (j : json) : Prop := lua_value_to_json (json_to_lua_value j) = Ok j.

Lemma to_lua_nil j : json_to_lua_value j = LNil <-> j = JNull.
Proof. destruct j; cbn; try case_match; split; congruence. Qed.

Lemma table_set_fresh k v t : Forall (fun e => same_key e.1 k = false) t -> table_set k v t = t ++ match v with LNil => [] | _ => [(k, v)] end.
Proof. induction 1 as [|e t He Ht IH]; cbn [table_set]; [done|]. by rewrite He, IH. Qed.

Definition is_null (j : json) : bool := match j with JNull => true | _ => false end.
(** The entries of an array from index [i + 1] on. *)
Fixpoint indexed {A} (f : json -> A) (i : Z) (l : list json) : list (lua * A) :=
  match l with
  | [] => []
  | j :: l => (if is_null j then [] else [(LInt (i + 1), f j)]) ++ indexed f (i + 1) l
  end.

Lemma array_table l : forall i t, Forall (fun e => exists k, e.1 = LInt k /\ k <= i) t ->
  foldl (fun '(i, t) v => (i + 1, table_set (LInt (i + 1)) v t)) (i, t) (List.map json_to_lua_value l) =
  (i + len l, t ++ indexed json_to_lua_value i l).
Proof.
  induction l as [|j l IH]; intros i t Ht; [cbn; by rewrite app_nil_r, Z.add_0_r|]. cbn [List.map foldl]. rewrite table_set_fresh.
  2:{ eapply Forall_impl; [exact Ht|]. intros e (k & -> & Hk). cbn. apply Z.eqb_neq. lia. }
  rewrite IH.
  - rewrite len_cons, <- app_assoc. f_equal; [lia|]. f_equal. cbn [indexed]. f_equal. destruct (is_null j) eqn:Hj; [by destruct j|].
    destruct (json_to_lua_value j) eqn:E; try done. apply to_lua_nil in E as ->. done.
  - apply Forall_app. split; [eapply Forall_impl; [exact Ht|]; intros e (k & -> & Hk); exists k; split; [done|lia]|].
    destruct (json_to_lua_value j); repeat constructor; eexists; (split; [done|lia]).
Qed.

Lemma array_shape_indexed {A} (f : json -> A) l : forall i m, 0 <= i -> 0 <= m <= i -> l <> [] -> last l <> Some JNull ->
  array_shape (indexed f i l) m = Some (i + len l).
Proof.
  induction l as [|j l IH]; intros i m Hi Hm Hne Hlast; [done|]. rewrite len_cons. cbn [indexed]. pose proof (len_nonneg l).
  destruct (decide (l = [])) as [->|Hl].
  - destruct (is_null j) eqn:Hj; [by destruct j|]. cbn. rewrite (proj2 (Z.leb_le 1 (i + 1))) by lia. cbn. f_equal. unfold len. cbn. lia.
  - assert (Hlast' : last l <> Some JNull) by (by destruct l). destruct (is_null j); cbn [app array_shape].
    + rewrite IH by (done || lia). f_equal. lia.
    + rewrite (proj2 (Z.leb_le 1 (i + 1))) by lia. rewrite IH by (done || lia). f_equal. lia.
Qed.

Lemma find_indexed {A} (f : json -> A) l : forall i (n : nat) j, l !! n = Some j ->
  List.find (is_index (i + 1 + Z.of_nat n)) (indexed f i l) = if is_null j then None else Some (LInt (i + 1 + Z.of_nat n), f j).
Proof.
  assert (Hlow : forall l i k, k <= i -> List.find (is_index k) (indexed f i l) = None).
  { clear. induction l as [|j l IH]; intros i k Hk; [done|]. cbn [indexed]. destruct (is_null j); cbn; [apply IH; lia|].
    unfold is_index at 1. cbn. rewrite (proj2 (Z.eqb_neq k (i + 1))) by lia. apply IH. lia. }
  induction l as [|j0 l IH]; intros i n j Hj; [done|]. destruct n as [|n]; cbn [indexed].
  - injection Hj as <-. replace (i + 1 + Z.of_nat 0) with (i + 1) by lia. destruct (is_null j0); cbn; [apply Hlow; lia|].
    unfold is_index. cbn. by rewrite Z.eqb_refl.
  - replace (i + 1 + Z.of_nat (S n)) with (i + 1 + 1 + Z.of_nat n) by lia. rewrite <- (IH (i + 1) n j Hj).
    destruct (is_null j0); cbn; [done|]. unfold is_index at 1. cbn. by rewrite (proj2 (Z.eqb_neq _ _)) by lia.
Qed.

Lemma try_map_seqZ {B E} (f : Z -> result B E) l : forall i, (forall (n : nat) j, l !! n = Some j -> f (i + Z.of_nat n) = Ok j) ->
  try_map f (seqZ i (len l)) = Ok l.
Proof.
  induction l as [|j l IH]; intros i Hf; [done|]. rewrite len_cons. pose proof (len_nonneg l). rewrite seqZ_cons by lia. cbn [try_map].
  pose proof (Hf 0%nat j eq_refl) as H0. rewrite Z.add_0_r in H0. rewrite H0. cbn [rbind]. replace (Z.pred (1 + len l)) with (len l) by lia.
  rewrite IH; [done|]. intros n j' Hj'. rewrite <- (Hf (S n) j' Hj'). f_equal. lia.
Qed.

Lemma array_restored l : l <> [] -> last l <> Some JNull -> Forall restored l -> restored (JArr l).
Proof.
  intros Hne Hlast Hl. unfold restored. cbn [json_to_lua_value]. rewrite (array_table l 0 []) by constructor. cbn [snd app lua_value_to_json].
  set (conv := List.map _ _). assert (conv = indexed (fun j => Ok j) 0 l) as ->.
  { subst conv. generalize 0 at 1 2. clear Hne Hlast. induction Hl as [|j l Hj Hl IH]; intros i; [done|]. cbn [indexed]. rewrite List.map_app, IH. f_equal.
    destruct (is_null j); [done|]. cbn. by rewrite Hj. }
  rewrite array_shape_indexed, Z.add_0_l by (done || lia). pose proof (len_nonneg l). assert (len l <> 0) by (destruct l; [done|rewrite len_cons; pose proof (len_nonneg l); lia]).
  rewrite (proj2 (Z.ltb_lt 0 (len l))) by lia. rewrite try_map_seqZ; [done|]. intros n j Hj. pose proof (find_indexed (fun j => Ok (E := encode_error) j) l 0 n j Hj) as Hf.
  cbv beta. change (1 + Z.of_nat n) with (0 + 1 + Z.of_nat n). rewrite Hf. destruct (is_null j) eqn:En; [by destruct j|done].
Qed.

Lemma object_restored l : ascending l -> Forall (fun e => (utf8_valid e.1 = true /\ e.2 <> JNull) /\ restored e.2) l -> restored (JObj l).
Proof.
  intros Ha Hl. unfold restored. cbn [json_to_lua_value].
  set (conv := fun '(k, v) => (LStr k, json_to_lua_value v)).
  assert (Hset : forall t, ascending (t ++ l) -> foldl (fun t '(k, v) => table_set (LStr k) v t) (List.map conv t) (List.map (fun '(k, v) => (k, json_to_lua_value v)) l) = List.map conv (t ++ l)).
  { clear Ha. induction Hl as [|[k v] l [[Hk Hv] Hr] Hl IH]; intros t Ha; [by rewrite app_nil_r|]. cbn [List.map foldl fst snd] in *.
    rewrite table_set_fresh.
    - replace (t ++ (k, v) :: l) with ((t ++ [(k, v)]) ++ l) in * by by rewrite <- app_assoc. rewrite <- IH by done. f_equal.
      rewrite List.map_app. f_equal. cbn. destruct (json_to_lua_value v) eqn:E; try done. by apply to_lua_nil in E.
    - apply Forall_forall. intros e He. apply list_elem_of_In, List.in_map_iff in He as ([k' v'] & <- & He). cbn. apply bool_decide_eq_false.
      intros ->. unfold ascending in Ha. apply StronglySorted_app in Ha as (Hcross & _ & _). apply list_elem_of_In in He.
      destruct (Hcross (k, v') (k, v) He ltac:(left)) as [Hne _]. done. }
  pose proof (Hset [] Ha) as Hs. cbn [List.map app] in Hs. rewrite Hs. cbn [lua_value_to_json].
  replace (List.map _ (List.map conv l)) with (List.map (fun '(k, v) => (LStr k, Ok (E := encode_error) v)) l).
  2:{ rewrite List.map_map. apply List.map_ext_in. intros [k v] He. cbn. rewrite list_elem_of_In in He || apply list_elem_of_In in He.
      rewrite Forall_forall in Hl. destruct (Hl _ He) as [_ Hr]. cbn in Hr. by rewrite Hr. }
  assert (Hfold : forall m, ascending (m ++ l) -> try_fold (fun m '(k, r) => let? k := object_key k in let? v := r in Ok (map_insert k v m)) m
    (List.map (fun '(k, v) => (LStr k, Ok (E := encode_error) v)) l) = Ok (m ++ l)).
  { clear Ha Hset Hs. induction Hl as [|[k v] l [[Hk Hv] Hr] Hl IH]; intros m Ha; [by rewrite app_nil_r|]. cbn [List.map try_fold fst snd] in *.
    cbn [object_key]. rewrite Hk. cbn [rbind]. rewrite map_insert_last.
    - rewrite IH; [by rewrite <- app_assoc|]. by replace ((m ++ [(k, v)]) ++ l) with (m ++ (k, v) :: l) by by rewrite <- app_assoc.
    - unfold ascending in Ha. apply StronglySorted_app in Ha as (Hcross & _ & _). apply Forall_forall. intros e He. apply (Hcross e (k, v)); [done|left]. }
  rewrite (Hfold [] Ha). destruct l as [|[k v] l]; [done|]. done.
Qed.

Lemma lua_ok_restored j : lua_ok j -> restored j.
Proof.
  induction j as [|b|n|f|s|l IH|l IH] using json_ind'; intros Hok; unfold restored; cbn in Hok |- *; try done.
  - by rewrite (proj2 (Z.leb_le n i64_max)) by lia.
  - by rewrite Hok.
  - by rewrite Hok.
  - destruct Hok as [[Hne Hlast] Hok]. apply array_restored; [done..|]. clear Hne Hlast. induction IH as [|j l Hj Hl IHl]; [constructor|].
    destruct Hok. constructor; auto.
  - destruct Hok as [Ha Hok]. apply object_restored; [done|]. clear Ha. induction IH as [|e l He Hl IHl]; [constructor|].
    destruct Hok as (Hk & Hv & Hok). constructor; auto.
Qed.

(** The msgpack global of the scripts gives back the Lua value it packed, for
    every value that survives as JSON in a Lua table and whose integers and lengths
    the bridge can write; and unpacking any bytes answers, with a value or an error. *)
Theorem msgpack_global (j : json) (c : list Z) :
  (lua_ok j -> wire_ok j -> let v := json_to_lua_value j in exists b, pack v = Ok b /\ b <> [] /\ unpack (b ++ c) = Some (Ok v)) /\
  (forall b, exists r, unpack b = Some r).
Proof.
  split.
  - intros Hl Hw. cbn zeta. pose proof (lua_ok_restored j Hl) as Hr. unfold restored in Hr. unfold pack. rewrite Hr. cbn [rbind]. exists (json_to_msgpack j).
    split; [done|]. split; [pose proof (write_ne j); unfold json_to_msgpack; by destruct (write j); [cbn in *; lia|]|].
    unfold unpack, msgpack_to_json, json_to_msgpack. rewrite (wire_ok_reads j Hw) by (rewrite length_app; lia). done.
  - intros b. unfold unpack, msgpack_to_json. destruct (read_answers (S (S (2 * length b)))) as [Hb _]. destruct (Hb b ltac:(lia)) as (p & Hp & _).
    rewrite Hp. destruct p as [[v c']|e]; by eexists.
Qed.
End bridge.

(** The positions of a job list with a nested object. *)
Definition sample : json := JObj [(codes "jobs", JArr [JInt 1; JNull; JStr (codes "medic"); JInt 300]); (codes "pay", JFloat 4615063718147915776)].
Lemma msgpack_global_witness :
  let v := json_to_lua_value sample in exists b, pack v = Ok b /\ b <> [] /\ unpack (fun _ => []) (b ++ [0]) = Some (Ok v).
Proof.
  apply (msgpack_global (fun _ => []) sample [0]).
  - split; [repeat constructor; by_decide|]. cbn. repeat split; (done || congruence || reflexivity).
  - split; [by_decide|]. split; [repeat constructor; by_decide|]. cbn. repeat split; (done || lia || by_decide || reflexivity).
Defined.

(** What does not come back: a byte from 128 to 255 is read twice, larger and smaller
    integers lose their high bytes, an empty array becomes an object. *)
Lemma bridge_gaps :
  unpack (fun _ => []) (json_to_msgpack (JArr [JInt 224; JInt 7])) = Some (Ok (LTable [(LInt 1, LInt 224); (LInt 2, LInt (- 32))])) /\
  unpack (fun _ => []) (json_to_msgpack (JArr [JInt 200])) = Some (Ok (LTable [(LInt 1, LInt 200)])) /\
  unpack (fun _ => []) (json_to_msgpack (JInt 70000)) = Some (Ok (LInt 4464)) /\
  unpack (fun _ => []) (json_to_msgpack (JInt (- 200))) = Some (Ok (LInt 56)) /\
  lua_value_to_json (json_to_lua_value (JArr [])) = Ok (JObj []) /\
  lua_value_to_json (LTable [(LInt 1, LBool true); (LInt 4, LBool true)]) = Ok (JArr [JBool true; JNull; JNull; JBool true]).
Proof. split; [|split; [|split; [|split; [|split]]]]; vm_compute; reflexivity. Qed.
End Bridge.

Module Promise.
Section promise.
Context {V : Type}.
Inductive state := Pending | Resolved | Rejected.
Record promise := MkPromise { state_of : state; value : option V }.
(** The calls the resolver makes on its two arguments. *)
Inductive settle := Resolve (v : V) | Reject (e : V).
Definition settle_step (p : promise) (s : settle) : promise :=
  match s with Resolve v => MkPromise Resolved (Some v) | Reject e => MkPromise Rejected (Some e) end.
Definition promise_new (calls : list settle) : promise := foldl settle_step (MkPromise Pending None) calls.
Definition resolve_static (v : V) : promise := MkPromise Resolved (Some v).
Definition reject_static (e : V) : promise := MkPromise Rejected (Some e).

(** [yield] is the function of the field [__scheduler], absent when nothing set it. *)
Inductive awaited := Value (v : option V) | Failure (e : option V) | NoScheduler | Yielded.
Definition await (scheduler : bool) (p : promise) : awaited :=
  match state_of p with
  | Resolved => Value (value p)
  | Rejected => Failure (value p)
  | Pending => if scheduler then Yielded else NoScheduler
  end.

(** The last call wins: a settled promise is settled again. *)
Lemma promise_last calls s : await false (promise_new (calls ++ [s])) = match s with Resolve v => Value (Some v) | Reject e => Failure (Some e) end.
Proof. unfold promise_new. rewrite foldl_app. by destruct s. Qed.
Lemma promise_pending : await false (promise_new []) = NoScheduler.
Proof. done. Qed.
End promise.
End Promise.
