(* ===== verification/Ecma335.v ===== *)
(** The reader of managed assemblies of crates/ald-script-dotnet/src/ecma335.rs.
    An outcome is a value, an error or a panic (an index out of range, or a
    subtraction below zero when the build checks overflow), so that the absence
    of panics is a theorem. SHA-1 is a third-party function and a parameter;
    the texts of the errors are given without their numbers. Sums of offsets are
    of 32-bit quantities and file positions, far below 2^64. *)
From S2P Require Import Prelude RustStr Bytes.

Inductive cli_error := NotPe | NotCli | Malformed (why : string) | UnsupportedTable (t : nat).
Inductive outcome (A : Type) := Done (a : A) | Error (e : cli_error) | Panic.
Arguments Done {A}. Arguments Error {A}. Arguments Panic {A}.
Definition obind {A B} (m : outcome A) (k : A -> outcome B) : outcome B :=
  match m with Done a => k a | Error e => Error e | Panic => Panic end.
Notation "'let!' x := m 'in' k" := (obind m (fun x => k)) (at level 10, x name, m at level 100, k at level 200).
Notation "'let!' ' p := m 'in' k" := (obind m (fun x => match x with p => k end)) (at level 10, p pattern, m at level 100, k at level 200).
Definition ok_or {A} (o : option A) (e : cli_error) : outcome A := match o with Some a => Done a | None => Error e end.
Fixpoint for_each {A S} (f : S -> A -> outcome S) (l : list A) (s : S) : outcome S :=
  match l with [] => Done s | x :: l => let! s := f s x in for_each f l s end.

(** [b.get(i..i+n)], [&b[i..j]] and [b[i]]. *)
Definition get (b : list Z) (i n : Z) : option (list Z) :=
  if i + n <=? len b then Some (take (Z.to_nat n) (drop (Z.to_nat i) b)) else None.
Definition index_range (b : list Z) (i j : Z) : outcome (list Z) :=
  if (i <=? j) && (j <=? len b) then Done (take (Z.to_nat (j - i)) (drop (Z.to_nat i) b)) else Panic.
Definition index (b : list Z) (i : Z) : outcome Z := match b !! Z.to_nat i with Some v => Done v | None => Panic end.

Definition u16_at (b : list Z) (o : Z) : outcome Z := let! s := ok_or (get b o 2) (Malformed "u16 out of bounds") in Done (le_val s).
Definition u32_at (b : list Z) (o : Z) : outcome Z := let! s := ok_or (get b o 4) (Malformed "u32 out of bounds") in Done (le_val s).
Definition u64_at (b : list Z) (o : Z) : outcome Z := let! s := ok_or (get b o 8) (Malformed "u64 out of bounds") in Done (le_val s).

(** ** The file headers *)
Record section := Section_ { virtual_address : Z; virtual_size : Z; pointer_to_raw_data : Z; size_of_raw_data : Z }.
Record pe_headers := PeHeaders { sections : list section; size_of_headers : Z; cli_rva : Z }.

Definition read_pe_headers (b : list Z) : outcome pe_headers :=
  let! short := (if len b <? 0x40 then Done true
                 else let! m := index b 0 in if negb (m =? 77) then Done true else let! z := index b 1 in Done (negb (z =? 90))) in
  if (short : bool) then Error NotPe
  else
  let! e_lfanew := u32_at b 0x3c in
  if negb (bool_decide (get b e_lfanew 4 = Some [80; 69; 0; 0])) then Error NotPe
  else
  let coff := e_lfanew + 4 in
  let! number_of_sections := u16_at b (coff + 2) in
  let! size_of_optional_header := u16_at b (coff + 16) in
  let opt := coff + 20 in
  let! magic := u16_at b opt in
  let! dirs := (if magic =? 0x10b then let! n := u32_at b (opt + 92) in Done (opt + 96, n)
                else if magic =? 0x20b then let! n := u32_at b (opt + 108) in Done (opt + 112, n)
                else Error (Malformed "unknown optional header magic")) in
  let '(dirs_off, dir_count) := dirs in
  let! size_of_headers := u32_at b (opt + 60) in
  if dir_count <=? 14 then Error NotCli
  else
  let! cli_rva := u32_at b (dirs_off + 14 * 8) in
  let! cli_size := u32_at b (dirs_off + 14 * 8 + 4) in
  if (cli_rva =? 0) || (cli_size =? 0) then Error NotCli
  else
  let sec_off := opt + size_of_optional_header in
  let! sections := for_each (fun l i =>
      let s := sec_off + i * 40 in
      if len b <? s + 40 then Error (Malformed "section table truncated")
      else
        let! vs := u32_at b (s + 8) in
        let! va := u32_at b (s + 12) in
        let! sr := u32_at b (s + 16) in
        let! pr := u32_at b (s + 20) in
        Done (l ++ [Section_ va vs pr sr])) (seqZ 0 number_of_sections) [] in
  Done (PeHeaders sections size_of_headers cli_rva).

Definition in_section (rva : Z) (s : section) : bool :=
  let span := Z.max (virtual_size s) (size_of_raw_data s) in
  (virtual_address s <=? rva) && (rva <? Z.min u32_max (virtual_address s + span)).
Definition rva_to_offset (b : list Z) (pe : pe_headers) (rva : Z) : outcome Z :=
  if rva <? size_of_headers pe then Done rva
  else
    match List.find (in_section rva) (sections pe) with
    | Some s =>
        let off := pointer_to_raw_data s + (rva - virtual_address s) in
        if len b <=? off then Error (Malformed "RVA maps past end of file") else Done off
    | None => Error (Malformed "RVA not in any section")
    end.

Record cli_header := CliHeader { flags : Z; entry_point_token : Z; metadata_rva : Z; metadata_size : Z }.
Definition read_cli_header (b : list Z) (off : Z) : outcome cli_header :=
  if len b <? off + 72 then Error (Malformed "CLI header truncated")
  else
    let! rva := u32_at b (off + 8) in
    let! size := u32_at b (off + 12) in
    let! fl := u32_at b (off + 16) in
    let! entry := u32_at b (off + 20) in
    Done (CliHeader fl entry rva size).

(** ** Metadata root and streams *)
(** [String::from_utf8_lossy]: an ill-formed prefix becomes U+FFFD. *)
Definition bad_prefix (l : text) : nat :=
  match l with
  | b0 :: b1 :: r =>
      if (224 <=? b0) && (b0 <=? 239) && ((if b0 =? 224 then 160 <=? b1 else 128 <=? b1) && (if b0 =? 237 then b1 <=? 159 else b1 <=? 191)) then 2%nat
      else if (240 <=? b0) && (b0 <=? 244) && ((if b0 =? 240 then 144 <=? b1 else 128 <=? b1) && (if b0 =? 244 then b1 <=? 143 else b1 <=? 191)) then
        match r with b2 :: _ => if is_cont b2 then 3%nat else 2%nat | [] => 2%nat end
      else 1%nat
  | _ => 1%nat
  end.
Fixpoint lossy_loop (fuel : nat) (l : text) : text :=
  match fuel, l with
  | O, _ | _, [] => []
  | S fuel, _ =>
      match utf8_step l with
      | Some r => take (length l - length r) l ++ lossy_loop fuel r
      | None => [239; 191; 189] ++ lossy_loop fuel (drop (bad_prefix l) l)
      end
  end.
Definition from_utf8_lossy (l : text) : text := lossy_loop (length l) l.

Record streams := Streams { tables_at : option (Z * Z); strings_at : option (Z * Z); guid_at : option (Z * Z); blob_at : option (Z * Z) }.
(** [(p + 3) & !3]. *)
Definition align4 (p : Z) : Z := (p + 3) / 4 * 4.
Definition checked_add (a b : Z) : option Z := if a + b <=? u64_max then Some (a + b) else None.

Definition place (name : text) (at_ : Z * Z) (s : streams) : streams :=
  if one_of name ["#~"; "#-"] then Streams (Some at_) (strings_at s) (guid_at s) (blob_at s)
  else if verb_is name "#Strings" then Streams (tables_at s) (Some at_) (guid_at s) (blob_at s)
  else if verb_is name "#GUID" then Streams (tables_at s) (strings_at s) (Some at_) (blob_at s)
  else if verb_is name "#Blob" then Streams (tables_at s) (strings_at s) (guid_at s) (Some at_)
  else s.

Definition stream_step (b : list Z) (off : Z) (st : Z * streams) (_ : Z) : outcome (Z * streams) :=
  let '(p, s) := st in
  let! s_off := u32_at b p in
  let! s_size := u32_at b (p + 4) in
  let name_start := p + 8 in
  let! n := ok_or (if name_start <=? len b then position (fun c => c =? 0) (drop (Z.to_nat name_start) b) else None)
                  (Malformed "stream name unterminated") in
  let name_end := name_start + Z.of_nat n in
  let! name := index_range b name_start name_end in
  if negb (utf8_valid name) then Error (Malformed "stream name not utf-8")
  else
    let abs := off + s_off in
    let! _ := ok_or (e ← checked_add abs s_size; if e <=? len b then Some e else None) (Malformed "stream out of file bounds") in
    Done (align4 (name_end + 1), place name (abs, s_size) s).

(** The runtime version and the streams of the metadata root. *)
Definition read_root (b : list Z) (off : Z) : outcome (text * streams) :=
  if len b <? off + 16 then Error (Malformed "metadata root truncated")
  else
  let! magic := u32_at b off in
  if negb (magic =? 0x424a5342) then Error (Malformed "bad metadata signature (expected BSJB)")
  else
  let! ver_len := u32_at b (off + 12) in
  if (ver_len =? 0) || (256 <? ver_len) then Error (Malformed "implausible version length")
  else
  let! ver_bytes := ok_or (get b (off + 16) ver_len) (Malformed "version string truncated") in
  let ver_end := default (len ver_bytes) (Z.of_nat <$> position (fun c => c =? 0) ver_bytes) in
  let! ver := index_range ver_bytes 0 ver_end in
  let p := align4 (off + 16 + ver_len) in
  let! stream_count := u16_at b (p + 2) in
  let! st := for_each (stream_step b off) (seqZ 0 stream_count) (p + 4, Streams None None None None) in
  Done (from_utf8_lossy ver, st.2).

(** ** Columns (ECMA-335 II.22) *)
Record ctx := Ctx { strings_big : bool; guid_big : bool; blob_big : bool; rows : list Z }.
Definition row (c : ctx) (t : nat) : Z := default 0 (rows c !! t).
Definition str_idx (c : ctx) : Z := if strings_big c then 4 else 2.
Definition guid_idx (c : ctx) : Z := if guid_big c then 4 else 2.
Definition blob_idx (c : ctx) : Z := if blob_big c then 4 else 2.
Definition simple (c : ctx) (t : nat) : Z := if 0x10000 <=? row c t then 4 else 2.
Definition coded (c : ctx) (tag_bits : Z) (tables : list nat) : Z :=
  let max := foldl (fun m t => if (t =? 0)%nat then m else Z.max m (row c t)) 0 tables in
  if max <? 2 ^ (16 - tag_bits) then 2 else 4.

Definition HAS_CUSTOM_ATTRIBUTE : list nat :=
  [0x06; 0x04; 0x01; 0x02; 0x08; 0x09; 0x0a; 0x00; 0x0e; 0x17; 0x14; 0x11; 0x1a; 0x1b; 0x20; 0x23; 0x26; 0x27; 0x28; 0x2a; 0x2b; 0x2c]%nat.

Definition row_size (t : nat) (c : ctx) : outcome Z :=
  let s := str_idx c in
  let g := guid_idx c in
  let bl := blob_idx c in
  match Z.of_nat t with
  | 0x00 => Done (2 + s + g + g + g)
  | 0x01 => Done (coded c 2 [0x00; 0x1a; 0x23; 0x01]%nat + s + s)
  | 0x02 => Done (4 + s + s + coded c 2 [0x02; 0x01; 0x1b]%nat + simple c 0x04 + simple c 0x06)
  | 0x03 => Done (simple c 0x04)
  | 0x04 => Done (2 + s + bl)
  | 0x05 => Done (simple c 0x06)
  | 0x06 => Done (4 + 2 + 2 + s + bl + simple c 0x08)
  | 0x07 => Done (simple c 0x08)
  | 0x08 => Done (2 + 2 + s)
  | 0x09 => Done (simple c 0x02 + coded c 2 [0x02; 0x01; 0x1b]%nat)
  | 0x0a => Done (coded c 3 [0x02; 0x01; 0x1a; 0x06; 0x1b]%nat + s + bl)
  | 0x0b => Done (1 + 1 + coded c 2 [0x04; 0x08; 0x17]%nat + bl)
  | 0x0c => Done (coded c 5 HAS_CUSTOM_ATTRIBUTE + coded c 3 [0; 0; 0x06; 0x0a; 0]%nat + bl)
  | 0x0d => Done (coded c 1 [0x04; 0x08]%nat + bl)
  | 0x0e => Done (2 + coded c 2 [0x02; 0x06; 0x20]%nat + bl)
  | 0x0f => Done (2 + 4 + simple c 0x02)
  | 0x10 => Done (4 + simple c 0x04)
  | 0x11 => Done bl
  | 0x12 => Done (simple c 0x02 + simple c 0x14)
  | 0x13 => Done (simple c 0x14)
  | 0x14 => Done (2 + s + coded c 2 [0x02; 0x01; 0x1b]%nat)
  | 0x15 => Done (simple c 0x02 + simple c 0x17)
  | 0x16 => Done (simple c 0x17)
  | 0x17 => Done (2 + s + bl)
  | 0x18 => Done (2 + simple c 0x06 + coded c 1 [0x14; 0x17]%nat)
  | 0x19 => Done (simple c 0x02 + coded c 1 [0x06; 0x0a]%nat + coded c 1 [0x06; 0x0a]%nat)
  | 0x1a => Done s
  | 0x1b => Done bl
  | 0x1c => Done (2 + coded c 1 [0x04; 0x06]%nat + s + simple c 0x1a)
  | 0x1d => Done (4 + simple c 0x04)
  | 0x1e => Done (4 + 4)
  | 0x1f => Done 4
  | 0x20 => Done (4 + 2 + 2 + 2 + 2 + 4 + bl + s + s)
  | 0x21 => Done (4 + 4 + 4)
  | 0x22 => Done 4
  | 0x23 => Done (2 + 2 + 2 + 2 + 4 + bl + s + s + bl)
  | 0x24 => Done (4 + 4 + 4 + simple c 0x23)
  | 0x25 => Done (4 + simple c 0x23)
  | 0x26 => Done (4 + s + bl)
  | 0x27 => Done (4 + 4 + s + s + coded c 2 [0x26; 0x27; 0x02]%nat)
  | 0x28 => Done (4 + 4 + s + coded c 2 [0x26; 0x27; 0x02]%nat)
  | 0x29 => Done (simple c 0x02 + simple c 0x02)
  | 0x2a => Done (2 + 2 + coded c 1 [0x02; 0x06]%nat + s)
  | 0x2b => Done (coded c 1 [0x06; 0x0a]%nat + bl)
  | 0x2c => Done (simple c 0x2a + coded c 2 [0x02; 0x01; 0x1b]%nat)
  | _ => Error (UnsupportedTable t)
  end.

(** The row counts of the tables of the mask, and the place after them. *)
Fixpoint read_rows (b : list Z) (valid : Z) (ts : list nat) (p : Z) : outcome (list Z) :=
  match ts with
  | [] => Done []
  | t :: ts =>
      if Z.testbit valid (Z.of_nat t) then
        let! n := u32_at b p in let! l := read_rows b valid ts (p + 4) in Done (n :: l)
      else let! l := read_rows b valid ts p in Done (0 :: l)
  end.
Definition read_tables_header (b : list Z) (off : Z) : outcome (Z * Z * list Z) :=
  if len b <? off + 24 then Error (Malformed "#~ header truncated")
  else
    let! heap_sizes := index b (off + 6) in
    let! valid := u64_at b (off + 8) in
    let! rows := read_rows b valid (seq 0 64) (off + 24) in
    Done (heap_sizes, valid, rows).

(** The walk that places the tables one after the other. *)
Fixpoint walk (b : list Z) (valid : Z) (c : ctx) (ts : list nat) (cursor : Z) : outcome (list Z) :=
  match ts with
  | [] => Done []
  | t :: ts =>
      if Z.testbit valid (Z.of_nat t) then
        let! rs := row_size t c in
        let! next := ok_or (checked_add cursor (rs * row c t)) (Malformed "table walk overflowed") in
        if len b <? next then Error (Malformed "table extends past end of file")
        else let! l := walk b valid c ts next in Done (cursor :: l)
      else let! l := walk b valid c ts cursor in Done (0 :: l)
  end.
Definition count_ones (valid : Z) : Z := len (List.filter (fun t => Z.testbit valid (Z.of_nat t)) (seq 0 64)).

(** ** Heaps *)
Definition c_u16 (b : list Z) (o : Z) : outcome (Z * Z) := let! v := u16_at b o in Done (v, o + 2).
Definition c_u32 (b : list Z) (o : Z) : outcome (Z * Z) := let! v := u32_at b o in Done (v, o + 4).
Definition c_idx (b : list Z) (o size : Z) : outcome (Z * Z) := if size =? 2 then c_u16 b o else c_u32 b o.
Definition c_skip (b : list Z) (o n : Z) : outcome Z :=
  ok_or (e ← checked_add o n; if e <=? len b then Some e else None) (Malformed "row column past end of file").

Definition read_string (b : list Z) (s : streams) (idx : Z) : outcome (option text) :=
  if idx =? 0 then Done (Some [])
  else
    match (at_ ← strings_at s; start ← checked_add at_.1 idx; end_ ← checked_add at_.1 at_.2; Some (start, end_)) with
    | None => Done None
    | Some (start, end_) =>
        if (end_ <=? start) || (len b <? end_) then Done None
        else
          let! heap := index_range b start end_ in
          match position (fun c => c =? 0) heap with
          | None => Done None
          | Some n => let! s := index_range b start (start + Z.of_nat n) in Done (Some (from_utf8_lossy s))
          end
    end.

Definition read_guid (b : list Z) (s : streams) (idx : Z) : outcome (option (list Z)) :=
  if idx =? 0 then Done None
  else
    match (at_ ← guid_at s; start ← checked_add at_.1 ((idx - 1) * 16); end_ ← checked_add at_.1 at_.2; Some (start, end_)) with
    | None => Done None
    | Some (start, end_) =>
        if (end_ <? start + 16) || (len b <? start + 16) then Done None
        else let! g := index_range b start (start + 16) in Done (Some g)
    end.

(** The value and the bytes it takes. *)
Definition compressed_uint (b : list Z) : option (Z * Z) :=
  match b with
  | [] => None
  | first :: rest =>
      if Z.land first 0x80 =? 0 then Some (first, 1)
      else if Z.land first 0xc0 =? 0x80 then
        match rest with second :: _ => Some (Z.lor (Z.shiftl (Z.land first 0x3f) 8) second, 2) | [] => None end
      else if Z.land first 0xe0 =? 0xc0 then
        match rest with
        | r0 :: r1 :: r2 :: _ =>
            Some (Z.lor (Z.lor (Z.lor (Z.shiftl (Z.land first 0x1f) 24) (Z.shiftl r0 16)) (Z.shiftl r1 8)) r2, 4)
        | _ => None
        end
      else None
  end.

Definition read_blob (b : list Z) (s : streams) (idx : Z) : outcome (option (list Z)) :=
  if idx =? 0 then Done (Some [])
  else
    match (at_ ← blob_at s; start ← checked_add at_.1 idx; end_ ← checked_add at_.1 at_.2; Some (start, end_)) with
    | None => Done None
    | Some (start, end_) =>
        if (end_ <=? start) || (len b <? end_) then Done None
        else
          let! heap := index_range b start end_ in
          match compressed_uint heap with
          | None => Done None
          | Some (n, consumed) =>
              let body := start + consumed in
              if (end_ <? body + n) || (len b <? body + n) then Done None
              else let! d := index_range b body (body + n) in Done (Some d)
          end
    end.

(** ** What is read from the tables *)
Record assembly_ref := AssemblyRef {
  ref_name : text; ref_version : text; ref_culture : option text; ref_token : option text; carries_full_key : bool }.
Record assembly_identity := AssemblyIdentity {
  asm_name : text; asm_version : text; asm_culture : option text; asm_flags : Z; asm_token : option text; has_public_key : bool }.
Record pinvoke := Pinvoke { p_module : text; p_function : text }.
Record type_def_info := TypeDefInfo { namespace : text; name : text; td_flags : Z; base : option text }.
Record cli_image := CliImage {
  runtime_version : text; clr_flags : Z; entry_point : Z; module_name : option text; mvid : option (list Z);
  assembly : option assembly_identity; references : list assembly_ref; table_rows : list Z;
  custom_attribute_types : list text; types : list type_def_info; pinvokes : list pinvoke }.

Definition join (ns name : text) : text := ns ++ [46] ++ name.
Definition full_name (t : type_def_info) : text := if bool_decide (namespace t = []) then name t else join (namespace t) (name t).
(** The part after the last dot. *)
Definition simple_name (l : text) : text := default [] (last (split_on 46 l)).
Definition extends_base_script (t : type_def_info) : bool :=
  match base t with Some l => verb_is (simple_name l) "BaseScript" | None => false end.

Inductive target_framework := NetFramework | CoreClr | Mono | Unknown.
Definition target_of (img : cli_image) : target_framework :=
  let has n := existsb (fun r => verb_is (ref_name r) n) (references img) in
  if has "System.Private.CoreLib"%string || has "System.Runtime"%string then CoreClr
  else if has "mscorlib"%string then NetFramework
  else if has "Mono.Posix"%string || has "mono"%string then Mono else Unknown.
Definition mvid_hex (img : cli_image) : option text := hex <$> mvid img.
Definition type_def_count (img : cli_image) : Z := default 0 (table_rows img !! 2%nat).
Definition method_def_count (img : cli_image) : Z := default 0 (table_rows img !! 6%nat).

Section reader.
(** The digest, and whether the build checks the subtraction of indices. *)
Context (sha1 : list Z -> list Z) (overflow_checks : bool).

Definition public_key_token (key : list Z) : outcome (option text) :=
  if bool_decide (key = []) then Done None
  else
    let digest := sha1 key in
    let! tail := index_range digest (len digest - 8) (len digest) in
    Done (Some (hex (rev tail))).

Definition pred_usize (a : Z) : outcome Z :=
  if a <? 1 then (if overflow_checks then Panic else Done u64_max) else Done (a - 1).

(** [r.ok()?]. *)
Definition or_none {A B} (m : outcome A) (k : A -> outcome (option B)) : outcome (option B) :=
  match m with Done a => k a | Error _ => Done None | Panic => Panic end.
Definition nonempty (t : option text) : option text := x ← t; if bool_decide (x = []) then None else Some x.
Definition join_ns_name (ns name : option text) : option text :=
  n ← nonempty name; match nonempty ns with Some s => Some (join s n) | None => Some n end.

Section tables.
Context (b : list Z) (s : streams) (offsets : list Z) (c : ctx).
Definition offset (t : nat) : Z := default 0 (offsets !! t).
Definition RESOLUTION_SCOPE : list nat := [0x00; 0x1a; 0x23; 0x01]%nat.
Definition TYPE_DEF_OR_REF : list nat := [0x02; 0x01; 0x1b]%nat.
Definition MEMBER_REF_PARENT : list nat := [0x02; 0x01; 0x1a; 0x06; 0x1b]%nat.
Definition CUSTOM_ATTRIBUTE_TYPE : list nat := [0; 0; 0x06; 0x0a; 0]%nat.

Definition typedef_or_ref_name (coded_ : Z) : outcome (option text) :=
  let tag := Z.land coded_ 3 in
  if Z.shiftr coded_ 2 <? 1 then Done None
  else
    let r := Z.shiftr coded_ 2 - 1 in
    let named (t : nat) (skip : Z -> outcome Z) :=
      if row c t <=? r then Done None
      else or_none (row_size t c) (fun rs => or_none (skip (offset t + r * rs)) (fun o =>
        or_none (c_idx b o (str_idx c)) (fun '(n, o) => or_none (c_idx b o (str_idx c)) (fun '(ns, _) =>
          let! nst := read_string b s ns in let! nt := read_string b s n in Done (join_ns_name nst nt))))) in
    if tag =? 0 then named 0x02%nat (fun o => let! '(_, o) := c_u32 b o in Done o)
    else if tag =? 1 then named 0x01%nat (fun o => c_skip b o (coded c 2 RESOLUTION_SCOPE))
    else Done None.

Definition version4 (a b c d : Z) : text := decimal a ++ [46] ++ decimal b ++ [46] ++ decimal c ++ [46] ++ decimal d.

Definition read_module : outcome (option text * option (list Z)) :=
  if 0 <? row c 0x00 then
    let! '(_, o) := c_u16 b (offset 0x00) in
    let! '(n, o) := c_idx b o (str_idx c) in
    let! '(g, _) := c_idx b o (guid_idx c) in
    let! nm := read_string b s n in
    let! id := read_guid b s g in
    Done (nm, id)
  else Done (None, None).

Definition read_assembly_row : outcome (option assembly_identity) :=
  if 0 <? row c 0x20 then
    let! '(_, o) := c_u32 b (offset 0x20) in
    let! '(major, o) := c_u16 b o in
    let! '(minor, o) := c_u16 b o in
    let! '(build, o) := c_u16 b o in
    let! '(revision, o) := c_u16 b o in
    let! '(fl, o) := c_u32 b o in
    let! '(pk_idx, o) := c_idx b o (blob_idx c) in
    let! '(name_idx, o) := c_idx b o (str_idx c) in
    let! '(culture_idx, _) := c_idx b o (str_idx c) in
    let! pk := read_blob b s pk_idx in
    let! nm := read_string b s name_idx in
    let! cu := read_string b s culture_idx in
    let! token := (match pk with Some k => public_key_token k | None => Done None end) in
    Done (Some (AssemblyIdentity (default [] nm) (version4 major minor build revision) (nonempty cu) fl token
      (match pk with Some k => negb (bool_decide (k = [])) | None => false end)))
  else Done None.

Definition read_reference (i : Z) : outcome assembly_ref :=
  let! rs := row_size 0x23 c in
  let! '(major, o) := c_u16 b (offset 0x23 + i * rs) in
  let! '(minor, o) := c_u16 b o in
  let! '(build, o) := c_u16 b o in
  let! '(revision, o) := c_u16 b o in
  let! '(fl, o) := c_u32 b o in
  let! '(tok_idx, o) := c_idx b o (blob_idx c) in
  let! '(name_idx, o) := c_idx b o (str_idx c) in
  let! '(culture_idx, _) := c_idx b o (str_idx c) in
  let! raw := read_blob b s tok_idx in
  let raw := default [] raw in
  let full_key := negb (Z.land fl 1 =? 0) in
  let! nm := read_string b s name_idx in
  let! cu := read_string b s culture_idx in
  let! token := (if bool_decide (raw = []) then Done None else if full_key then public_key_token raw else Done (Some (hex raw))) in
  Done (AssemblyRef (default [] nm) (version4 major minor build revision) (nonempty cu) token full_key).

(** One custom attribute: the name of its type, when a member reference of a type
    reference gives it. *)
Definition attribute_name (ca_size mr_size tr_size : Z) (i : Z) : outcome (option text) :=
  let! o := c_skip b (offset 0x0c + i * ca_size) (coded c 5 HAS_CUSTOM_ATTRIBUTE) in
  let! '(ty, _) := c_idx b o (coded c 3 CUSTOM_ATTRIBUTE_TYPE) in
  if negb (Z.land ty 7 =? 3) then Done None
  else
    let! mr_row := pred_usize (Z.shiftr ty 3) in
    if row c 0x0a <=? mr_row then Done None
    else
      let! '(class, _) := c_idx b (offset 0x0a + mr_row * mr_size) (coded c 3 MEMBER_REF_PARENT) in
      if negb (Z.land class 7 =? 1) then Done None
      else
        let! tr_row := pred_usize (Z.shiftr class 3) in
        if row c 0x01 <=? tr_row then Done None
        else
          let! o := c_skip b (offset 0x01 + tr_row * tr_size) (coded c 2 RESOLUTION_SCOPE) in
          let! '(n, o) := c_idx b o (str_idx c) in
          let! '(ns, _) := c_idx b o (str_idx c) in
          let! nm := read_string b s n in
          let! nsm := read_string b s ns in
          let nm := default [] nm in
          let nsm := default [] nsm in
          if bool_decide (nm = []) then Done None else Done (Some (if bool_decide (nsm = []) then nm else join nsm nm)).
Definition add_seen (seen : list text) (fq : option text) : list text :=
  match fq with Some f => if bool_decide (f ∈ seen) then seen else seen ++ [f] | None => seen end.
Definition read_attributes : outcome (list text) :=
  if (0 <? row c 0x0c) && (0 <? row c 0x01) then
    let! ca_size := row_size 0x0c c in
    let! mr_size := row_size 0x0a c in
    let! tr_size := row_size 0x01 c in
    let! seen := for_each (fun seen i => let! n := attribute_name ca_size mr_size tr_size i in Done (add_seen seen n)) (seqZ 0 (row c 0x0c)) [] in
    Done (merge_sort (fun x y => Is_true (text_leb x y)) seen)
  else Done [].

Definition read_type (td_size : Z) (i : Z) : outcome type_def_info :=
  let! '(fl, o) := c_u32 b (offset 0x02 + i * td_size) in
  let! '(n, o) := c_idx b o (str_idx c) in
  let! '(ns, o) := c_idx b o (str_idx c) in
  let! '(extends, _) := c_idx b o (coded c 2 TYPE_DEF_OR_REF) in
  let! nm := read_string b s n in
  let! nsm := read_string b s ns in
  let! bs := (if extends =? 0 then Done None else typedef_or_ref_name extends) in
  Done (TypeDefInfo (default [] nsm) (default [] nm) fl bs).
Definition read_types : outcome (list type_def_info) :=
  if 0 <? row c 0x02 then
    let! td_size := row_size 0x02 c in
    for_each (fun l i => let! t := read_type td_size i in Done (l ++ [t])) (seqZ 0 (row c 0x02)) []
  else Done [].

Definition read_import (im_size mr_size : Z) (i : Z) : outcome (option pinvoke) :=
  let! '(_, o) := c_u16 b (offset 0x1c + i * im_size) in
  let! o := c_skip b o (coded c 1 [0x04; 0x06]%nat) in
  let! '(iname, o) := c_idx b o (str_idx c) in
  let! '(scope, _) := c_idx b o (simple c 0x1a) in
  if (scope =? 0) || (row c 0x1a <? scope) then Done None
  else
    let! '(mname, _) := c_idx b (offset 0x1a + (scope - 1) * mr_size) (str_idx c) in
    let! m := read_string b s mname in
    let! f := read_string b s iname in
    let m := default [] m in
    let f := default [] f in
    if bool_decide (m = []) || bool_decide (f = []) then Done None else Done (Some (Pinvoke m f)).
Definition read_imports : outcome (list pinvoke) :=
  if (0 <? row c 0x1c) && (0 <? row c 0x1a) then
    let! im_size := row_size 0x1c c in
    let! mr_size := row_size 0x1a c in
    for_each (fun l i => let! p := read_import im_size mr_size i in Done (match p with Some p => l ++ [p] | None => l end)) (seqZ 0 (row c 0x1c)) []
  else Done [].

(** Everything after the walk. *)
Definition extract (version : text) (fl entry : Z) : outcome cli_image :=
  let! '(nm, id) := read_module in
  let! asm := read_assembly_row in
  let! refs := for_each (fun l i => let! r := read_reference i in Done (l ++ [r])) (seqZ 0 (row c 0x23)) [] in
  let! attrs := read_attributes in
  let! tys := read_types in
  let! imps := read_imports in
  Done (CliImage version fl entry nm id asm refs (rows c) attrs tys imps).
End tables.

Definition read_metadata (b : list Z) (off : Z) (clr_flags entry_point_token : Z) : outcome cli_image :=
  let! '(version, s) := read_root b off in
  let! '(t_off, _) := ok_or (tables_at s) (Malformed "no #~ metadata tables stream") in
  let! '(heap_sizes, valid, rows) := read_tables_header b t_off in
  let c := Ctx (negb (Z.land heap_sizes 1 =? 0)) (negb (Z.land heap_sizes 2 =? 0)) (negb (Z.land heap_sizes 4 =? 0)) rows in
  let! offsets := walk b valid c (seq 0 64) (t_off + 24 + count_ones valid * 4) in
  extract b s offsets c version clr_flags entry_point_token.

Definition read_assembly (bytes : list Z) : outcome cli_image :=
  let! pe := read_pe_headers bytes in
  let! cli_off := rva_to_offset bytes pe (cli_rva pe) in
  let! cli := read_cli_header bytes cli_off in
  let! md_off := rva_to_offset bytes pe (metadata_rva cli) in
  read_metadata bytes md_off (flags cli) (entry_point_token cli).
End reader.

(** ** The reader does not panic *)
Definition safe {A} (m : outcome A) (Q : A -> Prop) : Prop := match m with Done a => Q a | Error _ => True | Panic => False end.
Definition succeeds {A} (m : outcome A) (Q : A -> Prop) : Prop := match m with Done a => Q a | _ => False end.

Lemma safe_bind {A B} (m : outcome A) P (k : A -> outcome B) Q : safe m P -> (forall a, P a -> safe (k a) Q) -> safe (obind m k) Q.
Proof. destruct m; cbn; auto. Qed.
Lemma suc_bind {A B} (m : outcome A) P (k : A -> outcome B) Q : succeeds m P -> (forall a, P a -> succeeds (k a) Q) -> succeeds (obind m k) Q.
Proof. destruct m; cbn; auto; done. Qed.
Lemma suc_safe {A} (m : outcome A) P : succeeds m P -> safe m P.
Proof. by destruct m. Qed.
Lemma suc_mono {A} (m : outcome A) (P Q : A -> Prop) : succeeds m P -> (forall a, P a -> Q a) -> succeeds m Q.
Proof. destruct m; cbn; auto. Qed.
Lemma safe_ok_or {A} (o : option A) e : safe (ok_or o e) (fun a => o = Some a).
Proof. by destruct o. Qed.
Lemma safe_for_each {A S} (f : S -> A -> outcome S) l (I : S -> Prop) s :
  I s -> (forall s x, x ∈ l -> I s -> safe (f s x) I) -> safe (for_each f l s) I.
Proof.
  revert s. induction l as [|x l IH]; intros s Hs Hf; [done|]. cbn. eapply safe_bind; [apply Hf; [left|done]|].
  intros s' Hs'. apply IH; [done|]. intros; apply Hf; [by right|done].
Qed.
Lemma suc_or_none {A B} (m : outcome A) (P : A -> Prop) (k : A -> outcome (option B)) Q : succeeds m P -> (forall a, P a -> succeeds (k a) Q) -> succeeds (or_none m k) Q.
Proof. destruct m; cbn; auto; done. Qed.
Lemma suc_for_each {A S} (f : S -> A -> outcome S) l s : (forall s x, x ∈ l -> succeeds (f s x) (fun _ => True)) -> succeeds (for_each f l s) (fun _ => True).
Proof.
  revert s. induction l as [|x l IH]; intros s Hf; [done|]. cbn. eapply suc_bind; [apply Hf; left|]. intros s' _. apply IH. intros; apply Hf. by right.
Qed.

Lemma get_length b i n s : 0 <= i -> 0 <= n -> get b i n = Some s -> len s = n /\ (byte_list b -> byte_list s).
Proof.
  unfold get. intros Hi Hn. destruct (Z.leb_spec (i + n) (len b)) as [Hle|]; [|done]. intros [= <-]. unfold len in *. split.
  - rewrite length_take, length_drop. lia.
  - intros Hb. by apply Forall_take, Forall_drop.
Qed.
Lemma suc_range b i j : i <= j <= len b -> 0 <= i -> succeeds (index_range b i j) (fun s => len s = j - i /\ (byte_list b -> byte_list s)).
Proof.
  intros Hij Hi. unfold index_range. rewrite (proj2 (Z.leb_le i j)), (proj2 (Z.leb_le j (len b))) by lia. cbn. unfold len in *. split.
  - rewrite length_take, length_drop. lia.
  - intros Hb. by apply Forall_take, Forall_drop.
Qed.
Lemma suc_range' b i j : i <= j <= len b -> succeeds (index_range b i j) (fun _ => True).
Proof. intros Hij. unfold index_range. by rewrite (proj2 (Z.leb_le i j)), (proj2 (Z.leb_le j (len b))) by lia. Qed.
Lemma suc_index b i : 0 <= i < len b -> succeeds (index b i) (fun _ => True).
Proof. intros Hi. unfold index. destruct (lookup_lt_is_Some_2 b (Z.to_nat i)) as [x ->]; [unfold len in *; lia|done]. Qed.

Lemma byte_val s n : byte_list s -> len s = n -> fits (8 * n) (le_val s).
Proof. intros Hs <-. by apply le_val_fits. Qed.
Section bytes.
Context (b : list Z) (Hb : byte_list b).

Lemma safe_u16 o : 0 <= o -> safe (u16_at b o) (fun v => 0 <= v < 2 ^ 16).
Proof. intros Ho. unfold u16_at. eapply safe_bind; [apply safe_ok_or|]. cbn. intros s Hs. apply get_length in Hs as [Hl Hby]; [|lia..]. apply (byte_val s 2); auto. Qed.
Lemma safe_u32 o : 0 <= o -> safe (u32_at b o) (fun v => 0 <= v < 2 ^ 32).
Proof. intros Ho. unfold u32_at. eapply safe_bind; [apply safe_ok_or|]. cbn. intros s Hs. apply get_length in Hs as [Hl Hby]; [|lia..]. apply (byte_val s 4); auto. Qed.
Lemma safe_u64 o : 0 <= o -> safe (u64_at b o) (fun v => 0 <= v < 2 ^ 64).
Proof. intros Ho. unfold u64_at. eapply safe_bind; [apply safe_ok_or|]. cbn. intros s Hs. apply get_length in Hs as [Hl Hby]; [|lia..]. apply (byte_val s 8); auto. Qed.

Lemma get_in o n : o + n <= len b -> exists s, get b o n = Some s.
Proof. intros H. unfold get. rewrite (proj2 (Z.leb_le _ _)) by done. by eexists. Qed.
Lemma suc_u16 o : 0 <= o -> o + 2 <= len b -> succeeds (c_u16 b o) (fun r => 0 <= r.1 /\ r.2 = o + 2).
Proof.
  intros Ho H. unfold c_u16, u16_at. destruct (get_in o 2 H) as [s Hs]. rewrite Hs. cbn. split; [|done].
  apply get_length in Hs as [Hl Hby]; [|lia..]. by apply (byte_val s 2); auto.
Qed.
Lemma suc_u32 o : 0 <= o -> o + 4 <= len b -> succeeds (c_u32 b o) (fun r => 0 <= r.1 /\ r.2 = o + 4).
Proof.
  intros Ho H. unfold c_u32, u32_at. destruct (get_in o 4 H) as [s Hs]. rewrite Hs. cbn. split; [|done].
  apply get_length in Hs as [Hl Hby]; [|lia..]. by apply (byte_val s 4); auto.
Qed.
Definition column (z : Z) : Prop := z = 2 \/ z = 4.
Lemma suc_idx o n : column n -> 0 <= o -> o + n <= len b -> succeeds (c_idx b o n) (fun r => 0 <= r.1 /\ r.2 = o + n).
Proof. intros [-> | ->] Ho H; cbn; [by apply suc_u16|by apply suc_u32]. Qed.
Lemma suc_skip o n : 0 <= n -> o + n <= len b -> len b <= u64_max -> succeeds (c_skip b o n) (fun r => r = o + n).
Proof.
  intros Hn H Hl. unfold c_skip, checked_add. rewrite (proj2 (Z.leb_le (o + n) u64_max)) by lia. cbn.
  by rewrite (proj2 (Z.leb_le (o + n) (len b))) by lia.
Qed.

Lemma position_lt (f : Z -> bool) l n : position f l = Some n -> (n < length l)%nat.
Proof. intros (x & Hx & _)%position_Some. by apply lookup_lt_Some in Hx. Qed.

(** The heaps answer, whatever the index. *)
Lemma suc_string s idx : succeeds (read_string b s idx) (fun _ => True).
Proof.
  unfold read_string. destruct (idx =? 0); [done|]. destruct (at_ ← strings_at s; _) as [[start end_]|]; [|done].
  destruct (Z.leb_spec end_ start); [done|]. destruct (Z.ltb_spec (len b) end_); [done|]. cbn [orb].
  unfold index_range at 1. rewrite (proj2 (Z.leb_le start end_)), (proj2 (Z.leb_le end_ (len b))) by lia. cbn [andb obind].
  destruct (position _ _) as [n|] eqn:Ep; [|done]. apply position_lt in Ep. rewrite length_take in Ep.
  eapply suc_bind; [apply suc_range'; lia|]. done.
Qed.
Lemma suc_guid s idx : succeeds (read_guid b s idx) (fun _ => True).
Proof.
  unfold read_guid. destruct (idx =? 0); [done|]. destruct (at_ ← guid_at s; _) as [[start end_]|]; [|done].
  destruct (Z.ltb_spec end_ (start + 16)); [done|]. destruct (Z.ltb_spec (len b) (start + 16)); [done|]. cbn [orb].
  eapply suc_bind; [apply suc_range'; lia|]. done.
Qed.
Lemma compressed_nonneg l n k : byte_list l -> compressed_uint l = Some (n, k) -> 0 <= n.
Proof.
  intros Hl. assert (Hpos : forall z, 0 <= z -> forall j, 0 <= Z.land z j) by (intros; apply Z.land_nonneg; by left).
  destruct l as [|first rest]; [done|]. apply Forall_cons in Hl as [[Hf _] Hr]. cbn. destruct (_ =? 0); [by intros [= <- <-]|].
  destruct (_ =? 0x80).
  - destruct rest as [|x rest]; [done|]. apply Forall_cons in Hr as [[Hx _] _]. intros [= <- <-]. apply Z.lor_nonneg. split; [|done]. apply Z.shiftl_nonneg. auto.
  - destruct (_ =? 0xc0); [|done]. destruct rest as [|x [|y [|z rest]]]; try done. rewrite !Forall_cons in Hr. destruct Hr as ([Hx _] & [Hy _] & [Hz _] & _).
    intros [= <- <-]. rewrite !Z.lor_nonneg, !Z.shiftl_nonneg. auto.
Qed.
Lemma suc_blob s idx : succeeds (read_blob b s idx) (fun _ => True).
Proof.
  unfold read_blob. destruct (idx =? 0); [done|]. destruct (at_ ← blob_at s; _) as [[start end_]|]; [|done].
  destruct (Z.leb_spec end_ start); [done|]. destruct (Z.ltb_spec (len b) end_); [done|]. cbn [orb].
  unfold index_range at 1. rewrite (proj2 (Z.leb_le start end_)), (proj2 (Z.leb_le end_ (len b))) by lia. cbn [andb obind].
  destruct (compressed_uint _) as [[n k]|] eqn:Ec; [|done]. apply compressed_nonneg in Ec; [|by apply Forall_take, Forall_drop].
  destruct (Z.ltb_spec end_ (start + k + n)); [done|]. destruct (Z.ltb_spec (len b) (start + k + n)); [done|]. cbn [orb].
  eapply suc_bind; [apply suc_range'; lia|]. done.
Qed.
End bytes.

(** ** After the walk nothing fails *)
Section extraction.
Context (sha1 : list Z -> list Z) (Hsha : forall k, len (sha1 k) = 20).
Context (b : list Z) (Hb : byte_list b) (Hlen : len b <= u64_max) (s : streams) (offsets : list Z) (c : ctx).

(** Every table with rows lies in the file. *)
Definition tables_fit : Prop := forall t, 0 <= row c t < 2 ^ 32 /\
  (0 < row c t -> exists rs, row_size t c = Done rs /\ 0 <= offset offsets t /\ offset offsets t + rs * row c t <= len b).
Context (Hfit : tables_fit).

Lemma str_col : column (str_idx c). Proof. unfold str_idx, column. case_match; auto. Qed.
Lemma guid_col : column (guid_idx c). Proof. unfold guid_idx, column. case_match; auto. Qed.
Lemma blob_col : column (blob_idx c). Proof. unfold blob_idx, column. case_match; auto. Qed.
Lemma simple_col t : column (simple c t). Proof. unfold simple, column. case_match; auto. Qed.
Lemma coded_col n ts : column (coded c n ts). Proof. unfold coded, column. case_match; auto. Qed.

Lemma row_in t rs i : row_size t c = Done rs -> 0 <= rs -> 0 <= i < row c t -> 0 <= offset offsets t + i * rs /\ offset offsets t + i * rs + rs <= len b.
Proof. intros Hrs H0 Hi. destruct (Hfit t) as [_ Ht]. destruct (Ht ltac:(lia)) as (rs' & Hrs' & Ho & Hle). assert (rs' = rs) as -> by congruence. nia. Qed.

(** Bounds of the columns of the goal. *)
Ltac columns :=
  repeat match goal with
  | H : context [str_idx c] |- _ => lazymatch goal with K : column (str_idx c) |- _ => fail | _ => pose proof str_col end
  | H : context [guid_idx c] |- _ => lazymatch goal with K : column (guid_idx c) |- _ => fail | _ => pose proof guid_col end
  | H : context [blob_idx c] |- _ => lazymatch goal with K : column (blob_idx c) |- _ => fail | _ => pose proof blob_col end
  | H : context [simple c ?t] |- _ => lazymatch goal with K : column (simple c t) |- _ => fail | _ => pose proof (simple_col t) end
  | H : context [coded c ?n ?ts] |- _ => lazymatch goal with K : column (coded c n ts) |- _ => fail | _ => pose proof (coded_col n ts) end
  end; unfold column in *.
Ltac fits_row := columns; lia.
Ltac sized t :=
  let E := fresh in
  eassert (row_size t c = Done _) as E by reflexivity; rewrite E; clear E; cbn [obind].
Ltac size_is t H :=
  let E := fresh in
  eassert (row_size t c = Done _) as E by reflexivity; rewrite E in H; injection H as <-; clear E.
(** One read of the cursor. *)
Ltac next :=
  first [eapply suc_bind | eapply suc_or_none];
  [first [apply suc_u16; [exact Hb|fits_row|fits_row] | apply suc_u32; [exact Hb|fits_row|fits_row]
         | apply suc_idx; [exact Hb|first [apply str_col|apply guid_col|apply blob_col|apply simple_col|apply coded_col]|fits_row|fits_row]
         | apply suc_skip; [fits_row|fits_row|exact Hlen]
         | apply suc_string | apply suc_guid | apply suc_blob; exact Hb]
  |first [intros [? ?]; cbn [fst snd]; intros [? ->] | intros ? -> | intros ? _]].

(** The size of the rows of a table, and where the row [i] lies. *)
Ltac table t i H1 H2 :=
  let Hrs := fresh "Hrs" in
  eassert (row_size t c = Done _) as Hrs by reflexivity; rewrite ?Hrs; cbn [obind];
  destruct (row_in t _ i Hrs) as [H1 H2]; [fits_row|lia|].

Lemma read_module_ok : succeeds (read_module b s offsets c) (fun _ => True).
Proof.
  unfold read_module. destruct (Z.ltb_spec 0 (row c 0)); [|done]. table 0x00%nat 0 H1 H2.
  rewrite Z.mul_0_l, Z.add_0_r in *. next. next. next. next. next. done.
Qed.
Lemma token_ok k : succeeds (public_key_token sha1 k) (fun _ => True).
Proof. unfold public_key_token. case_bool_decide; [done|]. eapply suc_bind; [apply suc_range'; rewrite Hsha; lia|]. done. Qed.
Lemma read_assembly_row_ok : succeeds (read_assembly_row sha1 b s offsets c) (fun _ => True).
Proof.
  unfold read_assembly_row. destruct (Z.ltb_spec 0 (row c 0x20)); [|done]. table 0x20%nat 0 H1 H2.
  rewrite Z.mul_0_l, Z.add_0_r in *. next. next. next. next. next. next. next. next. next. next. next. next.
  apply (suc_bind _ (fun _ => True)); [|by intros]. destruct a; [apply token_ok|done].
Qed.
Lemma read_reference_ok i : 0 <= i < row c 0x23 -> succeeds (read_reference sha1 b s offsets c i) (fun _ => True).
Proof.
  intros Hi. unfold read_reference. table 0x23%nat i H1 H2.
  next. next. next. next. next. next. next. next. next. next. next.
  apply (suc_bind _ (fun _ => True)); [|by intros]. case_bool_decide; [done|]. destruct (negb _); [apply token_ok|done].
Qed.

Lemma pred_ok a : 0 <= a -> succeeds (pred_usize false a) (fun r => r = u64_max \/ (0 <= r /\ r = a - 1)).
Proof. intros Ha. unfold pred_usize. destruct (Z.ltb_spec a 1); cbn; [by left|right; lia]. Qed.
Lemma row_small t : row c t < u64_max.
Proof. destruct (Hfit t) as [Ht _]. unfold u64_max. pose proof (eq_refl : 2 ^ 32 = 4294967296). lia. Qed.

Lemma typedef_or_ref_name_ok n : 0 <= n -> succeeds (typedef_or_ref_name b s offsets c n) (fun _ => True).
Proof.
  intros Hn. unfold typedef_or_ref_name. destruct (Z.ltb_spec (Z.shiftr n 2) 1); [done|]. destruct (_ =? 0); [|destruct (_ =? 1); [|done]].
  - destruct (Z.leb_spec (row c 2) (Z.shiftr n 2 - 1)); [done|]. table 0x02%nat (Z.shiftr n 2 - 1) H1 H2. cbn [or_none].
    apply (suc_or_none _ (fun r => r = offset offsets 2 + (Z.shiftr n 2 - 1) * (4 + str_idx c + str_idx c + coded c 2 [2; 1; 27]%nat + simple c 4 + simple c 6) + 4)).
    { next. done. }
    intros ? ->. next. next. next. next. done.
  - destruct (Z.leb_spec (row c 1) (Z.shiftr n 2 - 1)); [done|]. table 0x01%nat (Z.shiftr n 2 - 1) H1 H2. cbn [or_none].
    unfold RESOLUTION_SCOPE. next. next. next. next. next. done.
Qed.

Lemma read_type_ok rs i : row_size 0x02 c = Done rs -> 0 <= i < row c 0x02 -> succeeds (read_type b s offsets c rs i) (fun _ => True).
Proof.
  intros Hrs Hi. size_is 0x02%nat Hrs. unfold read_type, TYPE_DEF_OR_REF. table 0x02%nat i H1 H2. next. next. next. next. next. next.
  apply (suc_bind _ (fun _ => True)); [|by intros]. case_match; [done|]. by apply typedef_or_ref_name_ok.
Qed.

Lemma attribute_ok ca mr tr i : row_size 0x0c c = Done ca -> row_size 0x0a c = Done mr -> row_size 0x01 c = Done tr -> 0 <= i < row c 0x0c ->
  succeeds (attribute_name false b s offsets c ca mr tr i) (fun _ => True).
Proof.
  intros Hca Hmr Htr Hi. size_is 0x0c%nat Hca. size_is 0x0a%nat Hmr. size_is 0x01%nat Htr. unfold attribute_name, CUSTOM_ATTRIBUTE_TYPE. table 0x0c%nat i H1 H2. next. next.
  destruct (negb _); [done|]. eapply suc_bind; [apply pred_ok; by apply Z.shiftr_nonneg|]. intros mr_row Hm. destruct (Z.leb_spec (row c 0x0a) mr_row); [done|].
  pose proof (row_small 0x0a). destruct Hm as [->|[Hm _]]; [lia|]. unfold MEMBER_REF_PARENT, RESOLUTION_SCOPE. table 0x0a%nat mr_row Hm1 Hm2. next.
  destruct (negb _); [done|]. eapply suc_bind; [apply pred_ok; by apply Z.shiftr_nonneg|]. intros tr_row Ht. destruct (Z.leb_spec (row c 0x01) tr_row); [done|].
  pose proof (row_small 0x01). destruct Ht as [->|[Ht _]]; [lia|]. table 0x01%nat tr_row Ht1 Ht2. next. next. next. next. next. by case_bool_decide.
Qed.

Lemma import_ok im mr i : row_size 0x1c c = Done im -> row_size 0x1a c = Done mr -> 0 <= i < row c 0x1c ->
  succeeds (read_import b s offsets c im mr i) (fun _ => True).
Proof.
  intros Him Hmr Hi. size_is 0x1c%nat Him. size_is 0x1a%nat Hmr. unfold read_import. table 0x1c%nat i H1 H2. next. next. next. next. destruct (_ || _) eqn:E; [done|].
  bool_prop. match goal with Hz : ?z <> 0 |- _ => table 0x1a%nat (z - 1) Hs1 Hs2 end. next. next. next. by case_match.
Qed.

Lemma extract_ok version fl entry : succeeds (extract sha1 false b s offsets c version fl entry) (fun _ => True).
Proof.
  unfold extract. eapply suc_bind; [apply read_module_ok|]. intros [nm id] _. eapply suc_bind; [apply read_assembly_row_ok|]. intros asm _.
  assert (Hin : forall i n, i ∈ seqZ 0 n -> 0 <= i < n) by (intros i n Hi; apply elem_of_seqZ in Hi; lia).
  eapply suc_bind. { apply suc_for_each. intros l i Hi%Hin. eapply suc_bind; [by apply read_reference_ok|done]. } intros refs _.
  apply (suc_bind _ (fun _ => True)). { unfold read_attributes. destruct (_ && _); [|done].
    sized 0x0c%nat. sized 0x0a%nat. sized 0x01%nat.
    eapply suc_bind; [|done]. apply suc_for_each. intros l i Hi%Hin. eapply suc_bind; [by apply attribute_ok|done]. }
  intros attrs _. apply (suc_bind _ (fun _ => True)). { unfold read_types. destruct (_ <? _); [|done].
    sized 0x02%nat.
    apply suc_for_each. intros l i Hi%Hin. eapply suc_bind; [by apply read_type_ok|done]. }
  intros tys _. apply (suc_bind _ (fun _ => True)); [|done]. unfold read_imports. destruct (_ && _); [|done].
  sized 0x1c%nat. sized 0x1a%nat.
  apply suc_for_each. intros l i Hi%Hin. eapply suc_bind; [by apply import_ok|done].
Qed.
End extraction.

(** ** The headers and the walk *)
Lemma row_size_pos t c rs : row_size t c = Done rs -> 0 < rs.
Proof.
  pose proof (str_col c) as Hs. pose proof (blob_col c) as Hbl. pose proof (guid_col c) as Hg.
  assert (Hco : forall n ts, 0 < coded c n ts) by (intros n ts; destruct (coded_col c n ts); lia).
  assert (Hsi : forall t, 0 < simple c t) by (intros t'; destruct (simple_col c t'); lia).
  unfold column, row_size in *. cbv zeta. repeat case_match; intros E; try done; injection E as <-;
    repeat match goal with |- context [coded c ?n ?ts] => pose proof (Hco n ts); generalize dependent (coded c n ts); intros end;
    repeat match goal with |- context [simple c ?t] => pose proof (Hsi t); generalize dependent (simple c t); intros end; lia.
Qed.

Section headers.
Context (sha1 : list Z -> list Z) (b : list Z) (Hb : byte_list b) (Hlen : len b <= u64_max).

Lemma safe_rows valid ts p : 0 <= p ->
  safe (read_rows b valid ts p) (fun l => length l = length ts /\ forall j t, ts !! j = Some t ->
    exists n, l !! j = Some n /\ 0 <= n < 2 ^ 32 /\ (Z.testbit valid (Z.of_nat t) = false -> n = 0)).
Proof.
  revert p. induction ts as [|t ts IH]; intros p Hp; cbn [read_rows]; [done|]. destruct (Z.testbit valid (Z.of_nat t)) eqn:Et.
  - eapply safe_bind; [by apply safe_u32|]. cbn. intros n Hn. eapply safe_bind; [apply IH; lia|]. cbn. intros l [Hl Hall].
    split; [by rewrite Hl|]. intros [|j] t' Hj; [|by apply Hall]. injection Hj as <-. exists n. split; [done|]. split; [done|congruence].
  - eapply safe_bind; [by apply IH|]. cbn. intros l [Hl Hall]. split; [by rewrite Hl|].
    intros [|j] t' Hj; [|by apply Hall]. injection Hj as <-. by exists 0.
Qed.

Lemma safe_walk valid c ts cursor : 0 <= cursor -> (forall t, 0 <= row c t) ->
  safe (walk b valid c ts cursor) (fun l => forall j t, ts !! j = Some t -> Z.testbit valid (Z.of_nat t) = true ->
    exists o rs, l !! j = Some o /\ row_size t c = Done rs /\ 0 <= o /\ o + rs * row c t <= len b).
Proof.
  intros Hc Hrow. revert cursor Hc. induction ts as [|t ts IH]; intros cursor Hc; cbn [walk]; [done|].
  destruct (Z.testbit valid (Z.of_nat t)) eqn:Et.
  - destruct (row_size t c) as [rs|e|] eqn:Ers; cbn [obind]; [|done|by (unfold row_size in Ers; cbv zeta in Ers; repeat case_match)].
    pose proof (row_size_pos t c rs Ers) as Hrs. pose proof (Hrow t). unfold checked_add. destruct (Z.leb_spec (cursor + rs * row c t) u64_max); cbn; [|done].
    destruct (Z.ltb_spec (len b) (cursor + rs * row c t)); [done|]. eapply safe_bind; [apply IH; nia|]. cbn. intros l Hl [|j] t' Hj Ht'.
    + injection Hj as <-. by exists cursor, rs.
    + by apply Hl.
  - eapply safe_bind; [by apply IH|]. cbn. intros l Hl [|j] t' Hj Ht'; [injection Hj as ->; congruence|by apply Hl].
Qed.

(** Offsets the headers give. *)
Definition nonneg_streams (s : streams) : Prop := forall t, tables_at s = Some t -> 0 <= t.1.
Lemma safe_stream off st i : 0 <= off -> 0 <= st.1 /\ nonneg_streams st.2 -> safe (stream_step b off st i) (fun st => 0 <= st.1 /\ nonneg_streams st.2).
Proof.
  destruct st as [p s]. cbn [fst snd]. intros Ho [Hp Hs]. unfold stream_step. eapply safe_bind; [by apply safe_u32|]. cbn. intros s_off Hso.
  eapply safe_bind; [apply safe_u32; [done|lia]|]. cbn. intros s_size Hss. eapply safe_bind; [apply safe_ok_or|]. cbn. intros n Hn.
  destruct (Z.leb_spec (p + 8) (len b)); [|done]. apply position_lt in Hn. rewrite length_drop in Hn.
  eapply safe_bind; [apply suc_safe, suc_range'; unfold len in *; lia|]. cbn. intros nm _. destruct (negb _); [done|].
  eapply safe_bind; [apply safe_ok_or|]. cbn. intros e _. split.
  - unfold align4. pose proof (Z.div_mod (p + 8 + Z.of_nat n + 1 + 3) 4 ltac:(lia)). pose proof (Z.mod_pos_bound (p + 8 + Z.of_nat n + 1 + 3) 4 ltac:(lia)). lia.
  - unfold place, nonneg_streams in *. repeat case_match; cbn; try done. intros t [= <-]. cbn. lia.
Qed.

Lemma safe_root off : 0 <= off -> safe (read_root b off) (fun r => nonneg_streams r.2).
Proof.
  intros Ho. unfold read_root. destruct (_ <? _); [done|]. eapply safe_bind; [by apply safe_u32|]. cbn. intros magic _. destruct (negb _); [done|].
  eapply safe_bind; [apply safe_u32; [done|lia]|]. cbn. intros vl Hvl. destruct (_ || _) eqn:E; [done|]. bool_prop.
  eapply safe_bind; [apply safe_ok_or|]. cbn. intros vb Hvb. apply get_length in Hvb as [Hl _]; [|lia..].
  eapply safe_bind.
  { apply suc_safe, suc_range'. destruct (position _ vb) as [n|] eqn:En; cbn; [apply position_lt in En; unfold len in *; lia|unfold len; lia]. }
  cbn. intros ver _. assert (Hal : 0 <= align4 (off + 16 + vl)) by (unfold align4; apply Z.mul_nonneg_nonneg; [apply Z.div_pos; lia|lia]).
  eapply safe_bind; [apply safe_u16; [done|lia]|]. cbn. intros n Hn. eapply safe_bind.
  { apply (safe_for_each _ _ (fun st => 0 <= st.1 /\ nonneg_streams st.2)); [split; [cbn; lia|by intros ?]|]. intros st i _ Hst. by apply safe_stream. }
  cbn. intros st [_ Hs]. done.
Qed.

Lemma safe_tables off : 0 <= off -> safe (read_tables_header b off) (fun r => 0 <= r.1.2 /\ length r.2 = 64%nat /\ forall t : nat, (t < 64)%nat ->
    exists n, r.2 !! t = Some n /\ 0 <= n < 2 ^ 32 /\ (Z.testbit r.1.2 (Z.of_nat t) = false -> n = 0)).
Proof.
  intros Ho. unfold read_tables_header. destruct (Z.ltb_spec (len b) (off + 24)); [done|]. eapply safe_bind; [apply suc_safe, suc_index; lia|].
  intros hs _. eapply safe_bind; [apply safe_u64; [done|lia]|]. cbn beta. intros valid Hv. eapply safe_bind; [apply safe_rows; lia|]. intros l [Hl Hall].
  split; [cbn; lia|]. split; [done|]. intros t Ht. apply Hall. by rewrite lookup_seq_lt.
Qed.

Lemma walk_tables_fit rows valid hs offs cursor :
  let c := Ctx (negb (Z.land hs 1 =? 0)) (negb (Z.land hs 2 =? 0)) (negb (Z.land hs 4 =? 0)) rows in
  length rows = 64%nat -> (forall t : nat, (t < 64)%nat -> exists n, rows !! t = Some n /\ 0 <= n < 2 ^ 32 /\ (Z.testbit valid (Z.of_nat t) = false -> n = 0)) ->
  0 <= cursor -> walk b valid c (seq 0 64) cursor = Done offs -> tables_fit b offs c.
Proof.
  cbn zeta. set (c := Ctx _ _ _ rows). intros Hl Hrows Hc Hw. assert (Hr : forall t, 0 <= row c t < 2 ^ 32).
  { intros t. unfold row, c. cbn. destruct (decide (t < 64)%nat) as [Ht|Ht]; [destruct (Hrows t Ht) as (n & -> & Hn & _); done|].
    rewrite lookup_ge_None_2 by lia. cbn. lia. }
  intros t. split; [done|]. intros Hpos. pose proof (safe_walk valid c (seq 0 64) cursor Hc ltac:(intros t'; destruct (Hr t'); done)) as Hs.
  rewrite Hw in Hs. cbn [safe] in Hs. destruct (decide (t < 64)%nat) as [Ht|Ht].
  - destruct (Hrows t Ht) as (n & Hn & _ & Hz). destruct (Hs t t ltac:(by rewrite lookup_seq_lt)) as (o & rs & Ho & Hrs & Hle).
    { apply not_false_is_true. intros Hf. unfold row, c in Hpos. cbn in Hpos. rewrite Hn, (Hz Hf) in Hpos. cbn in Hpos. lia. }
    exists rs. unfold offset. rewrite Ho. done.
  - unfold row, c in Hpos. cbn in Hpos. rewrite lookup_ge_None_2 in Hpos by lia. cbn in Hpos. lia.
Qed.
End headers.

Section properties.
Context (sha1 : list Z -> list Z) (Hsha : forall k, len (sha1 k) = 20) (b : list Z) (Hb : byte_list b) (Hlen : len b <= u64_max).

Definition pe_ok (pe : pe_headers) : Prop :=
  0 <= cli_rva pe /\ Forall (fun s => 0 <= pointer_to_raw_data s) (sections pe).
Lemma safe_pe : safe (read_pe_headers b) pe_ok.
Proof.
  unfold read_pe_headers. eapply safe_bind.
  { destruct (Z.ltb_spec (len b) 0x40); [apply (suc_safe _ (fun _ => True)); done|].
    eapply safe_bind; [apply suc_safe, suc_index; lia|]. intros m _. destruct (negb _); [apply (suc_safe _ (fun _ => True)); done|].
    eapply safe_bind; [apply suc_safe, suc_index; lia|]. done. }
  intros [] _; [done|]. eapply safe_bind; [apply safe_u32; [done|lia]|]. cbn beta. intros lf Hlf. destruct (negb _); [done|].
  eapply safe_bind; [apply safe_u16; [done|lia]|]. cbn beta. intros ns Hns. eapply safe_bind; [apply safe_u16; [done|lia]|]. cbn beta. intros so Hso.
  eapply safe_bind; [apply safe_u16; [done|lia]|]. cbn beta. intros magic _.
  eapply (safe_bind _ (fun d => 0 <= d.1)).
  { destruct (_ =? 0x10b); [|destruct (_ =? 0x20b); [|done]]; (eapply safe_bind; [apply safe_u32; [done|lia]|]); cbn; lia. }
  intros [dirs n] Hd. cbn [fst] in Hd. eapply safe_bind; [apply safe_u32; [done|lia]|]. cbn beta. intros soh _. destruct (_ <=? 14); [done|].
  eapply safe_bind; [apply safe_u32; [done|lia]|]. cbn beta. intros rva Hrva. eapply safe_bind; [apply safe_u32; [done|lia]|]. cbn beta. intros sz _.
  destruct (_ || _); [done|]. eapply safe_bind.
  - apply (safe_for_each _ _ (fun l => Forall (fun s => 0 <= pointer_to_raw_data s) l)); [constructor|]. intros l i Hi Hl. apply elem_of_seqZ in Hi.
    destruct (_ <? _); [done|]. do 3 (eapply safe_bind; [apply safe_u32; [done|lia]|]; cbn beta; intros ? _).
    eapply safe_bind; [apply safe_u32; [done|lia]|]. cbn beta. intros pr Hpr. cbn. apply Forall_app. split; [done|]. constructor; [cbn; lia|constructor].
  - cbn beta. intros l Hl. split; [cbn; lia|done].
Qed.

Lemma safe_offset pe rva : pe_ok pe -> 0 <= rva -> safe (rva_to_offset b pe rva) (fun o => 0 <= o).
Proof.
  intros [_ Hs] Hr. unfold rva_to_offset. destruct (_ <? _); [done|]. destruct (List.find _ _) as [s|] eqn:Ef; [|done].
  destruct (len b <=? _); [done|]. apply find_Some_elem in Ef as [Hin Hsec]. rewrite Forall_forall in Hs. specialize (Hs s Hin). cbn.
  unfold in_section in Hsec. bool_prop. lia.
Qed.

Lemma safe_metadata off fl entry : 0 <= off -> safe (read_metadata sha1 false b off fl entry) (fun _ => True).
Proof.
  intros Ho. unfold read_metadata. eapply safe_bind; [by apply safe_root|]. intros [version s] Hs. cbn [snd] in Hs.
  eapply safe_bind; [apply safe_ok_or|]. cbn beta. intros [t_off t_size] Ht. specialize (Hs _ Ht). cbn [fst] in Hs.
  eapply safe_bind; [by apply safe_tables|]. intros [[hs valid] rows] (Hv & Hl & Hrows). cbn [fst snd] in *.
  destruct (walk b valid _ _ _) as [offs|e|] eqn:Ew; cbn [obind]; [|done|].
  - apply suc_safe, extract_ok; [done..|]. eapply walk_tables_fit; [done|exact Hrows| |exact Ew]. unfold count_ones, len. lia.
  - set (c := Ctx _ _ _ rows) in *. pose proof (safe_walk b valid c (seq 0 64) (t_off + 24 + count_ones valid * 4)) as Hsafe.
    rewrite Ew in Hsafe. apply Hsafe; [unfold count_ones, len; lia|]. intros t. unfold row, c. cbn.
    destruct (decide (t < 64)%nat) as [Hlt|]; [destruct (Hrows t Hlt) as (n & -> & Hn & _); cbn; lia|rewrite lookup_ge_None_2 by lia; done].
Qed.

(** The streams, the row counts and the walk of the tables are readable. *)
Definition tables_readable (off : Z) : Prop :=
  exists version s t hs valid rows offs, read_root b off = Done (version, s) /\ tables_at s = Some t /\
    read_tables_header b t.1 = Done (hs, valid, rows) /\
    walk b valid (Ctx (negb (Z.land hs 1 =? 0)) (negb (Z.land hs 2 =? 0)) (negb (Z.land hs 4 =? 0)) rows) (seq 0 64)
      (t.1 + 24 + count_ones valid * 4) = Done offs.
End properties.

(** C29: Whatever bytes the file holds, the release build of the reader answers with an image
    or an error and never indexes out of range; and once the headers are read and
    the walk has placed the tables in the file, reading every row, name and blob
    succeeds. *)
Theorem reader_total (sha1 : list Z -> list Z) (b : list Z) :
  (forall k, len (sha1 k) = 20) -> byte_list b -> len b <= u64_max ->
  read_assembly sha1 false b <> Panic /\
  (forall off fl entry, 0 <= off -> tables_readable b off -> exists img, read_metadata sha1 false b off fl entry = Done img).
Proof.
  intros Hsha Hb Hlen. split.
  - assert (Hs : safe (read_assembly sha1 false b) (fun _ => True)).
    { unfold read_assembly. eapply safe_bind; [by apply safe_pe|]. intros pe Hpe. eapply safe_bind; [apply safe_offset; [done|apply Hpe]|]. cbn beta. intros o Ho.
      eapply (safe_bind _ (fun h => 0 <= metadata_rva h)).
      { unfold read_cli_header. destruct (_ <? _); [done|]. eapply safe_bind; [apply safe_u32; [done|lia]|]. cbn beta. intros rva Hr.
        do 3 (eapply safe_bind; [apply safe_u32; [done|lia]|]; cbn beta; intros ? _). cbn. lia. }
      intros h Hh. eapply safe_bind; [by apply safe_offset|]. cbn beta. intros off Hoff. by apply safe_metadata. }
    by destruct (read_assembly sha1 false b).
  - intros off fl entry Ho (version & s & t & hs & valid & rows & offs & Hr & Ht & Hh & Hw). unfold read_metadata. rewrite Hr. cbn [obind]. rewrite Ht.
    cbn [ok_or obind]. destruct t as [t_off t_size]. cbn [fst] in *. rewrite Hh. cbn [obind]. rewrite Hw. cbn [obind].
    pose proof (safe_root b Hb off Ho) as Hs. rewrite Hr in Hs. specialize (Hs _ Ht). cbn [fst] in Hs.
    pose proof (safe_tables b Hb t_off Hs) as Hst. rewrite Hh in Hst. destruct Hst as (Hv & Hl & Hrows). cbn [fst snd] in *.
    pose proof (extract_ok sha1 Hsha b Hb Hlen s offs _ ltac:(eapply walk_tables_fit; [exact Hl|exact Hrows| |exact Hw]; unfold count_ones, len; lia) version fl entry) as He.
    destruct (extract _ _ _ _ _ _ _ _ _) as [img| |]; [by eexists|done|done].
Qed.

(** ** A small assembly *)
Definition zeros (n : nat) : list Z := replicate n 0.
(** Module Demo.dll, assembly Demo 1.2.3.4, a reference to mscorlib, a class Main
    that extends BaseScript, and two custom attributes, the second of which names
    the row 0 of the member references. *)
Definition demo : list Z :=
  [77; 90] ++
  zeros 58 ++
  [64; 0; 0; 0; 80; 69] ++
  zeros 18 ++
  [224; 0; 0; 0; 11; 1] ++
  zeros 59 ++
  [16] ++
  zeros 30 ++
  [16] ++
  zeros 115 ++
  [48; 1; 0; 0; 72] ++
  zeros 11 ++
  [120; 1; 0; 0; 0; 4; 0; 0; 1; 0; 0; 0; 1; 0; 0; 6] ++
  zeros 48 ++
  [66; 83; 74; 66; 1; 0; 1; 0; 0; 0; 0; 0; 12; 0; 0; 0; 118; 52; 46; 48; 46; 51; 48; 51; 49; 57; 0; 0; 0; 0; 4; 0; 96; 0; 0; 0; 148; 0; 0; 0; 35; 126;
   0; 0; 244; 0; 0; 0; 68; 0; 0; 0; 35; 83; 116; 114; 105; 110; 103; 115; 0; 0; 0; 0; 56; 1; 0; 0; 16; 0; 0; 0; 35; 71; 85; 73; 68; 0; 0; 0; 72; 1; 0;
   0; 12; 0; 0; 0; 35; 66; 108; 111; 98] ++
  zeros 7 ++
  [2; 0; 0; 1; 7; 20; 0; 0; 9] ++
  zeros 11 ++
  [1; 0; 0; 0; 2; 0; 0; 0; 1; 0; 0; 0; 1; 0; 0; 0; 2; 0; 0; 0; 1; 0; 0; 0; 1; 0; 0; 0; 0; 0; 1; 0; 1; 0; 0; 0; 0; 0; 6; 0; 24; 0; 44; 0; 6; 0; 56; 0;
   44; 0; 0; 1; 0; 0; 51; 0; 0; 0; 9; 0; 1; 0; 1; 0; 9; 0; 0; 0; 0; 0; 46; 0; 11; 0; 0; 0; 46; 0; 3; 0; 0; 0; 4; 128; 0; 0; 1; 0; 2; 0; 3; 0; 4] ++
  zeros 7 ++
  [10; 0; 0; 0; 4] ++
  zeros 11 ++
  [1; 0; 15] ++
  zeros 6 ++
  [68; 101; 109; 111; 46; 100; 108; 108; 0; 68; 101; 109; 111; 0; 109; 115; 99; 111; 114; 108; 105; 98; 0; 68; 101; 98; 117; 103; 103; 97; 98; 108;
   101; 65; 116; 116; 114; 105; 98; 117; 116; 101; 0; 83; 121; 115; 116; 101; 109; 0; 77; 97; 105; 110; 0; 66; 97; 115; 101; 83; 99; 114; 105; 112;
   116; 0; 0; 1; 2; 3; 4; 5; 6; 7; 8; 9; 10; 11; 12; 13; 14; 15; 16; 0; 8; 183; 122; 92; 86; 25; 52; 224; 137; 0; 0].
Definition digest20 (k : list Z) : list Z := replicate 20 (Z.of_nat (length k)).

Lemma reader_total_witness :
  exists img, read_assembly digest20 false demo = Done img /\ assembly img = Some (AssemblyIdentity (codes "Demo") (codes "1.2.3.4") None 0 None false) /\
    ref_token <$> references img = [Some (codes "b77a5c561934e089")] /\ extends_base_script <$> types img = [true] /\
    custom_attribute_types img = [codes "System.DebuggableAttribute"].
Proof.
  destruct (reader_total digest20 demo ltac:(done) ltac:(by_decide) ltac:(by_decide)) as [Hp _].
  destruct (read_assembly digest20 false demo) as [img|e|] eqn:E; [|exfalso; vm_compute in E; discriminate|destruct (Hp eq_refl)].
  exists img. split; [done|]. vm_compute in E. injection E as <-. split; [reflexivity|]. split; [reflexivity|]. split; reflexivity.
Defined.

(** A build that checks overflow panics on the second attribute. *)
Lemma row_zero_panics : read_assembly digest20 true demo = Panic.
Proof. vm_compute. reflexivity. Qed.
