(* ===== verification/Client.v ===== *)
(** Client-side groundwork: the NUI policies of crates/ald-nui/src/lib.rs
    (module [Nui]), the textures of crates/ald-dui/src/lib.rs ([Dui]), the key
    bindings of crates/ald-input/src/lib.rs ([Input]) and the voice channels of
    crates/ald-voice/src/lib.rs ([Voice]). *)
From S2P Require Import Prelude RustStr Spatial.

(** [is_ascii_alphanumeric]. *)
Definition alphanumeric (c : Z) : bool := is_digit c || ((65 <=? c) && (c <=? 90)) || ((97 <=? c) && (c <=? 122)).
Definition token_byte (c : Z) : bool := alphanumeric c || (c =? 95) || (c =? 45).
Definition tlen (s : text) : Z := Z.of_nat (length s).

Lemma fst_unique {A B} (l : list (A * B)) i v w : NoDup l.*1 -> (i, v) ∈ l -> (i, w) ∈ l -> v = w.
Proof.
  induction l as [|[j u] l IH]; cbn; [by intros _ ?%elem_of_nil|]. intros [Hni Hnd]%NoDup_cons.
  intros [Hv|Hv]%elem_of_cons [Hw|Hw]%elem_of_cons; simplify_eq; try done; [| |by apply IH];
    destruct Hni; apply list_elem_of_fmap; by eexists (_, _).
Qed.

Module Nui.
Definition MAX_NAME_LEN : Z := 64.
Definition MAX_MESSAGE_LEN : Z := 1048576.
Inductive nui_error :=
  | BadOrigin (s : text) | BadResource (s : text) | BadPath (s : text) | BadCallback (s : text) | MessageTooLarge (n : Z)
  | UnknownCallback (s : text) | DoubleResponse (id : Z) | UnknownRequest (id : Z) | DuplicateCallback (s : text) | FocusWithoutUi (s : text).

Definition valid_token (s : text) (what : text -> nui_error) : result unit nui_error :=
  if bool_decide (s = []) || (MAX_NAME_LEN <? tlen s) then Err (what s)
  else if forallb token_byte s then Ok tt else Err (what s).

Record nui_origin := NuiOrigin { resource : text; path : text }.
Definition strip_prefix (p l : text) : option text := if starts_with p l then Some (drop (length p) l) else None.
Definition parse (origin : text) : result nui_origin nui_error :=
  let? rest := ok_or (strip_prefix (codes "aldnui://") origin) (BadOrigin origin) in
  let? '(resource, path) := ok_or (split_once 47 rest) (BadOrigin origin) in
  let? _ := valid_token resource BadResource in
  if bool_decide (path = []) || existsb (fun c => c =? 0) path || existsb (fun c => c =? 92) path then Err (BadPath path)
  else if existsb (fun seg => verb_is seg "..") (split_on 47 path) then Err (BadPath path)
  else Ok (NuiOrigin resource path).
Definition resource_allowed (o : nui_origin) (allowed : list text) : bool := existsb (fun r => bool_decide (r = resource o)) allowed.

(** *** Messages *)
Record message_queue := Queue { queue : list (text * text); capacity : Z; dropped : Z }.
Definition queue_new (capacity : Z) : message_queue := Queue [] (Z.max capacity 1) 0.
Definition send (q : message_queue) (resource payload : text) : result message_queue nui_error :=
  let? _ := valid_token resource BadResource in
  if MAX_MESSAGE_LEN <? tlen payload then Err (MessageTooLarge (tlen payload))
  else
    let '(l, d) := if capacity q <=? Z.of_nat (length (queue q)) then (tail (queue q), wrap 64 (dropped q + 1)) else (queue q, dropped q) in
    Ok (Queue (l ++ [(resource, payload)]) (capacity q) d).
Definition drain (q : message_queue) : list (text * text) * message_queue := (queue q, Queue [] (capacity q) (dropped q)).

(** *** Callbacks *)
Record callback_request := Request { id : Z; callback : text; req_resource : text; payload : text }.
Record registry := Registry {
  handlers : gmap text text; pending : gmap Z callback_request; answered : gmap Z text; next_id : Z }.
Definition registry_new : registry := Registry ∅ ∅ ∅ 0.
Definition register (r : registry) (resource callback : text) : result registry nui_error :=
  let? _ := valid_token resource BadResource in
  let? _ := valid_token callback BadCallback in
  if bool_decide (is_Some (handlers r !! callback)) then Err (DuplicateCallback callback)
  else Ok (Registry (<[callback := resource]> (handlers r)) (pending r) (answered r) (next_id r)).
Definition unregister (r : registry) (callback : text) : bool * registry :=
  (bool_decide (is_Some (handlers r !! callback)), Registry (delete callback (handlers r)) (pending r) (answered r) (next_id r)).
Definition invoke (r : registry) (resource callback payload : text) : result (Z * registry) nui_error :=
  match handlers r !! callback with
  | None => Err (UnknownCallback callback)
  | Some owner =>
      if negb (bool_decide (owner = resource)) then Err (UnknownCallback callback)
      else if MAX_MESSAGE_LEN <? tlen payload then Err (MessageTooLarge (tlen payload))
      else
        let i := next_id r in
        Ok (i, Registry (handlers r) (<[i := Request i callback resource payload]> (pending r)) (answered r) (wrap 64 (i + 1)))
  end.
Definition respond (r : registry) (id : Z) (response : text) : result registry nui_error :=
  if bool_decide (is_Some (answered r !! id)) then Err (DoubleResponse id)
  else if bool_decide (is_Some (pending r !! id)) then
    Ok (Registry (handlers r) (delete id (pending r)) (<[id := response]> (answered r)) (next_id r))
  else Err (UnknownRequest id).
Definition take_response (r : registry) (id : Z) : option text * registry :=
  (answered r !! id, Registry (handlers r) (pending r) (delete id (answered r)) (next_id r)).
Definition pending_count (r : registry) : nat := size (pending r).

(** *** Focus *)
Record focus_state := Focus { ui_open : gset text; focused : option text; cursor : bool; keep_input : bool }.
Definition focus_new : focus_state := Focus ∅ None false false.
Definition set_ui_open (f : focus_state) (resource : text) (open : bool) : focus_state :=
  if open then Focus ({[resource]} ∪ ui_open f) (focused f) (cursor f) (keep_input f)
  else
    let opened := ui_open f ∖ {[resource]} in
    if bool_decide (focused f = Some resource) then Focus opened None false false else Focus opened (focused f) (cursor f) (keep_input f).
Definition set_focus (f : focus_state) (resource : option text) (cursor keep_input : bool) : result focus_state nui_error :=
  match resource with
  | None => Ok (Focus (ui_open f) None false false)
  | Some r => if negb (bool_decide (r ∈ ui_open f)) then Err (FocusWithoutUi r) else Ok (Focus (ui_open f) (Some r) cursor keep_input)
  end.

(** *** Content-Security-Policy *)
Record csp_policy := Csp { allow_wasm : bool; allowed_origins : list text }.
Fixpoint join (sep : text) (l : list text) : text :=
  match l with [] => [] | [x] => x | x :: l => x ++ sep ++ join sep l end.
Definition header (p : csp_policy) : text :=
  let script := codes "'self'" :: (if allow_wasm p then [codes "'wasm-unsafe-eval'"] else []) in
  join (codes "; ") [codes "default-src 'none'"; codes "script-src " ++ join (codes " ") script;
    if bool_decide (allowed_origins p = []) then codes "connect-src 'none'" else codes "connect-src " ++ join (codes " ") (allowed_origins p)].

(** *** Every request is answered at most once *)
Inductive op := Register (resource callback : text) | Unregister (callback : text) | Invoke (resource callback payload : text)
  | Respond (id : Z) (response : text) | Take (id : Z).
Inductive event := Invoked (id : Z) | Answered (id : Z) (response : text) | Delivered (id : Z) (response : text).
Definition step (s : registry * list event) (o : op) : registry * list event :=
  let '(r, log) := s in
  match o with
  | Register res cb => (match register r res cb with Ok r => r | Err _ => r end, log)
  | Unregister cb => ((unregister r cb).2, log)
  | Invoke res cb p => match invoke r res cb p with Ok (i, r) => (r, log ++ [Invoked i]) | Err _ => (r, log) end
  | Respond i v => match respond r i v with Ok r => (r, log ++ [Answered i v]) | Err _ => (r, log) end
  | Take i => let '(v, r) := take_response r i in (r, match v with Some v => log ++ [Delivered i v] | None => log end)
  end.

Definition invoked (log : list event) : list Z := omap (fun e => match e with Invoked i => Some i | _ => None end) log.
Definition answers (log : list event) : list (Z * text) := omap (fun e => match e with Answered i v => Some (i, v) | _ => None end) log.
Definition delivered (log : list event) : list (Z * text) := omap (fun e => match e with Delivered i v => Some (i, v) | _ => None end) log.

Record ledger (n : Z) (s : registry * list event) : Prop := {
  l_next : next_id s.1 <= n;
  l_invoked : invoked s.2 = seqZ 0 (next_id s.1) /\ 0 <= next_id s.1;
  l_answers : NoDup (answers s.2).*1 /\ NoDup (delivered s.2).*1;
  l_known : forall i, i ∈ (answers s.2).*1 -> 0 <= i < next_id s.1;
  l_pending : forall i, is_Some (pending s.1 !! i) <-> 0 <= i < next_id s.1 /\ i ∉ (answers s.2).*1;
  l_answered : forall i v, answered s.1 !! i = Some v <-> (i, v) ∈ answers s.2 /\ i ∉ (delivered s.2).*1;
  l_delivered : forall i v, (i, v) ∈ delivered s.2 -> (i, v) ∈ answers s.2 }.

Lemma ledger_frame n n' r r' log : n <= n' -> pending r' = pending r -> answered r' = answered r -> next_id r' = next_id r -> ledger n (r, log) -> ledger n' (r', log).
Proof. intros Hn Hp Ha Hi [H1 H2 H3 H4 H5 H6 H7]. cbn in *. constructor; cbn; rewrite ?Hp, ?Ha, ?Hi; auto; lia. Qed.

Lemma invoke_ledger n r log res cb p : n + 1 < 2 ^ 64 -> ledger n (r, log) -> ledger (n + 1) (step (r, log) (Invoke res cb p)).
Proof.
  intros Hn Hl. cbn [step]. unfold invoke. destruct (handlers r !! cb) as [owner|]; [|by apply (ledger_frame n _ r); [lia|..]].
  destruct (negb _); [by apply (ledger_frame n _ r); [lia|..]|]. destruct (_ <? _); [by apply (ledger_frame n _ r); [lia|..]|].
  destruct Hl as [H1 [H2 H2'] [H3 H3'] H4 H5 H6 H7]. cbn in *. rewrite wrap_small by (unfold fits; lia).
  constructor; cbn; unfold invoked, answers, delivered in *; rewrite ?omap_app; cbn; rewrite ?app_nil_r; auto.
  - lia.
  - split; [|lia]. rewrite H2. rewrite seqZ_app by lia. by f_equal.
  - intros i Hi. specialize (H4 i Hi). lia.
  - intros i. destruct (decide (i = next_id r)) as [->|Hne].
    + rewrite lookup_insert_eq. split; [|by eexists]. intros _. split; [lia|]. intros Hi. specialize (H4 _ Hi). lia.
    + rewrite lookup_insert_ne by done. rewrite H5. split; intros [? ?]; (split; [lia|done]).
Qed.

Lemma respond_ledger n r log i v : ledger n (r, log) -> ledger n (step (r, log) (Respond i v)).
Proof.
  intros Hl. cbn [step]. unfold respond. case_bool_decide as Ha; [done|]. case_bool_decide as Hp; [|done].
  destruct Hl as [H1 [H2 H2'] [H3 H3'] H4 H5 H6 H7]. cbn in *. apply H5 in Hp as [Hr Hni].
  constructor; cbn; unfold invoked, answers, delivered in *; rewrite ?omap_app; cbn; rewrite ?app_nil_r, ?fmap_app; auto.
  - split; [|done]. cbn. apply NoDup_app. split; [done|]. split; [|apply NoDup_singleton]. intros j Hj ->%list_elem_of_singleton. done.
  - intros j [Hj| ->%list_elem_of_singleton]%elem_of_app; [by apply H4|done].
  - intros j. cbn. rewrite elem_of_app, list_elem_of_singleton. destruct (decide (j = i)) as [->|Hne].
    + rewrite lookup_delete_eq. split; [by intros []|]. intros [_ Hn]. destruct Hn. by right.
    + rewrite lookup_delete_ne by done. rewrite H5. split; intros [? Hn]; (split; [done|]); intros Hc; apply Hn; [destruct Hc; done|by left].
  - intros j w. cbn. rewrite elem_of_app, list_elem_of_singleton. destruct (decide (j = i)) as [->|Hne].
    + rewrite lookup_insert_eq. split.
      * intros [= ->]. split; [by right|]. intros Hd. apply Hni. apply list_elem_of_fmap in Hd as ([k u] & -> & Hd). apply list_elem_of_fmap. by exists (k, u); auto.
      * intros [[Hw|[= ->]] _]; [|done]. destruct Hni. apply list_elem_of_fmap. by exists (i, w).
    + rewrite lookup_insert_ne by done. rewrite H6. split; [intros [? ?]; auto|]. intros [[?|[= -> _]] ?]; done.
  - intros j w Hd. apply elem_of_app. left. auto.
Qed.

Lemma take_ledger n r log i : ledger n (r, log) -> ledger n (step (r, log) (Take i)).
Proof.
  intros Hl. cbn [step take_response]. destruct (answered r !! i) as [v|] eqn:Ea.
  2:{ apply (ledger_frame n n r); [done|done| |done|exact Hl]. cbn. by apply delete_id. }
  destruct Hl as [H1 [H2 H2'] [H3 H3'] H4 H5 H6 H7]. cbn in *. apply H6 in Ea as [Hin Hnd].
  constructor; cbn; unfold invoked, answers, delivered in *; rewrite ?omap_app; cbn; rewrite ?app_nil_r, ?fmap_app; auto.
  - split; [done|]. cbn. apply NoDup_app. split; [done|]. split; [|apply NoDup_singleton]. intros j Hj ->%list_elem_of_singleton. done.
  - intros j w. cbn. rewrite elem_of_app, list_elem_of_singleton. destruct (decide (j = i)) as [->|Hne].
    + rewrite lookup_delete_eq. split; [done|]. intros [_ Hn]. destruct Hn. by right.
    + rewrite lookup_delete_ne by done. rewrite H6. split; intros [? Hn]; (split; [done|]); intros Hc; apply Hn; [destruct Hc; done|by left].
  - intros j w [Hd|[= -> ->]%list_elem_of_singleton]%elem_of_app; auto.
Qed.

Lemma run_ledger hist : Z.of_nat (length hist) < 2 ^ 64 -> ledger (Z.of_nat (length hist)) (run step (registry_new, []) hist).
Proof.
  induction hist as [|o hist IH] using rev_ind; intros Hlen.
  - constructor; cbn; try done; try (split; constructor); try lia; try (intros; set_solver).
    intros i. rewrite lookup_empty. split; [by intros []|intros [? _]; lia].
  - rewrite length_app in *. cbn [length] in *. rewrite Nat2Z.inj_add in *. specialize (IH ltac:(lia)). rewrite run_app. destruct (run _ _ hist) as [r log]. cbn [run foldl].
    assert (Hmono : ledger (Z.of_nat (length hist) + Z.of_nat 1) (r, log)) by (apply (ledger_frame (Z.of_nat (length hist)) _ r); [lia|done..|exact IH]).
    destruct o as [res cb|cb|res cb p|i v|i].
    + cbn [step]. unfold register. destruct (valid_token res BadResource); cbn; [|done]. destruct (valid_token cb BadCallback); cbn; [|done].
      case_bool_decide; [done|]. by apply (ledger_frame _ _ r _ _ (Z.le_refl _)).
    + by apply (ledger_frame _ _ r _ _ (Z.le_refl _)).
    + apply invoke_ledger; [lia|done].
    + by apply respond_ledger.
    + by apply take_ledger.
Qed.

(** However registrations, invocations, responses and deliveries interleave,
    request ids are fresh, a request is answered at most once and only after it was
    invoked, it stays pending exactly until then, and its response is delivered at
    most once, as it was given. *)
Theorem nui_callbacks (hist : list op) :
  Z.of_nat (length hist) < 2 ^ 64 ->
  let '(r, log) := run step (registry_new, []) hist in
  NoDup (invoked log) /\ NoDup (answers log).*1 /\ NoDup (delivered log).*1 /\
  (forall i, is_Some (pending r !! i) <-> i ∈ invoked log /\ i ∉ (answers log).*1) /\
  (forall i, i ∈ (answers log).*1 -> i ∈ invoked log) /\
  (forall i v, (i, v) ∈ answers log <-> answered r !! i = Some v \/ (i, v) ∈ delivered log) /\
  (forall i v, respond r i v <> Err (UnknownRequest i) /\ respond r i v <> Err (DoubleResponse i) <-> is_Some (pending r !! i)).
Proof.
  intros Hlen. pose proof (run_ledger hist Hlen) as Hl. destruct (run _ _ hist) as [r log]. destruct Hl as [H1 [H2 H2'] [H3 H3'] H4 H5 H6 H7]. cbn [fst snd] in *.
  assert (Hin : forall i, i ∈ invoked log <-> 0 <= i < next_id r) by (intros i; rewrite H2, elem_of_seqZ; lia).
  split; [rewrite H2; apply NoDup_seqZ|]. split; [done|]. split; [done|]. split; [intros i; by rewrite H5, Hin|]. split; [intros i Hi; apply Hin; auto|]. split.
  - intros i v. split; [|intros [Ha|Hd]; [by apply H6 in Ha as []|by apply H7]]. intros Ha.
    destruct (decide (i ∈ (delivered log).*1)) as [Hd|Hd]; [right|left; by apply H6].
    apply list_elem_of_fmap in Hd as ([j w] & -> & Hd). cbn in *. pose proof (H7 j w Hd) as Hw.
    assert (v = w) as -> by (eapply (fst_unique (answers log)); done). done.
  - intros i v. unfold respond. split.
    + intros [Hu Hd]. case_bool_decide; [done|]. by case_bool_decide.
    + intros Hp. rewrite bool_decide_eq_false_2; [by rewrite bool_decide_eq_true_2|]. intros [w Hw].
      apply H6 in Hw as [Hw _]. apply H5 in Hp as [_ Hn]. apply Hn, list_elem_of_fmap. by exists (i, w).
Qed.

Lemma nui_callbacks_witness :
  let hist := [Register (codes "chat") (codes "say"); Invoke (codes "chat") (codes "say") [1]; Respond 0 [2]; Respond 0 [3]; Take 0; Respond 0 [4]] in
  Z.of_nat (length hist) < 2 ^ 64 /\ answers (run step (registry_new, []) hist).2 = [(0, [2])] /\ NoDup (delivered (run step (registry_new, []) hist).2).*1.
Proof.
  cbn zeta. split; [done|]. split; [reflexivity|].
  exact (proj1 (proj2 (proj2 (nui_callbacks [Register (codes "chat") (codes "say"); Invoke (codes "chat") (codes "say") [1]; Respond 0 [2]; Respond 0 [3]; Take 0; Respond 0 [4]] ltac:(done))))).
Defined.

(** *** Focus and origins *)
Inductive focus_op := Open (r : text) | Close (r : text) | SetFocus (r : option text) (cursor keep : bool).
Definition focus_step (f : focus_state) (o : focus_op) : focus_state :=
  match o with
  | Open r => set_ui_open f r true
  | Close r => set_ui_open f r false
  | SetFocus r c k => match set_focus f r c k with Ok f => f | Err _ => f end
  end.
(** Whatever is focused is open, and without focus there is neither cursor nor kept
    input. *)
Lemma focus_open hist :
  let f := run focus_step focus_new hist in
  match focused f with Some r => r ∈ ui_open f | None => cursor f = false /\ keep_input f = false end.
Proof.
  cbn zeta. apply (run_invariant focus_step (fun f => match focused f with Some r => r ∈ ui_open f | None => cursor f = false /\ keep_input f = false end)); [|done].
  intros f [r|r|[r|] c k] Hf; cbn; [destruct (focused f); set_solver| | |done].
  - case_bool_decide as Hr; cbn; [done|]. destruct (focused f); [|done]. set_solver.
  - unfold set_focus. case_bool_decide; cbn; done.
Qed.

(** A parsed origin has no parent segment, no NUL and no backslash. *)
Lemma origin_confined origin o : parse origin = Ok o ->
  codes ".." ∉ split_on 47 (path o) /\ path o <> [] /\ 0 ∉ path o /\ 92 ∉ path o /\ forallb token_byte (resource o) = true.
Proof.
  unfold parse. intros (rest & _ & H)%rbind_ok. apply rbind_ok in H as ([res p] & _ & H). apply rbind_ok in H as ([] & Ht & H).
  split_if H E1; [done|]. split_if H E2; [done|]. injection H as <-. cbn. apply orb_false_iff in E1 as [E1 E3]. apply orb_false_iff in E1 as [E1 E4].
  apply bool_decide_eq_false in E1. rewrite existsb_false_Forall, Forall_forall in E2. rewrite existsb_false_Forall, Forall_forall in E3. rewrite existsb_false_Forall, Forall_forall in E4. split_and!.
  - intros Hin. specialize (E2 _ Hin). unfold verb_is in E2. by rewrite bool_decide_eq_true_2 in E2.
  - done.
  - intros Hin. by specialize (E4 _ Hin).
  - intros Hin. by specialize (E3 _ Hin).
  - unfold valid_token in Ht. destruct (_ || _); [done|]. by destruct (forallb _ _).
Qed.

(** An absolute path and upper-case names pass, though both are said to be refused. *)
Lemma origin_gaps : parse (codes "aldnui://Chat//etc/passwd") = Ok (NuiOrigin (codes "Chat") (codes "/etc/passwd")).
Proof. reflexivity. Qed.

Definition send_step (q : message_queue) (m : text * text) : message_queue := match send q m.1 m.2 with Ok q => q | Err _ => q end.
Lemma queue_bounded hist capacity : Z.of_nat (length (queue (run send_step (queue_new capacity) hist))) <= Z.max capacity 1.
Proof.
  cut (Nui.capacity (run send_step (queue_new capacity) hist) = Z.max capacity 1 /\ Z.of_nat (length (queue (run send_step (queue_new capacity) hist))) <= Z.max capacity 1); [by intros []|].
  apply (run_invariant send_step (fun q => Nui.capacity q = Z.max capacity 1 /\ Z.of_nat (length (queue q)) <= Z.max capacity 1)); [|split; [done|cbn; lia]].
  intros q [r p] [Hc Hq]. unfold send_step, send. cbn [fst snd]. destruct (valid_token r BadResource); cbn [rbind]; [|done]. destruct (_ <? tlen p); [done|].
  destruct (Z.leb_spec (Nui.capacity q) (Z.of_nat (length (queue q)))); (split; [done|]); cbn; rewrite length_app; cbn; [|lia]. destruct (queue q); cbn in *; lia.
Qed.
End Nui.

Module Dui.
Definition MAX_NAME_LEN : Z := 64.
Definition MAX_URL_LEN : Z := 2048.
Definition MAX_MESSAGE_LEN : Z := 262144.
Definition MAX_DIMENSION : Z := 4096.
Inductive dui_error :=
  | BadName (s : text) | BadDimensions (w h : Z) | UnknownTexture (s : text) | DuplicateTexture (s : text)
  | BadPixelLength (n w h expected : Z) | MessageTooLarge (n : Z) | UrlNotAllowed (s : text).
Record runtime_texture := Texture { id : text; resource : text; width : Z; height : Z; url : option text }.
Definition pixel_bytes (t : runtime_texture) : Z := width t * height t * 4.

Definition default_schemes : list text := [codes "http"; codes "https"; codes "aldnui"].
(** [chars().any(is_control)] on the UTF-8 bytes: C0, DEL and C1. *)
Fixpoint has_control (l : text) : bool :=
  match l with
  | [] => false
  | c :: r => (c <? 32) || (c =? 127) || ((c =? 194) && match r with d :: _ => (128 <=? d) && (d <=? 159) | [] => false end) || has_control r
  end.
(** The part before the first occurrence of the separator. *)
Fixpoint before (sep l : text) : text :=
  if starts_with sep l then [] else match l with [] => [] | c :: r => c :: before sep r end.
Definition check_url (schemes : list text) (url : text) : result text dui_error :=
  if bool_decide (url = []) || (MAX_URL_LEN <? tlen url) || has_control url then Err (UrlNotAllowed url)
  else
    let scheme := to_lower (before (codes "://") url) in
    if bool_decide (scheme = []) || negb (bool_decide (scheme ∈ schemes)) then Err (UrlNotAllowed url) else Ok scheme.

Inductive mouse_button := Left | Right | Middle.
Inductive dui_message := UrlChanged (url : text) | MouseMove (x y : Z) | MouseClick (x y : Z) (button : mouse_button) (down : bool) | PageMessage (payload : text).
Record forwarded_mouse := Forwarded { fx : Z; fy : Z; button : option mouse_button; down : bool }.
Record texture_registry := Textures { textures : gmap text runtime_texture; url_policy : list text }.
Definition registry_new : texture_registry := Textures ∅ default_schemes.
Definition with_url_policy (p : list text) : texture_registry := Textures ∅ p.

Definition valid_name (name : text) : result unit dui_error :=
  if bool_decide (name = []) || (MAX_NAME_LEN <? tlen name) || negb (forallb token_byte name) then Err (BadName name) else Ok tt.
Definition create (r : texture_registry) (id resource : text) (w h : Z) : result texture_registry dui_error :=
  let? _ := valid_name id in
  let? _ := valid_name resource in
  if (w =? 0) || (h =? 0) || (MAX_DIMENSION <? w) || (MAX_DIMENSION <? h) then Err (BadDimensions w h)
  else if bool_decide (is_Some (textures r !! id)) then Err (DuplicateTexture id)
  else Ok (Textures (<[id := Texture id resource w h None]> (textures r)) (url_policy r)).
Definition destroy (r : texture_registry) (id : text) : result texture_registry dui_error :=
  if bool_decide (is_Some (textures r !! id)) then Ok (Textures (delete id (textures r)) (url_policy r)) else Err (UnknownTexture id).
Definition get (r : texture_registry) (id : text) : option runtime_texture := textures r !! id.
Definition check_pixels (r : texture_registry) (id : text) (pixels : text) : result Z dui_error :=
  let? t := ok_or (textures r !! id) (UnknownTexture id) in
  let expected := pixel_bytes t in
  if negb (tlen pixels =? expected) then Err (BadPixelLength (tlen pixels) (width t) (height t) expected) else Ok expected.
Definition navigate (r : texture_registry) (id url : text) : result (dui_message * texture_registry) dui_error :=
  let? _ := check_url (url_policy r) url in
  let? t := ok_or (textures r !! id) (UnknownTexture id) in
  Ok (UrlChanged url, Textures (<[id := Texture (Dui.id t) (resource t) (width t) (height t) (Some url)]> (textures r)) (url_policy r)).
Definition clamp (v lo hi : Z) : Z := if v <? lo then lo else if hi <? v then hi else v.
Definition forward_mouse (r : texture_registry) (id : text) (x y : Z) (b : option mouse_button) (d : bool) : result forwarded_mouse dui_error :=
  let? t := ok_or (textures r !! id) (UnknownTexture id) in
  Ok (Forwarded (clamp x 0 (swrap 32 (sat_sub (width t) 1))) (clamp y 0 (swrap 32 (sat_sub (height t) 1))) b d).
Definition route_page_message (r : texture_registry) (id payload : text) : result dui_message dui_error :=
  if negb (bool_decide (is_Some (textures r !! id))) then Err (UnknownTexture id)
  else if MAX_MESSAGE_LEN <? tlen payload then Err (MessageTooLarge (tlen payload)) else Ok (PageMessage payload).
Definition texture_count (r : texture_registry) : nat := size (textures r).

(** *** Properties *)
Definition texture_ok (t : runtime_texture) : Prop := 1 <= width t <= MAX_DIMENSION /\ 1 <= height t <= MAX_DIMENSION.
Inductive op := Create (id resource : text) (w h : Z) | Destroy (id : text) | Navigate (id url : text).
Definition step (r : texture_registry) (o : op) : texture_registry :=
  match o with
  | Create i res w h => match create r i res w h with Ok r => r | Err _ => r end
  | Destroy i => match destroy r i with Ok r => r | Err _ => r end
  | Navigate i u => match navigate r i u with Ok (_, r) => r | Err _ => r end
  end.

Lemma check_url_ok schemes u sc : check_url schemes u = Ok sc -> sc ∈ schemes /\ has_control u = false /\ tlen u <= MAX_URL_LEN.
Proof.
  unfold check_url. destruct (_ || _) eqn:E1; [done|]. apply orb_false_iff in E1 as [E1 E2]. apply orb_false_iff in E1 as [_ E3]. destruct (_ || _) eqn:E4; [done|].
  apply orb_false_iff in E4 as [_ E4]. bool_prop. intros [= <-]. split; [done|]. split; [done|lia].
Qed.

(** Textures keep bounded dimensions and an allowed address; a pixel upload is
    accepted exactly at the size of the texture, and a forwarded position is in it. *)
Lemma textures_bounded schemes (hist : list op) :
  Forall (fun o => match o with Create _ _ w h => 0 <= w /\ 0 <= h | _ => True end) hist ->
  let r := run step (with_url_policy schemes) hist in
  url_policy r = schemes /\ forall i t, textures r !! i = Some t ->
    texture_ok t /\ (forall u, url t = Some u -> exists sc, check_url schemes u = Ok sc) /\
    (forall px, check_pixels r i px = Ok (tlen px) <-> tlen px = width t * height t * 4) /\
    (forall x y b d, exists m, forward_mouse r i x y b d = Ok m /\ 0 <= fx m < width t /\ 0 <= fy m < height t).
Proof.
  intros Hall. cbn zeta.
  assert (Hinv : url_policy (run step (with_url_policy schemes) hist) = schemes /\ forall i t, textures (run step (with_url_policy schemes) hist) !! i = Some t ->
    texture_ok t /\ (forall u, url t = Some u -> exists sc, check_url schemes u = Ok sc)).
  { apply (run_invariant_ops step (fun o => match o with Create _ _ w h => 0 <= w /\ 0 <= h | _ => True end)
      (fun r => url_policy r = schemes /\ forall i t, textures r !! i = Some t -> texture_ok t /\ (forall u, url t = Some u -> exists sc, check_url schemes u = Ok sc)));
      [|done|by split].
    intros r o Ho [Hp Hr]. destruct o as [i res w h|i|i u]; cbn.
    - unfold create. destruct (valid_name i); cbn; [|done]. destruct (valid_name res); cbn; [|done]. destruct (_ || _) eqn:E; [done|]. case_bool_decide; [done|].
      bool_prop. split; [done|]. cbn. intros j t. rewrite lookup_insert_Some. intros [[<- <-]|[_ Hj]]; [|by apply (Hr j)].
      split; [|done]. unfold texture_ok. cbn. lia.
    - unfold destroy. case_bool_decide; [|done]. split; [done|]. cbn. intros j t [_ Hj]%lookup_delete_Some. by apply (Hr j).
    - unfold navigate. destruct (check_url (url_policy r) u) as [sc|] eqn:Eu; cbn; [|done]. destruct (textures r !! i) as [t0|] eqn:Et; cbn; [|done].
      split; [done|]. intros j t. rewrite lookup_insert_Some. intros [[<- <-]|[_ Hj]]; [|by apply (Hr j)].
      destruct (Hr i t0 Et) as [Hok _]. split; [done|]. cbn. intros u' [= <-]. rewrite <- Hp. by exists sc. }
  destruct Hinv as [Hp Hr]. split; [done|]. intros i t Hi. destruct (Hr i t Hi) as [[Hw Hh] Hu]. split; [done|]. split; [done|]. split.
  - intros px. unfold check_pixels, pixel_bytes. rewrite Hi. cbn. destruct (Z.eqb_spec (tlen px) (width t * height t * 4)) as [<-|]; cbn; split; congruence.
  - intros x y b d. unfold forward_mouse. rewrite Hi. cbn. eexists. split; [done|]. cbn. unfold sat_sub, MAX_DIMENSION in *.
    rewrite !swrap_small by lia. unfold clamp. repeat case_match; bool_prop; lia.
Qed.

(** A text without a scheme passes when it is itself the name of one. *)
Lemma bare_scheme_allowed : check_url default_schemes (codes "https") = Ok (codes "https").
Proof. reflexivity. Qed.
End Dui.

Module Input.
Definition CONSOLE_KEY : text := codes "F8".
Inductive press_type := JustPressed | Pressed | JustReleased.
#[global] Instance press_type_eq_dec : EqDecision press_type.
Proof. solve_decision. Defined.
#[global] Instance press_type_countable : Countable press_type.
Proof.
  refine {| encode p := match p with JustPressed => 1 | Pressed => 2 | JustReleased => 3 end%positive;
            decode n := match n with 1 => Some JustPressed | 2 => Some Pressed | _ => Some JustReleased end%positive |}.
  by intros [].
Defined.

(** Keyboard and mouse names of the catalog. *)
Definition KNOWN_KEYS : list text := codes <$>
  ["F1"; "F2"; "F3"; "F4"; "F5"; "F6"; "F7"; "F8"; "F9"; "F10"; "F11"; "F12"; "ESCAPE"; "TAB"; "CAPSLOCK"; "SHIFT"; "CTRL"; "ALT"; "SPACE"; "ENTER";
   "BACKSPACE"; "UP"; "DOWN"; "LEFT"; "RIGHT"; "INSERT"; "DELETE"; "HOME"; "END"; "PAGEUP"; "PAGEDOWN"; "A"; "B"; "C"; "D"; "E"; "F"; "G"; "H"; "I"; "J";
   "K"; "L"; "M"; "N"; "O"; "P"; "Q"; "R"; "S"; "T"; "U"; "V"; "W"; "X"; "Y"; "Z"; "0"; "1"; "2"; "3"; "4"; "5"; "6"; "7"; "8"; "9"; "NUMPAD0"; "NUMPAD1";
   "NUMPAD2"; "NUMPAD3"; "NUMPAD4"; "NUMPAD5"; "NUMPAD6"; "NUMPAD7"; "NUMPAD8"; "NUMPAD9"; "MOUSE_LEFT"; "MOUSE_RIGHT"; "MOUSE_MIDDLE"; "MOUSE_X1"; "MOUSE_X2"]%string.

Inductive input_error := UnknownKey (s : text) | ReservedKey (s : text) | NoSuchBinding.
Definition to_upper (l : text) : text := (fun c => if (97 <=? c) && (c <=? 122) then c - 32 else c) <$> l.
Definition parse_key (name : text) : result text input_error :=
  let upper := replace_char 32 [95] (to_upper (trim_text name)) in
  if bool_decide (upper = []) || (24 <? tlen upper) then Err (UnknownKey name)
  else if bool_decide (upper ∈ KNOWN_KEYS) then Ok upper else Err (UnknownKey name).
Definition is_console (key : text) : bool := bool_decide (key = CONSOLE_KEY).

Record binding := Binding { resource : text; action : text; key : text; press : press_type }.
(** The [BTreeMap] of the bindings is the list of its entries in the order of the ids. *)
Record input_mapper := Mapper { bindings : list (Z * binding); next_id : Z; allow_console_key : bool }.
Definition mapper_new : input_mapper := Mapper [] 0 false.
Definition set_allow_console_key (m : input_mapper) (allow : bool) : input_mapper := Mapper (bindings m) (next_id m) allow.
Fixpoint insert_id (i : Z) (b : binding) (l : list (Z * binding)) : list (Z * binding) :=
  match l with
  | [] => [(i, b)]
  | e :: r => if i <? e.1 then (i, b) :: l else if i =? e.1 then (i, b) :: r else e :: insert_id i b r
  end.
Definition bind (m : input_mapper) (resource action key : text) (press : press_type) : result (Z * input_mapper) input_error :=
  if is_console key && negb (allow_console_key m) then Err (ReservedKey key)
  else if bool_decide (resource = []) || (64 <? tlen resource) || bool_decide (action = []) || (64 <? tlen action)
  then Err (UnknownKey (resource ++ [58] ++ action))
  else
    let i := next_id m in
    Ok (i, Mapper (insert_id i (Binding resource action key press) (bindings m)) (wrap 64 (i + 1)) (allow_console_key m)).
Definition unbind (m : input_mapper) (i : Z) : result input_mapper input_error :=
  if existsb (fun e => e.1 =? i) (bindings m) then Ok (Mapper (List.filter (fun e => negb (e.1 =? i)) (bindings m)) (next_id m) (allow_console_key m))
  else Err NoSuchBinding.
Definition claims (k : text) (p : press_type) (e : Z * binding) : bool := bool_decide (key e.2 = k) && bool_decide (press e.2 = p).
Definition resolve_for (m : input_mapper) (k : text) (p : press_type) : list (Z * binding) := List.filter (claims k p) (bindings m).

Section conflicts.
(** The order in which a [HashMap] gives its entries. *)
Context (hash_order : list ((text * press_type) * list (Z * binding)) -> list ((text * press_type) * list (Z * binding))).
Definition by_key (m : input_mapper) : gmap (text * press_type) (list (Z * binding)) :=
  foldl (fun g e => <[(key e.2, press e.2) := default [] (g !! (key e.2, press e.2)) ++ [e]]> g) ∅ (bindings m).
Definition conflicts (m : input_mapper) : list (text * list (Z * binding)) :=
  let out := (fun g => (g.1.1, g.2)) <$> List.filter (fun g => (1 <? length g.2)%nat) (hash_order (map_to_list (by_key m))) in
  merge_sort (fun a b => Is_true (text_leb a.1 b.1)) out.
End conflicts.
Definition binding_count (m : input_mapper) : nat := length (bindings m).

(** *** Properties *)
Lemma by_key_lookup m k p : by_key m !! (k, p) = match resolve_for m k p with [] => None | l => Some l end.
Proof.
  unfold by_key, resolve_for. induction (bindings m) as [|e l IH] using rev_ind; [done|]. rewrite foldl_app, List.filter_app. cbn [foldl List.filter].
  set (g := foldl _ ∅ l) in *. destruct (claims k p e) eqn:Ec.
  - unfold claims in Ec. bool_prop. subst. rewrite lookup_insert_eq, IH. by destruct (List.filter _ l).
  - rewrite lookup_insert_ne, app_nil_r; [done|]. intros [= <- <-]. unfold claims in Ec. by rewrite !bool_decide_eq_true_2 in Ec.
Qed.

(** Whatever the order of the map, a conflict is reported for exactly the keys with
    several claimants, with all of them in the order of registration, and the report
    is sorted by the name of the key. *)
Lemma conflicts_exact hash_order m :
  (forall l, hash_order l ≡ₚ l) ->
  StronglySorted (fun a b => Is_true (text_leb a.1 b.1)) (conflicts hash_order m) /\
  forall k l, (k, l) ∈ conflicts hash_order m <-> exists p, l = resolve_for m k p /\ (2 <= length l)%nat.
Proof.
  intros Ho. split.
  { unfold conflicts. apply (StronglySorted_merge_sort (fun a b => Is_true (text_leb (fst a) (fst b)))). }
  intros k l. unfold conflicts. rewrite merge_sort_Permutation, list_elem_of_fmap. split.
  - intros ([[k' p] l'] & [= -> ->] & [Hin Hl]%elem_of_filterb). rewrite Ho in Hin. apply elem_of_map_to_list in Hin. rewrite by_key_lookup in Hin.
    apply Nat.ltb_lt in Hl. cbn in Hl. exists p. destruct (resolve_for m k' p); [done|]. injection Hin as <-. done.
  - intros (p & -> & Hl). exists ((k, p), resolve_for m k p). split; [done|]. apply elem_of_filterb. split; [|apply Nat.ltb_lt; cbn; lia].
    rewrite Ho. apply elem_of_map_to_list. rewrite by_key_lookup. destruct (resolve_for m k p); [cbn in Hl; lia|done].
Qed.

(** The console key is bound only when that was allowed. *)
Lemma console_reserved m res act p : allow_console_key m = false -> bind m res act CONSOLE_KEY p = Err (ReservedKey CONSOLE_KEY).
Proof. intros H. unfold bind, is_console. by rewrite bool_decide_eq_true_2, H. Qed.
Lemma parse_key_known name k : parse_key name = Ok k -> k ∈ KNOWN_KEYS.
Proof. unfold parse_key. destruct (_ || _); [done|]. case_bool_decide; [|done]. by intros [= <-]. Qed.
End Input.

Module Voice.
Section tiers.
Context {F : Type} `{Float32 F}.
Definition RADIUS_CLEAR : F := of_int 16.
Definition RADIUS_AUDIBLE : F := of_int 48.
Definition RADIUS_FAINT : F := of_int 96.
Inductive proximity := Clear | Audible | Faint | OutOfRange.
Definition proximity_tier (d : F) : proximity :=
  if fle d RADIUS_CLEAR then Clear else if fle d RADIUS_AUDIBLE then Audible else if fle d RADIUS_FAINT then Faint else OutOfRange.
End tiers.

Inductive channel_kind := Proximity | Radio (frequency : text) | Direct.
Record voice_channel := Channel { id : text; kind : channel_kind; max_members : Z; members_of : gset Z }.
Inductive voice_error := UnknownChannel (s : text) | BadId (s : text) | BadFrequency (s : text) | ChannelFull (s : text) (max : Z) | MetadataTooLarge (n : Z).
Definition MAX_METADATA_LEN : Z := 4096.
Record voice_envelope := Envelope { speaker : Z; channel : text; seq : Z; talking : bool; priority : bool; metadata : text }.
Definition envelope_new (speaker : Z) (channel : text) (seq : Z) (talking priority : bool) (metadata : text) : result voice_envelope voice_error :=
  if MAX_METADATA_LEN <? tlen metadata then Err (MetadataTooLarge (tlen metadata))
  else Ok (Envelope speaker channel seq talking priority metadata).

Record voice_router := Router { channels : gmap text voice_channel; muted : gset Z; deafened : gset Z }.
Definition router_new : voice_router := Router ∅ ∅ ∅.
Definition valid_id (i : text) : result unit voice_error :=
  if bool_decide (i = []) || (64 <? tlen i) || negb (forallb (fun c => token_byte c || (c =? 58)) i) then Err (BadId i) else Ok tt.
Definition create (r : voice_router) (i : text) (k : channel_kind) (max : Z) : result voice_router voice_error :=
  let? _ := valid_id i in
  let? _ := (match k with
    | Radio f => if bool_decide (f = []) || (32 <? tlen f) || negb (forallb (fun c => alphanumeric c || (c =? 45) || (c =? 46)) f)
                 then Err (BadFrequency f) else Ok tt
    | _ => Ok tt end) in
  if bool_decide (is_Some (channels r !! i)) then Err (BadId (codes "duplicate channel " ++ i))
  else Ok (Router (<[i := Channel i k (Z.max max 1) ∅]> (channels r)) (muted r) (deafened r)).
Definition drop_channel (r : voice_router) (i : text) : bool * voice_router :=
  (bool_decide (is_Some (channels r !! i)), Router (delete i (channels r)) (muted r) (deafened r)).
Definition set_members (r : voice_router) (c : voice_channel) (i : text) (ms : gset Z) : voice_router :=
  Router (<[i := Channel (id c) (kind c) (max_members c) ms]> (channels r)) (muted r) (deafened r).
Definition join (r : voice_router) (i : text) (player : Z) : result voice_router voice_error :=
  let? c := ok_or (channels r !! i) (UnknownChannel i) in
  if (max_members c <=? Z.of_nat (size (members_of c))) && negb (bool_decide (player ∈ members_of c)) then Err (ChannelFull i (max_members c))
  else Ok (set_members r c i ({[player]} ∪ members_of c)).
Definition leave (r : voice_router) (i : text) (player : Z) : result voice_router voice_error :=
  let? c := ok_or (channels r !! i) (UnknownChannel i) in Ok (set_members r c i (members_of c ∖ {[player]})).
Definition members (r : voice_router) (i : text) : option (list Z) := (fun c => sort_by (fun p => p) (elements (members_of c))) <$> channels r !! i.
Definition mute (r : voice_router) (player : Z) (m : bool) : voice_router :=
  Router (channels r) (if m then {[player]} ∪ muted r else muted r ∖ {[player]}) (deafened r).
Definition deafen (r : voice_router) (player : Z) (d : bool) : voice_router :=
  Router (channels r) (muted r) (if d then {[player]} ∪ deafened r else deafened r ∖ {[player]}).
Definition may_transmit (r : voice_router) (e : voice_envelope) : bool := talking e && negb (bool_decide (speaker e ∈ muted r)).
Definition recipients (r : voice_router) (e : voice_envelope) : list Z :=
  match channels r !! channel e with
  | None => []
  | Some c => sort_by (fun p => p) (List.filter (fun p => negb (p =? speaker e) && negb (bool_decide (p ∈ deafened r))) (elements (members_of c)))
  end.

(** *** Properties *)
Inductive op := Create (i : text) (k : channel_kind) (max : Z) | Drop (i : text) | Join (i : text) (p : Z) | Leave (i : text) (p : Z)
  | Mute (p : Z) (b : bool) | Deafen (p : Z) (b : bool).
Definition ok_or_same {A E} (old : A) (r : result A E) : A := match r with Ok a => a | Err _ => old end.
Definition step (r : voice_router) (o : op) : voice_router :=
  match o with
  | Create i k n => ok_or_same r (create r i k n) | Drop i => (drop_channel r i).2
  | Join i p => ok_or_same r (join r i p) | Leave i p => ok_or_same r (leave r i p)
  | Mute p b => mute r p b | Deafen p b => deafen r p b
  end.

(** No channel has more members than it allows. *)
Definition bounded (r : voice_router) : Prop := forall i c, channels r !! i = Some c -> Z.of_nat (size (members_of c)) <= max_members c /\ 1 <= max_members c.
Lemma bounded_run hist : bounded (run step router_new hist).
Proof.
  apply run_invariant; [|by intros i c].
  intros r o Hr. destruct o as [i k n|i|i p|i p|p b|p b]; cbn; try done.
  - unfold create. destruct (valid_id i); cbn; [|done]. destruct (match k with Radio _ => _ | _ => _ end); cbn; [|done].
    case_bool_decide; cbn; [done|]. intros j c; cbn; intros [[<- <-]|[_ Hj]]%lookup_insert_Some; [|by apply (Hr j)]. cbn. rewrite size_empty. lia.
  - intros j c; cbn; intros [_ Hj]%lookup_delete_Some. by apply (Hr j).
  - unfold join. destruct (channels r !! i) as [c|] eqn:Ec; cbn; [|done]. destruct (_ && _) eqn:Ef; cbn; [done|]. destruct (Hr i c Ec) as [Hs Hm].
    intros j c'; cbn; intros [[<- <-]|[_ Hj]]%lookup_insert_Some; [|by apply (Hr j)]. cbn. split; [|done]. apply andb_false_iff in Ef as [Ef|Ef]; bool_prop.
    + rewrite size_union_alt. pose proof (subseteq_size ({[p]} ∖ ∅ ∖ members_of c) {[p]}). assert (size (members_of c ∖ {[p]}) <= size (members_of c))%nat by (apply subseteq_size; set_solver).
      rewrite size_singleton in *. lia.
    + replace ({[p]} ∪ members_of c) with (members_of c) by set_solver. lia.
  - unfold leave. destruct (channels r !! i) as [c|] eqn:Ec; cbn; [|done]. destruct (Hr i c Ec) as [Hs Hm].
    intros j c'; cbn; intros [[<- <-]|[_ Hj]]%lookup_insert_Some; [|by apply (Hr j)]. cbn. split; [|done].
    assert (size (members_of c ∖ {[p]}) <= size (members_of c))%nat by (apply subseteq_size; set_solver). lia.
Qed.

(** An envelope reaches exactly the members of its channel other than the speaker
    that are not deafened, each once; a muted speaker may not transmit. *)
Lemma voice_recipients r e p :
  NoDup (recipients r e) /\
  (p ∈ recipients r e <-> p <> speaker e /\ p ∉ deafened r /\ exists c, channels r !! channel e = Some c /\ p ∈ members_of c) /\
  (may_transmit r e = true <-> talking e = true /\ speaker e ∉ muted r).
Proof.
  unfold recipients, may_transmit. split; [|split].
  - destruct (channels r !! channel e) as [c|]; [|constructor]. rewrite sort_by_perm. eapply sublist_NoDup; [|apply filterb_sublist]; apply NoDup_elements.
  - destruct (channels r !! channel e) as [c|]; [|split; [by intros ?%elem_of_nil|by intros (_ & _ & c & ? & _)]].
    rewrite sort_by_perm, elem_of_filterb, elem_of_elements, andb_true_iff, !negb_true_iff, Z.eqb_neq, bool_decide_eq_false. naive_solver.
  - by rewrite andb_true_iff, negb_true_iff, bool_decide_eq_false.
Qed.

Lemma join_full r i p c : channels r !! i = Some c -> p ∉ members_of c -> Z.of_nat (size (members_of c)) = max_members c -> join r i p = Err (ChannelFull i (max_members c)).
Proof. intros Hc Hp Hs. unfold join. rewrite Hc. cbn. rewrite (proj2 (Z.leb_le _ _)) by lia. by rewrite bool_decide_eq_false_2. Qed.
End Voice.
