(* ===== verification/Aegis.v ===== *)
(** Aegis accounts (aegis/backend/src): the audit log (module [Audit],
    audit.rs), password hashes ([Passwords], passwords.rs), one-time codes
    ([Totp], totp.rs), sessions ([Sessions], sessions.rs) and the login pipeline
    that joins them ([Auth], auth.rs). HMAC and the random source are
    parameters; times are Unix seconds in a u64. *)
From S2P Require Import Prelude RustStr Bytes.

Module Audit.
Inductive audit_action :=
  | Authentication | FailedLogin | Logout | Kick | Ban | PermissionChange | ResourceRestart | ServerRestart | ConfigChange
  | Deployment | ConsoleCommand | EntitlementChange.
#[global] Instance audit_action_eq_dec : EqDecision audit_action.
Proof. solve_decision. Defined.
Definition as_str (a : audit_action) : text :=
  codes match a with
  | Authentication => "authentication" | FailedLogin => "failed_login" | Logout => "logout" | Kick => "kick" | Ban => "ban"
  | PermissionChange => "permission_change" | ResourceRestart => "resource_restart" | ServerRestart => "server_restart"
  | ConfigChange => "config_change" | Deployment => "deployment" | ConsoleCommand => "console_command"
  | EntitlementChange => "entitlement_change"
  end.

Record audit_entry := Entry {
  actor : text; action : audit_action; target : option text; timestamp : Z; success : bool; detail : text;
  source_ip : option text }.
Record audit_log := Log { entries : list audit_entry; capacity : nat }.
Definition audit_new (capacity : nat) : audit_log := Log [] (Nat.max capacity 1).
Definition record (l : audit_log) (e : audit_entry) : audit_log :=
  Log ((if (capacity l <=? length (entries l))%nat then tail (entries l) else entries l) ++ [e]) (capacity l).
Definition newest_first (l : audit_log) : list audit_entry := rev (entries l).
Definition by_action (l : audit_log) (a : audit_action) : list audit_entry :=
  List.filter (fun e => bool_decide (action e = a)) (entries l).
Definition by_actor (l : audit_log) (who : text) : list audit_entry :=
  List.filter (fun e => bool_decide (actor e = who)) (entries l).
Definition recent_failures (l : audit_log) (who : text) (a : audit_action) (since : Z) : nat :=
  length (List.filter (fun e => bool_decide (actor e = who) && bool_decide (action e = a) && negb (success e) && (since <=? timestamp e))
            (entries l)).

(** *** The log is the end of everything recorded *)
Definition last_n {A} (n : nat) (l : list A) : list A := drop (length l - n) l.

Lemma tail_drop {A} n (l : list A) : tail (drop n l) = drop (S n) l.
Proof. revert l. induction n as [|n IH]; intros [|x l]; try done. apply IH. Qed.

Lemma last_n_push {A} n (l : list A) x : (0 < n)%nat ->
  (if (n <=? length (last_n n l))%nat then tail (last_n n l) else last_n n l) ++ [x] = last_n n (l ++ [x]).
Proof.
  intros Hn. unfold last_n. rewrite length_drop, length_app. cbn [length].
  destruct (Nat.leb_spec n (length l - (length l - n))).
  - rewrite tail_drop. replace (length l + 1 - n)%nat with (S (length l - n)) by lia.
    rewrite drop_app_le by lia. done.
  - rewrite drop_app_le by lia. do 2 f_equal. lia.
Qed.

Lemma audit_kept cap es :
  run record (audit_new cap) es = Log (last_n (Nat.max cap 1) es) (Nat.max cap 1).
Proof.
  induction es as [|e es IH] using rev_ind; [done|].
  rewrite run_app, IH. cbn. unfold record. cbn [entries capacity]. by rewrite last_n_push by lia.
Qed.
End Audit.

Module Passwords.
Definition ITERATIONS : Z := 210000.
Definition SALT_LEN : nat := 24.
Definition HASH_LEN : nat := 32.
Inductive password_error := Malformed | UnsupportedAlgorithm (name : text) | Mismatch | InvalidEncoding.

Definition constant_time_eq (a b : list Z) : bool :=
  if negb (length a =? length b)%nat then false
  else foldl (fun diff p => Z.lor diff (Z.lxor p.1 p.2)) 0 (zip a b) =? 0.

(** HMAC-SHA256 of a message under a key. *)
Class Hmac256 := hmac256 : list Z -> list Z -> list Z.
Class Hmac256Laws (H : Hmac256) := {
  hmac256_length : forall k m, length (hmac256 k m) = HASH_LEN;
  hmac256_bytes : forall k m, byte_list (hmac256 k m) }.

Section hashing.
Context `{H : Hmac256}.

Definition pbkdf2_round (password : list Z) (s : list Z * list Z) : list Z * list Z :=
  let t := hmac256 password s.2 in (zip_with Z.lxor s.1 t, t).
Definition pbkdf2 (password salt : list Z) (iterations : Z) : list Z :=
  let t := hmac256 password (salt ++ be_bytes 4 1) in
  (Nat.iter (Z.to_nat (iterations - 1)) (pbkdf2_round password) (t, t)).1.

(** The salt is drawn by the caller's random source. *)
Definition hash_password (password : text) (salt : list Z) : result text password_error :=
  Ok (codes "pbkdf2$" ++ decimal ITERATIONS ++ codes "$" ++ hex salt ++ codes "$" ++ hex (pbkdf2 password salt ITERATIONS)).

Definition verify_password (password stored : text) : result unit password_error :=
  match split_on 36 stored with
  | [algorithm; iterations; salt; expected] =>
      if negb (verb_is algorithm "pbkdf2") then Err (UnsupportedAlgorithm algorithm)
      else
        let? iterations := ok_or (parse_u32 iterations) Malformed in
        let? salt := ok_or (hex_decode salt) InvalidEncoding in
        let? expected := ok_or (hex_decode expected) InvalidEncoding in
        if constant_time_eq (pbkdf2 password salt iterations) expected then Ok tt else Err Mismatch
  | _ => Err Malformed
  end.

(** *** A hash verifies its own password, and only passwords with its key *)
Lemma constant_time_eq_spec a b : constant_time_eq a b = bool_decide (a = b).
Proof.
  unfold constant_time_eq. destruct (Nat.eqb_spec (length a) (length b)) as [Hl|Hl]; cbn [negb];
    [|rewrite bool_decide_eq_false_2; [done|by intros ->]].
  cut (forall d, (foldl (fun diff p => Z.lor diff (Z.lxor p.1 p.2)) d (zip a b) =? 0) = (d =? 0) && bool_decide (a = b)); [by intros ->|].
  revert b Hl. induction a as [|x a IH]; intros [|y b] Hl d; try done; cbn; [by rewrite andb_true_r|]. injection Hl as Hl.
  rewrite (IH b Hl). apply eq_bool_prop_intro. rewrite !andb_True, !Is_true_true, !bool_decide_eq_true, !Z.eqb_eq, Z.lor_eq_0_iff, Z.lxor_eq_0_iff.
  naive_solver.
Qed.

Lemma dollar_free l : byte_list l -> 36 ∉ hex l.
Proof.
  intros Hl Hin. unfold hex in Hin. apply list_elem_of_In, in_concat in Hin as (p & Hp & Hin).
  apply list_elem_of_In in Hp, Hin. apply list_elem_of_fmap in Hp as (b & -> & Hb).
  rewrite !elem_of_cons, elem_of_nil in Hin. unfold hex_digit in Hin.
  destruct (Z.ltb_spec (b / 16) 10), (Z.ltb_spec (b mod 16) 10); rewrite Forall_forall in Hl; specialize (Hl b Hb); apply (proj1 (fits8_iff _)) in Hl.
  all: pose proof (Z.div_pos b 16 ltac:(lia) ltac:(lia)); pose proof (Z.mod_pos_bound b 16 ltac:(lia)); lia.
Qed.

Lemma zip_lxor_bytes u v : byte_list u -> byte_list v -> byte_list (zip_with Z.lxor u v).
Proof.
  intros Hu. revert v. induction Hu as [|x u Hx Hu IH]; intros v Hv; [constructor|].
  destruct Hv as [|y v Hy Hv]; constructor; [by apply lxor_fits|by apply IH].
Qed.

Context {laws : Hmac256Laws H}.

Lemma pbkdf2_bytes p salt n : byte_list (pbkdf2 p salt n).
Proof.
  unfold pbkdf2. induction (Z.to_nat (n - 1)) as [|k IH]; [apply hmac256_bytes|].
  apply zip_lxor_bytes; [exact IH|apply hmac256_bytes].
Qed.

#[local] Opaque pbkdf2.

Lemma parse_stored salt : byte_list salt -> forall password,
  split_on 36 (codes "pbkdf2$" ++ decimal ITERATIONS ++ codes "$" ++ hex salt ++ codes "$" ++ hex (pbkdf2 password salt ITERATIONS))
  = [codes "pbkdf2"; decimal ITERATIONS; hex salt; hex (pbkdf2 password salt ITERATIONS)].
Proof.
  intros Hs p. change (codes "pbkdf2$") with (codes "pbkdf2" ++ [36]). rewrite <- app_assoc. change (codes "$") with [36]. cbn [app].
  assert (Hd : 36 ∉ decimal ITERATIONS) by by_decide.
  assert (Hn : 36 ∉ codes "pbkdf2") by by_decide.
  rewrite !split_on_app by (done || by apply dollar_free). do 3 f_equal.
  pose proof (dollar_free _ (pbkdf2_bytes p salt ITERATIONS)) as Hf. revert Hf. generalize (hex (pbkdf2 p salt ITERATIONS)). intros l Hf.
  induction l as [|c l IH]; [done|]. apply not_elem_of_cons in Hf as [Hc Hf]. cbn. rewrite (proj2 (Z.eqb_neq c 36)) by done.
  by rewrite (IH Hf).
Qed.

(** A stored hash verifies a password exactly when the password derives the
    same key as the one that was hashed, its own password always; a wrong one
    is a mismatch, never another error. *)
Theorem password_verified (p q salt stored : list Z) :
  byte_list salt -> hash_password p salt = Ok stored ->
  verify_password p stored = Ok tt /\
  (verify_password q stored = Ok tt <-> pbkdf2 q salt ITERATIONS = pbkdf2 p salt ITERATIONS) /\
  (verify_password q stored <> Ok tt -> verify_password q stored = Err Mismatch).
Proof.
  intros Hs [= <-].
  assert (Hv : forall q, verify_password q (codes "pbkdf2$" ++ decimal ITERATIONS ++ codes "$" ++ hex salt ++ codes "$" ++ hex (pbkdf2 p salt ITERATIONS))
    = if bool_decide (pbkdf2 q salt ITERATIONS = pbkdf2 p salt ITERATIONS) then Ok tt else Err Mismatch).
  { intros r. unfold verify_password. rewrite (parse_stored salt Hs).
    change (verb_is (codes "pbkdf2") "pbkdf2") with true. change (parse_u32 (decimal ITERATIONS)) with (Some ITERATIONS).
    rewrite (hex_decode_hex salt Hs), (hex_decode_hex _ (pbkdf2_bytes p salt ITERATIONS)). cbn [negb ok_or rbind].
    by rewrite constant_time_eq_spec. }
  rewrite !Hv, bool_decide_eq_true_2 by reflexivity. case_bool_decide as Hq; (split; [reflexivity|]); split.
  - split; intros _; [exact Hq|reflexivity].
  - intros Hc. destruct Hc. reflexivity.
  - split; [discriminate|]. intros He. destruct (Hq He).
  - intros _. reflexivity.
Qed.
End hashing.
End Passwords.

Module Totp.
Definition STEP : Z := 30.
Definition SKEW_WINDOWS : Z := 1.
Inductive totp_error := InvalidSecret | InvalidCode.

(** *** RFC 4648 base32 *)
Definition ALPHABET : text := codes "ABCDEFGHIJKLMNOPQRSTUVWXYZ234567".
Definition letter (v : Z) : Z := default 0 (ALPHABET !! Z.to_nat (Z.land v 31)).
(** The [while bits >= 5] loop. *)
Fixpoint emit (fuel : nat) (buffer bits : Z) (out : text) : Z * text :=
  match fuel with
  | O => (bits, out)
  | S fuel => if 5 <=? bits then emit fuel buffer (bits - 5) (out ++ [letter (Z.shiftr buffer (bits - 5))]) else (bits, out)
  end.
Definition encode_byte (s : Z * Z * text) (b : Z) : Z * Z * text :=
  let '(buffer, bits, out) := s in
  let buffer := Z.lor (wrap 32 (Z.shiftl buffer 8)) b in
  let bits := bits + 8 in
  let '(bits, out) := emit (Z.to_nat bits) buffer bits out in
  (buffer, bits, out).
Definition base32_encode (bytes : list Z) : text :=
  let '(buffer, bits, out) := foldl encode_byte (0, 0, []) bytes in
  if 0 <? bits then out ++ [letter (wrap 32 (Z.shiftl buffer (5 - bits)))] else out.

Definition to_upper (c : Z) : Z := if (97 <=? c) && (c <=? 122) then c - 32 else c.
Definition decode_value (s : Z * Z * list Z) (v : Z) : Z * Z * list Z :=
  let '(buffer, bits, out) := s in
  let buffer := Z.lor (wrap 32 (Z.shiftl buffer 5)) v in
  let bits := bits + 5 in
  if 8 <=? bits then (buffer, bits - 8, out ++ [wrap 8 (Z.shiftr buffer (bits - 8))]) else (buffer, bits, out).
(** One turn per character: white space and [=] are skipped, anything outside
    the alphabet fails. A character is at least one byte of the text. *)
Fixpoint decode_loop (fuel : nat) (s : Z * Z * list Z) (l : text) : option (list Z) :=
  match fuel, l with
  | _, [] => Some s.2
  | O, _ => None
  | S fuel, c :: r =>
      match ws_head l with
      | Some l => decode_loop fuel s l
      | None =>
          if c =? 61 then decode_loop fuel s r
          else
            match position (fun a => a =? to_upper c) ALPHABET with
            | Some v => decode_loop fuel (decode_value s (Z.of_nat v)) r
            | None => None
            end
      end
  end.
Definition base32_decode (s : text) : option (list Z) := decode_loop (length s) (0, 0, []) s.

(** *** Base32 reads back what it wrote

    The bits of a word, most significant first; each coder keeps the bits it
    has not written yet at the low end of its buffer. *)
Definition lowbits (n : nat) (v : Z) : list bool := (fun i => Z.testbit v (Z.of_nat i)) <$> rev (seq 0 n).

Lemma lowbits_ext n u v : (forall i, (i < n)%nat -> Z.testbit u (Z.of_nat i) = Z.testbit v (Z.of_nat i)) -> lowbits n u = lowbits n v.
Proof. intros Hb. apply list_fmap_ext. intros k i Hi. apply Hb. apply list_elem_of_lookup_2, list_elem_of_In, in_rev, in_seq in Hi. lia. Qed.

Lemma length_lowbits n v : length (lowbits n v) = n.
Proof. unfold lowbits. by rewrite length_fmap, length_rev, length_seq. Qed.

Lemma lowbits_app n m v : lowbits (n + m) v = lowbits n (Z.shiftr v (Z.of_nat m)) ++ lowbits m v.
Proof.
  unfold lowbits. rewrite (Nat.add_comm n m), seq_app, rev_app_distr, fmap_app. f_equal.
  assert (Hs : rev (seq (0 + m) n) = Nat.add m <$> rev (seq 0 n)).
  { replace (0 + m)%nat with (m + 0)%nat by lia. rewrite <- fmap_add_seq. symmetry. apply (map_rev (Nat.add m)). }
  rewrite Hs, <- list_fmap_compose. apply list_fmap_ext. intros k i _. cbn.
  rewrite Z.shiftr_spec by lia. f_equal. lia.
Qed.

Lemma lowbits_push n m v x : (n + m <= 32)%nat -> fits (Z.of_nat m) x ->
  lowbits (n + m) (Z.lor (wrap 32 (Z.shiftl v (Z.of_nat m))) x) = lowbits n v ++ lowbits m x.
Proof.
  intros Hn Hx. rewrite lowbits_app. f_equal; apply lowbits_ext; intros i Hi.
  - rewrite Z.shiftr_spec, Z.lor_spec by lia. unfold wrap. rewrite Z.mod_pow2_bits_low by lia.
    rewrite Z.shiftl_spec by lia. replace (Z.of_nat i + Z.of_nat m - Z.of_nat m) with (Z.of_nat i) by lia.
    rewrite (proj1 (Z.bounded_iff_bits_nonneg' (Z.of_nat m) x ltac:(lia) ltac:(apply Hx)) Hx) by lia. apply orb_false_r.
  - rewrite Z.lor_spec. unfold wrap. rewrite Z.mod_pow2_bits_low, Z.shiftl_spec_low by lia. done.
Qed.

Lemma lowbits_mask n v : lowbits n (Z.land v (Z.ones (Z.of_nat n))) = lowbits n v.
Proof. apply lowbits_ext. intros i Hi. rewrite Z.land_spec, Z.ones_spec_low by lia. apply andb_true_r. Qed.

Lemma lowbits_inj n u v : fits (Z.of_nat n) u -> fits (Z.of_nat n) v -> lowbits n u = lowbits n v -> u = v.
Proof.
  revert u v. induction n as [|n IH]; intros u v Hu Hv Hb; [change (2 ^ Z.of_nat 0) with 1 in *; unfold fits in *; lia|].
  replace (S n) with (n + 1)%nat in Hb by lia. rewrite !lowbits_app in Hb. apply app_inj_1 in Hb as [Hh Hl]; [|by rewrite !length_lowbits].
  unfold fits in *. rewrite Nat2Z.inj_succ, Z.pow_succ_r in Hu, Hv by lia.
  rewrite !Z.shiftr_div_pow2 in Hh by lia. change (2 ^ Z.of_nat 1) with 2 in Hh.
  apply IH in Hh; [|split; [apply Z.div_pos; lia|apply Z.div_lt_upper_bound; lia]..].
  injection Hl as Hl.
  rewrite (Z.div_mod u 2), (Z.div_mod v 2), Hh, !Zmod_odd, Hl by lia. done.
Qed.

Lemma emit_spec fuel buffer bits out : 0 <= bits -> (Z.to_nat bits <= fuel)%nat ->
  exists vals bits', emit fuel buffer bits out = (bits', out ++ (letter <$> vals)) /\ 0 <= bits' < 5 /\ Forall (fits 5) vals /\
    concat (lowbits 5 <$> vals) ++ lowbits (Z.to_nat bits') buffer = lowbits (Z.to_nat bits) buffer.
Proof.
  revert bits out. induction fuel as [|fuel IH]; intros bits out Hb Hf; cbn [emit];
    [exists [], bits; rewrite app_nil_r; split_and!; (done || lia || constructor)|].
  destruct (Z.leb_spec 5 bits); [|exists [], bits; rewrite app_nil_r; split_and!; (done || lia || constructor)].
  destruct (IH (bits - 5) (out ++ [letter (Z.shiftr buffer (bits - 5))]) ltac:(lia) ltac:(lia)) as (vals & bits' & -> & Hb' & Hv & Hc).
  exists (Z.land (Z.shiftr buffer (bits - 5)) 31 :: vals), bits'. rewrite <- app_assoc. split_and!; [|lia|lia| |].
  - unfold letter at 2. do 2 f_equal. cbn. f_equal. unfold letter. by rewrite <- Z.land_assoc.
  - constructor; [|done]. change 31 with (Z.ones 5). rewrite Z.land_ones by lia. apply Z.mod_pos_bound. lia.
  - cbn [fmap list_fmap concat]. rewrite <- app_assoc, Hc. change 31 with (Z.ones (Z.of_nat 5)). rewrite lowbits_mask.
    replace (Z.to_nat bits) with (5 + Z.to_nat (bits - 5))%nat by lia. rewrite lowbits_app. by rewrite Z2Nat.id by lia.
Qed.

Lemma encode_inv bytes : byte_list bytes ->
  exists vals buffer bits, foldl encode_byte (0, 0, []) bytes = (buffer, bits, letter <$> vals) /\ 0 <= bits < 5 /\ Forall (fits 5) vals /\
    concat (lowbits 5 <$> vals) ++ lowbits (Z.to_nat bits) buffer = concat (lowbits 8 <$> bytes).
Proof.
  induction bytes as [|b bytes IH] using rev_ind; intros Hb; [exists [], 0, 0; split_and!; (done || lia || constructor)|].
  apply Forall_app in Hb as [Hbs Hb%Forall_inv]. destruct (IH Hbs) as (vals & buffer & bits & E & Hr & Hv & Hc).
  rewrite foldl_app, E. cbn [foldl]. unfold encode_byte.
  destruct (emit_spec (Z.to_nat (bits + 8)) (Z.lor (wrap 32 (Z.shiftl buffer 8)) b) (bits + 8) (letter <$> vals) ltac:(lia) ltac:(lia))
    as (more & bits' & -> & Hb' & Hm & Hc').
  exists (vals ++ more), (Z.lor (wrap 32 (Z.shiftl buffer 8)) b), bits'. rewrite fmap_app. split_and!; [done|lia|lia|by apply Forall_app|].
  rewrite !fmap_app, !concat_app, <- app_assoc, Hc', <- Hc, <- app_assoc. f_equal. cbn [fmap list_fmap concat]. rewrite app_nil_r.
  replace (Z.to_nat (bits + 8)) with (Z.to_nat bits + 8)%nat by lia. apply (lowbits_push _ 8); [lia|exact Hb].
Qed.

Lemma encoded_values bytes : byte_list bytes ->
  exists vals pad, base32_encode bytes = letter <$> vals /\ Forall (fits 5) vals /\ (length pad < 5)%nat /\
    concat (lowbits 5 <$> vals) = concat (lowbits 8 <$> bytes) ++ pad.
Proof.
  intros Hb. destruct (encode_inv bytes Hb) as (vals & buffer & bits & E & Hr & Hv & Hc). unfold base32_encode. rewrite E.
  destruct (Z.ltb_spec 0 bits) as [Hp|Hp].
  - set (w := wrap 32 (Z.shiftl buffer (5 - bits))). exists (vals ++ [Z.land w 31]), (lowbits (Z.to_nat (5 - bits)) 0).
    rewrite fmap_app. split_and!.
    + cbn. unfold letter at 2 4. by rewrite <- Z.land_assoc.
    + apply Forall_app. split; [done|]. constructor; [|constructor]. change 31 with (Z.ones 5). rewrite Z.land_ones by lia. apply Z.mod_pos_bound. lia.
    + rewrite length_lowbits. lia.
    + rewrite fmap_app, concat_app, <- Hc, <- app_assoc. f_equal. cbn [fmap list_fmap concat]. rewrite app_nil_r.
      change 31 with (Z.ones (Z.of_nat 5)). rewrite lowbits_mask. unfold w.
      pose proof (lowbits_push (Z.to_nat bits) (Z.to_nat (5 - bits)) buffer 0 ltac:(lia)) as Hq. rewrite Z.lor_0_r, Z2Nat.id in Hq by lia.
      replace (Z.to_nat bits + Z.to_nat (5 - bits))%nat with 5%nat in Hq by lia. apply Hq. unfold fits. split; [lia|]. apply Z.pow_pos_nonneg; lia.
  - exists vals, []. replace (Z.to_nat bits) with 0%nat in Hc by lia. rewrite app_nil_r in Hc |- *. split_and!; (done || cbn; lia).
Qed.

Lemma decode_inv vals : Forall (fits 5) vals ->
  exists buffer bits out, foldl decode_value (0, 0, []) vals = (buffer, bits, out) /\ 0 <= bits < 8 /\ byte_list out /\
    concat (lowbits 8 <$> out) ++ lowbits (Z.to_nat bits) buffer = concat (lowbits 5 <$> vals).
Proof.
  induction vals as [|v vals IH] using rev_ind; intros Hv; [exists 0, 0, []; split_and!; (done || lia || constructor)|].
  apply Forall_app in Hv as [Hvs Hv%Forall_inv]. destruct (IH Hvs) as (buffer & bits & out & E & Hr & Ho & Hc).
  rewrite foldl_app, E. cbn [foldl]. unfold decode_value. set (w := Z.lor (wrap 32 (Z.shiftl buffer 5)) v).
  assert (Hw : lowbits (Z.to_nat (bits + 5)) w = lowbits (Z.to_nat bits) buffer ++ lowbits 5 v).
  { replace (Z.to_nat (bits + 5)) with (Z.to_nat bits + 5)%nat by lia. apply (lowbits_push _ 5); [lia|exact Hv]. }
  rewrite fmap_app, concat_app, <- Hc, <- app_assoc. cbn [fmap list_fmap concat]. rewrite app_nil_r, <- Hw.
  destruct (Z.leb_spec 8 (bits + 5)).
  - exists w, (bits + 5 - 8), (out ++ [wrap 8 (Z.shiftr w (bits + 5 - 8))]). split_and!; [done|lia|lia| |].
    + apply Forall_app. split; [done|]. constructor; [|constructor]. by apply wrap_fits.
    + rewrite fmap_app, concat_app, <- app_assoc. f_equal. cbn [fmap list_fmap concat]. rewrite app_nil_r. unfold wrap.
      rewrite <- Z.land_ones by lia. change 8 with (Z.of_nat 8) at 2. rewrite lowbits_mask.
      replace (Z.to_nat (bits + 5)) with (8 + Z.to_nat (bits + 5 - 8))%nat by lia. rewrite lowbits_app. by rewrite Z2Nat.id by lia.
  - exists w, (bits + 5), out. split_and!; (done || lia).
Qed.

Lemma decode_letters fuel s vals : Forall (fits 5) vals -> (length vals <= fuel)%nat ->
  decode_loop fuel s (letter <$> vals) = Some (foldl decode_value s vals).2.
Proof.
  assert (Ha : Forall (fun v => forallb (fun w => match w with c :: _ => negb (c =? letter v) | [] => false end) white_space
    && negb (letter v =? 61) && bool_decide (position (fun a => a =? to_upper (letter v)) ALPHABET = Some (Z.to_nat v)) = true) (seqZ 0 32)) by by_decide.
  intros Hv. revert fuel s. induction Hv as [|v vals Hv Hvs IH]; intros fuel s Hf; [by destruct fuel|].
  destruct fuel as [|fuel]; [cbn in Hf; lia|]. rewrite Forall_forall in Ha. unfold fits in Hv. specialize (Ha v ltac:(apply elem_of_seqZ; lia)).
  apply andb_true_iff in Ha as [[Hw Heq]%andb_true_iff Hp]. apply bool_decide_eq_true in Hp. apply negb_true_iff in Heq.
  pose proof (strip_one_first _ _ (letter <$> vals) Hw) as Hn. fold ws_head in Hn.
  change (letter <$> v :: vals) with (letter v :: (letter <$> vals)). cbn [decode_loop].
  rewrite Hn, Heq, Hp, Z2Nat.id by lia. apply IH. cbn in Hf. lia.
Qed.

Lemma concat_bytes_inj l l' x y : byte_list l -> byte_list l' -> length l = length l' ->
  concat (lowbits 8 <$> l) ++ x = concat (lowbits 8 <$> l') ++ y -> l = l'.
Proof.
  intros Hl. revert l'. induction Hl as [|b l Hb Hl IH]; intros [|b' l'] Hl' Hn He; try done.
  apply Forall_cons in Hl' as [Hb' Hl']. cbn [fmap list_fmap concat] in He. rewrite <- !app_assoc in He.
  apply app_inj_1 in He as [Hh Ht]; [|by rewrite !length_lowbits]. apply (lowbits_inj 8) in Hh; [|done..]. subst. f_equal. apply IH; try done. by injection Hn.
Qed.

Lemma length_concat_bits n l : length (concat (lowbits n <$> l)) = (n * length l)%nat.
Proof. induction l as [|b l IH]; [cbn; lia|]. rewrite fmap_cons. cbn [concat length]. rewrite length_app, length_lowbits, IH. lia. Qed.

Lemma base32_roundtrip bytes : byte_list bytes -> base32_decode (base32_encode bytes) = Some bytes.
Proof.
  intros Hb. destruct (encoded_values bytes Hb) as (vals & pad & -> & Hv & Hp & Hc). unfold base32_decode.
  rewrite decode_letters by (done || by rewrite length_fmap). destruct (decode_inv vals Hv) as (buffer & bits & out & -> & Hr & Ho & Hd).
  cbn. f_equal. rewrite Hc in Hd. assert (Hn : length out = length bytes).
  { apply (f_equal length) in Hd. rewrite !length_app, !length_concat_bits, length_lowbits in Hd. lia. }
  by eapply concat_bytes_inj.
Qed.

(** *** Codes *)
Class Hmac1 := hmac1 : list Z -> list Z -> list Z.
Class Hmac1Laws (H : Hmac1) := {
  hmac1_length : forall k m, length (hmac1 k m) = 20%nat;
  hmac1_bytes : forall k m, byte_list (hmac1 k m) }.

Section codes_of_time.
Context `{H : Hmac1}.

Definition hotp (key : list Z) (counter : Z) : Z :=
  let hash := hmac1 key (be_bytes 8 counter) in
  let at_ i := default 0 (hash !! i) in
  let offset := Z.to_nat (Z.land (at_ (length hash - 1)%nat) 15) in
  let truncated :=
    Z.lor (Z.lor (Z.lor (Z.shiftl (Z.land (at_ offset) 127) 24) (Z.shiftl (at_ (offset + 1)%nat) 16))
             (Z.shiftl (at_ (offset + 2)%nat) 8)) (at_ (offset + 3)%nat) in
  truncated mod 1000000.

(** [{code:06}]. *)
Definition six_digits (n : Z) : text := replicate (6 - length (decimal n)) 48 ++ decimal n.
Definition totp_code (secret : text) (unix_time : Z) : result text totp_error :=
  let? key := ok_or (base32_decode secret) InvalidSecret in
  Ok (six_digits (hotp key (unix_time / STEP))).

(** The counters in the order of the two loops. *)
Definition counters (counter : Z) : list Z :=
  [0; 1] ≫= (fun offset => [0; 1] ≫= (fun sign => [if sign =? 0 then counter + offset else sat_sub counter offset])).
Fixpoint try_counters (secret : text) (submitted : Z) (cs : list Z) : result unit totp_error :=
  match cs with
  | [] => Err InvalidCode
  | c :: cs =>
      let? key := ok_or (base32_decode secret) InvalidSecret in
      if hotp key c =? submitted then Ok tt else try_counters secret submitted cs
  end.
Definition verify_totp (secret code : text) (unix_time : Z) : result unit totp_error :=
  let? submitted := ok_or (parse_u32 (trim_text code)) InvalidCode in
  try_counters secret submitted (counters (unix_time / STEP)).


Definition generate_totp_secret (random : list Z) : result text totp_error := Ok (base32_encode random).

(** *** A code is accepted in its own time step and the two beside it *)
Lemma six_digits_read n : 0 <= n < 1000000 -> parse_u32 (trim_text (six_digits n)) = Some n.
Proof.
  intros Hn. destruct (digits_shape 9 n [] ltac:(change (10 ^ Z.of_nat 10) with 10000000000; lia)) as (ds & Hne & Hd & Hall & Hv).
  unfold six_digits, decimal. rewrite Hd, app_nil_r. set (k := (6 - length ds)%nat). clearbody k.
  assert (Hz : digits_val (replicate k 48) = 0 /\ forallb is_digit (replicate k 48) = true).
  { induction k as [|k [IHv IHd]]; [done|]. split; [|done]. cbn. exact IHv. }
  assert (Hval : digits_val (replicate k 48 ++ ds) = n) by (rewrite digits_val_app, (proj1 Hz); exact Hv).
  assert (Hdig : forallb is_digit (replicate k 48 ++ ds) = true) by (rewrite forallb_app, (proj2 Hz); exact Hall).
  rewrite trimmed_id by by apply digits_trimmed. rewrite parse_u32_digits, Hval; try done; [by destruct k, ds|].
  rewrite Hval. change u32_max with 4294967295. lia.
Qed.

Lemma hotp_range key c : 0 <= hotp key c < 1000000.
Proof. apply Z.mod_pos_bound. lia. Qed.

Lemma try_counters_spec secret key v cs : base32_decode secret = Some key ->
  try_counters secret v cs = Ok tt <-> exists c, c ∈ cs /\ hotp key c = v.
Proof.
  intros Hk. induction cs as [|c cs IH]; cbn [try_counters]; [split; [done|intros (c & []%elem_of_nil & _)]|].
  rewrite Hk. cbn [ok_or rbind]. setoid_rewrite elem_of_cons. destruct (Z.eqb_spec (hotp key c) v); [naive_solver|].
  rewrite IH. naive_solver.
Qed.

Lemma elem_of_counters c k : 0 <= c -> k ∈ counters c <-> 0 <= k /\ Z.abs (k - c) <= 1.
Proof. intros Hc. unfold counters, sat_sub. cbn. rewrite !elem_of_cons, elem_of_nil. lia. Qed.

(** A secret decodes to the key it encodes; a code is accepted exactly when it
    reads as the one-time password of the current time step or of a step beside
    it, so the code of an instant is accepted throughout that window, however
    often it is presented; and a secret that does not decode accepts nothing. *)
Theorem totp_window (key : list Z) (secret code : text) (now : Z) :
  byte_list key -> 0 <= now ->
  base32_decode (base32_encode key) = Some key /\
  (base32_decode secret = Some key ->
   (verify_totp secret code now = Ok tt <->
    exists c, 0 <= c /\ Z.abs (c - now / STEP) <= 1 /\ parse_u32 (trim_text code) = Some (hotp key c)) /\
   (forall issued, 0 <= issued -> totp_code secret issued = Ok code -> Z.abs (issued / STEP - now / STEP) <= 1 ->
    verify_totp secret code now = Ok tt)) /\
  (base32_decode secret = None -> verify_totp secret code now <> Ok tt).
Proof.
  intros Hb Hn. split; [by apply base32_roundtrip|]. split.
  - intros Hk. assert (Hv : verify_totp secret code now = Ok tt <->
      exists c, 0 <= c /\ Z.abs (c - now / STEP) <= 1 /\ parse_u32 (trim_text code) = Some (hotp key c)).
    { unfold verify_totp. destruct (parse_u32 (trim_text code)) as [v|]; cbn [ok_or rbind]; [|naive_solver].
      rewrite (try_counters_spec _ _ _ _ Hk). setoid_rewrite elem_of_counters; [|apply Z.div_pos; [lia|done]]. naive_solver. }
    split; [exact Hv|]. intros issued Hi Hc Hw. apply Hv. exists (issued / STEP). unfold totp_code in Hc. rewrite Hk in Hc.
    injection Hc as <-. rewrite six_digits_read by apply hotp_range. split_and!; [by apply Z.div_pos|done|done].
  - intros Hk. unfold verify_totp. destruct (parse_u32 (trim_text code)); cbn [ok_or rbind]; [|done].
    change (counters (now / STEP)) with (now / STEP + 0 :: tail (counters (now / STEP))). cbn [try_counters]. by rewrite Hk.
Qed.
End codes_of_time.
End Totp.

Module Sessions.
Definition DEFAULT_ABSOLUTE_TTL : Z := 8 * 60 * 60.
Definition DEFAULT_IDLE_TTL : Z := 30 * 60.
Record session := Session {
  token : text; user_id : text; issued_at : Z; last_activity : Z; absolute_expires : Z; idle_expires : Z;
  fully_authenticated : bool }.
Definition is_live (s : session) (now : Z) : bool := (now <? absolute_expires s) && (now <? idle_expires s).

Record session_store := Store { by_token : gmap text session; absolute_ttl : Z; idle_ttl : Z }.
Definition with_ttls (absolute idle : Z) : session_store := Store ∅ absolute idle.
Definition store_new : session_store := with_ttls DEFAULT_ABSOLUTE_TTL DEFAULT_IDLE_TTL.
Definition put (st : session_store) (m : gmap text session) : session_store := Store m (absolute_ttl st) (idle_ttl st).

(** [token] is what [generate_token] drew. *)
Definition create (st : session_store) (token user_id : text) (now : Z) (full : bool) : session * session_store :=
  let s := Session token user_id now now (wrap 64 (now + absolute_ttl st)) (wrap 64 (now + idle_ttl st)) full in
  (s, put st (<[token := s]> (by_token st))).
Definition validate (st : session_store) (tok : text) (now : Z) : option session * session_store :=
  match by_token st !! tok with
  | None => (None, st)
  | Some s =>
      if is_live s now then
        let s := Session (token s) (user_id s) (issued_at s) now (absolute_expires s) (wrap 64 (now + idle_ttl st)) (fully_authenticated s) in
        (Some s, put st (<[tok := s]> (by_token st)))
      else (None, put st (delete tok (by_token st)))
  end.
Definition invalidate (st : session_store) (tok : text) : bool * session_store :=
  (bool_decide (is_Some (by_token st !! tok)), put st (delete tok (by_token st))).
Definition drop_where (st : session_store) (p : session -> bool) : nat * session_store :=
  (size (filter (fun kv => p kv.2 = true) (by_token st)), put st (filter (fun kv => p kv.2 = false) (by_token st))).
Definition invalidate_user (st : session_store) (user : text) : nat * session_store :=
  drop_where st (fun s => bool_decide (user_id s = user)).
Definition gc (st : session_store) (now : Z) : nat * session_store := drop_where st (fun s => negb (is_live s now)).
Definition len (st : session_store) : nat := size (by_token st).
End Sessions.

Module Auth.
Import Audit Passwords Totp Sessions.
Definition MAX_ATTEMPTS : Z := 5.
Definition LOCKOUT_WINDOW_SECS : Z := 15 * 60.
Inductive auth_outcome :=
  | Success (s : session) | SecondFactorRequired (s : session) | SecondFactorAccepted (s : session)
  | InvalidCredentials | LockedOut (retry_after_secs : Z).
Record login_attempt := Attempt { username : text; password : text; totp_code : option text; attempt_ip : option text }.
Record aegis_account := Account { id : text; name : text; password_hash : text; totp_secret : option text }.
Record rate_state := Rate { failures : Z; window_start : Z }.
Record auth_service := Service {
  sessions : session_store; audit : audit_log; limits : gmap text rate_state; max_attempts : Z; lockout_window : Z }.
Definition service_new (audit_capacity : nat) : auth_service :=
  Service store_new (audit_new audit_capacity) ∅ MAX_ATTEMPTS LOCKOUT_WINDOW_SECS.
Definition with_limits (svc : auth_service) (max_attempts lockout_window : Z) : auth_service :=
  Service (sessions svc) (audit svc) (limits svc) (Z.max max_attempts 1) lockout_window.

Definition set_sessions (svc : auth_service) (st : session_store) : auth_service :=
  Service st (audit svc) (limits svc) (max_attempts svc) (lockout_window svc).
Definition log (svc : auth_service) (e : audit_entry) : auth_service :=
  Service (sessions svc) (record (audit svc) e) (limits svc) (max_attempts svc) (lockout_window svc).
Definition set_limits (svc : auth_service) (m : gmap text rate_state) : auth_service :=
  Service (sessions svc) (audit svc) m (max_attempts svc) (lockout_window svc).

Definition is_locked (svc : auth_service) (user : text) (now : Z) : bool :=
  match limits svc !! user with
  | Some r => (max_attempts svc <=? failures r) && (now <? wrap 64 (window_start r + lockout_window svc))
  | None => false
  end.
Definition count_failure (svc : auth_service) (user : text) (now : Z) : rate_state :=
  let r := default (Rate 0 0) (limits svc !! user) in
  let r := if wrap 64 (window_start r + lockout_window svc) <=? now then Rate 0 now else r in
  Rate (wrap 32 (failures r + 1)) (window_start r).
Definition record_failure (svc : auth_service) (user : text) (now : Z) (ip : option text) (detail : string) : auth_service :=
  log (set_limits svc (<[user := count_failure svc user now]> (limits svc)))
    (Entry user FailedLogin None now false (codes detail) ip).
Definition record_success (svc : auth_service) (user : text) (now : Z) (ip : option text) (detail : string) : auth_service :=
  log (set_limits svc (delete user (limits svc))) (Entry user Authentication None now true (codes detail) ip).

Section pipeline.
Context `{Hmac256, Hmac1}.

(** [fresh] is the token the session would get. *)
Definition login (svc : auth_service) (acc : aegis_account) (att : login_attempt) (now : Z) (fresh : text) : auth_outcome * auth_service :=
  let user := name acc in
  let ip := attempt_ip att in
  if is_locked svc user now then
    (LockedOut (lockout_window svc), log svc (Entry user FailedLogin None now false (codes "account locked out") ip))
  else
    match verify_password (password att) (password_hash acc) with
    | Err _ => (InvalidCredentials, record_failure svc user now ip "bad password")
    | Ok _ =>
        match totp_secret acc with
        | Some secret =>
            match totp_code att with
            | None =>
                let '(s, st) := create (sessions svc) fresh (id acc) now false in
                (SecondFactorRequired s, set_sessions svc st)
            | Some code =>
                match verify_totp secret code now with
                | Ok _ =>
                    let '(s, st) := create (sessions svc) fresh (id acc) now true in
                    (SecondFactorAccepted s, record_success (set_sessions svc st) user now ip "password+totp")
                | Err _ => (InvalidCredentials, record_failure svc user now ip "bad totp")
                end
            end
        | None =>
            let '(s, st) := create (sessions svc) fresh (id acc) now true in
            (Success s, record_success (set_sessions svc st) user now ip "password")
        end
    end.

Definition logout (svc : auth_service) (tok user : text) (now : Z) : auth_service :=
  log (set_sessions svc (invalidate (sessions svc) tok).2) (Entry user Logout None now true (codes "logout") None).
Definition validate_session (svc : auth_service) (tok : text) (now : Z) : option session * auth_service :=
  let '(s, st) := validate (sessions svc) tok now in (s, set_sessions svc st).

(** *** Histories of requests, with the outcome of every login *)
Inductive op :=
  | Login (acc : aegis_account) (att : login_attempt) (now : Z) (fresh : text)
  | Logoff (tok user : text) (now : Z)
  | Validate (tok : text) (now : Z).
Definition time (o : op) : Z := match o with Login _ _ now _ | Logoff _ _ now | Validate _ now => now end.
Definition login_of (user : text) (o : op) : bool := match o with Login acc _ _ _ => bool_decide (name acc = user) | _ => false end.
Definition step (svc : auth_service) (o : op) : auth_service :=
  match o with
  | Login acc att now fresh => (login svc acc att now fresh).2
  | Logoff tok user now => logout svc tok user now
  | Validate tok now => (validate_session svc tok now).2
  end.
Record seen := Seen { who : text; at_ : Z; outcome : auth_outcome }.
Definition answer (svc : auth_service) (o : op) : list seen :=
  match o with Login acc att now fresh => [Seen (name acc) now (login svc acc att now fresh).1] | _ => [] end.
Fixpoint trace (svc : auth_service) (ops : list op) : list seen :=
  match ops with [] => [] | o :: ops => answer svc o ++ trace (step svc o) ops end.

Lemma trace_app svc a b : trace svc (a ++ b) = trace svc a ++ trace (run step svc a) b.
Proof. revert svc. induction a as [|o a IH]; intros svc; cbn; [done|]. by rewrite IH, app_assoc. Qed.

(** *** What a login does, on every branch *)
Definition session_of (o : auth_outcome) : option session :=
  match o with Success s | SecondFactorRequired s | SecondFactorAccepted s => Some s | _ => None end.
Definition factor_given (acc : aegis_account) (att : login_attempt) (now : Z) : Prop :=
  match totp_secret acc with
  | None => True
  | Some secret => exists code, totp_code att = Some code /\ verify_totp secret code now = Ok tt
  end.

Inductive logged (svc : auth_service) (acc : aegis_account) (att : login_attempt) (now : Z) (fresh : text) :
    auth_outcome * auth_service -> Prop :=
  | logged_locked svc' : is_locked svc (name acc) now = true -> sessions svc' = sessions svc -> limits svc' = limits svc ->
      logged svc acc att now fresh (LockedOut (lockout_window svc), svc')
  | logged_failed svc' : is_locked svc (name acc) now = false -> sessions svc' = sessions svc ->
      limits svc' = <[name acc := count_failure svc (name acc) now]> (limits svc) ->
      logged svc acc att now fresh (InvalidCredentials, svc')
  | logged_half svc' s : is_locked svc (name acc) now = false -> verify_password (password att) (password_hash acc) = Ok tt ->
      (s, sessions svc') = create (sessions svc) fresh (id acc) now false -> limits svc' = limits svc ->
      logged svc acc att now fresh (SecondFactorRequired s, svc')
  | logged_full svc' o s : is_locked svc (name acc) now = false -> verify_password (password att) (password_hash acc) = Ok tt ->
      factor_given acc att now -> o = Success s \/ o = SecondFactorAccepted s ->
      (s, sessions svc') = create (sessions svc) fresh (id acc) now true -> limits svc' = delete (name acc) (limits svc) ->
      logged svc acc att now fresh (o, svc').

Lemma login_logged svc acc att now fresh : logged svc acc att now fresh (login svc acc att now fresh).
Proof.
  unfold login. destruct (is_locked svc (name acc) now) eqn:El; [by constructor|].
  destruct (verify_password _ _) as [[]|] eqn:Ep; [|by constructor].
  destruct (totp_secret acc) as [secret|] eqn:Es; [destruct (totp_code att) as [code|] eqn:Ec|].
  - destruct (verify_totp secret code now) as [[]|] eqn:Ev; [|by constructor].
    eapply logged_full; try done; [|by right]. unfold factor_given. rewrite Es. eauto.
  - by eapply logged_half.
  - eapply logged_full; try done; [|by left]. unfold factor_given. by rewrite Es.
Qed.

Lemma login_settings svc acc att now fresh : max_attempts (login svc acc att now fresh).2 = max_attempts svc /\
  lockout_window (login svc acc att now fresh).2 = lockout_window svc.
Proof. unfold login. by repeat case_match. Qed.

Lemma step_settings svc o : max_attempts (step svc o) = max_attempts svc /\ lockout_window (step svc o) = lockout_window svc.
Proof.
  destruct o; [apply login_settings|done|]. cbn. unfold validate_session. by destruct (validate _ _ _).
Qed.

Lemma step_limits svc o user : login_of user o = false -> limits (step svc o) !! user = limits svc !! user.
Proof.
  destruct o as [acc att now fresh| |tok now]; cbn [step login_of]; [|done|].
  - intros Hn. bool_prop. destruct (login_logged svc acc att now fresh) as [svc' ? ? Hl|svc' ? ? Hl|svc' s ? ? ? Hl|svc' o s ? ? ? ? ? Hl]; cbn [snd];
      by rewrite Hl, ?lookup_insert_ne, ?lookup_delete_ne.
  - intros _. unfold validate_session. by destruct (validate _ _ _).
Qed.

(** *** Every session in the store has its history *)
Definition explained (svc0 : auth_service) (hist : list op) (tok : text) (s : session) : Prop :=
  exists h1 acc att t h2,
    hist = h1 ++ Login acc att t tok :: h2 /\ is_locked (run step svc0 h1) (name acc) t = false /\
    verify_password (password att) (password_hash acc) = Ok tt /\
    (fully_authenticated s = true -> factor_given acc att t) /\ user_id s = id acc /\
    absolute_expires s = wrap 64 (t + DEFAULT_ABSOLUTE_TTL) /\ idle_expires s = wrap 64 (last_activity s + DEFAULT_IDLE_TTL) /\
    (forall user u, Logoff tok user u ∉ h2) /\ (last_activity s = t \/ Validate tok (last_activity s) ∈ h2).
Record accounted (svc0 : auth_service) (hist : list op) (st : session_store) : Prop := {
  ac_absolute : absolute_ttl st = DEFAULT_ABSOLUTE_TTL; ac_idle : idle_ttl st = DEFAULT_IDLE_TTL;
  ac_sessions : map_Forall (explained svc0 hist) (by_token st) }.

Lemma history_more svc0 hist o tok s : (forall user u, o <> Logoff tok user u) -> explained svc0 hist tok s -> explained svc0 (hist ++ [o]) tok s.
Proof.
  intros Ho (h1 & acc & att & t & h2 & -> & Hl & Hp & Hf & Hu & Ha & Hi & Hx & Hv). exists h1, acc, att, t, (h2 ++ [o]).
  rewrite <- app_assoc. split_and!; try done.
  - intros user u [Hin|Hin%list_elem_of_singleton]%elem_of_app; [by eapply Hx|by eapply Ho].
  - destruct Hv; [by left|]. right. apply elem_of_app. by left.
Qed.

Lemma accounted_more svc0 hist o st : accounted svc0 hist st -> (forall tok user u, o <> Logoff tok user u) -> accounted svc0 (hist ++ [o]) st.
Proof. intros [Ha Hi Hs] Ho. split; [done..|]. intros tok s Hx. apply history_more; [by intros|]. by apply Hs. Qed.

Lemma explained_created svc0 hist acc att t tok st full s st' :
  let svc := run step svc0 hist in
  absolute_ttl st = DEFAULT_ABSOLUTE_TTL -> idle_ttl st = DEFAULT_IDLE_TTL ->
  is_locked svc (name acc) t = false -> verify_password (password att) (password_hash acc) = Ok tt ->
  (full = true -> factor_given acc att t) -> (s, st') = create st tok (id acc) t full ->
  explained svc0 (hist ++ [Login acc att t tok]) tok s.
Proof.
  intros svc Ha Hi Hl Hp Hf [= -> _]. exists hist, acc, att, t, []. cbn. rewrite Ha, Hi. split_and!; try done; [|by left].
  intros user u []%elem_of_nil.
Qed.

Lemma accounted_step svc0 hist o :
  accounted svc0 hist (sessions (run step svc0 hist)) -> accounted svc0 (hist ++ [o]) (sessions (run step svc0 (hist ++ [o]))).
Proof.
  intros Hc. rewrite run_app. cbn [run foldl]. fold (run step svc0 hist). set (svc := run step svc0 hist) in *.
  destruct o as [acc att t tok|tok user t|tok t]; cbn [step].
  - pose proof (accounted_more _ _ (Login acc att t tok) _ Hc ltac:(done)) as Hm.
    assert (Hnew : forall full s st', is_locked svc (name acc) t = false -> verify_password (password att) (password_hash acc) = Ok tt ->
      (full = true -> factor_given acc att t) -> (s, st') = create (sessions svc) tok (id acc) t full ->
      accounted svc0 (hist ++ [Login acc att t tok]) st').
    { intros full s st' Hl Hp Hf E. pose proof (explained_created svc0 hist acc att t tok _ full s st' (ac_absolute _ _ _ Hc) (ac_idle _ _ _ Hc) Hl Hp Hf E) as Hs.
      injection E as -> ->. destruct Hm as [Ha Hi Hmap]. split; [done..|]. cbn. apply map_Forall_insert_2; done. }
    destruct (login_logged svc acc att t tok) as [svc' _ E _|svc' _ E _|svc' s Hl Hp E _|svc' o s Hl Hp Hf _ E _]; cbn [snd];
      [by rewrite E|by rewrite E|by apply (Hnew false s)|by apply (Hnew true s)].
  - destruct Hc as [Ha Hi Hs]. split; [done..|]. cbn. intros tok' s [Hne Hx]%lookup_delete_Some. apply history_more; [|by apply Hs].
    intros user' u [= -> _ _]. done.
  - pose proof (accounted_more _ _ (Validate tok t) _ Hc ltac:(done)) as [Ha Hi Hs]. unfold validate_session, validate.
    destruct (by_token (sessions svc) !! tok) as [s|] eqn:E; [|by split]. destruct (is_live s t); cbn; (split; [done..|]).
    + apply map_Forall_insert_2; [|done]. destruct Hc as [_ Hi' Hs'].
      destruct (Hs' _ _ E) as (h1 & acc & att & t0 & h2 & -> & Hl & Hp & Hf & Hu & Hab & Hid & Hx & Hv).
      exists h1, acc, att, t0, (h2 ++ [Validate tok t]). rewrite <- app_assoc. cbn. rewrite Hi. split_and!; try done.
      * intros user u [Hin|Hin%list_elem_of_singleton]%elem_of_app; [by eapply Hx|done].
      * right. apply elem_of_app. right. by apply list_elem_of_singleton.
    + by apply map_Forall_delete.
Qed.

Lemma all_accounted svc0 hist : sessions svc0 = store_new -> accounted svc0 hist (sessions (run step svc0 hist)).
Proof.
  intros H0'. induction hist as [|o hist IH] using rev_ind; [|by apply accounted_step]. cbn. rewrite H0'. split; [done..|]. apply map_Forall_empty.
Qed.

(** C30: A request that presents a token is trusted only on the strength of a login
    that drew this token: the account was not locked, the password verified,
    and the second factor too when the session counts as fully authenticated
    and a secret is enrolled; nobody has logged the token out since; the login
    is less than eight hours old and the last use less than thirty minutes. *)
Theorem session_trusted (audit_capacity : nat) (attempts window : Z) (hist : list op) (tok : text) (now : Z) (s : session) :
  let svc0 := with_limits (service_new audit_capacity) attempts window in
  Forall (fun o => 0 <= time o < 2 ^ 63) hist ->
  (validate_session (run step svc0 hist) tok now).1 = Some s ->
  exists h1 acc att t h2,
    hist = h1 ++ Login acc att t tok :: h2 /\ is_locked (run step svc0 h1) (name acc) t = false /\
    verify_password (password att) (password_hash acc) = Ok tt /\ user_id s = id acc /\
    (fully_authenticated s = true -> factor_given acc att t) /\ (forall user u, Logoff tok user u ∉ h2) /\
    now < t + 8 * 60 * 60 /\ exists last, (last = t \/ Validate tok last ∈ h2) /\ now < last + 30 * 60.
Proof.
  intros svc0 Ht Hs. destruct (all_accounted svc0 hist eq_refl) as [_ _ Hmap]. unfold validate_session, validate in Hs.
  destruct (by_token (sessions (run step svc0 hist)) !! tok) as [s0|] eqn:E; [|done].
  destruct (is_live s0 now) eqn:El; [|done]. cbn in Hs. injection Hs as <-. cbn.
  destruct (Hmap _ _ E) as (h1 & acc & att & t & h2 & -> & Hl & Hp & Hf & Hu & Hab & Hid & Hx & Hv).
  rewrite Forall_app, Forall_cons in Ht. destruct Ht as (_ & Ht & Hts). cbn in Ht.
  unfold is_live in El. bool_prop. unfold DEFAULT_ABSOLUTE_TTL, DEFAULT_IDLE_TTL in *.
  match goal with Hn : now < absolute_expires s0 |- _ => rewrite Hab, wrap_small in Hn by (unfold fits; lia) end.
  exists h1, acc, att, t, h2. split_and!; try done. exists (last_activity s0). split; [done|].
  assert (Hla : 0 <= last_activity s0 < 2 ^ 63).
  { destruct Hv as [->|Hv]; [done|]. rewrite Forall_forall in Hts. by apply (Hts _ Hv). }
  match goal with Hn : now < idle_expires s0 |- _ => rewrite Hid, wrap_small in Hn by (unfold fits; lia) end. lia.
Qed.

(** *** Guesses are bounded, account by account *)
Definition guess (user : text) (a w : Z) (x : seen) : bool :=
  bool_decide (who x = user) && (a <=? at_ x) && (at_ x <? a + w) && match outcome x with InvalidCredentials => true | _ => false end.
Definition guesses (user : text) (a w : Z) (tr : list seen) : Z := Z.of_nat (length (List.filter (guess user a w) tr)).
Definition authenticated (user : text) (x : seen) : bool :=
  bool_decide (who x = user) && match outcome x with Success _ | SecondFactorAccepted _ => true | _ => false end.

Lemma guesses_app user a w t1 t2 : guesses user a w (t1 ++ t2) = guesses user a w t1 + guesses user a w t2.
Proof. unfold guesses. rewrite List.filter_app, length_app. lia. Qed.

(** The state of one account's counter against the failures seen so far in
    [a, a + w): the window it counts began before, inside or after that span. *)
Record counted (user : text) (a w m : Z) (svc : auth_service) (before : list Z) (n : Z) : Prop := {
  co_m : max_attempts svc = m; co_w : lockout_window svc = w;
  co_n : 0 <= n <= 2 * m;
  co_r : let r := default (Rate 0 0) (limits svc !! user) in
    0 <= failures r <= m /\ 0 <= window_start r /\
    (forall t, 0 <= t -> Forall (fun u => u <= t) before -> window_start r <= t /\ (t < a -> n = 0)) /\
    (window_start r < a -> n <= failures r) /\ (a <= window_start r < a + w -> n <= m + failures r) }.

Lemma counted_failure user a w m svc before n t svc' : 0 < m < 2 ^ 32 -> 0 <= w -> 0 <= t -> t + w < 2 ^ 64 ->
  counted user a w m svc before n -> Forall (fun u => u <= t) before -> is_locked svc user t = false ->
  max_attempts svc' = max_attempts svc -> lockout_window svc' = lockout_window svc ->
  limits svc' = <[user := count_failure svc user t]> (limits svc) ->
  counted user a w m svc' (before ++ [t]) (n + (if (a <=? t) && (t <? a + w) then 1 else 0)).
Proof.
  intros Hm Hw Ht Hsum [Em Ew Hn Hr] Hb Hl Em' Ew' El. unfold is_locked in Hl. unfold count_failure in El.
  set (r := default (Rate 0 0) (limits svc !! user)) in *. destruct Hr as (Hf & Hs & Hall & H1 & H2).
  destruct (Hall t Ht Hb) as [Hst Hzero].
  assert (Hwrap : wrap 64 (window_start r + lockout_window svc) = window_start r + w) by (rewrite Ew; apply wrap_small; unfold fits; lia).
  rewrite Hwrap in El.
  assert (Hfree : window_start r + w <= t \/ failures r < m).
  { subst r. destruct (limits svc !! user) as [r|] eqn:E; cbn in *; [|lia]. rewrite Em, Hwrap in Hl. apply andb_false_iff in Hl as [Hl|Hl]; bool_prop; lia. }
  set (r' := Rate _ _) in El. assert (Er : default (Rate 0 0) (limits svc' !! user) = r') by by rewrite El, lookup_insert_eq.
  assert (Hr' : failures r' = (if window_start r + w <=? t then 1 else failures r + 1) /\ window_start r' = (if window_start r + w <=? t then t else window_start r)).
  { subst r'. destruct (Z.leb_spec (window_start r + w) t); cbn; (split; [apply wrap_small; unfold fits; lia|done]). }
  clearbody r'. destruct Hr' as [Ef' Es'].
  assert (Hlast : forall u, Forall (fun v => v <= u) (before ++ [t]) -> t <= u) by (intros u [_ Hu%Forall_inv]%Forall_app; done).
  assert (Hbefore : forall u, Forall (fun v => v <= u) (before ++ [t]) -> Forall (fun v => v <= u) before) by (by intros u [? _]%Forall_app).
  split; [congruence|congruence| |rewrite Er; cbv zeta; rewrite Ef', Es'; split_and!].
  all: destruct (Z.leb_spec (window_start r + w) t), (Z.leb_spec a t), (Z.ltb_spec t (a + w)); cbn [andb]; try lia.
  all: intros u Hu Hall'; pose proof (Hlast u Hall'); lia.
Qed.

Lemma guesses_one user a w t o : guesses user a w [Seen user t o] =
  if (a <=? t) && (t <? a + w) && match o with InvalidCredentials => true | _ => false end then 1 else 0.
Proof. unfold guesses, guess. cbn. rewrite bool_decide_eq_true_2 by done. by destruct (a <=? t), (t <? a + w), o. Qed.

Lemma counted_step user a w m svc before n o : 0 < m < 2 ^ 32 -> 0 <= w -> 0 <= time o -> time o + w < 2 ^ 64 ->
  counted user a w m svc before n -> Forall (fun u => u <= time o) before -> existsb (authenticated user) (answer svc o) = false ->
  counted user a w m (step svc o) (before ++ [time o]) (n + guesses user a w (answer svc o)).
Proof.
  intros Hm Hw Ht Hs Hc Hb Ha. destruct (step_settings svc o) as [Em Ew].
  assert (Hkeep : limits (step svc o) !! user = limits svc !! user -> guesses user a w (answer svc o) = 0 ->
    counted user a w m (step svc o) (before ++ [time o]) (n + guesses user a w (answer svc o))).
  { intros El ->. rewrite Z.add_0_r. destruct Hc as [Em0 Ew0 Hn Hr]. split; [congruence|congruence|done|]. rewrite El. cbv zeta in *.
    destruct Hr as (Hf & Hw0 & Hall & H1 & H2). split_and!; try done; try lia. intros t Ht' [Hl _]%Forall_app. by apply Hall. }
  destruct (login_of user o) eqn:Eo; [|apply Hkeep; [by apply step_limits|]].
  - destruct o as [acc att t tok| |]; try done. cbn [login_of time] in *. bool_prop. subst user.
    cbn [answer step existsb] in *. rewrite orb_false_r in Ha.
    destruct (login_logged svc acc att t tok) as [svc' ? ? El|svc' Hl ? El|svc' s ? ? ? El|svc' o' s ? ? ? Ho ? El]; cbn [snd fst] in *.
    + apply Hkeep; [by rewrite El|]. by rewrite guesses_one, andb_false_r.
    + apply (counted_failure _ _ _ _ svc before n t svc' Hm Hw Ht Hs Hc Hb Hl Em Ew) in El. by rewrite guesses_one, andb_true_r.
    + apply Hkeep; [by rewrite El|]. by rewrite guesses_one, andb_false_r.
    + exfalso. unfold authenticated in Ha. rewrite bool_decide_eq_true_2 in Ha by done. by destruct Ho as [->| ->].
  - destruct o as [acc att t tok| |]; try done. unfold guesses, guess. cbn in Eo |- *. by rewrite Eo.
Qed.

(** The times someone got fully into the account in [a, a + w). *)
Definition logins (user : text) (a w : Z) (tr : list seen) : Z :=
  Z.of_nat (length (List.filter (fun x => authenticated user x && (a <=? at_ x) && (at_ x <? a + w)) tr)).
Lemma logins_app user a w t1 t2 : logins user a w (t1 ++ t2) = logins user a w t1 + logins user a w t2.
Proof. unfold logins. rewrite List.filter_app, length_app. lia. Qed.

Lemma late_step user a w svc o : a + w <= time o -> guesses user a w (answer svc o) = 0 /\ logins user a w (answer svc o) = 0.
Proof.
  intros Hl. destruct o as [acc att t tok| |]; try done. cbn [answer time] in *. unfold guesses, logins, guess.
  cbn [List.filter who at_ outcome]. by rewrite (proj2 (Z.ltb_ge t (a + w)) Hl), !andb_false_r.
Qed.

(** Getting in clears the counter and counts as no guess. *)
Lemma counted_reset user a w m svc before n o : 0 < m < 2 ^ 32 -> counted user a w m svc before n ->
  existsb (authenticated user) (answer svc o) = true ->
  counted user a w m (step svc o) (before ++ [time o]) 0 /\ guesses user a w (answer svc o) = 0 /\
  logins user a w (answer svc o) = (if (a <=? time o) && (time o <? a + w) then 1 else 0).
Proof.
  intros Hm [Em Ew _ _] Ha. destruct (step_settings svc o) as [Em' Ew'].
  destruct o as [acc att t tok| |]; try done. cbn [answer step time existsb] in *. rewrite orb_false_r in Ha.
  pose proof Ha as Hau. unfold authenticated in Ha. cbn [who outcome] in Ha. bool_prop.
  destruct (login_logged svc acc att t tok) as [svc' ? ? El|svc' Hl ? El|svc' s ? ? ? El|svc' o' s ? ? ? Ho ? El]; cbn [snd fst] in *; try done.
  match goal with E : name acc = user |- _ => rewrite E in * end. split_and!.
  - split; [congruence|congruence|lia|]. rewrite El, lookup_delete_eq. cbn. split_and!; (done || lia).
  - rewrite guesses_one. destruct Ho as [->| ->]; by rewrite andb_false_r.
  - unfold logins. cbn [List.filter]. rewrite Hau. cbn [andb at_]. by destruct (a <=? t), (t <? a + w).
Qed.

(** [g] guesses and [k] logins so far: all guesses but those since the last
    login are paid for by the logins, unless the span is over. *)
Definition budget (user : text) (a w m : Z) (svc : auth_service) (before : list Z) (g k : Z) : Prop :=
  0 <= k /\ ((exists n0 n, g = n0 + n /\ n0 <= 2 * m * k /\ counted user a w m svc before n) \/
    (Exists (fun t => a + w <= t) before /\ g <= 2 * m * (1 + k))).

Lemma budget_le user a w m svc before g k : budget user a w m svc before g k -> g <= 2 * m * (1 + k).
Proof. intros [Hk [(n0 & n & -> & Hn0 & [_ _ Hn _])|[_ Hg]]]; lia. Qed.

Lemma budget_step user a w m svc before g k o : 0 < m < 2 ^ 32 -> 0 <= w -> 0 <= time o -> time o + w < 2 ^ 64 ->
  budget user a w m svc before g k -> Forall (fun u => u <= time o) before ->
  budget user a w m (step svc o) (before ++ [time o]) (g + guesses user a w (answer svc o)) (k + logins user a w (answer svc o)).
Proof.
  intros Hm Hw Ht Hs Hb Hall. pose proof (budget_le _ _ _ _ _ _ _ _ Hb) as Hle. destruct Hb as [Hk Hb].
  destruct (Z.le_gt_cases (a + w) (time o)) as [Hlate|Hearly].
  - destruct (late_step user a w svc o Hlate) as [-> ->]. rewrite !Z.add_0_r. split; [done|]. right. split; [|done].
    apply Exists_app. right. by constructor.
  - destruct Hb as [(n0 & n & -> & Hn0 & Hc)|[(t & Hin & Hle')%Exists_exists _]].
    2:{ rewrite Forall_forall in Hall. specialize (Hall t Hin). cbv beta in Hall. lia. }
    destruct (existsb (authenticated user) (answer svc o)) eqn:Ea.
    + destruct (counted_reset _ _ _ _ _ _ _ _ Hm Hc Ea) as (Hc' & -> & ->). destruct Hc as [_ _ Hn (_ & _ & Hzero & _)].
      destruct (Hzero _ Ht Hall) as [_ Hz]. destruct (Z.leb_spec a (time o)), (Z.ltb_spec (time o) (a + w)); cbn [andb]; try lia.
      * split; [lia|]. left. exists (n0 + n), 0. split_and!; [lia..|done].
      * split; [lia|]. left. exists n0, 0. split_and!; [lia..|done].
    + assert (El : logins user a w (answer svc o) = 0).
      { destruct o as [acc att t tok| |]; try done. cbn in Ea. rewrite orb_false_r in Ea. unfold logins. cbn. by rewrite Ea. }
      rewrite El. split; [lia|]. left. exists n0, (n + guesses user a w (answer svc o)). split_and!; [lia..|]. by apply counted_step.
Qed.

Lemma all_budget user a w m svc0 hist : 0 < m < 2 ^ 32 -> 0 <= w ->
  max_attempts svc0 = m -> lockout_window svc0 = w -> limits svc0 = ∅ ->
  Forall (fun o => 0 <= time o /\ time o + w < 2 ^ 64) hist -> StronglySorted Z.le (time <$> hist) ->
  budget user a w m (run step svc0 hist) (time <$> hist) (guesses user a w (trace svc0 hist)) (logins user a w (trace svc0 hist)).
Proof.
  intros Hm Hw Em Ew El. induction hist as [|o hist IH] using rev_ind; intros Ht Hs.
  - split; [done|]. left. exists 0, 0. split_and!; [done|change (0 <= 2 * m * 0); lia|]. split; [done|done|lia|].
    cbn [run foldl]. rewrite El, lookup_empty. cbn [default failures window_start]. split_and!; try done; try lia.
  - apply Forall_app in Ht as [Ht [Ho Ho']%Forall_inv]. rewrite fmap_app in Hs |- *. cbn in Hs |- *.
    apply StronglySorted_app in Hs as (Hle & Hs & _).
    rewrite trace_app, guesses_app, logins_app, run_app. cbn [trace] in *. rewrite app_nil_r in *. apply budget_step; try done; [by apply IH|].
    apply Forall_forall. intros x Hx. apply (Hle x (time o)); [done|by apply list_elem_of_singleton].
Qed.

(** *** Accounts do not affect each other *)
Definition alike (user : text) (a b : auth_service) : Prop :=
  max_attempts a = max_attempts b /\ lockout_window a = lockout_window b /\
  absolute_ttl (sessions a) = absolute_ttl (sessions b) /\ idle_ttl (sessions a) = idle_ttl (sessions b) /\
  limits a !! user = limits b !! user.

Lemma step_ttls svc o : absolute_ttl (sessions (step svc o)) = absolute_ttl (sessions svc) /\ idle_ttl (sessions (step svc o)) = idle_ttl (sessions svc).
Proof.
  destruct o as [acc att t tok|tok user t|tok t]; cbn [step]; [|done|].
  - destruct (login_logged svc acc att t tok) as [svc' _ E _|svc' _ E _|svc' s _ _ E _|svc' o' s _ _ _ _ E _]; cbn [snd];
      [by rewrite E|by rewrite E|by injection E as _ ->..].
  - unfold validate_session, validate. destruct (_ !! tok); [|done]. by destruct (is_live _ t).
Qed.

Lemma alike_other user svc svc' o : login_of user o = false -> alike user svc svc' -> alike user (step svc o) svc'.
Proof.
  intros Ho (Hm & Hw & Ha & Hi & Hl). destruct (step_settings svc o) as [Em Ew], (step_ttls svc o) as [Ea Ei].
  unfold alike. rewrite (step_limits svc o user Ho). by split_and!; congruence.
Qed.

Lemma alike_own user svc svc' o : login_of user o = true -> alike user svc svc' ->
  answer svc o = answer svc' o /\ alike user (step svc o) (step svc' o).
Proof.
  destruct o as [acc att t tok| |]; try done. cbn [login_of]. intros Hn (Hm & Hw & Ha & Hi & Hl). bool_prop. subst user.
  assert (Elk : is_locked svc (name acc) t = is_locked svc' (name acc) t) by (unfold is_locked; by rewrite Hl, Hm, Hw).
  assert (Ecf : count_failure svc (name acc) t = count_failure svc' (name acc) t) by (unfold count_failure; by rewrite Hl, Hw).
  cbn [answer step]. unfold login. rewrite <- Elk.
  destruct (is_locked svc (name acc) t); [|destruct (verify_password _ _); [destruct (totp_secret acc); [destruct (totp_code att); [destruct (verify_totp _ _ _)|]|]|]];
    unfold create, alike, record_failure, record_success; cbn; rewrite ?Ha, ?Hi, ?Hm, ?Hw, ?Hl, ?Ecf, ?lookup_insert_eq, ?lookup_delete_eq; done.
Qed.

Lemma isolated user svc svc' ops : alike user svc svc' ->
  List.filter (fun x => bool_decide (who x = user)) (trace svc ops) = trace svc' (List.filter (login_of user) ops).
Proof.
  revert svc svc'. induction ops as [|o ops IH]; intros svc svc' Hr; [done|]. cbn [trace List.filter]. rewrite List.filter_app.
  destruct (login_of user o) eqn:Eo.
  - destruct (alike_own user svc svc' o Eo Hr) as [Ea Hr']. cbn [trace]. rewrite <- Ea. f_equal; [|by apply IH].
    destruct o; try done. cbn in Eo |- *. by rewrite Eo.
  - rewrite (IH (step svc o) svc' (alike_other user svc svc' o Eo Hr)). destruct o; try done. cbn in Eo |- *. by rewrite Eo.
Qed.

(** C31: With at least one attempt allowed, a clock that does not go back and
    times whose window ends below 2^64: within any span of one lockout window,
    whatever is tried and however it is spread, the guesses of an account's password or code that are answered
    as wrong are at most twice [attempts] for every time someone gets fully
    into the account in that span, plus twice [attempts]: at most twice
    [attempts] while nobody gets in. A login resets the counter, so each one
    buys a new budget. What an account's own logins are answered does not
    depend on attempts on other accounts, on logouts or on requests. *)
Theorem lockout (audit_capacity : nat) (attempts window : Z) (hist : list op) (user : text) (since : Z) :
  let svc0 := with_limits (service_new audit_capacity) attempts window in
  0 < attempts < 2 ^ 32 -> 0 <= window ->
  Forall (fun o => 0 <= time o /\ time o + window < 2 ^ 64) hist -> StronglySorted Z.le (time <$> hist) ->
  guesses user since window (trace svc0 hist) <= 2 * attempts * (1 + logins user since window (trace svc0 hist)) /\
  List.filter (fun x => bool_decide (who x = user)) (trace svc0 hist) = trace svc0 (List.filter (login_of user) hist).
Proof.
  intros svc0 Hm Hw Ht Hs. split; [|by apply isolated].
  apply (budget_le user since window attempts (run step svc0 hist) (time <$> hist)), all_budget; try done. cbn. lia.
Qed.

(** Every login leaves a record with its outcome, except the one that stops at
    the missing second factor: a right password is accepted without a trace and
    without touching the failure counter. *)
Lemma logins_recorded svc acc att now fresh :
  match (login svc acc att now fresh).1 with
  | SecondFactorRequired _ => audit (login svc acc att now fresh).2 = audit svc /\ limits (login svc acc att now fresh).2 = limits svc
  | o => exists e, audit (login svc acc att now fresh).2 = record (audit svc) e /\ actor e = name acc /\ timestamp e = now /\
      success e = bool_decide (is_Some (session_of o))
  end.
Proof.
  unfold login. destruct (is_locked _ _ _); [by eexists|]. destruct (verify_password _ _); [|by eexists].
  destruct (totp_secret acc); [destruct (totp_code att); [destruct (verify_totp _ _ _)|]|]; cbn; (done || by eexists).
Qed.
End pipeline.

(** *** A login server, run *)
Definition toy256 : Hmac256 := fun k m => replicate 32 (wrap 8 (sum_list (k ++ m))).
Definition toy1 : Hmac1 := fun k m => replicate 20 (wrap 8 (sum_list (k ++ m))).
#[global] Instance toy256_laws : Hmac256Laws toy256.
Proof. split; intros k m; [apply length_replicate|]. apply Forall_replicate, wrap_fits. lia. Qed.

Definition ann : aegis_account :=
  Account (codes "id-ann") (codes "ann") (codes "pbkdf2$1$00$" ++ hex (pbkdf2 (H:=toy256) (codes "pw") [0] 1)) (Some (base32_encode [1; 2; 3; 4; 5])).
Definition say (pw : string) (code : option text) : login_attempt := Attempt (codes "ann") (codes pw) code None.
Definition code_at (t : Z) : option text := match Totp.totp_code (H:=toy1) (base32_encode [1; 2; 3; 4; 5]) t with Ok c => Some c | Err _ => None end.
Definition visits : list op := [Login ann (say "pw" (code_at 1000)) 1000 [7]; Validate [7] 2000; Logoff [8] (codes "eve") 2100].
Definition attacks : list op :=
  [Login ann (say "a" None) 1000 [1]; Login ann (say "b" None) 1010 [2]; Login ann (say "pw" None) 1020 [3]; Login ann (say "c" None) 1100 [4]].

Lemma password_verified_witness : exists stored, hash_password (H:=toy256) (codes "pw") [1; 2] = Ok stored /\
  verify_password (H:=toy256) (codes "pw") stored = Ok tt.
Proof.
  eexists. split; [reflexivity|].
  refine (proj1 (password_verified (H:=toy256) (codes "pw") (codes "pq") [1; 2] _ _ eq_refl)). by repeat constructor.
Defined.

Lemma totp_window_witness : byte_list [1; 2; 3; 4; 5] /\ base32_decode (base32_encode [1; 2; 3; 4; 5]) = Some [1; 2; 3; 4; 5].
Proof.
  assert (Hb : byte_list [1; 2; 3; 4; 5]) by by repeat constructor. split; [exact Hb|].
  exact (proj1 (totp_window (H:=toy1) [1; 2; 3; 4; 5] [] [] 1000 Hb ltac:(lia))).
Defined.

Lemma session_trusted_witness : exists s, (validate_session (run (step (H:=toy256) (H0:=toy1)) (with_limits (service_new 8) 5 900) visits) [7] 2200).1 = Some s /\
  exists h1 acc att t h2, visits = h1 ++ Login acc att t [7] :: h2 /\ 2200 < t + 28800.
Proof.
  eexists. split; [vm_compute; reflexivity|].
  destruct (session_trusted (H:=toy256) (H0:=toy1) 8 5 900 visits [7] 2200 _ ltac:(repeat constructor; cbn; lia) ltac:(vm_compute; reflexivity))
    as (h1 & acc & att & t & h2 & E & _ & _ & _ & _ & _ & Ht & _). by exists h1, acc, att, t, h2.
Defined.

(** Three wrong guesses with a budget of two: a login in between paid for the
    third. *)
Definition resets : list op :=
  [Login ann (say "a" None) 1000 [1]; Login ann (say "pw" (code_at 1010)) 1010 [2]; Login ann (say "b" None) 1020 [3];
   Login ann (say "c" None) 1030 [4]; Login ann (say "d" None) 1040 [5]].

Lemma lockout_witness :
  let tr ops := trace (H:=toy256) (H0:=toy1) (with_limits (service_new 8) 2 100) ops in
  guesses (codes "ann") 1000 100 (tr attacks) <= 2 * 2 * (1 + 0) /\ guesses (codes "ann") 1000 100 (tr attacks) = 2 /\
  guesses (codes "ann") 1000 100 (tr resets) <= 2 * 2 * (1 + 1) /\ guesses (codes "ann") 1000 100 (tr resets) = 3.
Proof.
  intros tr. split_and!; [| vm_compute; reflexivity | |vm_compute; reflexivity].
  - refine (proj1 (lockout (H:=toy256) (H0:=toy1) 8 2 100 attacks (codes "ann") 1000 ltac:(lia) ltac:(lia) _ _));
      repeat constructor; cbn; lia.
  - refine (proj1 (lockout (H:=toy256) (H0:=toy1) 8 2 100 resets (codes "ann") 1000 ltac:(lia) ltac:(lia) _ _));
      repeat constructor; cbn; lia.
Defined.
End Auth.
