(* ===== verification/AegisOps.v ===== *)
(** Aegis operations (aegis/backend/src): player management (module
    [PlayerActions], player_actions.rs), alerts and the incident timeline
    ([Alerts], alerts.rs) and the profiler ([Profiler], profiler.rs). *)
From S2P Require Import Prelude RustStr Bytes Float64 Aegis.
#[local] Arguments digits : simpl never.

Module PlayerActions.
Import Aegis.Audit.
Definition PLAYERS_READ : text := codes "players.read".
Definition PLAYERS_MESSAGE : text := codes "players.message".
Definition PLAYERS_WARN : text := codes "players.warn".
Definition PLAYERS_KICK : text := codes "players.kick".
Definition PLAYERS_BAN : text := codes "players.ban".
Definition PLAYERS_IDENTITY_READ : text := codes "players.identity.read".
Definition PLAYERS_IDENTITY_NETWORK_READ : text := codes "players.identity.network.read".
Definition PLAYERS_IDENTITY_DEVICE_READ : text := codes "players.identity.device.read".

Inductive ban_duration := Temporary (expires_at : Z) | Permanent.
Record ban_record := Ban_ {
  ban_id : text; player_id : text; reason : text; duration : ban_duration; banned_by : text; banned_at : Z }.
Inductive action_outcome := Applied | Denied (permission : text) | NoSuchPlayer.
#[global] Instance action_outcome_eq_dec : EqDecision action_outcome.
Proof. solve_decision. Defined.

(** The borrowed audit log and ban list; [has] is the permission resolver and
    [online] the population, as they are when the action is taken. *)
Record state := State { audit : audit_log; bans : list ban_record }.
Definition log (s : state) (e : audit_entry) : state := State (record (audit s) e) (bans s).

Definition action_for (permission : text) : audit_action :=
  if bool_decide (permission = PLAYERS_KICK) then Kick else if bool_decide (permission = PLAYERS_BAN) then Ban else PermissionChange.

Section actions.
Context (has : text -> text -> bool) (online : text -> bool).

Definition authorize (s : state) (actor permission target : text) (now : Z) : action_outcome * state :=
  if has actor permission then (Applied, s)
  else (Denied permission,
        log s (Entry actor (action_for permission) (Some target) now false (codes "denied: missing " ++ permission) None)).

(** The shape [message], [warn] and [kick] share: permission, then presence,
    then the record. *)
Definition message (s : state) (actor target body : text) (now : Z) : action_outcome * state :=
  match authorize s actor PLAYERS_MESSAGE target now with
  | (Applied, s) =>
      if negb (online target) then (NoSuchPlayer, s)
      else (Applied, log s (Entry actor ConsoleCommand (Some target) now true (codes "message sent") None))
  | other => other
  end.
Definition warn (s : state) (actor target reason : text) (now : Z) : action_outcome * state :=
  match authorize s actor PLAYERS_WARN target now with
  | (Applied, s) =>
      if negb (online target) then (NoSuchPlayer, s)
      else (Applied, log s (Entry actor PermissionChange (Some target) now true (codes "warned: " ++ reason) None))
  | other => other
  end.
Definition kick (s : state) (actor target reason : text) (now : Z) : action_outcome * state :=
  match authorize s actor PLAYERS_KICK target now with
  | (Applied, s) =>
      if negb (online target) then (NoSuchPlayer, s)
      else (Applied, log s (Entry actor Kick (Some target) now true (codes "kicked: " ++ reason) None))
  | other => other
  end.
Definition ban (s : state) (actor target reason : text) (duration : ban_duration) (now : Z) : action_outcome * state :=
  match authorize s actor PLAYERS_BAN target now with
  | (Applied, s) =>
      let b := Ban_ (codes "ban-" ++ digits 20 now [] ++ codes "-" ++ digits 20 (Z.of_nat (length target)) []) target reason duration actor now in
      (Applied, log (State (audit s) (bans s ++ [b])) (Entry actor Ban (Some target) now true (codes "banned: " ++ reason) None))
  | other => other
  end.
End actions.

Definition in_force (b : ban_record) (now : Z) : bool := match duration b with Permanent => true | Temporary t => now <? t end.
Definition is_banned (s : state) (player : text) (now : Z) : option ban_record :=
  List.find (fun b => bool_decide (player_id b = player) && in_force b now) (bans s).

(** *** Requests, each with the permissions and the population of its time *)
Inductive act := Message (body : text) | Warn (reason : text) | Kick_ (reason : text) | BanFor (reason : text) (d : ban_duration).
Record request := Request { by_ : text; on : text; what : act; at_ : Z; holds : text -> text -> bool; present : text -> bool }.
Definition perform (s : state) (r : request) : action_outcome * state :=
  match what r with
  | Message b => message (holds r) (present r) s (by_ r) (on r) b (at_ r)
  | Warn x => warn (holds r) (present r) s (by_ r) (on r) x (at_ r)
  | Kick_ x => kick (holds r) (present r) s (by_ r) (on r) x (at_ r)
  | BanFor x d => ban (holds r) s (by_ r) (on r) x d (at_ r)
  end.
Definition needs (a : act) : text :=
  match a with Message _ => PLAYERS_MESSAGE | Warn _ => PLAYERS_WARN | Kick_ _ => PLAYERS_KICK | BanFor _ _ => PLAYERS_BAN end.
Definition is_ban (a : act) : bool := match a with BanFor _ _ => true | _ => false end.

(** What a request must be answered, from its own permission and presence. *)
Definition verdict (r : request) : action_outcome :=
  if negb (holds r (by_ r) (needs (what r))) then Denied (needs (what r))
  else if is_ban (what r) || present r (on r) then Applied else NoSuchPlayer.
Definition kind (r : request) : audit_action :=
  match what r with
  | Kick_ _ => Kick | BanFor _ _ => Ban | Warn _ => PermissionChange
  | Message _ => if bool_decide (verdict r = Applied) then ConsoleCommand else PermissionChange
  end.
Definition wording (r : request) : text :=
  match verdict r with
  | Denied p => codes "denied: missing " ++ p
  | _ => match what r with
         | Message _ => codes "message sent" | Warn x => codes "warned: " ++ x
         | Kick_ x => codes "kicked: " ++ x | BanFor x _ => codes "banned: " ++ x
         end
  end.
Definition recorded (r : request) : option audit_entry :=
  match verdict r with
  | NoSuchPlayer => None
  | v => Some (Entry (by_ r) (kind r) (Some (on r)) (at_ r) (bool_decide (v = Applied)) (wording r) None)
  end.
Definition decreed (r : request) : option ban_record :=
  match what r, verdict r with
  | BanFor x d, Applied =>
      Some (Ban_ (codes "ban-" ++ digits 20 (at_ r) [] ++ codes "-" ++ digits 20 (Z.of_nat (length (on r))) []) (on r) x d (by_ r) (at_ r))
  | _, _ => None
  end.
Definition push {A} (l : list A) (o : option A) : list A := match o with Some x => l ++ [x] | None => l end.

Lemma perform_spec s r : perform s r =
  (verdict r, State (match recorded r with Some e => record (audit s) e | None => audit s end) (push (bans s) (decreed r))).
Proof.
  destruct s as [a b], r as [who tgt w t has on_]. unfold perform, verdict, recorded, decreed, kind, wording, verdict.
  destruct w as [x|x|x|x d]; cbn [what by_ on at_ holds present needs is_ban];
    unfold message, warn, kick, ban, authorize; destruct (has who _) eqn:E; cbn [negb orb]; try done; destruct (on_ tgt); done.
Qed.

Definition step (s : state) (r : request) : state := (perform s r).2.
Lemma run_actions a cap b reqs :
  run step (State (Log (last_n cap a) cap) b) reqs =
  State (Log (last_n cap (a ++ omap recorded reqs)) cap) (b ++ omap decreed reqs) \/ cap = 0%nat.
Proof.
  destruct (decide (cap = 0%nat)) as [|Hc]; [by right|left].
  induction reqs as [|r reqs IH] using rev_ind; [by rewrite !app_nil_r|].
  rewrite run_app, IH. cbn [run foldl]. unfold step. rewrite perform_spec. cbn [snd audit bans]. rewrite !omap_app, !app_assoc. cbn [omap list_omap].
  f_equal.
  - destruct (recorded r); [|by rewrite app_nil_r]. unfold record. cbn [entries capacity]. by rewrite last_n_push by lia.
  - destruct (decreed r); [done|by rewrite app_nil_r].
Qed.

Definition ban_of (q : request) (why : text) (d : ban_duration) : ban_record :=
  Ban_ (codes "ban-" ++ digits 20 (at_ q) [] ++ codes "-" ++ digits 20 (Z.of_nat (length (on q))) []) (on q) why d (by_ q) (at_ q).
Lemma decreed_ban q why d : what q = BanFor why d ->
  decreed q = if holds q (by_ q) PLAYERS_BAN then Some (ban_of q why d) else None.
Proof. intros Ew. unfold decreed, verdict. rewrite Ew. change (needs (BanFor why d)) with PLAYERS_BAN. by destruct (holds q (by_ q) PLAYERS_BAN). Qed.

Lemma decreed_Some q b : decreed q = Some b <->
  exists why d, what q = BanFor why d /\ holds q (by_ q) PLAYERS_BAN = true /\ b = ban_of q why d.
Proof.
  destruct (what q) as [| | |why d] eqn:Ew; [unfold decreed; rewrite Ew; naive_solver..|].
  rewrite (decreed_ban q why d Ew). destruct (holds q (by_ q) PLAYERS_BAN); naive_solver.
Qed.

(** Whatever is requested, by whom and when: an action is answered from the
    permission and the presence of its moment; the audit log is the end of the
    records of all actions that were applied or denied, with actor, target,
    time and result; and a player is banned exactly when somebody who held the
    ban permission banned them for a term that has not run out. *)
Theorem actions_accounted (capacity : nat) (reqs : list request) (r : request) (player : text) (now : Z) :
  let s := run step (State (audit_new capacity) []) reqs in
  (perform s r).1 = verdict r /\
  entries (audit s) = last_n (Nat.max capacity 1) (omap recorded reqs) /\
  (is_Some (is_banned s player now) <->
   exists q why d, q ∈ reqs /\ what q = BanFor why d /\ on q = player /\ holds q (by_ q) PLAYERS_BAN = true /\
     match d with Permanent => True | Temporary t => now < t end).
Proof.
  intros s. split; [by rewrite perform_spec|].
  assert (Es : s = State (Log (last_n (Nat.max capacity 1) (omap recorded reqs)) (Nat.max capacity 1)) (omap decreed reqs)).
  { destruct (run_actions [] (Nat.max capacity 1) [] reqs) as [E|E]; [exact E|lia]. }
  rewrite Es. split; [done|]. unfold is_banned. cbn [bans]. split.
  - intros [b [Hb [Hp Hf]%andb_true_iff]%find_Some_elem]. apply list_elem_of_omap in Hb as (q & Hq & Hd). bool_prop.
    apply decreed_Some in Hd as (why & d & Ew & Eh & ->). exists q, why, d. split_and!; try done.
    unfold in_force in Hf. cbn [duration ban_of] in Hf. destruct d; [by bool_prop|done].
  - intros (q & why & d & Hq & Ew & <- & Eh & Hd). destruct (List.find _ _) eqn:Ef; [done|]. exfalso.
    apply find_None_Forall in Ef. rewrite Forall_forall in Ef.
    specialize (Ef (ban_of q why d) ltac:(apply list_elem_of_omap; exists q; split; [done|apply decreed_Some; eauto])).
    cbn beta in Ef. unfold in_force in Ef. cbn [player_id duration ban_of] in Ef. rewrite bool_decide_eq_true_2 in Ef by done.
    destruct d; cbn in Ef; [bool_prop; lia|done].
Qed.

(** A ban's id depends only on the time and on the length of the player's id. *)
Lemma ban_ids_collide has (s : state) who a b x y d e now : has who PLAYERS_BAN = true -> length a = length b ->
  exists i j, bans (ban has (ban has s who a x d now).2 who b y e now).2 = bans s ++ [i; j] /\ ban_id i = ban_id j.
Proof.
  intros Hh Hl.
  assert (Hb : forall s t x d, bans (ban has s who t x d now).2 =
    bans s ++ [Ban_ (codes "ban-" ++ digits 20 now [] ++ codes "-" ++ digits 20 (Z.of_nat (length t)) []) t x d who now]).
  { intros. unfold ban, authorize. by rewrite Hh. }
  rewrite !Hb, <- app_assoc. eexists _, _. split; [done|]. unfold ban_id. by rewrite Hl.
Qed.
End PlayerActions.

Module Alerts.
Inductive severity := Info | Warning | Critical.
Definition severity_str (s : severity) : text := codes match s with Info => "INFO" | Warning => "WARNING" | Critical => "CRITICAL" end.
Inductive alert_kind :=
  | ServerOffline | HighCpu | HighMemory | TickDegradation | ResourceCrashLoop | DatabaseFailure | NetworkPacketLoss | HighLatency | DiskLow.
#[global] Instance alert_kind_eq_dec : EqDecision alert_kind.
Proof. solve_decision. Defined.
Definition all_kinds : list alert_kind :=
  [ServerOffline; HighCpu; HighMemory; TickDegradation; ResourceCrashLoop; DatabaseFailure; NetworkPacketLoss; HighLatency; DiskLow].
Definition kind_index (k : alert_kind) : nat :=
  match k with ServerOffline => 0 | HighCpu => 1 | HighMemory => 2 | TickDegradation => 3 | ResourceCrashLoop => 4 | DatabaseFailure => 5
  | NetworkPacketLoss => 6 | HighLatency => 7 | DiskLow => 8 end%nat.
#[global] Instance alert_kind_countable : Countable alert_kind.
Proof. by apply (inj_countable' kind_index (fun n => default DiskLow (all_kinds !! n))); intros []. Defined.
Definition kind_str (k : alert_kind) : text :=
  codes match k with
  | ServerOffline => "server_offline" | HighCpu => "high_cpu" | HighMemory => "high_memory" | TickDegradation => "tick_degradation"
  | ResourceCrashLoop => "resource_crash_loop" | DatabaseFailure => "database_failure" | NetworkPacketLoss => "network_packet_loss"
  | HighLatency => "high_latency" | DiskLow => "disk_low"
  end.
Definition default_severity (k : alert_kind) : severity :=
  match k with
  | ServerOffline | DatabaseFailure | ResourceCrashLoop => Critical
  | HighCpu | HighMemory | TickDegradation | NetworkPacketLoss | DiskLow => Warning
  | HighLatency => Info
  end.

Record alert := Alert_ {
  kind : alert_kind; sev : severity; first_fired : Z; last_fired : Z; occurrences : Z; body : text; subject : text;
  resolved_at : option Z }.
Abbreviation key := (text * alert_kind)%type.
Record alerts := Alerts_ { open : gmap key alert; resolved : list alert; webhooks : list text }.
Definition alerts_new : alerts := Alerts_ ∅ [] [].
Definition add_webhook (a : alerts) (url : text) : alerts :=
  if negb (bool_decide (trim_text url = [])) && negb (bool_decide (url ∈ webhooks a)) then Alerts_ (open a) (resolved a) (webhooks a ++ [url]) else a.
Definition fire (a : alerts) (who : text) (k : alert_kind) (msg : text) (now : Z) : bool * alerts :=
  let is_new := negb (bool_decide (is_Some (open a !! (who, k)))) in
  let al := default (Alert_ k (default_severity k) now now 0 msg who None) (open a !! (who, k)) in
  let al := Alert_ (kind al) (sev al) (first_fired al) now (wrap 64 (occurrences al + 1)) msg (subject al) (resolved_at al) in
  (is_new, Alerts_ (<[(who, k) := al]> (open a)) (resolved a) (webhooks a)).
Definition resolve (a : alerts) (who : text) (k : alert_kind) (now : Z) : bool * alerts :=
  match open a !! (who, k) with
  | Some al =>
      (true, Alerts_ (delete (who, k) (open a))
        (resolved a ++ [Alert_ (kind al) (sev al) (first_fired al) (last_fired al) (occurrences al) (body al) (subject al) (Some now)]) (webhooks a))
  | None => (false, a)
  end.
Definition severity_rank (a : alert) : Z := match sev a with Critical => 2 | Warning => 1 | Info => 0 end.
(** Both comparisons of the sort in one key: times fit 64 bits. *)
Definition open_alerts (a : alerts) : list alert :=
  sort_by (fun al => - (severity_rank al * 2 ^ 64 + last_fired al)) (map_to_list (open a)).*2.
Definition open_count (a : alerts) : nat := size (open a).
(** [keys] is the order the map is iterated in; [None] of the probe means it
    cannot tell. *)
Definition reconcile_keys (keys : list key) (a : alerts) (now : Z) (still_true : text -> alert_kind -> option bool) : alerts :=
  foldl (fun a '(who, k) => match still_true who k with Some false => (resolve a who k now).2 | _ => a end) a keys.
Definition reconcile (a : alerts) (now : Z) (still_true : text -> alert_kind -> option bool) : alerts :=
  reconcile_keys (map_to_list (open a)).*1 a now still_true.

(** *** The timeline *)
Inductive timeline_kind :=
  | Deployment | ConfigChange | ResourceRestart | ServerRestart | PlayerSpike | PerformanceAnomaly | Crash | AlertEvent | AuditEvent.
Record timeline_event := Event { timestamp : Z; ev_kind : timeline_kind; ev_actor : option text; ev_subject : text; detail : text }.
Record incident_timeline := Timeline { events : list timeline_event; capacity : nat }.
Definition timeline_new (capacity : nat) : incident_timeline := Timeline [] (Nat.max capacity 1).
Definition record (t : incident_timeline) (e : timeline_event) : incident_timeline :=
  let l := events t ++ [e] in
  let l := if (capacity t <? length l)%nat then tail l else l in
  Timeline (sort_by timestamp l) (capacity t).
Definition around (t : incident_timeline) (at_ window : Z) : list timeline_event :=
  List.filter (fun e => Z.abs (timestamp e - at_) <=? window) (events t).
(** [max_by_key] keeps the last of equal keys. *)
Definition latest (l : list timeline_event) : option timeline_event :=
  foldl (fun best e => match best with Some b => if timestamp e <? timestamp b then Some b else Some e | None => Some e end) None l.
Definition immediately_before (t : incident_timeline) (at_ : Z) : option timeline_event :=
  latest (List.filter (fun e => timestamp e <=? at_) (events t)).
(** *** An open alert is its episode: the reports since it was last cleared *)
Inductive op :=
  | Fire (who : text) (k : alert_kind) (msg : text) (now : Z) | Resolve (who : text) (k : alert_kind) (now : Z)
  | Reconcile (now : Z) (probe : text -> alert_kind -> option bool) | Webhook (url : text).
Definition step (a : alerts) (o : op) : alerts :=
  match o with
  | Fire who k msg now => (fire a who k msg now).2
  | Resolve who k now => (resolve a who k now).2
  | Reconcile now probe => reconcile a now probe
  | Webhook url => add_webhook a url
  end.
Definition episode_step (q : key) (l : list (Z * text)) (o : op) : list (Z * text) :=
  match o with
  | Fire who k msg now => if bool_decide ((who, k) = q) then l ++ [(now, msg)] else l
  | Resolve who k _ => if bool_decide ((who, k) = q) then [] else l
  | Reconcile _ probe => if bool_decide (probe q.1 q.2 = Some false) then [] else l
  | Webhook _ => l
  end.
Definition episode (q : key) (hist : list op) : list (Z * text) := foldl (episode_step q) [] hist.
Definition alert_of (q : key) (l : list (Z * text)) : option alert :=
  match l, last l with
  | (t0, _) :: _, Some (t1, msg) => Some (Alert_ q.2 (default_severity q.2) t0 t1 (wrap 64 (Z.of_nat (length l))) msg q.1 None)
  | _, _ => None
  end.

Lemma resolve_lookup a who k now q : open (resolve a who k now).2 !! q = if bool_decide ((who, k) = q) then None else open a !! q.
Proof.
  unfold resolve. destruct (open a !! (who, k)) as [al|] eqn:E; case_bool_decide; subst; cbn; rewrite ?lookup_delete_eq, ?lookup_delete_ne; done.
Qed.

Lemma reconcile_lookup keys a now probe q : open (reconcile_keys keys a now probe) !! q =
  if bool_decide (q ∈ keys /\ probe q.1 q.2 = Some false) then None else open a !! q.
Proof.
  revert a. induction keys as [|[who k] keys IH]; intros a; cbn.
  - rewrite bool_decide_eq_false_2; [done|]. by intros [[]%elem_of_nil _].
  - unfold reconcile_keys in IH. rewrite IH. destruct (decide ((who, k) = q)) as [<-|Hne].
    + cbn. destruct (probe who k) as [[]|] eqn:Ep; rewrite ?resolve_lookup, ?bool_decide_eq_true_2 by done;
        repeat case_bool_decide; set_solver.
    + destruct (probe who k) as [[]|]; rewrite ?resolve_lookup, ?(bool_decide_eq_false_2 _ Hne); repeat case_bool_decide; set_solver.
Qed.

Lemma alert_of_snoc q l t msg : alert_of q (l ++ [(t, msg)]) =
  let al := default (Alert_ q.2 (default_severity q.2) t t 0 msg q.1 None) (alert_of q l) in
  Some (Alert_ (kind al) (sev al) (first_fired al) t (wrap 64 (occurrences al + 1)) msg (subject al) (resolved_at al)).
Proof.
  unfold alert_of. destruct l as [|[t0 m0] l]; [done|]. cbn [app]. rewrite app_comm_cons, last_snoc, length_app.
  destruct (last ((t0, m0) :: l)) as [[t1 m1]|] eqn:E; [|by apply last_None in E]. cbn. rewrite wrap_add_l. do 3 f_equal. lia.
Qed.

Lemma open_is_episode hist q : open (run step alerts_new hist) !! q = alert_of q (episode q hist).
Proof.
  induction hist as [|o hist IH] using rev_ind; [done|]. unfold episode in *. rewrite run_app, foldl_app. cbn [run foldl].
  fold (run step alerts_new hist). set (a := run step alerts_new hist) in *. destruct o as [who k msg now|who k now|now probe|url]; cbn [step episode_step].
  - destruct (decide ((who, k) = q)) as [<-|Hne].
    + rewrite bool_decide_eq_true_2, alert_of_snoc, <- IH by done. cbn. by rewrite lookup_insert_eq.
    + rewrite bool_decide_eq_false_2 by done. cbn. by rewrite lookup_insert_ne.
  - rewrite resolve_lookup. by case_bool_decide.
  - unfold reconcile. rewrite reconcile_lookup. destruct (open a !! q) as [al|] eqn:E.
    + assert (Hin : q ∈ (map_to_list (open a)).*1) by (apply list_elem_of_fmap; exists (q, al); split; [done|by apply elem_of_map_to_list]).
      repeat case_bool_decide; naive_solver.
    + repeat case_bool_decide; try done; naive_solver.
  - unfold add_webhook. by case_match.
Qed.

Definition in_view (x y : alert) : Prop :=
  severity_rank y < severity_rank x \/ severity_rank x = severity_rank y /\ last_fired y <= last_fired x.

(** There is one open alert per subject and kind, and it is the episode of
    reports since the condition was last resolved or probed to be gone: first
    and last report, their number, the last message. The view lists every open
    alert once, by severity and then by recency. *)
Theorem alerts_history (hist : list op) (q : key) :
  let a := run step alerts_new hist in
  Forall (fun o => match o with Fire _ _ _ now => fits 64 now | _ => True end) hist ->
  open a !! q = alert_of q (episode q hist) /\
  open_alerts a ≡ₚ (map_to_list (open a)).*2 /\ StronglySorted in_view (open_alerts a).
Proof.
  intros a Ht. split_and!; [apply open_is_episode|apply sort_by_perm|].
  assert (Hf : forall al, al ∈ open_alerts a -> fits 64 (last_fired al)).
  { intros al Hin. unfold open_alerts in Hin. rewrite sort_by_perm in Hin. apply list_elem_of_fmap in Hin as ([k al'] & -> & Hin%elem_of_map_to_list). cbn.
    unfold a in Hin. rewrite open_is_episode in Hin.
    assert (Hep : Forall (fun p => fits 64 p.1) (episode k hist)).
    { clear Hin. unfold episode. induction hist as [|o h IH] using rev_ind; [constructor|]. apply Forall_app in Ht as [Ht Ho%Forall_inv]. rewrite foldl_app. cbn.
      specialize (IH Ht). destruct o; cbn; try case_bool_decide; try done; try constructor. apply Forall_app. split; [done|by constructor]. }
    unfold alert_of in Hin. destruct (episode k hist) as [|[t0 m0] l] eqn:E; [done|]. destruct (last _) as [[t1 m1]|] eqn:El; [|done].
    injection Hin as <-. cbn. apply last_Some_elem_of in El. rewrite Forall_forall in Hep. by apply (Hep _ El). }
  pose proof (sort_by_sorted (fun al => - (severity_rank al * 2 ^ 64 + last_fired al)) (map_to_list (open a)).*2) as Hs.
  fold (open_alerts a) in Hs. revert Hs Hf. generalize (open_alerts a). intros l Hs Hf. induction Hs as [|x l Hs IH Hx]; constructor.
  - apply IH. intros. apply Hf. set_solver.
  - rewrite Forall_forall in Hx |- *. intros y Hy. specialize (Hx y Hy). unfold key_le in Hx.
    pose proof (Hf x ltac:(set_solver)) as Fx. pose proof (Hf y ltac:(set_solver)) as Fy. unfold fits, in_view in *. lia.
Qed.

Lemma alerts_history_witness :
  let hist := [Fire [1] HighCpu [2] 10; Fire [1] HighCpu [3] 20; Fire [4] ServerOffline [5] 15] in
  open (run step alerts_new hist) !! ([1], HighCpu) = Some (Alert_ HighCpu Warning 10 20 2 [3] [1] None) /\
  StronglySorted in_view (open_alerts (run step alerts_new hist)).
Proof.
  pose proof (alerts_history [Fire [1] HighCpu [2] 10; Fire [1] HighCpu [3] 20; Fire [4] ServerOffline [5] 15] ([1], HighCpu)
    ltac:(repeat constructor; unfold fits; lia)) as (H1 & _ & H2). split; [exact H1|exact H2].
Defined.

(** *** The timeline is sorted, bounded, and in order of time when events are *)
Lemma latest_spec l : match latest l with
  | Some e => e ∈ l /\ Forall (fun x => timestamp x <= timestamp e) l
  | None => l = [] end.
Proof.
  unfold latest. induction l as [|e l IH] using rev_ind; [done|]. rewrite foldl_app. cbn.
  destruct (foldl _ None l) as [b|].
  - destruct IH as [Hin Hall]. destruct (Z.ltb_spec (timestamp e) (timestamp b)).
    + split; [set_solver|]. apply Forall_app. split; [done|]. constructor; [lia|done].
    + split; [set_solver|]. apply Forall_app. split; [|by constructor]. eapply Forall_impl; [done|]. cbn. lia.
  - subst l. split; [set_solver|]. by constructor.
Qed.

(** After any events the timeline is sorted, holds no more than its capacity
    and nothing that was not recorded; when they come in order of time it holds
    the last of them. [immediately_before] answers a latest event not after
    the instant. *)
Lemma timeline_kept (cap : nat) (es : list timeline_event) :
  let t := run record (timeline_new cap) es in
  StronglySorted (key_le timestamp) (events t) /\ (length (events t) <= Nat.max cap 1)%nat /\
  (forall e, e ∈ events t -> e ∈ es) /\
  (StronglySorted (key_le timestamp) es -> events t = Audit.last_n (Nat.max cap 1) es) /\
  (forall at_, match immediately_before t at_ with
    | Some e => e ∈ events t /\ timestamp e <= at_ /\ forall x, x ∈ events t -> timestamp x <= at_ -> timestamp x <= timestamp e
    | None => forall x, x ∈ events t -> at_ < timestamp x end).
Proof.
  intros t.
  assert (Ht : capacity t = Nat.max cap 1 /\ StronglySorted (key_le timestamp) (events t) /\ (length (events t) <= Nat.max cap 1)%nat /\
    (forall e, e ∈ events t -> e ∈ es) /\ (StronglySorted (key_le timestamp) es -> events t = Audit.last_n (Nat.max cap 1) es)).
  { unfold t. clear t. induction es as [|e es (Ec & Hs & Hl & Hin & Hlast)] using rev_ind; [split_and!; (done || cbn; lia || constructor)|].
    rewrite run_app. cbn [run foldl]. fold (run record (timeline_new cap) es). set (t := run record (timeline_new cap) es) in *.
    unfold record. cbn [events capacity]. rewrite Ec, length_app. cbn [length].
    assert (Hk : (if (Nat.max cap 1 <? length (events t) + 1)%nat then tail (events t ++ [e]) else events t ++ [e]) =
      (if (Nat.max cap 1 <=? length (events t))%nat then tail (events t) else events t) ++ [e]).
    { destruct (Nat.ltb_spec (Nat.max cap 1) (length (events t) + 1)), (Nat.leb_spec (Nat.max cap 1) (length (events t))); try lia; [|done].
      destruct (events t); [cbn in *; lia|done]. }
    rewrite Hk. split_and!; [done|apply sort_by_sorted|..].
    - rewrite sort_by_perm, length_app. destruct (Nat.leb_spec (Nat.max cap 1) (length (events t))), (events t); cbn in *; lia.
    - intros x. rewrite sort_by_perm, !elem_of_app. intros [Hx|Hx]; [|by right]. left. apply Hin. case_match; [|done].
      destruct (events t); [done|]. by right.
    - intros Hes. pose proof Hes as (_ & Hse & _)%StronglySorted_app. rewrite (Hlast Hse), Audit.last_n_push by lia.
      apply sort_by_id. apply (sorted_sublist _ _ (es ++ [e])); [apply sublist_drop|exact Hes]. }
  destruct Ht as (_ & Hs & Hl & Hin & Hlast). split_and!; try done. intros at_. unfold immediately_before.
  pose proof (latest_spec (List.filter (fun e => timestamp e <=? at_) (events t))) as Hsp. destruct (latest _) as [e|].
  - destruct Hsp as [[He Hle]%elem_of_filterb Hall]. bool_prop. split_and!; try done. intros x Hx Hxt. rewrite Forall_forall in Hall.
    apply Hall, elem_of_filterb. split; [done|]. lia.
  - intros x Hx. destruct (Z.leb_spec (timestamp x) at_) as [Hle|]; [|done]. exfalso.
    assert (Hf : x ∈ List.filter (fun e => timestamp e <=? at_) (events t)) by (apply elem_of_filterb; split; [done|lia]).
    rewrite Hsp in Hf. by apply elem_of_nil in Hf.
Qed.

(** The element dropped is the first of those held before, not the oldest: an
    event that arrives late stays and a newer one goes. *)
Definition event_at (t : Z) : timeline_event := Event t Crash None [] [].
Lemma late_event_evicts_newer :
  events (run record (timeline_new 2) [event_at 10; event_at 20; event_at 5]) = [event_at 5; event_at 20].
Proof. reflexivity. Qed.
End Alerts.

Module Profiler.
Definition SAMPLE_WINDOW : nat := 256.
Record execution_stats := Stats {
  samples_total : Z; p50_us : Z; p95_us : Z; p99_us : Z; max_us : Z; mean_us : Z; last_us : Z }.
Record resource_profile := Profile {
  resource : text; samples : list Z; total_invocations : Z; total_time_us : Z; slow_invocations : Z; slow_threshold_us : Z;
  errors : Z; warnings : Z; events_per_sec : f64; pending_async : Z; bytes_sent : Z; bytes_recv : Z }.
Definition profile_new (resource : text) (threshold : Z) : resource_profile := Profile resource [] 0 0 0 threshold 0 0 (Fin 0 0) 0 0 0.
Definition record (p : resource_profile) (micros : Z) : resource_profile :=
  Profile (resource p) ((if (SAMPLE_WINDOW <=? length (samples p))%nat then tail (samples p) else samples p) ++ [micros])
    (wrap 64 (total_invocations p + 1)) (wrap 64 (total_time_us p + micros))
    (if slow_threshold_us p <? micros then wrap 64 (slow_invocations p + 1) else slow_invocations p)
    (slow_threshold_us p) (errors p) (warnings p) (events_per_sec p) (pending_async p) (bytes_sent p) (bytes_recv p).
Definition record_error (p : resource_profile) : resource_profile :=
  Profile (resource p) (samples p) (total_invocations p) (total_time_us p) (slow_invocations p) (slow_threshold_us p)
    (wrap 64 (errors p + 1)) (warnings p) (events_per_sec p) (pending_async p) (bytes_sent p) (bytes_recv p).
Definition record_warning (p : resource_profile) : resource_profile :=
  Profile (resource p) (samples p) (total_invocations p) (total_time_us p) (slow_invocations p) (slow_threshold_us p)
    (errors p) (wrap 64 (warnings p + 1)) (events_per_sec p) (pending_async p) (bytes_sent p) (bytes_recv p).
Definition record_network (p : resource_profile) (sent recv : Z) : resource_profile :=
  Profile (resource p) (samples p) (total_invocations p) (total_time_us p) (slow_invocations p) (slow_threshold_us p)
    (errors p) (warnings p) (events_per_sec p) (pending_async p) (wrap 64 (bytes_sent p + sent)) (wrap 64 (bytes_recv p + recv)).

(** Binary64 product and ceiling of non-negative numbers. *)
Definition f64_mul (x y : f64) : f64 :=
  match x, y with
  | Fin a i, Fin b j => round_rat (a * b * 2 ^ Z.max 0 (i + j)) (2 ^ Z.max 0 (- (i + j)))
  | _, _ => Inf
  end.
Definition ceil (x : f64) : Z :=
  match x with Inf => 2 ^ 64 - 1 | Fin m e => if 0 <=? e then m * 2 ^ e else (m + (2 ^ (- e) - 1)) / 2 ^ (- e) end.
(** [(pct / 100.0 * n as f64).ceil() as usize], one less, within the samples. *)
Definition rank (pct : Z) (n : nat) : nat :=
  Nat.min (Z.to_nat (sat_sub (ceil (f64_mul (round_rat pct 100) (of_i64 (Z.of_nat n)))) 1)) (n - 1).
Definition stats (p : resource_profile) : execution_stats :=
  let n := length (samples p) in
  if (n =? 0)%nat then Stats 0 0 0 0 0 0 0
  else
    let sorted := sort_by id (samples p) in
    let at_ i := default 0 (sorted !! i) in
    Stats (total_invocations p) (at_ (rank 50 n)) (at_ (rank 95 n)) (at_ (rank 99 n)) (at_ (n - 1)%nat)
      (total_time_us p / Z.max (total_invocations p) 1) (default 0 (last (samples p))).
Definition total_cpu_ms (p : resource_profile) : Z := total_time_us p / 1000.

(** One profile per resource; [order] is the map's iteration order. *)
Record profiler := Profiler_ { profiles : gmap text resource_profile; threshold : Z }.
Definition profiler_new (threshold : Z) : profiler := Profiler_ ∅ threshold.
Definition update (pr : profiler) (name : text) (f : resource_profile -> resource_profile) : profiler :=
  match profiles pr !! name with
  | Some p => Profiler_ (<[name := f p]> (profiles pr)) (threshold pr)
  | None => pr
  end.
Definition observe (pr : profiler) (name : text) (micros : Z) : profiler :=
  Profiler_ (<[name := record (default (profile_new name (threshold pr)) (profiles pr !! name)) micros]> (profiles pr)) (threshold pr).
Definition observe_error (pr : profiler) (name : text) : profiler := update pr name record_error.
Definition observe_network (pr : profiler) (name : text) (sent recv : Z) : profiler := update pr name (fun p => record_network p sent recv).
Definition get (pr : profiler) (name : text) : option resource_profile := profiles pr !! name.
Definition by_cpu (pr : profiler) : list (text * Z) :=
  sort_by (fun x => - x.2) (prod_map id total_cpu_ms <$> map_to_list (profiles pr)).
Definition slowest_by_p95 (pr : profiler) : list (text * execution_stats) :=
  sort_by (fun x => - p95_us x.2) (prod_map id stats <$> map_to_list (profiles pr)).
Record resource_snapshot := Snapshot {
  sn_resource : text; invocations : Z; cpu_ms : Z; slow : Z; sn_errors : Z; sn_warnings : Z; sn_stats : execution_stats;
  sn_sent : Z; sn_recv : Z }.
Definition snapshot (pr : profiler) : list resource_snapshot :=
  (fun '(name, p) => Snapshot name (total_invocations p) (total_cpu_ms p) (slow_invocations p) (errors p) (warnings p) (stats p)
     (bytes_sent p) (bytes_recv p)) <$> map_to_list (profiles pr).
Lemma rank_table : forallb (fun n => forallb (fun pct => (rank pct n =? Z.to_nat ((pct * Z.of_nat n + 99) / 100) - 1)%nat) [50; 95; 99]) (seq 1 256) = true.
Proof. vm_compute. reflexivity. Qed.

(** *** Percentiles are nearest-rank values *)
Definition count (f : Z -> bool) (l : list Z) : Z := Z.of_nat (length (List.filter f l)).
(** [v] is a sample; at least [pct] percent are no larger, and fewer are smaller. *)
Definition nearest_rank (pct : Z) (l : list Z) (v : Z) : Prop :=
  v ∈ l /\ pct * len l <= 100 * count (fun x => x <=? v) l /\ 100 * count (fun x => x <? v) l < pct * len l.

Lemma rank_exact pct n : pct ∈ [50; 95; 99] -> (1 <= n <= 256)%nat -> rank pct n = (Z.to_nat ((pct * Z.of_nat n + 99) / 100) - 1)%nat.
Proof.
  intros Hp Hn. pose proof rank_table as Ht. rewrite forallb_forall in Ht. specialize (Ht n (proj2 (in_seq 256 1 n) ltac:(lia))).
  rewrite forallb_forall in Ht. specialize (Ht pct (proj1 (list_elem_of_In _ _) Hp)). by apply Nat.eqb_eq in Ht.
Qed.

Lemma count_perm f l k : l ≡ₚ k -> count f l = count f k.
Proof. intros Hp. unfold count. induction Hp as [|x l k _ IH|x y l|l k m _ IH1 _ IH2]; cbn; repeat case_match; cbn; lia. Qed.

Lemma count_app f l k : count f (l ++ k) = count f l + count f k.
Proof. unfold count. rewrite List.filter_app, length_app. lia. Qed.

Lemma count_all f l : Forall (fun x => f x = true) l -> count f l = len l.
Proof. unfold count, len. induction 1 as [|x l Hx _ IH]; [done|]. cbn. rewrite Hx. cbn. lia. Qed.

Lemma count_none f l : Forall (fun x => f x = false) l -> count f l = 0.
Proof. unfold count. induction 1 as [|x l Hx _ IH]; [done|]. cbn. by rewrite Hx. Qed.

Lemma count_bounds f l : 0 <= count f l <= len l.
Proof. unfold count, len. pose proof (length_filterb_le f l). lia. Qed.

Lemma sorted_rank l i v : StronglySorted (key_le id) l -> l !! i = Some v ->
  Z.of_nat i + 1 <= count (fun x => x <=? v) l /\ count (fun x => x <? v) l <= Z.of_nat i.
Proof.
  intros Hs Hi. pose proof (lookup_lt_Some _ _ _ Hi) as Hlt.
  rewrite <- (take_drop_middle l i v Hi) in Hs |- *. apply StronglySorted_app in Hs as (Hle & _ & Hd).
  apply StronglySorted_inv in Hd as [_ Hd]. rewrite !count_app.
  assert (Hl : len (take i l) = Z.of_nat i) by (unfold len; rewrite length_take; lia).
  rewrite (count_all (fun x => x <=? v) (take i l)), Hl.
  2: { apply Forall_forall. intros x Hx. specialize (Hle x v Hx ltac:(left)). unfold key_le, id in Hle. lia. }
  change (v :: drop (S i) l) with ([v] ++ drop (S i) l). rewrite !count_app.
  rewrite (count_none (fun x => x <? v) (drop (S i) l)).
  2: { eapply Forall_impl; [exact Hd|]. unfold key_le, id. cbn. lia. }
  pose proof (count_bounds (fun x => x <? v) (take i l)). pose proof (count_bounds (fun x => x <=? v) (drop (S i) l)).
  unfold count at 1 4. cbn. rewrite Z.leb_refl, Z.ltb_irrefl. cbn. lia.
Qed.

Lemma percentile l pct : pct ∈ [50; 95; 99] -> l <> [] -> (length l <= 256)%nat ->
  nearest_rank pct l (default 0 (sort_by id l !! rank pct (length l))).
Proof.
  intros Hp Hne Hn. assert (Hl : (1 <= length l <= 256)%nat) by (destruct l; [done|cbn in *; lia]).
  rewrite (rank_exact pct _ Hp Hl). assert (Hr : 0 < pct <= 99) by (rewrite !elem_of_cons, elem_of_nil in Hp; lia).
  set (r := (pct * Z.of_nat (length l) + 99) / 100).
  assert (Hd : 1 <= r <= Z.of_nat (length l) /\ pct * Z.of_nat (length l) <= 100 * r < pct * Z.of_nat (length l) + 100).
  { pose proof (Z.div_mod (pct * Z.of_nat (length l) + 99) 100 ltac:(lia)) as Hdm.
    pose proof (Z.mod_pos_bound (pct * Z.of_nat (length l) + 99) 100 ltac:(lia)). fold r in Hdm. nia. }
  destruct (sort_by id l !! (Z.to_nat r - 1)%nat) as [v|] eqn:E.
  2: { apply lookup_ge_None_1 in E. rewrite sort_by_perm in E. lia. }
  cbn. destruct (sorted_rank _ _ _ (sort_by_sorted id l) E) as [H1 H2].
  rewrite (count_perm _ _ _ (sort_by_perm id l)) in H1. rewrite (count_perm _ _ _ (sort_by_perm id l)) in H2.
  unfold nearest_rank, len. split_and!; [|lia|lia]. rewrite <- (sort_by_perm id l). by eapply list_elem_of_lookup_2.
Qed.

Lemma largest l : l <> [] -> default 0 (sort_by id l !! (length l - 1)%nat) ∈ l /\
  Forall (fun x => x <= default 0 (sort_by id l !! (length l - 1)%nat)) l.
Proof.
  intros Hne. assert (Hl : (1 <= length l)%nat) by (destruct l; [done|cbn; lia]).
  destruct (sort_by id l !! (length l - 1)%nat) as [v|] eqn:E.
  2: { apply lookup_ge_None_1 in E. rewrite sort_by_perm in E. lia. }
  cbn. split; [rewrite <- (sort_by_perm id l); by eapply list_elem_of_lookup_2|].
  destruct (sorted_rank _ _ _ (sort_by_sorted id l) E) as [H1 _]. rewrite (count_perm _ _ _ (sort_by_perm id l)) in H1.
  apply Forall_forall. intros x Hx. destruct (Z.leb_spec x v) as [|Hgt]; [done|exfalso].
  assert (Hc : count (fun x => x <=? v) l < len l); [|unfold len in Hc; lia].
  apply elem_of_Permutation in Hx as [k Hk]. rewrite (count_perm _ _ _ Hk). unfold len. rewrite Hk.
  pose proof (count_bounds (fun x => x <=? v) k). unfold count, len in *. cbn.
  rewrite (proj2 (Z.leb_gt _ _) Hgt). lia.
Qed.

(** After any executions of a resource's handlers: the window holds the last
    256 times; the totals count all of them modulo 2^64, and the slow ones; the
    median, the 95th and the 99th percentile, computed in floating point, are
    exactly the nearest-rank percentiles of the window, and the maximum is its
    largest time. *)
Theorem profile_window (name : text) (limit : Z) (xs : list Z) :
  xs <> [] ->
  let p := run record (profile_new name limit) xs in
  let w := Audit.last_n SAMPLE_WINDOW xs in
  samples p = w /\ total_invocations p = wrap 64 (len xs) /\ total_time_us p = wrap 64 (sum_list xs) /\
  slow_invocations p = wrap 64 (count (fun x => limit <? x) xs) /\
  nearest_rank 50 w (p50_us (stats p)) /\ nearest_rank 95 w (p95_us (stats p)) /\ nearest_rank 99 w (p99_us (stats p)) /\
  max_us (stats p) ∈ w /\ Forall (fun x => x <= max_us (stats p)) w /\ last xs = Some (last_us (stats p)).
Proof.
  intros Hne p w.
  assert (Hp : samples p = w /\ total_invocations p = wrap 64 (len xs) /\ total_time_us p = wrap 64 (sum_list xs) /\
    slow_invocations p = wrap 64 (count (fun x => limit <? x) xs) /\ slow_threshold_us p = limit).
  { unfold p, w. clear. induction xs as [|x xs (Hs & Hi & Ht & Hl & Hth)] using rev_ind; [done|].
    rewrite run_app. cbn [run foldl]. fold (run record (profile_new name limit) xs). set (q := run record _ xs) in *. unfold record. cbn [samples total_invocations total_time_us slow_invocations slow_threshold_us].
    rewrite Hs, Hi, Ht, Hl, Hth, Audit.last_n_push by (unfold SAMPLE_WINDOW; lia).
    rewrite len_app, sum_list_app, count_app, !wrap_add_l. change (len [x]) with 1. cbn [sum_list foldr]. rewrite Z.add_0_r.
    split_and!; try done. unfold count at 4. cbn [List.filter]. destruct (limit <? x); cbn [length]; [done|]. by rewrite Z.add_0_r. }
  destruct Hp as (Hs & Hi & Ht & Hl & _). split_and!; try done.
  all: assert (Hw : w <> []) by (unfold w, Audit.last_n, SAMPLE_WINDOW; intros E; apply (f_equal length) in E; rewrite length_drop in E; destruct xs; [done|cbn in E; lia]).
  all: assert (Hlen : (length w <= 256)%nat) by (unfold w, Audit.last_n, SAMPLE_WINDOW; rewrite length_drop; lia).
  all: unfold stats; rewrite Hs, (proj2 (Nat.eqb_neq (length w) 0)) by (destruct w; done); cbn [p50_us p95_us p99_us max_us last_us].
  1-3: apply percentile; try done; set_solver.
  - by apply largest.
  - by apply largest.
  - unfold w, Audit.last_n. destruct (last xs) as [x|] eqn:E; [|by apply last_None in E]. apply last_Some in E as [k ->].
    rewrite drop_app_le by (rewrite length_app; unfold SAMPLE_WINDOW; cbn; lia). by rewrite last_snoc.
Qed.

Lemma profile_window_witness : samples (run record (profile_new [] 50) [10; 100; 200]) = [10; 100; 200] /\
  p95_us (stats (run record (profile_new [] 50) [10; 100; 200])) = 200.
Proof.
  split; [|vm_compute; reflexivity]. exact (proj1 (profile_window [] 50 [10; 100; 200] ltac:(done))).
Defined.
End Profiler.
