(* ===== verification/Release.v ===== *)
(** What is released and kept: signed packages (crates/ald-package/src/lib.rs,
    module [Package]), the artifact catalog (crates/ald-updater/src/lib.rs,
    [Updater]), backups and the lockfile (crates/ald-backup/src/lib.rs,
    [Backup]) and the registry scanner (crates/ald-package-scanner/src/lib.rs,
    [Scanner]). SHA-256 and Ed25519 are parameters. *)
From S2P Require Import Prelude RustStr Bytes.
#[local] Arguments digits : simpl never.

(** [to_string] of a u64. *)
Definition to_string (n : Z) : text := digits 20 n [].

(** ed25519-dalek: keys it accepts, the check of a signature, and signing. *)
Class Ed25519 := {
  valid_key : list Z -> bool;
  verifies : list Z -> list Z -> list Z -> bool;
  public_of : list Z -> list Z;
  sign_bytes : list Z -> list Z -> list Z }.
Class Ed25519Laws (E : Ed25519) := {
  public_length : forall sk, length (public_of sk) = 32%nat;
  public_bytes : forall sk, byte_list (public_of sk);
  public_valid : forall sk, valid_key (public_of sk) = true;
  sign_length : forall sk m, length (sign_bytes sk m) = 64%nat;
  sign_byte_list : forall sk m, byte_list (sign_bytes sk m);
  sign_verifies : forall sk m, verifies (public_of sk) m (sign_bytes sk m) = true }.
(** SHA-256 of a message. *)
Class Sha256 := sha256 : list Z -> list Z.

Definition sha256_hex `{Sha256} (data : list Z) : text := hex (sha256 data).

Module Package.
Inductive protection_policy := Open | Signed | Protected | Private.
#[global] Instance protection_policy_eq_dec : EqDecision protection_policy.
Proof. solve_decision. Defined.
Definition policy_str (p : protection_policy) : text :=
  codes match p with Open => "OPEN" | Signed => "SIGNED" | Protected => "PROTECTED" | Private => "PRIVATE" end.
Record file_hash := FileHash { path : text; sha256_of : text; size : Z }.
Record signature := Signature_ { algorithm : text; public_key_hex : text; signature_hex : text }.
Record package_manifest := Manifest {
  package_id : text; publisher_id : text; name : text; version : text; minimum_runtime : text; framework : option text;
  dependencies : list text; file_hashes : list file_hash; total_size : Z; protection : protection_policy;
  entitlement_model : text; sig : signature }.
Inductive package_error :=
  | Malformed (what : text) | HashMismatch (path expected actual : text) | BadSignature (id : text) | MissingSignature (id : text)
  | UnsupportedAlgorithm (name : text).

Definition ALGO : text := codes "ed25519".
Definition hex_decode_fixed (n : nat) (h : text) : option (list Z) :=
  v ← hex_decode h; if bool_decide (length v = n) then Some v else None.

Section package.
Context `{Ed25519, Sha256}.

Definition sign (signing_key message : list Z) : signature :=
  Signature_ ALGO (hex (public_of signing_key)) (hex (sign_bytes signing_key message)).
Definition verify (s : signature) (package_id : text) (message : list Z) : result unit package_error :=
  if negb (bool_decide (algorithm s = ALGO)) then Err (UnsupportedAlgorithm (algorithm s))
  else
    let? pk := ok_or (hex_decode_fixed 32 (public_key_hex s)) (Malformed (codes "public key")) in
    let? sg := ok_or (hex_decode_fixed 64 (signature_hex s)) (Malformed (codes "signature")) in
    if negb (valid_key pk) then Err (Malformed (codes "public key"))
    else if verifies pk message sg then Ok tt else Err (BadSignature package_id).

Definition field (t : text) : list Z := t ++ [0].
Definition canonical_manifest_bytes (m : package_manifest) : list Z :=
  field (package_id m) ++ field (publisher_id m) ++ field (name m) ++ field (version m) ++ field (minimum_runtime m) ++
  field (default [] (framework m)) ++
  concat (field <$> dependencies m) ++
  concat ((fun fh => field (path fh) ++ field (sha256_of fh) ++ field (to_string (size fh))) <$> file_hashes m) ++
  field (to_string (total_size m)) ++ field (policy_str (protection m)) ++ entitlement_model m.

Definition verify_payloads (m : package_manifest) (payloads : gmap text (list Z)) : result unit package_error :=
  try_each (fun fh =>
    let? data := ok_or (payloads !! path fh) (Malformed (codes "missing payload '" ++ path fh ++ codes "'")) in
    let actual := sha256_hex data in
    if negb (bool_decide (actual = sha256_of fh)) then Err (HashMismatch (path fh) (sha256_of fh) actual) else Ok tt) (file_hashes m).
Definition verify_package (m : package_manifest) (payloads : gmap text (list Z)) : result unit package_error :=
  let? _ := match protection m with
    | Open => Ok tt
    | Signed | Protected | Private => verify (sig m) (package_id m) (canonical_manifest_bytes m)
    end in
  verify_payloads m payloads.

(** *** Verification is sound and complete for what it checks *)
Definition with_sig (m : package_manifest) (s : signature) : package_manifest :=
  Manifest (package_id m) (publisher_id m) (name m) (version m) (minimum_runtime m) (framework m) (dependencies m) (file_hashes m)
    (total_size m) (protection m) (entitlement_model m) s.
Definition listed (m : package_manifest) (payloads : gmap text (list Z)) : Prop :=
  forall fh, fh ∈ file_hashes m -> exists data, payloads !! path fh = Some data /\ sha256_hex data = sha256_of fh.
Definition signature_holds (m : package_manifest) : Prop :=
  algorithm (sig m) = ALGO /\ exists pk sg, hex_decode_fixed 32 (public_key_hex (sig m)) = Some pk /\
    hex_decode_fixed 64 (signature_hex (sig m)) = Some sg /\ valid_key pk = true /\ verifies pk (canonical_manifest_bytes m) sg = true.

Lemma payloads_ok m payloads : verify_payloads m payloads = Ok tt <-> listed m payloads.
Proof.
  unfold verify_payloads. rewrite try_each_ok, Forall_forall. apply forall_proper. intros fh. apply imp_iff_compat_l.
  destruct (payloads !! path fh) as [data|]; cbn [ok_or rbind]; [|naive_solver].
  destruct (bool_decide (sha256_hex data = sha256_of fh)) eqn:E; bool_prop; cbn; naive_solver.
Qed.

Lemma verify_ok m : verify (sig m) (package_id m) (canonical_manifest_bytes m) = Ok tt <-> signature_holds m.
Proof.
  unfold verify, signature_holds. destruct (bool_decide (algorithm (sig m) = ALGO)) eqn:E; bool_prop; cbn [negb]; [|naive_solver].
  destruct (hex_decode_fixed 32 _) as [pk|]; cbn [ok_or rbind]; [|naive_solver].
  destruct (hex_decode_fixed 64 _) as [sg|]; cbn [ok_or rbind]; [|naive_solver].
  split.
  - destruct (valid_key pk) eqn:Ev; [|done]. destruct (verifies pk _ sg) eqn:Es; [|done]. intros _. split; [done|]. by exists pk, sg.
  - intros (_ & pk' & sg' & [= <-] & [= <-] & Ev & Es). by rewrite Ev, Es.
Qed.

Lemma package_ok m payloads : verify_package m payloads = Ok tt <-> (protection m = Open \/ signature_holds m) /\ listed m payloads.
Proof.
  unfold verify_package. rewrite <- payloads_ok, <- verify_ok.
  destruct (protection m); cbn [rbind]; [naive_solver|..]; destruct (verify _ _ _) as [[]|]; cbn [rbind]; naive_solver.
Qed.

Lemma hex_fixed n l : byte_list l -> length l = n -> hex_decode_fixed n (hex l) = Some l.
Proof. intros Hb Hl. unfold hex_decode_fixed. rewrite hex_decode_hex by done. cbn. by rewrite bool_decide_eq_true_2. Qed.

(** C32: A package verifies exactly when it is open or its signature holds over the
    canonical bytes, and every listed file is there with its hash; and what a
    publisher signs, with matching payloads, verifies. *)
Theorem package_verified {laws : Ed25519Laws _} (m : package_manifest) (payloads : gmap text (list Z)) (sk : list Z) :
  (verify_package m payloads = Ok tt <-> (protection m = Open \/ signature_holds m) /\ listed m payloads) /\
  (listed m payloads -> verify_package (with_sig m (sign sk (canonical_manifest_bytes m))) payloads = Ok tt).
Proof.
  split; [apply package_ok|]. intros Hl. apply package_ok. split; [right|exact Hl].
  split; [done|]. exists (public_of sk), (sign_bytes sk (canonical_manifest_bytes m)). cbn [sig with_sig sign public_key_hex signature_hex].
  split_and!; [apply hex_fixed; [apply public_bytes|apply public_length]|apply hex_fixed; [apply sign_byte_list|apply sign_length]|apply public_valid|].
  apply sign_verifies.
Qed.

(** *** The canonical bytes do not tell a dependency from a file hash *)
Definition hidden (m : package_manifest) : package_manifest :=
  Manifest (package_id m) (publisher_id m) (name m) (version m) (minimum_runtime m) (framework m)
    (dependencies m ++ concat ((fun fh => [path fh; sha256_of fh; to_string (size fh)]) <$> file_hashes m)) []
    (total_size m) (protection m) (entitlement_model m) (sig m).

Lemma hidden_bytes m : canonical_manifest_bytes (hidden m) = canonical_manifest_bytes m.
Proof.
  unfold canonical_manifest_bytes, hidden. cbn [package_id publisher_id name version minimum_runtime framework dependencies file_hashes total_size protection entitlement_model].
  do 6 f_equal. rewrite fmap_app, concat_app, <- app_assoc. f_equal. change (concat ((fun fh => _) <$> [])) with (@nil Z). cbn [app]. f_equal.
  induction (file_hashes m) as [|fh l IH]; [done|]. rewrite !fmap_cons. cbn [concat]. rewrite fmap_app, concat_app, IH. f_equal.
  cbn. by rewrite app_nil_r.
Qed.

(** C33: A signed manifest keeps its signature when its file hashes are written as
    dependencies instead, and then lists no file: whatever payload is shipped
    with it verifies. *)
Theorem signature_not_binding (m : package_manifest) (payloads : gmap text (list Z)) :
  canonical_manifest_bytes (hidden m) = canonical_manifest_bytes m /\
  (verify_package m payloads = Ok tt -> forall shipped, verify_package (hidden m) shipped = Ok tt).
Proof.
  split; [apply hidden_bytes|]. intros [Hs _]%package_ok shipped. apply package_ok. split; [|intros fh []%elem_of_nil].
  destruct Hs as [|(Ha & pk & sg & Hp & Hg & Hv & Hok)]; [by left|right]. split; [done|]. exists pk, sg. by rewrite hidden_bytes.
Qed.
End package.

(** *** A publisher, run *)
Definition toy_keys : Ed25519 := {|
  valid_key _ := true;
  verifies pk m sg := bool_decide (sg = replicate 64 (wrap 8 (default 0 (head pk) + sum_list m)));
  public_of sk := replicate 32 (wrap 8 (sum_list sk));
  sign_bytes sk m := replicate 64 (wrap 8 (sum_list sk + sum_list m)) |}.
Definition toy_sha : Sha256 := fun m => replicate 32 (wrap 8 (sum_list m)).
#[global] Instance toy_keys_laws : Ed25519Laws toy_keys.
Proof.
  split; intros; cbn [public_of sign_bytes verifies valid_key toy_keys]; try apply length_replicate; try done;
    try (apply Forall_replicate, wrap_fits; lia).
  apply bool_decide_eq_true. f_equal. symmetry. apply (wrap_add_l 8).
Qed.

Definition tool : package_manifest :=
  Manifest (codes "tool") (codes "ann") [] (codes "1") [] None [] [FileHash (codes "a.lua") (sha256_hex (H:=toy_sha) [1; 2]) 2] 2 Signed [] (Signature_ [] [] []).
Lemma package_verified_witness : let payloads := {[codes "a.lua" := [1; 2]]} in
  listed (H0:=toy_sha) tool payloads /\
  verify_package (H:=toy_keys) (H0:=toy_sha) (with_sig tool (sign (H:=toy_keys) [7] (canonical_manifest_bytes tool))) payloads = Ok tt.
Proof.
  assert (Hl : listed (H0:=toy_sha) tool {[codes "a.lua" := [1; 2]]}).
  { intros fh ->%list_elem_of_singleton. exists [1; 2]. by split. }
  split; [exact Hl|]. exact (proj2 (package_verified (H:=toy_keys) (H0:=toy_sha) tool {[codes "a.lua" := [1; 2]]} [7]) Hl).
Defined.
End Package.

Module Updater.
Inductive release_channel := Development | Nightly | Canary | Beta | Recommended | Stable.
Inductive platform := WindowsX86_64 | LinuxX86_64.
#[global] Instance release_channel_eq_dec : EqDecision release_channel.
Proof. solve_decision. Defined.
#[global] Instance platform_eq_dec : EqDecision platform.
Proof. solve_decision. Defined.
Definition all_channels : list release_channel := [Development; Nightly; Canary; Beta; Recommended; Stable].
Definition channel_index (c : release_channel) : nat :=
  match c with Development => 0 | Nightly => 1 | Canary => 2 | Beta => 3 | Recommended => 4 | Stable => 5 end%nat.
Definition platform_index (p : platform) : nat := match p with WindowsX86_64 => 0 | LinuxX86_64 => 1 end%nat.
#[global] Instance release_channel_countable : Countable release_channel.
Proof. by apply (inj_countable' channel_index (fun n => default Stable (all_channels !! n))); intros []. Defined.
#[global] Instance platform_countable : Countable platform.
Proof. by apply (inj_countable' platform_index (fun n => match n with O => WindowsX86_64 | _ => LinuxX86_64 end)); intros []. Defined.

Record sbom_component := Component { c_name : text; c_version : text; license : text; purl : text; c_sha256 : text }.
Record sbom_document := Sbom { sbom_id : text; sbom_artifact : text; components : list sbom_component; document_sha256 : text }.
Definition compute_checksum `{Sha256} (d : sbom_document) : text :=
  sha256_hex (sbom_id d ++ sbom_artifact d ++ concat ((fun c => c_name c ++ c_version c ++ c_sha256 c) <$> components d)).

Record artifact_record := Artifact {
  artifact_id : text; version : text; channel : release_channel; on_platform : platform; sha256_of : text; size_bytes : Z;
  download_url : text; public_key_hex : text; signature_hex : text; sbom_sha256 : text; rollback_target_id : option text }.
Inductive update_error :=
  | ArtifactAlreadyExists (id : text) | ArtifactNotFound (id : text) | InvalidHexKey (what : text) | InvalidHexSignature (what : text)
  | SignatureVerificationFailed | NoRollbackAvailable (id : text).

Definition canonical_signed_bytes (a : artifact_record) : list Z :=
  artifact_id a ++ codes ":" ++ version a ++ codes ":" ++ to_string (Z.of_nat (platform_index (on_platform a))) ++ codes ":" ++ sha256_of a.

Record release_catalog := Catalog {
  artifacts : gmap text artifact_record; by_channel_platform : gmap (release_channel * platform) (list text) }.
Definition catalog_new : release_catalog := Catalog ∅ ∅.

Section catalog.
Context `{Ed25519}.

Definition verify_signature (a : artifact_record) : result unit update_error :=
  let? key_bytes := ok_or (hex_decode (public_key_hex a)) (InvalidHexKey (public_key_hex a)) in
  let? sig_bytes := ok_or (hex_decode (signature_hex a)) (InvalidHexSignature (signature_hex a)) in
  if negb (length key_bytes =? 32)%nat then Err (InvalidHexKey (codes "expected 32-byte key"))
  else if negb (length sig_bytes =? 64)%nat then Err (InvalidHexSignature (codes "expected 64-byte signature"))
  else if negb (valid_key key_bytes) then Err (InvalidHexKey (codes "invalid ed25519 key bytes"))
  else if verifies key_bytes (canonical_signed_bytes a) sig_bytes then Ok tt else Err SignatureVerificationFailed.

Definition register (c : release_catalog) (a : artifact_record) : result release_catalog update_error :=
  if bool_decide (is_Some (artifacts c !! artifact_id a)) then Err (ArtifactAlreadyExists (artifact_id a))
  else
    let? _ := verify_signature a in
    let key := (channel a, on_platform a) in
    Ok (Catalog (<[artifact_id a := a]> (artifacts c))
          (<[key := default [] (by_channel_platform c !! key) ++ [artifact_id a]]> (by_channel_platform c))).
Definition get (c : release_catalog) (id : text) : option artifact_record := artifacts c !! id.
Definition get_latest (c : release_catalog) (ch : release_channel) (p : platform) : option artifact_record :=
  l ← by_channel_platform c !! (ch, p); latest ← last l; get c latest.
Definition resolve_rollback (c : release_catalog) (current : text) : result artifact_record update_error :=
  let? cur := ok_or (get c current) (ArtifactNotFound current) in
  let? target := ok_or (rollback_target_id cur) (NoRollbackAvailable current) in
  ok_or (get c target) (ArtifactNotFound target).

Record update_plan := Plan {
  current_version : text; target_version : text; is_update_available : bool; artifact : option artifact_record;
  rollback_available : bool }.
Definition check (current : text) (ch : release_channel) (p : platform) (c : release_catalog) : update_plan :=
  match get_latest c ch p with
  | Some latest =>
      Plan current (version latest) (negb (bool_decide (version latest = current))) (Some latest)
        (bool_decide (is_Some (rollback_target_id latest)))
  | None => Plan current current false None false
  end.

(** *** The catalog is the list of the records it accepted *)
Definition step (c : release_catalog) (a : artifact_record) : release_catalog := match register c a with Ok c => c | Err _ => c end.
Definition accept (l : list artifact_record) (a : artifact_record) : list artifact_record :=
  if bool_decide (artifact_id a ∈ artifact_id <$> l) then l else match verify_signature a with Ok _ => l ++ [a] | Err _ => l end.
Definition accepted (hist : list artifact_record) : list artifact_record := foldl accept [] hist.
Definition for_channel (ch : release_channel) (p : platform) (a : artifact_record) : bool :=
  bool_decide ((channel a, on_platform a) = (ch, p)).

Lemma accepted_facts hist :
  let l := accepted hist in
  Forall (fun a => verify_signature a = Ok tt) l /\ NoDup (artifact_id <$> l).
Proof.
  induction hist as [|a hist [Hv Hn]] using rev_ind; [split; constructor|]. unfold accepted in *. rewrite foldl_app. cbn. unfold accept at 1 3.
  case_bool_decide as Hin; [done|]. destruct (verify_signature a) as [[]|] eqn:Ev; [|done]. split.
  - apply Forall_app. split; [done|by constructor].
  - rewrite fmap_app. cbn. apply NoDup_app. split_and!; [done|set_solver|apply NoDup_singleton].
Qed.

Lemma catalog_is hist :
  let c := run step catalog_new hist in
  artifacts c = list_to_map ((fun a => (artifact_id a, a)) <$> accepted hist) /\
  (forall ch p, default [] (by_channel_platform c !! (ch, p)) = artifact_id <$> List.filter (for_channel ch p) (accepted hist)).
Proof.
  induction hist as [|a hist [Ha Hb]] using rev_ind; [split; [done|by intros]|].
  rewrite run_app. cbn [run foldl]. fold (run step catalog_new hist). set (c := run step catalog_new hist) in *.
  unfold accepted in *. rewrite foldl_app. cbn [foldl]. set (l := foldl accept [] hist) in *.
  unfold step, register, accept.
  assert (Hin : bool_decide (is_Some (artifacts c !! artifact_id a)) = bool_decide (artifact_id a ∈ artifact_id <$> l)).
  { apply bool_decide_ext. rewrite Ha. rewrite <- not_eq_None_Some, <- not_elem_of_list_to_map, <- list_fmap_compose.
    destruct (decide (artifact_id a ∈ artifact_id <$> l)); unfold compose; cbn; naive_solver. }
  rewrite Hin. clear Hin. case_bool_decide as Hni; [by split|]. destruct (verify_signature a) as [[]|] eqn:Ev; cbn [rbind]; [|by split]. split.
  - cbn [artifacts]. rewrite Ha, fmap_app, list_to_map_app. cbn. rewrite <- insert_union_r; [by rewrite map_union_empty|].
    apply not_elem_of_list_to_map. by rewrite <- list_fmap_compose.
  - intros ch p. cbn [by_channel_platform]. rewrite List.filter_app, fmap_app. cbn. unfold for_channel at 2.
    destruct (decide ((channel a, on_platform a) = (ch, p))) as [E|Hne].
    + rewrite E, lookup_insert_eq, bool_decide_eq_true_2, Hb by done. done.
    + rewrite lookup_insert_ne, bool_decide_eq_false_2, Hb, app_nil_r by done. done.
Qed.

(** The catalog is append-only: a record that was accepted is answered for its
    id ever after and its signature holds; ids are unique; and the latest record of a
    channel and platform is the last one accepted for them. *)
Theorem catalog_history (hist later : list artifact_record) (id : text) (ch : release_channel) (p : platform) :
  let c := run step catalog_new (hist ++ later) in
  (forall a, get (run step catalog_new hist) id = Some a -> get c id = Some a) /\
  (forall a, get c id = Some a <-> a ∈ accepted (hist ++ later) /\ artifact_id a = id) /\
  Forall (fun a => verify_signature a = Ok tt) (accepted (hist ++ later)) /\
  get_latest c ch p = last (List.filter (for_channel ch p) (accepted (hist ++ later))).
Proof.
  assert (Hget : forall h a, get (run step catalog_new h) id = Some a <-> a ∈ accepted h /\ artifact_id a = id).
  { intros h a. unfold get. rewrite (proj1 (catalog_is h)). destruct (accepted_facts h) as [_ Hn].
    rewrite <- elem_of_list_to_map by (by rewrite <- list_fmap_compose). rewrite list_elem_of_fmap. naive_solver. }
  intros c. split_and!.
  - intros a [Ha Hi]%Hget. apply Hget. split; [|done]. unfold accepted in *. rewrite foldl_app.
    assert (Hmono : forall l k, a ∈ k -> a ∈ foldl accept k l); [|by apply Hmono].
    intros l. induction l as [|x l IH]; intros k Hk; [done|]. cbn. apply IH. unfold accept. repeat case_match; set_solver.
  - intros a. apply Hget.
  - apply accepted_facts.
  - unfold get_latest. destruct (catalog_is (hist ++ later)) as [_ Hb]. specialize (Hb ch p). fold c in Hb.
    set (l := List.filter _ _) in *. destruct (last l) as [a|] eqn:El.
    + destruct (by_channel_platform c !! (ch, p)) as [ids|]; cbn in *; subst; [|destruct l; done].
      rewrite fmap_last, El. cbn. unfold c, get. apply last_Some in El as [k Ek].
      assert (Hin : a ∈ l) by (rewrite Ek; set_solver). unfold l in Hin. apply elem_of_filterb in Hin as [Hin _].
      rewrite (proj1 (catalog_is _)). apply elem_of_list_to_map_1; [rewrite <- list_fmap_compose; apply accepted_facts|].
      apply list_elem_of_fmap. by exists a.
    + apply last_None in El. rewrite El in Hb. destruct (by_channel_platform c !! (ch, p)) as [ids|]; cbn in *; [by subst|done].
Qed.

(** *** What the signature leaves open *)
Definition republished (a : artifact_record) (ch : release_channel) (size : Z) (url sbom : text) (rollback : option text) : artifact_record :=
  Artifact (artifact_id a) (version a) ch (on_platform a) (sha256_of a) size url (public_key_hex a) (signature_hex a) sbom rollback.

(** The channel, the size, the address, the SBOM digest and the rollback target
    of a signed artifact can be replaced; and the colon does not delimit, so an
    id and a version can trade text. *)
Lemma unsigned_fields (a : artifact_record) ch size url sbom rollback :
  verify_signature (republished a ch size url sbom rollback) = verify_signature a.
Proof. done. Qed.
Lemma ambiguous_payload ch p h s u k g b r :
  canonical_signed_bytes (Artifact (codes "tool:1") (codes "2") ch p h s u k g b r) =
  canonical_signed_bytes (Artifact (codes "tool") (codes "1:2") ch p h s u k g b r).
Proof. done. Qed.
(** An older version in the channel is offered as an update. *)
Lemma downgrade_offered c ch p latest current : get_latest c ch p = Some latest -> version latest <> current ->
  is_update_available (check current ch p c) = true.
Proof. intros E Hne. unfold check. rewrite E. cbn. by rewrite bool_decide_eq_false_2. Qed.
End catalog.
End Updater.

Module Backup.
Inductive backup_kind := Full | Incremental (parent : text).
Record backup_entry := Entry { relative_path : text; sha256_of : text; entry_size : Z }.
Record backup_manifest := Manifest {
  backup_id : text; created_at_utc : text; kind : backup_kind; server_version : text; db_migration_version : Z;
  entries : list backup_entry; total_bytes : Z }.
Record locked_package := Locked { lp_name : text; lp_version : text; lp_publisher : text; lp_sha256 : text }.
Record aldivine_lock := Lock { lock_version : Z; packages : list locked_package }.
Definition lock_new : aldivine_lock := Lock 1 [].
Inductive backup_error :=
  | EmptyBackup | EntryNotFound (path : text) | HashMismatch (path expected actual : text)
  | IncompatibleDbMigration (backup target : Z) | PackageNotFoundInLock (name : text)
  | LockHashMismatch (package expected actual : text).
Definition verify_locked (l : aldivine_lock) (name expected : text) : result unit backup_error :=
  let? pkg := ok_or (List.find (fun p => bool_decide (lp_name p = name)) (packages l)) (PackageNotFoundInLock name) in
  if negb (bool_decide (lp_sha256 pkg = expected)) then Err (LockHashMismatch name (lp_sha256 pkg) expected) else Ok tt.

Record backup_archive := Archive { manifest : backup_manifest; files : gmap text (list Z) }.
Record restore_plan := RestorePlan { plan_id : text; file_count : nat; plan_bytes : Z; requires_migration_sync : bool }.

Section backup.
Context `{Sha256}.

Definition compute_content_hash (m : backup_manifest) : text :=
  sha256_hex (backup_id m ++ server_version m ++ le_bytes 8 (wrap 64 (db_migration_version m)) ++
    concat ((fun e => relative_path e ++ sha256_of e ++ le_bytes 8 (entry_size e)) <$> entries m)).
(** The files are listed in the order of their paths. *)
Definition entry_of (f : text * list Z) : backup_entry := Entry f.1 (sha256_hex f.2) (len f.2).
Definition create (id : text) (k : backup_kind) (server : text) (db : Z) (fs : gmap text (list Z)) : result backup_archive backup_error :=
  if bool_decide (fs = ∅) then Err EmptyBackup
  else
    let listed := in_order fs in
    Ok (Archive (Manifest id (codes "2026-09-16T00:00:00Z") k server db (entry_of <$> listed)
          (foldl (fun t f => wrap 64 (t + len f.2)) 0 listed)) fs).
Definition verify_integrity (a : backup_archive) : result unit backup_error :=
  try_each (fun e =>
    let? content := ok_or (files a !! relative_path e) (EntryNotFound (relative_path e)) in
    let actual := sha256_hex content in
    if negb (bool_decide (actual = sha256_of e)) then Err (HashMismatch (relative_path e) (sha256_of e) actual) else Ok tt)
    (entries (manifest a)).
Definition plan_restore (a : backup_archive) (target : Z) (allow_gap : bool) : result restore_plan backup_error :=
  let? _ := verify_integrity a in
  let sync := negb (db_migration_version (manifest a) =? target) in
  if sync && negb allow_gap then Err (IncompatibleDbMigration (db_migration_version (manifest a)) target)
  else Ok (RestorePlan (backup_id (manifest a)) (length (entries (manifest a))) (total_bytes (manifest a)) sync).

(** *** A backup restores what it was made of *)
Lemma integrity_ok a : verify_integrity a = Ok tt <->
  forall e, e ∈ entries (manifest a) -> exists c, files a !! relative_path e = Some c /\ sha256_hex c = sha256_of e.
Proof.
  unfold verify_integrity. rewrite try_each_ok, Forall_forall. apply forall_proper. intros e. apply imp_iff_compat_l.
  destruct (files a !! relative_path e) as [c|]; cbn [ok_or rbind]; [|naive_solver].
  destruct (bool_decide (sha256_hex c = sha256_of e)) eqn:E; bool_prop; cbn; naive_solver.
Qed.

Lemma plan_ok a target gap p : plan_restore a target gap = Ok p <->
  verify_integrity a = Ok tt /\ (gap = false -> db_migration_version (manifest a) = target) /\
  p = RestorePlan (backup_id (manifest a)) (length (entries (manifest a))) (total_bytes (manifest a))
        (negb (db_migration_version (manifest a) =? target)).
Proof.
  unfold plan_restore. destruct (verify_integrity a) as [[]|]; cbn [rbind]; [|naive_solver].
  destruct (Z.eqb_spec (db_migration_version (manifest a)) target), gap; cbn; naive_solver.
Qed.

(** A backup is made of any non-empty set of files; it lists each file once,
    with its hash and size, and verifies. Against other contents of the files
    it verifies exactly when every listed file is there and hashes the same; and a
    restore is planned exactly for a backup that verifies, onto its own schema
    version unless a gap is allowed. *)
Theorem backup_restores (id server : text) (k : backup_kind) (db target : Z) (gap : bool) (fs other : gmap text (list Z)) :
  (create id k server db fs = Err EmptyBackup <-> fs = ∅) /\
  forall a, create id k server db fs = Ok a ->
    verify_integrity a = Ok tt /\ NoDup (relative_path <$> entries (manifest a)) /\
    (forall e, e ∈ entries (manifest a) <-> exists path c, fs !! path = Some c /\ e = Entry path (sha256_hex c) (len c)) /\
    (verify_integrity (Archive (manifest a) other) = Ok tt <->
     forall path c, fs !! path = Some c -> exists c', other !! path = Some c' /\ sha256_hex c' = sha256_hex c) /\
    ((exists p, plan_restore (Archive (manifest a) other) target gap = Ok p) <->
     verify_integrity (Archive (manifest a) other) = Ok tt /\ (gap = false -> db = target)).
Proof.
  unfold create. split; [case_bool_decide; naive_solver|]. case_bool_decide as Hne; [done|]. intros a [= <-].
  set (es := entry_of <$> in_order fs). cbn [manifest entries files].
  assert (He : forall path c, fs !! path = Some c -> entry_of (path, c) ∈ es).
  { intros path c Hc. apply list_elem_of_fmap. exists (path, c). split; [done|by apply elem_of_in_order]. }
  assert (Hi : forall e, e ∈ es -> exists c, fs !! relative_path e = Some c /\ sha256_hex c = sha256_of e /\ len c = entry_size e).
  { intros e ([path c] & -> & Hin%elem_of_in_order)%list_elem_of_fmap. by exists c. }
  split_and!.
  - apply integrity_ok. intros e (c & Hc & Hs & _)%Hi. by exists c.
  - unfold es. rewrite <- list_fmap_compose. unfold in_order. rewrite merge_sort_Permutation. apply (NoDup_fst_map_to_list fs).
  - intros e. split; [|intros (path & c & Hc & ->); by apply He].
    intros (c & Hc & Hs & Hz)%Hi. exists (relative_path e), c. split; [done|]. destruct e. cbn in *. by subst.
  - rewrite integrity_ok. cbn [manifest entries files]. split.
    + intros Hall path c Hc. apply (Hall _ (He path c Hc)).
    + intros Hall e (c & Hc & Hs & _)%Hi. destruct (Hall _ _ Hc) as (c' & Hc' & Es). exists c'. split; [done|congruence].
  - setoid_rewrite plan_ok. cbn [manifest db_migration_version]. naive_solver.
Qed.

(** A file the manifest does not list is not noticed. *)
Lemma extra_file_verifies a path c : path ∉ (relative_path <$> entries (manifest a)) -> verify_integrity a = Ok tt ->
  verify_integrity (Archive (manifest a) (<[path := c]> (files a))) = Ok tt.
Proof.
  rewrite !integrity_ok. cbn. intros Hni Hall e He. rewrite lookup_insert_ne; [by apply Hall|].
  intros ->. apply Hni. apply list_elem_of_fmap. by exists e.
Qed.
End backup.
End Backup.

Module Scanner.
Import Package.
Inductive severity := Info | Low | Medium | High | Critical.
#[global] Instance severity_eq_dec : EqDecision severity.
Proof. solve_decision. Defined.
Inductive finding_category := NativeExtension | SandboxViolation | Obfuscation | ExcessiveCapability | RevokedEntity | MetadataAnomaly.
Record finding := Finding { category : finding_category; sev : severity; message : text; file_path : option text }.
Inductive publisher_reputation := Blacklisted | Suspicious | Standard | Verified | Trusted.
#[global] Instance publisher_reputation_eq_dec : EqDecision publisher_reputation.
Proof. solve_decision. Defined.
Inductive scan_verdict := Approved | FlaggedForReview | Quarantined | Rejected.
#[global] Instance scan_verdict_eq_dec : EqDecision scan_verdict.
Proof. solve_decision. Defined.
Record scan_report := Report { r_package : text; r_publisher : text; risk_score : Z; findings : list finding; verdict : scan_verdict }.

Record reputation_authority := Authority {
  publishers : gmap text publisher_reputation; revoked_packages : gset text; revoked_keys : gset text }.
Definition authority_new : reputation_authority := Authority ∅ ∅ ∅.
Definition set_publisher_reputation (a : reputation_authority) (p : text) (r : publisher_reputation) : reputation_authority :=
  Authority (<[p := r]> (publishers a)) (revoked_packages a) (revoked_keys a).
Definition get_publisher_reputation (a : reputation_authority) (p : text) : publisher_reputation := default Standard (publishers a !! p).
Definition revoke_package (a : reputation_authority) (p : text) : reputation_authority :=
  Authority (publishers a) ({[p]} ∪ revoked_packages a) (revoked_keys a).
Definition is_package_revoked (a : reputation_authority) (p : text) : bool := bool_decide (p ∈ revoked_packages a).
Definition revoke_key (a : reputation_authority) (k : text) : reputation_authority :=
  Authority (publishers a) (revoked_packages a) ({[k]} ∪ revoked_keys a).
Definition is_key_revoked (a : reputation_authority) (k : text) : bool := bool_decide (k ∈ revoked_keys a).

Record scanner_config := Config {
  max_risk_score_for_approval : Z; flag_threshold : Z; quarantine_threshold : Z; allow_native_extensions : bool }.
Definition config_default : scanner_config := Config 20 40 75 false.
Record package_scanner := Scanner_ { config : scanner_config; authority : reputation_authority }.
(** A file is its path and its bytes. *)
Abbreviation package_file := (text * list Z)%type.

Definition ends_with (suffix l : text) : bool := starts_with (rev suffix) (rev l).
Definition NATIVE : list text := codes <$> [".dll"; ".so"; ".dylib"; ".exe"; ".bin"; ".elf"]%string.
Definition is_native (path : text) : bool := existsb (fun ext => ends_with ext (to_lower path)) NATIVE.
Definition scan_file_path (c : scanner_config) (path : text) : list finding :=
  if is_native path then
    [Finding NativeExtension (if allow_native_extensions c then Low else Critical) (codes "Found native binary file '" ++ path ++ codes "'") (Some path)]
  else [].

Definition is_script (path : text) : bool := existsb (fun ext => ends_with (codes ext) path) [".lua"; ".js"; ".ts"; ".toml"; ".json"]%string.
Definition TOKENS : list (text * text * severity) :=
  [(codes "os.execute", codes "Direct OS shell execution call", High); (codes "io.popen", codes "Process spawn via popen", High);
   (codes "package.loadlib", codes "Dynamic C library loader", High); (codes "child_process", codes "Node child_process execution", High);
   (codes "setfenv", codes "Lua environment tampering attempt", Medium); (codes "loadstring(", codes "Dynamic arbitrary string evaluation", Medium)].
(** [text.matches(token).count()]: occurrences that do not overlap; one turn
    per byte. *)
Fixpoint matches (fuel : nat) (token l : text) : nat :=
  match fuel, l with
  | S fuel, c :: r => if starts_with token l then S (matches fuel token (drop (length token) l)) else matches fuel token r
  | _, _ => O
  end.
(** [split_whitespace]: one turn per byte. *)
Fixpoint words (fuel : nat) (cur l : text) : list text :=
  let flush rest := if bool_decide (cur = []) then rest else cur :: rest in
  match fuel, l with
  | S fuel, c :: r => match ws_head l with Some l => flush (words fuel [] l) | None => words fuel (cur ++ [c]) r end
  | _, _ => flush []
  end.
Definition quote_char (c : Z) : bool := existsb (fun q => c =? q) (codes "'`();,[]" ++ [34]).
Fixpoint trim_quotes (l : text) : text := match l with c :: r => if quote_char c then trim_quotes r else l | [] => [] end.
Definition trim_matches (l : text) : text := rev (trim_quotes (rev (trim_quotes l))).
Definition base64_char (c : Z) : bool :=
  is_digit c || ((65 <=? c) && (c <=? 90)) || ((97 <=? c) && (c <=? 122)) || (c =? 43) || (c =? 47) || (c =? 61).
Definition suspicious (word : text) : bool := let w := trim_matches word in (300 <? len w) && forallb base64_char w.

Definition scan_file_content (path content : text) : list finding :=
  if negb (is_script path) then []
  else if negb (utf8_valid content) then [Finding Obfuscation Medium (codes "Non-UTF-8 bytes inside script source file") (Some path)]
  else
    (TOKENS ≫= (fun '(token, msg, s) => replicate (Nat.min (matches (length content) token content) 5) (Finding SandboxViolation s msg (Some path)))) ++
    match List.find suspicious (words (length content) [] content) with
    | Some w => [Finding Obfuscation Medium
        (codes "Suspicious high-length encoded string literal (len: " ++ to_string (len (trim_matches w)) ++ codes ")") (Some path)]
    | None => []
    end.

Definition points (s : severity) : Z := match s with Info => 0 | Low => 5 | Medium => 15 | High => 35 | Critical => 80 end.
Definition sat_add (a b : Z) : Z := Z.min (a + b) u32_max.
Definition raw_score (fs : list finding) : Z := foldl (fun r f => sat_add r (points (sev f))) 0 fs.
Definition has_critical (fs : list finding) : bool := existsb (fun f => bool_decide (sev f = Critical)) fs.
Definition score (rep : publisher_reputation) (fs : list finding) : Z :=
  let r := raw_score fs in
  let r := if 100 <? r then 100 else r in
  if has_critical fs then r
  else match rep with Trusted => sat_sub r 15 | Verified => sat_sub r 5 | _ => r end.

Definition entity_findings (a : reputation_authority) (m : package_manifest) : list finding :=
  (if is_package_revoked a (package_id m) then
     [Finding RevokedEntity Critical (codes "Package ID '" ++ package_id m ++ codes "' is on the revocation list") None] else []) ++
  match get_publisher_reputation a (publisher_id m) with
  | Blacklisted => [Finding RevokedEntity Critical (codes "Publisher '" ++ publisher_id m ++ codes "' is blacklisted") None]
  | Suspicious => [Finding RevokedEntity High (codes "Publisher '" ++ publisher_id m ++ codes "' has suspicious reputation") None]
  | _ => []
  end ++
  (if is_key_revoked a (public_key_hex (sig m)) then
     [Finding RevokedEntity Critical (codes "Signature key '" ++ public_key_hex (sig m) ++ codes "' is revoked") None] else []) ++
  (if bool_decide (trim_text (package_id m) = []) then [Finding MetadataAnomaly High (codes "Empty package ID") None] else []).
Definition file_findings (c : scanner_config) (fs : list package_file) : list finding :=
  fs ≫= (fun '(path, content) => scan_file_path c path ++ scan_file_content path content).

Definition scan (s : package_scanner) (m : package_manifest) (fs : list package_file) : scan_report :=
  let all := entity_findings (authority s) m ++ file_findings (config s) fs in
  let rep := get_publisher_reputation (authority s) (publisher_id m) in
  let risk := score rep all in
  let v :=
    if has_critical all || (quarantine_threshold (config s) <=? risk) then
      if bool_decide (rep = Blacklisted) || is_package_revoked (authority s) (package_id m) then Rejected else Quarantined
    else if flag_threshold (config s) <=? risk then FlaggedForReview
    else if risk <=? max_risk_score_for_approval (config s) then Approved
    else FlaggedForReview in
  Report (package_id m) (publisher_id m) risk all v.

(** *** What a verdict means *)
Definition rank (v : scan_verdict) : Z := match v with Approved => 0 | FlaggedForReview => 1 | Quarantined => 2 | Rejected => 3 end.
Definition decide_verdict (c : scanner_config) (out : bool) (critical : bool) (risk : Z) : scan_verdict :=
  if critical || (quarantine_threshold c <=? risk) then if out then Rejected else Quarantined
  else if flag_threshold c <=? risk then FlaggedForReview else if risk <=? max_risk_score_for_approval c then Approved else FlaggedForReview.

Lemma points_sum fs : 0 <= sum_list (points ∘ sev <$> fs).
Proof. induction fs as [|f fs IH]; [done|]. rewrite fmap_cons, sum_list_cons. unfold compose at 1. destruct (sev f); cbn [points]; lia. Qed.

Lemma raw_score_min fs r : 0 <= r <= u32_max ->
  foldl (fun r f => sat_add r (points (sev f))) r fs = Z.min (r + sum_list (points ∘ sev <$> fs)) u32_max.
Proof.
  revert r. induction fs as [|f fs IH]; intros r Hr; cbn -[u32_max]; [lia|]. assert (Hp : 0 <= points (sev f)) by (destruct (sev f); cbn; lia).
  rewrite IH by (unfold sat_add; lia). unfold sat_add.
  pose proof (points_sum fs). unfold sum_list in *. lia.
Qed.

Lemma score_range rep fs : 0 <= score rep fs <= 100.
Proof.
  pose proof (points_sum fs). unfold score, raw_score, sat_sub. rewrite raw_score_min by (unfold u32_max; lia). unfold u32_max.
  repeat case_match; bool_prop; lia.
Qed.

Lemma score_mono rep fs more : score rep fs <= score rep (fs ++ more) \/ has_critical (fs ++ more) = true.
Proof.
  destruct (has_critical (fs ++ more)) eqn:E; [by right|left]. unfold has_critical in *. rewrite existsb_app in E. apply orb_false_iff in E as [E1 E2].
  unfold score, has_critical. rewrite existsb_app, E1, E2. cbn [orb]. unfold raw_score. rewrite !raw_score_min, fmap_app, sum_list_app by (unfold u32_max; lia).
  pose proof (points_sum more).
  unfold sat_sub. repeat case_match; bool_prop; lia.
Qed.

Definition out (s : package_scanner) (m : package_manifest) : bool :=
  bool_decide (get_publisher_reputation (authority s) (publisher_id m) = Blacklisted) || is_package_revoked (authority s) (package_id m).

Lemma scan_decides s m fs : verdict (scan s m fs) = decide_verdict (config s) (out s m) (has_critical (findings (scan s m fs))) (risk_score (scan s m fs)).
Proof. done. Qed.

Lemma has_critical_elem fs : has_critical fs = true <-> exists f, f ∈ fs /\ sev f = Critical.
Proof.
  unfold has_critical. rewrite existsb_elem. split; intros (f & Hf & E); exists f; (split; [done|]); [by bool_prop|by apply bool_decide_eq_true].
Qed.

Lemma out_critical s m : out s m = true -> has_critical (entity_findings (authority s) m) = true.
Proof.
  unfold out, entity_findings. rewrite has_critical_elem. intros [Hb|Hr]%orb_true_iff.
  - bool_prop. rewrite Hb. eexists. split; [apply elem_of_app; right; apply elem_of_app; left; by apply list_elem_of_singleton|done].
  - rewrite Hr. eexists. split; [apply elem_of_app; left; by apply list_elem_of_singleton|done].
Qed.

Lemma critical_found s m fs :
  is_key_revoked (authority s) (public_key_hex (sig m)) = true \/
  allow_native_extensions (config s) = false /\ (exists f, f ∈ fs /\ is_native f.1 = true) ->
  has_critical (findings (scan s m fs)) = true.
Proof.
  intros Hc. apply has_critical_elem. unfold scan. cbn [findings]. destruct Hc as [Hk|(Ha & [path content] & Hf & Hn)].
  - unfold entity_findings. rewrite Hk. eexists.
    split; [apply elem_of_app; left; do 2 (apply elem_of_app; right); apply elem_of_app; left; by apply list_elem_of_singleton|done].
  - eexists (Finding NativeExtension Critical _ (Some path)). split; [|done]. apply elem_of_app. right. apply list_elem_of_bind. exists (path, content).
    split; [|done]. apply elem_of_app. left. unfold scan_file_path. cbn [fst] in Hn. rewrite Hn, Ha. by apply list_elem_of_singleton.
Qed.

Lemma decide_mono c o crit crit' r r' : (crit = true -> crit' = true) -> (r <= r' \/ crit' = true) ->
  rank (decide_verdict c o crit r) <= rank (decide_verdict c o crit' r').
Proof.
  intros Hc Hr. unfold decide_verdict. destruct crit, crit'; try specialize (Hc eq_refl); try done; cbn [orb];
    destruct o; repeat case_match; bool_prop; cbn; try lia; destruct Hr; (done || lia).
Qed.

(** A package is rejected exactly when its publisher is blacklisted or it is
    revoked; a revoked key, or a native binary where none is allowed, is never
    approved nor merely flagged; an approved package has no critical finding
    and a score below every threshold; the score is between 0 and 100; and shipping more
    files never improves the verdict. *)
Theorem scan_verdicts (s : package_scanner) (m : package_manifest) (fs more : list package_file) :
  let r := scan s m fs in
  (verdict r = Rejected <-> out s m = true) /\
  (is_key_revoked (authority s) (public_key_hex (sig m)) = true \/
   allow_native_extensions (config s) = false /\ (exists f, f ∈ fs /\ is_native f.1 = true) ->
   verdict r = Quarantined \/ verdict r = Rejected) /\
  (verdict r = Approved -> Forall (fun f => sev f <> Critical) (findings r) /\
   risk_score r <= max_risk_score_for_approval (config s) /\ risk_score r < flag_threshold (config s) /\
   risk_score r < quarantine_threshold (config s)) /\
  0 <= risk_score r <= 100 /\
  rank (verdict r) <= rank (verdict (scan s m (fs ++ more))).
Proof.
  intros r. unfold r. rewrite !scan_decides. split_and!.
  - assert (Ho : out s m = true -> has_critical (findings (scan s m fs)) = true).
    { intros Ho%out_critical. unfold scan. cbn [findings]. unfold has_critical in *. by rewrite existsb_app, Ho. }
    unfold decide_verdict. destruct (out s m); [rewrite Ho by done; by cbn|]. repeat case_match; naive_solver.
  - intros Hc. rewrite (critical_found s m fs Hc). unfold decide_verdict. cbn. destruct (out s m); [by right|by left].
  - unfold decide_verdict. intros Hv. destruct (has_critical (findings (scan s m fs))) eqn:Ec; [by destruct (out s m)|]. cbn [orb] in Hv.
    repeat case_match; bool_prop; try done. split_and!; try lia. apply existsb_false_Forall in Ec. eapply Forall_impl; [exact Ec|]. cbn. intros f Hf. by bool_prop.
  - apply score_range.
  - apply score_range.
  - unfold scan. cbn [findings risk_score]. unfold file_findings. rewrite bind_app, app_assoc. apply decide_mono; [|apply score_mono].
    intros E. unfold has_critical in *. rewrite existsb_app. by rewrite E.
Qed.

(** Only lower-case extensions are scripts, and a shared library with a version
    suffix is not a binary; a trusted publisher's shell call is approved. *)
Definition blank : package_manifest := Manifest (codes "p") (codes "pub") [] [] [] None [] [] 0 Open [] (Signature_ [] [] []).
Definition trusting : package_scanner := Scanner_ config_default (set_publisher_reputation authority_new (codes "pub") Trusted).
Lemma scanner_gaps :
  is_native (codes "libx.so.1") = false /\ scan_file_content (codes "init.LUA") (codes "os.execute('x')") = [] /\
  verdict (scan trusting blank [(codes "init.lua", codes "os.execute('x')")]) = Approved.
Proof. vm_compute. done. Qed.
End Scanner.
