(* ===== verification/Ip.v ===== *)
(** Addresses as text: [str::parse::<IpAddr>] of the standard library, which the
    edge (crates/ald-edge), the webhook filter (crates/ald-security) and the
    trusted proxies (crates/ald-network) read addresses with. A reader takes the
    rest of the text and gives a value and what is left. *)
From S2P Require Import Prelude RustStr Bytes Cidr.

#[global] Instance ip_addr_eq_dec : EqDecision ip_addr.
Proof. solve_decision. Defined.
#[global] Instance ip_addr_countable : Countable ip_addr.
Proof.
  by apply (inj_countable' (fun a => match a with V4 n => inl n | V6 o => inr o end) (fun s => match s with inl n => V4 n | inr o => V6 o end)); intros [].
Defined.

(** [read_number(radix, Some(max_digits), allow_zero_prefix)] with the checked
    arithmetic of its type. *)
Definition digit_val (radix c : Z) : option Z :=
  v ← hex_val c; if v <? radix then Some v else None.
Fixpoint read_digits (radix bound : Z) (fuel count : nat) (acc : Z) (l : text) {struct l} : option (Z * nat * text) :=
  match l with
  | [] => Some (acc, count, [])
  | c :: r =>
      match digit_val radix c, fuel with
      | None, _ => Some (acc, count, l)
      | Some _, O => None
      | Some d, S fuel => if acc * radix + d <? bound then read_digits radix bound fuel (S count) (acc * radix + d) r else None
      end
  end.
Definition read_number (radix bound : Z) (max_digits : nat) (allow_zero_prefix : bool) (l : text) : option (Z * text) :=
  let zero := match l with 48 :: _ => true | _ => false end in
  '(v, count, r) ← read_digits radix bound max_digits 0 0 l;
  if (count =? 0)%nat then None
  else if negb allow_zero_prefix && zero && (1 <? count)%nat then None else Some (v, r).
Definition read_char (c : Z) (l : text) : option text := match l with x :: r => if x =? c then Some r else None | [] => None end.
(** [read_separator]: the separator comes before every item but the first. *)
Definition read_separator {A} (sep : Z) (i : nat) (f : text -> option (A * text)) (l : text) : option (A * text) :=
  match i with O => f l | S _ => r ← read_char sep l; f r end.

Fixpoint read_octets (n i : nat) (acc : Z) (l : text) : option (Z * text) :=
  match n with
  | O => Some (acc, l)
  | S n => '(v, r) ← read_separator 46 i (read_number 10 256 3 false) l; read_octets n (S i) (acc * 256 + v) r
  end.
Definition read_ipv4_addr (l : text) : option (Z * text) := read_octets 4 0 0 l.

(** [read_groups]: up to [n] groups from index [i]; an embedded IPv4 address
    stands for the last two. The result is the groups, whether it ended in an
    IPv4 address, and the rest. *)
Fixpoint read_groups (n i : nat) (l : text) : list Z * bool * text :=
  match n with
  | O => ([], false, l)
  | S n' =>
      let v4 := if (1 <=? n')%nat then read_separator 58 i read_ipv4_addr l else None in
      match v4 with
      | Some (a, r) => ([Z.shiftr a 16; Z.land a 65535], true, r)
      | None =>
          match read_separator 58 i (read_number 16 65536 4 true) l with
          | Some (g, r) => let '(gs, v4, r) := read_groups n' (S i) r in (g :: gs, v4, r)
          | None => ([], false, l)
          end
      end
  end.
Definition read_ipv6_addr (l : text) : option (list Z * text) :=
  let '(head, head_v4, r) := read_groups 8 0 l in
  if (length head =? 8)%nat then Some (head, r)
  else if head_v4 then None
  else
    r ← read_char 58 r; r ← read_char 58 r;
    let '(tail, _, r) := read_groups (8 - (length head + 1)) 0 r in
    Some (head ++ replicate (8 - length head - length tail) 0 ++ tail, r).
Definition octets_of (groups : list Z) : list Z := groups ≫= (fun g => [Z.shiftr g 8; Z.land g 255]).
Definition parse_ip (l : text) : option ip_addr :=
  match read_ipv4_addr l with
  | Some (a, r) => if bool_decide (r = []) then Some (V4 a) else None
  | None => '(gs, r) ← read_ipv6_addr l; if bool_decide (r = []) then Some (V6 (octets_of gs)) else None
  end.

(** [to_string] of an address: dotted decimal, and the groups in hexadecimal
    with the first longest run of two or more zeros as [::]. *)
Definition v4_text (a : Z) : text :=
  let o := be_bytes 4 a in
  let d i := decimal (default 0 (o !! i)) in
  d 0%nat ++ [46] ++ d 1%nat ++ [46] ++ d 2%nat ++ [46] ++ d 3%nat.
Fixpoint hex_digits (fuel : nat) (n : Z) (acc : text) : text :=
  match fuel with
  | O => acc
  | S fuel => let acc := hex_digit (n mod 16) :: acc in if n <? 16 then acc else hex_digits fuel (n / 16) acc
  end.
Fixpoint fmt_subslice (l : list Z) : text :=
  match l with [] => [] | [g] => hex_digits 4 g [] | g :: l => hex_digits 4 g [] ++ [58] ++ fmt_subslice l end.
Fixpoint segments_of (octets : list Z) : list Z :=
  match octets with hi :: lo :: l => 256 * hi + lo :: segments_of l | _ => [] end.
(** The longest and the current run of zero groups, each its start and length. *)
Definition zero_step (st : (nat * nat) * (nat * nat)) (seg : nat * Z) : (nat * nat) * (nat * nat) :=
  let '(longest, current) := st in
  if seg.2 =? 0 then
    let current := (if (current.2 =? 0)%nat then seg.1 else current.1, S current.2) in
    (if (longest.2 <? current.2)%nat then current else longest, current)
  else (longest, (0%nat, 0%nat)).
Definition v6_text (octets : list Z) : text :=
  if bool_decide (take 12 octets = replicate 10 0 ++ [255; 255]) then codes "::ffff:" ++ v4_text (be_val (drop 12 octets))
  else
    let segs := segments_of octets in
    let zeroes := (foldl zero_step ((0, 0), (0, 0))%nat (imap pair segs)).1 in
    if (1 <? zeroes.2)%nat then fmt_subslice (take zeroes.1 segs) ++ [58; 58] ++ fmt_subslice (drop (zeroes.1 + zeroes.2) segs)
    else fmt_subslice segs.
Definition ip_text (a : ip_addr) : text := match a with V4 n => v4_text n | V6 o => v6_text o end.

Example parse_v4 : parse_ip (codes "169.254.169.254") = Some (V4 2852039166).
Proof. vm_compute. reflexivity. Qed.
Example parse_v4_zeros : parse_ip (codes "127.0.0.01") = None /\ parse_ip (codes "127.1") = None /\ parse_ip (codes "256.0.0.1") = None.
Proof. vm_compute. done. Qed.
Example parse_v6 : parse_ip (codes "::1") = Some (V6 (replicate 15 0 ++ [1])) /\
  parse_ip (codes "fe80::1:2") = Some (V6 [254; 128; 0; 0; 0; 0; 0; 0; 0; 0; 0; 0; 0; 1; 0; 2]) /\
  parse_ip (codes "::ffff:1.2.3.4") = Some (V6 [0; 0; 0; 0; 0; 0; 0; 0; 0; 0; 255; 255; 1; 2; 3; 4]) /\
  parse_ip (codes "1::2::3") = None /\ parse_ip (codes "12345::") = None /\ parse_ip (codes "[::1]") = None.
Proof. vm_compute. done. Qed.

Example ip_text_examples :
  ip_text (V4 2852039166) = codes "169.254.169.254" /\
  (fun t => ip_text <$> parse_ip (codes t)) <$> ["::1"; "fe80::1:2"; "::ffff:1.2.3.4"; "1:0:0:2:0:0:0:3"; "0:0:1::"; "::"; "1:0:3:4:5:6:7:8"]%string =
  (fun t => Some (codes t)) <$> ["::1"; "fe80::1:2"; "::ffff:1.2.3.4"; "1:0:0:2::3"; "0:0:1::"; "::"; "1:0:3:4:5:6:7:8"]%string.
Proof. vm_compute. done. Qed.

Lemma read_digits_range radix bound fuel count acc l v n r : 0 < radix -> 0 <= acc < bound -> (forall c d, digit_val radix c = Some d -> 0 <= d) ->
  read_digits radix bound fuel count acc l = Some (v, n, r) -> 0 <= v < bound.
Proof.
  intros Hr Ha Hd. revert fuel count acc Ha. induction l as [|c l IH]; intros fuel count acc Ha; cbn; [intros; by simplify_eq|].
  destruct (digit_val radix c) as [d|] eqn:E; [|intros; by simplify_eq]. destruct fuel as [|fuel]; [done|].
  destruct (Z.ltb_spec (acc * radix + d) bound); [|done]. apply IH. pose proof (Hd _ _ E). nia.
Qed.

(** ** What is read is an address *)
Lemma digit_val_nonneg radix c d : digit_val radix c = Some d -> 0 <= d.
Proof. unfold digit_val, hex_val. intros H. repeat (case_match; simplify_eq/=; bool_prop; try lia). Qed.

Lemma read_number_range radix bound max z l v r : 0 < radix -> 0 < bound -> read_number radix bound max z l = Some (v, r) -> 0 <= v < bound.
Proof.
  unfold read_number. intros Hr Hb. destruct (read_digits _ _ _ _ _ _) as [[[v' n] r']|] eqn:E; [|done]. cbn.
  apply read_digits_range in E; [|done|lia|apply digit_val_nonneg]. repeat case_match; intros; by simplify_eq.
Qed.

Lemma read_separator_Some {A} sep i (f : text -> option (A * text)) l x : read_separator sep i f l = Some x -> exists l', f l' = Some x.
Proof. destruct i; cbn; [by eexists|]. destruct (read_char sep l); cbn; [by eexists|done]. Qed.

Lemma read_octets_range n i acc l v r : 0 <= acc -> read_octets n i acc l = Some (v, r) -> 0 <= v < (acc + 1) * 256 ^ Z.of_nat n.
Proof.
  revert i acc l. induction n as [|n IH]; intros i acc l Ha; cbn [read_octets].
  - intros; simplify_eq. change (256 ^ Z.of_nat 0) with 1. lia.
  - destruct (read_separator _ _ _ _) as [[x r']|] eqn:E; [|done]. cbn. intros Hr.
    apply read_separator_Some in E as [l' E]. apply read_number_range in E; [|lia..]. apply IH in Hr; [|lia].
    rewrite Nat2Z.inj_succ, Z.pow_succ_r by lia. assert (0 < 256 ^ Z.of_nat n) by (apply Z.pow_pos_nonneg; lia). nia.
Qed.

Lemma read_ipv4_range l v r : read_ipv4_addr l = Some (v, r) -> fits 32 v.
Proof. intros H. apply read_octets_range in H; [|lia]. exact H. Qed.

Lemma read_groups_range n i l gs v4 r : read_groups n i l = (gs, v4, r) -> Forall (fits 16) gs /\ (length gs <= n)%nat.
Proof.
  revert i l gs v4 r. induction n as [|n IH]; intros i l gs v4 r; cbn [read_groups]; [intros; simplify_eq; split; [constructor|done]|].
  destruct (if (1 <=? n)%nat then _ else None) as [[a r']|] eqn:E.
  - intros; simplify_eq. destruct (Nat.leb_spec 1 n); [|done]. apply read_separator_Some in E as [l' E]. apply read_ipv4_range in E. split; [|cbn; lia].
    unfold fits in *. rewrite Z.shiftr_div_pow2 by lia. change 65535 with (Z.ones 16). rewrite Z.land_ones by lia.
    repeat constructor; [apply Z.div_pos; lia|apply Z.div_lt_upper_bound; lia|apply Z.mod_pos_bound; lia..].
  - destruct (read_separator 58 i (read_number 16 65536 4 true) l) as [[g r']|] eqn:Eg; [|intros; simplify_eq; split; [constructor|cbn; lia]].
    destruct (read_groups n (S i) r') as [[gs' v4'] r''] eqn:Er. intros; simplify_eq. apply IH in Er as [Hf Hl].
    apply read_separator_Some in Eg as [l' Eg]. apply read_number_range in Eg; [|lia..]. split; [by constructor|cbn; lia].
Qed.

Lemma octets_wf gs : Forall (fits 16) gs -> byte_list (octets_of gs) /\ length (octets_of gs) = (2 * length gs)%nat.
Proof.
  induction 1 as [|g gs Hg Hgs [Hb Hl]]; [done|]. unfold octets_of in *. cbn. split; [|rewrite Hl; lia].
  unfold fits in Hg. constructor; [|constructor; [|done]]; unfold fits.
  - rewrite Z.shiftr_div_pow2 by lia. split; [apply Z.div_pos; lia|apply Z.div_lt_upper_bound; lia].
  - change 255 with (Z.ones 8). rewrite Z.land_ones by lia. apply Z.mod_pos_bound. lia.
Qed.

Lemma parse_ip_wf l a : parse_ip l = Some a -> wf_ip a.
Proof.
  unfold parse_ip. destruct (read_ipv4_addr l) as [[v r]|] eqn:E4.
  - intros; case_bool_decide; simplify_eq. by apply read_ipv4_range in E4.
  - unfold read_ipv6_addr. destruct (read_groups 8 0 l) as [[head v4] r] eqn:Eh. apply read_groups_range in Eh as [Hh Hl].
    destruct (Nat.eqb_spec (length head) 8) as [H8|H8].
    + cbn. intros; case_bool_decide; simplify_eq. destruct (octets_wf head Hh) as [Hb Hn]. split; [done|]. rewrite Hn, H8. done.
    + destruct v4; [done|]. destruct (read_char 58 r) as [r1|]; [|done]. cbn. destruct (read_char 58 r1) as [r2|]; [|done]. cbn.
      destruct (read_groups (8 - (length head + 1)) 0 r2) as [[tl v4'] r3] eqn:Et. apply read_groups_range in Et as [Ht Hlt]. cbn.
      intros; case_bool_decide; simplify_eq.
      destruct (octets_wf (head ++ replicate (8 - length head - length tl) 0 ++ tl)) as [Hb Hn].
      { rewrite !Forall_app. split_and!; [done| |done]. apply Forall_replicate. unfold fits. lia. }
      split; [done|]. rewrite Hn, !length_app, length_replicate. lia.
Qed.
