(* ===== verification/Edge.v ===== *)
(** The edge gateway (crates/ald-edge/src/lib.rs): its SHA-256 and HMAC (module
    [Sha]), the forwarded identity ([Forward]), connection and query admission
    ([Edge]) and the health of the origin ([Health]). Clock readings are
    arguments; the rate limiter is the one of Query.v. *)
From S2P Require Import Prelude RustStr Bytes Cidr Ip.
From S2P Require Query Aegis.
#[local] Arguments digits : simpl never.

Module Sha.
Definition rotate_right (n x : Z) : Z := Z.lor (Z.shiftr x n) (wrap 32 (Z.shiftl x (32 - n))).
Definition add32 (a b : Z) : Z := wrap 32 (a + b).
(** Eight words of a row of the tables, written as one number. *)
Definition row (z : Z) : list Z := (fun i => wrap 32 (Z.shiftr z (32 * (7 - i)))) <$> seqZ 0 8.
Definition K : list Z := Eval vm_compute in concat (row <$>
  [0x428a2f9871374491b5c0fbcfe9b5dba53956c25b59f111f1923f82a4ab1c5ed5;
   0xd807aa9812835b01243185be550c7dc372be5d7480deb1fe9bdc06a7c19bf174;
   0xe49b69c1efbe47860fc19dc6240ca1cc2de92c6f4a7484aa5cb0a9dc76f988da;
   0x983e5152a831c66db00327c8bf597fc7c6e00bf3d5a7914706ca635114292967;
   0x27b70a852e1b21384d2c6dfc53380d13650a7354766a0abb81c2c92e92722c85;
   0xa2bfe8a1a81a664bc24b8b70c76c51a3d192e819d6990624f40e3585106aa070;
   0x19a4c1161e376c082748774c34b0bcb5391c0cb34ed8aa4a5b9cca4f682e6ff3;
   0x748f82ee78a5636f84c878148cc7020890befffaa4506cebbef9a3f7c67178f2]).
Definition H0 : list Z := Eval vm_compute in row 0x6a09e667bb67ae853c6ef372a54ff53a510e527f9b05688c1f83d9ab5be0cd19.

(** The [while padded.len() % 64 != 56] loop: at most 63 turns. *)
Fixpoint pad_loop (fuel : nat) (l : list Z) : list Z :=
  match fuel with O => l | S fuel => if (length l mod 64 =? 56)%nat then l else pad_loop fuel (l ++ [0]) end.
Definition padded (data : list Z) : list Z := pad_loop 64 (data ++ [128]) ++ be_bytes 8 (wrap 64 (len data * 8)).
(** [as_chunks::<64>().0]: whole chunks; one turn per byte is enough. *)
Fixpoint chunks (fuel : nat) (l : list Z) : list (list Z) :=
  match fuel with
  | O => []
  | S fuel => if (length l <? 64)%nat then [] else take 64 l :: chunks fuel (drop 64 l)
  end.

Definition at_ (l : list Z) (i : nat) : Z := default 0 (l !! i).
Definition first_words (chunk : list Z) : list Z := (fun i => be_val (slice chunk (4 * i) (4 * i + 4))) <$> seq 0 16.
Definition extend (w : list Z) (i : nat) : list Z :=
  let a := at_ w (i - 15) in
  let b := at_ w (i - 2) in
  let s0 := Z.lxor (Z.lxor (rotate_right 7 a) (rotate_right 18 a)) (Z.shiftr a 3) in
  let s1 := Z.lxor (Z.lxor (rotate_right 17 b) (rotate_right 19 b)) (Z.shiftr b 10) in
  w ++ [add32 (add32 (add32 (at_ w (i - 16)) s0) (at_ w (i - 7))) s1].
Definition schedule (chunk : list Z) : list Z := foldl extend (first_words chunk) (seq 16 48).

Record working := Working { ra : Z; rb : Z; rc : Z; rd : Z; re : Z; rf : Z; rg : Z; rh : Z }.
Definition not32 (x : Z) : Z := u32_max - x.
Definition round (r : working) (kw : Z * Z) : working :=
  let s1 := Z.lxor (Z.lxor (rotate_right 6 (re r)) (rotate_right 11 (re r))) (rotate_right 25 (re r)) in
  let ch := Z.lxor (Z.land (re r) (rf r)) (Z.land (not32 (re r)) (rg r)) in
  let t1 := add32 (add32 (add32 (add32 (rh r) s1) ch) kw.1) kw.2 in
  let s0 := Z.lxor (Z.lxor (rotate_right 2 (ra r)) (rotate_right 13 (ra r))) (rotate_right 22 (ra r)) in
  let maj := Z.lxor (Z.lxor (Z.land (ra r) (rb r)) (Z.land (ra r) (rc r))) (Z.land (rb r) (rc r)) in
  let t2 := add32 s0 maj in
  Working (add32 t1 t2) (ra r) (rb r) (rc r) (add32 (rd r) t1) (re r) (rf r) (rg r).
Definition compress (h : list Z) (chunk : list Z) : list Z :=
  let r := foldl round (Working (at_ h 0) (at_ h 1) (at_ h 2) (at_ h 3) (at_ h 4) (at_ h 5) (at_ h 6) (at_ h 7)) (zip K (schedule chunk)) in
  zip_with add32 h [ra r; rb r; rc r; rd r; re r; rf r; rg r; rh r].
Definition sha256_bytes (data : list Z) : list Z :=
  let p := padded data in
  foldl compress H0 (chunks (length p) p) ≫= be_bytes 4.
Definition sha256_hex (data : list Z) : text := hex (sha256_bytes data).

Definition BLOCK : nat := 64.
Definition hmac_sha256_bytes (key msg : list Z) : list Z :=
  let k := if (BLOCK <? length key)%nat then sha256_bytes key else key in
  let k := k ++ replicate (BLOCK - length k) 0 in
  let ipad := Z.lxor 54 <$> k in
  let opad := Z.lxor 92 <$> k in
  sha256_bytes (opad ++ sha256_bytes (ipad ++ msg)).
Definition hmac_hex (key msg : list Z) : text := sha256_hex (hmac_sha256_bytes key msg).

(** *** Published vectors *)
Lemma sha256_known_vectors :
  sha256_hex (codes "abc") = codes "ba7816bf8f01cfea414140de5dae2223b00361a396177a9cb410ff61f20015ad" /\
  sha256_hex [] = codes "e3b0c44298fc1c149afbf4c8996fb92427ae41e4649b934ca495991b7852b855".
Proof. vm_compute. done. Qed.
Lemma hmac_known_vector :
  hex (hmac_sha256_bytes (replicate 20 11) (codes "Hi There")) = codes "b0344c61d8db38535ca8afceaf0bf12b881dc200c9833da726e9376c2e32cff7".
Proof. vm_compute. reflexivity. Qed.

(** *** Digests are 32 bytes *)
Lemma pad_loop_length fuel l : (length l + (56 + 64 - length l mod 64) mod 64 <= length l + fuel)%nat ->
  exists n, pad_loop fuel l = l ++ replicate n 0 /\ (length (pad_loop fuel l) mod 64 = 56)%nat.
Proof.
  revert l. induction fuel as [|fuel IH]; intros l Hf; cbn [pad_loop].
  - exists 0%nat. rewrite app_nil_r. split; [done|].
    pose proof (Nat.mod_upper_bound (length l) 64 ltac:(lia)). assert (Hz : ((56 + 64 - length l mod 64) mod 64 = 0)%nat) by lia.
    apply Nat.Div0.mod_divides in Hz as [c Hc]. lia.
  - destruct (Nat.eqb_spec (length l mod 64) 56) as [E|E]; [exists 0%nat; by rewrite app_nil_r|].
    destruct (IH (l ++ [0])) as (n & En & Hn).
    + rewrite length_app. cbn [length].
      pose proof (Nat.mod_upper_bound (length l) 64 ltac:(lia)) as Hm.
      pose proof (Nat.div_mod_eq (length l) 64) as Hd.
      assert (Hs : ((length l + 1) mod 64 = if decide (length l mod 64 = 63)%nat then 0 else length l mod 64 + 1)%nat).
      { case_decide as H63.
        - symmetry. apply (Nat.mod_unique _ _ (length l / 64 + 1)); lia.
        - symmetry. apply (Nat.mod_unique _ _ (length l / 64)); lia. }
      rewrite Hs.
      assert (Hmod : forall x, (x < 64)%nat -> ((56 + 64 - x) mod 64 = if decide (x <= 56)%nat then 56 - x else 120 - x)%nat).
      { intros x Hx. clear -Hx. destruct (decide (x <= 56)%nat).
        - symmetry. apply (Nat.mod_unique _ _ 1); lia.
        - symmetry. apply (Nat.mod_unique _ _ 0); lia. }
      rewrite Hmod by (case_decide; lia). rewrite Hmod in Hf by lia. repeat case_decide; lia.
    + exists (S n). split; [by rewrite En, <- app_assoc|exact Hn].
Qed.

Lemma padded_blocks data : (length (padded data) mod 64 = 0)%nat.
Proof.
  unfold padded. destruct (pad_loop_length 64 (data ++ [128])) as (n & E & Hn).
  { pose proof (Nat.mod_upper_bound (56 + 64 - length (data ++ [128]) mod 64) 64 ltac:(lia)). lia. }
  rewrite length_app, length_be_bytes, <- Nat.Div0.add_mod_idemp_l, Hn. done.
Qed.

Lemma compress_length h chunk : length h = 8%nat -> length (compress h chunk) = 8%nat.
Proof. intros Hh. unfold compress. rewrite length_zip_with, Hh. done. Qed.

Lemma sha256_length data : length (sha256_bytes data) = 32%nat /\ byte_list (sha256_bytes data).
Proof.
  unfold sha256_bytes. set (cs := chunks _ _). clearbody cs.
  assert (Hl : length (foldl compress H0 cs) = 8%nat).
  { assert (Hg : forall h, length h = 8%nat -> length (foldl compress h cs) = 8%nat); [|by apply Hg].
    induction cs as [|c cs IH]; intros h Hh; [done|]. cbn. apply IH, compress_length, Hh. }
  revert Hl. generalize (foldl compress H0 cs). intros l Hl.
  assert (Hm : forall l : list Z, length (l ≫= be_bytes 4) = (4 * length l)%nat /\ byte_list (l ≫= be_bytes 4)).
  { clear. induction l as [|x l [IH1 IH2]]; [done|]. rewrite bind_cons. split.
    - rewrite length_app, length_be_bytes, IH1. cbn. lia.
    - apply Forall_app. split; [apply be_bytes_range|done]. }
  destruct (Hm l) as [H1 H2]. split; [by rewrite H1, Hl|done].
Qed.
End Sha.

(** ** The identity forwarded to the origin *)
Module Forward.
Inductive edge_error := BadCidr (s : text) | OriginCapacity (used limit : Z) | Shielding.
Record forwarded_identity := ForwardedIdentity { real_ip : text; ts : Z; mac : text }.

Definition message (real_ip : text) (ts : Z) : text := real_ip ++ [124] ++ decimal_i64 ts.
(** [ts] is the clock in milliseconds, 0 before the epoch. *)
Definition stamp (real_ip : ip_addr) (secret : text) (clock : option Z) : forwarded_identity :=
  let ts := match clock with Some ms => swrap 64 ms | None => 0 end in
  ForwardedIdentity (ip_text real_ip) ts (Sha.hmac_hex secret (message (ip_text real_ip) ts)).
Definition constant_time_eq : list Z -> list Z -> bool := Aegis.Passwords.constant_time_eq.
(** [i64::abs], which leaves the least value as it is in release builds. *)
Definition abs64 (x : Z) : Z := swrap 64 (Z.abs x).
Definition verify (id : forwarded_identity) (secret : text) (max_age_ms now_ms : Z) : result unit edge_error :=
  let want := Sha.hmac_hex secret (message (real_ip id) (ts id)) in
  if negb (constant_time_eq want (mac id)) then Err Shielding
  else if max_age_ms <? abs64 (swrap 64 (now_ms - ts id)) then Err Shielding
  else Ok tt.

Definition i64_range (z : Z) : Prop := - 2 ^ 63 <= z < 2 ^ 63.

(** The authenticated text determines the address and the time. *)
Lemma message_inj ip ip' t t' : i64_range t -> i64_range t' -> message ip t = message ip' t' -> ip = ip' /\ t = t'.
Proof.
  unfold i64_range, message. intros Ht Ht' E.
  assert (Hb : forall n, - 2 ^ 63 <= n < 2 ^ 63 -> 124 ∉ rev (decimal_i64 n)).
  { intros n Hn H. rewrite list_elem_of_In, <- in_rev, <- list_elem_of_In in H.
    pose proof (decimal_i64_bytes n ltac:(lia)) as Hd. rewrite Forall_forall in Hd. by destruct (Hd _ H). }
  apply (f_equal (@rev Z)) in E. rewrite !rev_app_distr, <- !app_assoc in E. cbn in E.
  apply (f_equal (split_once 124)) in E. rewrite !split_once_first in E by by apply Hb. injection E as E1 E2.
  apply (f_equal (@rev Z)) in E1, E2. rewrite !rev_involutive in E1, E2.
  split; [done|]. apply decimal_i64_inj in E1; lia.
Qed.

Lemma verify_spec id secret max_age now : verify id secret max_age now = Ok tt <->
  mac id = Sha.hmac_hex secret (message (real_ip id) (ts id)) /\ abs64 (swrap 64 (now - ts id)) <= max_age.
Proof.
  unfold verify, constant_time_eq. rewrite Aegis.Passwords.constant_time_eq_spec. case_bool_decide as E; cbn [negb].
  - destruct (Z.ltb_spec max_age (abs64 (swrap 64 (now - ts id)))); naive_solver lia.
  - naive_solver.
Qed.

(** The origin accepts exactly the headers whose MAC is the one the edge
    computes for that address and time under the shared secret and whose age,
    either way, is within the window; what the edge stamps is accepted for as
    long as the window lasts, and a MAC the edge computed for one address and
    time covers no other pair's text. (An age of exactly [-2^63] has no absolute
    value and passes any nonnegative window; the last conjunct shows it.) *)
Theorem forwarded_identity_spec (secret : text) (max_age now : Z) (id : forwarded_identity) (ip : ip_addr) (ms : Z) :
  0 <= max_age < 2 ^ 63 -> i64_range now -> i64_range (ts id) -> i64_range ms -> i64_range (now - ms) ->
  (verify id secret max_age now = Ok tt <->
   mac id = Sha.hmac_hex secret (message (real_ip id) (ts id)) /\
   (Z.abs (swrap 64 (now - ts id)) <= max_age \/ swrap 64 (now - ts id) = - 2 ^ 63)) /\
  (- 2 ^ 63 < now - ms -> verify (stamp ip secret (Some ms)) secret max_age now = Ok tt <-> Z.abs (now - ms) <= max_age) /\
  (message (real_ip id) (ts id) = message (ip_text ip) ms <-> real_ip id = ip_text ip /\ ts id = ms).
Proof.
  unfold i64_range. intros Hm Hn Ht Hs Hd.
  assert (Ha : forall x, - 2 ^ 63 <= x < 2 ^ 63 -> abs64 x <= max_age <-> Z.abs x <= max_age \/ x = - 2 ^ 63).
  { intros x Hx. unfold abs64. destruct (decide (x = - 2 ^ 63)) as [->|Hne].
    - split; [by right|]. intros _. change (swrap 64 (Z.abs (- 2 ^ 63))) with (- 2 ^ 63). lia.
    - rewrite swrap_small by (change (2 ^ (64 - 1)) with (2 ^ 63); lia). naive_solver lia. }
  assert (Hw : forall z, - 2 ^ 63 <= swrap 64 z < 2 ^ 63).
  { intros z. unfold swrap. pose proof (Z.mod_pos_bound z (2 ^ 64) ltac:(lia)). change (2 ^ (64 - 1)) with (2 ^ 63). case_decide; lia. }
  split_and!.
  - rewrite verify_spec, Ha by apply Hw. done.
  - intros Hne. rewrite verify_spec. cbn [stamp real_ip ts mac]. rewrite !swrap_small by (change (2 ^ (64 - 1)) with (2 ^ 63); lia).
    rewrite Ha by lia. naive_solver lia.
  - split; [intros E; by apply message_inj in E|by intros [-> ->]].
Qed.

Lemma forwarded_identity_spec_witness :
  let secret := codes "secret" in
  let id := stamp (V4 2852039166) secret (Some 1000) in
  verify id secret 60000 2000 = Ok tt /\ verify id (codes "wrong") 60000 1000 = Err Shielding /\
  verify (ForwardedIdentity (codes "10.0.0.1") (ts id) (mac id)) secret 60000 1000 = Err Shielding /\
  Z.abs (2000 - 1000) <= 60000.
Proof.
  intros secret id. split_and!; [vm_compute; reflexivity..|].
  apply (forwarded_identity_spec secret 60000 2000 id (V4 2852039166) 1000); [lia|unfold i64_range; lia|vm_compute; split; congruence|unfold i64_range; lia..|lia|].
  vm_compute. reflexivity.
Defined.

(** [mac] is documented as the hexadecimal HMAC-SHA256; it is the digest of it. *)
Lemma mac_is_hashed_again :
  let key := replicate 20 11 in
  Sha.hmac_hex key (codes "Hi There") = Sha.sha256_hex (Sha.hmac_sha256_bytes key (codes "Hi There")) /\
  Sha.hmac_hex key (codes "Hi There") <> hex (Sha.hmac_sha256_bytes key (codes "Hi There")).
Proof. split; [reflexivity|]. vm_compute. congruence. Qed.
End Forward.

(** ** Admission *)
Module Edge.
Record edge_config := EdgeConfig {
  origin : ip_addr * Z; forward_secret : text; per_ip_connection_limit : Z; origin_connection_limit : Z;
  query_rate_per_window : Z; query_window : Z; denied_networks : list text; shield_allow_networks : list text;
  health_check_interval : Z; fail_closed : bool }.
Definition config_default : edge_config :=
  EdgeConfig (V4 (127 * 2 ^ 24 + 1), 30120) [] 16 4096 10 10000 [] [] 5000 true.

Inductive deny_reason := BannedNetwork | BannedIp | Quarantined.
Inductive admission_verdict := Allow | DeniedIp (reason : deny_reason) | DeniedRateLimit | DeniedOriginCapacity | DeniedShielding.
#[global] Instance verdict_eq_dec : EqDecision admission_verdict.
Proof. intros x y. unfold Decision. repeat decide equality. Defined.

(** *** Networks *)
Definition is_v4 (a : ip_addr) : bool := match a with V4 _ => true | V6 _ => false end.
(** [str::parse::<u8>]. *)
Definition parse_u8 (l : text) : option Z := n ← parse_u32 l; if n <=? 255 then Some n else None.
Definition parse_net (s : text) : result (ip_addr * Z) Forward.edge_error :=
  match split_once 47 s with
  | None => Err (Forward.BadCidr s)
  | Some (addr, prefix) =>
      match parse_ip (trim_text addr) with
      | None => Err (Forward.BadCidr s)
      | Some addr =>
          match parse_u8 (trim_text prefix) with
          | None => Err (Forward.BadCidr s)
          | Some prefix => if (if is_v4 addr then 32 else 128) <? prefix then Err (Forward.BadCidr s) else Ok (addr, prefix)
          end
      end
  end.
Definition parse_nets (l : list text) : result (list (ip_addr * Z)) Forward.edge_error :=
  try_fold (fun acc s => let? n := parse_net s in Ok (acc ++ [n])) [] l.
(** [x >> s] of a [w]-bit integer: the amount is taken modulo the width in
    release builds. *)
Definition shr (w x s : Z) : Z := Z.shiftr x (s mod w).
Definition ip_in_net (ip net : ip_addr) (prefix : Z) : bool :=
  match ip, net with
  | V4 a, V4 n => let shift := sat_sub 32 prefix in shr 32 a shift =? shr 32 n shift
  | V6 a, V6 n => let shift := sat_sub 128 prefix in shr 128 (be_val a) shift =? shr 128 (be_val n) shift
  | _, _ => false
  end.
Definition net_matches (nets : list (ip_addr * Z)) (ip : ip_addr) : bool := existsb (fun n => ip_in_net ip n.1 n.2) nets.

(** *** The listener *)
Record edge_admission := EdgeAdmission {
  config : edge_config; per_ip : gmap ip_addr Z; denied_ips : gset ip_addr; denied_nets : list (ip_addr * Z);
  shield_nets : list (ip_addr * Z); origin_in_use : Z; shielding : bool; query_limiter : Query.rate_limiter ip_addr }.
Definition eta (a : edge_admission) : edge_admission :=
  EdgeAdmission (config a) (per_ip a) (denied_ips a) (denied_nets a) (shield_nets a) (origin_in_use a) (shielding a) (query_limiter a).
Definition set_per_ip : gmap ip_addr Z -> edge_admission -> edge_admission := ltac:(setter eta per_ip).
Definition set_denied_ips : gset ip_addr -> edge_admission -> edge_admission := ltac:(setter eta denied_ips).
Definition set_origin_in_use : Z -> edge_admission -> edge_admission := ltac:(setter eta origin_in_use).
Definition set_shielding_ : bool -> edge_admission -> edge_admission := ltac:(setter eta shielding).
Definition set_query_limiter : Query.rate_limiter ip_addr -> edge_admission -> edge_admission := ltac:(setter eta query_limiter).

Definition edge_new (c : edge_config) : result edge_admission Forward.edge_error :=
  let? denied := parse_nets (denied_networks c) in
  let? shield := parse_nets (shield_allow_networks c) in
  Ok (EdgeAdmission c ∅ ∅ denied shield 0 false (Query.limiter_new (query_rate_per_window c) (query_window c))).

Definition denied (a : edge_admission) (src : ip_addr) : bool := bool_decide (src ∈ denied_ips a) || net_matches (denied_nets a) src.
(** What an origin that is down does to a connection. *)
Definition shielded_off (a : edge_admission) (src : ip_addr) : bool :=
  shielding a && (negb (net_matches (shield_nets a) src) || fail_closed (config a)).

Definition admit_connection (a : edge_admission) (src : ip_addr) : admission_verdict * edge_admission :=
  if denied a src then (DeniedIp (if bool_decide (src ∈ denied_ips a) then BannedIp else BannedNetwork), a)
  else if shielded_off a src then (DeniedShielding, a)
  else
    let count := default 0 (per_ip a !! src) in
    let a := set_per_ip (<[src := count]> (per_ip a)) a in
    if per_ip_connection_limit (config a) <=? count then (DeniedRateLimit, a)
    else if origin_connection_limit (config a) <=? origin_in_use a then (DeniedOriginCapacity, a)
    else (Allow, set_origin_in_use (wrap 32 (origin_in_use a + 1)) (set_per_ip (<[src := wrap 32 (count + 1)]> (per_ip a)) a)).

Definition release_connection (a : edge_admission) (src : ip_addr) : edge_admission :=
  let a := match per_ip a !! src with
           | Some c => let c := if 0 <? c then c - 1 else c in
               set_per_ip (if c =? 0 then delete src (per_ip a) else <[src := c]> (per_ip a)) a
           | None => a
           end in
  if 0 <? origin_in_use a then set_origin_in_use (origin_in_use a - 1) a else a.

Definition admit_query (a : edge_admission) (now : Z) (src : ip_addr) : admission_verdict * edge_admission :=
  if denied a src then (DeniedIp BannedNetwork, a)
  else match Query.check (query_limiter a) now src with
  | (Ok _, l) => (Allow, set_query_limiter l a)
  | (Err _, l) => (DeniedRateLimit, set_query_limiter l a)
  end.
Definition ban_ip (a : edge_admission) (ip : ip_addr) : edge_admission := set_denied_ips ({[ip]} ∪ denied_ips a) a.
Definition unban_ip (a : edge_admission) (ip : ip_addr) : edge_admission := set_denied_ips (denied_ips a ∖ {[ip]}) a.
Definition set_shielding (a : edge_admission) (b : bool) : edge_admission := set_shielding_ b a.
Definition gc (a : edge_admission) (now : Z) : edge_admission :=
  set_per_ip (filter (fun c => 0 < c.2) (per_ip a)) (set_query_limiter (Query.gc (query_limiter a) now) a).

(** *** Executions *)
Inductive op := Connect (src : ip_addr) | Release (src : ip_addr) | Probe (now : Z) (src : ip_addr) | Ban (ip : ip_addr) | Unban (ip : ip_addr)
  | Shield (b : bool) | Gc (now : Z).
Definition step (a : edge_admission) (o : op) : edge_admission :=
  match o with
  | Connect src => (admit_connection a src).2 | Release src => release_connection a src
  | Probe now src => (admit_query a now src).2 | Ban ip => ban_ip a ip | Unban ip => unban_ip a ip
  | Shield b => set_shielding a b | Gc now => gc a now
  end.
(** The connections open after an operation, from those open before: the
    admitted ones not released yet. *)
Definition open_step (a : edge_admission) (o : op) (conns : list ip_addr) : list ip_addr :=
  match o with
  | Connect src => if bool_decide ((admit_connection a src).1 = Allow) then src :: conns else conns
  | Release src => match position (fun x => bool_decide (x = src)) conns with Some i => delete i conns | None => conns end
  | _ => conns
  end.
(** Every release is of an open connection. *)
Inductive exec (c : edge_config) : edge_admission -> list ip_addr -> Prop :=
| exec_new a : edge_new c = Ok a -> exec c a []
| exec_step a conns o : exec c a conns -> (forall src, o = Release src -> src ∈ conns) -> exec c (step a o) (open_step a o conns).
Definition held (src : ip_addr) (conns : list ip_addr) : Z := len (filter (fun x => x = src) conns).

Record inv (c : edge_config) (a : edge_admission) (conns : list ip_addr) : Prop := Inv {
  inv_config : config a = c;
  inv_per_ip : forall src, default 0 (per_ip a !! src) = held src conns;
  inv_origin : origin_in_use a = len conns;
  inv_limit : forall src, held src conns <= per_ip_connection_limit c;
  inv_total : len conns <= origin_connection_limit c;
  inv_range : forall src n, per_ip a !! src = Some n -> 0 <= n }.
Definition config_range (c : edge_config) : Prop := fits 32 (per_ip_connection_limit c) /\ fits 32 (origin_connection_limit c).

Lemma held_cons x y conns : held x (y :: conns) = (if decide (y = x) then 1 else 0) + held x conns.
Proof. unfold held, len. rewrite filter_cons. case_decide; cbn [length]; lia. Qed.
Lemma held_nonneg x conns : 0 <= held x conns.
Proof. apply len_nonneg. Qed.
Lemma held_le x conns : held x conns <= len conns.
Proof. unfold held, len. pose proof (length_filter (fun y => y = x) conns). lia. Qed.
Lemma held_delete x i y conns : conns !! i = Some y -> held x (delete i conns) = held x conns - (if decide (y = x) then 1 else 0).
Proof.
  intros Hi. assert (E : held x conns = held x (y :: delete i conns)) by (unfold held, len; by rewrite (delete_Permutation conns i y) at 1).
  rewrite E, held_cons. lia.
Qed.
Lemma held_in x conns : x ∈ conns -> 0 < held x conns.
Proof. intros (i & Hi)%list_elem_of_lookup. pose proof (held_delete x i x conns Hi) as H. rewrite decide_True in H by done. pose proof (held_nonneg x (delete i conns)). lia. Qed.

Lemma admit_unchanged a src : (admit_connection a src).1 <> Allow ->
  config (admit_connection a src).2 = config a /\ origin_in_use (admit_connection a src).2 = origin_in_use a /\
  (per_ip (admit_connection a src).2 = per_ip a \/ per_ip (admit_connection a src).2 = <[src := default 0 (per_ip a !! src)]> (per_ip a)).
Proof. unfold admit_connection. intros H. repeat case_match; cbn in *; naive_solver. Qed.

Lemma admit_allow a src : (admit_connection a src).1 = Allow <->
  denied a src = false /\ shielded_off a src = false /\ default 0 (per_ip a !! src) < per_ip_connection_limit (config a) /\
  origin_in_use a < origin_connection_limit (config a).
Proof.
  unfold admit_connection. destruct (denied a src); [naive_solver|]. destruct (shielded_off a src); [naive_solver|]. cbn.
  destruct (Z.leb_spec (per_ip_connection_limit (config a)) (default 0 (per_ip a !! src))); [naive_solver lia|]. cbn.
  destruct (Z.leb_spec (origin_connection_limit (config a)) (origin_in_use a)); naive_solver lia.
Qed.

Lemma admit_state a src : (admit_connection a src).1 = Allow ->
  (admit_connection a src).2 = set_origin_in_use (wrap 32 (origin_in_use a + 1))
    (set_per_ip (<[src := wrap 32 (default 0 (per_ip a !! src) + 1)]> (<[src := default 0 (per_ip a !! src)]> (per_ip a))) a).
Proof. unfold admit_connection. by repeat case_match. Qed.

Lemma new_inv c a : config_range c -> edge_new c = Ok a -> inv c a [].
Proof.
  unfold edge_new, config_range, fits. intros [Hc1 Hc2]. rewrite rbind_ok. intros (d & _ & H). apply rbind_ok in H as (s & _ & [= <-]).
  split; cbn; unfold held, len; cbn; intros; [done|by rewrite lookup_empty|done|lia|lia|by rewrite lookup_empty in *].
Qed.

Lemma connect_inv c a conns src : config_range c -> inv c a conns -> inv c (step a (Connect src)) (open_step a (Connect src) conns).
Proof.
  unfold config_range, fits. intros [Hc1 Hc2] [H1 H2 H3 H4 H5 H6]. cbn [step open_step]. case_bool_decide as E.
  - rewrite (admit_state _ _ E). apply admit_allow in E as (_ & _ & Hl & Ho). rewrite H1 in *. rewrite H2 in *.
    pose proof (held_nonneg src conns). pose proof (len_nonneg conns).
    split; cbn [config per_ip origin_in_use set_origin_in_use set_per_ip]; [done|..].
    + intros x. rewrite insert_insert_eq, held_cons. case_decide as Hx.
      * subst x. rewrite lookup_insert_eq. cbn. rewrite wrap_small by (unfold fits; lia). lia.
      * rewrite lookup_insert_ne by done. by rewrite H2.
    + rewrite len_cons, wrap_small by (unfold fits; lia). lia.
    + intros x. rewrite held_cons. case_decide; subst; [lia|by apply H4].
    + rewrite len_cons. lia.
    + intros x n. rewrite insert_insert_eq, lookup_insert_Some. intros [[_ <-]|[_ Hn]]; [apply Z.mod_pos_bound; lia|by eapply H6].
  - destruct (admit_unchanged a src E) as (Hg & Ho & Hp). rewrite H2 in Hp.
    pose proof (held_nonneg src conns). split; [by rewrite Hg| |by rewrite Ho|done|done|].
    + intros x. destruct Hp as [-> | ->]; [apply H2|]. destruct (decide (x = src)) as [->|]; [by rewrite lookup_insert_eq|by rewrite lookup_insert_ne].
    + intros x n. destruct Hp as [-> | ->]; [apply H6|]. rewrite lookup_insert_Some. intros [[_ <-]|[_ Hn]]; [done|by eapply H6].
Qed.

Lemma release_inv c a conns src : src ∈ conns -> inv c a conns -> inv c (step a (Release src)) (open_step a (Release src) conns).
Proof.
  intros Hin [H1 H2 H3 H4 H5 H6]. cbn [step open_step].
  destruct (position _ conns) as [i|] eqn:Ep.
  2: { apply position_None in Ep. rewrite Forall_forall in Ep. specialize (Ep _ Hin). cbn in Ep. by rewrite bool_decide_eq_true_2 in Ep. }
  apply position_Some in Ep as (y & Hi & Hy & _). bool_prop. subst y.
  pose proof (held_in src conns Hin) as Hpos. pose proof (held_le src conns). pose proof (H2 src) as Hs.
  destruct (per_ip a !! src) as [n|] eqn:En; cbn in Hs; [|lia]. subst n.
  assert (Hlen : len (delete i conns) = len conns - 1).
  { unfold len. rewrite (delete_Permutation conns i src Hi) at 2. cbn [length]. lia. }
  unfold release_connection. rewrite En, (proj2 (Z.ltb_lt 0 (held src conns))) by lia. cbn [origin_in_use set_per_ip].
  rewrite (proj2 (Z.ltb_lt 0 (origin_in_use a))) by lia.
  split; cbn [config per_ip origin_in_use set_origin_in_use set_per_ip]; [done|..].
  - intros x. rewrite (held_delete x i src) by done. destruct (Z.eqb_spec (held src conns - 1) 0) as [E|E]; case_decide as Hx; try subst x.
    + rewrite lookup_delete_eq. cbn. lia.
    + rewrite lookup_delete_ne, H2 by done. lia.
    + rewrite lookup_insert_eq. done.
    + rewrite lookup_insert_ne, H2 by done. lia.
  - lia.
  - intros x. rewrite (held_delete x i src) by done. specialize (H4 x). case_decide; lia.
  - lia.
  - intros x n. destruct (Z.eqb_spec (held src conns - 1) 0) as [E|E]; [rewrite lookup_delete_Some|rewrite lookup_insert_Some].
    + intros [_ Hn]. by eapply H6.
    + intros [[_ <-]|[_ Hn]]; [lia|by eapply H6].
Qed.

Lemma exec_inv c a conns : config_range c -> exec c a conns -> inv c a conns.
Proof.
  intros Hc. induction 1 as [a Ha|a conns o _ IH Hr]; [by apply new_inv|].
  destruct o as [src|src|now src|ip|ip|b|now]; [by apply connect_inv|apply release_inv; [by apply Hr|done]|..];
    destruct IH as [H1 H2 H3 H4 H5 H6]; cbn [step open_step].
  - unfold admit_query. destruct (denied a src); [by split|]. destruct (Query.check _ _ _) as [[|] l]; by split.
  - by split.
  - by split.
  - by split.
  - split; cbn; [done| |done..|].
    + intros src. rewrite <- H2. destruct (filter _ (per_ip a) !! src) as [n|] eqn:E.
      * apply map_lookup_filter_Some in E as [E _]. by rewrite E.
      * apply map_lookup_filter_None in E as [E|E]; [by rewrite E|]. destruct (per_ip a !! src) as [n|] eqn:En; [|done].
        specialize (E n eq_refl). cbn in E |- *. specialize (H6 src n En). lia.
    + intros src n [E _]%map_lookup_filter_Some. by eapply H6.
Qed.

(** C34: under releases of open connections only, the edge never has more than
    its limit of connections from an address or to the origin, its counters are
    those connections, and the next connection is admitted exactly when its
    address is in no ban list, the shield lets it through and both limits have
    room; otherwise the reason given is the first that applies. *)
Theorem edge_limits (c : edge_config) (a : edge_admission) (conns : list ip_addr) (src : ip_addr) :
  config_range c -> exec c a conns ->
  len conns <= origin_connection_limit c /\ origin_in_use a = len conns /\
  (forall ip, held ip conns <= per_ip_connection_limit c /\ default 0 (per_ip a !! ip) = held ip conns) /\
  (admit_connection a src).1 =
    (if bool_decide (src ∈ denied_ips a) then DeniedIp BannedIp
     else if net_matches (denied_nets a) src then DeniedIp BannedNetwork
     else if shielding a && (negb (net_matches (shield_nets a) src) || fail_closed c) then DeniedShielding
     else if per_ip_connection_limit c <=? held src conns then DeniedRateLimit
     else if origin_connection_limit c <=? len conns then DeniedOriginCapacity else Allow).
Proof.
  intros Hc He. destruct (exec_inv c a conns Hc He) as [H1 H2 H3 H4 H5 H6]. split_and!; [done|done|by split|].
  unfold admit_connection, denied, shielded_off. rewrite H1. destruct (bool_decide (src ∈ denied_ips a)); cbn; [done|].
  destruct (net_matches (denied_nets a) src); cbn; [done|]. destruct (shielding a && _); cbn; [done|]. rewrite H1, H2, H3. by repeat case_match.
Qed.

Lemma edge_limits_witness :
  let c := EdgeConfig (V4 1, 1) [] 2 3 10 1000 [codes "10.0.0.0/8"] [] 5000 true in
  let ip := V4 1 in
  exists a, exec c a [ip; V4 2; ip] /\ len [ip; V4 2; ip] <= 3 /\ (admit_connection a ip).1 = DeniedRateLimit /\
    (admit_connection a (V4 3)).1 = DeniedOriginCapacity /\ (admit_connection a (V4 (10 * 2 ^ 24 + 7))).1 = DeniedIp BannedNetwork.
Proof.
  intros c ip. destruct (edge_new c) as [a0|] eqn:E0; [|vm_compute in E0; discriminate].
  exists (step (step (step a0 (Connect ip)) (Connect (V4 2))) (Connect ip)).
  assert (Ha : a0 = match edge_new c with Ok a => a | Err _ => a0 end) by by rewrite E0.
  assert (He : exec c (step (step (step a0 (Connect ip)) (Connect (V4 2))) (Connect ip)) [ip; V4 2; ip]).
  { assert (Ho : open_step (step (step a0 (Connect ip)) (Connect (V4 2))) (Connect ip)
      (open_step (step a0 (Connect ip)) (Connect (V4 2)) (open_step a0 (Connect ip) [])) = [ip; V4 2; ip]).
    { vm_compute in E0. injection E0 as <-. vm_compute. reflexivity. }
    rewrite <- Ho. repeat (constructor; [|intros ? [=]]). by constructor. }
  split; [exact He|]. split; [apply (edge_limits c _ _ ip) in He; [apply He|vm_compute; split; split; congruence]|].
  clear He Ha. vm_compute in E0. injection E0 as <-. vm_compute. done.
Defined.

(** A release that matches no admission takes a slot back from the others. *)
Lemma stray_release_frees_origin :
  let c := EdgeConfig (V4 1, 1) [] 2 1 10 1000 [] [] 5000 true in
  exists a, edge_new c = Ok a /\
    let a := release_connection (admit_connection a (V4 1)).2 (V4 9) in
    origin_in_use a = 0 /\ per_ip a !! V4 1 = Some 1 /\ (admit_connection a (V4 2)).1 = Allow.
Proof. eexists. split; [reflexivity|]. vm_compute. done. Qed.

(** *** What a network matches *)
Lemma shr_prefix w p a b : 0 < p <= w -> fits w a -> fits w b ->
  (shr w a (sat_sub w p) =? shr w b (sat_sub w p)) = true <-> same_prefix w p a b.
Proof.
  intros Hp Ha Hb. unfold shr, same_prefix, sat_sub. rewrite Z.max_r, Z.mod_small by lia.
  rewrite Z.eqb_eq, !Z.shiftr_div_pow2 by lia. done.
Qed.
Lemma shr_zero w a b : 0 < w -> (shr w a (sat_sub w 0) =? shr w b (sat_sub w 0)) = true <-> a = b.
Proof. intros Hw. unfold shr, sat_sub. rewrite Z.sub_0_r, Z.max_r, Z_mod_same_full, !Z.shiftr_0_r by lia. apply Z.eqb_eq. Qed.
Lemma octets_fit o : byte_list o -> length o = 16%nat -> fits 128 (be_val o).
Proof. intros Hb Hl. unfold be_val. pose proof (le_val_fits (rev o)) as H. rewrite length_rev, Hl in H. apply H. by apply Forall_rev. Qed.
Lemma octets_inj o o' : byte_list o -> byte_list o' -> length o = length o' -> be_val o = be_val o' -> o = o'.
Proof.
  intros Hb Hb' Hl E. unfold be_val in E. rewrite <- (rev_involutive o), <- (rev_involutive o'). f_equal.
  rewrite <- (le_bytes_val (rev o)), <- (le_bytes_val (rev o')) by by apply Forall_rev. by rewrite E, !length_rev, Hl.
Qed.

Lemma parse_net_wf s net p : parse_net s = Ok (net, p) -> wf_ip net /\ 0 <= p <= (if is_v4 net then 32 else 128).
Proof.
  unfold parse_net. destruct (split_once 47 s) as [[x y]|]; [|done]. destruct (parse_ip (trim_text x)) as [a|] eqn:Ea; [|done].
  destruct (parse_u8 (trim_text y)) as [n|] eqn:En; [|done]. destruct (Z.ltb_spec (if is_v4 a then 32 else 128) n); [done|]. intros [= <- <-].
  split; [by eapply parse_ip_wf|]. split; [|done]. unfold parse_u8 in En. destruct (parse_u32 _) as [m|] eqn:Em; [|done]. cbn in En.
  destruct (m <=? 255); [|done]. injection En as ->.
  assert (Hd : forall l acc k, 0 <= acc -> parse_digits acc l = Some k -> 0 <= k).
  { clear. induction l as [|c l IH]; intros acc k Hacc; cbn; [intros; simplify_eq; lia|].
    intros E. case_match; [|done]. bool_prop. eapply IH; [|done]. lia. }
  unfold parse_u32 in Em. repeat case_match; try done; by eapply Hd.
Qed.

(** A configured network matches exactly the addresses that agree with it
    on its prefix, as the trusted-proxy ranges of the origin do, when the prefix
    has a bit; with the prefix 0, which should match the whole family, it matches
    its own address only, as the shift by the width is a shift by nothing. *)
Theorem net_match (s : text) (net ip : ip_addr) (p : Z) :
  parse_net s = Ok (net, p) -> wf_ip ip ->
  (0 < p -> ip_in_net ip net p = true <-> in_prefix (Cidr net p) ip) /\
  (p = 0 -> ip_in_net ip net p = true <-> ip = net).
Proof.
  intros (Hn & Hp)%parse_net_wf Hi. unfold in_prefix. cbn [base prefix].
  destruct net as [n|n], ip as [a|a]; cbn [is_v4 ip_in_net wf_ip] in *.
  - split; [intros; apply shr_prefix; [lia|done..]|]. intros ->. rewrite shr_zero by lia. split; [by intros ->|by intros [= ->]].
  - by repeat split.
  - by repeat split.
  - destruct Hn as [Hb Hl], Hi as [Hb' Hl']. split; [intros; apply shr_prefix; [lia|by apply octets_fit..]|].
    intros ->. rewrite shr_zero by lia. split; [intros E; f_equal; apply octets_inj; [done..|congruence|done]|by intros [= ->]].
Qed.

Lemma net_match_witness :
  parse_net (codes "10.1.0.0 / 16") = Ok (V4 (10 * 2 ^ 24 + 2 ^ 16), 16) /\
  (ip_in_net (V4 (10 * 2 ^ 24 + 2 ^ 16 + 9)) (V4 (10 * 2 ^ 24 + 2 ^ 16)) 16 = true <->
   in_prefix (Cidr (V4 (10 * 2 ^ 24 + 2 ^ 16)) 16) (V4 (10 * 2 ^ 24 + 2 ^ 16 + 9))) /\
  parse_net (codes "0.0.0.0/0") = Ok (V4 0, 0) /\ ip_in_net (V4 7) (V4 0) 0 = false.
Proof.
  assert (H : parse_net (codes "10.1.0.0 / 16") = Ok (V4 (10 * 2 ^ 24 + 2 ^ 16), 16)) by (vm_compute; reflexivity).
  split; [exact H|]. split; [|split; vm_compute; reflexivity].
  apply (net_match _ _ (V4 (10 * 2 ^ 24 + 2 ^ 16 + 9)) _ H); [cbn; unfold fits; lia|lia].
Defined.
End Edge.

(** ** Health of the origin *)
Module Health.
Inductive origin_health := Healthy | Degraded | Down.
#[global] Instance origin_health_eq_dec : EqDecision origin_health.
Proof. solve_decision. Defined.
Record health_checker := Checker { state : origin_health; last_change : Z; consecutive_failures : Z; failure_threshold : Z }.
Definition checker_new (threshold now : Z) : health_checker := Checker Healthy now 0 threshold.
(** A change of state is stamped; staying in one is not. *)
Definition enter (h : health_checker) (now : Z) (s : origin_health) (failures : Z) : health_checker :=
  Checker s (if bool_decide (s = state h) then last_change h else now) failures (failure_threshold h).
Definition record (h : health_checker) (now : Z) (ok : bool) : health_checker :=
  if ok then enter h now Healthy 0
  else
    let failures := wrap 32 (consecutive_failures h + 1) in
    enter h now (if failure_threshold h <=? failures then Down else Degraded) failures.
Definition since_change (h : health_checker) (now : Z) : Z := sat_sub now (last_change h).

(** The failures at the end of the probes. *)
Fixpoint trailing (probes : list (Z * bool)) : Z :=
  match probes with [] => 0 | (_, ok) :: r => if ok then 0 else 1 + trailing r end.
Definition verdict (threshold failures : Z) : origin_health :=
  if failures =? 0 then Healthy else if threshold <=? failures then Down else Degraded.
Definition after (threshold now : Z) (probes : list (Z * bool)) : health_checker :=
  foldl (fun h p => record h p.1 p.2) (checker_new threshold now) probes.

Lemma after_snoc threshold now probes p : after threshold now (probes ++ [p]) = record (after threshold now probes) p.1 p.2.
Proof. unfold after. by rewrite foldl_app. Qed.
Lemma trailing_bound probes : 0 <= trailing probes <= len probes.
Proof. induction probes as [|[t []] r IH]; cbn [trailing]; rewrite ?len_cons; [done|pose proof (len_nonneg r); lia|lia]. Qed.

(** After any probes the origin is healthy when the last one answered, and
    otherwise down from the threshold of failures in a row and degraded before;
    the time of the last change moves with the state and only with it. *)
Theorem health_spec (threshold now : Z) (probes : list (Z * bool)) (t : Z) (ok : bool) :
  len probes < 2 ^ 32 - 1 ->
  let h := after threshold now probes in
  let h' := after threshold now (probes ++ [(t, ok)]) in
  state h = verdict threshold (trailing (rev probes)) /\
  state h' = verdict threshold (if ok then 0 else 1 + trailing (rev probes)) /\
  last_change h' = (if bool_decide (state h' = state h) then last_change h else t).
Proof.
  intros Hl h h'.
  assert (Hg : forall ps, len ps < 2 ^ 32 -> state (after threshold now ps) = verdict threshold (trailing (rev ps)) /\
    consecutive_failures (after threshold now ps) = trailing (rev ps) /\ failure_threshold (after threshold now ps) = threshold).
  { clear. induction ps as [|[t ok] ps IH] using rev_ind; intros Hl; [done|]. rewrite len_app, len_cons in Hl. change (len []) with 0 in Hl.
    destruct IH as (H1 & H2 & H3); [lia|]. rewrite after_snoc, rev_app_distr. cbn [rev app trailing fst snd].
    pose proof (trailing_bound (rev ps)) as Hb. unfold len in Hb at 1. rewrite length_rev in Hb. fold (len ps) in Hb.
    unfold record. destruct ok; cbn [enter state consecutive_failures failure_threshold]; [done|]. rewrite H2, H3, wrap_small by (unfold fits; lia).
    split_and!; [|lia|done]. unfold verdict. rewrite (proj2 (Z.eqb_neq (1 + _) 0)) by lia. by rewrite Z.add_comm. }
  destruct (Hg probes) as (H1 & H2 & H3); [lia|]. split; [exact H1|].
  destruct (Hg (probes ++ [(t, ok)])) as (H1' & _ & _); [rewrite len_app, len_cons; change (len []) with 0; lia|].
  split; [subst h'; rewrite H1', rev_app_distr; by destruct ok|].
  subst h'. rewrite after_snoc. cbn [fst snd]. fold h. unfold record. by destruct ok.
Qed.

Lemma health_spec_witness :
  let probes := [(1, false); (2, false)] in
  len probes < 2 ^ 32 - 1 /\ state (after 3 0 probes) = Degraded /\ state (after 3 0 (probes ++ [(3, false)])) = verdict 3 3 /\
  state (after 3 0 (probes ++ [(3, false)])) = Down.
Proof.
  intros probes. split; [vm_compute; done|]. split; [reflexivity|]. split; [|reflexivity].
  apply (health_spec 3 0 probes 3 false). vm_compute. done.
Defined.
End Health.
