(* ===== verification/Server.v ===== *)
(** The server process around its handlers (crates/ald-network/src/transport.rs
    and ratelimit.rs, server/ald-server/src/transfer.rs, state.rs and
    console.rs): datagrams ([Transport]), the token bucket ([Limiter]), serving
    file chunks ([Transfer]), the ingress gate and the network loop over the
    admission manager and the player service ([Ingress]), and the console
    ([Console]). Sockets and the clock are inputs: a turn of the loop is given
    what the socket returned, the readings it takes and which sends succeed. *)
From Stdlib Require Import Floats.SpecFloat.
From S2P Require Import Prelude RustStr Bytes Packet Frames Queue Deferrals Handshake Identity Admission.
From S2P Require Vfs Framework Network.

(** ** Datagrams *)
Module Transport.
Definition MTU : nat := 1400.
(** What [send] hands to the socket, and what [recv] makes of a datagram: the
    buffer holds [MTU] bytes, and the system drops the rest. *)
Definition send (p : packet) : result (list Z) ald_error := encode_packet p.
Definition recv (datagram : list Z) : result packet ald_error := decode_packet (take MTU datagram) PROTOCOL_VERSION.

Lemma decode_length bs v p : decode_packet bs v = Ok p -> (HEADER_LEN <= length bs)%nat /\
  Z.of_nat (length bs) = Z.of_nat HEADER_LEN + Z.max 0 (le_val (slice bs 28 32)).
Proof.
  unfold decode_packet. case_bool_decide as Hl; [done|]. cbv zeta. destruct (negb _); [done|].
  destruct (channel_from_u8 _); [|done]. cbn [ok_or rbind]. destruct (MAX_PAYLOAD <? _); [done|].
  destruct (negb (bool_decide _)) eqn:E; [done|]. intros _. bool_prop. split; lia.
Qed.

Lemma oversize_lost p bs : wf_packet p -> send p = Ok bs -> (MTU < length bs)%nat -> is_ok (recv bs) = false.
Proof.
  intros Hp Hs Hl. pose proof (decode_encode_packet p bs Hp Hs) as Hd.
  destruct (recv bs) as [q|] eqn:E; [|done]. exfalso. unfold recv in E.
  apply decode_length in E as [_ E]. apply decode_length in Hd as [_ Hd].
  assert (Hsl : slice (take MTU bs) 28 32 = slice bs 28 32).
  { unfold slice, MTU. rewrite skipn_firstn_comm, firstn_firstn. done. }
  rewrite Hsl, length_take in E. lia.
Qed.
Lemma small_arrives p bs : wf_packet p -> protocol_version (header p) = PROTOCOL_VERSION -> send p = Ok bs -> (length bs <= MTU)%nat -> recv bs = Ok p.
Proof. intros Hp Hv Hs Hl. unfold recv. rewrite take_ge, <- Hv by done. by apply decode_encode_packet. Qed.

(** A packet through the network: sent, and received if it is. *)
Definition wire (p : packet) : option packet :=
  match send p with Ok bs => match recv bs with Ok q => Some q | Err _ => None end | Err _ => None end.
Lemma wire_spec p : wf_packet p -> protocol_version (header p) = PROTOCOL_VERSION -> payload_len (header p) = Z.of_nat (length (payload p)) ->
  wire p = if bool_decide (HEADER_LEN + length (payload p) <= MTU)%nat then Some p else None.
Proof.
  intros Hp Hv Hl. unfold wire. destruct (send p) as [bs|] eqn:Es.
  - assert (Hlen : length bs = (HEADER_LEN + length (payload p))%nat).
    { unfold send, encode_packet in Es. destruct (negb _); [done|]. destruct (_ <? _); [done|]. apply (f_equal (fun r => match r with Ok b => length b | Err _ => 0%nat end)) in Es.
      cbn -[le_bytes] in Es. rewrite <- Es.
      rewrite !length_app. cbn [length]. rewrite !length_app, !length_le_bytes. cbn [length]. rewrite !length_app, !length_le_bytes. unfold HEADER_LEN. cbn [length]. lia. }
    rewrite <- Hlen. case_bool_decide as Hb; [by rewrite (small_arrives p bs)|].
    pose proof (oversize_lost p bs Hp Es ltac:(lia)) as Ho. by destruct (recv bs).
  - rewrite bool_decide_false; [done|]. intros Hb. unfold send, encode_packet in Es. cbv zeta in Es. rewrite Hl in Es.
    rewrite wrap_small in Es by (unfold fits, HEADER_LEN, MTU in *; lia). rewrite Z.eqb_refl in Es. cbn [negb] in Es.
    rewrite (proj2 (Z.ltb_ge _ _)) in Es by (unfold MAX_PAYLOAD, HEADER_LEN, MTU in *; lia). done.
Qed.

(** A packet that is sent arrives as it was when its datagram fits the
    receive buffer, and is refused whole when it does not: nothing larger than
    1400 bytes with its header ever gets through, although a payload may have
    16 MiB. *)
Theorem datagram_arrives (p : packet) (bs : list Z) :
  wf_packet p -> protocol_version (header p) = PROTOCOL_VERSION -> send p = Ok bs ->
  (recv bs = Ok p <-> (length bs <= MTU)%nat) /\ ((MTU < length bs)%nat -> is_ok (recv bs) = false).
Proof.
  intros Hp Hv Hs. pose proof (oversize_lost p bs Hp Hs) as Hbig. split; [|done]. split; [|by apply small_arrives].
  intros E. destruct (decide (length bs <= MTU)%nat) as [|Hn]; [done|]. rewrite E in Hbig. specialize (Hbig ltac:(lia)). done.
Qed.

Lemma datagram_arrives_witness :
  let p := Packet (PacketHeader 1 7 Heartbeat 5 9 1000 0 2) [10; 255] in
  exists bs, send p = Ok bs /\ recv bs = Ok p.
Proof.
  intros p. eexists. split; [vm_compute; reflexivity|]. apply (datagram_arrives p).
  - split; first [by_decide | reflexivity].
  - reflexivity.
  - vm_compute. reflexivity.
  - vm_compute. lia.
Defined.

(** A chunk of the size the transfer protocol allows does not arrive. *)
Lemma full_chunk_lost :
  let p := Packet (PacketHeader 1 7 ResourceTransfer 0 0 0 0 1369) (replicate 1369 0) in
  exists bs, send p = Ok bs /\ is_ok (recv bs) = false.
Proof. eexists. split; [vm_compute; reflexivity|]. vm_compute. reflexivity. Qed.
End Transport.

(** ** The token bucket *)
Module Limiter.
(** [f64] is the binary64 format of the Standard Library's [SpecFloat]. *)
Abbreviation f64 := spec_float.
Definition of_z (n : Z) : f64 := binary_normalize 53 1024 n 0 false.
Definition fadd : f64 -> f64 -> f64 := SFadd 53 1024.
Definition fsub : f64 -> f64 -> f64 := SFsub 53 1024.
Definition fmul : f64 -> f64 -> f64 := SFmul 53 1024.
Definition fdiv : f64 -> f64 -> f64 := SFdiv 53 1024.
(** [f64::min]: the other operand when one is not a number. *)
Definition fmin (a b : f64) : f64 := match a with S754_nan => b | _ => if SFltb b a then b else a end.
Definition NANOS : Z := 1000000000.
Definition as_secs_f64 (nanos : Z) : f64 := fadd (of_z (nanos / NANOS)) (fdiv (of_z (nanos mod NANOS)) (of_z NANOS)).

Record rate_limiter := RateLimiter { capacity : f64; refill_per_sec : f64; tokens : f64; last : Z }.
Definition limiter_new (capacity : Z) (refill : f64) (now : Z) : rate_limiter := RateLimiter (of_z capacity) refill (of_z capacity) now.
Definition try_consume (l : rate_limiter) (now : Z) : bool * rate_limiter :=
  let elapsed := as_secs_f64 (sat_sub now (last l)) in
  let tokens := fmin (fadd (tokens l) (fmul elapsed (refill_per_sec l))) (capacity l) in
  if SFleb (of_z 1) tokens then (true, RateLimiter (capacity l) (refill_per_sec l) (fsub tokens (of_z 1)) now)
  else (false, RateLimiter (capacity l) (refill_per_sec l) tokens now).

Fixpoint burst (n : nat) (l : rate_limiter) (now : Z) : nat * rate_limiter :=
  match n with
  | O => (0%nat, l)
  | S n => let '(ok, l) := try_consume l now in let '(k, l) := burst n l now in ((if ok then S k else k), l)
  end.

(** The gate of the server: a burst of 300, 150 a second after it, and never
    more than 300 saved. *)
Lemma gate_burst :
  let l := limiter_new 300 (of_z 150) 0 in
  let '(k, l1) := burst 310 l 0 in
  let '(k2, l2) := burst 160 l1 1000000000 in
  k = 300%nat /\ k2 = 150%nat /\ (burst 400 l2 3600000000000).1 = 300%nat.
Proof. vm_compute. done. Qed.
End Limiter.

(** ** File chunks *)
Module Transfer.
Inductive transfer_error :=
| NotAdmitted | Protocol_ (e : ald_error) | BadName (name : text) | Traversal (name : text) | NotServed (name : text)
| ReadFailed | PastEnd.

Definition search_dirs (configured : text) : list text := [configured; codes "base-resources"; codes "../../base-resources"].

Section transfer.
Context {F : Type} `{Vfs.filesystem F} `{json transfer_request, json transfer_header}.
(** [Path::is_file], and the digest of the sha2 crate. *)
Context (is_file : F -> text -> bool) (sha : list Z -> list Z).

Definition canonical_or_self (s : F) (p : text) : text :=
  match Vfs.fs_canonicalize s p with Ok c => c | Err _ => p end.
(** What one search directory offers for the file. *)
Definition offer (s : F) (resource rel base : text) : option text :=
  let root := Vfs.join base resource in
  let candidate := Vfs.join root rel in
  let canonical := canonical_or_self s candidate in
  let root_canon := canonical_or_self s root in
  if (bool_decide (Vfs.components candidate = Vfs.components canonical) || Vfs.path_starts_with canonical root_canon) && is_file s canonical
  then Some canonical else None.
Definition resolve_file (s : F) (name configured : text) : result text transfer_error :=
  match split_once 47 name with
  | None => Err (BadName name)
  | Some (resource, rel) =>
      if bool_decide (trim_text resource = []) || bool_decide (trim_text rel = []) then Err (BadName name)
      else if existsb (fun c => bool_decide (c = [46; 46]) || bool_decide (c = [])) (split_on 47 (replace_char 92 [47] rel)) then Err (Traversal name)
      else match head (omap (offer s resource rel) (search_dirs configured)) with
      | Some path => Ok path
      | None => Err (NotServed name)
      end
  end.

Definition serve_chunk (s : F) (ready : bool) (body : list Z) (configured : text) : result (list Z) transfer_error :=
  if negb ready then Err NotAdmitted
  else match decode_request body with
  | Err e => Err (Protocol_ e)
  | Ok req =>
      let? path := resolve_file s (codes (req_name req)) configured in
      match Vfs.fs_read s path with
      | Err _ => Err ReadFailed
      | Ok bytes =>
          let total := len bytes in
          if total <? req_offset req then Err PastEnd
          else
            let stop := Z.min (req_offset req + Z.min (req_len req) CHUNK_CAP) total in
            let header := TransferHeader (req_name req) (req_offset req) total (of_codes (hex (sha bytes))) in
            match encode_response header (slice bytes (Z.to_nat (req_offset req)) (Z.to_nat stop)) with
            | Ok frame => Ok frame
            | Err e => Err (Protocol_ e)
            end
      end
  end.

(** The values of the types of a request. *)
Definition wf_request (r : transfer_request) : Prop := fits 64 (req_offset r) /\ fits 64 (req_len r).

Lemma serve_chunk_ok s ready body configured frame : serve_chunk s ready body configured = Ok frame ->
  ready = true /\ exists req path bytes, decode_request body = Ok req /\ resolve_file s (codes (req_name req)) configured = Ok path /\
    Vfs.fs_read s path = Ok bytes /\ req_offset req <= len bytes /\
    encode_response (TransferHeader (req_name req) (req_offset req) (len bytes) (of_codes (hex (sha bytes))))
      (slice bytes (Z.to_nat (req_offset req)) (Z.to_nat (Z.min (req_offset req + Z.min (req_len req) CHUNK_CAP) (len bytes)))) = Ok frame.
Proof.
  unfold serve_chunk. destruct ready; [|done]. cbn [negb]. destruct (decode_request body) as [req|]; [|done].
  destruct (resolve_file _ _ _) as [path|] eqn:Ep; [|done]. cbn [rbind]. destruct (Vfs.fs_read s path) as [bytes|] eqn:Eb; [|done].
  destruct (Z.ltb_spec (len bytes) (req_offset req)); [done|]. cbv zeta. destruct (encode_response _ _) as [f|] eqn:Ef; [|done].
  intros [= <-]. split; [done|]. exists req, path, bytes. by split_and!.
Qed.

Lemma serve_chunk_bad s ready body configured : is_ok (serve_chunk s ready body configured) = true -> ready = true.
Proof. unfold serve_chunk. by destruct ready. Qed.

Lemma offer_file s resource rel base p : offer s resource rel base = Some p ->
  is_file s p = true /\ p = canonical_or_self s (Vfs.join (Vfs.join base resource) rel) /\
  (Vfs.components (Vfs.join (Vfs.join base resource) rel) = Vfs.components p \/ Vfs.path_starts_with p (canonical_or_self s (Vfs.join base resource)) = true).
Proof.
  unfold offer. destruct (_ && _) eqn:E; [|done]. intros [= <-]. apply andb_true_iff in E as [E ?].
  apply orb_true_iff in E as [E|E]; bool_prop; auto.
Qed.

Lemma resolve_file_ok s name configured p : resolve_file s name configured = Ok p ->
  exists resource rel base, split_once 47 name = Some (resource, rel) /\ base ∈ search_dirs configured /\ offer s resource rel base = Some p /\
    Forall (fun c => c <> [46; 46] /\ c <> []) (split_on 47 (replace_char 92 [47] rel)).
Proof.
  unfold resolve_file. destruct (split_once 47 name) as [[resource rel]|]; [|done]. destruct (_ || _); [done|].
  destruct (existsb _ _) eqn:Ex; [done|]. destruct (head _) as [q|] eqn:Eh; [|done]. intros [= <-].
  apply head_Some_elem_of, list_elem_of_omap in Eh as (base & Hb & Ho). exists resource, rel, base. split_and!; [done..|].
  apply existsb_false_Forall in Ex. eapply Forall_impl; [done|]. cbv beta. intros c Hc.
  by apply orb_false_iff in Hc as [?%bool_decide_eq_false ?%bool_decide_eq_false].
Qed.

Context `{!json_codec transfer_request, !json_codec transfer_header}.

(** C37: a peer gets bytes only when it is admitted, and then the frame it gets
    reads back as a chunk of a regular file: the header names the file asked
    for, its length and its digest, and the data are its bytes from the offset
    asked for, as many as asked for up to the end; progress is made whenever
    bytes are left and wanted. The name splits at its first slash into a
    resource and a path [rel] below it; the file is [base/resource/rel],
    made canonical, for one of the search directories [base], no component of
    [rel] is empty or [..], and unless making it canonical changed nothing
    the file is under the canonical [base/resource]. The resource part is not
    checked: when it is [..] the file is next to [base], not under it
    ([traversal_served]). *)
Theorem serve_chunk_spec (s : F) (ready : bool) (body frame configured : list Z) :
  serve_chunk s ready body configured = Ok frame ->
  (forall r, decode_request body = Ok r -> wf_request r) ->
  ready = true /\ exists req path bytes header data resource rel base,
    decode_request body = Ok req /\ decode_response frame = Ok (header, data) /\
    header = TransferHeader (req_name req) (req_offset req) (len bytes) (of_codes (hex (sha bytes))) /\
    Vfs.fs_read s path = Ok bytes /\ data = take (Z.to_nat (req_len req)) (drop (Z.to_nat (req_offset req)) bytes) /\
    (req_offset req < len bytes -> 0 < req_len req -> data <> []) /\
    is_file s path = true /\ split_once 47 (codes (req_name req)) = Some (resource, rel) /\ base ∈ search_dirs configured /\
    path = canonical_or_self s (Vfs.join (Vfs.join base resource) rel) /\
    Forall (fun c => c <> [46; 46] /\ c <> []) (split_on 47 (replace_char 92 [47] rel)) /\
    (Vfs.components path = Vfs.components (Vfs.join (Vfs.join base resource) rel) \/
     Vfs.path_starts_with path (canonical_or_self s (Vfs.join base resource)) = true).
Proof.
  intros (-> & req & path & bytes & Hq & Hp & Hb & Ho & Hf)%serve_chunk_ok Hwf. split; [done|].
  destruct (Hwf req Hq) as [Hwo Hwl]. unfold fits in Hwo, Hwl.
  apply resolve_file_ok in Hp as (resource & rel & base & Hs & Hbase & Hoff & Hdots). apply offer_file in Hoff as (Hfile & Hpath & Hunder).
  assert (Hcap : req_len req <= CHUNK_CAP).
  { unfold decode_request in Hq. case_bool_decide; [done|]. destruct (map_protocol _) as [r|]; [|done]. cbn in Hq.
    destruct (Z.ltb_spec CHUNK_CAP (req_len r)); [done|]. by injection Hq as ->. }
  set (data := slice bytes _ _) in Hf.
  assert (Hdata : data = take (Z.to_nat (req_len req)) (drop (Z.to_nat (req_offset req)) bytes)).
  { subst data. unfold slice. rewrite (Z.min_l (req_len req)) by done. unfold len in *.
    destruct (Z.leb_spec (req_offset req + req_len req) (Z.of_nat (length bytes))).
    - rewrite Z.min_l by done. f_equal. lia.
    - rewrite Z.min_r by lia. rewrite !take_ge; [done|rewrite length_drop; lia..]. }
  exists req, path, bytes, (TransferHeader (req_name req) (req_offset req) (len bytes) (of_codes (hex (sha bytes)))), data, resource, rel, base.
  split_and!; [done|by apply response_roundtrip|done..| |done|done|done|done|done|by destruct Hunder as [E|E]; [left|right]].
  intros Hlt Hpos. rewrite Hdata. unfold len in Hlt. intros E. apply (f_equal length) in E. rewrite length_take, length_drop in E. cbn in E. lia.
Qed.
End transfer.

(** *** A host with files by path and no links *)
Definition files_fs : Vfs.filesystem (gmap text text) := {|
  Vfs.fs_canonicalize s p := Ok (Vfs.normalize_lexical p);
  Vfs.fs_read s p := match s !! p with Some b => Ok b | None => Err Vfs.KindNotFound end;
  Vfs.fs_write s p d := (true, <[p := d]> s);
  Vfs.fs_rename s p q := (true, match s !! p with Some d => <[q := d]> (delete p s) | None => s end);
  Vfs.fs_remove s p := delete p s;
  Vfs.fs_read_dir s p := None |}.
Definition in_files (s : gmap text text) (p : text) : bool := bool_decide (is_Some (s !! p)).
Definition sum_sha (l : list Z) : list Z := repeat (sum_list l mod 256) 32.
#[local] Existing Instances files_fs.
#[local] Existing Instances countable_json countable_json_codec.
#[local] Instance transfer_request_eq_dec : EqDecision transfer_request.
Proof. solve_decision. Defined.
#[local] Instance transfer_header_eq_dec : EqDecision transfer_header.
Proof. solve_decision. Defined.
#[local] Instance transfer_request_countable : Countable transfer_request.
Proof. by refine (inj_countable' (fun e => (req_name e, req_offset e, req_len e)) (fun '(a, b, c) => TransferRequest a b c) _); intros []. Defined.
#[local] Instance transfer_header_countable : Countable transfer_header.
Proof. by refine (inj_countable' (fun e => (hd_name e, hd_offset e, hd_total e, hd_sha256 e)) (fun '(a, b, c, d) => TransferHeader a b c d) _); intros []. Defined.

Definition request (name : string) (off n : Z) : list Z :=
  match encode_request (TransferRequest name off n) with Ok b => b | Err _ => [] end.
Definition host : gmap text text := {[codes "/srv/resources/demo/a.lua" := [1; 2; 3]; codes "/srv/server.cfg" := [9]]}.

Lemma serve_chunk_spec_witness :
  let r := serve_chunk in_files sum_sha host true (request "demo/a.lua" 1 2) (codes "/srv/resources") in
  exists frame, r = Ok frame /\ exists header, decode_response frame = Ok (header, [2; 3]) /\ hd_total header = 3.
Proof.
  intros r. destruct r as [frame|] eqn:E; [|vm_compute in E; discriminate]. exists frame. split; [done|].
  destruct (serve_chunk_spec in_files sum_sha host true (request "demo/a.lua" 1 2) frame (codes "/srv/resources") E) as
    (_ & req & path & bytes & header & data & _ & _ & _ & _ & Hd & _).
  - intros q Hq. vm_compute in Hq. injection Hq as <-. by_decide.
  - subst r. vm_compute in E. injection E as <-. eexists. split; vm_compute; reflexivity.
Defined.

(** The resource part of the name is not looked at: [..] as the resource serves
    the files next to the resource directory. *)
Lemma traversal_served :
  is_ok (serve_chunk in_files sum_sha host true (request "../server.cfg" 0 10) (codes "/srv/resources")) = true /\
  serve_chunk in_files sum_sha host true (request "demo/../../server.cfg" 0 10) (codes "/srv/resources") = Err (Traversal (codes "demo/../../server.cfg")).
Proof. vm_compute. done. Qed.
End Transfer.

(** ** The ingress gate and the network loop *)
Module Ingress.
Section ingress.
Context {Addr : Type} `{Countable Addr} {F : Type} `{Vfs.filesystem F}.
Context `{json handshake_message, json event_envelope, json transfer_request, json transfer_header}.
(** [SocketAddr] and its address as text, the ulid crate, [Path::is_file], the
    sha2 crate, and [serde_json::to_vec] of the welcome object. *)
Context (show_addr show_ip : Addr -> string) (ulid_to_string : Z -> string) (ulid_from_string : string -> option Z)
  (is_file : F -> text -> bool) (sha : list Z -> list Z) (welcome_json : string -> Z -> result (list Z) string).

Notation manager := (admission_manager (Q := queue) (Addr := Addr)).
Notation handle_msg := (handle (Q := queue) show_addr ulid_to_string ulid_from_string).

Record server_state := ServerState {
  adm : manager; framework_players : Framework.Players.player_service; peer_limits : gmap Addr Limiter.rate_limiter;
  metrics : gmap string Z; name : string; directory : text }.
Definition eta (s : server_state) : server_state :=
  ServerState (adm s) (framework_players s) (peer_limits s) (metrics s) (name s) (directory s).
Definition set_adm : manager -> server_state -> server_state := ltac:(setter eta adm).
Definition set_players : Framework.Players.player_service -> server_state -> server_state := ltac:(setter eta framework_players).
Definition set_limits : gmap Addr Limiter.rate_limiter -> server_state -> server_state := ltac:(setter eta peer_limits).
Definition set_metrics : gmap string Z -> server_state -> server_state := ltac:(setter eta metrics).
Definition server_new (name : string) (max_players : Z) (req : identity_requirements) (directory : text) : server_state :=
  ServerState (admission_new name max_players req) Framework.Players.service_new ∅ ∅ name directory.
Definition incr (key : string) (by_ : Z) (s : server_state) : server_state :=
  set_metrics (<[key := wrap 64 (default 0 (metrics s !! key) + by_)]> (metrics s)) s.

(** What a turn reads from outside: the clock in milliseconds, an [Instant], the
    id [AldivinePlayerId::new] draws, and which sends the socket takes. *)
Record env := Env { now_ms : Z; instant : Z; fresh : Z; send_ok : packet -> bool; disk : F }.

Definition admit_packet (s : server_state) (e : env) (peer : Addr) (channel : channel) : bool * server_state :=
  let limiter := default (Limiter.limiter_new 300 (Limiter.of_z 150) (instant e)) (peer_limits s !! peer) in
  let '(ok, limiter) := Limiter.try_consume limiter (instant e) in
  let s := set_limits (<[peer := limiter]> (peer_limits s)) s in
  if negb ok then (false, incr "network.rate_limited" 1 s)
  else if negb (Network.channel_allowed_client channel) then (false, incr "network.channel_denied" 1 s)
  else match state_of (adm s) peer with
  | None => (bool_decide (channel = Auth), s)
  | Some st =>
      if is_terminal st && negb (bool_decide (st = Ready)) then (false, incr "network.session_denied" 1 s)
      else (true, s)
  end.

(** A packet of the session of [peer], and sending one. *)
Definition make_packet (s : server_state) (e : env) (peer : Addr) (channel : channel) (payload : list Z) : packet :=
  Packet (PacketHeader PROTOCOL_VERSION (session_id_of (adm s) peer) channel 0 0 (now_ms e) 0 (wrap 32 (len payload))) payload.
Definition transmit (s : server_state) (e : env) (peer : Addr) (p : packet) (done_ : server_state -> server_state) :
    server_state * list (Addr * packet) :=
  if is_ok (Transport.send p) && send_ok e p then (done_ s, [(peer, p)]) else (incr "network.errors" 1 s, []).

Definition send_welcome (s : server_state) (e : env) (peer : Addr) : server_state * list (Addr * packet) :=
  match welcome_json (name s) (adm_max_players (adm s)) with
  | Err _ => (incr "network.errors" 1 s, [])
  | Ok data =>
      match encode_event (EventEnvelope "core" "ald:server:welcome" data 0) with
      | Err _ => (incr "network.errors" 1 s, [])
      | Ok payload => transmit s e peer (make_packet s e peer EventReliable payload) id
      end
  end.

Definition is_ready (r : handshake_message) : bool := match r with ServerReady true => true | _ => false end.
(** The account of a peer that is told it is ready becomes a player. *)
Definition note_ready (s : server_state) (peer : Addr) (r : handshake_message) : server_state :=
  if is_ready r then
    match aldivine_id_of (adm s) peer ≫= ulid_from_string with
    | Some pid => incr "framework.players" 1 (set_players (Framework.Players.join (framework_players s) pid) s)
    | None => s
    end
  else s.
Definition reply (e : env) (peer : Addr) (acc : server_state * list (Addr * packet)) (r : handshake_message) :
    server_state * list (Addr * packet) :=
  let s := note_ready acc.1 peer r in
  match to_vec r with
  | Ok payload =>
      let '(s, out) := transmit s e peer (make_packet s e peer Auth payload) id in
      (s, acc.2 ++ out)
  | Err _ => (incr "network.errors" 1 s, acc.2)
  end.
Definition on_auth (s : server_state) (e : env) (peer : Addr) (payload : list Z) : server_state * list (Addr * packet) :=
  match from_slice payload with
  | Err _ => (incr "network.errors" 1 s, [])
  | Ok msg =>
      let '(m, responses) := handle_msg (adm s) peer msg (show_ip peer) (now_ms e) (fresh e) in
      let '(s, out) := foldl (reply e peer) (set_adm m s, []) responses in
      if existsb is_ready responses then let '(s, welcome) := send_welcome s e peer in (s, out ++ welcome) else (s, out)
  end.

Definition on_transfer (s : server_state) (e : env) (peer : Addr) (payload : list Z) : server_state * list (Addr * packet) :=
  let ready := bool_decide (state_of (adm s) peer = Some Ready) in
  match Transfer.serve_chunk is_file sha (disk e) ready payload (directory s) with
  | Ok body => transmit s e peer (make_packet s e peer ResourceTransfer body) (incr "network.chunks" 1)
  | Err _ => (incr "network.errors" 1 s, [])
  end.

Definition turn (s : server_state) (e : env) (received : result (packet * Addr) ald_error) : server_state * list (Addr * packet) :=
  match received with
  | Err _ => (incr "network.errors" 1 s, [])
  | Ok (p, peer) =>
      let s := incr "network.bytes" (len (payload p)) (incr "network.packets" 1 s) in
      let '(admitted, s) := admit_packet s e peer (hdr_channel (header p)) in
      if negb admitted then (s, [])
      else match hdr_channel (header p) with
      | Auth => on_auth s e peer (payload p)
      | Heartbeat => (incr "network.heartbeat" 1 s, [])
      | ResourceTransfer => on_transfer s e peer (payload p)
      | _ => (incr "network.channel_pkts" 1 s, [])
      end
  end.

Definition input : Type := env * result (packet * Addr) ald_error.
Definition loop_step (st : server_state * list (Addr * packet)) (i : input) : server_state * list (Addr * packet) :=
  let '(s, out) := turn st.1 i.1 i.2 in (s, st.2 ++ out).
Definition network_loop (s : server_state) (inputs : list input) : server_state * list (Addr * packet) := run loop_step (s, []) inputs.

(** *** The manager under messages *)
Notation admission_op_step := (admission_step (Q := queue) show_addr ulid_to_string ulid_from_string).

Lemma on_session_queue (m : manager) peer f : adm_queue (on_session m peer f) = adm_queue m.
Proof. done. Qed.

Lemma handle_other m peer msg ip now fr p : p <> peer -> sessions (handle_msg m peer msg ip now fr).1 !! p = sessions m !! p.
Proof.
  intros Hne. assert (Ho : forall (m' : manager) f, sessions (on_session m' peer f) !! p = sessions m' !! p) by (intros m' f; rewrite lookup_on_session; by case_decide).
  destruct msg; cbn [handle]; try done.
  - unfold on_hello. destruct (negb _); [done|]. cbn. by rewrite lookup_insert_ne.
  - unfold Admission.on_auth. repeat case_match; cbn [fst]; rewrite ?Ho; done.
  - unfold on_identity. cbv zeta. repeat case_match; cbn [fst]; rewrite ?Ho; done.
  - unfold on_entitlement. by repeat case_match.
  - unfold on_ready. cbv zeta. repeat case_match; cbn [fst]; rewrite ?Ho; done.
Qed.

(** Only a seat that [join] gives changes who plays. *)
Lemma handle_queue m peer msg ip now fr : let q := adm_queue (handle_msg m peer msg ip now fr).1 in
  q = adm_queue m \/ exists id, q = (Queue.join (adm_queue m) (JoinRequest id false) now).1.
Proof.
  destruct msg; cbn [handle]; try (by left).
  - unfold on_hello. destruct (negb _); by left.
  - unfold Admission.on_auth. repeat case_match; by left.
  - unfold on_identity. cbv zeta. repeat case_match; by left.
  - unfold on_entitlement. repeat case_match; by left.
  - unfold on_ready. cbv zeta. destruct (sessions m !! peer) as [s|]; [|by left]. destruct (is_empty _); [by left|].
    destruct (bool_decide _); [by left|]. right. exists (default ""%string (sess_aldivine_id s)). cbn.
    destruct (Queue.join _ _ _) as [q []]; done.
Qed.

Lemma join_prefix q r t : playing q `prefix_of` playing (Queue.join q r t).1 /\ Queue.config (Queue.join q r t).1 = Queue.config q /\
  (slot_free_for q (req_holds r) = false -> playing (Queue.join q r t).1 = playing q).
Proof. unfold Queue.join. repeat case_match; cbn; split_and!; try done. by apply prefix_app_r. Qed.

Lemma playing_mono q q' id : playing q `prefix_of` playing q' -> is_playing q id = true -> is_playing q' id = true.
Proof. intros [k E] Hp. unfold is_playing in *. rewrite E, existsb_app, Hp. done. Qed.

Lemma handle_playing m peer msg ip now fr : let q := adm_queue (handle_msg m peer msg ip now fr).1 in
  playing (adm_queue m) `prefix_of` playing q /\ Queue.config q = Queue.config (adm_queue m) /\
  (slot_free_for (adm_queue m) false = false -> playing q = playing (adm_queue m)).
Proof. cbv zeta. destruct (handle_queue m peer msg ip now fr) as [-> | [id ->]]; [done|]. apply (join_prefix (adm_queue m) (JoinRequest id false)). Qed.

(** A session is ready only with an account that has a seat. *)
Definition ready_seated (m : manager) : Prop := forall peer s, sessions m !! peer = Some s -> state s = Ready ->
  exists id, sess_aldivine_id s = Some id /\ is_playing (adm_queue m) id = true.

Lemma ready_seated_keep (m m' : manager) peer : ready_seated m -> playing (adm_queue m) `prefix_of` playing (adm_queue m') ->
  (forall p, p <> peer -> sessions m' !! p = sessions m !! p) ->
  (forall s, sessions m' !! peer = Some s -> state s = Ready ->
     sessions m !! peer = Some s \/ exists id, sess_aldivine_id s = Some id /\ is_playing (adm_queue m') id = true) ->
  ready_seated m'.
Proof.
  intros Hm Hp Ho Hs p s Hps Hst. destruct (decide (p = peer)) as [->|Hne].
  - destruct (Hs s Hps Hst) as [Hold|Hnew]; [|done]. destruct (Hm _ _ Hold Hst) as (id & Hid & Hpl). exists id. split; [done|]. by eapply playing_mono.
  - rewrite Ho in Hps by done. destruct (Hm _ _ Hps Hst) as (id & Hid & Hpl). exists id. split; [done|]. by eapply playing_mono.
Qed.

Lemma handle_seated m peer msg ip now fr : ready_seated m -> ready_seated (handle_msg m peer msg ip now fr).1.
Proof.
  intros Hm. apply (ready_seated_keep m _ peer Hm); [apply handle_playing|intros p Hne; by apply handle_other|]. intros s.
  assert (Hss : forall (m' : manager) st, st <> Ready -> sessions (on_session m' peer (set_state st)) !! peer = Some s -> state s = Ready -> sessions m !! peer = Some s \/
    exists id, sess_aldivine_id s = Some id /\ is_playing (adm_queue (on_session m' peer (set_state st))) id = true).
  { intros m' st Hst. rewrite lookup_on_session, decide_True by done. intros (s0 & _ & ->)%fmap_Some. done. }
  destruct msg; cbn [handle]; try (by left).
  - unfold on_hello. destruct (negb _); [by left|]. cbn. rewrite lookup_insert_eq. intros [= <-]. done.
  - unfold Admission.on_auth. destruct (sessions m !! peer) as [s0|] eqn:E; [|cbn; rewrite E; by left]. destruct (negb _); [cbn; rewrite E; by left|].
    destruct (is_empty _); [by apply Hss|]. destruct (negb _); [by apply Hss|]. cbn [fst].
    rewrite lookup_on_session, decide_True by done. intros (s1 & _ & ->)%fmap_Some. done.
  - unfold on_identity. cbv zeta. destruct (sessions m !! peer) as [s0|] eqn:E; [|cbn; rewrite E; by left].
    destruct (check_identity_policy _ _ _); [|by apply Hss]. destruct ((poll _ _ _).1.2); cbn [fst]; by apply Hss.
  - unfold on_entitlement. destruct (sessions m !! peer) eqn:E; [destruct (_ && _)|]; cbn; rewrite E; by left.
  - unfold on_ready. cbv zeta. destruct (sessions m !! peer) as [s0|] eqn:E; [|cbn; rewrite E; by left].
    destruct (is_empty (default _ _)) eqn:Ee; [cbn; rewrite E; by left|]. destruct (bool_decide _) eqn:Eb; [cbn; rewrite E; by left|].
    destruct (jq_join _ _ _) as [q o] eqn:Ej. destruct o as [|pos|r]; cbn [fst].
    + rewrite on_session_compose, lookup_on_session, decide_True by done. cbn. rewrite E. intros [= <-] _. right. cbn.
      destruct (sess_aldivine_id s0) as [id|]; cbn in *; [|done]. exists id. split; [done|]. by apply (join_admitted (adm_queue m) (JoinRequest id false) now).
    + rewrite lookup_on_session, decide_True by done. cbn. rewrite E. intros [= <-] Hst. bool_prop. done.
    + by apply (Hss (with_queue m q)).
Qed.

(** *** A turn *)
Lemma incr_core k n s : adm (incr k n s) = adm s /\ framework_players (incr k n s) = framework_players s.
Proof. done. Qed.

Definition transparent (f : server_state -> server_state) : Prop := forall s, adm (f s) = adm s /\ framework_players (f s) = framework_players s.
Lemma transmit_core s e peer p f : transparent f ->
  adm (transmit s e peer p f).1 = adm s /\ framework_players (transmit s e peer p f).1 = framework_players s /\
  (forall x, x ∈ (transmit s e peer p f).2 -> x = (peer, p)).
Proof. intros Hf. destruct (Hf s) as [H1' H2']. unfold transmit. destruct (_ && _); cbn; split_and!; try done; set_solver. Qed.
Lemma id_transparent : transparent id.
Proof. done. Qed.
Lemma incr_transparent k n : transparent (incr k n).
Proof. done. Qed.

Lemma admit_core s e peer c : adm (admit_packet s e peer c).2 = adm s /\ framework_players (admit_packet s e peer c).2 = framework_players s /\
  ((admit_packet s e peer c).1 = true -> Network.channel_allowed_client c = true /\
     match state_of (adm s) peer with Some st => st <> StRejected /\ st <> Failed | None => c = Auth end).
Proof.
  unfold admit_packet. destruct (Limiter.try_consume _ _) as [ok l]. destruct ok; cbn [negb]; [|done].
  destruct (Network.channel_allowed_client c); cbn [negb]; [|done]. cbn. unfold state_of.
  destruct (sessions (adm s) !! peer) as [x|]; cbn; [|split_and!; [done..|]; intros H'; split; [done|by bool_prop]].
  destruct (state x); cbn; by split_and!.
Qed.

Lemma note_ready_core s peer r : adm (note_ready s peer r) = adm s /\
  (forall i, is_Some (Framework.Players.players (framework_players (note_ready s peer r)) !! i) ->
     is_Some (Framework.Players.players (framework_players s) !! i) \/
     is_ready r = true /\ exists id, aldivine_id_of (adm s) peer = Some id /\ ulid_from_string id = Some i).
Proof.
  unfold note_ready. destruct (is_ready r) eqn:Er; [|by auto]. destruct (aldivine_id_of (adm s) peer) as [id|] eqn:Ei; cbn; [|by auto].
  destruct (ulid_from_string id) as [pid|] eqn:Eu; [|by auto]. split; [done|]. cbn. intros i. unfold Framework.Players.join.
  destruct (Framework.Players.players (framework_players s) !! pid) eqn:Ep; [by left|]. cbn.
  destruct (decide (i = pid)) as [->|]; [right; split; [done|]; by exists id|rewrite lookup_insert_ne by done; by left].
Qed.

Lemma replies_core e peer rs acc : let r := foldl (reply e peer) acc rs in
  adm r.1 = adm acc.1 /\
  (forall x, x ∈ r.2 -> x ∈ acc.2 \/ x.1 = peer /\ hdr_channel (header x.2) = Auth) /\
  (forall i, is_Some (Framework.Players.players (framework_players r.1) !! i) -> is_Some (Framework.Players.players (framework_players acc.1) !! i) \/
     existsb is_ready rs = true /\ exists id, aldivine_id_of (adm acc.1) peer = Some id /\ ulid_from_string id = Some i).
Proof.
  revert acc. induction rs as [|r rs IH]; intros acc; cbn [foldl existsb]; [by auto|].
  destruct (note_ready_core acc.1 peer r) as [Ha Hp].
  assert (Hr : adm (reply e peer acc r).1 = adm acc.1 /\
    framework_players (reply e peer acc r).1 = framework_players (note_ready acc.1 peer r) /\
    (forall x, x ∈ (reply e peer acc r).2 -> x ∈ acc.2 \/ x.1 = peer /\ hdr_channel (header x.2) = Auth)).
  { unfold reply. destruct (to_vec r) as [payload|]; [|cbn; by auto].
    pose proof (transmit_core (note_ready acc.1 peer r) e peer (make_packet (note_ready acc.1 peer r) e peer Auth payload) id id_transparent) as (T1 & T2 & T3).
    destruct (transmit _ _ _ _ _) as [s' out]. cbn in *. split_and!; [congruence|done|]. intros x [Hx|Hx]%elem_of_app; [by left|].
    right. by rewrite (T3 x Hx). }
  destruct Hr as (R1 & R2 & R3). destruct (IH (reply e peer acc r)) as (I1 & I2 & I3). cbv zeta in *. split_and!.
  - congruence.
  - intros x [Hx|Hx]%I2; [by apply R3|by right].
  - intros i [Hi|(He & Hi)]%I3.
    + rewrite R2 in Hi. apply Hp in Hi as [Hi|(He & Hi)]; [by left|]. right. rewrite He. split; [done|exact Hi].
    + right. rewrite He, orb_true_r. rewrite R1 in Hi. split; [done|exact Hi].
Qed.

Lemma handle_is_ready m peer msg ip now fr m' out : handle_msg m peer msg ip now fr = (m', out) -> existsb is_ready out = true ->
  state_of m' peer = Some Ready.
Proof.
  intros Hh (r & Hr & Hr')%existsb_elem. destruct r; try done. destruct world_join; [|done].
  by destruct (handle_ready _ _ _ _ _ _ _ _ _ _ _ Hh Hr) as (_ & s & id & _ & _ & Hst).
Qed.

(** What handling a packet of [peer] on channel [c] may do to [s]: the manager
    takes a message of an [Auth] packet or stays; only the sender is answered,
    on another channel only once it is ready; and new players are the account
    of a ready peer. *)
Record effect (s : server_state) (e : env) (peer : Addr) (c : channel) (r : server_state * list (Addr * packet)) : Prop := Effect {
  eff_adm : adm r.1 = adm s \/ c = Auth /\ exists msg, adm r.1 = (handle_msg (adm s) peer msg (show_ip peer) (now_ms e) (fresh e)).1;
  eff_out : forall x, x ∈ r.2 -> x.1 = peer /\ (hdr_channel (header x.2) = Auth /\ c = Auth \/
    (hdr_channel (header x.2) = EventReliable \/ hdr_channel (header x.2) = ResourceTransfer) /\ state_of (adm r.1) peer = Some Ready);
  eff_players : forall i, is_Some (Framework.Players.players (framework_players r.1) !! i) ->
    is_Some (Framework.Players.players (framework_players s) !! i) \/
    state_of (adm r.1) peer = Some Ready /\ exists id, aldivine_id_of (adm r.1) peer = Some id /\ ulid_from_string id = Some i }.

Lemma effect_core s s1 e peer c r : adm s1 = adm s -> framework_players s1 = framework_players s -> effect s1 e peer c r -> effect s e peer c r.
Proof. intros E1 E2 [H1' H2' H3']. split; [by rewrite <- E1|done|by rewrite <- E2]. Qed.
Lemma effect_quiet s e peer c k : effect s e peer c (incr k 1 s, []).
Proof. split; [by left|set_solver|by left]. Qed.
Lemma effect_none s e peer c s1 : adm s1 = adm s -> framework_players s1 = framework_players s -> effect s e peer c (s1, []).
Proof. intros E1 E2. split; cbn; [by left|set_solver|rewrite E2; by left]. Qed.

Lemma send_welcome_core s e peer : adm (send_welcome s e peer).1 = adm s /\ framework_players (send_welcome s e peer).1 = framework_players s /\
  (forall x, x ∈ (send_welcome s e peer).2 -> x.1 = peer /\ hdr_channel (header x.2) = EventReliable).
Proof.
  unfold send_welcome. destruct (welcome_json _ _) as [d|]; [|cbn; split_and!; [done..|set_solver]].
  destruct (encode_event _) as [b|]; [|cbn; split_and!; [done..|set_solver]].
  destruct (transmit_core s e peer (make_packet s e peer EventReliable b) id id_transparent) as (T1 & T2 & T3).
  split_and!; [congruence|done|]. intros x Hx. by rewrite (T3 x Hx).
Qed.

Lemma on_auth_effect s e peer payload : effect s e peer Auth (on_auth s e peer payload).
Proof.
  unfold on_auth. destruct (from_slice payload) as [msg|] eqn:Em; [|apply effect_quiet].
  destruct (handle_msg (adm s) peer msg (show_ip peer) (now_ms e) (fresh e)) as [m rs] eqn:Eh.
  destruct (replies_core e peer rs (set_adm m s, [])) as (R1 & R2 & R3). cbv zeta in *.
  destruct (foldl (reply e peer) (set_adm m s, []) rs) as [s2 out]. cbn in R1, R2, R3.
  assert (Hw : forall (s' : server_state) (extra : list (Addr * packet)), adm s' = m -> framework_players s' = framework_players s2 ->
    (forall x, x ∈ extra -> (x.1 = peer /\ hdr_channel (header x.2) = EventReliable) /\ existsb is_ready rs = true) -> effect s e peer Auth (s', out ++ extra)).
  { intros s' extra Hs' Hf' Hx. split; cbn [fst snd].
    - right. split; [done|]. exists msg. by rewrite Eh.
    - intros x [Hin|Hin]%elem_of_app.
      + destruct (R2 x Hin) as [Habs|[Hp Hch]]; [set_solver|]. split; [done|by left].
      + destruct (Hx x Hin) as ((Hp & Hch) & Hrd). split; [done|]. right. split; [by left|]. rewrite Hs'. by apply (handle_is_ready _ _ _ _ _ _ _ _ Eh).
    - intros i Hi. rewrite Hf' in Hi. apply R3 in Hi as [Hi|(Hrd & Hid)]; [by left|]. right. rewrite Hs'. split; [by apply (handle_is_ready _ _ _ _ _ _ _ _ Eh)|done]. }
  destruct (existsb is_ready rs) eqn:Er.
  - destruct (send_welcome_core s2 e peer) as (W1 & W2 & W3). destruct (send_welcome s2 e peer) as [s3 w]. cbn in W1, W2, W3.
    apply Hw; [congruence|done|]. intros x Hx. split; [by apply W3|done].
  - rewrite <- (app_nil_r out). apply Hw; [done..|set_solver].
Qed.

Lemma on_transfer_effect s e peer payload : effect s e peer ResourceTransfer (on_transfer s e peer payload).
Proof.
  unfold on_transfer. destruct (Transfer.serve_chunk _ _ _ _ _ _) as [body|] eqn:Es; [|apply effect_quiet].
  destruct (transmit_core s e peer (make_packet s e peer ResourceTransfer body) (incr "network.chunks" 1) (incr_transparent _ _)) as (T1 & T2 & T3).
  pose proof (Transfer.serve_chunk_bad is_file sha (disk e) (bool_decide (state_of (adm s) peer = Some Ready)) payload (directory s)) as Hb.
  rewrite Es in Hb. specialize (Hb eq_refl). bool_prop. split; [by left| |rewrite T2; by left].
  intros x Hx. apply T3 in Hx as ->. split; [done|]. right. split; [by right|]. by rewrite T1.
Qed.

(** Who may be heard: everybody but the denied, and the unknown on [Auth]. *)
Definition heard (s : server_state) (peer : Addr) (c : channel) : Prop :=
  match state_of (adm s) peer with Some st => st <> StRejected /\ st <> Failed | None => c = Auth end.

Lemma turn_effect s e p peer : let c := hdr_channel (header p) in
  effect s e peer c (turn s e (Ok (p, peer))) /\
  (~ heard s peer c -> (turn s e (Ok (p, peer))).2 = [] /\ adm (turn s e (Ok (p, peer))).1 = adm s).
Proof.
  cbv zeta. unfold turn. set (s0 := incr _ _ (incr _ _ s)).
  assert (E0 : adm s0 = adm s /\ framework_players s0 = framework_players s) by done. clearbody s0. destruct E0 as [E0 F0].
  destruct (admit_core s0 e peer (hdr_channel (header p))) as (A1 & A2 & A3).
  destruct (admit_packet s0 e peer (hdr_channel (header p))) as [ok s1]. cbn in A1, A2, A3. rewrite E0 in A1, A3. rewrite F0 in A2.
  destruct ok; cbn [negb]; [|split; [by apply effect_none|by intros _]].
  destruct (A3 eq_refl) as [_ Hst]. split; [|intros Hn; by destruct Hn].
  destruct (hdr_channel (header p)); try (apply (effect_core s s1 e peer _ _ A1 A2), effect_quiet).
  - apply (effect_core s s1 e peer _ _ A1 A2), on_auth_effect.
  - apply (effect_core s s1 e peer _ _ A1 A2), on_transfer_effect.
Qed.

(** *** The loop *)
Lemma network_loop_step s inputs i :
  network_loop s (inputs ++ [i]) = loop_step (network_loop s inputs) i.
Proof. unfold network_loop. by rewrite run_app. Qed.
Lemma loop_step_turn st i : loop_step st i = ((turn st.1 i.1 i.2).1, st.2 ++ (turn st.1 i.1 i.2).2).
Proof. unfold loop_step. by destruct (turn _ _ _). Qed.

(** A relation between the states around a turn holds along the loop. *)
Lemma loop_relation (R : manager -> manager -> Prop) s inputs :
  (forall m, R m m) -> (forall a b c, R a b -> R b c -> R a c) ->
  (forall m peer msg ip now fr, R m (handle_msg m peer msg ip now fr).1) ->
  R (adm s) (adm (network_loop s inputs).1).
Proof.
  intros Hr Ht Hh. induction inputs as [|[e rcv] inputs IH] using rev_ind; [apply Hr|].
  rewrite network_loop_step, loop_step_turn. cbn [fst snd]. eapply Ht; [exact IH|].
  destruct rcv as [[p peer]|]; [|apply Hr]. destruct (turn_effect (network_loop s inputs).1 e p peer) as [[[->|(_ & msg & ->)] _ _] _]; [apply Hr|apply Hh].
Qed.

Record served_ok (m0 : manager) (s : server_state) : Prop := Served {
  ok_seated : ready_seated (adm s);
  ok_queue : queue_inv (adm_queue (adm s));
  ok_run : exists ops, adm s = run admission_op_step m0 ops;
  ok_players : forall i, is_Some (Framework.Players.players (framework_players s) !! i) ->
    exists id, ulid_from_string id = Some i /\ is_playing (adm_queue (adm s)) id = true }.

Lemma turn_ok m0 s e rcv : served_ok m0 s -> served_ok m0 (turn s e rcv).1.
Proof.
  intros [S1 S2 (ops & S3) S4]. destruct rcv as [[p peer]|]; [|split; cbn; [done|done|by exists ops|done]].
  destruct (turn_effect s e p peer) as [[Ha _ Hp] _]. set (r := turn s e (Ok (p, peer))) in *.
  assert (Hs : ready_seated (adm r.1) /\ queue_inv (adm_queue (adm r.1)) /\ (exists ops, adm r.1 = run admission_op_step m0 ops) /\
    playing (adm_queue (adm s)) `prefix_of` playing (adm_queue (adm r.1))).
  { destruct Ha as [->|(_ & msg & ->)]; [split_and!; [done|done|by exists ops|done]|]. split_and!.
    - by apply handle_seated.
    - destruct (handle_queue (adm s) peer msg (show_ip peer) (now_ms e) (fresh e)) as [-> | [id ->]]; [done|by apply join_inv].
    - exists (ops ++ [Handle peer msg (show_ip peer) (now_ms e) (fresh e)]). by rewrite run_app, <- S3.
    - apply handle_playing. }
  destruct Hs as (H1' & H2' & H3' & H4'). split; [done..|].
  intros i [Hi|(Hst & id & Hid & Hu)]%Hp.
  - destruct (S4 i Hi) as (id & Hu & Hpl). exists id. split; [done|by eapply playing_mono].
  - unfold state_of in Hst. unfold aldivine_id_of in Hid. destruct (sessions (adm r.1) !! peer) as [x|] eqn:Ex; [|done].
    cbn in Hst, Hid. injection Hst as Hst. destruct (H1' _ _ Ex Hst) as (id' & Hid' & Hpl). rewrite Hid in Hid'. injection Hid' as <-. by exists id.
Qed.

Lemma loop_ok name max req dir inputs : let m0 := admission_new name max req in
  served_ok m0 (network_loop (server_new name max req dir) inputs).1.
Proof.
  intros m0. induction inputs as [|i inputs IH] using rev_ind.
  - split; cbn.
    + intros peer s Hs. change ((∅ : gmap Addr admission_session) !! peer = Some s) in Hs. by rewrite lookup_empty in Hs.
    + apply queue_inv_new.
    + by exists [].
    + intros i [x Hx]. change ((∅ : gmap Z Framework.Players.player) !! i = Some x) in Hx. by rewrite lookup_empty in Hx.
  - rewrite network_loop_step, loop_step_turn. by apply turn_ok.
Qed.

(** C35: in every execution of the network loop the queue keeps its invariant,
    every player of the framework has the account of a seat, and a turn answers
    nobody but the sender of the packet it received, who is not denied and, if
    it is unknown, knocked on [Auth]; it answers on another channel than [Auth]
    (the welcome and file chunks) only a peer whose session is ready, with an
    account that has a seat and that the peer bound by answering its challenge. *)
Theorem ingress_safety (name : string) (max : Z) (req : identity_requirements) (dir : text) (inputs : list input) (e : env)
    (received : result (packet * Addr) ald_error) :
  let m0 := admission_new name max req in
  let s := (network_loop (server_new name max req dir) inputs).1 in
  let r := turn s e received in
  queue_inv (adm_queue (adm s)) /\
  (forall i, is_Some (Framework.Players.players (framework_players s) !! i) -> exists id, ulid_from_string id = Some i /\ is_playing (adm_queue (adm s)) id = true) /\
  (forall peer p, (peer, p) ∈ r.2 -> exists q, received = Ok (q, peer) /\ heard s peer (hdr_channel (header q)) /\
    (hdr_channel (header p) = Auth /\ hdr_channel (header q) = Auth \/
     (hdr_channel (header p) = EventReliable \/ hdr_channel (header p) = ResourceTransfer) /\
     exists ops sess id, adm r.1 = run admission_op_step m0 ops /\ sessions (adm r.1) !! peer = Some sess /\ state sess = Ready /\
       sess_aldivine_id sess = Some id /\ is_playing (adm_queue (adm r.1)) id = true /\
       authenticated show_addr ulid_to_string ulid_from_string m0 ops peer sess id)).
Proof.
  intros m0 s r. pose proof (loop_ok name max req dir inputs) as Hok. cbv zeta in Hok. fold m0 s in Hok.
  split_and!; [apply Hok|apply Hok|]. intros peer p Hin.
  pose proof (turn_ok m0 s e received Hok) as [R1 _ (ops & R3) _]. fold r in R1, R3. subst r.
  destruct received as [[q peer']|]; [|cbn in Hin; set_solver].
  destruct (turn_effect s e q peer') as [[_ Ho _] Hq]. destruct (Ho _ Hin) as [Hp Hch]. cbn in Hp. subst peer'.
  exists q. split; [done|]. split.
  { unfold heard in *. destruct (state_of (adm s) peer) as [st|] eqn:Est; [|destruct (decide (hdr_channel (header q) = Auth)) as [|Hn]; [done|destruct (Hq Hn) as [Hq1 _]; rewrite Hq1 in Hin; set_solver]].
    split; intros ->; (destruct Hq as [Hq1 _]; [by intros [? ?]|rewrite Hq1 in Hin; set_solver]). }
  destruct Hch as [Hch|(Hch & Hrd)]; [by left|]. right. split; [done|].
  unfold state_of in Hrd. destruct (sessions _ !! peer) as [sess|] eqn:Es; [|done]. injection Hrd as Hrd.
  destruct (R1 _ _ Es Hrd) as (id & Hid & Hpl). exists ops, sess, id. split_and!; [done..|].
  eapply account_authenticated; [done|by rewrite <- R3|done].
Qed.

(** C36: seats only fill up: whatever packets arrive, those who play keep playing,
    in their order, and once no seat is open nobody else ever plays; no turn
    takes a seat back, as nothing in the server calls [remove]. *)
Theorem seats_never_freed (s : server_state) (inputs : list input) :
  let q := adm_queue (adm s) in
  let q' := adm_queue (adm (network_loop s inputs).1) in
  playing q `prefix_of` playing q' /\ Queue.config q' = Queue.config q /\ (slot_free_for q false = false -> playing q' = playing q).
Proof.
  cbv zeta. apply (loop_relation (fun m m' => playing (adm_queue m) `prefix_of` playing (adm_queue m') /\
    Queue.config (adm_queue m') = Queue.config (adm_queue m) /\ (slot_free_for (adm_queue m) false = false -> playing (adm_queue m') = playing (adm_queue m)))).
  - done.
  - intros a b c (A1 & A2 & A3) (B1 & B2 & B3). split_and!; [by etrans|congruence|]. intros Hf. rewrite <- (A3 Hf). apply B3.
    unfold slot_free_for in *. by rewrite A2, (A3 Hf).
  - intros. apply handle_playing.
Qed.

(** A peer that was turned away is never heard again, and stays as it is. *)
Lemma denied_forever (s : server_state) (inputs : list input) (peer : Addr) (st : handshake_state) :
  state_of (adm s) peer = Some st -> st = StRejected \/ st = Failed ->
  state_of (adm (network_loop s inputs).1) peer = Some st /\ Forall (fun o => o.1 <> peer) (network_loop s inputs).2.
Proof.
  intros Hs Hst. induction inputs as [|[e rcv] inputs [IH1 IH2]] using rev_ind; [by split|].
  rewrite network_loop_step, loop_step_turn. cbn [fst snd]. set (t := (network_loop s inputs).1) in *.
  destruct rcv as [[p peer']|]; [|split; [done|by rewrite app_nil_r]].
  destruct (turn_effect t e p peer') as [[Ha Ho _] Hq].
  destruct (decide (peer' = peer)) as [->|Hne].
  - assert (Hn : ~ heard t peer (hdr_channel (header p))) by (unfold heard; rewrite IH1; naive_solver).
    destruct (Hq Hn) as [-> Hadm]. unfold state_of in *. rewrite Hadm. split; [done|by rewrite app_nil_r].
  - split.
    + unfold state_of in *. destruct Ha as [->|(_ & msg & ->)]; [done|]. by rewrite handle_other.
    + apply Forall_app. split; [done|]. apply Forall_forall. intros x Hx. destruct (Ho x Hx) as [-> _]. done.
Qed.
End ingress.
End Ingress.

(** ** The console *)
Module Console.
Inductive console_command := Status | Stop | ResourceList | Raw (raw : text).
Definition parse (input : text) : console_command :=
  let v := trim_text input in
  if verb_is v "status" then Status
  else if one_of v ["stop"; "quit"; "exit"]%string then Stop
  else if one_of v ["resources"; "res"]%string then ResourceList
  else Raw v.
(** The only command that changes anything raises the shutdown flag; the others
    are logged. *)
Definition execute (shutdown : bool) (cmd : console_command) : bool := match cmd with Stop => true | _ => shutdown end.

Lemma shutdown_by_word (lines : list text) : foldl execute false (parse <$> lines) = true <->
  exists l, l ∈ lines /\ one_of (trim_text l) ["stop"; "quit"; "exit"]%string = true.
Proof.
  assert (Hp : forall l, (match parse l with Stop => true | _ => false end) = one_of (trim_text l) ["stop"; "quit"; "exit"]%string).
  { intros l. unfold parse, verb_is. destruct (one_of (trim_text l) ["stop"; "quit"; "exit"]%string) eqn:E; [|by repeat case_match].
    case_bool_decide as Es; [|done]. rewrite Es in E. vm_compute in E. done. }
  assert (Hg : forall b, foldl execute b (parse <$> lines) = true <-> b = true \/ exists l, l ∈ lines /\ one_of (trim_text l) ["stop"; "quit"; "exit"]%string = true).
  { induction lines as [|l lines IH]; intros b; cbn [fmap list_fmap foldl].
    - split; [by left|]. intros [?|(l & Hl & _)]; [done|set_solver].
    - change (list_fmap text console_command parse lines) with (parse <$> lines). rewrite IH. specialize (Hp l). destruct (parse l) eqn:Ep; cbn [execute]; split.
      all: try (intros [Hb|(x & Hx & Hw)]; [by left|right; exists x; split; [by right|done]]).
      all: try (intros [Hb|(x & [-> |Hx]%elem_of_cons & Hw)]; [by left|congruence|right; by exists x]).
      + intros _. right. exists l. split; [by left|done].
      + by left. }
  rewrite Hg. naive_solver.
Qed.
End Console.
