(* ===== verification/Astryn.v ===== *)
(** The Astryn client (client/astryn/src/lib.rs and join.rs): the connect task
    ([Connect]) and its meeting with the server's admission manager ([Meeting]),
    fetching a resource file from the server ([Fetch]) and the join driver
    ([Join]). An awaiting task is a state machine: a phase per await, and what
    the await returned is the event of the step. *)
From Stdlib Require Import Floats.SpecFloat.
From stdpp Require Import pretty.
From S2P Require Import Prelude RustStr Bytes Packet Frames Queue Deferrals Handshake Identity Admission.
From S2P Require Vfs Download Cache Server.

(** ** The connect task *)
Module Connect.
Inductive client_state := Idle | Bootstrapping | Connecting | Loading | Running | Stopping | Failed.
#[global] Instance client_state_eq_dec : EqDecision client_state.
Proof. solve_decision. Defined.

(** Where the task waits: for the answer to the hello and then the challenge
    (with the tries left), in the loops after the credentials, the identity and
    the entitlement request (with the turns left, this one included), for the
    world, for the welcome, in the session, or nowhere. *)
Inductive phase :=
| AwaitHello (tries : nat) | AwaitChallenge (tries : nat) | AwaitAuth (turns : nat) (authed : bool)
| AwaitDeferral (turns : nat) | AwaitEntitlement (turns : nat) | AwaitReady | AwaitWelcome | Live | Ended.

(** What an await returns: a packet, nothing in time (or a receive error), or
    the shutdown signal. *)
Inductive event := Got (p : packet) | Nothing | Shutdown.

Section connect.
Context `{json handshake_message, json event_envelope, json transfer_request, json transfer_header}.
(** The id [AldivinePlayerId::new] draws, the device id made of the process id
    and the clock, the package version, and which sends the socket takes. *)
Context (account device version : string) (send_ok : handshake_message -> bool).

Record client := Client {
  at_ : phase; state : client_state; session : Z; nonce : string; shutdown : bool;
  slot : option Z; last_event : option event_envelope }.
Definition eta (c : client) : client := Client (at_ c) (state c) (session c) (nonce c) (shutdown c) (slot c) (last_event c).
Definition set_at : phase -> client -> client := ltac:(setter eta at_).
Definition set_state : client_state -> client -> client := ltac:(setter eta state).
Definition set_session : Z -> client -> client := ltac:(setter eta session).
Definition set_nonce : string -> client -> client := ltac:(setter eta nonce).
Definition set_shutdown : bool -> client -> client := ltac:(setter eta shutdown).
Definition set_slot : option Z -> client -> client := ltac:(setter eta slot).
Definition set_last_event : option event_envelope -> client -> client := ltac:(setter eta last_event).

Definition outgoing : Type := list (handshake_message * Z).
Definition stop_in (st : client_state) (c : client) : client * outgoing := (set_at Ended (set_state st c), []).

Definition hello : handshake_message := ClientHello PROTOCOL_VERSION 3095 "Enhanced" version.
Definition auth (c : client) : handshake_message := ClientAuth account None None (Some (nonce c)).
Definition identity : handshake_message := IdentityResponse account None "FREE" (Some device).

(** The top of the hello loop with [tries] turns left. *)
Definition try_hello (tries : nat) (c : client) : client * outgoing :=
  match tries with
  | O => stop_in Failed c
  | S t =>
      if shutdown c then stop_in Idle c
      else if send_ok hello then (set_at (AwaitHello t) c, [(hello, 0)]) else stop_in Failed c
  end.
Definition send_auth (c : client) : client * outgoing :=
  if send_ok (auth c) then (set_at (AwaitAuth 4 false) c, [(auth c, session c)]) else stop_in Failed c.
Definition send_identity (c : client) : client * outgoing :=
  let c := set_state Loading c in
  if send_ok identity then (set_at (AwaitDeferral 6) c, [(identity, session c)]) else stop_in Failed c.
(** A failed send of these two is ignored. *)
Definition send_entitlement (c : client) : client * outgoing :=
  (set_at (AwaitEntitlement 4) c, if send_ok EntitlementRequest then [(EntitlementRequest, session c)] else []).
Definition send_ready (c : client) : client * outgoing :=
  let out := if send_ok ClientReady then [(ClientReady, session c)] else [] in
  if shutdown c then (set_at Ended (set_state Idle c), out) else (set_at AwaitReady c, out).

(** The end of a turn that did not decide, in a loop with [turns] turns. *)
Definition next_turn (turns : nat) (wait : nat -> phase) (exhausted : client -> client * outgoing) (c : client) : client * outgoing :=
  match turns with S (S n) => (set_at (wait (S n)) c, []) | _ => exhausted c end.

(** [recv_handshake]. *)
Definition received (e : event) : option handshake_message :=
  match e with Got p => match from_slice (payload p) with Ok m => Some m | Err _ => None end | _ => None end.

Definition step (c : client) (e : event) : client * outgoing :=
  let c := match e with Shutdown => set_shutdown true c | _ => c end in
  let m := received e in
  match at_ c with
  | AwaitHello t =>
      match m with
      | Some (ServerHello _ sid _ _ _) => (set_at (AwaitChallenge t) (set_session sid c), [])
      | Some (Reject _ _) => stop_in Failed c
      | _ => try_hello t c
      end
  | AwaitChallenge t =>
      match m with
      | Some (AuthChallenge n) => send_auth (set_nonce n c)
      | _ => try_hello t c
      end
  | AwaitAuth n authed =>
      let done_ authed c := if authed : bool then send_identity c else stop_in Failed c in
      match m with
      | Some (AuthResult true _) => next_turn n (fun n => AwaitAuth n true) (done_ true) c
      | Some (Reject _ _) => stop_in Failed c
      | Some IdentityRequest => if authed then send_identity c else next_turn n (fun n => AwaitAuth n authed) (done_ authed) c
      | Some _ => next_turn n (fun n => AwaitAuth n authed) (done_ authed) c
      | None => if shutdown c then stop_in Idle c else next_turn n (fun n => AwaitAuth n authed) (done_ authed) c
      end
  | AwaitDeferral n =>
      match m with
      | Some DeferralDone => send_entitlement c
      | Some (Reject _ _) => stop_in Failed c
      | Some _ => next_turn n AwaitDeferral (stop_in Failed) c
      | None => if shutdown c then stop_in Idle c else next_turn n AwaitDeferral (stop_in Failed) c
      end
  | AwaitEntitlement n =>
      match m with
      | Some (EntitlementResult _ _) => send_ready c
      | Some (Reject _ _) => stop_in Failed c
      | Some _ => next_turn n AwaitEntitlement (stop_in Failed) c
      | None => if shutdown c then stop_in Idle c else next_turn n AwaitEntitlement (stop_in Failed) c
      end
  | AwaitReady =>
      match m with
      | Some (ServerReady true) => (set_at AwaitWelcome c, [])
      | Some (Reject _ _) => stop_in Failed c
      | Some _ => if shutdown c then stop_in Idle c else (c, [])
      | None => if shutdown c then stop_in Idle c else stop_in Failed c
      end
  | AwaitWelcome =>
      match e with
      | Shutdown => (c, [])
      | _ =>
          let c := match e with
            | Got p => if bool_decide (hdr_channel (header p) = EventReliable)
                       then match decode_event (payload p) with Ok ev => set_last_event (Some ev) c | Err _ => c end else c
            | _ => c
            end in
          let c := set_slot (Some (session c)) c in
          if shutdown c then stop_in Idle c else (set_at Live (set_state Running c), [])
      end
  | Live => match e with Shutdown => stop_in Idle c | _ => (c, []) end
  | Ended => (c, [])
  end.

(** The task from its first transition; [addr_ok]: the socket binds and the
    address parses. *)
Definition start (addr_ok stopping : bool) : client * outgoing :=
  let c := Client Ended Connecting 0 "" stopping None None in
  if negb addr_ok then stop_in Failed c else if stopping then stop_in Idle c else try_hello 3 c.
Definition task (c : client) (events : list event) : client := run (fun c e => (step c e).1) c events.

(** *** What a running client has been told *)
Definition milestones : list (handshake_message -> bool) :=
  [fun m => match m with ServerHello _ _ _ _ _ => true | _ => false end;
   fun m => match m with AuthChallenge _ => true | _ => false end;
   fun m => match m with AuthResult true _ => true | _ => false end;
   fun m => match m with DeferralDone => true | _ => false end;
   fun m => match m with EntitlementResult _ _ => true | _ => false end;
   fun m => match m with ServerReady true => true | _ => false end].
(** The milestones behind a phase. *)
Definition reached (p : phase) : nat :=
  match p with
  | AwaitHello _ => 0 | AwaitChallenge _ => 1 | AwaitAuth _ false => 2 | AwaitAuth _ true => 3 | AwaitDeferral _ => 3
  | AwaitEntitlement _ => 4 | AwaitReady => 5 | AwaitWelcome | Live => 6 | Ended => 0
  end.
Definition told (n : nat) (events : list event) : Prop :=
  exists ms, ms `sublist_of` omap received events /\ Forall2 (fun (f : handshake_message -> bool) m => f m = true) (take n milestones) ms.

Lemma told_le n k events : (n <= k)%nat -> told k events -> told n events.
Proof.
  intros Hn (ms & Hs & Hf). exists (take n ms). split; [etrans; [apply sublist_take|exact Hs]|].
  assert (take n milestones = take n (take k milestones)) as -> by (rewrite firstn_firstn, Nat.min_l; done). by apply Forall2_take.
Qed.
Lemma told_snoc n events e : told n events -> told n (events ++ [e]).
Proof. intros (ms & Hs & Hf). exists ms. split; [|done]. rewrite omap_app. by apply sublist_inserts_r. Qed.
Lemma told_next n events e m f : told n events -> received e = Some m -> milestones !! n = Some f -> f m = true -> told (S n) (events ++ [e]).
Proof.
  intros (ms & Hs & Hf) He Hn Hm. exists (ms ++ [m]). split.
  - rewrite omap_app. apply sublist_app; [done|]. cbn. by rewrite He.
  - rewrite (take_S_r _ _ f) by done. by apply Forall2_app; [|constructor].
Qed.

Definition honest_inv (c : client) (events : list event) : Prop := told (reached (at_ c)) events /\ (state c = Running -> told 6 events).

Lemma told_zero events : told 0 events.
Proof. exists []. split; [apply sublist_nil_l|constructor]. Qed.
Lemma inv_weaken c c' events e : honest_inv c events -> (reached (at_ c') <= reached (at_ c))%nat -> (state c' = Running -> state c = Running) -> honest_inv c' (events ++ [e]).
Proof. intros [H1' H2'] Hr Hs. split; [eapply told_le; [exact Hr|by apply told_snoc]|]. intros Hst. by apply told_snoc, H2', Hs. Qed.
Lemma inv_stop st c c0 events e : st <> Running -> honest_inv c events -> honest_inv (stop_in st c0).1 (events ++ [e]).
Proof. intros Hst _. split; cbn; [apply told_zero|done]. Qed.
(** One more milestone is behind the new phase. *)
Lemma inv_next c c' events e m f : honest_inv c events -> received e = Some m -> milestones !! reached (at_ c) = Some f -> f m = true ->
  (reached (at_ c') <= S (reached (at_ c)))%nat -> (state c' = Running -> state c = Running) -> honest_inv c' (events ++ [e]).
Proof.
  intros [H1' H2'] He Hf Hm Hr Hs. split; [eapply told_le; [exact Hr|by eapply told_next]|]. intros Hst. by apply told_snoc, H2', Hs.
Qed.

(** The helpers only go back, end, or wait where they say. *)
Lemma try_hello_at t c : (reached (at_ (try_hello t c).1) = 0)%nat /\ (state (try_hello t c).1 = Running -> state c = Running).
Proof. unfold try_hello. destruct t; [done|]. destruct (shutdown c); [done|]. by destruct (send_ok hello). Qed.
Lemma send_auth_at c : (reached (at_ (send_auth c).1) <= 2)%nat /\ (state (send_auth c).1 = Running -> state c = Running).
Proof. unfold send_auth. destruct (send_ok _); cbn; [by split|split; [lia|done]]. Qed.
Lemma send_identity_at c : (reached (at_ (send_identity c).1) <= 3)%nat /\ state (send_identity c).1 <> Running.
Proof. unfold send_identity. destruct (send_ok _); cbn; split; try done; lia. Qed.
Lemma send_ready_at c : (reached (at_ (send_ready c).1) <= 5)%nat /\ (state (send_ready c).1 = Running -> state c = Running).
Proof. unfold send_ready. destruct (shutdown c); cbn; split; try done; lia. Qed.
Lemma next_turn_at n wait ex c k : (forall n, reached (wait n) <= k)%nat -> (reached (at_ (ex c).1) <= k)%nat -> (state (ex c).1 = Running -> state c = Running) ->
  (reached (at_ (next_turn n wait ex c).1) <= k)%nat /\ (state (next_turn n wait ex c).1 = Running -> state c = Running).
Proof. intros Hw He Hs. unfold next_turn. destruct n as [|[|n]]; [done|done|]. split; [apply Hw|done]. Qed.

Lemma step_inv c events e : honest_inv c events -> honest_inv (step c e).1 (events ++ [e]).
Proof.
  intros Hi. unfold step. set (c1 := match e with Shutdown => set_shutdown true c | _ => c end).
  assert (E : at_ c1 = at_ c /\ state c1 = state c) by (subst c1; by destruct e). destruct E as [Ea Es].
  assert (Hi1 : honest_inv c1 events) by (unfold honest_inv; by rewrite Ea, Es). clearbody c1. clear Hi Ea Es c. rename c1 into c.
  pose proof (try_hello_at) as Th.
  destruct (at_ c) as [t|t|n authed|n|n| | | |] eqn:Ea.
  - destruct (received e) as [m|] eqn:Er; [destruct m|]; try (apply (inv_weaken c); [done|rewrite (proj1 (Th _ _)); lia|apply Th]).
    + by eapply (inv_next c); [done|exact Er|by rewrite Ea|done|by rewrite Ea|].
    + by apply (inv_stop _ c).
  - destruct (received e) as [m|] eqn:Er; [destruct m|]; try (apply (inv_weaken c); [done|rewrite (proj1 (Th _ _)); lia|apply Th]).
    eapply (inv_next c); [done|exact Er|by rewrite Ea|done|rewrite Ea; apply send_auth_at|apply (send_auth_at (set_nonce nonce0 c))].
  - assert (Hturn : forall b, (reached (at_ (next_turn n (fun n => AwaitAuth n b) (fun c => if b : bool then send_identity c else stop_in Failed c) c).1) <= reached (AwaitAuth n b))%nat /\
      (state (next_turn n (fun n => AwaitAuth n b) (fun c => if b : bool then send_identity c else stop_in Failed c) c).1 = Running -> state c = Running)).
    { intros b. apply next_turn_at; [by destruct b| |]; destruct b; cbn; try done; try lia; [apply send_identity_at|]. intros Hs. by destruct (proj2 (send_identity_at c)). }
    assert (Hsame : honest_inv (next_turn n (fun n => AwaitAuth n authed) (fun c => if authed then send_identity c else stop_in Failed c) c).1 (events ++ [e])).
    { apply (inv_weaken c); [done|rewrite Ea; apply Hturn|apply Hturn]. }
    destruct (received e) as [m|] eqn:Er; [destruct m|]; try exact Hsame.
    + destruct accepted; [|exact Hsame]. destruct authed; [apply (inv_weaken c); [done|rewrite Ea; apply Hturn|apply (Hturn true)]|].
      eapply (inv_next c); [done|exact Er|by rewrite Ea|done|rewrite Ea; apply (Hturn true)|apply (Hturn true)].
    + destruct authed; [|exact Hsame]. apply (inv_weaken c); [done|rewrite Ea; apply send_identity_at|]. intros Hs. by destruct (proj2 (send_identity_at c)).
    + by apply (inv_stop _ c).
    + destruct (shutdown c); [by apply (inv_stop _ c)|exact Hsame].
  - assert (Hsame : honest_inv (next_turn n AwaitDeferral (stop_in Failed) c).1 (events ++ [e])).
    { apply (inv_weaken c); [done|rewrite Ea; apply next_turn_at; cbn; [done|lia|done]|apply (next_turn_at n AwaitDeferral (stop_in Failed) c 3); cbn; [done|lia|done]]. }
    destruct (received e) as [m|] eqn:Er; [destruct m|]; try exact Hsame.
    + by eapply (inv_next c); [done|exact Er|by rewrite Ea|done|rewrite Ea; cbn; lia|].
    + by apply (inv_stop _ c).
    + destruct (shutdown c); [by apply (inv_stop _ c)|exact Hsame].
  - assert (Hsame : honest_inv (next_turn n AwaitEntitlement (stop_in Failed) c).1 (events ++ [e])).
    { apply (inv_weaken c); [done|rewrite Ea; apply next_turn_at; cbn; [done|lia|done]|apply (next_turn_at n AwaitEntitlement (stop_in Failed) c 4); cbn; [done|lia|done]]. }
    destruct (received e) as [m|] eqn:Er; [destruct m|]; try exact Hsame.
    + eapply (inv_next c); [done|exact Er|by rewrite Ea|done|rewrite Ea; apply send_ready_at|apply send_ready_at].
    + by apply (inv_stop _ c).
    + destruct (shutdown c); [by apply (inv_stop _ c)|exact Hsame].
  - assert (Hsame : honest_inv (if shutdown c then stop_in Idle c else (c, [])).1 (events ++ [e])).
    { destruct (shutdown c); [by apply (inv_stop _ c)|by apply (inv_weaken c)]. }
    destruct (received e) as [m|] eqn:Er; [destruct m|]; try exact Hsame.
    + destruct world_join; [|exact Hsame]. by eapply (inv_next c); [done|exact Er|by rewrite Ea|done|by rewrite Ea|].
    + by apply (inv_stop _ c).
    + destruct (shutdown c); by apply (inv_stop _ c).
  - destruct Hi1 as [H1' H2']. rewrite Ea in H1'. cbn in H1'.
    assert (Hlive : forall c', at_ c' = Live -> honest_inv c' (events ++ [e])) by (intros c' Ec; split; [rewrite Ec|intros _]; by apply told_snoc).
    destruct e as [p| |]; [| |split; cbn; [rewrite Ea; by apply told_snoc|intros Hs; by apply told_snoc, H2']].
    + cbv zeta. destruct (shutdown _); [split; [apply told_zero|done]|by apply Hlive].
    + cbv zeta. destruct (shutdown _); [split; [apply told_zero|done]|by apply Hlive].
  - destruct e; [by apply (inv_weaken c)|by apply (inv_weaken c)|by apply (inv_stop _ c)].
  - apply (inv_weaken c); [done|cbn; lia|done].
Qed.

(** *** Giving up *)
(** The turns a phase can have left, and the awaits that return nothing before
    the task is over. *)
Definition bounded (p : phase) : Prop :=
  match p with
  | AwaitHello t | AwaitChallenge t => (t <= 2)%nat
  | AwaitAuth n _ | AwaitEntitlement n => (1 <= n <= 4)%nat
  | AwaitDeferral n => (1 <= n <= 6)%nat
  | _ => True
  end.
Definition budget (p : phase) : nat :=
  match p with
  | AwaitHello t | AwaitChallenge t => S t
  | AwaitAuth n authed => n + if authed then 6 else 0
  | AwaitDeferral n | AwaitEntitlement n => n
  | AwaitReady => 1
  | _ => 0
  end.
Definition silent (c : client) : Prop := at_ c <> Live /\ at_ c <> AwaitWelcome /\ shutdown c = false /\ bounded (at_ c).

Lemma bounded_stop st c : bounded (at_ (stop_in st c).1).
Proof. done. Qed.
Lemma bounded_hello t c : (t <= 3)%nat -> bounded (at_ (try_hello t c).1).
Proof. intros Ht. unfold try_hello. destruct t; [done|]. destruct (shutdown c); [done|]. destruct (send_ok hello); cbn; [lia|done]. Qed.
Lemma bounded_identity c : bounded (at_ (send_identity c).1).
Proof. unfold send_identity. destruct (send_ok _); cbn; [lia|done]. Qed.
Lemma bounded_turn n wait ex c : bounded (at_ (ex c).1) -> (forall k, (1 <= k < n)%nat -> bounded (wait k)) -> bounded (at_ (next_turn n wait ex c).1).
Proof. intros He Hw. unfold next_turn. destruct n as [|[|n]]; [done|done|]. apply Hw. lia. Qed.

Lemma step_bounded c e : bounded (at_ c) -> bounded (at_ (step c e).1).
Proof.
  unfold step. set (c1 := match e with Shutdown => set_shutdown true c | _ => c end).
  assert (Ea : at_ c1 = at_ c) by (subst c1; by destruct e). rewrite <- Ea. clearbody c1. clear Ea c. rename c1 into c. intros Hb.
  assert (Hx : forall b : bool, bounded (at_ ((if b then send_identity c else stop_in Failed c) : client * outgoing).1)) by (intros []; [apply bounded_identity|done]).
  destruct (at_ c) as [t|t|n authed|n|n| | | |] eqn:Ea; cbn in Hb.
  - destruct (received e) as [m|]; [destruct m|]; try (apply bounded_hello; lia); done.
  - destruct (received e) as [m|]; [destruct m|]; try (apply bounded_hello; lia). unfold send_auth. destruct (send_ok _); cbn; [lia|done].
  - assert (Ht : forall b, bounded (at_ (next_turn n (fun n => AwaitAuth n b) (fun c => if b : bool then send_identity c else stop_in Failed c) c).1))
      by (intros b; apply bounded_turn; [apply Hx|cbn; intros; lia]).
    destruct (received e) as [m|]; [destruct m|]; try apply Ht; try done.
    + destruct accepted; [apply (Ht true)|apply Ht].
    + destruct authed; [apply bounded_identity|apply (Ht false)].
    + destruct (shutdown c); [done|apply Ht].
  - assert (Ht : bounded (at_ (next_turn n AwaitDeferral (stop_in Failed) c).1)) by (apply bounded_turn; [done|cbn; intros; lia]).
    destruct (received e) as [m|]; [destruct m|]; try exact Ht; try done; [cbn; lia|]. by destruct (shutdown c).
  - assert (Ht : bounded (at_ (next_turn n AwaitEntitlement (stop_in Failed) c).1)) by (apply bounded_turn; [done|cbn; intros; lia]).
    destruct (received e) as [m|]; [destruct m|]; try exact Ht; try done; [unfold send_ready; by destruct (shutdown c)|]. by destruct (shutdown c).
  - destruct (received e) as [m|]; [destruct m|]; try done; try (destruct (shutdown c); cbn; by rewrite ?Ea).
    destruct world_join; [done|]. destruct (shutdown c); cbn; by rewrite ?Ea.
  - destruct e; cbv zeta; try (by destruct (shutdown _)). cbn. by rewrite Ea.
  - destruct e; cbn; by rewrite ?Ea.
  - cbn. by rewrite Ea.
Qed.

Lemma step_silent c : silent c -> at_ (step c Nothing).1 = Ended \/ silent (step c Nothing).1 /\ (budget (at_ (step c Nothing).1) < budget (at_ c))%nat.
Proof.
  intros (Hl & Hw & Hs & Hb). pose proof (step_bounded c Nothing Hb) as Hb'. unfold silent. revert Hb'. unfold step. cbn [received]. rewrite Hs.
  destruct (at_ c) as [t|t|n authed|n|n| | | |] eqn:Ea; cbn in Hb; try done.
  - unfold try_hello. destruct t as [|t]; [by left|]. rewrite Hs. destruct (send_ok hello); [|by left]. right. cbn. split_and!; try done; lia.
  - unfold try_hello. destruct t as [|t]; [by left|]. rewrite Hs. destruct (send_ok hello); [|by left]. right. cbn. split_and!; try done; lia.
  - unfold next_turn. destruct n as [|[|n]]; [lia| |right; cbn; split_and!; try done; destruct authed; lia]. destruct authed; [|by left].
    unfold send_identity. destruct (send_ok identity); [|by left]. right. cbn. split_and!; try done; lia.
  - unfold next_turn. destruct n as [|[|n]]; [lia|by left|]. right. cbn. split_and!; try done; lia.
  - unfold next_turn. destruct n as [|[|n]]; [lia|by left|]. right. cbn. split_and!; try done; lia.
  - by left.
  - left. cbn. by rewrite Ea.
Qed.

Lemma task_ended c k : at_ c = Ended -> at_ (task c (replicate k Nothing)) = Ended.
Proof. revert c. induction k as [|k IH]; intros c Hc; [done|]. cbn. apply IH. unfold step. by rewrite Hc. Qed.
Lemma task_gives_up k : forall c, silent c -> (budget (at_ c) <= k)%nat -> at_ (task c (replicate k Nothing)) = Ended.
Proof.
  induction k as [|k IH]; intros c Hc Hk.
  - destruct Hc as (Hl & Hw & _ & Hb). cbn. destruct (at_ c) as [t|t|n []|n|n| | | |]; cbn in *; try done; lia.
  - cbn. destruct (step_silent c Hc) as [He|[Hs Hlt]]; [by apply task_ended|]. apply IH; [done|lia].
Qed.

(** Whatever arrives, the client runs only after it was sent, in this order,
    the hello of the server, a challenge, an accepted credential, the end of the
    deferrals, an entitlement and the world; and when nothing arrives it gives
    up: ten awaits end the task. *)
Theorem client_runs_after_handshake (addr_ok stopping : bool) (events : list event) :
  let c := task (start addr_ok stopping).1 events in
  (state c = Running -> exists m1 m2 m3 m4 m5 m6, [m1; m2; m3; m4; m5; m6] `sublist_of` omap received events /\
     Forall2 (fun (f : handshake_message -> bool) m => f m = true) milestones [m1; m2; m3; m4; m5; m6]) /\
  (at_ c <> Live -> at_ c <> AwaitWelcome -> shutdown c = false -> at_ (task c (replicate 10 Nothing)) = Ended).
Proof.
  intros c. split.
  - assert (Hi : forall c0 pre, honest_inv c0 pre -> honest_inv (task c0 events) (pre ++ events)).
    { clear c. induction events as [|e es IH]; intros c0 pre H0'; [by rewrite app_nil_r|]. cbn. rewrite (cons_middle e), (assoc_L (++)). by apply IH, step_inv. }
    destruct (Hi (start addr_ok stopping).1 []) as [_ Hr].
    { unfold start. destruct addr_ok; cbn; [|split; [apply told_zero|done]]. destruct stopping; cbn; [split; [apply told_zero|done]|].
      destruct (send_ok hello); cbn; (split; [apply told_zero|done]). }
    intros Hs. destruct (Hr Hs) as (ms & Hsub & Hf). cbn [app] in Hsub. pose proof (Forall2_length _ _ _ Hf) as Hl.
    do 6 (destruct ms as [|? ms]; [done|]). destruct ms; [|done]. repeat eexists; [exact Hsub|exact Hf].
  - assert (Hb : bounded (at_ c)).
    { subst c. unfold task. apply (run_invariant (fun c e => (step c e).1) (fun c => bounded (at_ c))); [intros; by apply step_bounded|].
      unfold start. destruct addr_ok; [|done]. destruct stopping; [done|]. by apply bounded_hello. }
    intros H1' H2' Hs. apply task_gives_up; [done|]. clear -Hb. destruct (at_ c) as [t|t|n []|n|n| | | |]; cbn in *; lia.
Qed.
End connect.
End Connect.

(** ** The client meets the server *)
Module Meeting.
Import Connect.
Section meeting.
Context {Addr : Type} `{Countable Addr} {F : Type} `{Vfs.filesystem F}.
Context `{json handshake_message, json event_envelope, json transfer_request, json transfer_header}.
Context (show_addr show_ip : Addr -> string) (ulid_to_string : Z -> string) (ulid_from_string : string -> option Z)
  (is_file : F -> text -> bool) (sha : list Z -> list Z) (welcome_json : string -> Z -> result (list Z) string).
Context (account device version : string) (peer : Addr).
Context (e : Server.Ingress.env (F := F)).

Notation manager := (admission_manager (Q := queue) (Addr := Addr)).
Notation server := (Server.Ingress.server_state (Addr := Addr)).
Notation sturn := (Server.Ingress.turn show_addr show_ip ulid_to_string ulid_from_string is_file sha welcome_json).
Notation cstep := (step account device version (fun _ => true)).
Notation H_ m msg := (handle (Q := queue) show_addr ulid_to_string ulid_from_string m peer msg (show_ip peer) (Server.Ingress.now_ms e) (Server.Ingress.fresh e)).

(** The payload of a message; the client sends an empty one when it does not
    serialize. *)
Definition enc (m : handshake_message) : list Z := match to_vec m with Ok b => b | Err _ => [] end.
Definition client_packet (m : handshake_message) (session : Z) : packet :=
  Packet (PacketHeader PROTOCOL_VERSION session Auth 0 0 (Server.Ingress.now_ms e) 0 (wrap 32 (len (enc m)))) (enc m).

(** The two ends and the packets under way to the client: every packet arrives,
    in order; when none is under way the client's await ends in silence. *)
Record world := World { client_of : client; server_of : server; inbox : list packet }.
Definition deliver (w : world) (out : outgoing) : world :=
  foldl (fun w o => let '(s, replies) := sturn (server_of w) e (Ok (client_packet o.1 o.2, peer)) in
                    World (client_of w) s (inbox w ++ replies.*2)) w out.
Definition world_step (w : world) : world :=
  let '(ev, rest) := match inbox w with p :: r => (Got p, r) | [] => (Nothing, []) end in
  let '(c, out) := cstep (client_of w) ev in
  deliver (World c (server_of w) rest) out.
Fixpoint world_steps (n : nat) (w : world) : world := match n with O => w | S n => world_steps n (world_step w) end.
Definition meet (s : server) : world :=
  let '(c, out) := start version (fun _ => true) true false in deliver (World c s []) out.

(** *** The manager's side of the dialogue *)
Definition no_providers (r : identity_requirements) : Prop :=
  require_gta_entitlement r = false /\ require_rockstar r = false /\ require_steam r = false /\ require_epic r = false.
Definition session_nonce (m : manager) : string := ("n-" +:+ pretty (next_session m) +:+ "-" +:+ show_addr peer)%string.
Definition opened (m : manager) : manager :=
  AdmissionManager (server_name m) (adm_max_players m) (wrap 64 (next_session m + 1))
    (<[peer := admission_session_new (next_session m) (session_nonce m)]> (sessions m)) (adm_queue m) (manifest m) (identity_req m).
Definition in_queue_state (m : manager) : manager :=
  AdmissionManager (server_name m) (adm_max_players m) (wrap 64 (next_session m + 1))
    (<[peer := AdmissionSession WaitingQueue (next_session m) (Some account) None (session_nonce m) 0 None]> (sessions m))
    (adm_queue m) (manifest m) (identity_req m).
Definition authed_state (m : manager) : manager :=
  AdmissionManager (server_name m) (adm_max_players m) (wrap 64 (next_session m + 1))
    (<[peer := AdmissionSession WaitingIdentity (next_session m) (Some account) None (session_nonce m) 0 None]> (sessions m))
    (adm_queue m) (manifest m) (identity_req m).

Lemma hello_dialogue m : H_ m (hello version) =
  (opened m, [ServerHello PROTOCOL_VERSION (next_session m) (server_name m) (adm_max_players m) ["deferrals"; "queue"; "manifest"]%string;
              AuthChallenge (session_nonce m)]).
Proof. reflexivity. Qed.

Lemma alter_opened (m : manager) s (f : admission_session -> admission_session) mx : 
  on_session (AdmissionManager (server_name m) (adm_max_players m) mx (<[peer := s]> (sessions m)) (adm_queue m) (manifest m) (identity_req m)) peer f =
  AdmissionManager (server_name m) (adm_max_players m) mx (<[peer := f s]> (sessions m)) (adm_queue m) (manifest m) (identity_req m).
Proof. unfold on_session, with_sessions. cbn. f_equal. by rewrite alter_insert_eq. Qed.

Lemma auth_dialogue m : is_empty (trim account) = false ->
  H_ (opened m) (ClientAuth account None None (Some (session_nonce m))) = (authed_state m, [AuthResult true "auth ok"; IdentityRequest]).
Proof.
  intros Ha. cbn [handle]. unfold on_auth. cbn [opened sessions]. rewrite lookup_insert_eq. cbn [admission_session_new state sess_nonce].
  rewrite bool_decide_true by done. cbn [negb]. rewrite Ha, bool_decide_true by done. cbn [negb]. unfold opened. by rewrite alter_opened.
Qed.

Lemma identity_dialogue m : no_providers (identity_req m) -> is_empty (trim device) = false ->
  (forall i, is_empty (ulid_to_string i) = false) ->
  H_ (authed_state m) (identity account device) = (in_queue_state m, [DeferralDone; EntitlementRequest]).
Proof.
  intros (G1 & G2 & G3 & G4) Hd Hu. cbn [handle identity]. unfold on_identity. cbn [authed_state sessions]. rewrite lookup_insert_eq.
  cbv zeta. change (identity_req (authed_state m)) with (identity_req m). rewrite Hd. cbn [negb]. unfold check_identity_policy. rewrite G1, G2, G3, G4. cbn [andb]. rewrite Hu, andb_false_r.
  cbn [Identity.device]. rewrite (bool_decide_true (is_Some (Some _))) by by eexists. cbn [negb]. rewrite andb_false_r.
  unfold authed_state. rewrite !alter_opened. reflexivity.
Qed.

Lemma entitlement_dialogue m : H_ (in_queue_state m) EntitlementRequest = (in_queue_state m, [EntitlementResult "FREE" "ok"]).
Proof. cbn [handle]. unfold on_entitlement. cbn [in_queue_state sessions]. rewrite lookup_insert_eq. reflexivity. Qed.

Definition seated (m : manager) (q : queue) (st : handshake_state) (pos : option nat) : manager :=
  AdmissionManager (server_name m) (adm_max_players m) (wrap 64 (next_session m + 1))
    (<[peer := AdmissionSession st (next_session m) (Some account) None (session_nonce m) 0 pos]> (sessions m)) q (manifest m) (identity_req m).
Lemma ready_dialogue m q o : is_empty (trim account) = false ->
  Queue.join (adm_queue m) (JoinRequest account false) (Server.Ingress.now_ms e) = (q, o) ->
  H_ (in_queue_state m) ClientReady = match o with
    | JoinAdmitted => (seated m q Ready None, [QueueAdmitted; ManifestOffer (manifest m); ServerReady true])
    | Queued p => (seated m q WaitingQueue (Some p), [QueueUpdate p (queue_len q); ManifestOffer (manifest m)])
    | Rejected r => (seated m q StRejected None, [reject_reply r])
    end.
Proof.
  intros Ha Hj. cbn [handle]. unfold on_ready. cbn [in_queue_state sessions]. rewrite lookup_insert_eq. cbn [sess_aldivine_id from_option state]. unfold id.
  assert (is_empty account = false) as -> by (apply bool_decide_eq_false; by apply trim_nonempty).
  rewrite bool_decide_false by done. cbv zeta. change (jq_join (adm_queue (in_queue_state m))) with (Queue.join (adm_queue m)). rewrite Hj.
  unfold in_queue_state, with_queue. cbn [server_name adm_max_players next_session sessions adm_queue manifest identity_req].
  destruct o; unfold seated, on_session, with_sessions; cbn; rewrite ?alter_insert_eq; done.
Qed.

(** *** One message through the server *)
(** A message that serializes within one datagram: such a packet is received as
    it was sent. *)
Class Sendable (m : handshake_message) : Prop := sendable : exists b, to_vec m = Ok b /\ (HEADER_LEN + length b <= Server.Transport.MTU)%nat.
Class AllSendable (ms : list handshake_message) : Prop := all_sendable : Forall Sendable ms.
#[local] Instance all_sendable_nil : AllSendable [].
Proof. constructor. Qed.
#[local] Instance all_sendable_cons m ms `{!Sendable m, !AllSendable ms} : AllSendable (m :: ms).
Proof. by constructor. Qed.
Context `{!json_codec handshake_message} (sends : forall p, Server.Ingress.send_ok e p = true).

Lemma enc_spec m `{!Sendable m} : to_vec m = Ok (enc m) /\ from_slice (enc m) = Ok m /\ len (enc m) <= MAX_PAYLOAD.
Proof.
  unfold enc. destruct Sendable0 as (b & Eb & Hb). rewrite Eb. split_and!; [done|by apply (json_roundtrip m)|].
  unfold len, MAX_PAYLOAD, HEADER_LEN, Server.Transport.MTU in *. lia.
Qed.

(** The packet of a reply in a session of the manager. *)
Definition reply_packet (m : manager) (r : handshake_message) : packet :=
  Packet (PacketHeader PROTOCOL_VERSION (session_id_of m peer) Auth 0 0 (Server.Ingress.now_ms e) 0 (wrap 32 (len (enc r)))) (enc r).

Lemma reply_exact (s : server) out r `{!Sendable r} :
  Server.Ingress.reply ulid_from_string e peer (s, out) r = (Server.Ingress.note_ready ulid_from_string s peer r, out ++ [(peer, reply_packet (Server.Ingress.adm s) r)]).
Proof.
  unfold Server.Ingress.reply. cbn [fst snd]. destruct (enc_spec r) as (E1 & _ & E3). rewrite E1.
  destruct (Server.Ingress.note_ready_core ulid_from_string s peer r) as [Ea _]. unfold Server.Ingress.transmit. rewrite sends, andb_true_r.
  unfold Server.Ingress.make_packet. rewrite Ea. fold (reply_packet (Server.Ingress.adm s) r).
  assert (Hs : is_ok (Server.Transport.send (reply_packet (Server.Ingress.adm s) r)) = true).
  { unfold Server.Transport.send, encode_packet. cbn [reply_packet header payload payload_len]. rewrite Z.eqb_refl. cbn [negb].
    rewrite wrap_small by (unfold fits; pose proof (len_nonneg (enc r)); unfold MAX_PAYLOAD in E3; lia). by rewrite (proj2 (Z.ltb_ge _ _)). }
  by rewrite Hs.
Qed.

Lemma replies_exact rs : AllSendable rs -> forall (s : server) out, foldl (Server.Ingress.reply ulid_from_string e peer) (s, out) rs =
  (foldl (fun s r => Server.Ingress.note_ready ulid_from_string s peer r) s rs, out ++ ((fun r => (peer, reply_packet (Server.Ingress.adm s) r)) <$> rs)).
Proof.
  induction 1 as [|r rs Hr _ IH]; intros s out; cbn [foldl fmap list_fmap]; [by rewrite app_nil_r|].
  rewrite (reply_exact _ _ r), IH. destruct (Server.Ingress.note_ready_core ulid_from_string s peer r) as [-> _]. by rewrite <- app_assoc.
Qed.

Definition bucket (k : Z) : Server.Limiter.rate_limiter :=
  Server.Limiter.RateLimiter (Server.Limiter.of_z 300) (Server.Limiter.of_z 150) (Server.Limiter.of_z k) (Server.Ingress.instant e).
Definition bucket_of (s : server) : Server.Limiter.rate_limiter :=
  default (Server.Limiter.limiter_new 300 (Server.Limiter.of_z 150) (Server.Ingress.instant e)) (Server.Ingress.peer_limits s !! peer).
(** The messages of a join stay within the burst. *)
Lemma bucket_consume k : k ∈ [300; 299; 298; 297; 296] -> Server.Limiter.try_consume (bucket k) (Server.Ingress.instant e) = (true, bucket (k - 1)).
Proof.
  intros Hk. unfold Server.Limiter.try_consume, bucket. cbn [Server.Limiter.last Server.Limiter.tokens Server.Limiter.capacity Server.Limiter.refill_per_sec].
  assert (sat_sub (Server.Ingress.instant e) (Server.Ingress.instant e) = 0) as -> by (unfold sat_sub; lia).
  rewrite !elem_of_cons, elem_of_nil in Hk. destruct Hk as [->|[->|[->|[->|[->|[]]]]]]; vm_compute; reflexivity.
Qed.

(** The replies' effect on the server besides its answers. *)
Definition notes (s : server) (rs : list handshake_message) : server :=
  foldl (fun s r => Server.Ingress.note_ready ulid_from_string s peer r) s rs.

Lemma note_core (a b : server) r : Server.Ingress.adm a = Server.Ingress.adm b ->
  Server.Ingress.framework_players a = Server.Ingress.framework_players b ->
  Server.Ingress.framework_players (notes a [r]) = Server.Ingress.framework_players (notes b [r]) /\
  bucket_of (notes a [r]) = bucket_of a /\ (Server.Ingress.is_ready r = false -> notes a [r] = a).
Proof.
  intros Eab Ef. unfold notes. cbn [foldl]. unfold Server.Ingress.note_ready. rewrite <- Eab. destruct (Server.Ingress.is_ready r); [|by split_and!].
  destruct (_ ≫= _); [|by split_and!]. split_and!; [cbn; by rewrite Ef|done|done].
Qed.

Lemma notes_core rs : forall a b : server, Server.Ingress.adm a = Server.Ingress.adm b ->
  Server.Ingress.framework_players a = Server.Ingress.framework_players b ->
  Server.Ingress.adm (notes a rs) = Server.Ingress.adm a /\
  Server.Ingress.framework_players (notes a rs) = Server.Ingress.framework_players (notes b rs) /\
  bucket_of (notes a rs) = bucket_of a /\ (existsb Server.Ingress.is_ready rs = false -> notes a rs = a).
Proof.
  induction rs as [|r rs IH]; intros a b Eab Ef; [done|]. cbn [existsb]. destruct (note_core a b r Eab Ef) as (N1 & N2 & N3).
  pose proof (proj1 (Server.Ingress.note_ready_core ulid_from_string a peer r)) as Na.
  pose proof (proj1 (Server.Ingress.note_ready_core ulid_from_string b peer r)) as Nb.
  destruct (IH (notes a [r]) (notes b [r])) as (I1 & I2 & I3 & I4); [unfold notes; cbn [foldl]; congruence|done|].
  change (notes a (r :: rs)) with (notes (notes a [r]) rs). change (notes b (r :: rs)) with (notes (notes b [r]) rs).
  split_and!; [rewrite I1; exact Na|done|congruence|]. intros [Hr Hl]%orb_false_iff. rewrite I4 by done. by apply N3.
Qed.

Lemma welcome_core (s : server) : let r := Server.Ingress.send_welcome welcome_json s e peer in
  Server.Ingress.adm r.1 = Server.Ingress.adm s /\ Server.Ingress.framework_players r.1 = Server.Ingress.framework_players s /\
  bucket_of r.1 = bucket_of s /\ (r.2 = [] \/ exists p, r.2 = [(peer, p)]).
Proof.
  cbv zeta. unfold Server.Ingress.send_welcome. destruct (welcome_json _ _); [|split_and!; by auto]. destruct (encode_event _); [|split_and!; by auto].
  unfold Server.Ingress.transmit. destruct (_ && _); split_and!; try done; [right; by eexists|by left].
Qed.

Lemma admit_auth (s : server) k : bucket_of s = bucket k -> k ∈ [300; 299; 298; 297; 296] ->
  match state_of (Server.Ingress.adm s) peer with Some st => st <> StRejected /\ st <> Handshake.Failed | None => True end ->
  Server.Ingress.admit_packet s e peer Auth = (true, Server.Ingress.set_limits (<[peer := bucket (k - 1)]> (Server.Ingress.peer_limits s)) s).
Proof.
  intros Hb Hk Hst. unfold Server.Ingress.admit_packet. fold (bucket_of s). rewrite Hb, bucket_consume by done. cbn [negb Network.channel_allowed_client].
  cbn [Server.Ingress.adm Server.Ingress.set_limits]. unfold state_of in *. destruct (sessions _ !! peer) as [x|]; cbn; [|done].
  cbn in Hst. destruct (Admission.state x); cbn; try done; naive_solver.
Qed.

Lemma turn_message (s : server) k msg session m' rs `{!Sendable msg, !AllSendable rs} : bucket_of s = bucket k -> k ∈ [300; 299; 298; 297; 296] ->
  match state_of (Server.Ingress.adm s) peer with Some st => st <> StRejected /\ st <> Handshake.Failed | None => True end ->
  H_ (Server.Ingress.adm s) msg = (m', rs) ->
  exists s' w, sturn s e (Ok (client_packet msg session, peer)) = (s', ((fun r => (peer, reply_packet m' r)) <$> rs) ++ w) /\
    Server.Ingress.adm s' = m' /\ bucket_of s' = bucket (k - 1) /\
    (existsb Server.Ingress.is_ready rs = false -> w = []) /\ (w = [] \/ exists p, w = [(peer, p)]) /\
    Server.Ingress.framework_players s' = Server.Ingress.framework_players (notes (Server.Ingress.set_adm m' s) rs).
Proof.
  intros Hb Hk Hst Hh. unfold Server.Ingress.turn. cbn [client_packet header hdr_channel payload].
  set (s0 := Server.Ingress.incr _ _ (Server.Ingress.incr _ _ s)).
  assert (E0 : Server.Ingress.adm s0 = Server.Ingress.adm s /\ Server.Ingress.framework_players s0 = Server.Ingress.framework_players s /\
    bucket_of s0 = bucket_of s) by done. clearbody s0. destruct E0 as (E1 & E2 & E3).
  rewrite (admit_auth s0 k); [|congruence|done|by rewrite E1]. cbn [negb]. unfold Server.Ingress.on_auth. destruct (enc_spec msg) as (_ & Ed & _). rewrite Ed.
  set (s1 := Server.Ingress.set_limits _ s0). change (Server.Ingress.adm s1) with (Server.Ingress.adm s0). rewrite E1, Hh, replies_exact by done.
  change (Server.Ingress.adm (Server.Ingress.set_adm m' s1)) with m'. cbn [app]. fold (notes (Server.Ingress.set_adm m' s1) rs).
  destruct (notes_core rs (Server.Ingress.set_adm m' s1) (Server.Ingress.set_adm m' s) eq_refl E2) as (C1 & C2 & C3 & _).
  set (s2 := notes (Server.Ingress.set_adm m' s1) rs) in *.
  assert (C1' : Server.Ingress.adm s2 = m') by exact C1.
  assert (Hbk : bucket_of s2 = bucket (k - 1)) by (rewrite C3; unfold bucket_of, s1; cbn; by rewrite lookup_insert_eq).
  destruct (existsb Server.Ingress.is_ready rs).
  - destruct (welcome_core s2) as (W1 & W2 & W3 & W4). destruct (Server.Ingress.send_welcome welcome_json s2 e peer) as [s3 w].
    cbn [fst snd] in *. exists s3, w. split_and!; [done|congruence|congruence|done|done|congruence].
  - exists s2, []. split_and!; [by rewrite app_nil_r|done|done|done|by left|done].
Qed.

(** *** The client's phases *)
Lemma received_reply m r `{!Sendable r} : received (Got (reply_packet m r)) = Some r.
Proof. cbn. by rewrite (proj1 (proj2 (enc_spec r))). Qed.
Lemma world_steps_add a b w : world_steps (a + b) w = world_steps b (world_steps a w).
Proof. revert w. induction a as [|a IH]; intros w; [done|apply IH]. Qed.

Lemma step_got c S p r : world_step (World c S (p :: r)) = deliver (World (cstep c (Got p)).1 S r) (cstep c (Got p)).2.
Proof. unfold world_step. cbn [inbox client_of server_of]. by destruct (cstep c (Got p)). Qed.

Lemma deliver_nil w : deliver w [] = w.
Proof. done. Qed.

Ltac get := rewrite step_got; unfold step;
  match goal with |- context [received (Got (reply_packet ?m ?r))] => rewrite !(received_reply m r) end;
  cbn [at_ set_at set_state set_session set_nonce set_slot set_last_event set_shutdown eta state session nonce shutdown slot last_event
       next_turn stop_in send_auth send_identity send_entitlement send_ready fst snd]; rewrite ?deliver_nil.

Lemma phase_hello S m v sid a b f n `{!Sendable (ServerHello v sid a b f), !Sendable (AuthChallenge n)} :
  world_steps 2 (World (Client (AwaitHello 2) Connecting 0 "" false None None) S [reply_packet m (ServerHello v sid a b f); reply_packet m (AuthChallenge n)]) =
  deliver (World (Client (AwaitAuth 4 false) Connecting sid n false None None) S []) [(ClientAuth account None None (Some n), sid)].
Proof. cbn [world_steps]. get. get. reflexivity. Qed.
Lemma phase_auth S m sid n t `{!Sendable (AuthResult true t), !Sendable IdentityRequest} :
  world_steps 2 (World (Client (AwaitAuth 4 false) Connecting sid n false None None) S [reply_packet m (AuthResult true t); reply_packet m IdentityRequest]) =
  deliver (World (Client (AwaitDeferral 6) Loading sid n false None None) S []) [(identity account device, sid)].
Proof. cbn [world_steps]. get. get. reflexivity. Qed.
Lemma phase_deferral S m sid n r `{!Sendable DeferralDone} :
  world_steps 1 (World (Client (AwaitDeferral 6) Loading sid n false None None) S (reply_packet m DeferralDone :: r)) =
  deliver (World (Client (AwaitEntitlement 4) Loading sid n false None None) S r) [(EntitlementRequest, sid)].
Proof. cbn [world_steps]. get. reflexivity. Qed.
Lemma phase_entitlement S m m' sid n x y `{!Sendable EntitlementRequest, !Sendable (EntitlementResult x y)} :
  world_steps 2 (World (Client (AwaitEntitlement 4) Loading sid n false None None) S [reply_packet m EntitlementRequest; reply_packet m' (EntitlementResult x y)]) =
  deliver (World (Client AwaitReady Loading sid n false None None) S []) [(ClientReady, sid)].
Proof. cbn [world_steps]. get. get. reflexivity. Qed.
Lemma phase_ready S m sid n l w `{!Sendable QueueAdmitted, !Sendable (ManifestOffer l), !Sendable (ServerReady true)} : w = [] \/ (exists p, w = [p]) ->
  let r := world_steps 4 (World (Client AwaitReady Loading sid n false None None) S ([reply_packet m QueueAdmitted; reply_packet m (ManifestOffer l); reply_packet m (ServerReady true)] ++ w)) in
  at_ (client_of r) = Live /\ state (client_of r) = Running /\ slot (client_of r) = Some sid /\ server_of r = S.
Proof.
  intros Hw. cbv zeta. cbn [world_steps app]. get. get. get.
  destruct Hw as [->|[p ->]]; [by split_and!|]. unfold world_step. cbn [inbox client_of server_of]. unfold step. cbn [at_]. cbv zeta.
  case_bool_decide; [destruct (decode_event (payload p))|]; by split_and!.
Qed.
Lemma phase_queued S m sid n p t l k `{!Sendable (QueueUpdate p t), !Sendable (ManifestOffer l)} :
  let r := world_steps (3 + k) (World (Client AwaitReady Loading sid n false None None) S [reply_packet m (QueueUpdate p t); reply_packet m (ManifestOffer l)]) in
  at_ (client_of r) = Ended /\ state (client_of r) = Failed /\ server_of r = S.
Proof.
  cbv zeta. rewrite world_steps_add. cbn [world_steps app]. get. get.
  change (world_step (World ?c S [])) with (World (Client Ended Failed sid n false None None) S []).
  induction k as [|k IH]; [by split_and!|]. cbn [world_steps].
  change (world_step (World ?c S [])) with (World (Client Ended Failed sid n false None None) S []). exact IH.
Qed.

(** *** One exchange *)
Lemma deliver_one c (s : server) box k msg session m' rs : bucket_of s = bucket k -> k ∈ [300; 299; 298; 297; 296] ->
  match state_of (Server.Ingress.adm s) peer with Some st => st <> StRejected /\ st <> Handshake.Failed | None => True end ->
  H_ (Server.Ingress.adm s) msg = (m', rs) -> Sendable msg -> AllSendable rs ->
  exists s' w, deliver (World c s box) [(msg, session)] = World c s' (box ++ (reply_packet m' <$> rs) ++ w) /\
    Server.Ingress.adm s' = m' /\ bucket_of s' = bucket (k - 1) /\
    (existsb Server.Ingress.is_ready rs = false -> w = []) /\ (w = [] \/ exists p, w = [p]) /\
    Server.Ingress.framework_players s' = Server.Ingress.framework_players (notes (Server.Ingress.set_adm m' s) rs).
Proof.
  intros Hb Hk Hst Hh Hm Hrs. destruct (turn_message s k msg session m' rs) as (s' & w & Ht & T1 & T2 & T3 & T4 & T5); [done..|]. 
  exists s', (w.*2). unfold deliver. cbn [foldl fst snd server_of client_of inbox]. rewrite Ht, fmap_app.
  split_and!; [|done|done|intros Hr; by rewrite T3|destruct T4 as [->|[p ->]]; [by left|right; by exists p]|done].
  f_equal. f_equal. f_equal. rewrite <- list_fmap_compose. done.
Qed.

(** The messages of a join of the manager [m], up to the queue. *)
Definition dialogue (m : manager) : list handshake_message :=
  [hello version; ServerHello PROTOCOL_VERSION (next_session m) (server_name m) (adm_max_players m) ["deferrals"; "queue"; "manifest"]%string;
   AuthChallenge (session_nonce m); ClientAuth account None None (Some (session_nonce m)); AuthResult true "auth ok"; IdentityRequest;
   identity account device; DeferralDone; EntitlementRequest; EntitlementResult "FREE" "ok"; ClientReady].

(** The join up to the queue: seven steps of the world. *)
Lemma join_to_queue (s : server) : let m := Server.Ingress.adm s in AllSendable (dialogue m) ->
  match state_of m peer with Some st => st <> StRejected /\ st <> Handshake.Failed | None => True end -> bucket_of s = bucket 300 ->
  no_providers (identity_req m) -> is_empty (trim account) = false -> is_empty (trim device) = false -> (forall i, is_empty (ulid_to_string i) = false) ->
  exists s', Server.Ingress.adm s' = in_queue_state m /\ bucket_of s' = bucket 296 /\
    world_steps 7 (meet s) = deliver (World (Client AwaitReady Loading (next_session m) (session_nonce m) false None None) s' []) [(ClientReady, next_session m)].
Proof.
  intros m Hm Hst Hb Hp Ha Hd Hu. unfold AllSendable, dialogue in Hm. rewrite !Forall_cons in Hm. destruct_and! Hm. unfold meet, start. cbn [negb]. unfold try_hello. cbn [shutdown].
  destruct (deliver_one (Client (AwaitHello 2) Connecting 0 "" false None None) s [] 300 (hello version) 0 _ _ Hb ltac:(set_solver) Hst (hello_dialogue _) _ _)
    as (s1 & w1 & E1 & A1 & B1 & W1 & _). rewrite (W1 eq_refl) in E1. clear W1.
  change (set_at (AwaitHello 2) (Client Ended Connecting 0 "" false None None)) with (Client (AwaitHello 2) Connecting 0 "" false None None). rewrite E1.
  change 7%nat with (2 + (2 + (1 + 2)))%nat. rewrite world_steps_add. cbn [app fmap list_fmap]. rewrite phase_hello. fold m.
  match goal with |- context [deliver (World ?c s1 []) _] => destruct (deliver_one c s1 [] (300 - 1) (ClientAuth account None None (Some (session_nonce m))) (next_session m) _ _ B1 ltac:(set_solver)
    ltac:(rewrite A1; unfold state_of, opened; cbn; rewrite lookup_insert_eq; cbn; done) ltac:(rewrite A1; apply (auth_dialogue _ Ha)) _ _) as (s2 & w2 & E2 & A2 & B2 & W2 & _) end.
  rewrite (W2 eq_refl) in E2. clear W2. fold m in E2. rewrite E2, world_steps_add. cbn [app fmap list_fmap]. rewrite phase_auth.
  match goal with |- context [deliver (World ?c s2 []) _] => destruct (deliver_one c s2 [] (300 - 1 - 1) (identity account device) (next_session m) _ _ B2 ltac:(set_solver)
    ltac:(rewrite A2; unfold state_of, authed_state; cbn; rewrite lookup_insert_eq; cbn; done) ltac:(rewrite A2; apply (identity_dialogue _ Hp Hd Hu)) _ _) as (s3 & w3 & E3 & A3 & B3 & W3 & _) end.
  rewrite (W3 eq_refl) in E3. clear W3. rewrite E3, world_steps_add. cbn [app fmap list_fmap]. rewrite phase_deferral.
  match goal with |- context [deliver (World ?c s3 ?box) _] => destruct (deliver_one c s3 box (300 - 1 - 1 - 1) EntitlementRequest (next_session m) _ _ B3 ltac:(set_solver)
    ltac:(rewrite A3; unfold state_of, in_queue_state; cbn; rewrite lookup_insert_eq; cbn; done) ltac:(rewrite A3; apply entitlement_dialogue) _ _) as (s4 & w4 & E4 & A4 & B4 & W4 & _) end.
  rewrite (W4 eq_refl) in E4. clear W4. rewrite E4. cbn [app fmap list_fmap]. rewrite phase_entitlement. by exists s4.
  all: apply _.
Qed.

(** The answers to the ready message. *)
Definition ready_answers (m : manager) (q : queue) (o : join_outcome) : list handshake_message :=
  match o with
  | JoinAdmitted => [QueueAdmitted; ManifestOffer (manifest m); ServerReady true]
  | Queued p => [QueueUpdate p (queue_len q); ManifestOffer (manifest m)]
  | Rejected r => [reject_reply r]
  end.
Definition after (m : manager) (q : queue) (o : join_outcome) : manager :=
  seated m q (match o with JoinAdmitted => Ready | Queued _ => WaitingQueue | Rejected _ => StRejected end)
    (match o with Queued p => Some p | _ => None end).

Lemma phase_rejected S m sid n r k `{!Sendable (reject_reply r)} :
  let w := world_steps (1 + k) (World (Client AwaitReady Loading sid n false None None) S [reply_packet m (reject_reply r)]) in
  at_ (client_of w) = Ended /\ state (client_of w) = Failed /\ server_of w = S.
Proof.
  cbv zeta. rewrite world_steps_add. cbn [world_steps].
  assert (world_step (World (Client AwaitReady Loading sid n false None None) S [reply_packet m (reject_reply r)]) = World (Client Ended Failed sid n false None None) S []) as ->.
  { rewrite step_got. unfold step. rewrite !(received_reply m (reject_reply r)). by destruct r. }
  induction k as [|k IH]; [by split_and!|]. cbn [world_steps].
  change (world_step (World ?c S [])) with (World (Client Ended Failed sid n false None None) S []). exact IH.
Qed.

Lemma is_playing_admitted q r t q' : Queue.join q r t = (q', JoinAdmitted) -> is_playing q' (req_id r) = true.
Proof.
  unfold Queue.join. repeat case_match; try done. intros [= <-]. unfold is_playing. cbn. rewrite existsb_app. cbn.
  unfold id_is at 2. cbn. by rewrite bool_decide_true, orb_true_r.
Qed.
Lemma is_queued_waiting q r t q' p : Queue.join q r t = (q', Queued p) -> is_queued q' (req_id r) = true.
Proof.
  unfold Queue.join. repeat case_match; try done. intros [= <- <-]. unfold is_queued. cbn. rewrite existsb_app. cbn.
  unfold id_is at 2. cbn. by rewrite bool_decide_true, orb_true_r.
Qed.

(** C38: a client and a server over a network that loses nothing, no identity
    provider required: the join ends as the queue decides. Admitted: after
    eleven packets the client runs in its session, and the server has the peer
    ready, its account in a seat and its player. Put on the wait list: the
    client fails however long it waits, and the server keeps the account in the
    queue. Refused: both sides end. *)
Theorem join_outcome_spec (s : server) (q : queue) (o : Queue.join_outcome) (pid : Z) (k : nat) :
  let m := Server.Ingress.adm s in
  AllSendable (dialogue m ++ ready_answers m q o) ->
  match state_of m peer with Some st => st <> StRejected /\ st <> Handshake.Failed | None => True end ->
  Server.Ingress.peer_limits s !! peer = None -> no_providers (identity_req m) ->
  is_empty (trim account) = false -> is_empty (trim device) = false -> (forall i, is_empty (ulid_to_string i) = false) ->
  ulid_from_string account = Some pid ->
  Queue.join (adm_queue m) (JoinRequest account false) (Server.Ingress.now_ms e) = (q, o) ->
  let w := world_steps 11 (meet s) in let w' := world_steps (7 + (3 + k)) (meet s) in
  match o with
  | JoinAdmitted =>
      state (client_of w) = Running /\ slot (client_of w) = Some (next_session m) /\
      state_of (Server.Ingress.adm (server_of w)) peer = Some Ready /\ is_playing (adm_queue (Server.Ingress.adm (server_of w))) account = true /\
      is_Some (Framework.Players.players (Server.Ingress.framework_players (server_of w)) !! pid)
  | Queued p =>
      state (client_of w') = Failed /\ state_of (Server.Ingress.adm (server_of w')) peer = Some WaitingQueue /\
      is_queued (adm_queue (Server.Ingress.adm (server_of w'))) account = true
  | Rejected r => state (client_of w') = Failed /\ state_of (Server.Ingress.adm (server_of w')) peer = Some StRejected
  end.
Proof.
  intros m Hm Hst Hl Hp Ha Hd Hu Hpid Hj w w'. apply Forall_app in Hm as [Hm Hr].
  assert (Hb : bucket_of s = bucket 300) by (unfold bucket_of; rewrite Hl; vm_compute; reflexivity).
  destruct (join_to_queue s Hm Hst Hb Hp Ha Hd Hu) as (s1 & A1 & B1 & E1). fold m in A1, E1.
  assert (Hh : H_ (Server.Ingress.adm s1) ClientReady = (after m q o, ready_answers m q o)).
  { rewrite A1, (ready_dialogue m q o Ha Hj). by destruct o. }
  assert (Hready : Sendable ClientReady) by (unfold dialogue in Hm; rewrite !Forall_cons in Hm; tauto).
  destruct (deliver_one (Client AwaitReady Loading (next_session m) (session_nonce m) false None None) s1 [] 296 ClientReady (next_session m) _ _ B1
    ltac:(set_solver) ltac:(rewrite A1; unfold state_of, in_queue_state; cbn; by rewrite lookup_insert_eq) Hh Hready Hr) as (s2 & x & E2 & A2 & _ & X2 & W2 & P2).
  assert (St : forall st, state_of (after m q o) peer = Some st <->
      st = match o with JoinAdmitted => Ready | Queued _ => WaitingQueue | Rejected _ => StRejected end).
  { intros st. unfold state_of, after, seated. cbn. rewrite lookup_insert_eq. cbn. split; [by intros [= <-]|by intros ->]. }
  destruct o as [|p|r]; cbn [ready_answers] in *; unfold AllSendable in Hr; rewrite ?Forall_cons in Hr; destruct_and! Hr.
  - subst w. change 11%nat with (7 + 4)%nat. rewrite world_steps_add, E1, E2. cbn [app fmap list_fmap].
    destruct (phase_ready s2 (after m q JoinAdmitted) (next_session m) (session_nonce m) (manifest m) x W2) as (R1 & R2 & R3 & R4).
    cbn [app] in *. rewrite R4, A2. split_and!; [exact R2|exact R3|by apply St|exact (is_playing_admitted _ _ _ _ Hj)|].
    rewrite P2. unfold notes. cbn [foldl]. unfold Server.Ingress.note_ready. cbn [Server.Ingress.is_ready].
    change (Server.Ingress.adm (Server.Ingress.set_adm ?a ?b)) with a. unfold aldivine_id_of, after, seated. cbn. rewrite lookup_insert_eq. cbn. rewrite Hpid. cbn.
    unfold Framework.Players.join. destruct (Framework.Players.players (Server.Ingress.framework_players s1) !! pid) eqn:Ep; [rewrite Ep; by eexists|]. cbn. rewrite lookup_insert_eq. by eexists.
  - subst w'. rewrite world_steps_add, E1, E2, (X2 eq_refl). cbn [app fmap list_fmap].
    destruct (phase_queued s2 (after m q (Queued p)) (next_session m) (session_nonce m) p (queue_len q) (manifest m) k) as (_ & R2 & R3).
    rewrite R3, A2. split_and!; [exact R2|by apply St|exact (is_queued_waiting _ _ _ _ _ Hj)].
  - subst w'. rewrite world_steps_add, E1, E2, (X2 ltac:(by destruct r)). cbn [app fmap list_fmap].
    destruct (phase_rejected s2 (after m q (Rejected r)) (next_session m) (session_nonce m) r (2 + k)) as (_ & R2 & R3).
    change (3 + k)%nat with (1 + (2 + k))%nat. rewrite R3, A2. split; [exact R2|by apply St].
Qed.
End meeting.

(** *** A wire for the messages, and a join over it *)
Definition message_code : Type := nat * list Z * list (string * string * Z) * list (option string) * list string.
Definition code (m : handshake_message) : message_code :=
  match m with
  | ClientHello v b ed cv => (0%nat, [v; b], [], [], [ed; cv])
  | ServerHello v sid n p f => (1%nat, [v; sid; p], [], [], n :: f)
  | AuthChallenge n => (2%nat, [], [], [], [n])
  | ClientAuth i t p r => (3%nat, [], [], [t; p; r], [i])
  | AuthResult b m => (4%nat, [Z.b2z b], [], [], [m])
  | IdentityRequest => (5%nat, [], [], [], [])
  | IdentityResponse i p en d => (6%nat, [], [], [p; d], [i; en])
  | EntitlementRequest => (7%nat, [], [], [], [])
  | EntitlementResult s m => (8%nat, [], [], [], [s; m])
  | DeferralUpdate m => (9%nat, [], [], [], [m])
  | DeferralDone => (10%nat, [], [], [], [])
  | QueueUpdate p t => (11%nat, [Z.of_nat p; Z.of_nat t], [], [], [])
  | QueueAdmitted => (12%nat, [], [], [], [])
  | ManifestOffer l => (13%nat, [], (fun r => (entry_name r, entry_hash r, entry_size r)) <$> l, [], [])
  | ClientReady => (14%nat, [], [], [], [])
  | ServerReady b => (15%nat, [Z.b2z b], [], [], [])
  | Reject c r => (16%nat, [], [], [], [c; r])
  end.
Definition uncode (c : message_code) : option handshake_message :=
  match c with
  | (0%nat, [v; b], [], [], [ed; cv]) => Some (ClientHello v b ed cv)
  | (1%nat, [v; sid; p], [], [], n :: f) => Some (ServerHello v sid n p f)
  | (2%nat, [], [], [], [n]) => Some (AuthChallenge n)
  | (3%nat, [], [], [t; p; r], [i]) => Some (ClientAuth i t p r)
  | (4%nat, [b], [], [], [m]) => Some (AuthResult (b =? 1) m)
  | (5%nat, [], [], [], []) => Some IdentityRequest
  | (6%nat, [], [], [p; d], [i; en]) => Some (IdentityResponse i p en d)
  | (7%nat, [], [], [], []) => Some EntitlementRequest
  | (8%nat, [], [], [], [s; m]) => Some (EntitlementResult s m)
  | (9%nat, [], [], [], [m]) => Some (DeferralUpdate m)
  | (10%nat, [], [], [], []) => Some DeferralDone
  | (11%nat, [p; t], [], [], []) => Some (QueueUpdate (Z.to_nat p) (Z.to_nat t))
  | (12%nat, [], [], [], []) => Some QueueAdmitted
  | (13%nat, [], l, [], []) => Some (ManifestOffer ((fun '(a, b, c) => ResourceEntry a b c) <$> l))
  | (14%nat, [], [], [], []) => Some ClientReady
  | (15%nat, [b], [], [], []) => Some (ServerReady (b =? 1))
  | (16%nat, [], [], [], [c; r]) => Some (Reject c r)
  | _ => None
  end.
Lemma uncode_code m : uncode (code m) = Some m.
Proof.
  destruct m; cbn; try reflexivity.
  - by destruct accepted.
  - by rewrite !Nat2Z.id.
  - f_equal. f_equal. rewrite <- list_fmap_compose. etrans; [|apply list_fmap_id]. apply list_fmap_ext. by intros _ [] _.
  - by destruct world_join.
Qed.
Definition message_json : json handshake_message := {|
  to_vec m := Ok (pos_bits (encode (code m)));
  from_slice bs := ok_or (decode (bits_pos bs) ≫= uncode) "eof"%string |}.
Lemma message_json_codec : @json_codec handshake_message message_json.
Proof. split; simpl; intros m bs [= <-]; [|apply pos_bits_no_newline]. rewrite bits_pos_bits, decode_encode. simpl. by rewrite uncode_code. Qed.
#[local] Existing Instances message_json message_json_codec Server.Transfer.files_fs.
#[local] Instance envelope_json : json event_envelope := {| to_vec _ := Err "no"%string; from_slice _ := Err "no"%string |}.
#[local] Instance request_json : json transfer_request := {| to_vec _ := Err "no"%string; from_slice _ := Err "no"%string |}.
#[local] Instance header_json : json transfer_header := {| to_vec _ := Err "no"%string; from_slice _ := Err "no"%string |}.

Definition no_identity : identity_requirements := IdentityRequirements true false false false false false false.
Definition empty_server (max : Z) : Server.Ingress.server_state (Addr := nat) := Server.Ingress.server_new "srv" max no_identity [].
Definition quiet_env : Server.Ingress.env (F := gmap text text) := Server.Ingress.Env 1000 0 7 (fun _ => true) ∅.
Definition show_nat (n : nat) : string := "p".

Lemma join_outcome_spec_witness :
  let w := world_steps show_nat show_nat (fun _ => "id"%string) (fun _ => Some 5) Server.Transfer.in_files Server.Transfer.sum_sha (fun _ _ => Err "no"%string)
             "acc" "dev" "0.1" 3%nat quiet_env 11
             (meet show_nat show_nat (fun _ => "id"%string) (fun _ => Some 5) Server.Transfer.in_files Server.Transfer.sum_sha (fun _ _ => Err "no"%string)
                "0.1" 3%nat quiet_env (empty_server 4)) in
  state (client_of w) = Running /\ is_playing (adm_queue (Server.Ingress.adm (server_of w))) "acc" = true.
Proof.
  intros w.
  refine (match join_outcome_spec show_nat show_nat (fun _ => "id"%string) (fun _ => Some 5) Server.Transfer.in_files Server.Transfer.sum_sha (fun _ _ => Err "no"%string)
    "acc" "dev" "0.1" 3%nat quiet_env (fun _ => eq_refl) (empty_server 4) (Queue (Queue.config (adm_queue (Server.Ingress.adm (empty_server 4)))) [QueuedEntry "acc" false 1000] [])
    JoinAdmitted 5 0 _ I eq_refl _ eq_refl eq_refl (fun _ => eq_refl) eq_refl _ with conj H1 (conj _ (conj _ (conj H2 _))) => conj H1 H2 end).
  - repeat (constructor; [eexists; split; [reflexivity|apply Nat.leb_le; vm_compute; reflexivity]|]). constructor.
  - split_and!; reflexivity.
  - vm_compute. reflexivity.
Defined.
End Meeting.

(** ** Fetching a resource file *)
Module Fetch.
Inductive fetch_error :=
| NoSession | BadPlan (e : Download.download_error) | Stalled | NoRange | Encode (e : ald_error) | SendFailed | Decode (e : ald_error)
| WrongFile | Refused (e : Download.download_error) | Incomplete | HashMismatch | Cached (e : Cache.cache_error).
Definition CACHE_QUOTA : Z := 256 * 1024 * 1024.

Section fetch.
Context `{json transfer_request, json transfer_header} (sha : list Z -> list Z).
(** The network: which sends the socket takes, and what arrives within two
    seconds of the [k]-th request. *)
Context (send_ok : Z -> packet -> bool) (net : Z -> packet -> option packet) (session : Z) (name : string) (expected : resource_entry).

Definition request_packet (payload : list Z) : packet :=
  Packet (PacketHeader PROTOCOL_VERSION session ResourceTransfer 0 0 0 0 (wrap 32 (len payload))) payload.
Definition max_attempts (d : Download.download) : Z := 3 * Z.max (Download.chunk_count (Download.plan d)) 1 + 10.

(** A chunk that arrived. *)
Definition chunk (d : Download.download) (tick : Z) (p : packet) : result Download.download fetch_error :=
  match decode_response (payload p) with
  | Err e => Err (Decode e)
  | Ok (hd, data) =>
      if negb (bool_decide (hd_name hd = name)) || negb (hd_total hd =? entry_size expected) then Err WrongFile
      else match Download.receive d (hd_offset hd) data tick with Ok d => Ok d | Err e => Err (Refused e) end
  end.

(** The loop, with the packets it sent. *)
Fixpoint fetch_loop (fuel : nat) (d : Download.download) (tick attempts : Z) : result Download.download fetch_error * list packet :=
  match fuel with
  | O => (Err Stalled, [])
  | S fuel =>
      if Download.is_complete d then (Ok d, [])
      else if max_attempts d <? attempts then (Err Stalled, [])
      else match Download.missing_ranges d with
      | [] => (Err NoRange, [])
      | (offset, n) :: _ =>
          match encode_request (TransferRequest name offset n) with
          | Err e => (Err (Encode e), [])
          | Ok payload =>
              let out := request_packet payload in
              if negb (is_ok (Server.Transport.send out) && send_ok attempts out) then (Err SendFailed, [])
              else
                let turn :=
                  match net attempts out with
                  | Some p => if bool_decide (hdr_channel (header p) = ResourceTransfer) then chunk d (tick + 1) p else Ok d
                  | None => Ok d
                  end in
                match turn with
                | Err e => (Err e, [out])
                | Ok d => let '(r, sent) := fetch_loop fuel d (tick + 1) (attempts + 1) in (r, out :: sent)
                end
          end
      end
  end.

(** The whole call: the result, the cache directory after it, and the packets
    sent. [live]: the handshake has left a session. *)
Definition fetch_resource_file (live : bool) (pid now : Z) (disk : Cache.disk) : result (list Z) fetch_error * Cache.disk * list packet :=
  if negb live then (Err NoSession, disk, [])
  else match Download.plan_new (entry_size expected) CHUNK_CAP with
  | Err e => (Err (BadPlan e), disk, [])
  | Ok plan =>
      let d := Download.download_new plan 0 in
      let '(r, sent) := fetch_loop (Z.to_nat (max_attempts d + 2)) d 0 0 in
      match r with
      | Err e => (Err e, disk, sent)
      | Ok d =>
          match Download.assembled d with
          | None => (Err Incomplete, disk, sent)
          | Some bytes =>
              if negb (bool_decide (Cache.sha256_hex sha bytes = codes (entry_hash expected))) then (Err HashMismatch, disk, sent)
              else
                let c := Cache.open CACHE_QUOTA disk in
                let '(staged, c, disk) := Cache.stage pid now c disk bytes in
                let '(r, _, disk) := Cache.commit sha c disk staged (codes (entry_hash expected)) in
                (match r with Ok _ => Ok bytes | Err e => Err (Cached e) end, disk, sent)
          end
      end
  end.

(** *** The loop *)
(** Offsets are u64, whatever a header is read from. *)
Context (offsets : forall bs hd, from_slice bs = Ok hd -> fits 64 (hd_offset hd)).
Definition good (d : Download.download) : Prop := Download.download_ok d /\ Download.file_len (Download.plan d) = entry_size expected.

Lemma chunk_good d tick p d' : good d -> chunk d tick p = Ok d' -> good d' /\ Download.plan d' = Download.plan d.
Proof.
  intros [Hok Hl]. unfold chunk. destruct (decode_response _) as [[hd data]|] eqn:Ed; [|done]. destruct (_ || _); [done|].
  destruct (Download.receive d (hd_offset hd) data tick) as [d1|] eqn:Er; [|done]. intros [= <-].
  pose proof (Download.receive_plan _ _ _ _ _ Er) as Hp. split; [|done]. split; [|by rewrite Hp].
  eapply Download.receive_ok; [exact Hok| |exact Er].
  unfold decode_response in Ed. destruct (position _ _); [|done]. cbn [ok_or rbind] in Ed. destruct (from_slice _) as [h|] eqn:Eh; [|done].
  cbn [map_protocol rbind] in Ed. destruct (_ <? _); [done|]. injection Ed as <- _. by destruct (offsets _ _ Eh).
Qed.

(** A request the loop sends: a missing range of the file, within the cap. *)
Definition asks (p : packet) : Prop :=
  exists req payload, p = request_packet payload /\ encode_request req = Ok payload /\ req_name req = name /\
    0 <= req_offset req /\ 0 < req_len req <= CHUNK_CAP /\ req_offset req + req_len req <= entry_size expected.

Lemma missing_within d offset n l : good d -> Download.missing_ranges d = (offset, n) :: l -> 0 <= offset /\ 0 < n /\ offset + n <= entry_size expected.
Proof.
  intros [[_ _ Hc _] Hl] Hm. destruct (Download.missing_ranges_spec d) as (_ & Hp & H0' & Hin). rewrite Hm in *.
  apply Forall_cons_1 in Hp as [Hp _]. apply Forall_cons_1 in H0' as [H0' _]. cbn in Hp, H0'. split_and!; [done..|].
  assert (Hx : Download.covered d !! Z.to_nat (offset + n - 1) = Some false).
  { apply Hin; [lia|]. left. unfold Download.in_range. cbn. lia. }
  apply lookup_lt_Some in Hx. lia.
Qed.
Lemma encode_cap r payload : encode_request r = Ok payload -> req_len r <= CHUNK_CAP.
Proof. unfold encode_request. destruct (Z.ltb_spec CHUNK_CAP (req_len r)); [done|]. by intros. Qed.

Lemma fetch_loop_spec fuel : forall d tick attempts r sent, good d -> 0 <= attempts <= max_attempts d + 1 -> fetch_loop fuel d tick attempts = (r, sent) ->
  (forall d', r = Ok d' -> good d' /\ Download.is_complete d' = true) /\ len sent <= max_attempts d + 1 - attempts /\ Forall asks sent.
Proof.
  induction fuel as [|fuel IH]; intros d tick attempts r sent Hd Ha; cbn [fetch_loop]; [intros [= <- <-]; split_and!; [done|unfold len; cbn [length]; lia|constructor]|].
  assert (Hbase : forall r0 : result Download.download fetch_error, (forall d', r0 = Ok d' -> d' = d /\ Download.is_complete d = true) ->
    (forall d', r0 = Ok d' -> good d' /\ Download.is_complete d' = true) /\ len ([] : list packet) <= max_attempts d + 1 - attempts /\ Forall asks []).
  { intros r0 Hr. split_and!; [|unfold len; cbn [length]; lia|constructor]. intros d' E. by destruct (Hr d' E) as [-> ?]. }
  destruct (Download.is_complete d) eqn:Ec; [intros [= <- <-]; apply Hbase; by intros d' [= <-]|].
  destruct (Z.ltb_spec (max_attempts d) attempts); [intros [= <- <-]; by apply Hbase|].
  destruct (Download.missing_ranges d) as [|[offset n] ranges] eqn:Em; [intros [= <- <-]; by apply Hbase|].
  destruct (encode_request _) as [payload|] eqn:Ep; [|intros [= <- <-]; by apply Hbase].
  destruct (negb _); [intros [= <- <-]; by apply Hbase|].
  assert (Hask : asks (request_packet payload)).
  { exists (TransferRequest name offset n), payload. destruct (missing_within _ _ _ _ Hd Em) as (? & ? & ?). apply encode_cap in Ep as ?. by split_and!. }
  assert (Hgo : forall d1, good d1 -> Download.plan d1 = Download.plan d -> (let '(r, sent) := fetch_loop fuel d1 (tick + 1) (attempts + 1) in
    (r, request_packet payload :: sent)) = (r, sent) ->
    (forall d', r = Ok d' -> good d' /\ Download.is_complete d' = true) /\ len sent <= max_attempts d + 1 - attempts /\ Forall asks sent).
  { intros d1 Hd1 Hpl. assert (Hmx : max_attempts d1 = max_attempts d) by (unfold max_attempts; by rewrite Hpl).
    destruct (fetch_loop fuel d1 _ _) as [r1 sent1] eqn:El. intros [= <- <-]. apply IH in El as (E1 & E2 & E3); [|done|lia].
    split_and!; [done|unfold len in *; cbn [length]; lia|by constructor]. }
  assert (Hstop : forall e, (Err e, [request_packet payload]) = (r, sent) ->
    (forall d', r = Ok d' -> good d' /\ Download.is_complete d' = true) /\ len sent <= max_attempts d + 1 - attempts /\ Forall asks sent).
  { intros e [= <- <-]. split_and!; [done|unfold len; cbn [length]; lia|by constructor]. }
  cbv zeta. destruct (net attempts _) as [p|]; [|by apply Hgo]. case_bool_decide; [|by apply Hgo].
  destruct (chunk d (tick + 1) p) as [d1|e] eqn:Ech; [|by apply Hstop]. destruct (chunk_good _ _ _ _ Hd Ech). by apply Hgo.
Qed.

(** More fuel than attempts changes nothing. *)
Lemma fetch_loop_fuel f1 : forall f2 d tick attempts, good d -> 0 <= attempts -> max_attempts d + 2 - attempts <= Z.of_nat f1 -> (f1 <= f2)%nat ->
  0 < Z.of_nat f1 -> fetch_loop f2 d tick attempts = fetch_loop f1 d tick attempts.
Proof.
  induction f1 as [|f1 IH]; intros f2 d tick attempts Hd Ha Hf Hle Hp; [lia|]. destruct f2 as [|f2]; [lia|]. cbn [fetch_loop].
  destruct (Download.is_complete d); [done|]. destruct (Z.ltb_spec (max_attempts d) attempts); [done|].
  destruct (Download.missing_ranges d) as [|[offset n] ranges]; [done|]. destruct (encode_request _) as [payload|]; [|done]. destruct (negb _); [done|].
  cbv zeta. set (turn := match net attempts _ with Some _ => _ | None => _ end).
  assert (Ht : forall d1, turn = Ok d1 -> good d1 /\ Download.plan d1 = Download.plan d).
  { subst turn. intros d1. destruct (net attempts _) as [p|]; [|by intros [= <-]]. case_bool_decide; [by apply chunk_good|by intros [= <-]]. }
  destruct turn as [d1|]; [|done]. destruct (Ht d1 eq_refl) as [Hg1 Hp1].
  rewrite (IH f2); [done|done|lia|unfold max_attempts in *; rewrite Hp1; lia|lia|lia].
Qed.

Lemma scan_fresh n : forall i out s l, Download.scan_missing (replicate n false) i out (Some (s, l)) = out ++ [(s, l + Z.of_nat n)].
Proof. induction n as [|n IH]; intros i out s l; cbn [replicate Download.scan_missing]; [by rewrite Z.add_0_r|]. rewrite IH. do 3 f_equal. lia. Qed.
Lemma fresh_ranges p t : 0 < Download.file_len p -> Download.missing_ranges (Download.download_new p t) = [(0, Download.file_len p)].
Proof.
  intros Hp. unfold Download.missing_ranges, Download.download_new. cbn. destruct (Z.to_nat (Download.file_len p)) as [|n] eqn:E; [lia|].
  cbn [replicate Download.scan_missing]. rewrite scan_fresh. cbn. do 2 f_equal. lia.
Qed.
Lemma plan_fresh n plan : Download.plan_new n CHUNK_CAP = Ok plan -> 0 <= n -> 0 < Download.file_len plan /\ Download.file_len plan = n.
Proof. unfold Download.plan_new. destruct (_ || _) eqn:E; [done|]. bool_prop. intros [= <-] Hn. cbn. lia. Qed.
(** What the commit of verified bytes does. *)
Lemma commit_fetched pid now (disk : Cache.disk) bytes h r c' disk' :
  (let '(staged, c, d) := Cache.stage pid now (Cache.open CACHE_QUOTA disk) disk bytes in Cache.commit sha c d staged h) = (r, c', disk') ->
  match r with
  | Ok _ => exists f, Cache.objects disk' !! h = Some f /\ Cache.sha256_hex sha (Cache.f_bytes f) = h
  | Err _ => True
  end.
Proof.
  unfold Cache.stage. intros Hc. pose proof (Cache.commit_spec _ _ _ _ _ _ _ _ Hc) as Hs. destruct r; [|done].
  destruct Hs as (_ & _ & f & Hf & Hh & _). by exists f.
Qed.

(** C40: whatever the network answers, a fetch that succeeds returns bytes of the
    size and the digest the manifest promised, and leaves an object of that
    digest in the cache; one that fails leaves the cache as it was unless the
    commit failed. The requests are bounded in number, each for a part of the
    file within the chunk cap. A file larger than the chunk cap is never asked
    for: the one missing range of a fresh download is the whole file, which no
    request may name, and the fetch fails before it sends anything. *)
Theorem fetch_verified (live : bool) (pid now : Z) (disk : Cache.disk) : 0 <= entry_size expected < 2 ^ 64 ->
  let '(r, disk', sent) := fetch_resource_file live pid now disk in
  match r with
  | Ok bytes => live = true /\ len bytes = entry_size expected /\ Cache.sha256_hex sha bytes = codes (entry_hash expected) /\
      (exists f, Cache.objects disk' !! codes (entry_hash expected) = Some f /\ Cache.sha256_hex sha (Cache.f_bytes f) = codes (entry_hash expected))
  | Err (Cached _) => True
  | Err _ => disk' = disk
  end /\
  len sent <= 3 * Z.max (Download.div_ceil (entry_size expected) CHUNK_CAP) 1 + 11 /\ Forall asks sent /\
  (CHUNK_CAP < entry_size expected -> is_ok r = false /\ sent = []).
Proof.
  intros Hsize. unfold fetch_resource_file. destruct live; cbn [negb]; [|split_and!; [done|unfold len; cbn [length]; lia|constructor|done]].
  destruct (Download.plan_new _ _) as [plan|] eqn:Ep; [|split_and!; [done|unfold len; cbn [length]; lia|constructor|done]].
  destruct (plan_fresh _ _ Ep ltac:(lia)) as [Hpos Hlen]. set (d := Download.download_new plan 0).
  assert (Hd : good d) by (split; [apply Download.download_new_ok; lia|done]).
  assert (Hmax : max_attempts d + 1 = 3 * Z.max (Download.div_ceil (entry_size expected) CHUNK_CAP) 1 + 11).
  { unfold max_attempts. cbn. unfold Download.plan_new in Ep. destruct (_ || _); [done|]. injection Ep as <-. cbn [Download.chunk_count]. lia. }
  destruct (fetch_loop _ d 0 0) as [r sent] eqn:El.
  assert (Hbig : CHUNK_CAP < entry_size expected -> is_ok r = false /\ sent = []).
  { intros Hb. destruct (Z.to_nat _) as [|fuel] eqn:Ef; [unfold max_attempts in Ef; lia|]. cbn [fetch_loop] in El.
    assert (Download.is_complete d = false) as Hc by (apply Z.eqb_neq; cbn; lia). rewrite Hc in El.
    rewrite (proj2 (Z.ltb_ge _ _)) in El by (unfold max_attempts; lia). subst d. rewrite fresh_ranges in El by done.
    unfold encode_request in El. cbn [req_len] in El. rewrite (proj2 (Z.ltb_lt _ _)) in El by lia. by injection El as <- <-. }
  apply fetch_loop_spec in El as (Hr & Hn & Ha); [|done|unfold max_attempts; lia]. rewrite Z.sub_0_r, Hmax in Hn.
  destruct r as [d'|e]; [|by split_and!; [destruct e|..]]. destruct (Hr d' eq_refl) as [[Hok Hl] Hc]. unfold Download.assembled. rewrite Hc.
  assert (Hsmall : CHUNK_CAP < entry_size expected -> False) by (intros Hb; by destruct (Hbig Hb)).
  case_bool_decide as Hh; cbn [negb]; [|by split_and!; [..|intros Hb; destruct (Hsmall Hb)]].
  pose proof (commit_fetched pid now disk (Download.bytes d') (codes (entry_hash expected))) as Hcm.
  destruct (Cache.stage pid now _ disk _) as [[st c1] disk1]. destruct (Cache.commit sha c1 disk1 st _) as [[rc c2] disk2]. specialize (Hcm _ _ _ eq_refl).
  split_and!; [|done..|intros Hb; destruct (Hsmall Hb)]. destruct rc; [|done]. split_and!; [done|unfold len; rewrite <- Hl; apply Hok|done..].
Qed.
Lemma commit_fresh pid now (disk : Cache.disk) bytes h : Cache.objects disk !! h = None -> Cache.valid_hash h = true -> Cache.sha256_hex sha bytes = h ->
  let '(staged, c, d) := Cache.stage pid now (Cache.open CACHE_QUOTA disk) disk bytes in is_ok (Cache.commit sha c d staged h).1.1 = true.
Proof.
  intros Hn Hv Hh. unfold Cache.stage. set (n := wrap 64 _). unfold Cache.commit. rewrite Hv. cbn [negb Cache.tmp]. rewrite lookup_insert_eq.
  cbv zeta. cbn [Cache.f_bytes]. rewrite bool_decide_true by done. cbn [negb Cache.objects]. rewrite Hn. cbn [Cache.drop_tmp Cache.put_object Cache.objects].
  rewrite lookup_insert_eq. cbn [Cache.f_bytes]. by rewrite bool_decide_true.
Qed.

(** *** A server that answers *)
(** The loop when nothing arrives: the same request until it is stalled. *)
Lemma fetch_silent fuel : forall d tick attempts offset n l body, Download.is_complete d = false -> Download.missing_ranges d = (offset, n) :: l ->
  encode_request (TransferRequest name offset n) = Ok body -> (forall k, send_ok k (request_packet body) = true) ->
  is_ok (Server.Transport.send (request_packet body)) = true -> (forall k, net k (request_packet body) = None) ->
  0 <= attempts <= max_attempts d + 1 -> max_attempts d + 1 - attempts < Z.of_nat fuel ->
  fetch_loop fuel d tick attempts = (Err Stalled, replicate (Z.to_nat (max_attempts d + 1 - attempts)) (request_packet body)).
Proof.
  induction fuel as [|fuel IH]; intros d tick attempts offset n l body Hc Hm He Hs Hok Hn Ha Hf; [lia|]. cbn [fetch_loop]. rewrite Hc.
  destruct (Z.ltb_spec (max_attempts d) attempts); [by replace (Z.to_nat _) with 0%nat by lia|].
  rewrite Hm, He. cbv zeta. rewrite Hok, Hs, Hn. cbn [negb andb]. rewrite (IH d _ _ offset n l body) by (done || lia).
  by replace (Z.to_nat (max_attempts d + 1 - attempts)) with (S (Z.to_nat (max_attempts d + 1 - (attempts + 1)))) by lia.
Qed.

(** One request and its answer, and the end. *)
Lemma fetch_answered fuel d tick attempts offset n l body p d' : Download.is_complete d = false -> Download.missing_ranges d = (offset, n) :: l ->
  encode_request (TransferRequest name offset n) = Ok body -> send_ok attempts (request_packet body) = true ->
  is_ok (Server.Transport.send (request_packet body)) = true -> net attempts (request_packet body) = Some p -> hdr_channel (header p) = ResourceTransfer ->
  attempts <= max_attempts d -> chunk d (tick + 1) p = Ok d' -> Download.is_complete d' = true ->
  fetch_loop (S (S fuel)) d tick attempts = (Ok d', [request_packet body]).
Proof.
  intros Hc Hm He Hs Hok Hn Hch Ha Hd Hc'. cbn [fetch_loop]. rewrite Hc, (proj2 (Z.ltb_ge _ _)), Hm, He by done. cbv zeta.
  by rewrite Hok, Hs, Hn, bool_decide_true, Hd, Hc' by done.
Qed.

(** The one response that completes a fresh download. *)
Lemma receive_whole plan (file : list Z) t : Download.file_len plan = len file -> 0 < len file < 2 ^ 64 ->
  exists d, Download.receive (Download.download_new plan 0) 0 file t = Ok d /\ Download.is_complete d = true /\ Download.bytes d = file.
Proof.
  intros Hl Hf. set (d0 := Download.download_new plan 0). assert (Hok0 : Download.download_ok d0) by (apply Download.download_new_ok; lia).
  destruct (Download.receive d0 0 file t) as [d|e] eqn:Er.
  2:{ exfalso. apply Download.receive_err in Er as [Hc|Hn]; [| |done].
      - apply Z.eqb_eq in Hc. change (0 = Download.file_len plan) in Hc. lia.
      - apply Hn. unfold Download.fits_in. change (Download.plan d0) with plan. unfold len in *. lia. }
  apply Download.receive_ok in Er as (Hok & Hp & _ & _ & Hin & _); [|done|lia]. exists d. split; [done|].
  assert (Hw : forall i, (Z.of_nat i < Download.file_len plan) -> Download.bytes d !! i = file !! i /\ Download.covered d !! i = Some true).
  { intros i Hi. rewrite <- (Nat.sub_0_r i) at 2. apply Hin. unfold Download.within. unfold len in *. lia. }
  split.
  - apply Download.is_complete_iff; [done|]. rewrite Hp. intros i Hi. by apply Hw.
  - apply list_eq. intros i. destruct (decide (Z.of_nat i < Download.file_len plan)) as [Hi|Hi]; [by apply Hw|].
    pose proof (Download.ok_bytes d Hok) as Hb. rewrite Hp in Hb. change (Download.plan d0) with plan in Hb. unfold len in *.
    rewrite !lookup_ge_None_2 by lia. done.
Qed.
End fetch.

(** *** The file server at the other end *)
Section served.
Context {F : Type} `{Vfs.filesystem F} `{json transfer_request, json transfer_header, !json_codec transfer_request, !json_codec transfer_header}.
Context (sha : list Z -> list Z) (is_file : F -> text -> bool) (s : F) (configured : text) (session : Z) (name : string) (expected : resource_entry).

(** What arrives of the answer: a frame of the server's transfer service in a
    datagram of the transport. *)
Definition answer (frame : list Z) : packet :=
  Packet (PacketHeader PROTOCOL_VERSION session ResourceTransfer 0 0 0 0 (len frame)) frame.
Definition served_net (k : Z) (out : packet) : option packet :=
  match Server.Transfer.serve_chunk is_file sha s true (payload out) configured with
  | Ok frame => Server.Transport.wire (answer frame)
  | Err _ => None
  end.

(** C39: against the file server of this repository, with nothing lost on the
    way: a file of at most a chunk is fetched with one request, verified and
    returned, when its chunk fits a datagram of the transport; when it does not,
    the client asks fourteen times and gives up. *)
Theorem fetch_served (pid now : Z) (disk : Cache.disk) (path file body head : list Z) :
  (forall bs hd, from_slice bs = Ok hd -> fits 64 (hd_offset hd)) -> fits 64 session ->
  Server.Transfer.resolve_file is_file s (codes name) configured = Ok path -> Vfs.fs_read s path = Ok file ->
  0 < len file <= CHUNK_CAP -> byte_list file -> entry_size expected = len file -> codes (entry_hash expected) = hex (sha file) ->
  Cache.valid_hash (hex (sha file)) = true -> Cache.objects disk !! hex (sha file) = None ->
  to_vec (TransferRequest name 0 (len file)) = Ok body -> (length body <= MAX_REQUEST)%nat ->
  to_vec (TransferHeader name 0 (len file) (of_codes (hex (sha file)))) = Ok head -> byte_list head -> len head < 2 ^ 31 ->
  let '(r, _, sent) := fetch_resource_file sha (fun _ _ => true) served_net session name expected true pid now disk in
  if bool_decide (HEADER_LEN + length head + 1 + length file <= Server.Transport.MTU)%nat
  then r = Ok file /\ length sent = 1%nat
  else r = Err Stalled /\ length sent = 14%nat.
Proof.
  intros Hoff Hses Hres Hread Hsize Hbytes Hes Heh Hv Hdisk Hbody Hblen Hhead Hhb Hhl.
  assert (Henc : encode_request (TransferRequest name 0 (len file)) = Ok body).
  { unfold encode_request. cbn [req_len]. rewrite (proj2 (Z.ltb_ge _ _)) by lia. by apply map_protocol_Ok. }
  set (frame := (head ++ [10]) ++ file).
  assert (Hframe : encode_response (TransferHeader name 0 (len file) (of_codes (hex (sha file)))) file = Ok frame).
  { unfold encode_response. rewrite (proj2 (Z.ltb_ge _ _)) by (unfold len in *; lia). by rewrite (map_protocol_Ok _ _ Hhead). }
  assert (Hserve : Server.Transfer.serve_chunk is_file sha s true body configured = Ok frame).
  { unfold Server.Transfer.serve_chunk. cbn [negb]. rewrite (request_roundtrip _ _ Henc Hblen). cbn [req_name req_offset req_len].
    rewrite Hres. cbn [rbind]. rewrite Hread. cbv zeta. rewrite (proj2 (Z.ltb_ge _ _)) by lia.
    assert (Hsl : slice file (Z.to_nat 0) (Z.to_nat (Z.min (0 + Z.min (len file) CHUNK_CAP) (len file))) = file).
    { unfold slice. rewrite Z.add_0_l, !Z.min_l by lia. cbn [Z.to_nat drop]. unfold len. rewrite Nat2Z.id, Nat.sub_0_r. by rewrite firstn_all. }
    rewrite Hsl. by rewrite Hframe. }
  assert (Hpl : len frame = len head + 1 + len file) by (unfold frame, len; rewrite !length_app; cbn [length]; lia).
  assert (Hnet : forall k, served_net k (request_packet session body) =
    if bool_decide (HEADER_LEN + length head + 1 + length file <= Server.Transport.MTU)%nat then Some (answer frame) else None).
  { intros k. unfold served_net. cbn [request_packet payload]. rewrite Hserve, Server.Transport.wire_spec; [|..]; [|split; cbn|done|done].
    - assert (Hbd : bool_decide (HEADER_LEN + length (payload (answer frame)) <= Server.Transport.MTU)%nat =
        bool_decide (HEADER_LEN + length head + 1 + length file <= Server.Transport.MTU)%nat).
      { apply bool_decide_ext. cbn [answer payload]. unfold len in Hpl. lia. }
      by rewrite Hbd.
    - by_decide.
    - done.
    - by_decide.
    - by_decide.
    - by_decide.
    - by_decide.
    - unfold fits, CHUNK_CAP in *. pose proof (len_nonneg head). lia.
    - unfold frame. rewrite !Forall_app. split_and!; [done| |done]. repeat constructor; by_decide.
    - unfold CHUNK_CAP, len in *. lia. }
  assert (Hplan : Download.plan_new (entry_size expected) CHUNK_CAP = Ok (Download.ChunkPlan (len file) CHUNK_CAP 1)).
  { unfold Download.plan_new. rewrite Hes, (proj2 (Z.eqb_neq _ _)) by lia. cbn [orb]. do 2 f_equal. unfold Download.div_ceil, CHUNK_CAP in *.
    destruct (Z.eq_dec (len file) (32 * 1024)) as [-> |]; [done|].
    rewrite Z.mod_small, Z.div_small by lia. by rewrite (proj2 (Z.eqb_neq _ _)) by lia. }
  assert (Hsend : is_ok (Server.Transport.send (request_packet session body)) = true).
  { unfold Server.Transport.send, encode_packet, request_packet. cbn [header payload payload_len]. rewrite Z.eqb_refl. cbn [negb].
    rewrite wrap_small by (unfold fits, len, MAX_REQUEST in *; lia). by rewrite (proj2 (Z.ltb_ge _ _)) by (unfold MAX_PAYLOAD, len, MAX_REQUEST in *; lia). }
  unfold fetch_resource_file. cbn [negb]. rewrite Hplan. cbv zeta. set (plan := Download.ChunkPlan _ _ _).
  assert (Hranges : Download.missing_ranges (Download.download_new plan 0) = [(0, len file)]) by (apply fresh_ranges; cbn; lia).
  assert (Hinc : Download.is_complete (Download.download_new plan 0) = false) by (apply Z.eqb_neq; cbn [Download.received_bytes Download.download_new Download.plan Download.file_len plan]; lia).
  change (Z.to_nat (max_attempts _ + 2)) with 15%nat. case_bool_decide as Hfit.
  - destruct (receive_whole plan file 1 eq_refl) as (d & Hd & Hdc & Hdb); [unfold CHUNK_CAP in *; lia|].
    rewrite (fetch_answered (fun _ _ => true) served_net session name expected 13 _ 0 0 0 (len file) [] body (answer frame) d); try done.
    + unfold Download.assembled. rewrite Hdc, Hdb, Heh. rewrite bool_decide_true by done. cbn [negb].
      pose proof (commit_fresh sha pid now disk file (hex (sha file)) Hdisk Hv eq_refl) as Hc.
      destruct (Cache.stage _ _ _ _ _) as [[st c] dk]. destruct (Cache.commit _ _ _ _ _) as [[[] ?] ?]; [done|discriminate].
    + unfold chunk. cbn [answer payload]. rewrite (response_roundtrip _ _ _ Hframe). cbn [hd_name hd_total hd_offset].
      rewrite bool_decide_true, Hes, Z.eqb_refl by done. cbn [negb orb]. change (0 + 1) with 1. by rewrite Hd.
  - rewrite (fetch_silent (fun _ _ => true) served_net session name expected 15 _ 0 0 0 (len file) [] body); try done.
    all: change (max_attempts _) with 13; lia.
Qed.
End served.

(** *** A codec with the widths of the types, and a fetch over it *)
Definition ranged (h : transfer_header) : bool := (0 <=? hd_offset h) && (hd_offset h <? 2 ^ 64).
Definition header_code (h : transfer_header) : string * Z * Z * string := (hd_name h, hd_offset h, hd_total h, hd_sha256 h).
Definition header_json : json transfer_header := {|
  to_vec h := if ranged h then Ok (pos_bits (encode (header_code h))) else Err "range"%string;
  from_slice bs := match (fun '(a, b, c, d) => TransferHeader a b c d) <$> (decode (bits_pos bs) : option (string * Z * Z * string)) with
    | Some h => if ranged h then Ok h else Err "range"%string | None => Err "eof"%string end |}.
Lemma header_json_codec : @json_codec transfer_header header_json.
Proof.
  split; simpl; intros h bs E; destruct (ranged h) eqn:Er; try done; injection E as <-; [|apply pos_bits_no_newline].
  rewrite bits_pos_bits, decode_encode. cbn. destruct h. cbn. by rewrite Er.
Qed.
#[local] Existing Instances header_json header_json_codec Server.Transfer.files_fs countable_json countable_json_codec
  Server.Transfer.transfer_request_eq_dec Server.Transfer.transfer_request_countable.
Lemma header_offsets bs hd : from_slice bs = Ok hd -> fits 64 (hd_offset hd).
Proof.
  cbn. destruct ((fun '(a, b, c, d) => TransferHeader a b c d) <$> _) as [h|]; [|done]. unfold ranged. destruct (_ && _) eqn:E; [|done]. intros [= <-]. bool_prop.
  unfold fits. lia.
Qed.
Definition host_entry : resource_entry := ResourceEntry "demo" (of_codes (hex (Server.Transfer.sum_sha [1; 2; 3]))) 3.

Lemma fetch_verified_witness :
  let '(r, _, sent) := fetch_resource_file Server.Transfer.sum_sha (fun _ _ => true) (fun _ _ => None) 7 "demo/a.lua" host_entry true 1 2 Cache.empty_disk in
  is_ok r = false /\ len sent <= 14.
Proof.
  pose proof (fetch_verified Server.Transfer.sum_sha (fun _ _ => true) (fun _ _ => None) 7 "demo/a.lua" host_entry header_offsets true 1 2 Cache.empty_disk
    ltac:(split; [done|reflexivity])) as H.
  set (x := fetch_resource_file _ _ _ _ _ _ _ _ _ _) in *. assert (Hx : is_ok x.1.1 = false) by (vm_compute; reflexivity).
  clearbody x. destruct x as [[r d] sent]. destruct H as (_ & H & _). split; [exact Hx|exact H].
Defined.

Definition demo_body : list Z := match to_vec (TransferRequest "demo/a.lua" 0 3) with Ok b => b | Err _ => [] end.
Definition demo_head : list Z :=
  match to_vec (TransferHeader "demo/a.lua" 0 3 (of_codes (hex (Server.Transfer.sum_sha [1; 2; 3])))) with Ok b => b | Err _ => [] end.
Lemma fetch_served_witness :
  let '(r, _, sent) := fetch_resource_file Server.Transfer.sum_sha (fun _ _ => true)
    (served_net Server.Transfer.sum_sha Server.Transfer.in_files Server.Transfer.host (codes "/srv/resources") 7)
    7 "demo/a.lua" host_entry true 1 2 Cache.empty_disk in
  r = Ok [1; 2; 3] /\ length sent = 1%nat.
Proof.
  assert (Hw : (HEADER_LEN + length demo_head + 1 + 3 <= Server.Transport.MTU)%nat) by (apply Nat.leb_le; vm_compute; reflexivity).
  assert (Hh : byte_list demo_head) by by_decide.
  assert (Hres : Server.Transfer.resolve_file Server.Transfer.in_files Server.Transfer.host (codes "demo/a.lua") (codes "/srv/resources") =
    Ok (codes "/srv/resources/demo/a.lua")) by (vm_compute; reflexivity).
  assert (Hread : Vfs.fs_read Server.Transfer.host (codes "/srv/resources/demo/a.lua") = Ok [1; 2; 3]) by (vm_compute; reflexivity).
  assert (Heh : codes (entry_hash host_entry) = hex (Server.Transfer.sum_sha [1; 2; 3])) by (vm_compute; reflexivity).
  assert (Hv : Cache.valid_hash (hex (Server.Transfer.sum_sha [1; 2; 3])) = true) by (vm_compute; reflexivity).
  assert (Hb : to_vec (TransferRequest "demo/a.lua" 0 3) = Ok demo_body) by reflexivity.
  assert (Hbl : (length demo_body <= MAX_REQUEST)%nat) by (apply Nat.leb_le; vm_compute; reflexivity).
  assert (Hhd : to_vec (TransferHeader "demo/a.lua" 0 3 (of_codes (hex (Server.Transfer.sum_sha [1; 2; 3])))) = Ok demo_head) by reflexivity.
  assert (Hlen : 0 < len [1; 2; 3] <= CHUNK_CAP) by by_decide.
  assert (Hby : byte_list [1; 2; 3]) by by_decide.
  assert (Hhl : len demo_head < 2 ^ 31) by (vm_compute; reflexivity).
  pose proof (fetch_served Server.Transfer.sum_sha Server.Transfer.in_files Server.Transfer.host (codes "/srv/resources") 7 "demo/a.lua" host_entry
    1 2 Cache.empty_disk _ _ _ _ header_offsets ltac:(by_decide) Hres Hread Hlen Hby eq_refl Heh Hv (lookup_empty _) Hb Hbl Hhd Hh Hhl) as H.
  rewrite (bool_decide_true _ Hw) in H. exact H.
Defined.
End Fetch.

(** ** The join driver *)
Module Join.

Definition STALL_BUDGET_TICKS : Z := 300.
Inductive join_phase :=
| Handshake | Deferrals (message : string) | Queued (position : Z) | Downloading (received total : Z) | Residency (pending : Z)
| Ready | Failed (reason : string).
Definition terminal (p : join_phase) : bool := match p with Ready | Failed _ => true | _ => false end.

Inductive server_event :=
| DeferralUpdate (message : string) | DeferralDone | QueuePosition (position : Z) | QueueAdmitted | Manifest (total_bytes : Z)
| ChunkArrived (received : Z) | DownloadComplete | ResidencyPending (pending : Z) | ResidencyReady | Rejected (reason : string) | Kicked (reason : string).
Inductive join_error := LateEvent | OutOfOrder (event : server_event) (phase : string).

Section driver.
(** The derived [Debug] of a phase. *)
Context (show : join_phase -> string).

Record join_driver := JoinDriver { phase : join_phase; last_event_tick : Z; stall_budget : Z }.
Definition driver_new (now : Z) : join_driver := JoinDriver Handshake now STALL_BUDGET_TICKS.
Definition with_stall_budget (now budget : Z) : join_driver := JoinDriver Handshake now (Z.max budget 1).

(** The phase an event leads to from a phase that is not terminal; [None] when
    it does not fit there. *)
Definition next (p : join_phase) (e : server_event) : option join_phase :=
  match p, e with
  | _, Rejected r => Some (Failed ("rejected: " +:+ r))
  | _, Kicked r => Some (Failed ("kicked: " +:+ r))
  | Handshake, DeferralUpdate m => Some (Deferrals m)
  | Handshake, DeferralDone => Some (Deferrals "")
  | Deferrals _, DeferralUpdate m => Some (Deferrals m)
  | Deferrals m, DeferralDone => Some (Deferrals m)
  | Deferrals _, QueuePosition n | Handshake, QueuePosition n | Queued _, QueuePosition n => Some (Queued n)
  | Queued _, QueueAdmitted => Some (Downloading 0 0)
  | Downloading received _, Manifest total => Some (Downloading received total)
  | Downloading _ total, ChunkArrived received =>
      if (total <? received) && (0 <? total) then None else Some (Downloading received total)
  | Downloading _ _, DownloadComplete => Some (Residency 0)
  | Residency _, ResidencyPending n => Some (Residency n)
  | Residency _, ResidencyReady => Some Ready
  | _, _ => None
  end.
Definition apply (d : join_driver) (e : server_event) (now : Z) : result unit join_error * join_driver :=
  if terminal (phase d) then (Err LateEvent, d)
  else match next (phase d) e with
  | None => (Err (OutOfOrder e (show (phase d))), d)
  | Some p => (Ok (), JoinDriver p now (stall_budget d))
  end.
Definition cancel (d : join_driver) : join_driver :=
  if terminal (phase d) then d else JoinDriver (Failed "cancelled by user") (last_event_tick d) (stall_budget d).
Definition check_stall (d : join_driver) (now : Z) : option string :=
  if terminal (phase d) then None
  else if stall_budget d <? sat_sub now (last_event_tick d) then Some (show (phase d)) else None.

(** binary32 arithmetic of the progress bar. *)
Definition of_u64 (n : Z) : spec_float := binary_normalize 24 128 n 0 false.
Definition clamp01 (f : spec_float) : spec_float :=
  let f := if SFltb f (of_u64 0) then of_u64 0 else f in if SFltb (of_u64 1) f then of_u64 1 else f.
Definition download_fraction (d : join_driver) : option spec_float :=
  match phase d with
  | Downloading received total => if 0 <? total then Some (clamp01 (SFdiv 24 128 (of_u64 received) (of_u64 total))) else None
  | _ => None
  end.

(** *** The order of joining *)
Definition run_events (d : join_driver) (es : list (server_event * Z)) : join_driver := run (fun d e => (apply d e.1 e.2).2) d es.
Definition stages : list (server_event -> bool) :=
  [fun e => match e with QueuePosition _ => true | _ => false end; fun e => match e with QueueAdmitted => true | _ => false end;
   fun e => match e with DownloadComplete => true | _ => false end; fun e => match e with ResidencyReady => true | _ => false end].
Definition stage (p : join_phase) : nat :=
  match p with Handshake | Deferrals _ | Failed _ => 0 | Queued _ => 1 | Downloading _ _ => 2 | Residency _ => 3 | Ready => 4 end.
Definition seen (n : nat) (es : list (server_event * Z)) : Prop :=
  exists l, l `sublist_of` es.*1 /\ Forall2 (fun (f : server_event -> bool) e => f e = true) (take n stages) l.

Lemma seen_zero es : seen 0 es.
Proof. exists []. split; [apply sublist_nil_l|constructor]. Qed.
Lemma seen_snoc n es e : seen n es -> seen n (es ++ [e]).
Proof. intros (l & Hl & Hf). exists l. split; [|done]. rewrite fmap_app. by apply sublist_inserts_r. Qed.
Lemma seen_next n es e f : seen n es -> stages !! n = Some f -> f e.1 = true -> seen (S n) (es ++ [e]).
Proof.
  intros (l & Hl & Hf) Hn He. exists (l ++ [e.1]). split; [rewrite fmap_app; by apply sublist_app|].
  rewrite (take_S_r _ _ f) by done. by apply Forall2_app; [|constructor].
Qed.
(** An event stays in the stage of the phase, opens the next one, or fails the join. *)
Lemma next_stage p e p' : next p e = Some p' ->
  stage p' = stage p \/ (stage p' = S (stage p) /\ exists f, stages !! stage p = Some f /\ f e = true) \/ exists r, p' = Failed r.
Proof.
  destruct p, e; cbn; try discriminate; try (intros [= <-]; by eauto 10);
    try (intros [= <-]; right; left; split; [done|]; by eexists).
  destruct (_ && _); [discriminate|]. intros [= <-]. by left.
Qed.
Lemma apply_seen d es e now : seen (stage (phase d)) es -> seen (stage (phase (apply d e now).2)) (es ++ [(e, now)]).
Proof.
  intros Hs. unfold apply. destruct (terminal (phase d)); [by apply seen_snoc|].
  destruct (next (phase d) e) as [p|] eqn:En; [|by apply seen_snoc]. cbn [phase snd].
  destruct (next_stage _ _ _ En) as [-> | [[-> (f & Hf & He)]|[r ->]]]; [by apply seen_snoc|by eapply seen_next|apply seen_zero].
Qed.

(** The driver is ready only after a queue position, the admission, the end
    of the download and the end of residency were announced in this order; an
    end sticks, and reports every later event; an event that does not fit
    changes nothing; a phase is reported as stalled exactly when no event fit
    for more than the budget. *)
Theorem join_driver_spec (start budget : Z) (es : list (server_event * Z)) (e : server_event) (now : Z) :
  let d := run_events (with_stall_budget start budget) es in
  (phase d = Ready -> exists e1 e2 e3 e4, [e1; e2; e3; e4] `sublist_of` es.*1 /\ Forall2 (fun (f : server_event -> bool) e => f e = true) stages [e1; e2; e3; e4]) /\
  (terminal (phase d) = true -> apply d e now = (Err LateEvent, d) /\ cancel d = d /\ check_stall d now = None) /\
  (forall err, (apply d e now).1 = Err err -> (apply d e now).2 = d) /\
  (terminal (phase d) = false -> is_Some (check_stall d now) <-> Z.max budget 1 < sat_sub now (last_event_tick d)) /\
  (last_event_tick d = start \/ exists e' t, (e', t) ∈ es /\ last_event_tick d = t).
Proof.
  intros d.
  assert (Hi : forall l d0 pre, seen (stage (phase d0)) pre -> seen (stage (phase (run_events d0 l))) (pre ++ l)).
  { clear. induction l as [|[e t] l IH]; intros d0 pre Hs; [by rewrite app_nil_r|]. cbn [run_events run foldl].
    rewrite (cons_middle (e, t)), (assoc_L (++)). by apply IH, apply_seen. }
  assert (Hb : stall_budget d = Z.max budget 1).
  { subst d. unfold run_events. apply (run_invariant (fun d e => (apply d e.1 e.2).2) (fun d => stall_budget d = Z.max budget 1)); [|done].
    intros d0 [e0 t0] <-. unfold apply. destruct (terminal _); [done|]. by destruct (next _ _). }
  split_and!.
  - intros Hr. destruct (Hi es (with_stall_budget start budget) [] (seen_zero _)) as (l & Hl & Hf). fold d in Hf. rewrite Hr in Hf.
    pose proof (Forall2_length _ _ _ Hf) as Hlen. do 4 (destruct l as [|? l]; [done|]). destruct l; [|done]. repeat eexists; [exact Hl|exact Hf].
  - intros Ht. unfold apply, cancel, check_stall. by rewrite Ht.
  - intros err. unfold apply. destruct (terminal _); [done|]. by destruct (next _ _).
  - intros Ht. unfold check_stall. rewrite Ht, Hb. destruct (_ <? _) eqn:E; split; try (by intros [? ?]); bool_prop; [done|by eexists|lia].
  - subst d. clear Hi Hb. unfold run_events. induction es as [|[e' t] es IH] using rev_ind; [by left|].
    unfold run. rewrite foldl_app. cbn [foldl fst snd]. fold (run (fun d e => (apply d e.1 e.2).2) (with_stall_budget start budget) es).
    set (d := run _ _ es) in *. assert (H' : last_event_tick (apply d e' t).2 = t \/ last_event_tick (apply d e' t).2 = last_event_tick d).
    { unfold apply. destruct (terminal _); [by right|]. destruct (next _ _); [by left|by right]. }
    destruct H' as [-> | ->]; [right; exists e', t; split; [set_solver|done]|].
    destruct IH as [?|(e1 & t1 & ? & ?)]; [by left|]. right. exists e1, t1. split; [set_solver|done].
Qed.

(** The driver does not compare: a download may be declared complete with
    nothing of the manifest received, and a manifest may be smaller than what
    was received. *)
Lemma download_unchecked :
  phase (run_events (driver_new 0) [(QueuePosition 1, 1); (QueueAdmitted, 2); (Manifest 100, 3); (DownloadComplete, 4); (ResidencyReady, 5)]) = Ready /\
  phase (run_events (driver_new 0) [(QueuePosition 1, 1); (QueueAdmitted, 2); (ChunkArrived 10, 3); (Manifest 5, 4)]) = Downloading 10 5.
Proof. done. Qed.
End driver.
End Join.
