(* ===== verification/Game.v ===== *)
(** Game editions (crates/ald-game-editions/src/lib.rs, module [Editions]), the
    registry of known builds with the emergency policy
    (crates/ald-game-builds/src/lib.rs, [Builds]) and the game event router with
    its decoder registry (crates/ald-game-events/src/lib.rs, [Events]). *)
From S2P Require Import Prelude RustStr.

(** ** Editions *)
Module Editions.
Inductive game_edition := Legacy | Enhanced.
#[global] Instance game_edition_eq_dec : EqDecision game_edition.
Proof. solve_decision. Defined.
#[global] Instance game_edition_countable : Countable game_edition.
Proof. by refine (inj_countable' (fun e => match e with Legacy => true | Enhanced => false end) (fun b : bool => if b then Legacy else Enhanced) _); intros []. Defined.

Definition as_str (e : game_edition) : text := codes match e with Legacy => "legacy" | Enhanced => "enhanced" end.
Inductive edition_error := UnknownEdition (s : text).
Definition parse (s : text) : result game_edition edition_error :=
  let t := to_lower (trim_text s) in
  if bool_decide (t = as_str Legacy) then Ok Legacy else if bool_decide (t = as_str Enhanced) then Ok Enhanced else Err (UnknownEdition t).

Record edition_profile := EditionProfile { edition : game_edition; supported : bool; note : text }.
Definition unsupported (e : game_edition) (note : text) : edition_profile := EditionProfile e false note.
Definition supported_profile (e : game_edition) : edition_profile := EditionProfile e true [].

(** An edition is read from its identifier, in any case and with white space
    around it, and from nothing else. *)
Lemma parse_spec s e : parse s = Ok e <-> to_lower (trim_text s) = as_str e.
Proof.
  unfold parse. case_bool_decide as H1; [|case_bool_decide as H2].
  - rewrite H1. destruct e; split; try done; intros; by vm_compute in *.
  - rewrite H2. destruct e; split; try done; intros; by vm_compute in *.
  - split; [done|]. by destruct e.
Qed.
End Editions.
Import Editions.

(** ** Builds *)
Module Builds.
Record game_build := GameBuild { number : Z; b_edition : game_edition; min_astryn : text; blocked : option text; b_note : text }.
Inductive build_assessment :=
| Supported (build : game_build) | RequiresAstrynUpdate (build : game_build) (min_astryn : text)
| Blocked (build : game_build) (reason : text) | UnknownBuild (edition : game_edition) (number : Z)
| UnsupportedEdition (edition : game_edition) (note : text).
Definition admittable (a : build_assessment) : bool := match a with Supported _ => true | _ => false end.
Inductive build_error := BadAstrynVersion (v : text).

(** [str::parse::<u64>]. *)
Fixpoint parse_digits64 (acc : Z) (l : text) : option Z :=
  match l with
  | [] => Some acc
  | c :: l => if is_digit c && (acc * 10 + (c - 48) <=? u64_max) then parse_digits64 (acc * 10 + (c - 48)) l else None
  end.
Definition parse_u64 (l : text) : option Z :=
  match l with
  | [] => None
  | 43 :: l => if bool_decide (l = []) then None else parse_digits64 0 l
  | l => parse_digits64 0 l
  end.
Definition triple : Type := Z * Z * Z.
Definition parse_triple (s : text) : option triple :=
  match split_on 46 s with
  | [a; b; c] => major ← parse_u64 a; minor ← parse_u64 b; patch ← parse_u64 c; Some (major, minor, patch)
  | _ => None
  end.
(** The derived order of tuples. *)
Definition triple_le (x y : triple) : bool :=
  let '(a1, b1, c1) := x in let '(a2, b2, c2) := y in
  (a1 <? a2) || ((a1 =? a2) && ((b1 <? b2) || ((b1 =? b2) && (c1 <=? c2)))).

Record build_registry := BuildRegistry { builds : gmap (game_edition * Z) game_build; profiles : gmap game_edition edition_profile }.
Definition registry_new : build_registry := BuildRegistry ∅ ∅.
Definition set_profile (p : edition_profile) (r : build_registry) : build_registry := BuildRegistry (builds r) (<[edition p := p]> (profiles r)).
Definition add (b : game_build) (r : build_registry) : result unit build_error * build_registry :=
  if negb (bool_decide (min_astryn b = [])) && negb (bool_decide (is_Some (parse_triple (min_astryn b))))
  then (Err (BadAstrynVersion (min_astryn b)), r)
  else (Ok (), BuildRegistry (<[(b_edition b, number b) := b]> (builds r)) (profiles r)).
Definition build_count (r : build_registry) : nat := size (builds r).

(** [None] is the panic of the [expect]. *)
Definition assess (r : build_registry) (e : game_edition) (n : Z) (astryn_version : text) : option build_assessment :=
  match profiles r !! e with
  | None => Some (UnsupportedEdition e (codes "edition not declared"))
  | Some p =>
      if negb (supported p) then Some (UnsupportedEdition e (note p))
      else match builds r !! (e, n) with
      | None => Some (UnknownBuild e n)
      | Some b =>
          match blocked b with
          | Some reason => Some (Blocked b reason)
          | None =>
              if bool_decide (min_astryn b = []) then Some (Supported b)
              else
                min ← parse_triple (min_astryn b);
                Some match parse_triple astryn_version with
                     | Some client => if triple_le min client then Supported b else RequiresAstrynUpdate b (min_astryn b)
                     | None => RequiresAstrynUpdate b (min_astryn b)
                     end
          end
      end
  end.

Record emergency_pin := EmergencyPin { pin_edition : game_edition; allow_pin : bool; last_good_build : Z }.
Inductive pin_outcome :=
| Refused (edition : game_edition) (number : Z) (reason : text) | Pinned (edition : game_edition) (number as_build : Z) (warning : text).
Definition pin_warning (e : game_edition) (n as_build : Z) : text :=
  codes "Unrecognized " ++ as_str e ++ codes " build " ++ decimal n ++ codes "; running under last-known-good profile " ++ decimal as_build ++
  codes ". Update Aldivine for full support.".
Definition apply_emergency_policy (a : build_assessment) (pin : emergency_pin) (r : build_registry) : option pin_outcome :=
  match a with
  | UnknownBuild e n =>
      Some (if negb (allow_pin pin) || negb (bool_decide (pin_edition pin = e))
            then Refused e n (codes "Game build not recognized by this server.")
            else match builds r !! (e, last_good_build pin) with
            | Some _ => Pinned e n (last_good_build pin) (pin_warning e n (last_good_build pin))
            | None => Refused e n (codes "Game build not recognized and no safe fallback is configured.")
            end)
  | _ => None
  end.

(** *** The registry from its history *)
Inductive registry_op := SetProfile (p : edition_profile) | AddBuild (b : game_build).
Definition registry_step (r : build_registry) (o : registry_op) : build_registry :=
  match o with SetProfile p => set_profile p r | AddBuild b => (add b r).2 end.
Definition well_versioned (b : game_build) : bool := bool_decide (min_astryn b = []) || bool_decide (is_Some (parse_triple (min_astryn b))).
Definition profile_at (e : game_edition) (o : registry_op) : option edition_profile :=
  match o with SetProfile p => if bool_decide (edition p = e) then Some p else None | _ => None end.
Definition build_at (k : game_edition * Z) (o : registry_op) : option game_build :=
  match o with AddBuild b => if bool_decide ((b_edition b, number b) = k) && well_versioned b then Some b else None | _ => None end.
Definition latest {A} (f : registry_op -> option A) (ops : list registry_op) : option A := last (omap f ops).

Lemma latest_snoc {A} (f : registry_op -> option A) ops o : latest f (ops ++ [o]) = match f o with Some x => Some x | None => latest f ops end.
Proof. unfold latest. rewrite omap_app. cbn. destruct (f o); [apply last_snoc|by rewrite app_nil_r]. Qed.

Lemma add_spec b r : (add b r).2 = if well_versioned b then BuildRegistry (<[(b_edition b, number b) := b]> (builds r)) (profiles r) else r.
Proof. unfold add, well_versioned. by destruct (bool_decide (min_astryn b = [])), (bool_decide (is_Some (parse_triple (min_astryn b)))). Qed.

Lemma registry_history ops : let r := run registry_step registry_new ops in
  (forall e, profiles r !! e = latest (profile_at e) ops) /\ (forall k, builds r !! k = latest (build_at k) ops).
Proof.
  cbv zeta. induction ops as [|o ops [IH1 IH2]] using rev_ind; [done|]. rewrite run_app. cbn [run foldl]. fold (run registry_step registry_new ops).
  set (r := run registry_step registry_new ops) in *. setoid_rewrite latest_snoc. destruct o as [p|b]; cbn [registry_step profile_at build_at].
  - split; [|done]. intros e. cbn. destruct (decide (edition p = e)) as [->|]; [by rewrite lookup_insert_eq, bool_decide_true|].
    by rewrite lookup_insert_ne, bool_decide_false.
  - rewrite add_spec. destruct (well_versioned b); [|split; [done|]; intros k; rewrite andb_false_r; apply IH2].
    split; [done|]. intros k. rewrite andb_true_r. cbn. destruct (decide ((b_edition b, number b) = k)) as [->|]; [by rewrite lookup_insert_eq, bool_decide_true|].
    by rewrite lookup_insert_ne, bool_decide_false.
Qed.
Lemma latest_build k ops b : latest (build_at k) ops = Some b -> (b_edition b, number b) = k /\ well_versioned b = true.
Proof.
  unfold latest. intros Hl. apply last_Some_elem_of, list_elem_of_omap in Hl as (o & _ & Ho). destruct o as [|b']; [done|]. cbn in Ho.
  destruct (_ && _) eqn:E; [|done]. injection Ho as ->. apply andb_true_iff in E as [E ?]. by bool_prop.
Qed.

(** Whatever was registered, assessing never panics, and a client is
    admitted exactly when the profile declared last supports its edition, the
    entry accepted last for its exact build is not blocked, and its own version
    reads and is at least the one the entry asks for. The emergency policy
    speaks on unknown builds of a supported edition only, and pins exactly when
    the operator allowed it for the edition and the fallback is registered. *)
Theorem build_admission (ops : list registry_op) (e : game_edition) (n : Z) (version : text) (pin : emergency_pin) :
  let r := run registry_step registry_new ops in
  exists a, assess r e n version = Some a /\
  (admittable a = true <-> exists p b, latest (profile_at e) ops = Some p /\ supported p = true /\ latest (build_at (e, n)) ops = Some b /\ blocked b = None /\
     (min_astryn b = [] \/ exists min client, parse_triple (min_astryn b) = Some min /\ parse_triple version = Some client /\ triple_le min client = true)) /\
  (apply_emergency_policy a pin r <> None <-> exists p, latest (profile_at e) ops = Some p /\ supported p = true /\ latest (build_at (e, n)) ops = None) /\
  (forall e' n' b w, apply_emergency_policy a pin r = Some (Pinned e' n' b w) <->
     a = UnknownBuild e n /\ e' = e /\ n' = n /\ b = last_good_build pin /\ w = pin_warning e n b /\ allow_pin pin = true /\ pin_edition pin = e /\
     is_Some (latest (build_at (e, b)) ops)).
Proof.
  intros r. destruct (registry_history ops) as [Hp Hb]. fold r in Hp, Hb.
  set (unknown := exists p, latest (profile_at e) ops = Some p /\ supported p = true /\ latest (build_at (e, n)) ops = None).
  assert (Hsilent : forall a, match a with UnknownBuild _ _ => False | _ => True end -> ~ unknown ->
    (apply_emergency_policy a pin r <> None <-> unknown) /\
    (forall e' n' b w, apply_emergency_policy a pin r = Some (Pinned e' n' b w) <->
     a = UnknownBuild e n /\ e' = e /\ n' = n /\ b = last_good_build pin /\ w = pin_warning e n b /\ allow_pin pin = true /\ pin_edition pin = e /\
     is_Some (latest (build_at (e, b)) ops))).
  { intros a Ha Hu. assert (apply_emergency_policy a pin r = None) as -> by (by destruct a). split; [split; [by intros []|intros Hx; by destruct (Hu Hx)]|].
    intros e' n' b w. split; [done|]. by intros [-> _]. }
  unfold assess. rewrite Hp, Hb. destruct (latest (profile_at e) ops) as [p|] eqn:Ep.
  2:{ eexists. split; [done|]. split; [split; [done|by intros (p & b & [=] & _)]|]. apply Hsilent; [done|]. by intros (p & [=] & _). }
  destruct (supported p) eqn:Es; cbn [negb].
  2:{ eexists. split; [done|]. split; [split; [done|intros (p' & b & [= <-] & Hs & _); congruence]|]. apply Hsilent; [done|].
      intros (p' & [= <-] & Hs & _). congruence. }
  destruct (latest (build_at (e, n)) ops) as [b|] eqn:Eb.
  - assert (Hu : ~ unknown) by (by intros (p' & _ & _ & [=])). apply latest_build in Eb as Hw. destruct Hw as [_ Hw].
    destruct (blocked b) as [reason|] eqn:Ebl.
    { eexists. split; [done|]. split; [split; [done|intros (p' & b' & _ & _ & [= <-] & Hbl & _); congruence]|by apply Hsilent]. }
    case_bool_decide as Hm; [eexists; split; [done|]; split; [split; [|done]; intros _; exists p, b; split_and!; try done; by left|by apply Hsilent]|].
    unfold well_versioned in Hw. rewrite bool_decide_false in Hw by done. cbn [orb] in Hw. apply bool_decide_eq_true in Hw as [min Hmin]. rewrite Hmin. cbn [mbind option_bind].
    eexists. split; [done|]. split; [|apply Hsilent; [|done]; destruct (parse_triple version); [|done]; by destruct (triple_le _ _)].
    destruct (parse_triple version) as [client|] eqn:Ev; [destruct (triple_le min client) eqn:El|].
    + split; [|done]. intros _. exists p, b. split_and!; try done. right. by exists min, client.
    + split; [done|]. intros (p' & b' & _ & _ & [= <-] & _ & [?|(m & c & H1 & [= <-] & H3)]); [done|]. rewrite Hmin in H1. injection H1 as <-. congruence.
    + split; [done|]. intros (p' & b' & _ & _ & [= <-] & _ & [?|(m & c & _ & [=] & _)]). done.
  - eexists. split; [done|]. split; [split; [done|by intros (p' & b & _ & _ & [=] & _)]|]. cbn [apply_emergency_policy].
    split; [split; [intros _; by exists p|done]|]. intros e' n' b w.
    destruct (allow_pin pin); cbn [negb orb]; [|split; [done|by intros (_ & _ & _ & _ & _ & [=] & _)]].
    case_bool_decide as He; cbn [negb]; [|split; [done|by intros (_ & _ & _ & _ & _ & _ & ? & _)]]. rewrite Hb.
    destruct (latest (build_at (e, last_good_build pin)) ops) eqn:El; [|split; [done|]; intros (_ & _ & _ & -> & _ & _ & _ & [? Hx]); congruence].
    split; [intros [= <- <- <- <-]; split_and!; try done; rewrite El; by eexists|]. by intros (_ & -> & -> & -> & -> & _).
Qed.

(** The fallback is only looked up: it may be blocked, or ask for a newer
    client. *)
Lemma pinned_to_blocked :
  let bad := GameBuild 1 Enhanced (codes "9.0.0") (Some (codes "crash")) [] in
  let r := run registry_step registry_new [SetProfile (supported_profile Enhanced); AddBuild bad] in
  assess r Enhanced 1 (codes "1.0.0") = Some (Blocked bad (codes "crash")) /\
  apply_emergency_policy (UnknownBuild Enhanced 2) (EmergencyPin Enhanced true 1) r = Some (Pinned Enhanced 2 1 (pin_warning Enhanced 2 1)).
Proof. split; vm_compute; reflexivity. Qed.
End Builds.

(** ** Events *)
Module Events.
Definition MAX_PAYLOAD_LEN : Z := 64 * 1024.
Definition KNOWN_EVENTS : list text :=
  codes <$> ["gameEventTriggered"; "entityDamaged"; "populationTick"; "resourceLifecycle"; "bucketChanged"; "entityCreated"; "entityDestroyed"]%string.
Definition known (name : text) : bool := bool_decide (name ∈ KNOWN_EVENTS).
Record envelope := Envelope { name : text; producer : Z; seq : Z; payload : list Z }.
Inductive router_error :=
| UnknownEvent (name : text) | PayloadTooLarge (n : Z) | NoSuchSubscription | DuplicateDecoder (edition : game_edition) (build : Z) (event : text).
Definition envelope_new (name : text) (producer seq : Z) (payload : list Z) : result envelope router_error :=
  if negb (known name) then Err (UnknownEvent name)
  else if MAX_PAYLOAD_LEN <? Z.of_nat (length payload) then Err (PayloadTooLarge (Z.of_nat (length payload)))
  else Ok (Envelope name producer seq payload).

Inductive decoder_slot := Exact | EditionDefault | Unregistered.
Record decoder_registry := DecoderRegistry { exact : gmap (game_edition * Z * text) text; edition_default : gmap (game_edition * text) text }.
Definition decoders_new : decoder_registry := DecoderRegistry ∅ ∅.
Definition register_exact (d : decoder_registry) (e : game_edition) (build : Z) (event evidence : text) : result unit router_error * decoder_registry :=
  if negb (known event) then (Err (UnknownEvent event), d)
  else if bool_decide (is_Some (exact d !! (e, build, event))) then (Err (DuplicateDecoder e build event), d)
  else (Ok (), DecoderRegistry (<[(e, build, event) := evidence]> (exact d)) (edition_default d)).
Definition register_edition_default (d : decoder_registry) (e : game_edition) (event evidence : text) : result unit router_error * decoder_registry :=
  if negb (known event) then (Err (UnknownEvent event), d)
  else (Ok (), DecoderRegistry (exact d) (<[(e, event) := evidence]> (edition_default d))).
Definition resolve (d : decoder_registry) (e : game_edition) (build : Z) (event : text) : decoder_slot :=
  if bool_decide (is_Some (exact d !! (e, build, event))) then Exact
  else if bool_decide (is_Some (edition_default d !! (e, event))) then EditionDefault else Unregistered.
Definition evidence (d : decoder_registry) (e : game_edition) (build : Z) (event : text) : option text :=
  match exact d !! (e, build, event) with Some x => Some x | None => edition_default d !! (e, event) end.

(** A slot resolves as its evidence says, and certified evidence is never
    replaced. *)
Lemma resolve_evidence d e build event : resolve d e build event = Unregistered <-> evidence d e build event = None.
Proof.
  unfold resolve, evidence. destruct (exact d !! _) eqn:E1; [rewrite bool_decide_true by (by eexists); done|]. rewrite bool_decide_false by (by intros [? [=]]).
  destruct (edition_default d !! _) eqn:E2; [rewrite bool_decide_true by (by eexists); done|]. by rewrite bool_decide_false by (by intros [? [=]]).
Qed.
Lemma exact_kept d e build event x e' build' event' x' : exact d !! (e, build, event) = Some x ->
  exact (register_exact d e' build' event' x').2 !! (e, build, event) = Some x /\ exact (register_edition_default d e' event' x').2 !! (e, build, event) = Some x.
Proof.
  intros Hx. split.
  - unfold register_exact. destruct (known event'); [|done]. cbn [negb]. case_bool_decide as Hd; [done|]. cbn [snd exact].
    rewrite lookup_insert_ne; [done|]. intros [= -> -> ->]. apply Hd. by eexists.
  - unfold register_edition_default. by destruct (known event').
Qed.

(** *** The router *)
(** A handler is the id of its subscription; [publish] says which ones it calls,
    in order. *)
Record router := Router { subs : gmap Z text; next_sub : Z; last_seq : gmap Z Z; delivered : Z; dropped_replay : Z }.
Definition router_new : router := Router ∅ 0 ∅ 0 0.
Definition subscribe (r : router) (event : text) : result Z router_error * router :=
  if negb (known event) then (Err (UnknownEvent event), r)
  else (Ok (next_sub r), Router (<[next_sub r := event]> (subs r)) (wrap 64 (next_sub r + 1)) (last_seq r) (delivered r) (dropped_replay r)).
Definition unsubscribe (r : router) (id : Z) : result unit router_error * router :=
  match subs r !! id with
  | Some _ => (Ok (), Router (delete id (subs r)) (next_sub r) (last_seq r) (delivered r) (dropped_replay r))
  | None => (Err NoSuchSubscription, r)
  end.
Definition seq_is_newer (a b : Z) : bool := negb (a =? b) && (wrap 32 (a - b) <? 2 ^ 31).
Definition handlers (r : router) (event : text) : list Z :=
  List.filter (fun id => bool_decide (subs r !! id = Some event)) (merge_sort Z.le (elements (dom (subs r)))).
Definition publish (r : router) (e : envelope) : list Z * router :=
  if match last_seq r !! producer e with Some last => negb (seq_is_newer (seq e) last) | None => false end
  then ([], Router (subs r) (next_sub r) (last_seq r) (delivered r) (wrap 64 (dropped_replay r + 1)))
  else (handlers r (name e), Router (subs r) (next_sub r) (<[producer e := seq e]> (last_seq r)) (wrap 64 (delivered r + 1)) (dropped_replay r)).

Inductive router_op := Subscribe (event : text) | Unsubscribe (id : Z) | Publish (e : envelope).
(** A run with the envelopes delivered. *)
Definition fresh (r : router) (e : envelope) : bool :=
  match last_seq r !! producer e with Some last => seq_is_newer (seq e) last | None => true end.
Definition router_step (st : router * list envelope) (o : router_op) : router * list envelope :=
  match o with
  | Subscribe ev => ((subscribe st.1 ev).2, st.2)
  | Unsubscribe id => ((unsubscribe st.1 id).2, st.2)
  | Publish e => ((publish st.1 e).2, if fresh st.1 e then st.2 ++ [e] else st.2)
  end.
Definition of_producer (p : Z) (l : list envelope) : list envelope := List.filter (fun e => producer e =? p) l.
Definition wf_op (o : router_op) : Prop := match o with Publish e => fits 32 (seq e) | _ => True end.
Definition published (o : router_op) : bool := match o with Publish _ => true | _ => false end.

(** Positions of a producer's deliveries on the unbounded line. *)
Definition unwraps (pos : list Z) (l : list envelope) : Prop :=
  StronglySorted Z.lt pos /\ Forall2 (fun q e => wrap 32 q = seq e) pos l /\ (forall i a b, pos !! i = Some a -> pos !! S i = Some b -> b - a < 2 ^ 31).

Lemma unwraps_snoc pos l e : unwraps pos l -> fits 32 (seq e) -> (forall d, last l = Some d -> seq_is_newer (seq e) (seq d) = true) ->
  exists q, unwraps (pos ++ [q]) (l ++ [e]).
Proof.
  intros (Hs & Hf & Hg) He Hn. destruct (last pos) as [q|] eqn:El.
  - apply last_Some in El as [pos' ->]. apply Forall2_app_inv_l in Hf as (l' & l2 & Hf1 & Hf2 & ->). inversion Hf2 as [|? d ? ? Hd Hnil]; subst; inversion Hnil; subst.
    specialize (Hn d (last_snoc _ _)). unfold seq_is_newer in Hn. apply andb_true_iff in Hn as [Hne Hlt]. bool_prop.
    exists (q + wrap 32 (seq e - seq d)). pose proof (Z.mod_pos_bound (seq e - seq d) (2 ^ 32) ltac:(lia)) as Hm. unfold wrap in *.
    assert (Hpos : 0 < (seq e - seq d) mod 2 ^ 32).
    { destruct (Z.eq_dec ((seq e - seq d) mod 2 ^ 32) 0) as [Hz|]; [|lia]. exfalso. apply Z.mod_divide in Hz as [k Hk]; [|lia].
      unfold fits in He. assert (0 <= seq d < 2 ^ 32) by (rewrite <- Hd; apply Z.mod_pos_bound; lia). assert (k = 0) by nia. lia. }
    split_and!.
    + rewrite StronglySorted_app. split_and!; [|done|repeat constructor]. intros x1 x2 H1 ->%list_elem_of_singleton.
      assert (x1 <= q); [|lia]. apply elem_of_app in H1 as [H1| ->%list_elem_of_singleton]; [|done].
      apply StronglySorted_app in Hs as (Hs & _ & _). specialize (Hs x1 q H1 ltac:(set_solver)). lia.
    + apply Forall2_app; [by apply Forall2_app; [|constructor]|]. constructor; [|constructor]. unfold wrap in *. rewrite Zplus_mod_idemp_r, <- Hd, (Z.mod_eq q) by lia.
      replace (q + (seq e - (q - 2 ^ 32 * (q / 2 ^ 32)))) with (seq e + q / 2 ^ 32 * 2 ^ 32) by lia. rewrite Z.mod_add by lia. by apply Z.mod_small.
    + intros i a b Ha Hb. destruct (decide (S i < length (pos' ++ [q]))%nat) as [Hi|Hi].
      * rewrite lookup_app_l in Ha, Hb by lia. by eapply Hg.
      * apply lookup_lt_Some in Hb as Hb'. rewrite length_app in Hb'. cbn in Hb'. rewrite lookup_app_r in Hb by lia.
        replace (S i - length (pos' ++ [q]))%nat with 0%nat in Hb by lia. injection Hb as <-.
        rewrite lookup_app_l in Ha by lia. rewrite length_app in Hi. cbn in Hi. rewrite lookup_app_r in Ha by (rewrite length_app in *; cbn in *; lia).
        replace (i - length pos')%nat with 0%nat in Ha by (rewrite length_app in *; cbn in *; lia). injection Ha as <-. lia.
  - apply last_None in El as ->. apply Forall2_nil_inv_l in Hf as ->. exists (seq e). split_and!; [repeat constructor| |].
    + repeat constructor. by apply wrap_small.
    + intros i a b Ha Hb. by destruct i.
Qed.

Lemma router_step_snd st o : (router_step st o).2 = match o with Publish e => if fresh st.1 e then st.2 ++ [e] else st.2 | _ => st.2 end.
Proof. by destruct o. Qed.
Lemma publish_spec r e : publish r e = if fresh r e
  then (handlers r (name e), Router (subs r) (next_sub r) (<[producer e := seq e]> (last_seq r)) (wrap 64 (delivered r + 1)) (dropped_replay r))
  else ([], Router (subs r) (next_sub r) (last_seq r) (delivered r) (wrap 64 (dropped_replay r + 1))).
Proof. unfold publish, fresh. destruct (last_seq r !! producer e); [|done]. by destruct (seq_is_newer _ _). Qed.

Record routed (n : Z) (st : router * list envelope) : Prop := {
  routed_pos : forall p, exists pos, unwraps pos (of_producer p st.2);
  routed_last : forall p, last_seq st.1 !! p = seq <$> last (of_producer p st.2);
  routed_delivered : delivered st.1 = wrap 64 (Z.of_nat (length st.2));
  routed_dropped : wrap 64 (delivered st.1 + dropped_replay st.1) = wrap 64 n }.

Lemma of_producer_snoc p l e : of_producer p (l ++ [e]) = if producer e =? p then of_producer p l ++ [e] else of_producer p l.
Proof. unfold of_producer. rewrite List.filter_app. cbn. destruct (producer e =? p); [done|by rewrite app_nil_r]. Qed.

Lemma router_step_routed n st o : wf_op o -> routed n st -> routed (if published o then n + 1 else n) (router_step st o).
Proof.
  intros Hwf Hr. destruct o as [ev|id|e]; cbn [published].
  - destruct Hr as [H1 H2 H3 H4]. cbn. unfold subscribe. destruct (known ev); split; done.
  - destruct Hr as [H1 H2 H3 H4]. cbn. unfold unsubscribe. destruct (subs st.1 !! id); split; done.
  - cbn [router_step]. rewrite publish_spec. destruct Hr as [H1 H2 H3 H4]. destruct (fresh st.1 e) eqn:Ef; cbn [fst snd].
    + split; cbn [fst snd last_seq delivered dropped_replay].
      * intros p. rewrite of_producer_snoc. destruct (Z.eqb_spec (producer e) p) as [<-|]; [|apply H1]. destruct (H1 (producer e)) as [pos Hp].
        destruct (unwraps_snoc pos _ e Hp Hwf) as [q Hq]; [|by exists (pos ++ [q])].
        intros d Hd. unfold fresh in Ef. by rewrite H2, Hd in Ef.
      * intros p. rewrite of_producer_snoc. destruct (Z.eqb_spec (producer e) p) as [<-|Hne]; [by rewrite lookup_insert_eq, last_snoc|].
        by rewrite lookup_insert_ne.
      * rewrite H3, length_app. unfold wrap. cbn [length]. rewrite Zplus_mod_idemp_l. f_equal. lia.
      * revert H4. unfold wrap. rewrite !Zplus_mod_idemp_l. intros H4. replace (delivered st.1 + 1 + dropped_replay st.1) with (delivered st.1 + dropped_replay st.1 + 1) by lia.
        by rewrite <- Zplus_mod_idemp_l, H4, Zplus_mod_idemp_l.
    + split; cbn [fst snd last_seq delivered dropped_replay]; [done|done|done|]. revert H4. unfold wrap. rewrite Zplus_mod_idemp_r. intros H4. rewrite Z.add_assoc.
      by rewrite <- Zplus_mod_idemp_l, H4, Zplus_mod_idemp_l.
Qed.
Definition n_published (ops : list router_op) : Z := Z.of_nat (length (List.filter published ops)).
Lemma run_routed ops : Forall wf_op ops -> routed (n_published ops) (run router_step (router_new, []) ops).
Proof.
  induction ops as [|o ops IH] using rev_ind; intros Hops.
  - split; cbn; [|done|done|done]. intros p. exists []. split_and!; [constructor|constructor|done].
  - apply Forall_app in Hops as [Hops Ho]. apply Forall_cons_1 in Ho as [Ho _]. rewrite run_app. cbn [run foldl]. pose proof (router_step_routed _ _ o Ho (IH Hops)) as Hs.
    fold (run router_step (router_new, []) ops). assert (n_published (ops ++ [o]) = if published o then n_published ops + 1 else n_published ops) as ->; [|done].
    unfold n_published. rewrite List.filter_app, length_app. cbn. destruct (published o); cbn; lia.
Qed.

(** An envelope is delivered exactly when its producer has delivered none
    or only older ones in the wrap-around order; then the handlers subscribed to
    its name run, each once, in the order of subscription, and otherwise none.
    So the deliveries of a producer are in order and none is repeated: on the
    unbounded line their positions increase, by less than half of the sequence
    space each. Every publication is counted, as delivered or as dropped. *)
Theorem router_delivers (ops : list router_op) (e : envelope) : Forall wf_op ops ->
  let '(r, log) := run router_step (router_new, []) ops in
  (forall p, exists pos, unwraps pos (of_producer p log)) /\
  (fresh r e = true <-> forall d, last (of_producer (producer e) log) = Some d -> seq_is_newer (seq e) (seq d) = true) /\
  (publish r e).1 = (if fresh r e then handlers r (name e) else []) /\
  (forall id, id ∈ handlers r (name e) <-> subs r !! id = Some (name e)) /\ StronglySorted Z.lt (handlers r (name e)) /\
  delivered r = wrap 64 (Z.of_nat (length log)) /\ wrap 64 (delivered r + dropped_replay r) = wrap 64 (n_published ops).
Proof.
  intros Hops. pose proof (run_routed ops Hops) as [H1 H2 H3 H4]. destruct (run router_step _ ops) as [r log]. cbn [fst snd] in *. split_and!; [done| | | | |done|done].
  - unfold fresh. rewrite H2. destruct (last (of_producer _ log)) as [d|]; cbn; split; [by intros ? ? [= <-]|intros Hd; by apply Hd|done|done].
  - rewrite publish_spec. by destruct (fresh r e).
  - intros id. unfold handlers. rewrite list_elem_of_In, List.filter_In, <- list_elem_of_In, merge_sort_Permutation, elem_of_elements, elem_of_dom.
    split; [intros [_ Hb]; by bool_prop|]. intros Hs. split; [by eexists|by apply bool_decide_eq_true].
  - unfold handlers. set (l := merge_sort Z.le _). assert (Hl : StronglySorted Z.lt l).
    { assert (Hs : StronglySorted Z.le l) by apply (StronglySorted_merge_sort Z.le). assert (Hd : NoDup l) by (unfold l; rewrite merge_sort_Permutation; apply NoDup_elements).
      clearbody l. induction Hs as [|x l Hs IH Hx]; [constructor|]. apply NoDup_cons in Hd as [Hn Hd]. constructor; [by apply IH|].
      rewrite Forall_forall in *. intros y Hy. specialize (Hx y Hy). assert (x <> y) by (by intros ->). lia. }
    clearbody l. induction Hl as [|x l Hl IH Hx]; [constructor|]. cbn. destruct (bool_decide _); [|done]. constructor; [done|].
    rewrite Forall_forall in *. intros y Hy. apply Hx. apply list_elem_of_In, List.filter_In in Hy as [Hy _]. by apply list_elem_of_In.
Qed.

Definition demo (s : Z) : envelope := Envelope (codes "bucketChanged") 7 s [].
Lemma router_delivers_witness :
  let '(r, log) := run router_step (router_new, []) [Subscribe (codes "bucketChanged"); Publish (demo 4294967295); Publish (demo 0); Publish (demo 4294967295)] in
  seq <$> of_producer 7 log = [4294967295; 0] /\ wrap 64 (delivered r + dropped_replay r) = 3.
Proof.
  pose proof (router_delivers [Subscribe (codes "bucketChanged"); Publish (demo 4294967295); Publish (demo 0); Publish (demo 4294967295)] (demo 1)
    ltac:(repeat constructor; by_decide)) as H.
  set (x := run _ _ _) in *. assert (Hx : seq <$> of_producer 7 x.2 = [4294967295; 0]) by (vm_compute; reflexivity). clearbody x. destruct x as [r log].
  split; [exact Hx|]. destruct H as (_ & _ & _ & _ & _ & _ & H). exact H.
Defined.

(** A publication that another one overtook counts as a replay: it is dropped
    although it was never delivered. *)
Lemma overtaken_dropped : (run router_step (router_new, []) [Publish (demo 1); Publish (demo 3); Publish (demo 2)]).2 = [demo 1; demo 3].
Proof. vm_compute. reflexivity. Qed.
End Events.
