(* ===== verification/Security.v ===== *)
(** The guards of crates/ald-security/src/lib.rs: redaction of log lines
    ([Redactor]), the filter of outbound addresses ([Ssrf]), the movement and
    health checks ([AntiCheat]), the event token bucket ([Ddos]) and the list of
    allowed client builds ([Integrity]). [f32] is the binary32 format of the
    Standard Library's [SpecFloat]. *)
From Stdlib Require Import Floats.SpecFloat.
From S2P Require Import Prelude RustStr Cidr Ip.

(** ** Log lines *)
Module Redactor.
Definition REDACTED : text := codes "***REDACTED***".
Definition patterns : list text :=
  codes <$> ["access_token"; "refresh_token"; "authorization"; "session_cookie"; "password"; "db_password"; "secret"; "api_key"]%string.
(** [str::find] of a text. *)
Fixpoint find (p l : text) : option nat :=
  if starts_with p l then Some 0%nat else match l with [] => None | _ :: l => S <$> find p l end.
(** One form of a key: the value between the first occurrence and the next quote. *)
Definition redact_form (kv out : text) : text :=
  match find kv out with
  | None => out
  | Some pos =>
      let start := (pos + length kv)%nat in
      match position (fun c => c =? 34) (drop start out) with
      | None => out
      | Some stop => take start out ++ REDACTED ++ drop (start + stop) out
      end
  end.
Definition forms (key : text) : list text := [key ++ [61; 34]; key ++ [58; 32; 34]].
Definition redact (line : text) : text := foldl (fun out kv => redact_form kv out) line (patterns ≫= forms).

Lemma find_Some p l n : find p l = Some n <-> starts_with p (drop n l) = true /\ (n <= length l)%nat /\ forall m, (m < n)%nat -> starts_with p (drop m l) = false.
Proof.
  revert n. induction l as [|c l IH]; intros n; cbn [find].
  - destruct (starts_with p []) eqn:E; split.
    + intros [= <-]. split_and!; [done|cbn; lia|lia].
    + intros (H & Hn & Hm). cbn in Hn. by replace n with 0%nat by lia.
    + done.
    + intros (H & Hn & Hm). cbn in Hn. replace n with 0%nat in H by lia. cbn in H. congruence.
  - destruct (starts_with p (c :: l)) eqn:E; split.
    + intros [= <-]. split_and!; [done|lia|lia].
    + intros (H & Hn & Hm). destruct n as [|n]; [done|]. specialize (Hm 0%nat ltac:(lia)). cbn in Hm. congruence.
    + intros (m & Hm & ->)%fmap_Some. apply IH in Hm as (H1 & H2 & H3). split_and!; [done|cbn; lia|]. intros [|k] Hk; [done|]. apply H3. lia.
    + intros (H & Hn & Hm). destruct n as [|n]; [cbn in H; congruence|]. apply fmap_Some. exists n. split; [|done]. apply IH. cbn in H, Hn.
      split_and!; [done|lia|]. intros k Hk. apply (Hm (S k)). lia.
Qed.

(** One form replaces the value after its first occurrence and nothing else; a
    line without the form, or whose value has no closing quote, stays. *)
Lemma redact_form_spec kv a v b : find kv (a ++ kv ++ v ++ 34 :: b) = Some (length a) -> 34 ∉ v ->
  redact_form kv (a ++ kv ++ v ++ 34 :: b) = a ++ kv ++ REDACTED ++ 34 :: b.
Proof.
  intros Hf Hv. unfold redact_form. rewrite Hf. rewrite <- length_app, !(assoc_L (++) a kv), drop_app_length, take_app_length.
  assert (Hp : position (fun c => c =? 34) (v ++ 34 :: b) = Some (length v)).
  { clear Hf. induction v as [|c v IH]; [done|]. apply not_elem_of_cons in Hv as [Hc Hv]. cbn. rewrite (proj2 (Z.eqb_neq _ _)) by done. by rewrite IH. }
  rewrite Hp. rewrite <- !(assoc_L (++)). do 2 f_equal. rewrite <- drop_drop, !(assoc_L (++) a kv), drop_app_length, drop_app_length. done.
Qed.

(** The filter knows two spellings and looks once for each: a second value, a
    JSON member and a single-quoted value stay in the line. *)
Lemma redact_gaps :
  redact (codes "password=" ++ 34 :: codes "a" ++ 34 :: codes " password=" ++ 34 :: codes "hunter2" ++ [34]) =
    codes "password=" ++ 34 :: REDACTED ++ 34 :: codes " password=" ++ 34 :: codes "hunter2" ++ [34] /\
  (let json := codes "{" ++ 34 :: codes "password" ++ 34 :: codes ": " ++ 34 :: codes "hunter2" ++ 34 :: codes "}" in redact json = json) /\
  redact (codes "password='hunter2' token=abc") = codes "password='hunter2' token=abc".
Proof. split_and!; vm_compute; reflexivity. Qed.
End Redactor.

(** ** Outbound addresses *)
Module Ssrf.
Inductive ssrf_error := InvalidUrl (url : text) | DisallowedScheme (url : text) | BlockedHost (host : text).
Definition octet (i n : Z) : Z := Z.land (Z.shiftr n (8 * (3 - i))) 255.
Definition is_blocked_ip (ip : ip_addr) : bool :=
  match ip with
  | V4 n =>
      let o := fun i => octet i n in
      (o 0 =? 127) || (o 0 =? 10) || ((o 0 =? 172) && (16 <=? o 1) && (o 1 <=? 31)) || ((o 0 =? 192) && (o 1 =? 168)) ||
      ((o 0 =? 169) && (o 1 =? 254)) || (o 0 =? 0)
  | V6 bytes => bool_decide (bytes = replicate 15 0 ++ [1])
  end.
Definition ends_with (s l : text) : bool := starts_with (rev s) (rev l).
Definition host_end (c : Z) : bool := (c =? 47) || (c =? 63) || (c =? 35) || (c =? 58).
Definition http : text := codes "http://".
Definition https : text := codes "https://".
Definition strip_prefix (p l : text) : option text := if starts_with p l then Some (drop (length p) l) else None.
Definition validate_url (url : text) : result unit ssrf_error :=
  if negb (starts_with http url) && negb (starts_with https url) then Err (DisallowedScheme url)
  else match match strip_prefix https url with Some r => Some r | None => strip_prefix http url end with
  | None => Err (InvalidUrl url)
  | Some after_scheme =>
      let host := to_lower (fst (span (fun c => negb (host_end c)) after_scheme)) in
      if bool_decide (host = codes "localhost") || ends_with (codes ".local") host || ends_with (codes ".internal") host then Err (BlockedHost host)
      else match parse_ip host with
      | Some ip => if is_blocked_ip ip then Err (BlockedHost (ip_text ip)) else Ok ()
      | None => Ok ()
      end
  end.

(** The ranges as intervals of addresses. *)
Definition in_range (n : Z) (base prefix : Z) : Prop := base * 2 ^ (32 - prefix) <= n < (base + 1) * 2 ^ (32 - prefix).
Definition private (ip : ip_addr) : Prop :=
  match ip with
  | V4 n => in_range n 127 8 \/ in_range n 10 8 \/ in_range n 0 8 \/ in_range n (172 * 16 + 1) 12 \/ in_range n (192 * 256 + 168) 16 \/ in_range n (169 * 256 + 254) 16
  | V6 bytes => bytes = replicate 15 0 ++ [1]
  end.
Lemma octets_val n : fits 32 n -> octet 0 n = n / 2 ^ 24 /\ octet 1 n = n / 2 ^ 16 mod 2 ^ 8.
Proof.
  intros Hn. unfold octet, fits in *. rewrite !Z.shiftr_div_pow2 by lia. change 255 with (Z.ones 8). rewrite !Z.land_ones by lia.
  change (8 * (3 - 0)) with 24. change (8 * (3 - 1)) with 16. split; [|done]. apply Z.mod_small. split; [apply Z.div_pos; lia|]. apply Z.div_lt_upper_bound; lia.
Qed.
Lemma is_blocked_ip_spec ip : wf_ip ip -> is_blocked_ip ip = true <-> private ip.
Proof.
  destruct ip as [n|bytes]; cbn [wf_ip is_blocked_ip private]; [|by intros _; rewrite bool_decide_eq_true].
  intros Hn. destruct (octets_val n Hn) as [-> ->]. unfold in_range, fits in *.
  assert (Hq : n / 2 ^ 16 mod 2 ^ 8 = n / 2 ^ 16 - 2 ^ 8 * (n / 2 ^ 24)).
  { rewrite Z.mod_eq by lia. rewrite Z.div_div by lia. done. }
  rewrite Hq. pose proof (Z.div_mod n (2 ^ 16) ltac:(lia)). pose proof (Z.mod_pos_bound n (2 ^ 16) ltac:(lia)).
  pose proof (Z.div_mod n (2 ^ 24) ltac:(lia)). pose proof (Z.mod_pos_bound n (2 ^ 24) ltac:(lia)). clear Hq.
  rewrite !orb_true_iff, !andb_true_iff, !Z.eqb_eq, !Z.leb_le. lia.
Qed.

(** The host part of an address with one of the two schemes. *)
Definition host_of (rest : text) : text := to_lower (fst (span (fun c => negb (host_end c)) rest)).
Lemma strip_prefix_Some p l r : strip_prefix p l = Some r <-> l = p ++ r.
Proof.
  unfold strip_prefix. destruct (starts_with p l) eqn:E.
  - unfold starts_with in E. apply bool_decide_eq_true in E. split.
    + intros [= <-]. rewrite <- (take_drop (length p) l) at 1. by rewrite <- E.
    + intros ->. by rewrite drop_app_length.
  - split; [done|]. intros ->. unfold starts_with in E. rewrite take_app_length, bool_decide_true in E by done. done.
Qed.

(** A request is let through exactly when its address has the scheme http or
    https, and its host part is none of the local names and does not read as an
    address of a private range; which other texts lead to such an address is not
    looked at ([ssrf_gaps]). *)
Theorem validate_url_spec (url : text) : validate_url url = Ok () <->
  exists rest, (url = https ++ rest \/ url = http ++ rest) /\
    host_of rest <> codes "localhost" /\ ends_with (codes ".local") (host_of rest) = false /\ ends_with (codes ".internal") (host_of rest) = false /\
    forall ip, parse_ip (host_of rest) = Some ip -> ~ private ip.
Proof.
  assert (Hmain : forall rest, (if bool_decide (host_of rest = codes "localhost") || ends_with (codes ".local") (host_of rest) || ends_with (codes ".internal") (host_of rest)
      then Err (BlockedHost (host_of rest))
      else match parse_ip (host_of rest) with Some ip => if is_blocked_ip ip then Err (BlockedHost (ip_text ip)) else Ok () | None => Ok () end) = Ok () <->
    host_of rest <> codes "localhost" /\ ends_with (codes ".local") (host_of rest) = false /\ ends_with (codes ".internal") (host_of rest) = false /\
    forall ip, parse_ip (host_of rest) = Some ip -> ~ private ip).
  { intros rest. case_bool_decide as Hl; [split; [done|by intros [? _]]|]. cbn [orb]. destruct (ends_with _ _); [split; [done|by intros (_ & ? & _)]|].
    cbn [orb]. destruct (ends_with _ _); [split; [done|by intros (_ & _ & ? & _)]|].
    destruct (parse_ip (host_of rest)) as [ip|] eqn:Ep; [|split; [by intros _|done]].
    pose proof (is_blocked_ip_spec ip (parse_ip_wf _ _ Ep)) as Hb. destruct (is_blocked_ip ip).
    - split; [done|]. intros (_ & _ & _ & Hp). destruct (Hp ip eq_refl). by apply Hb.
    - split; [|done]. intros _. split_and!; try done. intros ip' [= <-] Hp. by apply Hb in Hp. }
  assert (Hboth : forall r r', ~ (https ++ r = http ++ r')) by (intros r r'; cbn; by intros [=]).
  unfold validate_url. destruct (starts_with http url) eqn:E1, (starts_with https url) eqn:E2; cbn [negb andb];
    unfold strip_prefix; rewrite ?E1, ?E2.
  - exfalso. assert (Ha : strip_prefix http url = Some (drop (length http) url)) by (unfold strip_prefix; by rewrite E1).
    assert (Hb : strip_prefix https url = Some (drop (length https) url)) by (unfold strip_prefix; by rewrite E2).
    apply strip_prefix_Some in Ha, Hb. eapply Hboth. by rewrite <- Hb.
  - cbv zeta. fold (host_of (drop (length http) url)). rewrite Hmain. split.
    + intros H. exists (drop (length http) url). split; [|done]. right. apply strip_prefix_Some. unfold strip_prefix. by rewrite E1.
    + intros (rest & [Hu|Hu] & H); [apply strip_prefix_Some in Hu; unfold strip_prefix in Hu; by rewrite E2 in Hu|]. by rewrite Hu, drop_app_length.
  - cbv zeta. fold (host_of (drop (length https) url)). rewrite Hmain. split.
    + intros H. exists (drop (length https) url). split; [|done]. left. apply strip_prefix_Some. unfold strip_prefix. by rewrite E2.
    + intros (rest & [Hu|Hu] & H); [by rewrite Hu, drop_app_length|]. apply strip_prefix_Some in Hu. unfold strip_prefix in Hu. by rewrite E1 in Hu.
  - split; [done|]. intros (rest & [Hu|Hu] & _); apply strip_prefix_Some in Hu; unfold strip_prefix in Hu; [by rewrite E2 in Hu|by rewrite E1 in Hu].
Qed.

(** A user name before the address, a numeric host in another notation and a
    bracketed loopback all pass, with the address they lead to blocked. *)
Lemma ssrf_gaps :
  validate_url (codes "http://127.0.0.1/") = Err (BlockedHost (codes "127.0.0.1")) /\
  validate_url (codes "http://user@127.0.0.1/") = Ok () /\ validate_url (codes "http://2130706433/") = Ok () /\
  validate_url (codes "http://[::1]/") = Ok () /\ validate_url (codes "http://localhost./") = Ok ().
Proof. split_and!; vm_compute; reflexivity. Qed.
End Ssrf.

(** ** Movement and health *)
Module AntiCheat.
(** Casts: [n as f32] rounds to nearest even, [f as uN] and [f as i32] truncate
    and saturate, and NaN is 0. *)
Definition of_z (n : Z) : spec_float := binary_normalize 24 128 n 0 false.
Definition as_int (lo hi : Z) (f : spec_float) : Z :=
  match f with
  | S754_zero _ | S754_nan => 0
  | S754_infinity s => if s : bool then lo else hi
  | S754_finite s m e =>
      let v := if 0 <=? e then Z.pos m * 2 ^ e else Z.pos m / 2 ^ (- e) in
      Z.max lo (Z.min hi (if s : bool then - v else v))
  end.
Definition as_u32 : spec_float -> Z := as_int 0 u32_max.
Definition as_i32 : spec_float -> Z := as_int (- 2 ^ 31) (2 ^ 31 - 1).
Definition fadd := SFadd 24 128.
Definition fsub := SFsub 24 128.
Definition fmul := SFmul 24 128.
Definition fdiv := SFdiv 24 128.
Definition fsqrt := SFsqrt 24 128.

Inductive violation :=
| SpeedHack (distance dt speed max_speed : Z) | OutOfBounds (x y z : Z) | IllegalHealthModification (current incoming : Z).
Record position_sample := PositionSample { px : spec_float; py : spec_float; pz : spec_float; timestamp_ms : Z }.
Definition verify_movement (prev next : position_sample) (max_speed_mps : spec_float) : result unit violation :=
  let dt_ms := sat_sub (timestamp_ms next) (timestamp_ms prev) in
  if dt_ms =? 0 then Ok ()
  else
    let dt_sec := fdiv (of_z dt_ms) (of_z 1000) in
    let dx := fsub (px next) (px prev) in
    let dy := fsub (py next) (py prev) in
    let dz := fsub (pz next) (pz prev) in
    let dist := fsqrt (fadd (fadd (fmul dx dx) (fmul dy dy)) (fmul dz dz)) in
    let allowed := fadd (fmul (fmul max_speed_mps dt_sec) (fdiv (of_z 3) (of_z 2))) (of_z 5) in
    if SFltb allowed dist then Err (SpeedHack (as_u32 dist) (as_u32 dt_sec) (as_u32 (fdiv dist dt_sec)) (as_u32 max_speed_mps)) else Ok ().
(** [RangeInclusive::contains]. *)
Definition within (lo hi : Z) (v : spec_float) : bool := SFleb (of_z lo) v && SFleb v (of_z hi).
Definition verify_world_bounds (x y z : spec_float) : result unit violation :=
  if negb (within (-4500) 5500 x) || negb (within (-4500) 8500 y) || negb (within (-200) 3000 z)
  then Err (OutOfBounds (as_i32 x) (as_i32 y) (as_i32 z)) else Ok ().
Definition verify_health_update (current incoming : Z) (is_server_granted : bool) : result unit violation :=
  if (current <? incoming) && negb is_server_granted then Err (IllegalHealthModification current incoming) else Ok ().

(** Health never rises without a grant, step by step. *)
Definition health_step (h : Z) (u : Z * bool) : Z := match verify_health_update h u.1 u.2 with Ok _ => u.1 | Err _ => h end.
Lemma health_bounded start updates : Forall (fun u => u.2 = false) updates -> run health_step start updates <= start.
Proof.
  intros Hu. apply (run_invariant_ops health_step (fun u => u.2 = false) (fun h => h <= start)); [|done|lia].
  intros h [v g] Hg Hh. cbn in Hg. subst g. unfold health_step, verify_health_update. cbn. rewrite andb_true_r. destruct (Z.ltb_spec h v); lia.
Qed.
(** A position that is not a number is out of bounds, but moving there is no
    violation; nor is any move within a millisecond or with an earlier stamp. *)
Lemma nan_out_of_bounds y z : is_ok (verify_world_bounds S754_nan y z) = false.
Proof. done. Qed.
Lemma stamp_not_later prev next max : timestamp_ms next <= timestamp_ms prev -> verify_movement prev next max = Ok ().
Proof. intros H. unfold verify_movement, sat_sub. by rewrite Z.max_l by lia. Qed.
Lemma nan_moves :
  let here := PositionSample (of_z 0) (of_z 0) (of_z 0) 0 in
  verify_movement here (PositionSample S754_nan (of_z 0) (of_z 0) 1000) (of_z 10) = Ok () /\
  verify_movement here (PositionSample (of_z 5000) (of_z 0) (of_z 0) 1000) (of_z 10) = Err (SpeedHack 5000 1 5000 10) /\
  verify_movement here (PositionSample (of_z 20) (of_z 0) (of_z 0) 1000) (of_z 10) = Ok ().
Proof. split_and!; vm_compute; reflexivity. Qed.
End AntiCheat.

(** ** Event spam *)
Module Ddos.
Import AntiCheat.
Record ddos_rate_limiter := DdosRateLimiter { capacity : Z; refill_rate_per_sec : Z; buckets : gmap text (spec_float * Z) }.
Definition limiter_new (capacity refill : Z) : ddos_rate_limiter := DdosRateLimiter capacity refill ∅.
(** [f32::min]: the other operand when one is not a number. *)
Definition fmin (a b : spec_float) : spec_float := match a with S754_nan => b | _ => if SFltb b a then b else a end.
Definition check_allow (l : ddos_rate_limiter) (key : text) (now_ms : Z) : bool * ddos_rate_limiter :=
  let '(tokens, last) := default (of_z (capacity l), now_ms) (buckets l !! key) in
  let elapsed := fdiv (of_z (sat_sub now_ms last)) (of_z 1000) in
  let tokens := fmin (fadd tokens (fmul elapsed (of_z (refill_rate_per_sec l)))) (of_z (capacity l)) in
  let '(ok, tokens) := if SFleb (of_z 1) tokens then (true, fsub tokens (of_z 1)) else (false, tokens) in
  (ok, DdosRateLimiter (capacity l) (refill_rate_per_sec l) (<[key := (tokens, now_ms)]> (buckets l))).

Definition limiter_step (st : ddos_rate_limiter * list (text * bool)) (o : text * Z) : ddos_rate_limiter * list (text * bool) :=
  let '(ok, l) := check_allow st.1 o.1 o.2 in (l, st.2 ++ [(o.1, ok)]).
Definition answers (key : text) (l : list (text * bool)) : list bool := (List.filter (fun a => bool_decide (a.1 = key)) l).*2.

Lemma check_allow_other l key key' now : key <> key' -> buckets (check_allow l key now).2 !! key' = buckets l !! key'.
Proof. intros Hk. unfold check_allow. destruct (default _ _) as [t last]. cbv zeta. destruct (SFleb _ _); cbn; by rewrite lookup_insert_ne. Qed.
Lemma check_allow_own l l' key now : capacity l = capacity l' -> refill_rate_per_sec l = refill_rate_per_sec l' -> buckets l !! key = buckets l' !! key ->
  (check_allow l key now).1 = (check_allow l' key now).1 /\ buckets (check_allow l key now).2 !! key = buckets (check_allow l' key now).2 !! key.
Proof.
  intros E1 E2 E3. unfold check_allow. rewrite E1, E2, E3. destruct (default _ _) as [t last]. cbv zeta. destruct (SFleb _ _); cbn; by rewrite !lookup_insert_eq.
Qed.
Lemma check_allow_config l key now : capacity (check_allow l key now).2 = capacity l /\ refill_rate_per_sec (check_allow l key now).2 = refill_rate_per_sec l.
Proof. unfold check_allow. destruct (default _ _) as [t last]. cbv zeta. by destruct (SFleb _ _). Qed.

(** What a key is answered depends on its own requests only: a run answers it as
    the run of its requests alone does. *)
Theorem keys_independent (cap refill : Z) (ops : list (text * Z)) (key : text) :
  answers key (run limiter_step (limiter_new cap refill, []) ops).2 =
  answers key (run limiter_step (limiter_new cap refill, []) (List.filter (fun o => bool_decide (o.1 = key)) ops)).2.
Proof.
  set (own := List.filter (fun o : text * Z => bool_decide (o.1 = key))).
  assert (H : let a := run limiter_step (limiter_new cap refill, []) ops in let b := run limiter_step (limiter_new cap refill, []) (own ops) in
    answers key a.2 = answers key b.2 /\ capacity a.1 = capacity b.1 /\ refill_rate_per_sec a.1 = refill_rate_per_sec b.1 /\ buckets a.1 !! key = buckets b.1 !! key);
    [|by destruct H].
  cbv zeta. induction ops as [|[k t] ops IH] using rev_ind; [done|]. unfold own in *. rewrite List.filter_app, !run_app. cbn [List.filter fst].
  set (a := run limiter_step _ ops) in *. set (b := run limiter_step _ (List.filter _ ops)) in *. clearbody a b. destruct IH as (I1 & I2 & I3 & I4).
  assert (Hans : forall l k b, answers key (l ++ [(k, b)]) = if bool_decide (k = key) then answers key l ++ [b] else answers key l).
  { intros l k0 b0. unfold answers. rewrite List.filter_app, fmap_app. cbn. destruct (bool_decide (k0 = key)); [done|by rewrite app_nil_r]. }
  assert (Hstep : forall st o, limiter_step st o = ((check_allow st.1 o.1 o.2).2, st.2 ++ [(o.1, (check_allow st.1 o.1 o.2).1)])).
  { intros st o. unfold limiter_step. by destruct (check_allow st.1 o.1 o.2). }
  cbn [run foldl]. rewrite Hstep. cbn [fst snd]. destruct (check_allow_config a.1 k t) as [-> ->]. rewrite Hans.
  destruct (decide (k = key)) as [->|Hk].
  - rewrite !bool_decide_true by done. unfold run. cbn [foldl]. rewrite Hstep. cbn [fst snd]. destruct (check_allow_config b.1 key t) as [-> ->].
    rewrite Hans, bool_decide_true by done. destruct (check_allow_own a.1 b.1 key t I2 I3 I4) as [-> ->]. split_and!; try done. by rewrite I1.
  - rewrite !bool_decide_false by done. unfold run. cbn [foldl]. rewrite check_allow_other by done. by split_and!.
Qed.
(** A burst passes its capacity and no more, and is refilled by the second. *)
Lemma burst_then_refill :
  answers [1] (run limiter_step (limiter_new 3 2, []) [([1], 0); ([1], 0); ([2], 0); ([1], 0); ([1], 0); ([1], 500); ([1], 500)]).2 =
  [true; true; true; false; true; false].
Proof. vm_compute. reflexivity. Qed.
End Ddos.

(** ** Client builds *)
Module Integrity.
Abbreviation verifier := (gmap text text).
Definition register_allowed_build (v : verifier) (build hash : text) : verifier := <[build := hash]> v.
Definition verify_client_hash (v : verifier) (build hash : text) : bool :=
  match v !! build with Some expected => bool_decide (to_lower expected = to_lower hash) | None => false end.

(** A client is accepted exactly with the digest registered last for its build,
    in any case. *)
Lemma verify_history (regs : list (text * text)) build hash :
  let v := run (fun v r => register_allowed_build v r.1 r.2) ∅ regs in
  verify_client_hash v build hash = true <->
  exists expected, last (omap (fun r => if bool_decide (r.1 = build) then Some r.2 else None) regs) = Some expected /\ to_lower expected = to_lower hash.
Proof.
  cbv zeta. set (f := fun r : text * text => _).
  assert (H : run (fun (v : verifier) r => register_allowed_build v r.1 r.2) ∅ regs !! build = last (omap f regs)).
  { induction regs as [|[b h] regs IH] using rev_ind; [done|]. rewrite run_app, omap_app. cbn [run foldl]. unfold register_allowed_build. cbn [fst snd].
    assert (Hf : omap f [(b, h)] = if bool_decide (b = build) then [h] else []) by (unfold f; cbn; by destruct (bool_decide _)). rewrite Hf.
    destruct (decide (b = build)) as [->|Hb]; [by rewrite lookup_insert_eq, bool_decide_true, last_snoc|].
    rewrite lookup_insert_ne, bool_decide_false by done. rewrite app_nil_r. exact IH. }
  unfold verify_client_hash. rewrite H. destruct (last _) as [x|]; [rewrite bool_decide_eq_true|]; split; try done.
  - intros Hx. by exists x.
  - by intros (? & [= <-] & ?).
  - by intros (? & [=] & ?).
Qed.
End Integrity.
