(* ===== verification/Upgrade.v ===== *)
(** The upgrade planner (crates/ald-upgrade-planner/src/lib.rs, module
    [Planner]) and the symbol service with crash fingerprints and the safe mode
    detector (crates/ald-symbol-service/src/lib.rs, [Symbols]). Versions are read
    and compared by the semver crate, a parameter. *)
From S2P Require Import Prelude RustStr Bytes.
From S2P Require Cache.

(** ** The planner *)
Module Planner.
Section planner.
(** [Version::parse], and the parts of a version the planner looks at. *)
Context {V : Type} `{EqDecision V} (parse : text -> result V text) (major minor : V -> Z).

Record upgrade_graph := UpgradeGraph {
  novagate : text; astryn : text; server_runtime : text; astranet_protocol : Z; framework : text; aegis : text; db_version : Z;
  packages : gmap text text }.
Record incompatibility := Incompatibility { component : text; i_current : text; i_target : text; i_reason : text; is_breaking : bool }.
Record client_update := ClientUpdate { client : text; from_version : text; to_version : text; mandatory : bool }.
Record db_migration_requirement := DbMigration { m_from : Z; m_to : Z; steps : Z; destructive : bool }.
Inductive rollback_limit := Safe | Conditional (warning : text) | Impossible (reason : text).
Inductive restart_requirement := RNone | HotReload | GracefulServerRestart | FullStackRestart.
Definition rank (r : restart_requirement) : nat := match r with RNone => 0 | HotReload => 1 | GracefulServerRestart => 2 | FullStackRestart => 3 end.
(** [Ord::max]. *)
Definition max (a b : restart_requirement) : restart_requirement := if (rank a <=? rank b)%nat then b else a.
Record upgrade_plan := UpgradePlan {
  p_current : upgrade_graph; p_target : upgrade_graph; incompatibilities : list incompatibility; client_updates : list client_update;
  db_migration : option db_migration_requirement; rollback : rollback_limit; restart : restart_requirement }.
Inductive planner_error := InvalidSemver (component version details : text).

Definition parse_version (component s : text) : result V planner_error :=
  match parse s with Ok v => Ok v | Err e => Err (InvalidSemver component s e) end.
(** A signed 64-bit result. *)
Definition i64 (z : Z) : Z := wrap 64 (z + 2 ^ 63) - 2 ^ 63.

(** One package of the target: whether it changed, and its incompatibility. *)
Definition package_step (current : upgrade_graph) (acc : result (bool * list incompatibility) planner_error) (pkg : text * text) :
    result (bool * list incompatibility) planner_error :=
  let? st := acc in
  match packages current !! pkg.1 with
  | None => Ok (true, st.2)
  | Some cur_str =>
      let? cur := parse_version pkg.1 cur_str in
      let? tgt := parse_version pkg.1 pkg.2 in
      if bool_decide (cur = tgt) then Ok st
      else if (major cur <? major tgt) || ((major cur =? 0) && (minor cur <? minor tgt))
      then Ok (true, st.2 ++ [Incompatibility (codes "package:" ++ pkg.1) cur_str pkg.2 (codes "Breaking package semver upgrade") true])
      else Ok (true, st.2)
  end.

Definition protocol_change (current target : upgrade_graph) : list incompatibility :=
  if astranet_protocol target =? astranet_protocol current then []
  else
    let up := astranet_protocol current <? astranet_protocol target in
    [Incompatibility (codes "AstraNet") (decimal (astranet_protocol current)) (decimal (astranet_protocol target))
       (codes (if up then "Protocol version bumped; older clients cannot connect" else "Target protocol version is older than current")) up].
Definition downgrade_reason (current target : upgrade_graph) : text :=
  codes "Target DB schema version (" ++ decimal_i64 (db_version target) ++ codes ") is older than current (" ++ decimal_i64 (db_version current) ++
  codes "); non-reversible migration".

Definition make_plan (current target : upgrade_graph) : result upgrade_plan planner_error :=
  let inc := protocol_change current target in
  let r := if astranet_protocol target =? astranet_protocol current then RNone else GracefulServerRestart in
  let? cur_srv := parse_version (codes "server_runtime") (server_runtime current) in
  let? tgt_srv := parse_version (codes "server_runtime") (server_runtime target) in
  let r := if bool_decide (cur_srv = tgt_srv) then r else max r GracefulServerRestart in
  let inc := if negb (bool_decide (cur_srv = tgt_srv)) && (major cur_srv <? major tgt_srv)
    then inc ++ [Incompatibility (codes "server_runtime") (server_runtime current) (server_runtime target) (codes "Major server runtime bump") true] else inc in
  let? cur_as := parse_version (codes "astryn") (astryn current) in
  let? tgt_as := parse_version (codes "astryn") (astryn target) in
  let bumped := astranet_protocol current <? astranet_protocol target in
  let updates := if negb (bool_decide (cur_as = tgt_as)) || bumped
    then [ClientUpdate (codes "astryn") (astryn current) (astryn target) ((major cur_as <? major tgt_as) || bumped)] else [] in
  let? cur_fw := parse_version (codes "framework") (framework current) in
  let? tgt_fw := parse_version (codes "framework") (framework target) in
  let fw_up := major cur_fw <? major tgt_fw in
  let inc := if fw_up then inc ++ [Incompatibility (codes "framework") (framework current) (framework target) (codes "Major framework version upgrade") true] else inc in
  let r := if fw_up then max r GracefulServerRestart else r in
  let? pk := foldl (package_step current) (Ok (false, inc)) (map_to_list (packages target)) in
  let inc := pk.2 in
  let r := if pk.1 : bool then max r HotReload else r in
  let db := if db_version target =? db_version current then None
    else Some (DbMigration (db_version current) (db_version target) (i64 (Z.abs (i64 (db_version target - db_version current)))) (db_version target <? db_version current)) in
  let r := match db with Some _ => max r FullStackRestart | None => r end in
  let limit := match db with
    | Some d => if destructive d then Impossible (downgrade_reason current target)
                else Conditional (codes "Rollback requires explicit database migration rollback script")
    | None => if existsb is_breaking inc then Conditional (codes "Breaking major changes detected in components or packages") else Safe
    end in
  Ok (UpgradePlan current target inc updates db limit r).

(** *** What a plan says *)
(** A package of the target that is new, or reads as another version. *)
Definition package_changed (current : upgrade_graph) (pkg : text * text) : Prop :=
  match packages current !! pkg.1 with
  | None => True
  | Some cur => exists v w, parse cur = Ok v /\ parse pkg.2 = Ok w /\ v <> w
  end.
Definition package_breaks (current : upgrade_graph) (pkg : text * text) : Prop :=
  exists cur v w, packages current !! pkg.1 = Some cur /\ parse cur = Ok v /\ parse pkg.2 = Ok w /\ v <> w /\
    (major v < major w \/ major v = 0 /\ minor v < minor w).

Lemma package_step_err current e l : foldl (package_step current) (Err e) l = Err e.
Proof. by induction l. Qed.
Lemma packages_spec current l : forall b inc st, foldl (package_step current) (Ok (b, inc)) l = Ok st ->
  (st.1 = true <-> b = true \/ Exists (package_changed current) l) /\
  (existsb is_breaking st.2 = true <-> existsb is_breaking inc = true \/ Exists (package_breaks current) l).
Proof.
  induction l as [|[n s] l IH]; intros b inc st; cbn [foldl]; [intros [= <-]; cbn; rewrite !Exists_nil; tauto|].
  cbn [package_step rbind fst snd]. rewrite !Exists_cons. unfold package_changed at 1, package_breaks at 1. cbn [fst snd].
  destruct (packages current !! n) as [cur|].
  2:{ intros H%IH. cbn [snd] in H. destruct H as [-> ->]. split; [tauto|]. split; [tauto|]. intros [?|[(? & ? & ? & [=] & _)|?]]; tauto. }
  unfold parse_version. destruct (parse cur) as [v|] eqn:Ev; [|cbn; by rewrite package_step_err]. cbn [rbind].
  destruct (parse s) as [w|] eqn:Ew; [|cbn; by rewrite package_step_err]. cbn [rbind]. case_bool_decide as Hvw.
  - intros H%IH. destruct H as [-> ->]. split; (split; [tauto|]).
    + intros [?|[(? & ? & [= <-] & [= <-] & ?)|?]]; tauto.
    + intros [?|[(? & ? & ? & [= <-] & E1 & [= <-] & ? & _)|?]]; [tauto| |tauto]. rewrite Ev in E1. injection E1 as <-. tauto.
  - destruct (_ || _) eqn:Eb; intros H%IH; cbn [snd] in H; destruct H as [-> ->].
    + rewrite existsb_app. cbn. rewrite orb_true_r. split; [split; [intros _; right; left; by exists v, w|by left]|].
      split; [|by left]. intros _. right. left. exists cur, v, w. split_and!; try done.
      apply orb_true_iff in Eb as [Eb|Eb]; [left; by bool_prop|]. apply andb_true_iff in Eb as [? ?]. bool_prop. right. lia.
    + split; [split; [intros _; right; left; by exists v, w|by left]|]. split; [tauto|].
      intros [?|[(? & ? & ? & [= <-] & E1 & [= <-] & _ & Hm)|?]]; [tauto| |tauto]. exfalso. rewrite Ev in E1. injection E1 as <-.
      apply orb_false_iff in Eb as [E1 E2]. apply Z.ltb_ge in E1. apply andb_false_iff in E2.
      destruct Hm as [?|[E3 E4]]; [lia|]. rewrite E3, Z.eqb_refl in E2. apply Z.ltb_lt in E4. rewrite E4 in E2. by destruct E2.
Qed.

Definition graceful (current target : upgrade_graph) : Prop :=
  astranet_protocol target <> astranet_protocol current \/
  (exists v w, parse (server_runtime current) = Ok v /\ parse (server_runtime target) = Ok w /\ v <> w) \/
  (exists v w, parse (framework current) = Ok v /\ parse (framework target) = Ok w /\ major v < major w).

Lemma rank_max a b : rank (max a b) = Nat.max (rank a) (rank b).
Proof. unfold max. destruct (Nat.leb_spec (rank a) (rank b)); lia. Qed.
Lemma rank_inj a b : rank a = rank b -> a = b.
Proof. by destruct a, b. Qed.

(** The restart a plan asks for is the most severe of its reasons: the whole
    stack exactly when the schema version changes, else a graceful restart
    exactly when the protocol, the server version or the framework's major
    version calls for it, else a reload exactly when a package of the target is
    new or changed. Rolling back is impossible exactly below the current schema,
    and safe only if the schema stays. *)
Theorem make_plan_spec (current target : upgrade_graph) (p : upgrade_plan) : make_plan current target = Ok p ->
  (restart p = FullStackRestart <-> db_version target <> db_version current) /\
  (restart p = GracefulServerRestart <-> db_version target = db_version current /\ graceful current target) /\
  (restart p = HotReload <-> db_version target = db_version current /\ ~ graceful current target /\ Exists (package_changed current) (map_to_list (packages target))) /\
  (is_Some (db_migration p) <-> db_version target <> db_version current) /\
  ((exists reason, rollback p = Impossible reason) <-> db_version target < db_version current) /\
  (rollback p = Safe -> db_version target = db_version current /\ astranet_protocol target <= astranet_protocol current /\
     ~ Exists (package_breaks current) (map_to_list (packages target))).
Proof.
  unfold make_plan. cbv zeta. unfold parse_version at 1 2. destruct (parse (server_runtime current)) as [cs|] eqn:Ecs; [|done]. cbn [rbind].
  destruct (parse (server_runtime target)) as [ts|] eqn:Ets; [|done]. cbn [rbind]. unfold parse_version at 1 2.
  destruct (parse (astryn current)) as [ca|]; [|done]. cbn [rbind]. destruct (parse (astryn target)) as [ta|]; [|done]. cbn [rbind].
  unfold parse_version at 1 2. destruct (parse (framework current)) as [cf|] eqn:Ecf; [|done]. cbn [rbind].
  destruct (parse (framework target)) as [tf|] eqn:Etf; [|done]. cbn [rbind].
  set (inc := if major cf <? major tf then _ else _). destruct (foldl _ _ _) as [[changed inc']|] eqn:Ef; [|done].
  apply packages_spec in Ef as [Hch Hbr]. cbn [rbind fst snd] in *.
  set (r0 := if astranet_protocol target =? _ then RNone else _). set (r1 := if bool_decide (cs = ts) then _ else _). set (r2 := if major cf <? _ then max _ _ else _).
  set (r3 := if changed then _ else _).
  assert (Hr2 : (rank r2 = 2%nat <-> graceful current target) /\ (rank r2 = 0%nat <-> ~ graceful current target)).
  { assert (Hg : graceful current target <-> astranet_protocol target <> astranet_protocol current \/ cs <> ts \/ major cf < major tf).
    { unfold graceful. rewrite Ecs, Ets, Ecf, Etf. split.
      - intros [?|[(? & ? & [= <-] & [= <-] & ?)|(? & ? & [= <-] & [= <-] & ?)]]; auto.
      - intros [?|[?|?]]; [by left|right; left; by exists cs, ts|right; right; by exists cf, tf]. }
    rewrite Hg. subst r2 r1 r0. destruct (Z.eqb_spec (astranet_protocol target) (astranet_protocol current)), (bool_decide_reflect (cs = ts)), (Z.ltb_spec (major cf) (major tf));
      cbn; naive_solver lia. }
  assert (Hr2' : rank r2 = 0%nat \/ rank r2 = 2%nat).
  { subst r2 r1 r0. destruct (_ =? _), (bool_decide _), (_ <? _); cbn; auto. }
  assert (Hch' : changed = true <-> Exists (package_changed current) (map_to_list (packages target))) by (rewrite Hch; naive_solver).
  assert (Hr3 : rank r3 = Nat.max (rank r2) (if changed then 1 else 0)%nat).
  { subst r3. destruct changed; [by rewrite rank_max|lia]. }
  intros [= <-]. cbn [restart db_migration rollback].
  assert (Hk : forall (x y : restart_requirement), x = y <-> rank x = rank y) by (intros x y; split; [by intros ->|apply rank_inj]). rewrite !Hk.
  destruct (Z.eqb_spec (db_version target) (db_version current)) as [Hdb|Hdb].
  - rewrite Hr3. cbn [rank]. split_and!.
    + destruct changed; split; try lia; naive_solver.
    + destruct Hr2 as [Ha Hb]. rewrite <- Ha. destruct changed; split; try lia; intros; (split; [done|lia]).
    + destruct Hr2 as [Ha Hb]. rewrite <- Hb, <- Hch'. destruct changed; split; try lia; try naive_solver; intros; split_and!; try done; lia.
    + split; [by intros [? [=]]|done].
    + split; [|lia]. destruct (existsb _ _); by intros [? [=]].
    + destruct (existsb is_breaking inc') eqn:Eb; [done|]. intros _. split_and!; [done| |intros Hx; assert (false = true) by (apply Hbr; by right); done].
      destruct (Z.le_gt_cases (astranet_protocol target) (astranet_protocol current)); [done|exfalso].
      assert (Hinc : existsb is_breaking inc = true); [|assert (false = true) by (apply Hbr; by left); done].
      assert (Hpc : existsb is_breaking (protocol_change current target) = true).
      { unfold protocol_change. rewrite (proj2 (Z.eqb_neq _ _)) by lia. cbn. by rewrite (proj2 (Z.ltb_lt _ _)). }
      subst inc. destruct (_ <? _), (negb _ && _); rewrite ?existsb_app, Hpc; done.
  - assert (Hr4 : rank (max r3 FullStackRestart) = 3%nat) by (rewrite rank_max; cbn; destruct changed; lia). rewrite Hr4. cbn [rank].
    split_and!.
    + done.
    + split; [lia|by intros [? _]].
    + split; [lia|by intros [? _]].
    + split; [done|]. intros _. by eexists.
    + destruct (Z.ltb_spec (db_version target) (db_version current)) as [Hlt|Hge]; cbn [destructive].
      * split; [done|]. intros _. by eexists.
      * split; [by intros [? [=]]|lia].
    + cbn [destructive]. by destruct (db_version target <? db_version current); intros [=].
Qed.
End planner.

(** The launcher, the control panel, a minor version of the framework and the
    packages that go away are not compared. *)
Lemma plan_blind :
  let parse (l : text) : result text text := Ok l in
  let number (l : text) := default 0 (head l) in
  let cur := UpgradeGraph (codes "0.1.0") [1] [1] 1 [1; 0] (codes "0.1.0") 1 {[codes "shop" := [1]]} in
  let tgt := UpgradeGraph (codes "9.0.0") [1] [1] 1 [1; 7] (codes "9.0.0") 1 ∅ in
  (restart <$> (match make_plan parse number number cur tgt with Ok p => Some p | Err _ => None end)) = Some RNone /\
  (rollback <$> (match make_plan parse number number cur tgt with Ok p => Some p | Err _ => None end)) = Some Safe.
Proof. split; vm_compute; reflexivity. Qed.
End Planner.

(** ** Crash reports *)
Module Symbols.
Inductive dump_platform := WindowsMinidump | LinuxCoreDump | GenericPanic.
Record raw_crash_dump := RawCrashDump {
  report_id : text; platform : dump_platform; build_id : text; artifact_id : text; game_edition : text; game_build : Z;
  resource_context : option text; fault_address : Z; raw_frames : list Z; panic_message : option text }.
Record symbol_info := SymbolInfo { symbol_name : text; s_file : option text; s_line : option Z }.
Record symbolicated_frame := SymbolicatedFrame { address : Z; symbol : option symbol_info }.
Record report := Report {
  r_id : text; r_fingerprint : text; r_platform : dump_platform; r_context : option text; r_fault : Z; r_frames : list symbolicated_frame;
  r_message : option text }.
Abbreviation symbol_table := (gmap Z symbol_info).
Definition table_insert (t : symbol_table) (a : Z) (i : symbol_info) : symbol_table := <[a := i]> t.
Definition resolve (t : symbol_table) (a : Z) : option symbol_info := t !! a.
Inductive symbol_error := BuildNotFound (build : text).
Abbreviation symbol_service := (gmap text symbol_table).
Definition register_table (s : symbol_service) (build : text) (t : symbol_table) : symbol_service := <[build := t]> s.

Section symbols.
Context (sha : list Z -> list Z).
(** What the digest is taken of. *)
Definition fingerprint_input (d : raw_crash_dump) : list Z :=
  build_id d ++ default [] (resource_context d) ++ (take 5 (raw_frames d) ≫= le_bytes 8).
Definition compute_fingerprint (d : raw_crash_dump) : text := take 16 (hex (sha (fingerprint_input d))).
Definition symbolicate (s : symbol_service) (raw : raw_crash_dump) : result report symbol_error :=
  match s !! build_id raw with
  | None => Err (BuildNotFound (build_id raw))
  | Some table =>
      Ok (Report (report_id raw) (compute_fingerprint raw) (platform raw) (resource_context raw) (fault_address raw)
        ((fun a => SymbolicatedFrame a (resolve table a)) <$> raw_frames raw) (panic_message raw))
  end.
End symbols.

(** Dumps with the same build, context and top five frames share a fingerprint;
    but the parts are joined without separators, so that a build id and a
    resource name can trade places. *)
Lemma fingerprint_dedup sha a b : build_id a = build_id b -> resource_context a = resource_context b -> take 5 (raw_frames a) = take 5 (raw_frames b) ->
  compute_fingerprint sha a = compute_fingerprint sha b.
Proof. unfold compute_fingerprint, fingerprint_input. by intros -> -> ->. Qed.
Lemma fingerprint_ambiguous sha :
  let d build ctx := RawCrashDump [] GenericPanic (codes build) [] [] 0 ctx 0 [16] None in
  compute_fingerprint sha (d "build-1chat" None) = compute_fingerprint sha (d "build-1" (Some (codes "chat"))).
Proof. done. Qed.

(** *** Safe mode *)
Record safe_mode_state := SafeMode { is_active : bool; reason : text; culprit_resources : list text; recovery_steps : list text }.
Record detector := Detector { crash_history : list (Z * raw_crash_dump); crash_threshold : nat; window_ms : Z }.
Definition detector_new (threshold : nat) (window : Z) : detector := Detector [] threshold window.
Definition record_crash (d : detector) (crash : raw_crash_dump) (t : Z) : detector :=
  let cutoff := sat_sub t (window_ms d) in
  Detector (List.filter (fun c => cutoff <=? c.1) (crash_history d ++ [(t, crash)])) (crash_threshold d) (window_ms d).
(** [resource_counts], the entry API of the map. *)
Definition count_step (m : gmap text nat) (c : Z * raw_crash_dump) : gmap text nat :=
  match resource_context c.2 with Some r => <[r := S (default 0%nat (m !! r))]> m | None => m end.
Definition resource_counts (l : list (Z * raw_crash_dump)) : gmap text nat := foldl count_step ∅ l.
Fixpoint join (sep : text) (l : list text) : text :=
  match l with [] => [] | [x] => x | x :: l => x ++ sep ++ join sep l end.
Definition culprits (d : detector) : list text :=
  Cache.sort_texts (List.filter (fun r => (crash_threshold d / 2 <? default 0 (resource_counts (crash_history d) !! r))%nat)
    (map_to_list (resource_counts (crash_history d))).*1).
Definition evaluate (d : detector) : option safe_mode_state :=
  if (length (crash_history d) <? crash_threshold d)%nat then None
  else
    let c := culprits d in
    Some (SafeMode true (codes "Crash loop detected: " ++ decimal (len (crash_history d)) ++ codes " crashes within window") c
      (if bool_decide (c = [])
       then codes <$> ["Revert to last known-good runtime artifact build"; "Check system dependencies and database connection limits"; "Restart server daemon in SAFE_MODE"]%string
       else [codes "Quarantine or disable culprit resource(s): " ++ join (codes ", ") c; codes "Inspect resource script logs and memory allocations";
             codes "Restart ald-server in SAFE_MODE with isolated resources"])).

Definition blamed (r : text) (l : list (Z * raw_crash_dump)) : nat := length (List.filter (fun c => bool_decide (resource_context c.2 = Some r)) l).
Lemma resource_counts_spec l r : default 0%nat (resource_counts l !! r) = blamed r l.
Proof.
  unfold resource_counts, blamed. induction l as [|c l IH] using rev_ind; [done|]. rewrite foldl_app, List.filter_app, length_app, <- IH. cbn [foldl List.filter].
  unfold count_step at 1. destruct (resource_context c.2) as [r'|]; [|rewrite bool_decide_false by done; cbn; lia].
  destruct (decide (r' = r)) as [->|Hr]; [rewrite lookup_insert_eq, bool_decide_true by done; cbn; lia|].
  rewrite lookup_insert_ne, bool_decide_false by congruence. cbn. lia.
Qed.

Definition detector_step (d : detector) (c : Z * raw_crash_dump) : detector := record_crash d c.2 c.1.
(** The crashes a run keeps, when the clock does not go back. *)
Lemma history_window threshold window cs t c : StronglySorted (fun a b : Z * raw_crash_dump => a.1 <= b.1) (cs ++ [(t, c)]) ->
  crash_history (run detector_step (detector_new threshold window) (cs ++ [(t, c)])) =
  List.filter (fun x => sat_sub t window <=? x.1) (cs ++ [(t, c)]).
Proof.
  assert (Hkeep : forall l, let d := run detector_step (detector_new threshold window) l in window_ms d = window /\ crash_threshold d = threshold).
  { intros l. cbv zeta. apply (run_invariant detector_step (fun d => window_ms d = window /\ crash_threshold d = threshold)); [|done]. by intros d o [? ?]. }
  intros Hs. rewrite run_app. cbn [run foldl]. unfold detector_step at 1, record_crash. cbn [fst snd crash_history].
  fold (run detector_step (detector_new threshold window) cs). rewrite (proj1 (Hkeep cs)). revert t c Hs.
  induction cs as [|[t' c'] cs IH] using rev_ind; intros t c Hs; [done|].
  apply StronglySorted_app in Hs as (Hx & Hs & _). specialize (Hx (t', c') (t, c) ltac:(set_solver) ltac:(set_solver)). cbn in Hx.
  rewrite run_app. cbn [run foldl]. unfold detector_step at 1, record_crash. cbn [fst snd crash_history]. fold (run detector_step (detector_new threshold window) cs).
  rewrite (proj1 (Hkeep cs)), (IH t' c' Hs), !List.filter_app. f_equal.
  assert (Hf : forall l : list (Z * raw_crash_dump), List.filter (fun x => sat_sub t window <=? x.1) (List.filter (fun x => sat_sub t' window <=? x.1) l) =
    List.filter (fun x => sat_sub t window <=? x.1) l).
  { induction l as [|x l IHl]; [done|]. cbn. destruct (Z.leb_spec (sat_sub t' window) x.1) as [Hle|Hgt]; cbn; [by rewrite IHl|].
    rewrite (proj2 (Z.leb_gt _ _)) by (unfold sat_sub in *; lia). exact IHl. }
  by rewrite <- !List.filter_app, Hf.
Qed.

(** With a clock that does not go back, safe mode is on after a crash exactly
    when the crashes within the window reach the threshold, and then blames, in
    order and once each, the resources with more than half of the threshold. *)
Theorem safe_mode_spec (threshold : nat) (window : Z) (cs : list (Z * raw_crash_dump)) (t : Z) (c : raw_crash_dump) :
  StronglySorted (fun a b : Z * raw_crash_dump => a.1 <= b.1) (cs ++ [(t, c)]) ->
  let recent := List.filter (fun x => sat_sub t window <=? x.1) (cs ++ [(t, c)]) in
  let r := evaluate (run detector_step (detector_new threshold window) (cs ++ [(t, c)])) in
  (is_Some r <-> (threshold <= length recent)%nat) /\
  (forall s, r = Some s -> NoDup (culprit_resources s) /\ StronglySorted (fun a b => Is_true (text_leb a b)) (culprit_resources s) /\
     forall x, x ∈ culprit_resources s <-> (threshold / 2 < blamed x recent)%nat).
Proof.
  intros Hs recent r. pose proof (history_window threshold window cs t c Hs) as Hh. fold recent in Hh.
  assert (Hth : crash_threshold (run detector_step (detector_new threshold window) (cs ++ [(t, c)])) = threshold).
  { apply (run_invariant detector_step (fun d => crash_threshold d = threshold)); [|done]. by intros d o ?. }
  subst r. set (d := run _ _ _) in *. clearbody d. unfold evaluate. rewrite Hh, Hth. destruct (Nat.ltb_spec (length recent) threshold) as [Hlt|Hge].
  - split; [|done]. split; [by intros [? [=]]|lia].
  - split; [split; [done|by eexists]|]. intros s [= <-]. cbn [culprit_resources]. unfold culprits. rewrite Hh, Hth. split_and!.
    + unfold Cache.sort_texts. rewrite merge_sort_Permutation. apply Cache.NoDup_without, NoDup_fst_map_to_list.
    + apply (StronglySorted_merge_sort (fun a b => Is_true (text_leb a b))).
    + intros x. rewrite Cache.elem_of_sort_texts, list_elem_of_In, List.filter_In, <- list_elem_of_In, Cache.elem_of_keys, resource_counts_spec, Nat.ltb_lt.
      split; [tauto|]. intros Hb. split; [|done]. rewrite <- resource_counts_spec in Hb. destruct (resource_counts recent !! x); [by eexists|cbn in Hb; lia].
Qed.

(** Only another crash ages the history: once on, safe mode stays however long
    nothing crashes. *)
Lemma stays_active :
  let d := RawCrashDump [] GenericPanic [] [] [] 0 None 0 [] None in
  is_Some (evaluate (run detector_step (detector_new 2 1000) [(0, d); (1, d)])).
Proof. by eexists. Qed.
End Symbols.
